(* ===== verification/_CoqProject ===== *)
-Q . S2P
Prelude.v
GoLib.v
Flags.v
Store.v
Glob.v
RespWriter.v
RespReader.v
AofCodec.v
AofReplay.v
AofLog.v
ScanSessions.v
Engine.v
Expiration.v
EngineRecovery.v
Command.v
Conn.v
System.v
Server.v
Main.v
Client.v
Cmdgen.v
