(* ===== verification/Prelude.v ===== *)
(** * A verification development for go-kv-store

    go-kv-store is a networked key-value store: RESP2 requests over TCP, a map with expiry in
    memory, and an append-only file from which the map is rebuilt at start. This library
    models its Go code, from the command line and the bytes on the socket to the bytes on
    disk, with the example client on the other end, and proves that the parts fit together.

    ** The program and its model

    The Go packages call each other in one direction; the files follow them.

    - [Prelude], [GoLib], [Flags]: nothing of the repository. Bytes, results, tactics; the
      machine integers, [strconv], [strings], [sort] and [time] operations the sources use;
      [flag.FlagSet] with the integers, durations and booleans it reads.
    - [Store] (internal/store/store.go): the two maps. The record [Store], one function per
      method. Specification: a map from keys to a value and an optional deadline, [tick]
      removing what a deadline has taken; [view] is what is visible at an instant.
    - [Glob] (internal/glob/glob.go): [Match] with its indices, against a declarative
      semantics of patterns.
    - [RespWriter] (internal/resp/writer.go): the encoder over [bufio.Writer] over an
      [io.Writer] that may fail (class [Sink] with its laws, instantiated by an in-memory
      buffer). [emits] is the specification of a write.
    - [RespReader] (internal/resp/reader.go): the request decoder with its limits, its
      growing buffer and its error classes.
    - [AofCodec] (internal/aof/record.go, codec.go): effect records and their encoding.
    - [AofReplay] (internal/aof/header.go, replay.go, open.go): header, replay into anything
      that implements [Applier] (discharged by the store), opening and repairing a file.
    - [AofLog] (internal/aof/log.go): the log under its mutex and its writer goroutine, a
      program counter that moves between critical sections and calls of the file; [act] is
      one atomic action of an appender, of [Close] or of the writer, [sys] the whole state.
      [fail] and the report behind it, [finish] and the closing of [done] are steps apart.
    - [ScanSessions] (internal/engine/scan_sessions.go): the manager of SCAN snapshots;
      [first_page] and [next_page] say what a call answers and which iterations stay open.
    - [Engine] (internal/engine/engine.go, incr.go, discovery.go): every method as a function
      of what the engine's lock protects. The log is the class [Logger], implemented by
      [AofLog.sys]; so the theorems hold for any log with its laws.
    - [Expiration] (internal/engine/engine.go): the goroutines behind [StartExpiration] and
      [StopExpiration], their channels included.
    - [EngineRecovery]: the engine on top of a running log, any interleaving of mutations,
      sweeps, background writing and failure ([estep]), and what a restart recovers.
    - [Command] (internal/command): the registry, arities, option parsers and handlers;
      [sem_cmd] is the meaning of each command on the abstract map.
    - [Conn] (internal/server/conn.go, flush_on_block.go): one connection's loop, reading
      through [flushBeforeRead], and the encoding of replies.
    - [System]: the parts put together, from a client's packets to a crash and the next
      start. A command runs in its two halves, under the engine's lock and waiting for its
      record, with everything else going on in between ([wstep]).
    - [Server] (internal/server/server.go, supervisor.go): accept loop, connection limit,
      supervisor and both shutdowns as one transition system [step].
    - [Main] (cmd/kv-server/main.go): the process, from its command line through
      configuration and recovery to its exit status.
    - [Client] (examples/go-client/main.go): the example program, in a monad with its output
      and its ways to stop, over the client library redigo as the class [Redigo], whose
      documented behaviour are the laws [RedigoLaws] and [Serves].
    - [Cmdgen] (internal/cmdgen/cmdgen.go): the generator of random command sequences.

    ** What the theorems show

    - Data in memory. The store and the engine implement a map with expiry, on every branch,
      draining included, whatever expired entries are still held ([store_simulation],
      [engine_refines_map]); expiry is decided by the clock alone, sweeping is invisible and
      bounded; every command answers and does what [sem_cmd], and for SCAN the sessions'
      specification, says ([dispatch_refines]), with the type its name promises
      ([replies_well_typed]); an error has changed nothing ([error_changes_nothing]); no
      handler indexes out of range.
    - Durability. The headline is [client_can_trust_reply]: whatever else goes on, a reply a
      client has read off its socket answers its request, and after a crash the next start
      shows a state at or beyond the command's own record. Recovery after a crash at any byte
      shows exactly the state after some logged mutation, at or beyond every one acknowledged
      at any moment of the run, before a failure of the log too
      ([recovery_prefix_consistent], from [replay_after_crash] and the log's markers;
      [acknowledged_survives] is the same for one instant of the log alone); a reply waits
      for its record ([reply_waits_for_durability]); a failed log stays failed and acknowledges nothing
      more; the writer loses no wake-up ([writer_makes_progress]).
    - The wire. Encoder and decoder are inverse; what the decoder accepts is a request within
      the limits; its memory is bounded by what arrived, not by what was declared; the client
      receives exactly the encoded replies of its requests in order, however the bytes are
      cut and whenever they are flushed ([connection_refines_reference]), has them all before
      the server waits for it, and cannot mistake them for others
      ([reply_stream_unambiguous]).
    - The life cycle. Connections and the limit are accounted for; from draining on no data
      changes; a process that exits with status 0 has lost nothing: the same command line on
      the file it left serves what it held last ([exit_zero_restarts], from
      [clean_exit_loses_nothing]'s account of [Run]); every flag reaches its option and
      nothing else ([flags_roundtrip]); a fatal condition is never swallowed; a shutdown that has begun ends
      ([shutdown_returns]) and no scan session outlives it; a stopped expiration worker never sweeps again
      ([stopped_worker_is_gone]); the server starts from exactly what the file holds.
    - A client. The example program runs to its end against a fresh server and prints the
      transcript its comments promise ([client_session]).

    A property whose theorem has hypotheses comes with a witness: a concrete run, evaluated,
    to which the theorem is applied. [Example]s record single behaviours worth knowing, among
    them [lost_wakeup] ([Server]), [deadline_is_truncated] ([EngineRecovery]),
    [parseInt_width_matters] ([RespReader]), [second_start_leaks_ticker] ([Expiration]) and
    [commands_exercised] ([Client]).

    ** Conventions, bounds and fuel

    - A [string] or [[]byte] is a list of bytes, an [int] a [Z] with 64-bit wrap-around
      written out ([wraps]) where the code does arithmetic that could reach the bounds, an
      instant a [Z] of nanoseconds, a duration an int64 number of them.
    - What the code takes from outside is an argument or a nondeterministic step: the clock,
      the order of a loop over a Go map (any permutation of its entries, [ranges]), random
      numbers, what a file or a socket does with a call, when a time-out fires, the order in
      which goroutines run. A hypothesis says at most what the documentation of that thing
      promises.
    - Goroutines interleave at critical sections, channel operations and calls; between those
      a step is atomic. The Go memory model is taken as sequentially consistent there, which
      the mutexes of the code justify.
    - Fuel: [Glob.Match] gets enough for every match and is proved to finish; [Replay] gets
      one unit per byte of the file and one more, each record taking at least one byte, and
      is proved total; [serve] needs one unit per byte the client sends and one more, and
      with a random source that fails or offers more tokens than there are sessions it
      returns ([connection_ends]); [read_chunks] one per chunk of the declared length. No theorem is
      of the form "if it returns" without its companion that it does.
    - Records are assumed to be within the decoder's default limits where recovery must read
      them back ([readable]), and sequence numbers not to pass 2^64 - 1.

    ** Not modelled

    - The library redigo below the example client: a class with laws, instantiated by a
      server in the same process for the witness. Unicode's table of printable runes, which
      the client's quoting asks beyond Latin-1, is an argument.
    - Logging, [Addr] and the text of wrapped Go errors beyond what a caller or a client can
      tell apart.
    - The delivery of signals (the step that ends [LServe]) and the outcome of [net.Listen]
      (an argument of [run]).
    - [guard] and [recoverConn]: they act on panics, which a request is shown not to
      raise ([dispatch_never_panics], [connection_ends]); panics of the Go runtime (memory exhaustion) are
      outside the model.
    - Elapsed time as such: a deadline or a ticker may fire at any moment. The intervals
      (100 ms for sweeps, one second for syncs) therefore appear only where the code computes
      with them. *)

From Corelib Require Export ssreflect.
From stdpp Require Export base tactics list gmap strings numbers sorting relations.
From Stdlib Require Export Strings.Byte.

#[global] Open Scope Z_scope.
#[global] Open Scope general_if_scope.

(** ** Bytes and byte strings *)

(** A Go [string] or [[]byte] is a list of 8-bit bytes; no encoding is assumed. *)
Abbreviation bytes := (list byte).

#[export] Instance byte_eq_decision : EqDecision byte := Byte.byte_eq_dec.

#[export] Program Instance byte_countable : Countable byte :=
  inj_countable Byte.to_N Byte.of_N _.
Next Obligation.
intros b. apply Byte.of_to_N.
Qed.

(** The bytes of a source literal. *)
Definition str (s : string) : bytes := String.list_byte_of_string s.

Definition CR : byte := x0d.
Definition LF : byte := x0a.
Definition CRLF : bytes := [CR; LF].

(** The numeric value of a byte, and the byte of a number taken modulo 256. *)
Definition bval (b : byte) : Z := Z.of_N (Byte.to_N b).
Definition byte_of (z : Z) : byte :=
  match Byte.of_N (Z.to_N (z mod 256)) with Some b => b | None => x00 end.

(** [len(s)] as a Go [int]. *)
Definition len {A} (l : list A) : Z := Z.of_nat (length l).

(** ** Results of fallible code *)

Inductive result (E A : Type) : Type :=
| Ret (a : A)
| Fail (e : E).
Arguments Ret {E A} a.
Arguments Fail {E A} e.

Declare Scope go_scope.
Delimit Scope go_scope with go.
#[global] Open Scope go_scope.

(** [if x, err := c; err != nil { return err }; k] *)
Notation "'try' x ':=' c 'in' k" :=
  (match c with Ret x => k | Fail e => Fail e end)
  (at level 10, x pattern, k at level 200) : go_scope.

(** ** Tactics *)

(** Case analysis on the first boolean integer comparison or conditional of the goal. *)
Ltac case_cmp :=
  match goal with
  | |- context [Z.ltb ?a ?b] => destruct (Z.ltb_spec a b)
  | |- context [Z.leb ?a ?b] => destruct (Z.leb_spec a b)
  | |- context [Z.eqb ?a ?b] => destruct (Z.eqb_spec a b)
  end.

(** The same for a hypothesis. *)
Ltac case_cmp_in H :=
  match type of H with
  | context [Z.ltb ?a ?b] => destruct (Z.ltb_spec a b)
  | context [Z.leb ?a ?b] => destruct (Z.leb_spec a b)
  | context [Z.eqb ?a ?b] => destruct (Z.eqb_spec a b)
  end.

(** Destructs every [match] of the goal, keeping equations and simplifying. *)
Ltac split_match := repeat (case_match; simplify_eq/=).

Create HintDb kv.
Create Rewrite HintDb kv.

(** ** Bytes: elementary facts *)

Lemma bval_range (b : byte) : 0 <= bval b < 256.
Proof. rw /bval. have := Byte.to_N_bounded b. lia. Qed.

Lemma bval_inj (a b : byte) : bval a = bval b -> a = b.
Proof.
  rw /bval => H. have Ha := Byte.of_to_N a. have Hb := Byte.of_to_N b.
  have E : Byte.to_N a = Byte.to_N b by lia.
  rw E in Ha. congruence.
Qed.

Lemma bval_byte_of (z : Z) : 0 <= z < 256 -> bval (byte_of z) = z.
Proof.
  intros Hz. rw /byte_of /bval Z.mod_small //.
  destruct (Byte.of_N (Z.to_N z)) as [b|] eqn:E.
  - apply Byte.to_of_N in E. lia.
  - apply Byte.of_N_None_iff in E. lia.
Qed.

Lemma byte_of_bval (b : byte) : byte_of (bval b) = b.
Proof. apply bval_inj, bval_byte_of, bval_range. Qed.

(** ** Lists *)

Lemma len_nonneg {A} (l : list A) : 0 <= len l.
Proof. rw /len. lia. Qed.

Lemma len_nil {A} : len (@nil A) = 0.
Proof. done. Qed.

Lemma len_cons {A} (x : A) (l : list A) : len (x :: l) = 1 + len l.
Proof. rw /len /=. lia. Qed.

Lemma len_app {A} (l k : list A) : len (l ++ k) = len l + len k.
Proof. rw /len length_app. lia. Qed.

#[export] Hint Rewrite @len_nil @len_cons @len_app : kv.
#[export] Hint Resolve len_nonneg bval_range : kv.

(** Arithmetic on lengths: pushes [len] through constructors, then [lia]. *)
Ltac len_lia := autorewrite with kv in *; rw ?/len in *; simpl in *; lia.

Lemma concat_fmap_app {A B} (f : A -> list B) (l k : list A) :
  concat (f <$> (l ++ k)) = concat (f <$> l) ++ concat (f <$> k).
Proof. by rw fmap_app concat_app. Qed.

(** A prefix of a concatenation of non-empty blocks is some whole blocks followed
    by a proper prefix of the next one. *)
Lemma prefix_concat_blocks {A} `{EqDecision B} (f : A -> list B) (l : list A) (p : list B) :
  p `prefix_of` concat (f <$> l) ->
  p = concat (f <$> l) \/
  exists l1 x l2 q, l = l1 ++ x :: l2 /\ p = concat (f <$> l1) ++ q /\
    q `prefix_of` f x /\ q <> f x.
Proof.
  revert p. induction l as [|x l IH] => p Hp.
  { left. by apply prefix_nil_inv in Hp. }
  destruct (decide (f x `prefix_of` p)) as [[p' ->]|Hn].
  - move: Hp => /=. move=> /prefix_app_inv Hp.
    destruct (IH _ Hp) as [->|(l1 & y & l2 & q & -> & -> & Hq & Hne)]; [by left|].
    right. exists (x :: l1), y, l2, q. by rw /= -app_assoc.
  - right. exists [], x, l, p. split_and!; [done|done| |].
    + destruct Hp as [k Hk]. simpl in Hk.
      destruct (prefix_weak_total p (f x) (p ++ k)) as [?|?]; [by apply prefix_app_r| |done|done].
      rw -Hk. by apply prefix_app_r.
    + intros ->. by apply Hn.
Qed.
