(* ===== verification/GoLib.v ===== *)
(** * The parts of the Go language and standard library the sources use

    Machine integers at their width, [strconv], [strings.ToUpper]/[ToLower],
    [sort.Strings] and the arithmetic of [time.Time]/[time.Duration]. Nothing here
    models a file of the repository; the components build on it. *)

From S2P Require Import Prelude.

(** ** Machine integers *)

Definition maxInt64 : Z := 2 ^ 63 - 1.
Definition minInt64 : Z := - 2 ^ 63.
Definition maxUint64 : Z := 2 ^ 64 - 1.

(** Unsigned and two's-complement wrap-around at [w] bits. *)
Definition wrapu (w z : Z) : Z := z mod 2 ^ w.
Definition wraps (w z : Z) : Z := (z + 2 ^ (w - 1)) mod 2 ^ w - 2 ^ (w - 1).

Definition is_int64 (z : Z) : Prop := minInt64 <= z <= maxInt64.
Definition is_uint64 (z : Z) : Prop := 0 <= z <= maxUint64.

(** The conversion [int8(b)]. *)
Definition int8 (b : byte) : Z := wraps 8 (bval b).

(** ** Time: nanoseconds

    A [time.Time] is the number of nanoseconds since the Unix epoch, a
    [time.Duration] a number of nanoseconds. Instants are unbounded: the sources add
    durations of at most 292 years to the current time, far inside what [time.Time]
    represents. *)

Definition nanosecond : Z := 1.
Definition millisecond : Z := 1000000.
Definition second : Z := 1000000000.

(** The zero [time.Time], 0001-01-01 00:00:00 UTC. *)
Definition time_zero : Z := -62135596800 * second.

Definition Before (a b : Z) : bool := a <? b.

(** [t.Sub(u)], which saturates at the bounds of a [time.Duration]. *)
Definition time_Sub (t u : Z) : Z := Z.max minInt64 (Z.min maxInt64 (t - u)).

(** [t.UnixMilli()] rounds towards the past; [time.UnixMilli(ms)] is exact. *)
Definition UnixMilli (t : Z) : Z := t / millisecond.
Definition of_UnixMilli (ms : Z) : Z := ms * millisecond.

(** [d.Milliseconds()] truncates towards zero. *)
Definition Milliseconds (d : Z) : Z := Z.quot d millisecond.

(** ** [strconv] *)

Definition is_digit (c : byte) : bool := (48 <=? bval c) && (bval c <=? 57).
Definition digit_val (c : byte) : Z := bval c - 48.
Definition digit (d : Z) : byte := byte_of (48 + d).

(** The digits of [n], most significant first, by repeated division. *)
Fixpoint digits_of (fuel : nat) (n : Z) (acc : bytes) : bytes :=
  match fuel with
  | O => acc
  | S fuel =>
      let acc := digit (n mod 10) :: acc in
      if n <? 10 then acc else digits_of fuel (n / 10) acc
  end.

(** [strconv.FormatUint(n, 10)]: 20 digits are enough for 64 bits. *)
Definition FormatUint (n : Z) : bytes := digits_of 20 n [].

(** [strconv.FormatInt(n, 10)] and [strconv.AppendInt]. *)
Definition FormatInt (n : Z) : bytes :=
  if n <? 0 then "-"%byte :: FormatUint (- n) else FormatUint n.

(** The digit loop of [strconv.ParseUint] with its two overflow tests. *)
Fixpoint parse_uint_loop (n : Z) (s : bytes) : option Z :=
  match s with
  | [] => Some n
  | c :: s =>
      if negb (is_digit c) then None
      else if maxUint64 / 10 + 1 <=? n then None
      else
        let n := n * 10 in
        let n1 := wrapu 64 (n + digit_val c) in
        if n1 <? n then None else parse_uint_loop n1 s
  end.

(** [strconv.ParseUint(s, 10, 64)]; the callers never look at which error it is. *)
Definition ParseUint (s : bytes) : option Z :=
  match s with [] => None | _ => parse_uint_loop 0 s end.

(** [strconv.ParseInt(s, 10, 64)]. *)
Definition ParseInt (s : bytes) : option Z :=
  match s with
  | [] => None
  | c :: s' =>
      let neg := bool_decide (c = "-"%byte) in
      let body := if neg || bool_decide (c = "+"%byte) then s' else s in
      match ParseUint body with
      | None => None
      | Some un =>
          if negb neg && (2 ^ 63 <=? un) then None
          else if neg && (2 ^ 63 <? un) then None
          else Some (if neg then - un else un)
      end
  end.

(** ** [strings] *)

Definition upper_byte (c : byte) : byte :=
  if (97 <=? bval c) && (bval c <=? 122) then byte_of (bval c - 32) else c.
Definition lower_byte (c : byte) : byte :=
  if (65 <=? bval c) && (bval c <=? 90) then byte_of (bval c + 32) else c.

(** [strings.ToUpper], as far as its result is ASCII. It maps Unicode code points:
    beside the ASCII letters exactly two code points have an ASCII upper case, U+0131
    (bytes C4 B1, to "I") and U+017F (bytes C5 BF, to "S"). [None] is any other result:
    it contains a code point above U+007F and so differs from every ASCII string. *)
Fixpoint ToUpper (s : bytes) : option bytes :=
  match s with
  | [] => Some []
  | c :: s' =>
      if bval c <? 128 then cons (upper_byte c) <$> ToUpper s'
      else
        match s' with
        | d :: s'' =>
            if bool_decide (c = xc4) && bool_decide (d = xb1) then cons "I"%byte <$> ToUpper s''
            else if bool_decide (c = xc5) && bool_decide (d = xbf) then cons "S"%byte <$> ToUpper s''
            else None
        | [] => None
        end
  end.

(** [strings.ToLower] on an ASCII string. *)
Definition ToLower (s : bytes) : bytes := lower_byte <$> s.

(** [strings.HasPrefix]. *)
Definition HasPrefix (s p : bytes) : bool := bool_decide (p `prefix_of` s).

(** ** [sort.Strings]: bytewise lexicographic order *)

Fixpoint bytes_leb (a b : bytes) : bool :=
  match a, b with
  | [], _ => true
  | _ :: _, [] => false
  | x :: a, y :: b => (bval x <? bval y) || ((bval x =? bval y) && bytes_leb a b)
  end.
Definition bytes_le (a b : bytes) : Prop := bytes_leb a b = true.

#[export] Instance bytes_le_dec a b : Decision (bytes_le a b) := decide (bytes_leb a b = true).

Definition sort_Strings (keys : list bytes) : list bytes := merge_sort bytes_le keys.

(** ** Facts: [strconv] *)

Fixpoint dec_value (n : Z) (s : bytes) : Z :=
  match s with [] => n | c :: s => dec_value (n * 10 + digit_val c) s end.

Definition all_digits (s : bytes) : bool := forallb is_digit s.

Lemma wraps_small n : 0 <= n <= maxInt64 -> wraps 64 n = n.
Proof. rw /maxInt64 => H. rw /wraps Z.mod_small; lia. Qed.

Lemma wraps_range n : is_int64 (wraps 64 n).
Proof.
  rw /is_int64 /minInt64 /maxInt64 /wraps. have := Z.mod_pos_bound (n + 2 ^ (64 - 1)) (2 ^ 64) ltac:(done). lia.
Qed.

Lemma is_digit_range c : is_digit c = true -> 0 <= digit_val c <= 9.
Proof. rw /is_digit /digit_val. intros [?%Z.leb_le ?%Z.leb_le]%andb_prop. lia. Qed.

Lemma digit_spec d : 0 <= d < 10 -> is_digit (digit d) = true /\ digit_val (digit d) = d.
Proof.
  intros Hd. rw /is_digit /digit_val /digit bval_byte_of; [lia|]. split; [|lia].
  apply andb_true_iff; split; apply Z.leb_le; lia.
Qed.

Lemma dec_value_mono n m s : 0 <= n <= m -> all_digits s = true -> n <= dec_value n s <= dec_value m s.
Proof.
  revert n m. induction s as [|c s IH] => n m Hn /=; [lia|].
  intros [Hc Hs]%andb_prop. apply is_digit_range in Hc.
  have := IH (n * 10 + digit_val c) (m * 10 + digit_val c) ltac:(lia) Hs. lia.
Qed.

Lemma dec_value_app n s t : dec_value n (s ++ t) = dec_value (dec_value n s) t.
Proof. revert n. induction s as [|c s IH] => n //=. Qed.

(** The digits [digits_of] writes read back to the number, and there are few of them. *)
Lemma digits_of_spec fuel n acc :
  0 <= n < 10 ^ Z.of_nat fuel -> exists ds, digits_of fuel n acc = ds ++ acc /\
    all_digits ds = true /\ dec_value 0 ds = n /\ (length ds <= fuel)%nat /\
    match ds with [] => fuel = O | c :: ds' => bval c <> 48 \/ ds' = [] /\ n = 0 end.
Proof.
  revert n acc. induction fuel as [|fuel IH] => n acc Hn.
  { exists []. change (10 ^ Z.of_nat 0) with 1 in Hn. split_and!; simpl; try done; lia. }
  have Hm : 0 <= n mod 10 < 10 by apply Z.mod_pos_bound.
  destruct (digit_spec _ Hm) as [Hd Hv]. have Hb : bval (digit (n mod 10)) = 48 + n mod 10.
  { rw /digit bval_byte_of; lia. }
  simpl. case_cmp.
  - exists [digit (n mod 10)]. have E : n mod 10 = n by (apply Z.mod_small; lia).
    simpl. rw Hd /= Hv Hb E. split_and!; try done; try lia.
    destruct (decide (n = 0)) as [->|]; [by right|left; lia].
  - destruct (IH (n / 10) (digit (n mod 10) :: acc)) as (ds & -> & Hds & Hval & Hl & Hz).
    { split; [apply Z.div_pos; lia|]. apply Z.div_lt_upper_bound; [lia|].
      rw Nat2Z.inj_succ Z.pow_succ_r in Hn; lia. }
    exists (ds ++ [digit (n mod 10)]). rw -app_assoc /all_digits forallb_app dec_value_app /= Hd Hv Hval.
    split_and!; try done.
    + by rw (_ : forallb is_digit ds = true).
    + rw {3}(Z.div_mod n 10); lia.
    + rw length_app /=. lia.
    + destruct ds as [|c ds']; [subst fuel|].
      * simpl in *. have : n / 10 = 0 by lia. have := Z.div_mod n 10. lia.
      * simpl. destruct Hz as [?|[_ ?]]; [by left|]. have := Z.div_mod n 10. lia.
Qed.

Lemma FormatUint_spec n : 0 <= n < 10 ^ 20 ->
  all_digits (FormatUint n) = true /\ dec_value 0 (FormatUint n) = n /\
  (1 <= length (FormatUint n) <= 20)%nat /\
  (head (FormatUint n) = Some (digit 0) -> FormatUint n = [digit 0]).
Proof.
  intros Hn. destruct (digits_of_spec 20 n []) as (ds & E & Hd & Hv & Hl & Hz); [done|].
  rw /FormatUint E app_nil_r. destruct ds as [|c ds]; [done|]. simpl length in *.
  split_and!; try done; [lia|]. simpl. intros [= ->]. by destruct Hz as [|[-> _]].
Qed.

Lemma parse_uint_loop_spec n s : 0 <= n <= maxUint64 ->
  parse_uint_loop n s =
    if all_digits s && (dec_value n s <=? maxUint64) then Some (dec_value n s) else None.
Proof.
  revert n. induction s as [|c s IH] => n Hn /=.
  { by case_cmp; [|lia]. }
  rw -/(all_digits s).
  destruct (is_digit c) eqn:Hc; [simpl|done]. have Hd := is_digit_range _ Hc.
  have Hmax : maxUint64 = 18446744073709551615 by done.
  have Hq : maxUint64 / 10 + 1 = 1844674407370955162 by done.
  rw Hq. destruct (Z.leb_spec 1844674407370955162 n).
  { destruct (all_digits s) eqn:Hs; [simpl|done]. case_cmp; [|done].
    have := dec_value_mono (n * 10 + digit_val c) (n * 10 + digit_val c) s ltac:(lia) Hs. lia. }
  rw /wrapu. destruct (decide (n * 10 + digit_val c <= maxUint64)) as [Hle|Hgt].
  - rw Z.mod_small; [lia|]. case_cmp; [lia|]. apply IH. lia.
  - rw (_ : (n * 10 + digit_val c) mod 2 ^ 64 = n * 10 + digit_val c - 2 ^ 64).
    { rw -(Z_mod_plus_full _ (-1)). rw Z.mod_small; lia. }
    case_cmp; [|lia]. destruct (all_digits s) eqn:Hs; [simpl|done]. case_cmp; [|done].
    have := dec_value_mono (n * 10 + digit_val c) (n * 10 + digit_val c) s ltac:(lia) Hs. lia.
Qed.

Lemma ParseUint_spec s : s <> [] ->
  ParseUint s =
    if all_digits s && (dec_value 0 s <=? maxUint64) then Some (dec_value 0 s) else None.
Proof. intros Hs. rw /ParseUint. destruct s; [done|]. by apply parse_uint_loop_spec. Qed.

Lemma ParseUint_FormatUint n : is_uint64 n -> ParseUint (FormatUint n) = Some n.
Proof.
  rw /is_uint64 /maxUint64 => Hn. destruct (FormatUint_spec n) as (Hd & Hv & Hl & _); [lia|].
  rw ParseUint_spec; [by destruct (FormatUint n); simpl in *; [lia|]|].
  rw Hd Hv /maxUint64. by case_cmp; [|lia].
Qed.

Lemma all_digits_head_not c s : all_digits (c :: s) = true -> c <> "-"%byte /\ c <> "+"%byte.
Proof. simpl. intros [H _]%andb_prop. by split; intros ->. Qed.

(** [strconv.ParseInt] reads back what [strconv.FormatInt] wrote. *)
Lemma ParseInt_FormatInt n : is_int64 n -> ParseInt (FormatInt n) = Some n.
Proof.
  rw /is_int64 /minInt64 /maxInt64 => Hn. rw /FormatInt. case_cmp.
  - simpl. rw ParseUint_FormatUint; [rw /is_uint64 /maxUint64; lia|]. simpl.
    case_cmp; [lia|]. f_equal. lia.
  - destruct (FormatUint_spec n) as (Hd & _ & Hl & _); [lia|].
    have HU := ParseUint_FormatUint n ltac:(rw /is_uint64 /maxUint64; lia).
    destruct (FormatUint n) as [|c s] eqn:E; [simpl in *; lia|].
    destruct (all_digits_head_not _ _ Hd) as [? ?]. rw /ParseInt.
    do 2 (rw bool_decide_eq_false_2; [done|]). rw HU /=. by case_cmp; [lia|].
Qed.

(** Whatever [strconv.ParseInt] accepts fits an [int64]. *)
Lemma ParseInt_range s n : ParseInt s = Some n -> is_int64 n.
Proof.
  rw /ParseInt. destruct s as [|c s]; [done|]. set body := if _ || _ then s else _.
  destruct (ParseUint body) as [un|] eqn:HU; [|done].
  have Hun : 0 <= un.
  { rw /ParseUint in HU. destruct body as [|d body]; [done|].
    rw parse_uint_loop_spec in HU; [done|]. destruct (all_digits _) eqn:Hd; [|done].
    simpl andb in HU. case_cmp_in HU; [|done]. injection HU as <-.
    have Hm := dec_value_mono 0 0 (d :: body) ltac:(lia) Hd. simpl in Hm. lia. }
  rw /is_int64 /minInt64 /maxInt64. destruct (bool_decide (c = "-"%byte)); simpl.
  - case_cmp; [done|]. intros [= <-]. lia.
  - case_cmp; [done|]. intros [= <-]. lia.
Qed.

(** ** Facts: [sort.Strings] *)

#[export] Instance bytes_le_total : Total bytes_le.
Proof.
  rw /bytes_le. intros a. induction a as [|x a IH] => b; [by left|].
  destruct b as [|y b]; [by right|]. simpl.
  destruct (Z.lt_trichotomy (bval x) (bval y)) as [H|[H|H]].
  - left. apply Z.ltb_lt in H. by rw H.
  - rw H Z.ltb_irrefl Z.eqb_refl /=. apply IH.
  - right. apply Z.ltb_lt in H. by rw H.
Qed.

#[export] Instance bytes_le_trans : Transitive bytes_le.
Proof.
  rw /bytes_le. intros a. induction a as [|x a IH] => b c; [done|].
  destruct b as [|y b]; [done|]. destruct c as [|z c]; [done|]. simpl.
  intros [H1%Z.ltb_lt|[H1%Z.eqb_eq H1']%andb_prop]%orb_prop
         [H2%Z.ltb_lt|[H2%Z.eqb_eq H2']%andb_prop]%orb_prop; apply orb_true_iff.
  - left. apply Z.ltb_lt. lia.
  - left. apply Z.ltb_lt. lia.
  - left. apply Z.ltb_lt. lia.
  - right. apply andb_true_iff. split; [apply Z.eqb_eq; lia|by eapply IH].
Qed.

#[export] Instance bytes_le_antisymm : AntiSymm (=) bytes_le.
Proof.
  rw /bytes_le. intros a. induction a as [|x a IH] => b; [by destruct b|].
  destruct b as [|y b]; [done|]. simpl.
  intros [H1%Z.ltb_lt|[H1%Z.eqb_eq H1']%andb_prop]%orb_prop
         [H2%Z.ltb_lt|[H2%Z.eqb_eq H2']%andb_prop]%orb_prop; try lia.
  f_equal; [by apply bval_inj|by apply IH].
Qed.

Lemma sort_Strings_perm keys : sort_Strings keys ≡ₚ keys.
Proof. apply merge_sort_Permutation. Qed.

Lemma sort_Strings_sorted keys : StronglySorted bytes_le (sort_Strings keys).
Proof. apply StronglySorted_merge_sort; apply _. Qed.

(** Sorting depends only on the multiset of keys, so on none of Go's map orders. *)
Lemma sort_Strings_proper keys keys' :
  keys ≡ₚ keys' -> sort_Strings keys = sort_Strings keys'.
Proof.
  intros H. eapply (StronglySorted_unique bytes_le); eauto using sort_Strings_sorted.
  by rw !sort_Strings_perm.
Qed.
