(* ===== verification/Flags.v ===== *)
(** * Command lines (the standard library's [flag], [strconv] and [time], as
    src/cmd/kv-server/main.go uses them)

    [FlagSet.Parse] with the kinds of flags the server registers. An integer flag is read by
    [strconv.ParseInt] with base 0 (prefixes and underscores), a duration by
    [time.ParseDuration], whose fractions go through float64, here the executable
    specification of IEEE 754. Nothing here models a file of the repository; [Main] registers
    its flags with it. *)

From Stdlib Require Import Floats.SpecFloat.
From S2P Require Import Prelude.
From S2P Require Import GoLib.

(** ** [strconv.ParseInt(s, 0, 64)] *)

(** [lower(c)] of [strconv]: sets bit 5. *)
Definition lower (c : byte) : Z := Z.lor (bval c) 32.

(** The value of a digit or letter. *)
Definition digit36 (c : byte) : option Z :=
  if is_digit c then Some (digit_val c)
  else if (97 <=? lower c) && (lower c <=? 122) then Some (lower c - 97 + 10)
  else None.

(** The base a prefix selects, and what follows the prefix. *)
Definition base_prefix (s : bytes) : Z * bytes :=
  match s with
  | "0"%byte :: c :: d :: s' =>
      if lower c =? 98 then (2, d :: s')
      else if lower c =? 111 then (8, d :: s')
      else if lower c =? 120 then (16, d :: s')
      else (8, c :: d :: s')
  | "0"%byte :: s' => (8, s')
  | _ => (10, s)
  end.

(** The digit loop: the number and whether there were underscores. *)
Fixpoint parse_base_loop (base n : Z) (underscores : bool) (s : bytes) : option (Z * bool) :=
  match s with
  | [] => Some (n, underscores)
  | c :: s =>
      if bool_decide (c = "_"%byte) then parse_base_loop base n true s
      else
        match digit36 c with
        | None => None
        | Some d =>
            if base <=? d then None
            else if maxUint64 / base + 1 <=? n then None
            else
              let n := n * base in
              let n1 := wrapu 64 (n + d) in
              if n1 <? n then None else parse_base_loop base n1 underscores s
        end
  end.

(** [underscoreOK]: an underscore stands between digits, or between a prefix and a digit.
    [i] is the class of the previous character: 1 for a digit or a prefix, 2 for an
    underscore, 0 for anything else. *)
Fixpoint underscore_loop (hex : bool) (i : Z) (s : bytes) : bool :=
  match s with
  | [] => negb (i =? 2)
  | c :: s =>
      if is_digit c || (hex && (97 <=? lower c) && (lower c <=? 102)) then underscore_loop hex 1 s
      else if bool_decide (c = "_"%byte) then if i =? 1 then underscore_loop hex 2 s else false
      else if i =? 2 then false
      else underscore_loop hex 0 s
  end.
Definition underscoreOK (s : bytes) : bool :=
  let s := match s with c :: s' => if bool_decide (c = "-"%byte) || bool_decide (c = "+"%byte) then s' else s | [] => s end in
  match s with
  | "0"%byte :: c :: s' =>
      if (lower c =? 98) || (lower c =? 111) || (lower c =? 120) then underscore_loop (lower c =? 120) 1 s'
      else underscore_loop false 0 s
  | _ => underscore_loop false 0 s
  end.

Definition ParseUint0 (s : bytes) : option Z :=
  match s with
  | [] => None
  | _ =>
      let '(base, body) := base_prefix s in
      match parse_base_loop base 0 false body with
      | None => None
      | Some (n, underscores) => if underscores && negb (underscoreOK s) then None else Some n
      end
  end.

Definition ParseInt0 (s : bytes) : option Z :=
  match s with
  | [] => None
  | c :: s' =>
      let neg := bool_decide (c = "-"%byte) in
      let body := if neg || bool_decide (c = "+"%byte) then s' else s in
      match ParseUint0 body with
      | None => None
      | Some un =>
          if negb neg && (2 ^ 63 <=? un) then None
          else if neg && (2 ^ 63 <? un) then None
          else Some (if neg then - un else un)
      end
  end.

(** ** [strconv.ParseBool] *)

Definition ParseBool (s : bytes) : option bool :=
  if bool_decide (s ∈ [str "1"; str "t"; str "T"; str "true"; str "TRUE"; str "True"]) then Some true
  else if bool_decide (s ∈ [str "0"; str "f"; str "F"; str "false"; str "FALSE"; str "False"]) then Some false
  else None.

(** ** [time.ParseDuration] *)

(** [leadingInt]: the number and what follows the digits; [None] on overflow. *)
Fixpoint leadingInt (x : Z) (s : bytes) : option (Z * bytes) :=
  match s with
  | c :: s' =>
      if negb (is_digit c) then Some (x, s)
      else if 2 ^ 63 / 10 <? x then None
      else
        let x := x * 10 + digit_val c in
        if 2 ^ 63 <? x then None else leadingInt x s'
  | [] => Some (x, [])
  end.

Definition f64_mul : spec_float -> spec_float -> spec_float := SFmul 53 1024.
Definition f64_div : spec_float -> spec_float -> spec_float := SFdiv 53 1024.
Definition f64_of (z : Z) : spec_float := binary_normalize 53 1024 z 0 false.

(** [uint64(f)] of a float in range: truncation. *)
Definition f64_trunc (f : spec_float) : Z :=
  match f with
  | S754_finite false m e => if 0 <=? e then Zpos m * 2 ^ e else Zpos m / 2 ^ (- e)
  | _ => 0
  end.

(** [leadingFraction]: digits beyond what fits are read and ignored. *)
Fixpoint leadingFraction (x : Z) (scale : spec_float) (overflow : bool) (s : bytes) : Z * spec_float * bytes :=
  match s with
  | c :: s' =>
      if negb (is_digit c) then (x, scale, s)
      else if overflow then leadingFraction x scale true s'
      else if (2 ^ 63 - 1) / 10 <? x then leadingFraction x scale true s'
      else
        let y := x * 10 + digit_val c in
        if 2 ^ 63 <? y then leadingFraction x scale true s'
        else leadingFraction y (f64_mul scale (f64_of 10)) false s'
  | [] => (x, scale, [])
  end.

(** The longest prefix without a point or a digit. *)
Fixpoint unit_name (s : bytes) : bytes * bytes :=
  match s with
  | c :: s' =>
      if bool_decide (c = "."%byte) || is_digit c then ([], s)
      else let '(u, rest) := unit_name s' in (c :: u, rest)
  | [] => ([], [])
  end.

(** [unitMap]; a micro sign is U+00B5, a mu U+03BC. *)
Definition unitMap : list (bytes * Z) :=
  [(str "ns", 1); (str "us", 1000); ([xc2; xb5; "s"%byte], 1000); ([xce; xbc; "s"%byte], 1000);
   (str "ms", millisecond); (str "s", second); (str "m", 60 * second); (str "h", 3600 * second)].
Fixpoint find_unit (u : bytes) (l : list (bytes * Z)) : option Z :=
  match l with [] => None | (n, z) :: l => if bool_decide (n = u) then Some z else find_unit u l end.

(** The loop over number-unit pairs; every round takes a character, so the length is fuel. *)
Fixpoint duration_loop (fuel : nat) (d : Z) (s : bytes) : option Z :=
  match s, fuel with
  | [], _ => Some d
  | _, O => None
  | c :: _, S fuel =>
      if negb (bool_decide (c = "."%byte) || is_digit c) then None
      else
        match leadingInt 0 s with
        | None => None
        | Some (v, s1) =>
            let pre := negb (Nat.eqb (length s1) (length s)) in
            let '(f, scale, post, s2) :=
              match s1 with
              | "."%byte :: s1' =>
                  let '(f, scale, s2) := leadingFraction 0 (f64_of 1) false s1' in
                  (f, scale, negb (Nat.eqb (length s2) (length s1')), s2)
              | _ => (0, f64_of 1, false, s1)
              end in
            if negb pre && negb post then None
            else
              let '(u, s3) := unit_name s2 in
              match u, find_unit u unitMap with
              | [], _ | _, None => None
              | _, Some unit =>
                  if 2 ^ 63 / unit <? v then None
                  else
                    let v := v * unit in
                    let v := if 0 <? f then v + f64_trunc (f64_mul (f64_of f) (f64_div (f64_of unit) scale)) else v in
                    if 2 ^ 63 <? v then None
                    else
                      let d := wrapu 64 (d + v) in
                      if 2 ^ 63 <? d then None else duration_loop fuel d s3
              end
        end
  end.

Definition ParseDuration (s : bytes) : option Z :=
  let neg := bool_decide (head s = Some "-"%byte) in
  let s := if neg || bool_decide (head s = Some "+"%byte) then tail s else s in
  if bool_decide (s = str "0") then Some 0
  else
    match s with
    | [] => None
    | _ =>
        match duration_loop (length s) 0 s with
        | None => None
        | Some d => if neg then Some (- d) else if 2 ^ 63 - 1 <? d then None else Some d
        end
    end.

(** ** [FlagSet.Parse] *)

(** What [Parse] reports: [-help] that is not a flag, a flag's value refused or missing, an
    unknown flag, a malformed one. *)
Inductive flag_err := ErrHelp | BadValue (name : bytes) | NeedsArgument (name : bytes) | NotDefined (name : bytes) | BadSyntax (arg : bytes).

Section flag_set.
Context {O : Type}.

(** A registered flag writes through its pointer into the options [O]. *)
Record flag := mkFlag { f_name : bytes; f_is_bool : bool; f_set : bytes -> O -> option O }.

(** The values [fs.Int], [fs.Duration], [fs.Bool] and [fs.String] register: how each reads
    its text, and [set], the store through its pointer. *)
Definition Var {A : Type} (read : bytes -> option A) (is_bool : bool) (name : bytes) (set : A -> O -> O) : flag :=
  mkFlag name is_bool (fun s o => (fun v => set v o) <$> read s).
Definition Int : bytes -> (Z -> O -> O) -> flag := Var ParseInt0 false.
Definition Duration : bytes -> (Z -> O -> O) -> flag := Var ParseDuration false.
Definition Bool : bytes -> (bool -> O -> O) -> flag := Var ParseBool true.
Definition String_ : bytes -> (bytes -> O -> O) -> flag := Var Some false.

Fixpoint find_flag (name : bytes) (fs : list flag) : option flag :=
  match fs with [] => None | f :: fs => if bool_decide (f_name f = name) then Some f else find_flag name fs end.

(** [name=value], cut at the first equal sign. *)
Fixpoint split_eq (s : bytes) : bytes * option bytes :=
  match s with
  | [] => ([], None)
  | c :: s => if bool_decide (c = "="%byte) then ([], Some s) else let '(n, v) := split_eq s in (c :: n, v)
  end.

(** [parseOne] until it stops: at the end, at an argument that is no flag, behind [--]. *)
Fixpoint Parse (fs : list flag) (args : list bytes) (o : O) : result flag_err (O * list bytes) :=
  match args with
  | [] => Ret (o, [])
  | s :: rest =>
      if (len s <? 2) || negb (bool_decide (head s = Some "-"%byte)) then Ret (o, args)
      else if bool_decide (s = str "--") then Ret (o, rest)
      else
        let name := drop (if bool_decide (s !! 1%nat = Some "-"%byte) then 2%nat else 1%nat) s in
        if bool_decide (head name = None) || bool_decide (head name = Some "-"%byte) || bool_decide (head name = Some "="%byte)
        then Fail (BadSyntax s)
        else
          let '(name, value) := split_eq name in
          match find_flag name fs with
          | None => Fail (if bool_decide (name = str "help") || bool_decide (name = str "h") then ErrHelp else NotDefined name)
          | Some f =>
              if f_is_bool f then
                match f_set f (default (str "true") value) o with
                | None => Fail (BadValue name)
                | Some o => Parse fs rest o
                end
              else
                match value, rest with
                | Some v, _ =>
                    match f_set f v o with None => Fail (BadValue name) | Some o => Parse fs rest o end
                | None, v :: rest =>
                    match f_set f v o with None => Fail (BadValue name) | Some o => Parse fs rest o end
                | None, [] => Fail (NeedsArgument name)
                end
          end
  end.

(** The argument that sets a flag. *)
Definition flag_arg (name value : bytes) : bytes := "-"%byte :: name ++ "="%byte :: value.

Lemma split_eq_app name value : "="%byte ∉ name -> split_eq (name ++ "="%byte :: value) = (name, Some value).
Proof.
  induction name as [|c name IH]; [done|]. intros [Hc Hn]%not_elem_of_cons. cbn [app split_eq].
  rw bool_decide_eq_false_2 // IH //.
Qed.

(** A flag's name: not empty, no equal sign, no leading minus. *)
Definition good_name (name : bytes) : bool :=
  negb (bool_decide (name = [])) && bool_decide ("="%byte ∉ name) && negb (bool_decide (head name = Some "-"%byte)).

Lemma Parse_flag_arg fs name value rest o f o' : good_name name = true -> find_flag name fs = Some f ->
  f_set f value o = Some o' -> Parse fs (flag_arg name value :: rest) o = Parse fs rest o'.
Proof.
  rw /good_name => /andb_prop [/andb_prop [Hne Heq] Hm] Hf Hs. apply bool_decide_eq_true_1 in Heq.
  destruct name as [|c name]; [done|]. have Hc : c <> "-"%byte. { intros ->. by rw bool_decide_eq_true_2 in Hm. }
  have Hc' : c <> "="%byte by intros ->; apply Heq; constructor. rw {1}/flag_arg. cbn [Parse app]. rw len_cons len_cons.
  have Hl := len_nonneg (name ++ "="%byte :: value). destruct (Z.ltb_spec (1 + (1 + len (name ++ "="%byte :: value))) 2); [lia|].
  rw (bool_decide_eq_true_2 (head _ = _)) //. cbn [negb orb].
  rw (bool_decide_eq_false_2 (_ = str "--")); [by intros [= ?]|].
  rw (bool_decide_eq_false_2 (_ !! 1%nat = _)); [by intros [= ?]|]. cbn [drop head].
  do 3 (rw bool_decide_eq_false_2; [by intros [= ?]|]). cbn [orb].
  rw (split_eq_app (c :: name)) // Hf. destruct (f_is_bool f); by rw Hs.
Qed.

Lemma find_flag_elem name fs f : find_flag name fs = Some f -> f ∈ fs /\ f_name f = name.
Proof.
  induction fs as [|g fs IH]; [done|]. cbn [find_flag]. case_bool_decide; [intros [= <-]; split; [left|done]|].
  intros Hf. destruct (IH Hf). split; [by right|done].
Qed.

(** What every registered flag preserves, a parsed command line has. *)
Lemma Parse_inv (P : O -> Prop) fs : (forall f v o o', f ∈ fs -> f_set f v o = Some o' -> P o -> P o') ->
  forall n args o o' rest, (length args <= n)%nat -> P o -> Parse fs args o = Ret (o', rest) -> P o'.
Proof.
  intros Hf n. induction n as [|n IH] => args o o' rest Hn Ho.
  { destruct args; [|simpl in Hn; lia]. by intros [= <- _]. }
  destruct args as [|s args]; [by intros [= <- _]|]. cbn [Parse]. simpl in Hn.
  destruct (_ || _); [by intros [= <- _]|]. destruct (bool_decide _); [by intros [= <- _]|]. destruct (_ || _); [done|].
  destruct (split_eq _) as [name value]. destruct (find_flag name fs) as [f|] eqn:Ef; [|done].
  apply find_flag_elem in Ef as [Ef _]. destruct (f_is_bool f), value as [v|], args as [|a args]; simpl in Hn; try done;
    (case_match; [|done]); apply IH; eauto; simpl; lia.
Qed.

(** ** Arguments of the form [-name=value], one after the other *)

Definition set_flag (fs : list flag) (p : bytes * bytes) (o : O) : option O := find_flag p.1 fs ≫= fun f => f_set f p.2 o.
Definition set_flags (fs : list flag) (ps : list (bytes * bytes)) (o : option O) : option O :=
  foldl (fun o p => o ≫= set_flag fs p) o ps.

Lemma set_flags_None fs ps : set_flags fs ps None = None.
Proof. by induction ps. Qed.

Lemma set_flags_cons fs p ps o o1 : set_flag fs p o = Some o1 ->
  set_flags fs (p :: ps) (Some o) = set_flags fs ps (Some o1).
Proof. intros H. rw /set_flags. cbn [foldl mbind option_bind]. by rw H. Qed.

Lemma Parse_set_flags fs ps o o' : Forall (fun p => good_name p.1 = true) ps -> set_flags fs ps (Some o) = Some o' ->
  Parse fs ((fun p => flag_arg p.1 p.2) <$> ps) o = Ret (o', []).
Proof.
  intros Hg. revert o. induction Hg as [|p ps Hp _ IH] => o; [by intros [= ->]|].
  rw /set_flags. cbn [foldl mbind option_bind fmap list_fmap]. rw -/(set_flags _ _ _) {1}/set_flag.
  destruct (find_flag p.1 fs) as [f|] eqn:Ef; [|by rw set_flags_None].
  cbn [mbind option_bind]. destruct (f_set f p.2 o) as [o1|] eqn:Es; [|by rw set_flags_None].
  intros H. by rw (Parse_flag_arg fs p.1 p.2 _ o f o1 Hp Ef Es) IH.
Qed.

(** Flags that write to different places may be given in any order. *)
Definition independent (fs : list flag) : Prop :=
  forall p q o, p.1 <> q.1 -> (set_flag fs p o ≫= set_flag fs q) = (set_flag fs q o ≫= set_flag fs p).

(** A flag that stores through a pointer of its own. *)
Lemma independent_of fs :
  (forall f g v w o, f ∈ fs -> g ∈ fs -> f_name f <> f_name g -> (f_set f v o ≫= f_set g w) = (f_set g w o ≫= f_set f v)) ->
  independent fs.
Proof.
  intros H p q o Hne. rw /set_flag. destruct (find_flag p.1 fs) as [f|] eqn:Ef, (find_flag q.1 fs) as [g|] eqn:Eg; cbn.
  - apply find_flag_elem in Ef as [? ?]. apply find_flag_elem in Eg as [? ?]. apply H; congruence.
  - by destruct (f_set f p.2 o).
  - by destruct (f_set g q.2 o).
  - done.
Qed.

Lemma set_flags_perm fs ps qs : independent fs -> NoDup ps.*1 -> ps ≡ₚ qs ->
  forall o, set_flags fs ps o = set_flags fs qs o.
Proof.
  intros Hi Hn Hp. induction Hp as [|p ps qs _ IH|p q ps|ps qs rs H1 IH1 H2 IH2] => o; [done|..].
  - apply NoDup_cons in Hn as [_ Hn]. by apply IH.
  - apply NoDup_cons in Hn as [Hne _]. rw /set_flags. cbn [foldl]. f_equal. destruct o as [o|]; [|done].
    cbn [mbind option_bind]. apply Hi. intros E. apply Hne. rw E. left.
  - rw IH1 //. apply IH2. by rw -H1.
Qed.
End flag_set.
Arguments flag O : clear implicits.

(** ** What is printed is read back *)

Lemma digit36_digit c : is_digit c = true -> digit36 c = Some (digit_val c) /\ c <> "_"%byte.
Proof. intros H. rw /digit36 H. split; [done|]. by intros ->. Qed.

(** On plain digits the base-10 loop is that of [ParseUint]. *)
Lemma parse_base_digits n s m : all_digits s = true -> parse_uint_loop n s = Some m ->
  parse_base_loop 10 n false s = Some (m, false).
Proof.
  revert n. induction s as [|c s IH] => n; cbn [parse_uint_loop parse_base_loop]; [by intros _ [= ->]|].
  intros [Hc Hs]%andb_prop. destruct (digit36_digit c Hc) as [-> Hu]. rw bool_decide_eq_false_2 // Hc. cbn [negb].
  apply is_digit_range in Hc. destruct (Z.leb_spec 10 (digit_val c)); [lia|].
  destruct (_ <=? n); [done|]. destruct (_ <? _); [done|]. by apply IH.
Qed.

Lemma ParseUint0_FormatUint n : is_uint64 n -> ParseUint0 (FormatUint n) = Some n.
Proof.
  intros Hn. have HU := ParseUint_FormatUint n Hn. rw /is_uint64 /maxUint64 in Hn.
  destruct (FormatUint_spec n) as (Hd & _ & Hl & Hz); [lia|]. rw /ParseUint0.
  destruct (FormatUint n) as [|c s] eqn:E; [simpl in *; lia|]. have Hb : base_prefix (c :: s) = (10, c :: s) \/ c :: s = str "0".
  { destruct (decide (c = "0"%byte)) as [->|Hne]; [right; by apply Hz|left]. by destruct c. }
  destruct Hb as [->|E0]; [|rw E0 in HU |- *; by rw -HU]. rw /ParseUint in HU. by rw (parse_base_digits 0 _ n Hd HU).
Qed.

Lemma ParseInt0_FormatInt n : is_int64 n -> ParseInt0 (FormatInt n) = Some n.
Proof.
  rw /is_int64 /minInt64 /maxInt64 => Hn. rw /FormatInt. case_cmp.
  - simpl. rw ParseUint0_FormatUint; [rw /is_uint64 /maxUint64; lia|]. simpl. case_cmp; [lia|]. f_equal. lia.
  - destruct (FormatUint_spec n) as (Hd & _ & Hl & _); [lia|].
    have HU := ParseUint0_FormatUint n ltac:(rw /is_uint64 /maxUint64; lia).
    destruct (FormatUint n) as [|c s] eqn:E; [simpl in *; lia|].
    destruct (all_digits_head_not _ _ Hd) as [? ?]. rw /ParseInt0.
    do 2 (rw bool_decide_eq_false_2; [done|]). rw HU /=. by case_cmp; [lia|].
Qed.

Lemma leadingInt_digits x ds rest : 0 <= x -> all_digits ds = true -> dec_value x ds <= 2 ^ 63 ->
  (forall c, head rest = Some c -> is_digit c = false) ->
  leadingInt x (ds ++ rest) = Some (dec_value x ds, rest).
Proof.
  intros Hx Hd Hv Hr. revert x Hx Hv. induction ds as [|c ds IH] => x Hx Hv.
  { destruct rest as [|c rest]; [done|]. cbn [leadingInt app]. by rw Hr. }
  cbn [all_digits forallb] in Hd. apply andb_prop in Hd as [Hc Hd]. cbn [app leadingInt dec_value] in *. rw Hc. cbn [negb].
  apply is_digit_range in Hc. have Hm := dec_value_mono (x * 10 + digit_val c) (x * 10 + digit_val c) ds ltac:(lia) Hd.
  have Hq : 2 ^ 63 / 10 = 922337203685477580 by done. rw Hq.
  destruct (Z.ltb_spec 922337203685477580 x); [lia|]. destruct (Z.ltb_spec (2 ^ 63) (x * 10 + digit_val c)); [lia|].
  apply IH; [done|lia|done].
Qed.

(** A number of nanoseconds with its unit. *)
Lemma duration_loop_ns n fuel : 0 <= n <= 2 ^ 63 -> (0 < fuel)%nat ->
  duration_loop fuel 0 (FormatUint n ++ str "ns") = Some n.
Proof.
  intros Hn Hf. destruct fuel as [|fuel]; [lia|]. destruct (FormatUint_spec n) as (Hd & Hv & Hl & _); [lia|].
  have HL := leadingInt_digits 0 (FormatUint n) (str "ns") ltac:(lia) Hd ltac:(lia) ltac:(by intros ? [= <-]).
  destruct (FormatUint n) as [|c ds] eqn:E; [simpl in *; lia|]. cbn [app] in *. cbn [duration_loop].
  rw HL Hv. apply andb_prop in Hd as [-> _]. rw orb_true_r. cbn [negb].
  rw (_ : Nat.eqb (length (str "ns")) (length (c :: ds ++ str "ns")) = false).
  { apply Nat.eqb_neq. rw /= length_app /=. lia. }
  cbn -[Z.pow Z.div Z.ltb wrapu duration_loop unit_name find_unit].
  rw (_ : unit_name ["n"%byte; "s"%byte] = (["n"%byte; "s"%byte], [])) // (_ : find_unit ["n"%byte; "s"%byte] unitMap = Some 1) //.
  rw Z.div_1_r Z.mul_1_r.
  destruct (Z.ltb_spec (2 ^ 63) n); [lia|]. cbn [Z.ltb Z.compare]. destruct (Z.ltb_spec (2 ^ 63) n); [lia|].
  rw Z.add_0_l /wrapu Z.mod_small; [lia|]. destruct (Z.ltb_spec (2 ^ 63) n); [lia|]. by destruct fuel.
Qed.

Definition FormatNanos (n : Z) : bytes := FormatInt n ++ str "ns".

Lemma ParseDuration_nanos n : is_int64 n -> ParseDuration (FormatNanos n) = Some n.
Proof.
  rw /is_int64 /minInt64 /maxInt64 => Hn. rw /FormatNanos /FormatInt. case_cmp.
  - destruct (FormatUint_spec (- n)) as (Hd & _ & Hl & _); [lia|]. rw /ParseDuration. cbn [app head tail].
    rw (bool_decide_eq_true_2 (Some _ = Some _)) //. cbn [orb].
    rw bool_decide_eq_false_2. { destruct (FormatUint (- n)) as [|? [|]]; simpl in *; [lia|done|done]. }
    destruct (FormatUint (- n) ++ str "ns") as [|c s] eqn:E; [by destruct (FormatUint (- n))|].
    rw (_ : length (c :: s) = S (length s)) // -E duration_loop_ns; [lia|lia|]. f_equal. lia.
  - destruct (FormatUint_spec n) as (Hd & _ & Hl & _); [lia|]. rw /ParseDuration.
    destruct (FormatUint n) as [|c ds] eqn:E; [simpl in *; lia|]. destruct (all_digits_head_not _ _ Hd) as [? ?].
    cbn [app head]. rw (bool_decide_eq_false_2 (Some c = Some "-"%byte)); [congruence|].
    rw (bool_decide_eq_false_2 (Some c = Some "+"%byte)); [congruence|]. cbn [orb].
    rw bool_decide_eq_false_2; [by destruct ds|]. rw app_comm_cons -E duration_loop_ns; [lia|rw E /=; lia|].
    destruct (Z.ltb_spec (2 ^ 63 - 1) n); [lia|done].
Qed.

(** Setting a flag to what is printed of a value stores the value. *)
Section set_printed.
Context {O : Type} (fs : list (flag O)) (name : bytes).

Lemma set_int (set : Z -> O -> O) v o : find_flag name fs = Some (Int name set) -> is_int64 v ->
  set_flag fs (name, FormatInt v) o = Some (set v o).
Proof. intros H Hv. rw /set_flag H /=. by rw ParseInt0_FormatInt. Qed.

Lemma set_duration (set : Z -> O -> O) v o : find_flag name fs = Some (Duration name set) -> is_int64 v ->
  set_flag fs (name, FormatNanos v) o = Some (set v o).
Proof. intros H Hv. rw /set_flag H /=. by rw ParseDuration_nanos. Qed.

Lemma set_string (set : bytes -> O -> O) v o : find_flag name fs = Some (String_ name set) ->
  set_flag fs (name, v) o = Some (set v o).
Proof. intros H. by rw /set_flag H. Qed.

Lemma set_bool (set : bool -> O -> O) (v : bool) o : find_flag name fs = Some (Bool name set) ->
  set_flag fs (name, if v then str "true" else str "false") o = Some (set v o).
Proof. intros H. rw /set_flag H. by destruct v. Qed.
End set_printed.

(** ** What is read fits 64 bits *)

Lemma wrapu_nonneg n : 0 <= wrapu 64 n.
Proof. rw /wrapu. by apply Z.mod_pos_bound. Qed.

Lemma parse_base_nonneg base n u s m : 0 <= n -> parse_base_loop base n u s = Some m -> 0 <= m.1.
Proof.
  revert n u. induction s as [|c s IH] => n u Hn; cbn [parse_base_loop]; [by intros [= <-]|].
  case_bool_decide; [by apply IH|]. destruct (digit36 c) as [d|]; [|done]. do 3 (case_match; [done|]).
  apply IH, wrapu_nonneg.
Qed.

Lemma ParseInt0_range s n : ParseInt0 s = Some n -> is_int64 n.
Proof.
  rw /ParseInt0 /is_int64 /minInt64 /maxInt64. destruct s as [|c s]; [done|].
  destruct (ParseUint0 _) as [un|] eqn:E; [|done].
  have Hu : 0 <= un.
  { move: E. generalize (if bool_decide (c = "-"%byte) || bool_decide (c = "+"%byte) then s else c :: s) => body0.
    rw /ParseUint0. destruct body0 as [|c' s']; [done|]. destruct (base_prefix _) as [b body].
    destruct (parse_base_loop b 0 false body) as [[m u]|] eqn:El; [|done]. apply parse_base_nonneg in El; [|done].
    case_match; [done|]. by intros [= <-]. }
  destruct (bool_decide _); cbn [negb andb]; case_cmp; [done| |done|]; intros [= <-]; lia.
Qed.

Lemma duration_range fuel d s d' : 0 <= d <= 2 ^ 63 -> duration_loop fuel d s = Some d' -> 0 <= d' <= 2 ^ 63.
Proof.
  revert d s. induction fuel as [|fuel IH] => d s Hd; destruct s as [|c s]; cbn [duration_loop]; [by intros [= <-]|done|by intros [= <-]|].
  case_match; [done|]. destruct (leadingInt _ _) as [[v s1]|]; [|done].
  match goal with |- context [match ?x with pair _ _ => _ end] => destruct x as [[[f sc] post] s2] end.
  case_match; [done|]. destruct (unit_name s2) as [[|u us] s3]; [done|]. destruct (find_unit _ _) as [unit|]; [|done].
  case_match; [done|]. case_match; [done|].
  match goal with |- context [wrapu 64 ?x] => have := wrapu_nonneg x; destruct (Z.ltb_spec (2 ^ 63) (wrapu 64 x)); [done|] end.
  intros ?. by apply IH.
Qed.

Lemma ParseDuration_range s n : ParseDuration s = Some n -> is_int64 n.
Proof.
  rw /ParseDuration /is_int64 /minInt64 /maxInt64.
  match goal with |- context [if ?b then tail s else s] => generalize (if b then tail s else s) => s' end.
  case_bool_decide; [intros [= <-]; lia|]. destruct s' as [|c s']; [done|]. destruct (duration_loop _ _ _) as [d|] eqn:E; [|done].
  apply duration_range in E; [|lia]. case_match; [intros [= <-]; lia|]. destruct (Z.ltb_spec (2 ^ 63 - 1) d); [done|].
  intros [= <-]. lia.
Qed.

Example parse_examples :
  ParseInt0 (str "6_380") = Some 6380 /\ ParseInt0 (str "-0x10") = Some (-16) /\ ParseInt0 (str "010") = Some 8 /\
  ParseInt0 (str "1__0") = None /\ ParseInt0 (str "0x") = None /\ ParseInt0 (str "0_7") = Some 7 /\ ParseInt0 (str "_7") = None /\
  ParseDuration (str "1h30m0.5s") = Some (5400 * second + second / 2) /\ ParseDuration (str ".1ms") = Some 100000 /\
  ParseDuration (str "10") = None /\ ParseDuration (str "-1.5h") = Some (-5400 * second).
Proof. split_and!; vm_compute; reflexivity. Qed.
