(* ===== verification/Store.v ===== *)
(** * The in-memory store (src/internal/store/store.go)

    [Store] is the passive pair of maps of the package; every method is a function of
    the store and of the instant the caller passes. A [range] loop over a Go map visits
    the entries in an unspecified order, so the operations that contain one take the
    visited entries as an argument [iter], related to the map by [ranges].

    The specification is a map from keys to a value and an optional deadline, with
    [tick] removing what a deadline has taken; [phys] and [view] relate the two. *)

From S2P Require Import Prelude.
From S2P Require Import GoLib.

(** ** The data *)

Inductive TTLStatus := NoKey | NoTTL | HasTTL.

#[export] Instance TTLStatus_eq_dec : EqDecision TTLStatus.
Proof. solve_decision. Defined.

Record Store := mkStore {
  data : gmap bytes bytes;
  expires : gmap bytes Z
}.

(** The entries [iter] are those of the map [m], each once, in some order: what Go
    promises of [for k, v := range m]. *)
Definition ranges {V} (m : gmap bytes V) (iter : list (bytes * V)) : Prop :=
  iter ≡ₚ map_to_list m.

(** ** The operations *)

Definition New : Store := mkStore ∅ ∅.

Definition expired (s : Store) (key : bytes) (now : Z) : bool :=
  match expires s !! key with
  | Some deadline => negb (Before now deadline)
  | None => false
  end.

Definition Get (s : Store) (key : bytes) (now : Z) : option bytes :=
  if expired s key now then None else data s !! key.

Definition Set_ (s : Store) (key value : bytes) (expiresAt : Z) (hasTTL : bool) : Store :=
  mkStore (<[key := value]> (data s))
    (if hasTTL then <[key := expiresAt]> (expires s) else delete key (expires s)).

Definition Delete (s : Store) (key : bytes) : bool * Store :=
  (bool_decide (is_Some (data s !! key)),
   mkStore (delete key (data s)) (delete key (expires s))).

Definition Expire (s : Store) (key : bytes) (expiresAt now : Z) : bool * Store :=
  if negb (bool_decide (is_Some (data s !! key))) || expired s key now then (false, s)
  else (true, mkStore (data s) (<[key := expiresAt]> (expires s))).

Definition Persist (s : Store) (key : bytes) (now : Z) : bool * Store :=
  if negb (bool_decide (is_Some (data s !! key))) || expired s key now then (false, s)
  else
    match expires s !! key with
    | None => (false, s)
    | Some _ => (true, mkStore (data s) (delete key (expires s)))
    end.

Definition TTL (s : Store) (key : bytes) (now : Z) : Z * TTLStatus :=
  if negb (bool_decide (is_Some (data s !! key))) || expired s key now then (0, NoKey)
  else
    match expires s !! key with
    | None => (0, NoTTL)
    | Some deadline => (time_Sub deadline now, HasTTL)
    end.

Definition ExpiresAt (s : Store) (key : bytes) : option Z := expires s !! key.

Definition Len (s : Store) (iter : list (bytes * bytes)) (now : Z) : Z :=
  foldl (fun n e => if expired s e.1 now then n else n + 1) 0 iter.

Definition LiveKeys (s : Store) (iter : list (bytes * bytes)) (now : Z) : list bytes :=
  foldl (fun keys e => if expired s e.1 now then keys else keys ++ [e.1]) [] iter.

(** The loop of [ReclaimExpired] over the entries still to visit. *)
Fixpoint reclaim_loop (now limit : Z) (iter : list (bytes * Z))
    (s : Store) (removed examined : Z) : Store * Z * Z :=
  match iter with
  | [] => (s, removed, examined)
  | (key, deadline) :: iter =>
      if examined =? limit then (s, removed, examined)
      else
        let examined := examined + 1 in
        if negb (Before now deadline)
        then reclaim_loop now limit iter
               (mkStore (delete key (data s)) (delete key (expires s))) (removed + 1) examined
        else reclaim_loop now limit iter s removed examined
  end.

Definition ReclaimExpired (s : Store) (iter : list (bytes * Z)) (now limit : Z) : Store * Z * Z :=
  if limit <=? 0 then (s, 0, 0) else reclaim_loop now limit iter s 0 0.

Definition PhysicalLen (s : Store) : Z := Z.of_nat (size (data s)).

Definition HasExpirations (s : Store) : bool := 0 <? Z.of_nat (size (expires s)).

(** ** The invariant: keys(expires) ⊆ keys(data) *)

Definition wf (s : Store) : Prop := dom (expires s) ⊆ dom (data s).

(** ** The specification *)

(** An entry is a value and the deadline it carries, if any. *)
Definition entry : Type := bytes * option Z.

Definition alive (now : Z) (e : entry) : Prop :=
  match e.2 with Some deadline => now < deadline | None => True end.

#[export] Instance alive_dec now e : Decision (alive now e).
Proof. rw /alive. destruct (e.2); apply _. Defined.

(** What is left of [m] at [now]. *)
Definition tick (now : Z) (m : gmap bytes entry) : gmap bytes entry :=
  filter (fun ke => alive now ke.2) m.

(** The entries physically held, and those a caller can see at [now]. *)
Definition phys (s : Store) : gmap bytes entry :=
  map_imap (fun k v => Some (v, expires s !! k)) (data s).
Definition view (s : Store) (now : Z) : gmap bytes entry := tick now (phys s).

(** The mutations, and what each means on the specification. *)
Inductive op :=
| OSet (key value : bytes) (expiresAt : Z) (hasTTL : bool)
| ODelete (key : bytes)
| OExpire (key : bytes) (expiresAt : Z)
| OPersist (key : bytes)
| OReclaim (iter : list (bytes * Z)) (limit : Z).

Definition run_op (o : op) (now : Z) (s : Store) : Store :=
  match o with
  | OSet k v d h => Set_ s k v d h
  | ODelete k => (Delete s k).2
  | OExpire k d => (Expire s k d now).2
  | OPersist k => (Persist s k now).2
  | OReclaim iter limit => (ReclaimExpired s iter now limit).1.1
  end.

Definition spec_op (o : op) (m : gmap bytes entry) : gmap bytes entry :=
  match o with
  | OSet k v d h => <[k := (v, if h then Some d else None)]> m
  | ODelete k => delete k m
  | OExpire k d => alter (fun e => (e.1, Some d)) k m
  | OPersist k => alter (fun e => (e.1, None)) k m
  | OReclaim _ _ => m
  end.

(** The side condition of an operation: a sweep visits the entries of [expires]. *)
Definition op_ok (o : op) (s : Store) : Prop :=
  match o with OReclaim iter _ => ranges (expires s) iter | _ => True end.

(** ** Lookups of the two views *)

Lemma phys_lookup s k : phys s !! k = (fun v => (v, expires s !! k)) <$> data s !! k.
Proof. rw /phys map_lookup_imap. by destruct (data s !! k). Qed.

Lemma tick_lookup now m k :
  tick now m !! k = e ← m !! k; if decide (alive now e) then Some e else None.
Proof.
  rw /tick map_lookup_filter. destruct (m !! k) as [e|] => //=.
  by repeat case_guard || case_decide.
Qed.

Lemma expired_alive s k now v :
  expired s k now = negb (bool_decide (alive now (v, expires s !! k))).
Proof.
  rw /expired /alive /=. destruct (expires s !! k) as [d|].
  - rw /Before. destruct (Z.ltb_spec now d); by case_bool_decide; try lia.
  - by rw bool_decide_eq_true_2.
Qed.

Lemma view_lookup s now k :
  view s now !! k =
    if expired s k now then None else (fun v => (v, expires s !! k)) <$> data s !! k.
Proof.
  rw /view tick_lookup phys_lookup. destruct (data s !! k) as [v|] => /=; [|by case_match].
  rw (expired_alive s k now v). by repeat case_decide || case_bool_decide.
Qed.

Lemma tick_tick now t m : now <= t -> tick t (tick now m) = tick t m.
Proof.
  intros Hle. apply map_eq => k. rw !tick_lookup. destruct (m !! k) as [[v od]|] => //=.
  rw /alive /=. destruct od as [d|]; repeat (case_decide; simpl); try done. lia.
Qed.

Lemma tick_insert_tick now t k e m : now <= t ->
  tick t (<[k := e]> (tick now m)) = tick t (<[k := e]> m).
Proof.
  intros Hle. apply map_eq => j. rw !tick_lookup !lookup_insert. case_decide; [done|].
  by rw -!tick_lookup tick_tick.
Qed.

Lemma tick_delete now k m : tick now (delete k m) = delete k (tick now m).
Proof.
  apply map_eq => j. rw tick_lookup !lookup_delete. case_decide; [done|].
  by rw tick_lookup.
Qed.

(** ** Each operation on the physical entries *)

Lemma phys_set s k v d h : phys (Set_ s k v d h) = <[k := (v, if h then Some d else None)]> (phys s).
Proof.
  apply map_eq => j. rw phys_lookup /=.
  destruct (decide (k = j)) as [->|Hne]; destruct h; simplify_map_eq; rw ?phys_lookup //.
Qed.

Lemma phys_delete s k : phys (Delete s k).2 = delete k (phys s).
Proof.
  apply map_eq => j. rw phys_lookup /=. destruct (decide (k = j)) as [->|Hne]; simplify_map_eq => //.
  by rw phys_lookup.
Qed.

Lemma view_none s k now :
  negb (bool_decide (is_Some (data s !! k))) || expired s k now = true <-> view s now !! k = None.
Proof.
  rw view_lookup. destruct (expired s k now); [by rw orb_true_r|]. rw orb_false_r.
  destruct (data s !! k) as [v|]; by [rw bool_decide_eq_true_2|rw bool_decide_eq_false_2].
Qed.

Lemma view_some s k now v od :
  view s now !! k = Some (v, od) ->
  expired s k now = false /\ data s !! k = Some v /\ expires s !! k = od.
Proof.
  rw view_lookup. destruct (expired s k now); [done|].
  destruct (data s !! k); simpl; naive_solver.
Qed.

(** Overwriting the deadline of a key that is held. *)
Lemma phys_deadline s k v od : data s !! k = Some v ->
  phys (mkStore (data s) (partial_alter (fun _ => od) k (expires s))) = <[k := (v, od)]> (phys s).
Proof.
  intros Hd. apply map_eq => j. rw phys_lookup /= lookup_insert.
  case_decide as E; [subst j; by rw Hd lookup_partial_alter_eq|].
  by rw lookup_partial_alter_ne // phys_lookup.
Qed.

Lemma tick_alter_dead now t f k m : now <= t ->
  tick now m !! k = None -> tick t (alter f k (tick now m)) = tick t m.
Proof.
  intros Hle Hk. rw alter_id; [intros e He; congruence|]. by apply tick_tick.
Qed.

Lemma tick_alter_live now t (e e' : entry) f k m : now <= t ->
  tick now m !! k = Some e -> f e = e' ->
  tick t (alter f k (tick now m)) = tick t (<[k := e']> m).
Proof.
  intros Hle Hk Hf. rw -(tick_insert_tick now t) //. f_equal. apply map_eq => j.
  rw lookup_alter lookup_insert. case_decide as E; [|done]. subst j. by rw Hk /= Hf.
Qed.

Lemma view_step_delete s k t : view s t !! k = None -> view (Delete s k).2 t = view s t.
Proof. intros Hk. rw /view phys_delete tick_delete. by apply delete_id. Qed.

(** Dropping keys nobody can see leaves what is seen unchanged. *)
Definition drop_keys (s : Store) (ks : list bytes) : Store := foldl (fun s k => (Delete s k).2) s ks.

Lemma view_drop_keys s ks t : Forall (fun k => view s t !! k = None) ks -> view (drop_keys s ks) t = view s t.
Proof.
  revert s. induction ks as [|k ks IH] => s; [done|]. intros [Hk Hks]%Forall_cons_1.
  simpl. rw /drop_keys /= -/(drop_keys _ _) IH ?view_step_delete //.
Qed.

(** The sweep removes exactly the expired entries among the first [limit] visited. *)
Lemma reclaim_loop_spec now limit iter s r ex : ex <= limit ->
  reclaim_loop now limit iter s r ex =
    let visited := take (Z.to_nat (limit - ex)) iter in
    let gone := (filter (fun e => e.2 <= now) visited).*1 in
    (drop_keys s gone, r + len gone, ex + len visited).
Proof.
  revert s r ex. induction iter as [|[k d] iter IH] => s r ex Hex.
  { simpl. by rw take_nil /= !len_nil !Z.add_0_r. }
  simpl. case_cmp.
  - rw (_ : Z.to_nat (limit - ex) = 0%nat); [lia|]. simpl. by rw !len_nil !Z.add_0_r.
  - rw (_ : Z.to_nat (limit - ex) = S (Z.to_nat (limit - (ex + 1)))); [lia|]. simpl.
    rw /Before. destruct (Z.ltb_spec now d); simpl.
    + rw filter_cons_False /=; [simpl; lia|]. rw IH; [lia|]. simpl. rw len_cons. f_equal. lia.
    + rw filter_cons_True /=; [simpl; lia|]. rw IH; [lia|]. simpl. rw !len_cons. apply pair_eq. split; [apply pair_eq; split; [done|by rw Z.add_assoc]|lia].
Qed.

Lemma ranges_lookup {V} (m : gmap bytes V) iter k v : ranges m iter -> (k, v) ∈ iter -> m !! k = Some v.
Proof. rw /ranges => Hr. rw Hr. apply elem_of_map_to_list. Qed.

Lemma swept_invisible s iter n now t : ranges (expires s) iter -> now <= t ->
  Forall (fun k => view s t !! k = None) (filter (fun e => e.2 <= now) (take n iter)).*1.
Proof.
  intros Hr Hle. apply Forall_fmap, Forall_forall => [[k d]].
  intros [Hd Hin]%list_elem_of_filter. simpl in *.
  rw view_lookup /expired (ranges_lookup _ iter k d) //.
  - by apply (elem_of_sublist _ _ _ Hin (sublist_take iter n)).
  - rw /Before. by destruct (Z.ltb_spec t d); [lia|].
Qed.

(** ** The store implements its specification *)

Lemma deadline_step s k od f now t : now <= t ->
  negb (bool_decide (is_Some (data s !! k))) || expired s k now = false ->
  (forall e, f e = (e.1, od)) ->
  view (mkStore (data s) (partial_alter (fun _ => od) k (expires s))) t =
    tick t (alter f k (view s now)).
Proof.
  intros Hle E Hf. destruct (view s now !! k) as [[v od']|] eqn:Hv.
  - destruct (view_some _ _ _ _ _ Hv) as (_ & Hd & _).
    by rw {1}/view (phys_deadline _ _ v) // /view (tick_alter_live _ _ (v, od') (v, od)).
  - apply view_none in Hv. congruence.
Qed.

Lemma run_op_view (o : op) (now t : Z) (s : Store) :
  op_ok o s -> now <= t -> view (run_op o now s) t = tick t (spec_op o (view s now)).
Proof.
  intros Hok Hle. destruct o as [k v d h|k|k d|k|iter limit]; simpl.
  - by rw /view phys_set tick_insert_tick.
  - by rw /view phys_delete !tick_delete tick_tick.
  - rw /Expire. destruct (negb _ || _) eqn:E; simpl.
    + apply view_none in E. by rw /view tick_alter_dead.
    + by apply deadline_step.
  - rw /Persist. destruct (negb _ || _) eqn:E; simpl.
    + apply view_none in E. by rw /view tick_alter_dead.
    + rw -(deadline_step s k None) //. destruct (expires s !! k) eqn:Hd; [done|]. simpl.
      change (partial_alter (fun _ => None) k (expires s)) with (delete k (expires s)).
      by rw delete_id //; destruct s.
  - rw /ReclaimExpired. case_cmp; simpl; [by rw /view tick_tick|].
    rw reclaim_loop_spec /=; [lia|]. by rw view_drop_keys ?/view ?tick_tick //; apply swept_invisible.
Qed.

(** C12. Every mutation, run on the two maps, has at every later instant exactly the effect
    the specification gives it on what callers could see: in particular an expired key
    that is still held influences nothing, and a reclamation sweep changes nothing. *)
Theorem store_simulation (o : op) (now t : Z) (s : Store) :
  op_ok o s -> now <= t -> view (run_op o now s) t = tick t (spec_op o (view s now)).
Proof. apply run_op_view. Qed.

(** ** Reads *)

Lemma Get_view s k now : Get s k now = fst <$> view s now !! k.
Proof.
  rw /Get view_lookup. destruct (expired s k now); [done|]. by destruct (data s !! k).
Qed.

Lemma TTL_view s k now :
  TTL s k now =
    match view s now !! k with
    | None => (0, NoKey)
    | Some (_, None) => (0, NoTTL)
    | Some (_, Some d) => (time_Sub d now, HasTTL)
    end.
Proof.
  rw /TTL. destruct (negb _ || _) eqn:E.
  - apply view_none in E. by rw E.
  - destruct (view s now !! k) as [[v od]|] eqn:Hv.
    + apply view_some in Hv as (_ & _ & <-). by case_match.
    + apply view_none in Hv. congruence.
Qed.

Lemma LiveKeys_app s (iter : list (bytes * bytes)) now acc :
  foldl (fun keys e => if expired s e.1 now then keys else keys ++ [e.1]) acc iter =
    acc ++ (filter (fun e => expired s e.1 now = false) iter).*1.
Proof.
  revert acc. induction iter as [|[k v] iter IH] => acc /=; [by rw app_nil_r|].
  rw IH filter_cons /=. destruct (expired s k now); [done|]. by rw -app_assoc.
Qed.

Lemma LiveKeys_filter s iter now :
  LiveKeys s iter now = (filter (fun e => expired s e.1 now = false) iter).*1.
Proof. apply (LiveKeys_app s iter now []). Qed.

Lemma Len_LiveKeys s iter now : Len s iter now = len (LiveKeys s iter now).
Proof.
  rw /Len LiveKeys_filter -(Z.add_0_l (len _)). generalize 0 as n.
  induction iter as [|[k v] iter IH] => n /=; [by rw len_nil Z.add_0_r|].
  rw IH filter_cons /=. destruct (expired s k now); [done|].
  simpl. rw len_cons. by rw Z.add_assoc.
Qed.

Lemma LiveKeys_elem s iter now k : ranges (data s) iter ->
  k ∈ LiveKeys s iter now <-> is_Some (view s now !! k).
Proof.
  intros Hr. rw LiveKeys_filter view_lookup list_elem_of_fmap. split.
  - intros ([k' v] & -> & [Hx Hin]%list_elem_of_filter). simpl in *.
    by rw Hx (ranges_lookup _ _ _ _ Hr Hin).
  - destruct (expired s k now) eqn:Hx; [by intros []|].
    destruct (data s !! k) as [v|] eqn:Hd; [intros _|by intros []].
    exists (k, v). split; [done|]. apply list_elem_of_filter. split; [done|].
    rw Hr. by apply elem_of_map_to_list.
Qed.

Lemma LiveKeys_NoDup s iter now : ranges (data s) iter -> NoDup (LiveKeys s iter now).
Proof.
  intros Hr. rw LiveKeys_filter.
  apply (sublist_NoDup _ (iter.*1)); [rw Hr; apply NoDup_fst_map_to_list|].
  apply fmap_sublist, sublist_filter.
Qed.

Lemma LiveKeys_dom s iter now : ranges (data s) iter ->
  LiveKeys s iter now ≡ₚ elements (dom (view s now)).
Proof.
  intros Hr. apply NoDup_Permutation; [by apply LiveKeys_NoDup|apply NoDup_elements|].
  intros k. by rw LiveKeys_elem // elem_of_elements elem_of_dom.
Qed.

Lemma Len_view s iter now : ranges (data s) iter -> Len s iter now = Z.of_nat (size (view s now)).
Proof. intros Hr. rw Len_LiveKeys /len LiveKeys_dom //. by rw -size_dom. Qed.

(** With no deadline recorded, no instant makes a key expired: reading the clock may
    be skipped. *)
Lemma no_expirations s k now : HasExpirations s = false -> expired s k now = false.
Proof.
  rw /HasExpirations /expired => H. destruct (expires s !! k) as [d|] eqn:E; [|done].
  exfalso. case_cmp_in H; [done|]. have : size (expires s) = 0%nat by lia.
  move=> /map_size_empty_iff Hs. by rw Hs in E.
Qed.

(** ** The invariant *)

Lemma wf_delete s k : wf s -> wf (Delete s k).2.
Proof. rw /wf /= !dom_delete_L. set_solver. Qed.

Lemma wf_drop_keys s ks : wf s -> wf (drop_keys s ks).
Proof. revert s. induction ks as [|k ks IH] => s Hs; [done|]. by apply IH, wf_delete. Qed.

#[export] Hint Resolve wf_delete wf_drop_keys : kv.

Lemma wf_run_op o now s : wf s -> wf (run_op o now s).
Proof.
  intros Hs. destruct o as [k v d h|k|k d|k|iter limit]; cbn [run_op]; eauto with kv.
  - rw /wf /= in Hs *. destruct h; rw ?dom_insert_L ?dom_delete_L; set_solver.
  - rw /Expire. destruct (negb _ || _) eqn:E; [done|]. simpl.
    apply orb_false_iff in E as [Hk%negb_false_iff%bool_decide_eq_true_1%elem_of_dom _].
    rw /wf /= in Hs *. rw dom_insert_L. set_solver.
  - rw /Persist. destruct (negb _ || _) eqn:E; [done|]. destruct (expires s !! k); [|done].
    rw /wf /= in Hs *. rw dom_delete_L. set_solver.
  - rw /ReclaimExpired. case_cmp; [done|]. rw reclaim_loop_spec /=; [lia|]. eauto with kv.
Qed.

(** Stores the package can produce: [New] followed by any mutations at any instants. *)
Inductive reachable : Store -> Prop :=
| reach_new : reachable New
| reach_op s o now : reachable s -> op_ok o s -> reachable (run_op o now s).

(** Whatever sequence of mutations and reclamation sweeps has run since [New], the
    deadline index only names keys that are held: keys(expires) ⊆ keys(data). *)
Theorem store_index_invariant (s : Store) : reachable s -> wf s.
Proof. induction 1; [done|by apply wf_run_op]. Qed.

(** What every read answers, in terms of the entries visible at the instant asked
    about: [Get] the value, [TTL] the status and the (saturating) time left, [Len] their
    number, and [LiveKeys] their names, each exactly once, in whatever order the map is
    visited. No read distinguishes an expired entry that is still held from none. *)
Theorem store_reads_are_views (s : Store) (iter : list (bytes * bytes)) (k : bytes) (now : Z) :
  ranges (data s) iter ->
  Get s k now = fst <$> view s now !! k /\
  TTL s k now =
    match view s now !! k with
    | None => (0, NoKey)
    | Some (_, None) => (0, NoTTL)
    | Some (_, Some d) => (time_Sub d now, HasTTL)
    end /\
  Len s iter now = Z.of_nat (size (view s now)) /\
  LiveKeys s iter now ≡ₚ elements (dom (view s now)).
Proof.
  intros Hr. split_and!; [apply Get_view|apply TTL_view|by apply Len_view|by apply LiveKeys_dom].
Qed.

(** ** Bounded reclamation *)

Lemma size_drop_keys s ks : NoDup ks -> (forall k, k ∈ ks -> is_Some (data s !! k)) ->
  PhysicalLen (drop_keys s ks) = PhysicalLen s - len ks.
Proof.
  revert s. induction ks as [|k ks IH] => s; [rw len_nil /=; lia|].
  intros [Hk Hks]%NoDup_cons Hin. rw /drop_keys /= -/(drop_keys _ _) IH //.
  - intros j Hj. simpl. rw lookup_delete_ne; [set_solver|]. apply Hin. set_solver.
  - rw /PhysicalLen /= len_cons map_size_delete. destruct (Hin k) as [v Hv]; [set_solver|].
    rw Hv. have : (0 < size (data s))%nat; [|lia].
    apply Nat.neq_0_lt_0. move=> /map_size_empty_iff Hs. by rw Hs in Hv.
Qed.

Lemma drop_keys_expires s ks k :
  expires (drop_keys s ks) !! k = if decide (k ∈ ks) then None else expires s !! k.
Proof.
  revert s. induction ks as [|j ks IH] => s; [done|].
  rw /drop_keys /= -/(drop_keys _ _) IH /=. rw lookup_delete.
  repeat case_decide; set_solver.
Qed.

Lemma gone_NoDup (iter : list (bytes * Z)) (now : Z) (n : nat) (m : gmap bytes Z) : ranges m iter ->
  NoDup (filter (fun e => e.2 <= now) (take n iter)).*1.
Proof.
  intros Hr. apply (sublist_NoDup _ (iter.*1)); [rw Hr; apply NoDup_fst_map_to_list|].
  apply fmap_sublist. trans (take n iter); [apply sublist_filter|apply sublist_take].
Qed.

(** One sweep does bounded work: it examines [min limit n] of the [n] keys carrying a
    deadline, frees as many entries as it reports removed and no more than it examined;
    and when the limit covers the index it leaves no expired deadline behind. *)
Theorem reclaim_bounded (s : Store) (iter : list (bytes * Z)) (now limit : Z) :
  wf s -> ranges (expires s) iter -> 0 < limit ->
  let '(s', removed, examined) := ReclaimExpired s iter now limit in
  examined = Z.min limit (Z.of_nat (size (expires s))) /\
  0 <= removed <= examined /\
  PhysicalLen s' = PhysicalLen s - removed /\
  (Z.of_nat (size (expires s)) <= limit -> forall k d, expires s' !! k = Some d -> now < d).
Proof.
  intros Hwf Hr Hl. rw /ReclaimExpired. case_cmp; [lia|]. rw reclaim_loop_spec /=; [lia|].
  rw Z.sub_0_r. set visited := take _ iter. set gone := (filter _ visited).*1.
  have Hsz : length iter = size (expires s) by rw Hr length_map_to_list.
  split_and!.
  - rw /len length_take Hsz. lia.
  - have := len_nonneg gone. lia.
  - rw /gone /len length_fmap. pose proof (length_filter (fun e => e.2 <= now) visited). lia.
  - rw size_drop_keys /=; [by eapply gone_NoDup| |lia].
    intros k ([? d] & -> & [_ Hin]%list_elem_of_filter)%list_elem_of_fmap. simpl.
    apply elem_of_dom, Hwf, elem_of_dom. exists d. apply (ranges_lookup _ _ _ _ Hr).
    by apply (elem_of_sublist _ _ _ Hin), sublist_take.
  - intros Hle k d. rw drop_keys_expires. case_decide as Hg; [done|]. intros Hd.
    apply Z.nle_gt. intros Hdn. apply Hg, list_elem_of_fmap. exists (k, d). split; [done|].
    apply list_elem_of_filter. split; [done|]. rw /visited take_ge; [lia|].
    rw Hr. by apply elem_of_map_to_list.
Qed.

(** ** Witnesses and the divergence of [Delete] *)

Definition store_example : Store :=
  mkStore {[str "a" := str "1"; str "b" := str "2"]} {[str "a" := 10]}.

Lemma store_example_wf : wf store_example.
Proof. rw /wf /store_example /=. set_solver. Qed.

Lemma store_simulation_witness :
  view (run_op (OReclaim [(str "a", 10)] 20) 15 store_example) 30 = view store_example 30.
Proof.
  apply (eq_trans (store_simulation (OReclaim [(str "a", 10)] 20) 15 30 store_example
    (Permutation_refl _) ltac:(lia))).
  vm_compute. reflexivity.
Defined.

Lemma store_index_witness : wf (run_op (OSet (str "a") (str "1") 10 true) 0 New).
Proof. apply store_index_invariant, reach_op; [apply reach_new|exact I]. Defined.

Lemma store_reads_witness :
  Len store_example [(str "b", str "2"); (str "a", str "1")] 10 = 1.
Proof.
  destruct (store_reads_are_views store_example [(str "b", str "2"); (str "a", str "1")] [] 10
    ltac:(first [exact (Permutation_refl _)|exact (perm_swap _ _ _)])) as (_ & _ & H & _).
  rw H. reflexivity.
Defined.

Lemma reclaim_bounded_witness :
  PhysicalLen (ReclaimExpired store_example [(str "a", 10)] 10 20).1.1 = 1.
Proof.
  destruct (reclaim_bounded store_example [(str "a", 10)] 10 20
    store_example_wf (Permutation_refl _) ltac:(lia))
    as (_ & _ & H & _).
  exact H.
Defined.

(** [Delete] reports physical presence: deleting an entry whose deadline has passed but
    which is still held answers [true]. The comment on the method says it answers false. *)
Lemma delete_reports_expired_entry :
  view store_example 10 !! str "a" = None /\ (Delete store_example (str "a")).1 = true.
Proof. by vm_compute. Qed.
