(* ===== verification/Glob.v ===== *)
(** * Glob matching (src/internal/glob/glob.go)

    [Match] is translated with its indices and its single remembered star. The reference
    is the textbook reading of a pattern: [parse] cuts it into items and [gmatch] says
    which strings a list of items denotes, a star standing for any string. The main
    theorem is that the backtracking loop decides exactly that, for all inputs, within
    the fuel it is given. *)

From S2P Require Import Prelude.
From S2P Require Import GoLib.

(** ** The program *)

Definition beq (a b : byte) : bool := bool_decide (a = b).

(** [for pi < len(pattern) && pattern[pi] == '*' { pi++ }] *)
Fixpoint leading_stars (s : bytes) : nat :=
  match s with
  | c :: s => if beq c "*" then S (leading_stars s) else O
  | [] => O
  end.
Definition skip_stars (pattern : bytes) (pi : nat) : nat := (pi + leading_stars (drop pi pattern))%nat.

(** The range [c-e] of a class, its bounds compared as signed bytes and put in order. *)
Definition range_matches (c e value : byte) : bool :=
  let lo := int8 c in
  let hi := int8 e in
  let '(lo, hi) := if hi <? lo then (hi, lo) else (lo, hi) in
  let candidate := int8 value in
  (lo <=? candidate) && (candidate <=? hi).

(** The loop of [matchClass]; one unit of fuel per iteration. *)
Fixpoint class_loop (fuel : nat) (pattern : bytes) (i : nat) (negated matched : bool) (value : byte)
    : nat * bool :=
  let finish := if negated then negb matched else matched in
  match fuel with
  | O => (length pattern, finish)
  | S fuel =>
      match pattern !! i with
      | None => (length pattern, finish)
      | Some c =>
          if beq c "]" then (S i, finish)
          else
            match (if beq c "\" then pattern !! S i else None) with
            | Some d => class_loop fuel pattern (S (S i)) negated (matched || beq d value) value
            | None =>
                match pattern !! S i, pattern !! S (S i) with
                | Some d, Some e =>
                    if beq d "-" then
                      class_loop fuel pattern (i + 3) negated (matched || range_matches c e value) value
                    else class_loop fuel pattern (S i) negated (matched || beq c value) value
                | _, _ => class_loop fuel pattern (S i) negated (matched || beq c value) value
                end
            end
      end
  end.

Definition matchClass (pattern : bytes) (at_ : nat) (value : byte) : nat * bool :=
  let i := S at_ in
  let negated := match pattern !! i with Some c => beq c "^" | None => false end in
  let i := if negated then S i else i in
  class_loop (length pattern) pattern i negated false value.

Definition matchOne (pattern : bytes) (at_ : nat) (value : byte) : nat * bool :=
  match pattern !! at_ with
  | None => (at_, false)
  | Some c =>
      if beq c "?" then (S at_, true)
      else if beq c "\" then
        match pattern !! S at_ with
        | Some d => (S (S at_), beq d value)
        | None => (S at_, beq value "\")
        end
      else if beq c "[" then matchClass pattern at_ value
      else (S at_, beq c value)
  end.

(** The loop of [Match]; [star] is [Some (starPattern, starValue)] once a star has been
    seen. [None] is running out of fuel. *)
Fixpoint match_loop (fuel : nat) (pattern value : bytes) (pi vi : nat) (star : option (nat * nat))
    : option bool :=
  match fuel with
  | O => None
  | S fuel =>
      match value !! vi with
      | None => Some (skip_stars pattern pi =? length pattern)%nat
      | Some c =>
          if (match pattern !! pi with Some p => beq p "*" | None => false end) then
            let pi := skip_stars pattern pi in
            if (pi =? length pattern)%nat then Some true
            else match_loop fuel pattern value pi vi (Some (pi, vi))
          else
            let '(next, matched) := matchOne pattern pi c in
            if matched then match_loop fuel pattern value next (S vi) star
            else
              match star with
              | Some (starPattern, starValue) =>
                  if (starValue <? length value)%nat
                  then match_loop fuel pattern value starPattern (S starValue)
                         (Some (starPattern, S starValue))
                  else Some false
              | None => Some false
              end
      end
  end.

(** Enough fuel for every run of the loop on this pattern and value. *)
Definition match_fuel (pattern value : bytes) : nat :=
  S ((length pattern + 2) * (length value + 1) * (length value + 1)).

Definition Match (pattern value : bytes) : bool :=
  default false (match_loop (match_fuel pattern value) pattern value 0 0 None).

(** ** The specification *)

(** A member of a class is one byte or an inclusive range, in either order, of bytes
    compared as signed numbers. *)
Inductive citem := Single (c : byte) | Range (lo hi : byte).
Inductive item := Star | Any | Lit (c : byte) | Class (negated : bool) (members : list citem).

Definition citem_matches (value : byte) (m : citem) : bool :=
  match m with
  | Single c => beq c value
  | Range lo hi =>
      (Z.min (int8 lo) (int8 hi) <=? int8 value) && (int8 value <=? Z.max (int8 lo) (int8 hi))
  end.

Definition item_matches (value : byte) (i : item) : bool :=
  match i with
  | Star => false
  | Any => true
  | Lit c => beq c value
  | Class negated members => xorb negated (existsb (citem_matches value) members)
  end.

Definition is_one (i : item) : bool := match i with Star => false | _ => true end.

(** The members of a class up to its bracket, or to the end of an unterminated one, and
    what follows. *)
Fixpoint parse_class (s : bytes) : list citem * bytes :=
  match s with
  | [] => ([], [])
  | c :: s1 =>
      if beq c "]" then ([], s1)
      else
        match s1 with
        | [] => ([Single c], [])
        | d :: s2 =>
            if beq c "\" then let '(l, r) := parse_class s2 in (Single d :: l, r)
            else
              match s2 with
              | e :: s3 =>
                  if beq d "-" then let '(l, r) := parse_class s3 in (Range c e :: l, r)
                  else let '(l, r) := parse_class s1 in (Single c :: l, r)
              | [] => let '(l, r) := parse_class s1 in (Single c :: l, r)
              end
        end
  end.

(** One item of a non-empty pattern and the rest of the pattern. *)
Definition parse_item (c : byte) (s : bytes) : item * bytes :=
  if beq c "*" then (Star, s)
  else if beq c "?" then (Any, s)
  else if beq c "\" then match s with d :: s' => (Lit d, s') | [] => (Lit c, []) end
  else if beq c "[" then
    match s with
    | d :: s' =>
        if beq d "^" then let '(l, r) := parse_class s' in (Class true l, r)
        else let '(l, r) := parse_class s in (Class false l, r)
    | [] => (Class false [], [])
    end
  else (Lit c, s).

Fixpoint parse_items (fuel : nat) (s : bytes) : list item :=
  match fuel, s with
  | S fuel, c :: s => let '(i, r) := parse_item c s in i :: parse_items fuel r
  | _, _ => []
  end.
Definition parse (s : bytes) : list item := parse_items (length s) s.

(** The strings a list of items denotes. *)
Inductive gmatch : list item -> bytes -> Prop :=
| gm_nil : gmatch [] []
| gm_star_skip g v : gmatch g v -> gmatch (Star :: g) v
| gm_star_take g c v : gmatch (Star :: g) v -> gmatch (Star :: g) (c :: v)
| gm_one i g c v : is_one i = true -> item_matches c i = true -> gmatch g v -> gmatch (i :: g) (c :: v).

(** ** The parser of the specification *)

Lemma beq_true a b : beq a b = true <-> a = b.
Proof. apply bool_decide_eq_true. Qed.

Lemma beq_refl a : beq a a = true.
Proof. by apply beq_true. Qed.

Lemma parse_class_suffix_len n s : (length s <= n)%nat -> (parse_class s).2 `suffix_of` s.
Proof.
  revert s. induction n as [|n IH] => s Hn; (destruct s as [|c s1]; [done|simpl in Hn]); [lia|].
  have Hrec : forall t, t `suffix_of` s1 -> (parse_class t).2 `suffix_of` c :: s1.
  { intros t Ht. trans t; [apply IH; apply suffix_length in Ht; lia|by apply suffix_cons_r]. }
  have Hself (l : bytes) : l `suffix_of` l by exists [].
  have H1 := Hrec s1 (Hself _). simpl.
  destruct (beq c "]"); [by apply suffix_cons_r|].
  destruct s1 as [|d s2]; [by apply suffix_nil|].
  have H2 := Hrec s2 (suffix_cons_r _ _ _ (Hself _)).
  destruct (beq c "\"); [by destruct (parse_class s2)|].
  destruct s2 as [|e s3]; [by destruct (parse_class [d])|].
  have H3 := Hrec s3 (suffix_cons_r _ _ _ (suffix_cons_r _ _ _ (Hself _))).
  destruct (beq d "-"); [by destruct (parse_class s3)|]. by destruct (parse_class (d :: e :: s3)).
Qed.

Lemma parse_class_suffix s : (parse_class s).2 `suffix_of` s.
Proof. by eapply parse_class_suffix_len. Qed.

Lemma parse_item_suffix c s : (parse_item c s).2 `suffix_of` s.
Proof.
  have Hc t l r : parse_class t = (l, r) -> r `suffix_of` t.
  { intros E. have := parse_class_suffix t. by rw E. }
  rw /parse_item. repeat case_match; simplify_eq/=; eauto using suffix_cons_r.
Qed.

Lemma parse_items_fuel n m s : (length s <= n)%nat -> (length s <= m)%nat ->
  parse_items n s = parse_items m s.
Proof.
  revert m s. induction n as [|n IH] => m s Hn Hm; (destruct s as [|c s]; [by destruct m|simpl in *]); [lia|].
  destruct m as [|m]; [lia|]. simpl. have Hs := suffix_length _ _ (parse_item_suffix c s).
  destruct (parse_item c s) as [i r]. simpl in Hs. f_equal. apply IH; lia.
Qed.

Lemma parse_cons c s : parse (c :: s) = (parse_item c s).1 :: parse (parse_item c s).2.
Proof.
  rw /parse /=. have Hs := suffix_length _ _ (parse_item_suffix c s).
  destruct (parse_item c s) as [i r]. simpl in *. f_equal. by apply parse_items_fuel.
Qed.

Lemma parse_item_one c s : beq c "*" = false -> is_one (parse_item c s).1 = true.
Proof. rw /parse_item => ->. by repeat case_match; simplify_eq/=. Qed.

(** ** The class loop and [matchOne] compute the item *)

Lemma drop_lookup (p : bytes) i j : p !! (i + j)%nat = drop i p !! j.
Proof. by rw lookup_drop. Qed.

Lemma drop_suffix_pos (p r : bytes) : r `suffix_of` p -> drop (length p - length r) p = r.
Proof.
  intros [k ->]. rw length_app (_ : length k + length r - length r = length k)%nat; [lia|].
  by rw drop_app_length.
Qed.

Lemma parse_class_cons c s1 :
  parse_class (c :: s1) =
    if beq c "]" then ([], s1)
    else
      match s1 with
      | [] => ([Single c], [])
      | d :: s2 =>
          if beq c "\" then (Single d :: (parse_class s2).1, (parse_class s2).2)
          else
            match s2 with
            | e :: s3 =>
                if beq d "-" then (Range c e :: (parse_class s3).1, (parse_class s3).2)
                else (Single c :: (parse_class s1).1, (parse_class s1).2)
            | [] => (Single c :: (parse_class s1).1, (parse_class s1).2)
            end
      end.
Proof. simpl. repeat case_match; simplify_eq/=; done. Qed.

#[local] Arguments parse_class : simpl never.

Lemma range_matches_spec c e v :
  range_matches c e v =
    (Z.min (int8 c) (int8 e) <=? int8 v) && (int8 v <=? Z.max (int8 c) (int8 e)).
Proof.
  rw /range_matches. destruct (Z.ltb_spec (int8 e) (int8 c)).
  - by rw Z.min_r ?Z.max_l; try lia.
  - by rw Z.min_l ?Z.max_r; try lia.
Qed.

Lemma class_loop_spec fuel p i negated m v :
  (i <= length p)%nat -> (length p - i <= fuel)%nat ->
  class_loop fuel p i negated m v =
    ((length p - length (parse_class (drop i p)).2)%nat,
     xorb negated (m || existsb (citem_matches v) (parse_class (drop i p)).1)).
Proof.
  have Hfin : forall m', (if negated then negb m' else m') = xorb negated (m' || false).
  { intros m'. by destruct negated, m'. }
  revert i m. induction fuel as [|fuel IH] => i m Hi Hf.
  { rw (drop_ge p i) /=; [lia|]. by rw Hfin Nat.sub_0_r. }
  simpl. have Hl j := drop_lookup p i j. have Hd j := drop_drop p j i.
  have Hlen := length_drop p i.
  rw -(Nat.add_0_r i) Hl Nat.add_0_r -(Nat.add_1_r i) Hl -(Nat.add_1_r (i + 1)) -Nat.add_assoc Hl.
  destruct (drop i p) as [|c s1] eqn:E; simpl in *; [by rw Hfin Nat.sub_0_r|].
  have HIH j t : drop j (c :: s1) = t -> (1 <= j <= length (c :: s1))%nat -> forall m',
    class_loop fuel p (i + j) negated m' v =
      ((length p - length (parse_class t).2)%nat,
       xorb negated (m' || existsb (citem_matches v) (parse_class t).1)).
  { intros <- Hj m'. simpl in Hj. rw IH; [lia|lia|]. by rw -Hd. }
  rw parse_class_cons. destruct (beq c "]") eqn:?; [rw Hfin; f_equal; simpl; lia|].
  have H1 := HIH 1%nat _ (drop_0 s1) ltac:(simpl; lia).
  destruct s1 as [|d s2]; simpl.
  { destruct (beq c "\"); rw H1 /= Nat.sub_0_r !orb_false_r //. }
  have H2 := HIH 2%nat _ (drop_0 s2) ltac:(simpl; lia).
  destruct (beq c "\"); simpl; [by rw H2 orb_assoc|].
  destruct s2 as [|e s3]; [by rw H1 /= orb_assoc|].
  simpl. destruct (beq d "-"); [|by rw H1 /= orb_assoc].
  have H3 := HIH 3%nat _ (drop_0 s3) ltac:(simpl; lia).
  by rw range_matches_spec -/(citem_matches v (Range c e)) H3 /= orb_assoc.
Qed.

Lemma lookup_of_drop (p : bytes) i c s : drop i p = c :: s ->
  p !! i = Some c /\ p !! S i = head s /\ (i + S (length s) = length p)%nat.
Proof.
  intros E. have Hl j := drop_lookup p i j. have Hlen := length_drop p i. rw E in Hlen. rw E in Hl.
  split_and!.
  - by rw -(Nat.add_0_r i) Hl.
  - rw -(Nat.add_1_r i) Hl /=. by destruct s.
  - simpl in Hlen. lia.
Qed.

Lemma matchOne_spec p i c s v : drop i p = c :: s -> beq c "*" = false ->
  matchOne p i v =
    ((length p - length (parse_item c s).2)%nat, item_matches v (parse_item c s).1).
Proof.
  intros E Hstar. destruct (lookup_of_drop p i c s E) as (H0 & H1 & Hlen).
  rw /matchOne /parse_item H0 H1 Hstar. destruct (beq c "?"); [f_equal; simpl; lia|].
  destruct (beq c "\") eqn:Hb.
  { destruct s as [|d s']; simpl in *; f_equal; try lia.
    apply beq_true in Hb. subst c. rw /beq. by repeat case_bool_decide. }
  destruct (beq c "["); [|f_equal; simpl; lia]. rw /matchClass H1.
  have HD : drop (S i) p = s.
  { rw -(Nat.add_1_r i) -drop_drop E. apply drop_0. }
  destruct s as [|d s']; simpl in *.
  { rw class_loop_spec; [lia|lia|]. by rw HD. }
  destruct (beq d "^").
  - rw class_loop_spec; [lia|lia|]. rw -(Nat.add_1_r (S i)) -drop_drop HD /= drop_0.
    by destruct (parse_class s').
  - rw class_loop_spec; [lia|lia|]. rw HD. by destruct (parse_class (d :: s')).
Qed.

(** ** What item lists denote *)

Lemma gmatch_one i g c v : is_one i = true ->
  gmatch (i :: g) (c :: v) <-> item_matches c i = true /\ gmatch g v.
Proof.
  intros Hi. split; [|intros []; by constructor]. intros H. inv H; by simpl in Hi.
Qed.

Lemma gmatch_one_nil i g : is_one i = true -> ~ gmatch (i :: g) [].
Proof. intros Hi H. by inv H. Qed.

Lemma gmatch_star g v :
  gmatch (Star :: g) v <-> exists n, (n <= length v)%nat /\ gmatch g (drop n v).
Proof.
  split.
  - remember (Star :: g) as g' eqn:Eg. induction 1 as [|g0 v H _|g0 c v H IH|]; simplify_eq/=.
    + exists 0%nat. by rw drop_0; split; [lia|].
    + destruct IH as (n & ? & ?); [done|]. exists (S n). split; [lia|done].
  - intros (n & Hn & H). revert n Hn H. induction v as [|c v IH] => n Hn H.
    + rw drop_nil in H. by constructor.
    + destruct n as [|n]; [by apply gm_star_skip|]. apply gm_star_take. apply (IH n); [simpl in Hn; lia|done].
Qed.

Lemma gmatch_ones_app Q g v : Forall (fun i => is_one i = true) Q ->
  gmatch (Q ++ g) v -> (length Q <= length v)%nat /\ gmatch g (drop (length Q) v).
Proof.
  intros HQ. revert v. induction HQ as [|i Q Hi HQ IH] => v /=; [intros; split; [lia|by rw drop_0]|].
  destruct v as [|c v]; [intros H; by apply gmatch_one_nil in H|].
  rw gmatch_one //. intros [_ H]. destruct (IH _ H). split; [simpl; lia|done].
Qed.

(** Skipping a run of stars. *)
Lemma parse_skip s : parse s = replicate (leading_stars s) Star ++ parse (drop (leading_stars s) s).
Proof.
  induction s as [|c s IH]; [done|]. simpl leading_stars. destruct (beq c "*") eqn:Hc; [|done].
  rw parse_cons /parse_item Hc /= IH. done.
Qed.

Lemma skip_head s c r : drop (leading_stars s) s = c :: r -> beq c "*" = false.
Proof.
  induction s as [|d s IH]; simpl; [done|]. destruct (beq d "*") eqn:Hd; [done|]. by intros [= <- <-].
Qed.

Lemma leading_stars_le s : (leading_stars s <= length s)%nat.
Proof. induction s as [|c s IH]; simpl; [lia|]. destruct (beq c "*"); lia. Qed.

Lemma gmatch_stars n g v : gmatch (replicate (S n) Star ++ g) v <-> gmatch (Star :: g) v.
Proof.
  revert v. induction n as [|n IH] => v; [done|]. rw -IH. split; [|by constructor].
  change (replicate (S (S n)) Star ++ g) with (Star :: (replicate (S n) Star ++ g)).
  intros (k & Hk & H)%gmatch_star. apply IH, gmatch_star in H as (m & Hm & H). apply IH.
  apply gmatch_star. exists (k + m)%nat. rw length_drop in Hm. rw drop_drop in H. split; [lia|done].
Qed.

Lemma gmatch_nil_stars s : gmatch (parse s) [] <-> leading_stars s = length s.
Proof.
  induction s as [|c s IH]; [split; [done|constructor]|]. rw parse_cons /=.
  destruct (beq c "*") eqn:Hc.
  - rw (_ : parse_item c s = (Star, s)); [by rw /parse_item Hc|]. simpl. rw Nat.succ_inj_wd -IH.
    split; [intros H; by inv H|by constructor].
  - split; [|done]. intros H. by apply gmatch_one_nil in H; [|apply parse_item_one].
Qed.

(** ** The backtracking loop *)

(** The rest of the pattern at [pi] denotes the rest of the value at [vi]. *)
Definition match_at (p v : bytes) (pi vi : nat) : Prop := gmatch (parse (drop pi p)) (drop vi v).

(** The remembered star precedes the current position by items that consume one byte
    each and have consumed exactly the bytes in between. *)
Definition star_inv (p v : bytes) (pi vi : nat) (star : option (nat * nat)) : Prop :=
  match star with
  | None => True
  | Some (sp, sv) =>
      (sp <= pi)%nat /\ (sv <= vi)%nat /\ exists Q, parse (drop sp p) = Q ++ parse (drop pi p) /\
        Forall (fun i => is_one i = true) Q /\ length Q = (vi - sv)%nat
  end.

(** What the loop still has to decide: a match here, or from the star at a later byte. *)
Definition loop_goal (p v : bytes) (pi vi : nat) (star : option (nat * nat)) : Prop :=
  match_at p v pi vi \/
  exists sp sv n, star = Some (sp, sv) /\ (sv < n <= length v)%nat /\ match_at p v sp n.

Definition loop_measure (p v : bytes) (vi : nat) (star : option (nat * nat)) : nat :=
  match star with
  | None => ((length p + 1) * (length v + 1) + length v) * (length v + 1) + (length v - vi)
  | Some (sp, sv) =>
      ((length p - sp) * (length v + 1) + (length v - sv)) * (length v + 1) + (length v - vi)
  end%nat.

(** A new star makes the old one redundant. *)
Lemma star_supersedes p v pi vi star : star_inv p v pi vi star -> (vi <= length v)%nat ->
  loop_goal p v pi vi star -> gmatch (Star :: parse (drop pi p)) (drop vi v).
Proof.
  intros Hinv Hvi [H|(sp & sv & n & -> & Hn & H)]; [by constructor|].
  destruct Hinv as (_ & Hsv & Q & EQ & HQ & HlQ). rw /match_at EQ in H.
  apply gmatch_ones_app in H as [Hl H]; [|done]. rw length_drop in Hl. rw drop_drop in H.
  apply gmatch_star. exists (n + length Q - vi)%nat. rw length_drop drop_drop.
  split; [lia|]. by rw (_ : (vi + (n + length Q - vi)) = n + length Q)%nat; [lia|].
Qed.

Lemma goal_at_end p v pi vi star : (vi = length v)%nat -> star_inv p v pi vi star ->
  loop_goal p v pi vi star <-> gmatch (parse (drop pi p)) [].
Proof.
  intros -> Hinv. rw /loop_goal {1}/match_at drop_all. split; [|by left].
  intros [H|(sp & sv & n & -> & Hn & H)]; [done|].
  destruct Hinv as (_ & Hsv & Q & EQ & HQ & HlQ). rw /match_at EQ in H.
  apply gmatch_ones_app in H as [Hl _]; [|done]. rw length_drop in Hl. lia.
Qed.

Lemma goal_new_star p v pi vi : (vi <= length v)%nat ->
  loop_goal p v pi vi (Some (pi, vi)) <-> gmatch (Star :: parse (drop pi p)) (drop vi v).
Proof.
  intros Hvi. rw gmatch_star /loop_goal /match_at length_drop. split.
  - intros [H|(? & ? & n & [= <- <-] & Hn & H)].
    + exists 0%nat. rw drop_0. split; [lia|done].
    + exists (n - vi)%nat. rw drop_drop (_ : vi + (n - vi) = n)%nat; [lia|]. split; [lia|done].
  - intros (n & Hn & H). rw drop_drop in H. destruct n as [|n]; [left; by rw Nat.add_0_r in H|].
    right. exists pi, vi, (vi + S n)%nat. split_and!; try done; lia.
Qed.

Lemma goal_at_star p v pi vi star k : k = leading_stars (drop pi p) ->
  (vi <= length v)%nat -> star_inv p v pi vi star -> k <> 0%nat ->
  loop_goal p v pi vi star <-> gmatch (Star :: parse (drop (pi + k) p)) (drop vi v).
Proof.
  intros Ek Hvi Hinv Hk. have E := parse_skip (drop pi p). rw -Ek drop_drop in E.
  destruct k as [|k]; [done|]. split.
  - intros H. apply star_supersedes in H; [|done|done]. rw E in H.
    by apply (gmatch_stars (S k) (parse (drop (pi + S k) p))).
  - intros H. left. rw /match_at E. by apply gmatch_stars.
Qed.

Lemma goal_retry p v pi vi sp sv : (sv < length v)%nat -> ~ match_at p v pi vi ->
  loop_goal p v pi vi (Some (sp, sv)) <-> loop_goal p v sp (S sv) (Some (sp, S sv)).
Proof.
  intros Hsv Hno. split.
  - intros [H|(? & ? & n & [= <- <-] & Hn & H)]; [done|].
    destruct (decide (n = S sv)) as [->|]; [by left|].
    right. exists sp, (S sv), n. split_and!; try done; lia.
  - intros [H|(? & ? & n & [= <- <-] & Hn & H)]; right; [exists sp, sv, (S sv)|exists sp, sv, n];
      (split_and!; try done; lia).
Qed.

(** One item consumed one byte: the obligations move with it. *)
Lemma consume_step p v pi vi c s d star :
  drop pi p = c :: s -> beq c "*" = false -> v !! vi = Some d ->
  item_matches d (parse_item c s).1 = true ->
  let next := (length p - length (parse_item c s).2)%nat in
  star_inv p v pi vi star ->
  (pi < next <= length p)%nat /\ star_inv p v next (S vi) star /\
  (loop_goal p v pi vi star <-> loop_goal p v next (S vi) star).
Proof.
  intros E Hc Hv Hm next Hinv.
  destruct (lookup_of_drop p pi c s E) as (_ & _ & Hlen).
  have Hsuf := parse_item_suffix c s. have Hlr := suffix_length _ _ Hsuf.
  have Hnext : drop next p = (parse_item c s).2.
  { apply drop_suffix_pos. trans s; [done|]. trans (c :: s); [by apply suffix_cons_r|].
    rw -E. apply suffix_drop. }
  have Hp : parse (drop pi p) = (parse_item c s).1 :: parse (drop next p) by rw E parse_cons Hnext.
  have Hone := parse_item_one c s Hc. have Hvd : drop vi v = d :: drop (S vi) v by apply drop_S.
  have HM : match_at p v pi vi <-> match_at p v next (S vi).
  { rw /match_at Hp Hvd gmatch_one //. naive_solver. }
  split_and!; [lia|lia| |].
  - destruct star as [[sp sv]|]; [|done]. destruct Hinv as (H1 & H2 & Q & EQ & HQ & HlQ).
    split_and!; [lia|lia|]. exists (Q ++ [(parse_item c s).1]). rw -app_assoc /= -Hp length_app /=.
    split_and!; [done| |lia]. by apply Forall_app_2; [|apply Forall_singleton].
  - by rw /loop_goal HM.
Qed.

(** A run that ends and whose answer decides [P]. *)
Definition decides (r : option bool) (P : Prop) : Prop :=
  exists b, r = Some b /\ (b = true <-> P).

Lemma decides_iff r (P Q : Prop) : (P <-> Q) -> decides r Q -> decides r P.
Proof. intros HPQ (b & -> & Hb). exists b. by rw HPQ. Qed.

Lemma match_loop_spec fuel p v pi vi star :
  (pi <= length p)%nat -> (vi <= length v)%nat -> star_inv p v pi vi star ->
  (loop_measure p v vi star < fuel)%nat ->
  decides (match_loop fuel p v pi vi star) (loop_goal p v pi vi star).
Proof.
  revert pi vi star. induction fuel as [|fuel IH] => pi vi star Hpi Hvi Hinv Hm; [lia|].
  cbn [match_loop]. destruct (v !! vi) as [d|] eqn:Hv.
  2:{ apply lookup_ge_None in Hv. eexists. split; [done|]. rw (goal_at_end p v) //; [lia|].
      rw gmatch_nil_stars /skip_stars Nat.eqb_eq length_drop. lia. }
  have Hlt := lookup_lt_Some _ _ _ Hv.
  have Hfail : ~ match_at p v pi vi -> decides
    match star with
    | Some (starPattern, starValue) =>
        if (starValue <? length v)%nat
        then match_loop fuel p v starPattern (S starValue) (Some (starPattern, S starValue))
        else Some false
    | None => Some false
    end (loop_goal p v pi vi star).
  { intros Hno. destruct star as [[sp sv]|].
    - destruct Hinv as (H1 & H2 & Hrest). destruct (Nat.ltb_spec sv (length v)); [|lia].
      eapply decides_iff; [by apply goal_retry|]. apply IH; [lia|lia| |].
      + split_and!; [lia|lia|]. exists []. split_and!; [done|constructor|simpl; lia].
      + simpl in *. nia.
    - exists false. split; [done|]. split; [done|]. by intros [|(? & ? & ? & ? & _)]. }
  destruct (drop pi p) as [|c s] eqn:E.
  { have Hnone : p !! pi = None.
    { apply lookup_ge_None. have := length_drop p pi. rw E /=. lia. }
    rw Hnone /matchOne Hnone. apply Hfail. rw /match_at E (drop_S _ d) //. intros H. by inv H. }
  destruct (lookup_of_drop p pi c s E) as (H0 & _ & Hlen). rw H0.
  destruct (beq c "*") eqn:Hc.
  - rw /skip_stars. have Hk : leading_stars (drop pi p) <> 0%nat by rw E /= Hc.
    have Hk2 := leading_stars_le (drop pi p). rw length_drop in Hk2.
    eapply decides_iff; [by apply (goal_at_star p v pi vi star _ eq_refl)|]. destruct (Nat.eqb_spec (pi + leading_stars (drop pi p)) (length p)) as [He|He].
    + exists true. split; [done|]. split; [intros _|done]. rw He drop_all.
      apply gmatch_star. exists (length (drop vi v)). split; [lia|]. rw drop_all. constructor.
    + eapply decides_iff; [by rw -goal_new_star|]. apply IH; [lia|lia| |].
      * split_and!; [lia|lia|]. exists []. split_and!; [done|constructor|simpl; lia].
      * destruct star as [[sp sv]|]; simpl in *; [destruct Hinv as (? & ? & _)|]; nia.
  - rw (matchOne_spec p pi c s) //. destruct (item_matches d (parse_item c s).1) eqn:Hmt.
    + destruct (consume_step p v pi vi c s d star) as (Hn & Hinv' & Hg); [done..|].
      apply (decides_iff _ _ _ Hg), IH; [lia|lia|done|]. destruct star as [[sp sv]|]; simpl in *; lia.
    + apply Hfail. rw /match_at E parse_cons (drop_S _ d) // gmatch_one; [by apply parse_item_one|].
      rw Hmt. by intros [].
Qed.

(** C26. [Match] terminates on every pattern and value and decides exactly whether the
    value is one the pattern denotes: the loop that only ever returns to its last star,
    with escapes, negated, unterminated and reversed-range classes, agrees with the
    reference semantics in which every star may stand for any string. *)
Theorem Match_correct (pattern value : bytes) :
  match_loop (match_fuel pattern value) pattern value 0 0 None = Some (Match pattern value) /\
  (Match pattern value = true <-> gmatch (parse pattern) value).
Proof.
  destruct (match_loop_spec (match_fuel pattern value) pattern value 0 0 None) as (b & E & Hb);
    [lia|lia|done|rw /match_fuel /=; nia|].
  rw /Match E. split; [done|]. rw /= Hb /loop_goal /match_at !drop_0. split; [|by left].
  by intros [H|(? & ? & ? & ? & _)].
Qed.

(** Examples from the package's own tests. *)
Example Match_examples :
  Match (str "h[^ab]llo*") (str "hello!") = true /\ Match (str "[z-a]x") (str "mx") = true /\
  Match (str "a\*b") (str "axb") = false /\ Match (str "*a*b") (str "xaybzb") = true /\
  Match (str "[abc") (str "b") = true.
Proof. by vm_compute. Qed.
