(* ===== verification/RespWriter.v ===== *)
(** * The RESP2 encoder (src/internal/resp/writer.go)

    [Writer] is a [bufio.Writer] over an arbitrary [io.Writer]. The latter is the type
    class [Sink], with the contract of the [io.Writer] documentation as its laws, so
    that the same code is verified for a socket that may fail and for the in-memory
    buffer of the append-only file, which does not.

    The specification of a write is the byte string it must append to the stream
    ([emits]): what has been delivered followed by what is buffered grows by exactly
    those bytes, and on an error what was delivered is a prefix of them. *)

From S2P Require Import Prelude.
From S2P Require Import GoLib.

(** ** [io.Writer] *)

(** [sink_write p s] is [(n, ok, s')]: [n] bytes of [p] were taken, [ok] tells whether the
    error was nil. [sink_out] is everything the sink has taken so far. *)
Class Sink (S : Type) := {
  sink_write : bytes -> S -> Z * bool * S;
  sink_out : S -> bytes;
  sink_string_writer : bool
}.

(** The documented contract: [0 <= n <= len(p)], the bytes taken are the first [n], and a
    short count comes with an error. *)
Class SinkLaws (S : Type) `{!Sink S} := {
  sink_count p s : 0 <= (sink_write p s).1.1 <= len p;
  sink_data p s : sink_out (sink_write p s).2 = sink_out s ++ take (Z.to_nat (sink_write p s).1.1) p;
  sink_short p s : (sink_write p s).1.2 = true -> (sink_write p s).1.1 = len p
}.

(** Sinks whose writes never fail. *)
Class Infallible (S : Type) `{!Sink S} := sink_ok p s : (sink_write p s).1.2 = true.

(** [bytes.Buffer], which also implements [io.StringWriter]. *)
#[export] Instance buffer_sink : Sink bytes := {|
  sink_write p s := (len p, true, s ++ p);
  sink_out s := s;
  sink_string_writer := true
|}.

#[export] Instance buffer_laws : SinkLaws bytes.
Proof.
  split; intros p s; simpl; [pose proof (len_nonneg p); lia| |done].
  rw /len Nat2Z.id firstn_all //.
Qed.

#[export] Instance buffer_infallible : Infallible bytes.
Proof. done. Qed.

(** A connection that takes the given number of bytes before failing, in pieces. *)
Record fragile := { fr_out : bytes; fr_left : nat }.
#[export] Instance fragile_sink : Sink fragile := {|
  sink_write p s :=
    let n := Nat.min (length p) (fr_left s) in
    (Z.of_nat n, bool_decide (length p <= fr_left s)%nat,
     {| fr_out := fr_out s ++ take n p; fr_left := fr_left s - n |});
  sink_out := fr_out;
  sink_string_writer := false
|}.

#[export] Instance fragile_laws : SinkLaws fragile.
Proof.
  split; intros p s; simpl; [rw /len; lia|by rw Nat2Z.id|].
  intros ?%bool_decide_eq_true_1. rw /len. lia.
Qed.

Section writer.
Context {S : Type} `{!Sink S}.

(** ** [bufio.Writer] *)

Definition bufio_size : Z := 4096.

Record Writer := mkWriter {
  bw_buf : bytes;
  bw_ok : bool;
  bw_sink : S
}.

(** [NewWriter(w)]. *)
Definition NewWriter (s : S) : Writer := mkWriter [] true s.

Definition Buffered (w : Writer) : Z := len (bw_buf w).
Definition Available (w : Writer) : Z := bufio_size - Buffered w.

(** A write: the new writer and whether the error was nil. *)
Definition wop : Type := Writer -> bool * Writer.

(** [if err := a; err != nil { return err }; b] *)
Definition and_then (a b : wop) : wop := fun w =>
  let '(ok, w) := a w in if ok then b w else (false, w).

Definition Flush : wop := fun w =>
  if negb (bw_ok w) then (false, w)
  else if Buffered w =? 0 then (true, w)
  else
    let '(n, ok, s) := sink_write (bw_buf w) (bw_sink w) in
    let ok := ok && negb (n <? Buffered w) in
    if ok then (true, mkWriter [] true s)
    else (false, mkWriter (drop (Z.to_nat n) (bw_buf w)) false s).

Definition WriteByte (c : byte) : wop := fun w =>
  if negb (bw_ok w) then (false, w)
  else
    let '(ok, w) := if Available w <=? 0 then Flush w else (true, w) in
    if ok then (true, mkWriter (bw_buf w ++ [c]) (bw_ok w) (bw_sink w)) else (false, w).

(** The loop of [Write] and [WriteString] while the rest does not fit the buffer;
    [direct] tells whether a large write may bypass it. *)
Fixpoint put_loop (fuel : nat) (direct : bool) (p : bytes) (w : Writer) : bytes * Writer :=
  match fuel with
  | O => (p, w)
  | Datatypes.S fuel =>
      if (Available w <? len p) && bw_ok w then
        if (Buffered w =? 0) && direct then
          let '(n, ok, s) := sink_write p (bw_sink w) in
          put_loop fuel direct (drop (Z.to_nat n) p) (mkWriter (bw_buf w) ok s)
        else
          let n := Z.to_nat (Available w) in
          let w := mkWriter (bw_buf w ++ take n p) (bw_ok w) (bw_sink w) in
          put_loop fuel direct (drop n p) (Flush w).2
      else (p, w)
  end.

(** Every second iteration at least consumes a byte, so this is enough fuel. *)
Definition put (direct : bool) (p : bytes) : wop := fun w =>
  let '(p, w) := put_loop (2 * length p + 2) direct p w in
  if bw_ok w then (true, mkWriter (bw_buf w ++ p) true (bw_sink w)) else (false, w).

Definition Write (p : bytes) : wop := put true p.
Definition WriteString (p : bytes) : wop := put sink_string_writer p.

(** ** The encoder *)

Definition crlf : wop := WriteString CRLF.

(** [strings.IndexAny(s, "\r\n")] *)
Definition is_crlf (c : byte) : bool := bool_decide (c = CR) || bool_decide (c = LF).
Fixpoint IndexAny_crlf (s : bytes) : option nat :=
  match s with
  | [] => None
  | c :: s => if is_crlf c then Some O else Datatypes.S <$> IndexAny_crlf s
  end.

Fixpoint writeLineSafe_loop (fuel : nat) (s : bytes) : wop :=
  match fuel with
  | O => WriteString s
  | Datatypes.S fuel =>
      match IndexAny_crlf s with
      | None => WriteString s
      | Some i =>
          and_then (WriteString (take i s))
            (and_then (WriteByte " ") (writeLineSafe_loop fuel (drop (Datatypes.S i) s)))
      end
  end.
Definition writeLineSafe (s : bytes) : wop := writeLineSafe_loop (length s) s.

Definition prefixed (tag : byte) (s : bytes) : wop :=
  and_then (WriteByte tag) (and_then (writeLineSafe s) crlf).

Definition WriteSimpleString (s : bytes) : wop := prefixed "+" s.
Definition WriteError (s : bytes) : wop := prefixed "-" s.

Definition numberLine (n : Z) : wop := and_then (Write (FormatInt n)) crlf.

Definition WriteInt (n : Z) : wop := and_then (WriteByte ":") (numberLine n).

Definition WriteBulk (s : bytes) : wop :=
  and_then (WriteByte "$") (and_then (numberLine (len s)) (and_then (WriteString s) crlf)).

Definition WriteNullBulk : wop := WriteString (str "$-1" ++ CRLF).

Definition WriteArrayHeader (n : Z) : wop := and_then (WriteByte "*") (numberLine n).
End writer.
Arguments Writer S : clear implicits.
Arguments wop S : clear implicits.

(** ** The byte strings a writer must emit *)

(** CR and LF become spaces in the replies that have no length prefix. *)
Definition line_safe (s : bytes) : bytes := (fun c => if is_crlf c then " "%byte else c) <$> s.

Definition enc_line (tag : byte) (s : bytes) : bytes := tag :: line_safe s ++ CRLF.
Definition enc_number (n : Z) : bytes := FormatInt n ++ CRLF.
Definition enc_int (n : Z) : bytes := ":"%byte :: enc_number n.
Definition enc_bulk (s : bytes) : bytes := "$"%byte :: enc_number (len s) ++ s ++ CRLF.
Definition enc_null : bytes := str "$-1" ++ CRLF.
Definition enc_array (n : Z) : bytes := "*"%byte :: enc_number n.
#[global] Arguments enc_line : simpl never.
#[global] Arguments enc_int : simpl never.
#[global] Arguments enc_bulk : simpl never.
#[global] Arguments enc_null : simpl never.
#[global] Arguments enc_array : simpl never.

(** ** What an operation of the writer guarantees *)

Section emits.
Context {S : Type} `{!Sink S} `{!SinkLaws S}.

(** The stream so far: delivered, then buffered. *)
Definition total (w : Writer S) : bytes := sink_out (bw_sink w) ++ bw_buf w.
Definition delivered (w : Writer S) : bytes := sink_out (bw_sink w).

Definition fits (w : Writer S) : Prop := Buffered w <= bufio_size.

(** The operation appends exactly [bs] to the stream; if it reports an error the writer is
    dead and what has been delivered is a prefix of the intended stream; a dead writer is
    left untouched; and over a sink that never fails there is no error. *)
Definition emits (m : wop S) (bs : bytes) : Prop := forall w, fits w ->
  let '(ok, w') := m w in
  fits w' /\ ok = bw_ok w' /\ (bw_ok w = false -> w' = w) /\
  delivered w `prefix_of` delivered w' /\
  (if ok then total w' = total w ++ bs else delivered w' `prefix_of` total w ++ bs) /\
  (Infallible S -> bw_ok w = true -> ok = true).

(** ** [bufio.Writer] keeps the stream *)

Lemma sink_spec p s n ok s' : sink_write p s = (n, ok, s') ->
  0 <= n <= len p /\ sink_out s' = sink_out s ++ take (Z.to_nat n) p /\
  (ok = true -> sink_out s' = sink_out s ++ p /\ n = len p).
Proof.
  intros E. pose proof (sink_count p s) as Hc. pose proof (sink_data p s) as Hd.
  pose proof (sink_short p s) as Hs.
  rw E /= in Hc Hd Hs. split_and!; try lia; try done. intros Hok. specialize (Hs Hok). subst n.
  rw /len Nat2Z.id firstn_all in Hd. done.
Qed.

Lemma emits_flush : emits Flush [].
Proof.
  intros w Hw. rw /Flush. destruct (bw_ok w) eqn:Hok; simpl.
  2:{ split_and!; try done. rw app_nil_r. by apply prefix_app_r. }
  case_cmp; [by rw app_nil_r Hok|].
  destruct (sink_write (bw_buf w) (bw_sink w)) as [[k ok] s'] eqn:Ew.
  destruct (sink_spec _ _ _ _ _ Ew) as (Hc & Hd & Hs). simpl in *. rw app_nil_r.
  rw /fits /Buffered /= in Hw *.
  have Hpre : sink_out (bw_sink w) `prefix_of` sink_out s' by rw Hd; apply prefix_app_r.
  destruct (ok && negb (k <? len (bw_buf w))) eqn:E; simpl.
  - apply andb_prop in E as [-> _]. destruct Hs as [Hs _]; [done|].
    rw /total /= Hs app_nil_r. by split_and!.
  - split_and!; try done.
    + have : len (drop (Z.to_nat k) (bw_buf w)) <= len (bw_buf w); [rw /len length_drop; lia|lia].
    + rw /delivered /total /= Hd. apply prefix_app, prefix_take.
    + intros Hin _. pose proof (sink_ok (bw_buf w) (bw_sink w)) as Hk. rw Ew /= in Hk. subst ok.
      destruct Hs as [_ ->]; [done|]. by rw Z.ltb_irrefl in E.
Qed.

Lemma flush_empty (w w' : Writer S) : Flush w = (true, w') -> bw_buf w' = [].
Proof.
  rw /Flush. destruct (bw_ok w); simpl; [|done]. case_cmp.
  - intros [= <-]. rw /Buffered /len in e. by destruct (bw_buf w); simpl in *; [|lia].
  - destruct (sink_write _ _) as [[? ?] ?]. case_match; [by intros [= <-]|done].
Qed.

Lemma emits_WriteByte c : emits (WriteByte c) [c].
Proof.
  intros w Hw. rw /WriteByte. destruct (bw_ok w) eqn:Hok; simpl.
  2:{ split_and!; try done. rw /total -app_assoc. by apply prefix_app_r. }
  have Hf := emits_flush w Hw. case_cmp.
  - destruct (Flush w) as [[|] w1] eqn:Ef; destruct Hf as (H1 & H2 & _ & H3 & H4 & H5).
    + have Hnil := flush_empty _ _ Ef. rw /fits /Buffered /total Hnil app_nil_r /= in H4 *.
      rw app_nil_r in H4. by rw H4; split_and!.
    + rw app_nil_r in H4. split_and!; try done; [|by intros Hin _; apply H5].
      trans (total w); [done|by apply prefix_app_r].
  - simpl. rw /fits /Buffered /= len_app len_cons len_nil. rw /Available /Buffered in H.
    split_and!; try done; [lia|]. by rw /total /= app_assoc.
Qed.

Lemma put_loop_spec fuel direct p w : fits w ->
  let '(p', w') := put_loop fuel direct p w in
  fits w' /\ (bw_ok w = false -> p' = p /\ w' = w) /\ delivered w `prefix_of` delivered w' /\
  (if bw_ok w' then total w' ++ p' = total w ++ p else delivered w' `prefix_of` total w ++ p) /\
  (2 * len p + (if Buffered w =? bufio_size then 1 else 0) < Z.of_nat fuel ->
    bw_ok w' = true -> len p' <= Available w') /\
  (Infallible S -> bw_ok w = true -> bw_ok w' = true).
Proof.
  revert p w. induction fuel as [|fuel IH] => p w Hw; cbn [put_loop].
  { split_and!; try done; [destruct (bw_ok w); [done|apply prefix_app_r; by apply prefix_app_r]|].
    have := len_nonneg p. case_match; lia. }
  destruct (bw_ok w) eqn:Hok; [rw andb_true_r|rw andb_false_r].
  2:{ split_and!; try done; [rw Hok; apply prefix_app_r; by apply prefix_app_r|by rw Hok]. }
  destruct (Z.ltb_spec (Available w) (len p)) as [Ha|Ha]; [|by rw Hok; split_and!].
  destruct ((Buffered w =? 0) && direct) eqn:Hdir.
  - apply andb_prop in Hdir as [Hb%Z.eqb_eq _].
    have Hnil : bw_buf w = [] by rw /Buffered /len in Hb; destruct (bw_buf w); simpl in *; [done|lia].
    destruct (sink_write p (bw_sink w)) as [[n ok] s'] eqn:Ew.
    destruct (sink_spec _ _ _ _ _ Ew) as (Hc & Hd & Hs).
    set w1 := mkWriter (bw_buf w) ok s'. have Hw1 : fits w1 by done.
    have Ht : total w1 ++ drop (Z.to_nat n) p = total w ++ p.
    { rw /total /= Hnil !app_nil_r Hd -app_assoc take_drop //. }
    have := IH (drop (Z.to_nat n) p) w1 Hw1. destruct (put_loop fuel direct _ w1) as [p' w'].
    intros (H1 & H2 & H3 & H4 & H5 & H6). split_and!; try done.
    + etrans; [|exact H3]. rw /delivered /= Hd. by apply prefix_app_r.
    + by rw -Ht.
    + intros Hf Hok'. apply H5; [|done]. destruct ok.
      * destruct Hs as [_ ->]; [done|]. rw /len Nat2Z.id drop_all -/(len p) /w1 /Buffered Hnil /=.
        rw /Available Hb /bufio_size in Ha. case_match; lia.
      * destruct H2 as [_ ->]; done.
    + intros Hin _. apply H6; [done|]. pose proof (sink_ok p (bw_sink w)) as Hk. by rw Ew in Hk.
  - set n := Z.to_nat (Available w).
    have Hav : 0 <= Available w by rw /fits in Hw; rw /Available; lia.
    set w1 := mkWriter (bw_buf w ++ take n p) true (bw_sink w).
    have Hb1 : Buffered w1 = bufio_size.
    { rw /Buffered /= len_app {2}/len length_take /n. rw /len in Ha. rw /Available /Buffered in Ha Hav *. lia. }
    have Hw1 : fits w1 by rw /fits Hb1.
    have Ht : total w1 ++ drop n p = total w ++ p by rw /total /= -!app_assoc take_drop.
    have Hf := emits_flush w1 Hw1. destruct (Flush w1) as [ok w2] eqn:Ef. simpl.
    destruct Hf as (F1 & F2 & _ & F3 & F4 & F5). rw app_nil_r in F4.
    have := IH (drop n p) w2 F1. destruct (put_loop fuel direct (drop n p) w2) as [p' w'].
    intros (H1 & H2 & H3 & H4 & H5 & H6). rw -Ht. split_and!; try done.
    + by etrans.
    + destruct ok; [by rw -F4|]. destruct H2 as [-> ->]; [done|]. rw -F2.
      etrans; [exact F4|]. by apply prefix_app_r.
    + intros Hfu Hok'. apply H5; [|done]. destruct ok; [|destruct H2 as [_ ->]; [done|congruence]].
      have -> : Buffered w2 = 0 by rw /Buffered (flush_empty _ _ Ef).
      rw /= {1}/len length_drop /n.
      rw /len in Hfu Ha. case_match eqn:Hfull; [lia|]. apply Z.eqb_neq in Hfull.
      have : 0 < Available w by rw /Available in Hav *; lia. lia.
    + intros Hin _. apply H6; [done|]. rw -F2. by apply F5.
Qed.

Lemma emits_put direct p : emits (put direct p) p.
Proof.
  intros w Hw. rw /put. have := put_loop_spec (2 * length p + 2) direct p w Hw.
  destruct (put_loop _ direct p w) as [p' w']. intros (H1 & H2 & H3 & H4 & H5 & H6).
  destruct (bw_ok w') eqn:Hok; simpl.
  - have Hl : len p' <= Available w'.
    { apply H5; [|done]. rw /len. case_match; lia. }
    split_and!; try done.
    + rw /fits /Buffered /= len_app. rw /Available /Buffered in Hl. lia.
    + intros Hw0. destruct (H2 Hw0) as [_ ->]. congruence.
    + by rw -H4 /total /= app_assoc.
  - split_and!; try done. intros Hw0. by destruct (H2 Hw0).
Qed.

Lemma emits_and_then a b x y : emits a x -> emits b y -> emits (and_then a b) (x ++ y).
Proof.
  intros Ha Hb w Hw. rw /and_then. have := Ha w Hw. destruct (a w) as [[|] w1].
  - intros (A1 & A2 & A3 & A4 & A5 & A6). have := Hb w1 A1. destruct (b w1) as [ok w2].
    intros (B1 & B2 & B3 & B4 & B5 & B6). rw app_assoc -A5. split_and!; try done; [|by etrans|].
    + intros Hw0. have E := A3 Hw0. subst w1. congruence.
    + intros Hin _. by apply B6.
  - intros (A1 & A2 & A3 & A4 & A5 & A6). split_and!; try done. rw app_assoc. by apply prefix_app_r.
Qed.

Lemma emits_eq m x y : x = y -> emits m x -> emits m y.
Proof. by intros ->. Qed.

Lemma emits_ext m m' x : (forall w, m w = m' w) -> emits m x -> emits m' x.
Proof. intros E Hm w Hw. rw -E. by apply Hm. Qed.
End emits.
#[export] Hint Resolve emits_flush emits_WriteByte emits_put emits_and_then : kv.

(** ** The encoder emits its frames *)

Lemma line_safe_cons c s :
  line_safe (c :: s) = (if is_crlf c then " "%byte else c) :: line_safe s.
Proof. done. Qed.

Lemma IndexAny_None s : IndexAny_crlf s = None -> line_safe s = s.
Proof.
  induction s as [|c s IH]; [done|]. rw line_safe_cons. cbn [IndexAny_crlf].
  destruct (is_crlf c); [done|]. destruct (IndexAny_crlf s); [done|]. intros _. by rw IH.
Qed.

Lemma IndexAny_Some s i : IndexAny_crlf s = Some i ->
  line_safe s = take i s ++ " "%byte :: line_safe (drop (Datatypes.S i) s) /\ (i < length s)%nat.
Proof.
  revert i. induction s as [|c s IH] => i; [done|]. rw line_safe_cons. cbn [IndexAny_crlf].
  destruct (is_crlf c).
  - intros [= <-]. cbn [take drop length app]. rw drop_0. split; [done|lia].
  - destruct (IndexAny_crlf s) as [j|]; [|done]. intros [= <-]. destruct (IH j) as [E Hj]; [done|].
    split; [by rw E|simpl; lia].
Qed.

Section encoder.
Context {S : Type} `{!Sink S} `{!SinkLaws S}.

Lemma emits_crlf : emits (S:=S) crlf CRLF.
Proof. apply emits_put. Qed.

Lemma emits_numberLine n : emits (S:=S) (numberLine n) (enc_number n).
Proof. apply emits_and_then; [apply emits_put|apply emits_crlf]. Qed.

Lemma emits_writeLineSafe_loop fuel s : (length s <= fuel)%nat ->
  emits (S:=S) (writeLineSafe_loop fuel s) (line_safe s).
Proof.
  revert s. induction fuel as [|fuel IH] => s Hl; simpl.
  { destruct s; [apply emits_put|simpl in *; lia]. }
  destruct (IndexAny_crlf s) as [i|] eqn:E.
  - apply IndexAny_Some in E as [-> Hi]. apply emits_and_then; [apply emits_put|].
    apply (emits_and_then _ _ [" "%byte]); [apply emits_WriteByte|]. apply IH.
    rw length_drop. lia.
  - rw IndexAny_None //. apply emits_put.
Qed.

Lemma emits_prefixed tag s : emits (S:=S) (prefixed tag s) (enc_line tag s).
Proof.
  apply (emits_and_then _ _ [tag]); [apply emits_WriteByte|].
  apply emits_and_then; [by apply emits_writeLineSafe_loop|apply emits_crlf].
Qed.

Lemma emits_WriteInt n : emits (S:=S) (WriteInt n) (enc_int n).
Proof. apply (emits_and_then _ _ [":"%byte]); [apply emits_WriteByte|apply emits_numberLine]. Qed.

Lemma emits_WriteBulk s : emits (S:=S) (WriteBulk s) (enc_bulk s).
Proof.
  apply (emits_and_then _ _ ["$"%byte]); [apply emits_WriteByte|].
  apply emits_and_then; [apply emits_numberLine|].
  apply emits_and_then; [apply emits_put|apply emits_crlf].
Qed.

Lemma emits_WriteNullBulk : emits (S:=S) WriteNullBulk enc_null.
Proof. apply emits_put. Qed.

Lemma emits_WriteArrayHeader n : emits (S:=S) (WriteArrayHeader n) (enc_array n).
Proof. apply (emits_and_then _ _ ["*"%byte]); [apply emits_WriteByte|apply emits_numberLine]. Qed.

(** Over any [io.Writer] that keeps its contract, failing or not, and through all the
    flushes the 4096-byte buffer performs on its own, each write of the encoder appends
    exactly the bytes of its RESP2 frame to the stream; after an error nothing more is
    ever delivered and what was delivered is a prefix of the intended frames. *)
Theorem encoder_emits_frames (s : bytes) (n : Z) :
  emits (S:=S) (WriteSimpleString s) (enc_line "+" s) /\
  emits (S:=S) (WriteError s) (enc_line "-" s) /\
  emits (S:=S) (WriteInt n) (enc_int n) /\
  emits (S:=S) (WriteBulk s) (enc_bulk s) /\
  emits (S:=S) WriteNullBulk enc_null /\
  emits (S:=S) (WriteArrayHeader n) (enc_array n).
Proof.
  split_and!; [apply emits_prefixed|apply emits_prefixed|apply emits_WriteInt|
    apply emits_WriteBulk|apply emits_WriteNullBulk|apply emits_WriteArrayHeader].
Qed.
End encoder.
#[export] Hint Resolve emits_crlf emits_numberLine emits_prefixed emits_WriteInt emits_WriteBulk
  emits_WriteNullBulk emits_WriteArrayHeader : kv.

(** A connection that breaks after seven bytes receives the first seven. *)
Lemma encoder_emits_witness :
  let w := NewWriter {| fr_out := []; fr_left := 7 |} in
  delivered (and_then (WriteBulk (str "hello")) Flush w).2 = take 7 (enc_bulk (str "hello")) /\
  emits (S:=fragile) (WriteBulk (str "hello")) (enc_bulk (str "hello")).
Proof.
  split; [vm_compute; reflexivity|].
  exact (proj1 (proj2 (proj2 (proj2 (encoder_emits_frames (S:=fragile) (str "hello") 0))))).
Defined.
