(* ===== verification/RespReader.v ===== *)
(** * The RESP2 request decoder (src/internal/resp/reader.go)

    The [bufio.Reader] underneath is modelled by what it still has to deliver: the bytes
    [rest] and the error [fin] the underlying [Read] gives once they are used up, on a
    call of its own as files and sockets do. How those bytes are cut into reads does not
    matter to [ReadSlice] and [io.ReadFull], except that a line must fit the 4096-byte
    buffer. The decode buffer is kept as the code keeps it, one growing array with
    offsets into it, and with its capacity, so that what the arguments alias and what is
    allocated can be stated. *)

From S2P Require Import Prelude.
From S2P Require Import GoLib.
From S2P Require Import RespWriter.

(** ** The underlying stream *)

Inductive stream_err := EOF | UnexpectedEOF | Transport.

Record stream := mkStream { rest : bytes; fin : stream_err }.

(** [bufio.Reader]'s buffer. *)
Definition reader_buf_size : Z := 4096.

Fixpoint index_byte (c : byte) (s : bytes) : option nat :=
  match s with
  | [] => None
  | d :: s => if bool_decide (d = c) then Some O else S <$> index_byte c s
  end.

Inductive slice_err := BufferFull | Underlying (e : stream_err).

(** [br.ReadSlice('\n')]: the line, or what was buffered and the error. *)
Definition ReadSlice (s : stream) : bytes * option slice_err * stream :=
  match index_byte LF (take (Z.to_nat reader_buf_size) (rest s)) with
  | Some i => (take (S i) (rest s), None, mkStream (drop (S i) (rest s)) (fin s))
  | None =>
      if reader_buf_size <=? len (rest s)
      then (take (Z.to_nat reader_buf_size) (rest s), Some BufferFull,
            mkStream (drop (Z.to_nat reader_buf_size) (rest s)) (fin s))
      else (rest s, Some (Underlying (fin s)), mkStream [] (fin s))
  end.

(** [io.ReadFull(br, buf)] with [len(buf) = n > 0]. *)
Definition ReadFull (n : Z) (s : stream) : result stream_err bytes * stream :=
  if n <=? len (rest s)
  then (Ret (take (Z.to_nat n) (rest s)), mkStream (drop (Z.to_nat n) (rest s)) (fin s))
  else
    (Fail (match rest s, fin s with _ :: _, EOF => UnexpectedEOF | _, e => e end),
     mkStream [] (fin s)).

(** ** Limits and errors *)

Record Limits := mkLimits {
  MaxArrayElements : Z;
  MaxBulkLength : Z;
  MaxCommandBytes : Z
}.

Definition DefaultLimits : Limits := mkLimits 1024 (Z.shiftl 64 20) (Z.shiftl 128 20).

Definition maxPreallocation : Z := Z.shiftl 64 10.
Definition maxRetainedBuffer : Z := Z.shiftl 1 20.

(** The three classes of [ReadCommand]'s errors: [io.EOF], [*ProtocolError] with its
    [incomplete] mark, and anything the transport raised. *)
Inductive read_err :=
| Eof
| ProtocolError (Msg : bytes) (incomplete : bool)
| TransportError (e : stream_err).

Definition protoErr (msg : string) : read_err := ProtocolError (str msg) false.
Definition incompleteErr (msg : string) : read_err := ProtocolError (str msg) true.

(** [errors.Is(err, ErrIncompleteFrame)] *)
Definition is_incomplete (e : read_err) : bool :=
  match e with ProtocolError _ b => b | _ => false end.

Definition raw_err (e : stream_err) : read_err :=
  match e with EOF => Eof | e => TransportError e end.

(** ** The reader *)

Record Reader := mkReader {
  br : stream;
  limits : Limits;
  buf : bytes;
  buf_cap : Z;
  offsets : list (nat * nat)
}.

Definition NewReader (s : stream) (l : Limits) : Reader := mkReader s l [] 0 [].

Definition with_br (r : Reader) (s : stream) : Reader :=
  mkReader s (limits r) (buf r) (buf_cap r) (offsets r).

Definition readLine (s : stream) : result read_err bytes * stream :=
  let '(line, err, s) := ReadSlice s in
  match err with
  | Some BufferFull => (Fail (protoErr "header line too long"), s)
  | Some (Underlying e) =>
      if (0 <? len line) && (match e with EOF | UnexpectedEOF => true | Transport => false end)
      then (Fail (incompleteErr "unexpected end of stream inside frame"), s)
      else (Fail (raw_err e), s)
  | None =>
      if (len line <? 2) || negb (bool_decide (line !! (length line - 2)%nat = Some CR))
      then (Fail (protoErr "header line not terminated by CRLF"), s)
      else (Ret (take (length line - 2) line), s)
  end.

Definition bulkReadErr (e : read_err) : read_err :=
  match e with
  | Eof | TransportError EOF | TransportError UnexpectedEOF =>
      incompleteErr "unexpected end of stream inside frame"
  | e => e
  end.

(** The digit loop of [parseInt] on a machine whose [int] has [w] bits. *)
Fixpoint parse_int_loop (w n : Z) (b : bytes) : option Z :=
  match b with
  | [] => Some n
  | c :: b =>
      if negb (is_digit c) then None
      else
        let n := wraps w (wraps w (n * 10) + digit_val c) in
        if 2 ^ 30 <? n then None else parse_int_loop w n b
  end.

Definition parseInt_width (w : Z) (b : bytes) : option Z :=
  match b with
  | [] => None
  | c :: b' =>
      if bool_decide (c = "-"%byte)
      then match b' with [] => None | _ => (fun n => wraps w (- n)) <$> parse_int_loop w 0 b' end
      else parse_int_loop w 0 b
  end.

(** On the supported platforms, amd64 and arm64, an [int] has 64 bits. *)
Definition parseInt (b : bytes) : option Z := parseInt_width 64 b.

Definition growBuf (need : Z) (r : Reader) : Reader :=
  if need <=? buf_cap r then r
  else
    let size := 2 * buf_cap r in
    let size := if size <? need then need else size in
    let limit := MaxCommandBytes (limits r) in
    let size :=
      if (0 <? limit) && (limit <? size)
      then (if limit <? need then need else limit) else size in
    mkReader (br r) (limits r) (buf r) size (offsets r).

(** The chunked payload loop of [readBulk]. *)
Fixpoint read_chunks (fuel : nat) (remaining : Z) (r : Reader) : result read_err unit * Reader :=
  match fuel with
  | O => (Ret tt, r)
  | S fuel =>
      if 0 <? remaining then
        let chunk := if maxPreallocation <? remaining then maxPreallocation else remaining in
        let r := growBuf (len (buf r) + chunk) r in
        let '(res, s) := ReadFull chunk (br r) in
        match res with
        | Fail e => (Fail (bulkReadErr (raw_err e)), with_br r s)
        | Ret bs =>
            read_chunks fuel (remaining - chunk)
              (mkReader s (limits r) (buf r ++ bs) (buf_cap r) (offsets r))
        end
      else (Ret tt, r)
  end.

Definition readBulk (r : Reader) : result read_err unit * Reader :=
  let '(res, s) := readLine (br r) in
  let r := with_br r s in
  match res with
  | Fail e => (Fail (bulkReadErr e), r)
  | Ret line =>
      if negb (bool_decide (head line = Some "$"%byte))
      then (Fail (protoErr "expected '$' at start of bulk string"), r)
      else
        match parseInt (tail line) with
        | None => (Fail (protoErr "invalid bulk length"), r)
        | Some ln =>
            if ln <? 0 then (Fail (protoErr "invalid bulk length"), r)
            else if MaxBulkLength (limits r) <? ln
            then (Fail (protoErr "bulk length exceeds limit"), r)
            else if (0 <? MaxCommandBytes (limits r)) &&
                    (MaxCommandBytes (limits r) - len (buf r) <? ln)
            then (Fail (protoErr "command exceeds limit"), r)
            else
              let start := length (buf r) in
              let stop := (start + Z.to_nat ln)%nat in
              let '(res, r) := read_chunks (Z.to_nat ((ln + 2) / maxPreallocation + 1)) (ln + 2) r in
              match res with
              | Fail e => (Fail e, r)
              | Ret _ =>
                  if negb (bool_decide (buf r !! stop = Some CR)) ||
                     negb (bool_decide (buf r !! S stop = Some LF))
                  then (Fail (protoErr "bulk string not terminated by CRLF"), r)
                  else
                    (Ret tt, mkReader (br r) (limits r) (take stop (buf r)) (buf_cap r)
                               (offsets r ++ [(start, stop)]))
              end
        end
  end.

Fixpoint read_bulks (n : nat) (r : Reader) : result read_err unit * Reader :=
  match n with
  | O => (Ret tt, r)
  | S n =>
      let '(res, r) := readBulk r in
      match res with Fail e => (Fail e, r) | Ret _ => read_bulks n r end
  end.

(** [r.buf[o[0]:o[1]]] *)
Definition subslice (b : bytes) (o : nat * nat) : bytes := take (o.2 - o.1) (drop o.1 b).

Definition ReadCommand (r : Reader) : result read_err (list bytes) * Reader :=
  let '(res, s) := readLine (br r) in
  let r := with_br r s in
  match res with
  | Fail e => (Fail e, r)
  | Ret line =>
      if negb (bool_decide (head line = Some "*"%byte))
      then (Fail (protoErr "expected '*' at start of request"), r)
      else
        match parseInt (tail line) with
        | None => (Fail (protoErr "invalid multibulk length"), r)
        | Some n =>
            if n <=? 0 then (Fail (protoErr "invalid multibulk length"), r)
            else if MaxArrayElements (limits r) <? n
            then (Fail (protoErr "multibulk length exceeds limit"), r)
            else
              let cap := if maxRetainedBuffer <? buf_cap r then 0 else buf_cap r in
              let '(res, r) := read_bulks (Z.to_nat n) (mkReader (br r) (limits r) [] cap []) in
              match res with
              | Fail e => (Fail e, r)
              | Ret _ => (Ret (subslice (buf r) <$> offsets r), r)
              end
        end
  end.

(** ** The request grammar *)

(** A request as the encoder writes it. *)
Definition enc_frame (args : list bytes) : bytes :=
  enc_array (len args) ++ concat (enc_bulk <$> args).

(** The number of argument bytes of a request. *)
Definition arg_bytes (args : list bytes) : Z := foldr (fun a n => len a + n) 0 args.

(** The requests the limits admit: at least one argument, the counts and lengths within
    the configured limits and within what [parseInt] reads. *)
Definition within (l : Limits) (args : list bytes) : Prop :=
  1 <= len args <= Z.min (MaxArrayElements l) (2 ^ 30) /\
  Forall (fun a => len a <= Z.min (MaxBulkLength l) (2 ^ 30)) args /\
  (0 < MaxCommandBytes l -> arg_bytes args <= MaxCommandBytes l).

(** ** Lines *)

Lemma index_byte_app c s t : c ∉ s -> index_byte c (s ++ c :: t) = Some (length s).
Proof.
  induction s as [|d s IH]; simpl; [by rw bool_decide_eq_true_2|].
  intros [Hd Hs]%not_elem_of_cons. rw bool_decide_eq_false_2; [congruence|]. by rw IH.
Qed.

Lemma index_byte_None c s : c ∉ s -> index_byte c s = None.
Proof.
  induction s as [|d s IH]; [done|]. simpl. intros [Hd Hs]%not_elem_of_cons.
  rw bool_decide_eq_false_2; [congruence|]. by rw IH.
Qed.

(** A header line: no line feed inside and short enough for the buffer. *)
Definition header (h : bytes) : Prop := (LF ∉ h) /\ len h <= 4000.

Lemma readLine_ok h t e : header h ->
  readLine (mkStream (h ++ CRLF ++ t) e) = (Ret h, mkStream t e).
Proof.
  intros [Hh Hl]. rw /len in Hl. rw /readLine /ReadSlice; cbn [rest fin].
  rw (_ : h ++ CRLF ++ t = (h ++ [CR]) ++ LF :: t); [by rw -app_assoc|].
  have Hrb : Z.to_nat reader_buf_size = Z.to_nat 4096 by done.
  rw take_app_ge; [rw length_app /=; lia|].
  destruct (Z.to_nat reader_buf_size - length (h ++ [CR]))%nat as [|k] eqn:Ek.
  { rw length_app /= in Ek. lia. }
  simpl take. rw index_byte_app; [apply not_elem_of_app; split; [done|]; by apply not_elem_of_cons; split; [|apply not_elem_of_nil]|].
  have Et : take (S (length (h ++ [CR]))) ((h ++ [CR]) ++ LF :: t) = h ++ CRLF.
  { rw take_app_ge; [lia|]. rw (_ : S (length (h ++ [CR])) - length (h ++ [CR]) = 1)%nat; [lia|].
    by rw -app_assoc. }
  have Ed : drop (S (length (h ++ [CR]))) ((h ++ [CR]) ++ LF :: t) = t.
  { rw drop_app_ge; [lia|]. by rw (_ : S (length (h ++ [CR])) - length (h ++ [CR]) = 1)%nat; [lia|]. }
  rw Et Ed. have El : (length (h ++ CRLF) - 2 = length h)%nat by rw length_app /=; lia.
  rw El. destruct (Z.ltb_spec (len (h ++ CRLF)) 2); [rw len_app /len /= in H; lia|].
  rw lookup_app_r // Nat.sub_diag /=. rw take_app_length. done.
Qed.

(** A line that the end of the stream cuts short. *)
Lemma readLine_torn q e : LF ∉ q -> len q <= 4002 -> e = EOF ->
  readLine (mkStream q e) =
    (Fail (match q with [] => Eof | _ => incompleteErr "unexpected end of stream inside frame" end),
     mkStream [] e).
Proof.
  intros Hq Hl ->. rw /readLine /ReadSlice; cbn [rest fin].
  rw index_byte_None; [intros Hin; apply Hq; by eapply elem_of_sublist, sublist_take|].
  destruct (Z.leb_spec reader_buf_size (len q)); [rw /reader_buf_size in H; lia|].
  destruct q as [|c q]; [done|]. rw len_cons. have := len_nonneg q.
  by destruct (Z.ltb_spec 0 (1 + len q)); [|lia].
Qed.

(** Cutting a header line short never leaves a line feed. *)
Lemma torn_header h q t : header h -> q `prefix_of` (h ++ CRLF) ++ t ->
  ~ (h ++ CRLF) `prefix_of` q -> (LF ∉ q) /\ len q <= 4002.
Proof.
  intros [Hh Hl] [k Hk] Hn.
  destruct (prefix_weak_total q (h ++ CRLF) (q ++ k)) as [[k' Hk']|?];
    [by apply prefix_app_r|rw -Hk; by apply prefix_app_r| |done].
  destruct k' as [|x k' _] using rev_ind; [exfalso; apply Hn; rw Hk' app_nil_r; done|].
  rw (_ : h ++ CRLF = (h ++ [CR]) ++ [LF]) in Hk'; [by rw -app_assoc|].
  rw app_assoc in Hk'. apply app_inj_tail in Hk' as [E _]. split.
  - intros Hin. have : LF ∈ h ++ [CR] by rw E; apply elem_of_app; left.
    rw elem_of_app list_elem_of_singleton. by intros [?|?].
  - apply (f_equal len) in E. rw !len_app len_cons len_nil in E. have := len_nonneg k'. lia.
Qed.

(** ** Numbers *)

Lemma parse_int_loop_spec n s : 0 <= n <= 2 ^ 30 ->
  parse_int_loop 64 n s =
    if all_digits s && (dec_value n s <=? 2 ^ 30) then Some (dec_value n s) else None.
Proof.
  revert n. induction s as [|c s IH] => n Hn /=; [by case_cmp; [|lia]|].
  rw -/(all_digits s). destruct (is_digit c) eqn:Hc; [simpl|done]. have Hd := is_digit_range _ Hc.
  rw (wraps_small (n * 10)) ?wraps_small; [rw /maxInt64; lia..|].
  destruct (Z.ltb_spec (2 ^ 30) (n * 10 + digit_val c)) as [Hgt|Hle]; [|by apply IH; lia].
  destruct (all_digits s) eqn:Hs; [simpl|done]. case_cmp; [|done].
  have := dec_value_mono (n * 10 + digit_val c) (n * 10 + digit_val c) s ltac:(lia) Hs. lia.
Qed.

Lemma all_digits_elem s c : all_digits s = true -> c ∈ s -> is_digit c = true.
Proof.
  rw /all_digits => Hs Hc. rw forallb_forall in Hs. by apply Hs, list_elem_of_In.
Qed.

Lemma parseInt_FormatInt n : 0 <= n <= 2 ^ 30 -> parseInt (FormatInt n) = Some n.
Proof.
  intros Hn. rw /FormatInt. case_cmp; [lia|].
  destruct (FormatUint_spec n) as (Hd & Hv & Hl & _); [lia|].
  rw /parseInt /parseInt_width. destruct (FormatUint n) as [|c s] eqn:E; [simpl in Hl; lia|].
  rw bool_decide_eq_false_2; [by apply all_digits_head_not in Hd as []|].
  rw parse_int_loop_spec // Hd Hv /=. by case_cmp; [|lia].
Qed.

Lemma parseInt_range b n : parseInt b = Some n -> - 2 ^ 30 <= n <= 2 ^ 30.
Proof.
  rw /parseInt /parseInt_width.
  have Hloop s m : parse_int_loop 64 0 s = Some m -> 0 <= m <= 2 ^ 30.
  { rw parse_int_loop_spec //. destruct (all_digits s) eqn:Hs; [simpl|done].
    case_cmp; [|done]. intros [= <-]. have := dec_value_mono 0 0 s ltac:(lia) Hs. lia. }
  destruct b as [|c b]; [done|]. case_bool_decide; [|intros Hm; apply Hloop in Hm; lia].
  destruct b as [|d b]; [done|]. intros (m & Hm & ->)%fmap_Some. apply Hloop in Hm.
  rw /wraps Z.mod_small; lia.
Qed.

Lemma header_FormatInt tag n : tag <> LF -> 0 <= n <= 2 ^ 30 -> header (tag :: FormatInt n).
Proof.
  intros Ht Hn. rw /FormatInt. case_cmp; [lia|].
  destruct (FormatUint_spec n) as (Hd & _ & Hl & _); [lia|]. split; [|rw len_cons /len; lia].
  apply not_elem_of_cons. split; [congruence|]. intros Hin.
  by apply (all_digits_elem _ _ Hd) in Hin.
Qed.

(** ** The decode buffer *)

Lemma growBuf_eq need r :
  growBuf need r = mkReader (br r) (limits r) (buf r) (buf_cap (growBuf need r)) (offsets r).
Proof. rw /growBuf. by case_match; [destruct r|]. Qed.

Lemma growBuf_cap need r : 0 <= buf_cap r -> 0 <= need ->
  let cap := buf_cap (growBuf need r) in
  need <= cap /\ buf_cap r <= cap /\ cap <= Z.max (buf_cap r) (2 * need) /\
  (0 < MaxCommandBytes (limits r) ->
    cap <= Z.max (buf_cap r) (Z.max (MaxCommandBytes (limits r)) need)).
Proof.
  intros Hc Hn. rw /growBuf. destruct (Z.leb_spec need (buf_cap r)); [lia|]. simpl.
  destruct (Z.ltb_spec (2 * buf_cap r) need);
    destruct (Z.ltb_spec 0 (MaxCommandBytes (limits r))); simpl; try lia;
    case_cmp; try lia; case_cmp; lia.
Qed.

Lemma ReadFull_ok n s : 0 <= n <= len (rest s) ->
  ReadFull n s = (Ret (take (Z.to_nat n) (rest s)), mkStream (drop (Z.to_nat n) (rest s)) (fin s)).
Proof. intros Hn. rw /ReadFull. by case_cmp; [|lia]. Qed.

Lemma read_chunks_ok fuel n r :
  0 <= n <= len (rest (br r)) -> n <= Z.of_nat fuel * maxPreallocation ->
  exists cap, read_chunks fuel n r =
    (Ret tt, mkReader (mkStream (drop (Z.to_nat n) (rest (br r))) (fin (br r))) (limits r)
               (buf r ++ take (Z.to_nat n) (rest (br r))) cap (offsets r)).
Proof.
  revert n r. have Hpre : maxPreallocation = 65536 by done.
  have Hdone n r : n <= 0 -> exists cap, (Ret tt, r) = (@Ret read_err _ tt,
    mkReader (mkStream (drop (Z.to_nat n) (rest (br r))) (fin (br r))) (limits r)
      (buf r ++ take (Z.to_nat n) (rest (br r))) cap (offsets r)).
  { intros Hn. exists (buf_cap r). rw (_ : Z.to_nat n = 0%nat); [lia|].
    rw take_0 drop_0 app_nil_r. by destruct r as [[]]. }
  induction fuel as [|fuel IH] => n r Hn Hf; cbn [read_chunks]; [apply Hdone; lia|].
  destruct (Z.ltb_spec 0 n) as [Hpos|Hz]; [|by apply Hdone].
  set chunk := if _ <? _ then _ else _.
  have Hch : 0 < chunk <= n /\ n - chunk <= Z.of_nat fuel * maxPreallocation.
  { rw /chunk. rw Hpre in Hf *. case_cmp; lia. }
  rw growBuf_eq. cbn [br limits buf buf_cap offsets]. rw ReadFull_ok; [lia|].
  have Hl : len (drop (Z.to_nat chunk) (rest (br r))) = len (rest (br r)) - chunk.
  { rw /len length_drop. rw /len in Hn. lia. }
  match goal with |- context [read_chunks fuel _ ?r'] => destruct (IH (n - chunk) r') as [cap E] end;
    [rw /= Hl; lia|lia|]. rw E /=. exists cap.
  rw drop_drop -app_assoc take_take_drop (_ : Z.to_nat chunk + Z.to_nat (n - chunk) = Z.to_nat n)%nat; [lia|done].
Qed.

Lemma read_chunks_torn fuel n r :
  len (rest (br r)) < n -> n <= Z.of_nat fuel * maxPreallocation -> fin (br r) = EOF ->
  exists r', read_chunks fuel n r = (Fail (incompleteErr "unexpected end of stream inside frame"), r').
Proof.
  revert n r. induction fuel as [|fuel IH] => n r Hn Hf He; [have := len_nonneg (rest (br r)); lia|].
  cbn [read_chunks]. have Hpre : maxPreallocation = 65536 by done.
  have := len_nonneg (rest (br r)) => Hnn. destruct (Z.ltb_spec 0 n) as [Hpos|]; [|lia].
  set chunk := if _ <? _ then _ else _.
  have Hch : 0 < chunk <= n /\ n - chunk <= Z.of_nat fuel * maxPreallocation.
  { rw /chunk. rw Hpre in Hf *. case_cmp; lia. }
  rw growBuf_eq. cbn [br limits buf buf_cap offsets]. rw /ReadFull. case_cmp.
  - apply IH; simpl; [|lia|done]. rw /len length_drop. rw /len in Hn H. lia.
  - eexists. rw He. by destruct (rest (br r)).
Qed.

(** ** One bulk string *)

(** The checks [readBulk] makes on the declared length [ln], given the bytes buffered. *)
Definition bulk_fits (l : Limits) (used : Z) (a : bytes) : Prop :=
  len a <= Z.min (MaxBulkLength l) (2 ^ 30) /\
  (0 < MaxCommandBytes l -> used + len a <= MaxCommandBytes l).

(** After a good header line only the payload is left to read. *)
Lemma readBulk_header r a body : bulk_fits (limits r) (len (buf r)) a ->
  rest (br r) = ("$"%byte :: FormatInt (len a)) ++ CRLF ++ body ->
  readBulk r =
    let stop := (length (buf r) + length a)%nat in
    let '(res, r) := read_chunks (Z.to_nat ((len a + 2) / maxPreallocation + 1)) (len a + 2)
                       (with_br r (mkStream body (fin (br r)))) in
    match res with
    | Fail e => (Fail e, r)
    | Ret _ =>
        if negb (bool_decide (buf r !! stop = Some CR)) ||
           negb (bool_decide (buf r !! S stop = Some LF))
        then (Fail (protoErr "bulk string not terminated by CRLF"), r)
        else (Ret tt, mkReader (br r) (limits r) (take stop (buf r)) (buf_cap r)
                        (offsets r ++ [((stop - length a)%nat, stop)]))
    end.
Proof.
  intros [Hb Hc] Hr. have Hnn := len_nonneg a. rw /readBulk.
  destruct (br r) as [rst e] eqn:Ebr. cbn [rest] in Hr. subst rst.
  rw readLine_ok; [by apply header_FormatInt; [|lia]|]. cbn [head tail limits buf with_br fin].
  rw bool_decide_eq_true_2 // parseInt_FormatInt; [lia|]. cbn [negb].
  destruct (Z.ltb_spec (len a) 0); [lia|].
  destruct (Z.ltb_spec (MaxBulkLength (limits r)) (len a)); [lia|].
  rw (_ : (0 <? MaxCommandBytes (limits r)) && (MaxCommandBytes (limits r) - len (buf r) <? len a) = false).
  { destruct (Z.ltb_spec 0 (MaxCommandBytes (limits r))); [simpl|done].
    destruct (Z.ltb_spec (MaxCommandBytes (limits r) - len (buf r)) (len a)); [|done]. lia. }
  rw {1 2 3 4}/len Nat2Z.id. destruct (read_chunks _ _ _) as [[] r']; [|done].
  by rw (_ : length (buf r) + length a - length a = length (buf r))%nat; [lia|].
Qed.

Lemma chunk_fuel n : 0 <= n -> n <= Z.of_nat (Z.to_nat (n / maxPreallocation + 1)) * maxPreallocation.
Proof.
  intros Hn. have Hp : maxPreallocation = 65536 by done. rw Hp.
  have := Z.div_mod n 65536. have := Z.mod_pos_bound n 65536. have : 0 <= n / 65536 by apply Z.div_pos.
  lia.
Qed.

Lemma readBulk_ok r a t : bulk_fits (limits r) (len (buf r)) a ->
  rest (br r) = enc_bulk a ++ t ->
  exists cap, readBulk r =
    (Ret tt, mkReader (mkStream t (fin (br r))) (limits r) (buf r ++ a) cap
               (offsets r ++ [(length (buf r), (length (buf r) + length a)%nat)])).
Proof.
  intros Hb Hr. have Hnn := len_nonneg a.
  rw (readBulk_header r a (a ++ CRLF ++ t)) //; [by rw Hr /enc_bulk /enc_number /= -!app_assoc|].
  have Hla : Z.to_nat (len a + 2) = length (a ++ CRLF) by rw length_app /len /=; lia.
  edestruct (read_chunks_ok (Z.to_nat ((len a + 2) / maxPreallocation + 1)) (len a + 2)
    (with_br r (mkStream (a ++ CRLF ++ t) (fin (br r))))) as [cap E].
  { rw /= !len_app /len /=. lia. } { apply chunk_fuel. lia. }
  rw E. cbn [with_br br rest fin limits buf offsets]. exists cap.
  rw Hla app_assoc take_app_length drop_app_length app_assoc.
  set start := length (buf r). have Hs : length (buf r ++ a) = (start + length a)%nat by rw length_app.
  rw lookup_app_r; [lia|]. rw Hs Nat.sub_diag lookup_app_r; [lia|].
  rw Hs (_ : S (start + length a) - (start + length a) = 1)%nat; [lia|]. simpl.
  rw -Hs take_app_length Hs.
  by rw (_ : start + length a - length a = start)%nat; [lia|].
Qed.

(** A bulk string cut short by the end of the stream is an incomplete frame, wherever
    the cut falls. *)
Lemma readBulk_torn r a q : bulk_fits (limits r) (len (buf r)) a -> fin (br r) = EOF ->
  rest (br r) = q -> q `prefix_of` enc_bulk a -> q <> enc_bulk a ->
  exists r', readBulk r = (Fail (incompleteErr "unexpected end of stream inside frame"), r').
Proof.
  intros Hb He Hr Hq Hne. have Hnn := len_nonneg a. set h := "$"%byte :: FormatInt (len a).
  have Hh : header h by apply header_FormatInt; [|rw /bulk_fits in Hb; lia].
  have Eenc : enc_bulk a = (h ++ CRLF) ++ (a ++ CRLF) by rw /enc_bulk /enc_number /h /= -!app_assoc.
  rw Eenc in Hq Hne. destruct (decide ((h ++ CRLF) `prefix_of` q)) as [[body ->]|Hn].
  - apply prefix_app_inv in Hq. rw (readBulk_header r a body) //; [by rw Hr -app_assoc|].
    edestruct (read_chunks_torn (Z.to_nat ((len a + 2) / maxPreallocation + 1)) (len a + 2)) as [r' ->];
      [|apply chunk_fuel; lia|done|by eexists].
    simpl. destruct Hq as [k Hk]. destruct k as [|x k].
    { rw app_nil_r in Hk. congruence. }
    apply (f_equal len) in Hk. rw !len_app !len_cons /= len_nil in Hk. have := len_nonneg k. lia.
  - destruct (torn_header h q (a ++ CRLF)) as [H1 H2]; [done..|].
    rw /readBulk. destruct (br r) as [rst e]. simpl in *. subst rst e.
    rw readLine_torn //. destruct q; by eexists.
Qed.

(** ** Whole requests *)

Fixpoint offs (start : nat) (args : list bytes) : list (nat * nat) :=
  match args with
  | [] => []
  | a :: args => (start, (start + length a)%nat) :: offs (start + length a) args
  end.

(** The slices handed out are the payloads, although they were cut from one array only
    after it had stopped growing. *)
Lemma subslice_offs pre args post :
  subslice (pre ++ concat args ++ post) <$> offs (length pre) args = args.
Proof.
  revert pre. induction args as [|a args IH] => pre; [done|]. simpl. f_equal.
  - rw /subslice /= drop_app_length (_ : length pre + length a - length pre = length a)%nat; [lia|].
    by rw -app_assoc take_app_length.
  - rw -length_app -app_assoc app_assoc. apply IH.
Qed.

Lemma arg_bytes_nonneg args : 0 <= arg_bytes args.
Proof. induction args as [|a args IH]; simpl; [lia|]. have := len_nonneg a. lia. Qed.

(** The limits hold for a list of arguments after [used] bytes. *)
Definition bulks_fit (l : Limits) (used : Z) (args : list bytes) : Prop :=
  Forall (fun a => len a <= Z.min (MaxBulkLength l) (2 ^ 30)) args /\
  (0 < MaxCommandBytes l -> used + arg_bytes args <= MaxCommandBytes l).

Lemma bulks_fit_cons l used a args : bulks_fit l used (a :: args) ->
  bulk_fits l used a /\ bulks_fit l (used + len a) args.
Proof.
  intros [[Ha Hf]%Forall_cons_1 Hl]. simpl in Hl. have := arg_bytes_nonneg args.
  split; split; try done; intros Hp; specialize (Hl Hp); lia.
Qed.

Lemma read_bulks_ok args r t : bulks_fit (limits r) (len (buf r)) args ->
  rest (br r) = concat (enc_bulk <$> args) ++ t ->
  exists cap, read_bulks (length args) r =
    (Ret tt, mkReader (mkStream t (fin (br r))) (limits r) (buf r ++ concat args) cap
               (offsets r ++ offs (length (buf r)) args)).
Proof.
  revert r. induction args as [|a args IH] => r Hf Hr.
  { exists (buf_cap r). rw !app_nil_r /=. destruct r as [[]]. simpl in *. by subst. }
  apply bulks_fit_cons in Hf as [Ha Hf]. rw /= -app_assoc in Hr.
  destruct (readBulk_ok r a _ Ha Hr) as [cap E]. simpl. rw E.
  match goal with |- context [read_bulks _ ?r'] => destruct (IH r') as [cap' E'] end;
    [by rw /= len_app|done|]. rw E' /=. exists cap'. by rw length_app -!app_assoc.
Qed.

Lemma read_bulks_torn args r q : bulks_fit (limits r) (len (buf r)) args -> fin (br r) = EOF ->
  rest (br r) = q -> q `prefix_of` concat (enc_bulk <$> args) -> q <> concat (enc_bulk <$> args) ->
  exists r', read_bulks (length args) r =
    (Fail (incompleteErr "unexpected end of stream inside frame"), r').
Proof.
  revert r q. induction args as [|a args IH] => r q Hf He Hr Hq Hne.
  { by apply prefix_nil_inv in Hq. }
  apply bulks_fit_cons in Hf as [Ha Hf]. cbn [read_bulks length].
  destruct (decide (enc_bulk a `prefix_of` q)) as [[q' ->]|Hn].
  - rw fmap_cons concat_cons in Hq Hne. apply prefix_app_inv in Hq. destruct (readBulk_ok r a _ Ha Hr) as [cap E]. rw E.
    apply (IH _ q'); [by rw /= len_app|done|done|done|]. intros ->. by apply Hne.
  - destruct (readBulk_torn r a q) as [r' ->]; [done..| | |by eexists].
    + destruct Hq as [k Hk]. destruct (prefix_weak_total q (enc_bulk a) (q ++ k)) as [?|?]; [by apply prefix_app_r| |done|done].
      rw -Hk. by apply prefix_app_r.
    + intros ->. by apply Hn.
Qed.

(** [ReadCommand] after a good header line. *)
Lemma ReadCommand_header r args body : within (limits r) args ->
  rest (br r) = ("*"%byte :: FormatInt (len args)) ++ CRLF ++ body ->
  exists cap, ReadCommand r =
    let '(res, r) := read_bulks (length args) (mkReader (mkStream body (fin (br r))) (limits r) [] cap []) in
    match res with
    | Fail e => (Fail e, r)
    | Ret _ => (Ret (subslice (buf r) <$> offsets r), r)
    end.
Proof.
  intros (Hn & _ & _) Hr. rw /ReadCommand. destruct (br r) as [rst e]. cbn [rest] in Hr. subst rst.
  rw readLine_ok; [by apply header_FormatInt; [|lia]|]. cbn [head tail].
  rw bool_decide_eq_true_2 // parseInt_FormatInt; [lia|]. cbn [negb limits buf_cap with_br br].
  destruct (Z.leb_spec (len args) 0); [lia|].
  destruct (Z.ltb_spec (MaxArrayElements (limits r)) (len args)); [lia|].
  rw /len Nat2Z.id. by eexists.
Qed.

Lemma within_bulks l args : within l args -> bulks_fit l 0 args.
Proof. intros (_ & Hf & Hl). by split. Qed.

Lemma enc_frame_header args :
  enc_frame args = ("*"%byte :: FormatInt (len args)) ++ CRLF ++ concat (enc_bulk <$> args).
Proof. by rw /enc_frame /enc_array /enc_number /= -app_assoc. Qed.

Lemma ReadCommand_ok r args t : within (limits r) args ->
  rest (br r) = enc_frame args ++ t ->
  exists r', ReadCommand r = (Ret args, r') /\
    br r' = mkStream t (fin (br r)) /\ limits r' = limits r.
Proof.
  intros Hw Hr. destruct (ReadCommand_header r args (concat (enc_bulk <$> args) ++ t)) as [cap E];
    [done|by rw Hr enc_frame_header -!app_assoc|]. rw E.
  match goal with |- context [read_bulks _ ?r0] => destruct (read_bulks_ok args r0 t) as [cap' E'] end;
    [by apply within_bulks|done|]. rw E'. cbn [buf offsets app length br fin limits].
  have Hs := subslice_offs [] args []. rw app_nil_r /= in Hs. rw Hs. by eexists.
Qed.

Lemma ReadCommand_torn r args q : within (limits r) args -> fin (br r) = EOF ->
  rest (br r) = q -> q `prefix_of` enc_frame args -> q <> enc_frame args ->
  exists r', ReadCommand r =
    (Fail (match q with [] => Eof | _ => incompleteErr "unexpected end of stream inside frame" end), r').
Proof.
  intros Hw He Hr Hq Hne. set h := "*"%byte :: FormatInt (len args).
  have Hh : header h by apply header_FormatInt; [|destruct Hw; lia].
  rw enc_frame_header -/h app_assoc in Hq Hne.
  destruct (decide ((h ++ CRLF) `prefix_of` q)) as [[body ->]|Hn].
  - apply prefix_app_inv in Hq. destruct (ReadCommand_header r args body) as [cap E];
      [done|by rw Hr -app_assoc|]. rw E.
    match goal with |- context [read_bulks _ ?r0] => destruct (read_bulks_torn args r0 body) as [r' E'] end;
      [by apply within_bulks|done|done|done|intros ->; by apply Hne|]. rw E'. by eexists.
  - destruct (torn_header h q (concat (enc_bulk <$> args))) as [H1 H2]; [done..|].
    rw /ReadCommand. destruct (br r) as [rst e]. simpl in *. subst rst e.
    rw readLine_torn //. destruct q; by eexists.
Qed.

(** ** Whatever is accepted is a request within the limits *)

(** A bulk string and a request on the wire: like [enc_bulk] and [enc_frame], except that
    the peer may write the numbers in any form [parseInt] accepts. *)
Definition bulk_wire (c a : bytes) : Prop :=
  exists h, parseInt h = Some (len a) /\ c = "$"%byte :: h ++ CRLF ++ a ++ CRLF.
Definition frame_wire (c : bytes) (args : list bytes) : Prop :=
  exists h cs, parseInt h = Some (len args) /\ Forall2 bulk_wire cs args /\
    c = "*"%byte :: h ++ CRLF ++ concat cs.

Lemma index_byte_inv c s i : index_byte c s = Some i -> s !! i = Some c.
Proof.
  revert i. induction s as [|d s IH] => i; [done|]. simpl.
  case_bool_decide as E; [by intros [= <-]; subst|].
  destruct (index_byte c s) as [j|]; [|done]. intros [= <-]. by apply IH.
Qed.

Lemma readLine_inv s h s' : readLine s = (Ret h, s') ->
  rest s = h ++ CRLF ++ rest s' /\ fin s' = fin s.
Proof.
  rw /readLine /ReadSlice. destruct (index_byte LF _) as [i|] eqn:Ei.
  2:{ by repeat case_match. }
  apply index_byte_inv in Ei. have Hlf : rest s !! i = Some LF by apply lookup_take_Some in Ei as [].
  have Hi := lookup_lt_Some _ _ _ Hlf. set line := take (S i) (rest s).
  have Hlen : length line = S i by rw length_take; lia.
  destruct (Z.ltb_spec (len line) 2) as [|H2]; [done|]. rw Hlen. rw /len Hlen in H2.
  case_bool_decide as Hcr; cbn [orb negb]; [|done]. intros [= <- <-]. cbn [rest fin]. split; [|done].
  destruct i as [|j]; [lia|]. rw (_ : S (S j) - 2 = j)%nat in Hcr *; [lia|].
  apply lookup_take_Some in Hcr as [Hcr _].
  rw /line take_take Nat.min_l; [lia|].
  rw (_ : take (S j - 1) (rest s) = take j (rest s)); [f_equal; lia|].
  rw /CRLF. cbn [app]. by rw -(drop_S _ LF) // -(drop_S _ CR) // take_drop.
Qed.

Lemma readLine_shrinks s : len (rest (readLine s).2) <= len (rest s).
Proof.
  have Hd n : len (drop n (rest s)) <= len (rest s) by rw /len length_drop; lia.
  rw /readLine /ReadSlice. have := len_nonneg (rest s).
  by repeat case_match; simplify_eq/=.
Qed.

Lemma read_chunks_short fuel n r :
  len (rest (br r)) < n -> n <= Z.of_nat fuel * maxPreallocation ->
  exists e r', read_chunks fuel n r = (Fail e, r').
Proof.
  revert n r. induction fuel as [|fuel IH] => n r Hn Hf; [have := len_nonneg (rest (br r)); lia|].
  cbn [read_chunks]. have Hpre : maxPreallocation = 65536 by done.
  have := len_nonneg (rest (br r)) => Hnn. destruct (Z.ltb_spec 0 n) as [Hpos|]; [|lia].
  set chunk := if _ <? _ then _ else _.
  have Hch : 0 < chunk <= n /\ n - chunk <= Z.of_nat fuel * maxPreallocation.
  { rw /chunk. rw Hpre in Hf *. case_cmp; lia. }
  rw growBuf_eq. cbn [br limits buf buf_cap offsets]. rw /ReadFull. case_cmp; [|by do 2 eexists].
  apply IH; simpl; [|lia]. rw /len length_drop. rw /len in Hn H. lia.
Qed.

(** A successful [readBulk] consumed one bulk string, appended its payload and recorded
    where it lies. *)
Lemma readBulk_inv r r' : readBulk r = (Ret tt, r') ->
  exists c a, bulk_wire c a /\ rest (br r) = c ++ rest (br r') /\ fin (br r') = fin (br r) /\
    bulk_fits (limits r) (len (buf r)) a /\ limits r' = limits r /\ buf r' = buf r ++ a /\
    offsets r' = offsets r ++ [(length (buf r), (length (buf r) + length a)%nat)].
Proof.
  rw /readBulk. destruct (readLine (br r)) as [[line|e] s1] eqn:El; [|done].
  apply readLine_inv in El as [Hrest Hfin]. case_bool_decide as Hd; [simpl|done].
  destruct line as [|d h]; [done|]. injection Hd as ->. cbn [tail].
  destruct (parseInt h) as [ln|] eqn:Hp; [|done]. have Hrange := parseInt_range _ _ Hp.
  destruct (Z.ltb_spec ln 0); [done|]. destruct (Z.ltb_spec (MaxBulkLength (limits r)) ln); [done|].
  destruct ((0 <? _) && _) eqn:Hc; [done|]. set n := ln + 2.
  have Hfu := chunk_fuel n ltac:(lia).
  destruct (Z.lt_ge_cases (len (rest s1)) n) as [Hs|Hs].
  { edestruct (read_chunks_short (Z.to_nat (n / maxPreallocation + 1)) n (with_br r s1))
      as (e & r1 & ->); done. }
  destruct (read_chunks_ok (Z.to_nat (n / maxPreallocation + 1)) n (with_br r s1)) as [cap ->];
    [split; [lia|done]|done|]. cbn [with_br br limits buf offsets buf_cap].
  set a := take (Z.to_nat ln) (rest s1).
  have Hla : length a = Z.to_nat ln by rw length_take; rw /len in Hs; lia.
  have Hlen : len a = ln by rw /len; lia.
  case_bool_decide as H1; [simpl|done]. case_bool_decide as H2; [simpl|done]. intros [= <-].
  have Htk m : (m < Z.to_nat n)%nat -> take (Z.to_nat n) (rest s1) !! m = rest s1 !! m.
  { intros Hm. by apply lookup_take_lt. }
  rw lookup_app_r in H1; [lia|]. rw lookup_app_r in H2; [lia|].
  rw (_ : length (buf r) + Z.to_nat ln - length (buf r) = Z.to_nat ln)%nat in H1; [lia|].
  rw (_ : S (length (buf r) + Z.to_nat ln) - length (buf r) = S (Z.to_nat ln))%nat in H2; [lia|].
  rw Htk in H1; [lia|]. rw Htk in H2; [lia|].
  have Erest : rest s1 = a ++ CRLF ++ drop (Z.to_nat n) (rest s1).
  { rw (_ : Z.to_nat n = S (S (Z.to_nat ln))); [lia|].
    rw /CRLF /a. cbn [app]. by rw -(drop_S _ LF) // -(drop_S _ CR) // take_drop. }
  exists ("$"%byte :: h ++ CRLF ++ a ++ CRLF), a. cbn [br rest fin limits buf offsets].
  split_and!; [by exists h; rw Hlen| |done| |done| |by rw Hla].
  - rw Hrest {1}Erest. cbn [app]. by rw -!app_assoc.
  - split; [lia|]. intros Hp'. move: Hc.
    destruct (Z.ltb_spec 0 (MaxCommandBytes (limits r))); [simpl|lia]. case_cmp; [done|lia].
  - rw take_app_ge; [lia|]. f_equal. rw take_take /a. f_equal. lia.
Qed.

(** ** Accepted requests *)

Lemma read_bulks_inv n r r' :
  (0 < MaxCommandBytes (limits r) -> len (buf r) <= MaxCommandBytes (limits r)) ->
  read_bulks n r = (Ret tt, r') ->
  exists cs args, length args = n /\ Forall2 bulk_wire cs args /\
    rest (br r) = concat cs ++ rest (br r') /\ fin (br r') = fin (br r) /\
    bulks_fit (limits r) (len (buf r)) args /\ limits r' = limits r /\
    buf r' = buf r ++ concat args /\ offsets r' = offsets r ++ offs (length (buf r)) args.
Proof.
  revert r. induction n as [|n IH] => r Hu; cbn [read_bulks].
  { intros [= <-]. exists [], []. rw !app_nil_r. split_and!; try done.
    split; [done|]. cbn [arg_bytes foldr]. intros Hp. specialize (Hu Hp). lia. }
  destruct (readBulk r) as [[[]|e] r1] eqn:Eb; [|done].
  apply readBulk_inv in Eb as (c & a & Hw & Hr & Hf & [Hb1 Hb2] & Hl & Hbuf & Ho).
  intros H. apply IH in H as (cs & args & Hn & Hws & Hr' & Hf' & [Hb3 Hb4] & Hl' & Hbuf' & Ho');
    [|by rw Hl Hbuf len_app].
  rw Hl Hbuf len_app in Hb3 Hb4. exists (c :: cs), (a :: args).
  cbn [concat length offs arg_bytes foldr]. split_and!; [lia|by constructor| |congruence| |congruence| |].
  - by rw Hr Hr' -app_assoc.
  - split; [by constructor|]. intros Hp. specialize (Hb4 Hp). cbn [arg_bytes foldr]. rw /arg_bytes in Hb4 *. lia.
  - by rw Hbuf' Hbuf -app_assoc.
  - by rw Ho' Ho Hbuf length_app -app_assoc.
Qed.

Lemma ReadCommand_inv r args r' : ReadCommand r = (Ret args, r') ->
  within (limits r) args /\ limits r' = limits r /\ fin (br r') = fin (br r) /\
  exists c, frame_wire c args /\ rest (br r) = c ++ rest (br r').
Proof.
  rw /ReadCommand. destruct (readLine (br r)) as [[line|e] s1] eqn:El; [|done].
  apply readLine_inv in El as [Hrest Hfin]. case_bool_decide as Hd; [simpl|done].
  destruct line as [|d h]; [done|]. injection Hd as ->. cbn [tail].
  destruct (parseInt h) as [n|] eqn:Hp; [|done]. have Hrange := parseInt_range _ _ Hp.
  destruct (Z.leb_spec n 0); [done|]. destruct (Z.ltb_spec (MaxArrayElements (limits r)) n); [done|].
  destruct (read_bulks _ _) as [[[]|e] r1] eqn:Eb; [|done]. intros [= <- <-].
  apply read_bulks_inv in Eb as (cs & args & Hn & Hws & Hr' & Hf' & [Hb1 Hb2] & Hl' & Hbuf' & Ho');
    [|cbn [limits buf]; rw len_nil; lia].
  cbn [br limits buf offsets app length] in *.
  have Hs := subslice_offs [] args []. rw app_nil_r /= in Hs. rw Hbuf' Ho' Hs.
  have Hla : len args = n by rw /len; lia. split_and!; [|done|congruence|].
  - split_and!; [lia|lia|done|]. intros Hm. specialize (Hb2 Hm). rw len_nil in Hb2. lia.
  - exists ("*"%byte :: h ++ CRLF ++ concat cs). split; [exists h, cs; by rw Hla|].
    rw Hrest Hr'. cbn [app]. by rw -!app_assoc.
Qed.

(** ** What decoding allocates *)

(** Bytes taken from the stream between two states of the reader. *)
Definition arrived (r r' : Reader) : Z := len (rest (br r)) - len (rest (br r')).

(** The decode buffer after some reading: it holds no more than what arrived on top of
    what it held, and its capacity obeys both bounds. *)
Definition alloc_ok (r r' : Reader) : Prop :=
  limits r' = limits r /\ buf_cap r <= buf_cap r' /\
  0 <= arrived r r' /\ len (buf r') <= len (buf r) + arrived r r' /\
  buf_cap r' <= Z.max (buf_cap r) (2 * (len (buf r) + arrived r r' + maxPreallocation)) /\
  (0 < MaxCommandBytes (limits r) ->
    buf_cap r' <= Z.max (buf_cap r) (MaxCommandBytes (limits r) + 2)).

Lemma alloc_ok_refl r s : len (rest s) <= len (rest (br r)) -> alloc_ok r (with_br r s).
Proof. rw /alloc_ok /arrived /=. intros ?. repeat split; lia. Qed.

Lemma alloc_ok_trans r1 r2 r3 : alloc_ok r1 r2 -> alloc_ok r2 r3 -> alloc_ok r1 r3.
Proof.
  rw /alloc_ok /arrived. intros (Hl & H1 & H2 & H3 & H4 & H5) (Hl' & ? & ? & ? & ? & H5').
  rw Hl in H5'. split_and!; [congruence|lia..|]. intros Hp.
  specialize (H5 Hp). specialize (H5' Hp). lia.
Qed.

Lemma read_chunks_alloc fuel n r : 0 <= buf_cap r ->
  (0 < MaxCommandBytes (limits r) -> len (buf r) + n <= MaxCommandBytes (limits r) + 2) ->
  alloc_ok r (read_chunks fuel n r).2.
Proof.
  revert n r. have Hpre : maxPreallocation = 65536 by done.
  have Hid r : alloc_ok r r by destruct r as [s]; apply (alloc_ok_refl (mkReader s _ _ _ _) s).
  induction fuel as [|fuel IH] => n r Hc Hn; cbn [read_chunks]; [apply Hid|].
  destruct (Z.ltb_spec 0 n) as [Hpos|]; [|apply Hid].
  set chunk := if _ <? _ then _ else _.
  have Hch : 0 < chunk <= n /\ chunk <= 65536 by rw /chunk; rw Hpre; case_cmp; lia.
  have Hb := len_nonneg (buf r).
  destruct (growBuf_cap (len (buf r) + chunk) r) as (G1 & G2 & G3 & G4); [lia..|].
  have Hnn := len_nonneg (rest (br r)).
  rw growBuf_eq. cbn [br limits buf buf_cap offsets]. rw /ReadFull. case_cmp.
  - have Ed : len (drop (Z.to_nat chunk) (rest (br r))) = len (rest (br r)) - chunk.
    { rw /len length_drop. rw /len in H. lia. }
    have Et : len (take (Z.to_nat chunk) (rest (br r))) = chunk.
    { rw /len length_take. rw /len in H. lia. }
    eapply alloc_ok_trans; [|apply IH; cbn [buf_cap limits buf]; [lia|]].
    + rw /alloc_ok /arrived. cbn [br rest limits buf buf_cap]. rw Ed len_app Et.
      split_and!; [done|lia..|]. intros Hp. specialize (G4 Hp). specialize (Hn Hp). lia.
    + rw len_app Et. lia.
  - rw /alloc_ok /arrived. cbn [br rest limits buf buf_cap snd with_br]. rw len_nil.
    split_and!; [done|lia..|]. intros Hp. specialize (G4 Hp). specialize (Hn Hp). lia.
Qed.

Lemma readBulk_alloc r : 0 <= buf_cap r -> alloc_ok r (readBulk r).2.
Proof.
  intros Hc. rw /readBulk. have Hs := readLine_shrinks (br r).
  destruct (readLine (br r)) as [res s]. cbn [snd] in Hs.
  have Hw := alloc_ok_refl r s Hs. cbn [with_br limits buf].
  destruct res as [line|e]; [|done]. case_bool_decide; cbn [negb]; [|done].
  destruct (parseInt _) as [ln|]; [|done]. case_cmp; [done|]. case_cmp; [done|].
  destruct ((0 <? _) && _) eqn:Hl; [done|].
  have Hr := read_chunks_alloc (Z.to_nat ((ln + 2) / maxPreallocation + 1)) (ln + 2) (with_br r s) Hc.
  destruct (read_chunks _ _ _) as [res r1]. cbn [snd with_br limits buf] in *.
  have Ha : alloc_ok r r1.
  { eapply alloc_ok_trans; [done|]. apply Hr. intros Hp. move: Hl.
    destruct (Z.ltb_spec 0 (MaxCommandBytes (limits r))); [simpl|lia]. case_cmp; [done|lia]. }
  destruct res; [|done]. destruct (_ || _); [done|].
  move: Ha. rw /alloc_ok /arrived. cbn [br rest limits buf buf_cap snd].
  have Ht k : len (take k (buf r1)) <= len (buf r1) by rw /len length_take; lia.
  have := Ht (length (buf r) + Z.to_nat ln)%nat => Ht'.
  intros (? & ? & ? & ? & ? & ?). split_and!; try done. lia.
Qed.

Lemma read_bulks_alloc n r : 0 <= buf_cap r -> alloc_ok r (read_bulks n r).2.
Proof.
  revert r. induction n as [|n IH] => r Hc; cbn [read_bulks].
  { destruct r as [s]; apply (alloc_ok_refl (mkReader s _ _ _ _) s). simpl. lia. }
  have Hb := readBulk_alloc r Hc. destruct (readBulk r) as [[u|e] r1]; [|done].
  cbn [snd] in Hb. eapply alloc_ok_trans; [done|]. apply IH. destruct Hb as (_ & ? & _). lia.
Qed.

(** ** The decoder's theorems *)

(** C9. The decoder inverts the encoder: on a stream that starts with the frame of a request
    within the limits, whatever the reader's buffer holds from earlier calls, [ReadCommand]
    returns exactly that request and leaves the stream right behind the frame. *)
Theorem decode_encode r args t : within (limits r) args ->
  rest (br r) = enc_frame args ++ t ->
  exists r', ReadCommand r = (Ret args, r') /\
    br r' = mkStream t (fin (br r)) /\ limits r' = limits r.
Proof. apply ReadCommand_ok. Qed.

(** C10. What the decoder accepts is a request: if [ReadCommand] returns arguments, the
    bytes it consumed are a well-formed RESP2 array of bulk strings with just these
    payloads (numbers in any form [parseInt] reads), and the count, every length and the
    total are within the configured limits. *)
Theorem decode_sound r args r' : ReadCommand r = (Ret args, r') ->
  within (limits r) args /\ limits r' = limits r /\
  exists c, frame_wire c args /\ rest (br r) = c ++ rest (br r').
Proof. intros (? & ? & _ & ?)%ReadCommand_inv. done. Qed.

(** C40. A frame the stream ends inside of, wherever it is cut, is reported as incomplete
    and never as malformed; a stream that ends between frames is a clean end of file. *)
Theorem decode_torn r args q : within (limits r) args -> fin (br r) = EOF ->
  rest (br r) = q -> q `prefix_of` enc_frame args -> q <> enc_frame args ->
  (ReadCommand r).1 =
    Fail (match q with [] => Eof | _ => incompleteErr "unexpected end of stream inside frame" end).
Proof.
  intros Hw He Hr Hq Hne. destruct (ReadCommand_torn r args q) as [r' E]; [done..|]. by rw E.
Qed.

(** C11. Memory follows the data, not the peer's claims: whether the frame is accepted or
    not, the decode buffer is never larger than twice the bytes that really arrived plus
    one 64 KiB chunk, and never larger than [MaxCommandBytes] plus the two bytes of the
    terminator, unless it already was; and an accepted request does not inherit a buffer of
    more than 1 MiB from an earlier one. *)
Theorem decode_memory_bounded r : 0 <= buf_cap r ->
  let r' := (ReadCommand r).2 in
  let data := 2 * (arrived r r' + maxPreallocation) in
  let limit := MaxCommandBytes (limits r) + 2 in
  0 <= arrived r r' /\
  buf_cap r' <= Z.max (buf_cap r) data /\
  (0 < MaxCommandBytes (limits r) -> buf_cap r' <= Z.max (buf_cap r) limit) /\
  (forall args, (ReadCommand r).1 = Ret args ->
     buf_cap r' <= Z.max maxRetainedBuffer data /\
     (0 < MaxCommandBytes (limits r) -> buf_cap r' <= Z.max maxRetainedBuffer limit)).
Proof.
  intros Hc. rw /ReadCommand. have Hs := readLine_shrinks (br r).
  have Hret : maxRetainedBuffer = 1048576 by done. have Hpre : maxPreallocation = 65536 by done.
  destruct (readLine (br r)) as [res s]. cbn [snd] in Hs.
  destruct res as [line|e]; [|rw /arrived /=; split_and!; try lia; done].
  case_bool_decide; cbn [negb]; [|rw /arrived /=; split_and!; try lia; done].
  destruct (parseInt _) as [n|]; [|rw /arrived /=; split_and!; try lia; done].
  destruct (Z.leb_spec n 0); [rw /arrived /=; split_and!; try lia; done|].
  cbn [with_br limits].
  destruct (Z.ltb_spec (MaxArrayElements (limits r)) n); [rw /arrived /=; split_and!; try lia; done|].
  cbn [with_br limits br buf_cap]. set cap := if _ <? _ then _ else _.
  have Hcap : 0 <= cap <= Z.min (buf_cap r) maxRetainedBuffer by rw /cap; case_cmp; lia.
  set r1 := mkReader s (limits r) [] cap [].
  have Hb := read_bulks_alloc (Z.to_nat n) r1 ltac:(rw /r1 /=; lia).
  destruct (read_bulks _ _) as [res r2]. move: Hb. rw /alloc_ok /arrived /r1.
  cbn [snd br rest limits buf buf_cap]. rw len_nil. intros (_ & ? & ? & ? & ? & Hl).
  destruct res; cbn [snd fst]; split_and!; try lia; try done; intros args _; split; lia.
Qed.

(** ** Examples and witnesses *)

(** A request with a following one behind it. *)
Definition sample_request : list bytes := [str "GET"; str "k"].
Definition sample_reader : Reader :=
  NewReader (mkStream (enc_frame sample_request ++ str "*1") EOF) DefaultLimits.

Lemma sample_within : within DefaultLimits sample_request.
Proof.
  split_and!; [vm_compute; done..| |by vm_compute].
  by repeat constructor; vm_compute.
Qed.

Lemma decode_encode_witness :
  exists r', ReadCommand sample_reader = (Ret sample_request, r') /\
    br r' = mkStream (str "*1") EOF /\ limits r' = DefaultLimits.
Proof.
  apply (decode_encode sample_reader sample_request (str "*1")); [apply sample_within|reflexivity].
Defined.

Lemma decode_sound_witness :
  exists c, frame_wire c sample_request /\
    rest (br sample_reader) = c ++ rest (br (ReadCommand sample_reader).2).
Proof.
  apply (decode_sound sample_reader sample_request (ReadCommand sample_reader).2).
  vm_compute. reflexivity.
Defined.

Lemma decode_torn_witness :
  (ReadCommand (NewReader (mkStream (str "*2") EOF) DefaultLimits)).1 =
    Fail (incompleteErr "unexpected end of stream inside frame").
Proof.
  refine (decode_torn (NewReader (mkStream (str "*2") EOF) DefaultLimits) sample_request (str "*2")
            sample_within eq_refl eq_refl _ _).
  - by eexists.
  - by vm_compute.
Defined.

Lemma decode_memory_witness :
  buf_cap (ReadCommand sample_reader).2 <= Z.max 0 (MaxCommandBytes DefaultLimits + 2).
Proof. apply (decode_memory_bounded sample_reader); vm_compute; done. Defined.

(** A peer that declares a megabyte and sends three bytes costs one chunk. *)
Example declared_is_not_allocated :
  let r := NewReader (mkStream (str "*1" ++ CRLF ++ str "$1000000" ++ CRLF ++ str "abc") EOF)
             DefaultLimits in
  (ReadCommand r).1 = Fail (incompleteErr "unexpected end of stream inside frame") /\
  buf_cap (ReadCommand r).2 = maxPreallocation.
Proof. split; vm_compute; reflexivity. Qed.

(** The guard [n > 1<<30] is tested after the multiplication. With a 64-bit [int] that is
    sound; with the 32-bit [int] the comment has in mind the product wraps first. *)
Example parseInt_width_matters :
  parseInt_width 64 (str "4294967300") = None /\ parseInt_width 32 (str "4294967300") = Some 4.
Proof. split; vm_compute; reflexivity. Qed.
