(* ===== verification/AofCodec.v ===== *)
(** * Effect records and their encoding (src/internal/aof/record.go, codec.go)

    A record is the effect of one committed mutation. [Encode] writes it through the RESP2
    encoder and [Decode] reads it back through the RESP2 decoder; the two are shown inverse
    on the canonical records, which are those [DeriveSet] and [DeriveDel] build and the
    only ones [Decode] returns. *)

From S2P Require Import Prelude.
From S2P Require Import GoLib.
From S2P Require Import RespWriter.
From S2P Require Import RespReader.

(** ** Records *)

(** A [Kind] is an [int]; any value but the two constants is an unknown kind. *)
Inductive Kind := KindSet | KindDel | KindOther (n : Z).

Record Record_ := mkRecord {
  rec_kind : Kind;
  rec_key : bytes;
  rec_value : bytes;
  rec_expire_at_ms : Z;
  rec_has_expiry : bool;
  rec_keys : list bytes
}.

Definition DeriveSet (key value : bytes) (deadline : Z) (hasTTL : bool) : Record_ :=
  mkRecord KindSet key value (if hasTTL then UnixMilli deadline else 0) hasTTL [].

Definition DeriveDel (keys : list bytes) : Record_ := mkRecord KindDel [] [] 0 false keys.

(** ** The codec *)

Definition verbSet : bytes := str "SET".
Definition verbDel : bytes := str "DEL".
Definition optPXAT : bytes := str "PXAT".

(** What [corruptf] is called with; every one of them is an [ErrCorrupt]. *)
Inductive corrupt :=
| EmptyRecord
| UnknownSetOption (opt : bytes)
| PxatNotInteger
| SetParts (n : Z)
| DelNoKeys
| UnknownVerb (verb : bytes)
| UnknownKind.

Inductive encode_err := EncodeCorrupt (c : corrupt) | WriteFailed.

Section encode.
Context {S : Type} `{!Sink S}.

(** The error of a write. *)
Definition write_result (m : wop S) (w : Writer S) : option encode_err * Writer S :=
  let '(ok, w) := m w in ((if ok then None else Some WriteFailed), w).

Fixpoint write_bulks (ks : list bytes) : wop S :=
  match ks with
  | [] => fun w => (true, w)
  | k :: ks => and_then (WriteBulk k) (write_bulks ks)
  end.

Definition Encode (r : Record_) (w : Writer S) : option encode_err * Writer S :=
  match rec_kind r with
  | KindSet =>
      let n := if rec_has_expiry r then 5 else 3 in
      write_result
        (and_then (WriteArrayHeader n)
        (and_then (WriteBulk verbSet)
        (and_then (WriteBulk (rec_key r))
        (and_then (WriteBulk (rec_value r))
        (if negb (rec_has_expiry r) then fun w => (true, w)
         else and_then (WriteBulk optPXAT) (WriteBulk (FormatInt (rec_expire_at_ms r)))))))) w
  | KindDel =>
      if len (rec_keys r) =? 0 then (Some (EncodeCorrupt DelNoKeys), w)
      else
        write_result
          (and_then (WriteArrayHeader (len (rec_keys r) + 1))
          (and_then (WriteBulk verbDel) (write_bulks (rec_keys r)))) w
  | KindOther _ => (Some (EncodeCorrupt UnknownKind), w)
  end.
End encode.

Inductive decode_err := ReadErr (e : read_err) | ErrCorrupt (c : corrupt).

(** The record a decoded frame stands for. *)
Definition record_of (parts : list bytes) : result decode_err Record_ :=
  match parts with
  | [] => Fail (ErrCorrupt EmptyRecord)
  | verb :: args =>
      if bool_decide (verb = verbSet) then
        match args with
        | [k; v] => Ret (mkRecord KindSet k v 0 false [])
        | [k; v; opt; ms] =>
            if negb (bool_decide (opt = optPXAT)) then Fail (ErrCorrupt (UnknownSetOption opt))
            else
              match ParseInt ms with
              | None => Fail (ErrCorrupt PxatNotInteger)
              | Some ms => Ret (mkRecord KindSet k v ms true [])
              end
        | _ => Fail (ErrCorrupt (SetParts (len parts)))
        end
      else if bool_decide (verb = verbDel) then
        if len parts <? 2 then Fail (ErrCorrupt DelNoKeys)
        else Ret (mkRecord KindDel [] [] 0 false args)
      else Fail (ErrCorrupt (UnknownVerb verb))
  end.

Definition Decode (r : Reader) : result decode_err Record_ * Reader :=
  let '(res, r) := ReadCommand r in
  match res with
  | Fail e => (Fail (ReadErr e), r)
  | Ret parts => (record_of parts, r)
  end.

(** ** Canonical records *)

Definition canonical (r : Record_) : Prop :=
  match rec_kind r with
  | KindSet => rec_keys r = [] /\ is_int64 (rec_expire_at_ms r) /\
      (rec_has_expiry r = false -> rec_expire_at_ms r = 0)
  | KindDel => rec_keys r <> [] /\ rec_key r = [] /\ rec_value r = [] /\
      rec_expire_at_ms r = 0 /\ rec_has_expiry r = false
  | KindOther _ => False
  end.

(** The records [Encode] accepts. *)
Definition encodable (r : Record_) : Prop :=
  match rec_kind r with
  | KindSet => True
  | KindDel => rec_keys r <> []
  | KindOther _ => False
  end.

(** The bulk strings of a record, and its bytes in the file. *)
Definition parts_of (r : Record_) : list bytes :=
  match rec_kind r with
  | KindSet =>
      [verbSet; rec_key r; rec_value r] ++
      (if rec_has_expiry r then [optPXAT; FormatInt (rec_expire_at_ms r)] else [])
  | _ => verbDel :: rec_keys r
  end.
Definition enc_record (r : Record_) : bytes := enc_frame (parts_of r).

(** The records recovery can read: those within the decoder's limits. *)
Definition readable (r : Record_) : Prop := canonical r /\ within DefaultLimits (parts_of r).

(** ** Encoding *)

Section encode_spec.
Context {S : Type} `{!Sink S} `{!SinkLaws S}.

Lemma and_then_assoc (a b c : wop S) w : and_then (and_then a b) c w = and_then a (and_then b c) w.
Proof. rw /and_then. destruct (a w) as [[] w1]; [|done]. by destruct (b w1) as [[]]. Qed.

(** Nothing left to write: the error of the last write stands. *)
Lemma emits_return (a : wop S) x : emits a x -> emits (and_then a (fun w => (true, w))) x.
Proof. apply emits_ext => w. rw /and_then. by destruct (a w) as [[]]. Qed.

Lemma emits_bulks (a : wop S) x ks :
  emits a x -> emits (and_then a (write_bulks ks)) (x ++ concat (enc_bulk <$> ks)).
Proof.
  revert a x. induction ks as [|k ks IH] => a x Ha.
  { simpl. rw app_nil_r. by apply emits_return. }
  eapply emits_ext; [intros w; apply and_then_assoc|]. rw fmap_cons concat_cons (app_assoc x (enc_bulk k)).
  by apply IH, emits_and_then; [|apply emits_WriteBulk].
Qed.

(** The write [Encode] performs on a canonical record. *)
Definition encode_wop (r : Record_) : wop S := fun w =>
  let '(e, w) := Encode r w in (bool_decide (e = None), w).

Lemma write_result_wop (m : wop S) w :
  (let '(e, w) := write_result m w in (bool_decide (e = None), w)) = m w.
Proof. rw /write_result. by destruct (m w) as [[]]. Qed.

Lemma emits_Encode r : encodable r -> emits (encode_wop r) (enc_record r).
Proof.
  rw /encodable /enc_record /enc_frame /parts_of /encode_wop /Encode.
  destruct (rec_kind r); [intros _|intros Hk|done].
  - eapply emits_ext; [intros w; symmetry; apply write_result_wop|].
    destruct (rec_has_expiry r).
    + apply emits_and_then; [apply emits_WriteArrayHeader|]. cbn [app].
      rw !fmap_cons !concat_cons fmap_nil concat_nil app_nil_r.
      repeat apply emits_and_then; apply emits_WriteBulk.
    + apply (emits_bulks _ _ [verbSet; rec_key r; rec_value r]), emits_WriteArrayHeader.
  - destruct (Z.eqb_spec (len (rec_keys r)) 0) as [E|_].
    { exfalso. apply Hk. rw /len in E. by destruct (rec_keys r); [|simpl in E; lia]. }
    eapply emits_ext; [intros w; symmetry; apply write_result_wop|].
    rw len_cons Z.add_comm. apply emits_and_then; [apply emits_WriteArrayHeader|].
    apply emits_bulks, emits_WriteBulk.
Qed.

(** What it refuses leaves the writer as it was. *)
Lemma Encode_refuses r (w : Writer S) : ~ encodable r ->
  exists c, Encode r w = (Some (EncodeCorrupt c), w).
Proof.
  rw /encodable /Encode. destruct (rec_kind r); [by intros []| |by eexists].
  intros Hn. case_cmp; [by eexists|]. exfalso. apply Hn. intros E. apply n. by rw E.
Qed.
End encode_spec.

Lemma canonical_encodable r : canonical r -> encodable r.
Proof. rw /canonical /encodable. destruct (rec_kind r); [done|by intros []|done]. Qed.

#[export] Instance encodable_dec r : Decision (encodable r).
Proof. rw /encodable. destruct (rec_kind r); apply _. Defined.

(** Encoding into a buffer, then flushing: exactly the record's bytes are appended. *)
Lemma Encode_buffer r b : encodable r ->
  exists w, Encode r (mkWriter [] true b) = (None, w) /\
    Flush (S:=bytes) w = (true, mkWriter [] true (b ++ enc_record r)).
Proof.
  intros Hr. pose proof (emits_and_then _ _ _ _ (emits_Encode (S:=bytes) r Hr) emits_flush) as He.
  specialize (He (mkWriter [] true b) ltac:(by vm_compute)). rw /and_then /encode_wop in He.
  destruct (Encode r (mkWriter [] true b)) as [e w] eqn:Ee. case_bool_decide as Hn.
  2:{ destruct He as (_ & _ & _ & _ & _ & H). by specialize (H buffer_infallible eq_refl). }
  destruct (Flush w) as [ok w'] eqn:Ef. destruct He as (_ & Hok' & _ & _ & Ht & Hok).
  specialize (Hok buffer_infallible eq_refl). subst e. rw Hok in Ef Ht Hok' *. exists w. split; [done|].
  have Hb := flush_empty _ _ Ef. destruct w' as [wb wo ws]. simpl in *. subst wb wo.
  rw /total /= !app_nil_r in Ht. by rw Ef Ht.
Qed.

(** ** Decoding *)

Lemma record_of_parts r : canonical r -> record_of (parts_of r) = Ret r.
Proof.
  destruct r as [kd k v ms h ks]. rw /canonical /parts_of /=. destruct kd as [| |n]; [| |done].
  - intros (-> & Hms & Hno). rw /record_of. destruct h; cbn [app].
    + rw !bool_decide_eq_true_2 //=. by rw ParseInt_FormatInt.
    + rw bool_decide_eq_true_2 //. by rw Hno.
  - intros (Hk & -> & -> & -> & ->). rw /record_of bool_decide_eq_false_2 // bool_decide_eq_true_2 //.
    rw len_cons. case_cmp; [|done]. rw /len in H.
    by destruct ks; [|simpl in H; lia].
Qed.

Lemma record_of_canonical ps r : record_of ps = Ret r -> canonical r.
Proof.
  rw /record_of. destruct ps as [|verb args]; [done|]. case_bool_decide.
  - destruct args as [|k [|v [|o [|ms [|]]]]]; try done.
    + intros [= <-]. by rw /canonical /=; split_and!.
    + case_bool_decide; [simpl|done]. destruct (ParseInt ms) as [z|] eqn:E; [|done].
      intros [= <-]. rw /canonical /=. split_and!; [done|by eapply ParseInt_range|done].
  - case_bool_decide; [|done]. rw len_cons. case_cmp; [done|]. intros [= <-].
    rw /canonical /=. split_and!; try done. intros ->. rw len_nil in H1. lia.
Qed.

Lemma DeriveSet_canonical k v d h : (h = true -> is_int64 (UnixMilli d)) -> canonical (DeriveSet k v d h).
Proof.
  intros Hd. rw /canonical /DeriveSet /=. split_and!; [done| |by intros ->].
  destruct h; [by apply Hd|done].
Qed.

Lemma DeriveDel_canonical ks : ks <> [] -> canonical (DeriveDel ks).
Proof. intros Hk. by rw /canonical /DeriveDel /=; split_and!. Qed.

Lemma Decode_ok r rec t : readable rec -> limits r = DefaultLimits ->
  rest (br r) = enc_record rec ++ t ->
  exists r', Decode r = (Ret rec, r') /\ br r' = mkStream t (fin (br r)) /\ limits r' = DefaultLimits.
Proof.
  intros [Hc Hw] Hl Hr. destruct (ReadCommand_ok r (parts_of rec) t) as (r' & E & Hb & Hl'); [by rw Hl|done|].
  exists r'. rw /Decode E record_of_parts //. by rw Hl' Hl.
Qed.

Lemma Decode_torn r rec q : readable rec -> limits r = DefaultLimits -> fin (br r) = EOF ->
  rest (br r) = q -> q `prefix_of` enc_record rec -> q <> enc_record rec ->
  exists r', Decode r =
    (Fail (ReadErr (match q with [] => Eof | _ => incompleteErr "unexpected end of stream inside frame" end)), r').
Proof.
  intros [Hc Hw] Hl He Hr Hq Hne. destruct (ReadCommand_torn r (parts_of rec) q) as [r' E]; [by rw Hl|done..|].
  exists r'. by rw /Decode E.
Qed.

Lemma Decode_inv r rec r' : Decode r = (Ret rec, r') ->
  limits r' = limits r /\ fin (br r') = fin (br r) /\ canonical rec /\
  exists args c, record_of args = Ret rec /\ frame_wire c args /\ rest (br r) = c ++ rest (br r').
Proof.
  rw /Decode. destruct (ReadCommand r) as [[args|e] r1] eqn:E; [|done]. intros [= Hrec <-].
  apply ReadCommand_inv in E as (_ & Hl & Hf & c & Hw & Hr). split_and!; [done..| |].
  - by eapply record_of_canonical.
  - by exists args, c.
Qed.

(** A decoded frame is not empty, so every successful [Decode] makes progress. *)
Lemma Decode_progress r rec r' : Decode r = (Ret rec, r') -> len (rest (br r')) < len (rest (br r)).
Proof.
  intros (_ & _ & _ & args & c & _ & (h & cs & _ & _ & ->) & Hr)%Decode_inv.
  rw Hr. cbn [app]. rw len_cons len_app. have := len_nonneg (h ++ CRLF ++ concat cs). lia.
Qed.

(** C24. Records survive the file format: encoding any effect the engine derives (a SET with
    or without a deadline, a DEL of at least one key) into a buffer and flushing it leaves
    exactly the record's bytes, and decoding those bytes, with anything behind them, gives
    back the same record and stops at its last byte. *)
Theorem record_roundtrip (rec : Record_) (t : bytes) : readable rec ->
  exists w w' r',
    Encode rec (NewWriter (S:=bytes) []) = (None, w) /\ Flush w = (true, w') /\
    bw_sink w' = enc_record rec /\
    Decode (NewReader (mkStream (bw_sink w' ++ t) EOF) DefaultLimits) = (Ret rec, r') /\
    br r' = mkStream t EOF.
Proof.
  intros Hr. destruct (Encode_buffer rec []) as (w & Ee & Ef); [by apply canonical_encodable, Hr|].
  destruct (Decode_ok (NewReader (mkStream (enc_record rec ++ t) EOF) DefaultLimits) rec t)
    as (r' & E & Hb & _); [done..|]. by exists w, (mkWriter [] true (enc_record rec)), r'.
Qed.

Lemma record_roundtrip_witness :
  let rec := DeriveSet (str "k") (str "v") 1700000000123456789 true in
  readable rec /\
  exists w w' r',
    Encode rec (NewWriter (S:=bytes) []) = (None, w) /\ Flush w = (true, w') /\
    bw_sink w' = enc_record rec /\
    Decode (NewReader (mkStream (bw_sink w' ++ str "*") EOF) DefaultLimits) = (Ret rec, r') /\
    br r' = mkStream (str "*") EOF.
Proof.
  intros rec.
  have Hr : readable rec.
  { split; [split_and!; by vm_compute|]. split_and!; [by vm_compute..| |by vm_compute].
    by repeat constructor; vm_compute. }
  split; [exact Hr|exact (record_roundtrip rec (str "*") Hr)].
Defined.

(** Every malformed record is refused with its own class, whatever the frame: the verbs are
    case sensitive, as the comment on the two decoders asks. *)
Example record_of_refuses :
  record_of [str "set"; str "k"; str "v"] = Fail (ErrCorrupt (UnknownVerb (str "set"))) /\
  record_of [verbDel] = Fail (ErrCorrupt DelNoKeys) /\
  record_of [verbSet; str "k"] = Fail (ErrCorrupt (SetParts 2)) /\
  record_of [verbSet; str "k"; str "v"; str "EX"; str "1"] = Fail (ErrCorrupt (UnknownSetOption (str "EX"))) /\
  record_of [verbSet; str "k"; str "v"; optPXAT; str "1.5"] = Fail (ErrCorrupt PxatNotInteger).
Proof. split_and!; vm_compute; reflexivity. Qed.
