(* ===== verification/AofReplay.v ===== *)
(** * The log file: header, replay and opening (src/internal/aof/header.go, replay.go, open.go)

    A file is the byte string it holds. [Replay] writes into anything that implements
    [Applier]; what it promises is stated through the laws of that interface
    ([ApplierLaws]), which the store then discharges. *)

From S2P Require Import Prelude.
From S2P Require Import GoLib.
From S2P Require Import Store.
From S2P Require Import RespWriter.
From S2P Require Import RespReader.
From S2P Require Import AofCodec.

(** ** The header *)

Definition magic : bytes := str "GOKVAOF" ++ [x00].
Definition FormatVersion : Z := 1.
Definition HeaderSize : Z := 16.

(** [binary.BigEndian.PutUint32] and [Uint32]. *)
Definition be_put32 (v : Z) : bytes :=
  [byte_of (Z.shiftr v 24); byte_of (Z.shiftr v 16); byte_of (Z.shiftr v 8); byte_of v].
Definition be_uint32 (b : bytes) : Z := foldl (fun acc c => Z.lor (Z.shiftl acc 8) (bval c)) 0 b.

(** [make([]byte, HeaderSize)], the two writes into it, and four reserved zero bytes. *)
Definition EncodeHeader : bytes :=
  magic ++ be_put32 FormatVersion ++ replicate (Z.to_nat HeaderSize - 12) x00.

Inductive header_err :=
| ErrTruncatedHeader
| ErrNotAnAOF
| UnsupportedVersionError (Found : Z)
| HeaderRead (e : stream_err).

(** [Ret true] is an empty file. *)
Definition ReadHeader (s : stream) : result header_err bool * stream :=
  let '(res, s) := ReadFull HeaderSize s in
  match res with
  | Fail EOF => (Ret true, s)
  | Fail UnexpectedEOF => (Fail ErrTruncatedHeader, s)
  | Fail e => (Fail (HeaderRead e), s)
  | Ret buf =>
      if negb (bool_decide (take 8 buf = magic)) then (Fail ErrNotAnAOF, s)
      else
        let v := be_uint32 (take 4 (drop 8 buf)) in
        if negb (v =? FormatVersion) then (Fail (UnsupportedVersionError v), s)
        else (Ret false, s)
  end.

(** ** The interface replay writes into *)

Class Applier (D : Type) := {
  ap_Set : D -> bytes -> bytes -> Z -> bool -> D;
  ap_Delete : D -> bytes -> bool * D
}.

(** What replay relies on: [Set] and [Delete] act on one key, through some abstraction
    [ap_entries] of the destination. *)
Class ApplierLaws (D : Type) `{!Applier D} := {
  ap_entries : D -> gmap bytes entry;
  ap_entries_Set d k v t h :
    ap_entries (ap_Set d k v t h) = <[k := (v, if h then Some t else None)]> (ap_entries d);
  ap_entries_Delete d k : ap_entries (ap_Delete d k).2 = delete k (ap_entries d)
}.

#[export] Instance store_applier : Applier Store := {|
  ap_Set := Set_;
  ap_Delete := Delete
|}.

#[export] Instance store_applier_laws : ApplierLaws Store := {|
  ap_entries := phys;
  ap_entries_Set := phys_set;
  ap_entries_Delete := phys_delete
|}.

Section replay.
Context {D : Type} `{!Applier D}.

(** [apply]: the destination after one record, or an unknown kind. *)
Definition apply (rec : Record_) (now : Z) (dst : D) : result decode_err D :=
  match rec_kind rec with
  | KindSet =>
      if negb (rec_has_expiry rec)
      then Ret (ap_Set dst (rec_key rec) (rec_value rec) time_zero false)
      else
        let deadline := of_UnixMilli (rec_expire_at_ms rec) in
        if Before now deadline
        then Ret (ap_Set dst (rec_key rec) (rec_value rec) deadline true)
        else Ret (ap_Delete dst (rec_key rec)).2
  | KindDel => Ret (foldl (fun d k => (ap_Delete d k).2) dst (rec_keys rec))
  | KindOther _ => Fail (ErrCorrupt UnknownKind)
  end.

Record Result := mkResult {
  Records : Z;
  LastValidOffset : Z;
  Truncated : bool
}.

Inductive replay_err :=
| ReplayHeader (e : header_err)
| CorruptionError (Offset : Z) (e : decode_err).

(** [errors.Is(err, io.EOF)] *)
Definition is_eof (e : decode_err) : bool :=
  match e with ReadErr Eof => true | _ => false end.
(** [errors.Is(err, resp.ErrIncompleteFrame)] *)
Definition is_incomplete_frame (e : decode_err) : bool :=
  match e with ReadErr e => is_incomplete e | _ => false end.

(** The loop of [Replay]. [counted.n - r.Buffered()], what the decoder has taken of the
    [total] bytes of the file, is [total] less what the reader still has to deliver.
    [None] is fuel running out. *)
Fixpoint replay_loop (fuel : nat) (total : Z) (now : Z) (r : Reader) (res : Result) (dst : D) :
    option (Result * option replay_err * D) :=
  match fuel with
  | O => None
  | S fuel =>
      match Decode r with
      | (Fail err, _) =>
          if is_eof err then Some (res, None, dst)
          else if is_incomplete_frame err
          then Some (mkResult (Records res) (LastValidOffset res) true, None, dst)
          else Some (res, Some (CorruptionError (LastValidOffset res) err), dst)
      | (Ret rec, r) =>
          match apply rec now dst with
          | Fail err => Some (res, Some (CorruptionError (LastValidOffset res) err), dst)
          | Ret dst =>
              replay_loop fuel total now r
                (mkResult (Records res + 1) (total - len (rest (br r))) (Truncated res)) dst
          end
      end
  end.

(** Every record takes at least one byte, so one round per byte and a last one is enough. *)
Definition Replay (src : stream) (now : Z) (dst : D) : option (Result * option replay_err * D) :=
  let total := len (rest src) in
  match ReadHeader src with
  | (Fail e, _) => Some (mkResult 0 0 false, Some (ReplayHeader e), dst)
  | (Ret true, _) => Some (mkResult 0 0 false, None, dst)
  | (Ret false, s) =>
      replay_loop (S (length (rest s))) total now (NewReader s DefaultLimits)
        (mkResult 0 HeaderSize false) dst
  end.

(** ** Opening *)

(** Which of the file operations of [OpenFile] succeed. *)
Record file_ops := mkOps { op_open : bool; op_write : bool; op_truncate : bool; op_seek : bool }.

Inductive open_err := OpenIO | OpenReplay (e : replay_err).

(** The file that [Open] is given: its content and the append position. *)
Record opened := mkOpened { of_content : bytes; of_pos : Z }.

(** [f.WriteAt(b, 0)] and [f.Truncate(n)]. *)
Definition write_at_0 (b content : bytes) : bytes := b ++ drop (length b) content.
Definition truncate_to (n : Z) (content : bytes) : bytes :=
  take (Z.to_nat n) content ++ replicate (Z.to_nat n - length content) x00.

Definition OpenFile (ops : file_ops) (content : bytes) (now : Z) (dst : D) :
    option (result open_err opened * Result * D) :=
  if negb (op_open ops) then Some (Fail OpenIO, mkResult 0 0 false, dst)
  else
    match Replay (mkStream content EOF) now dst with
    | None => None
    | Some (res, Some e, dst) => Some (Fail (OpenReplay e), res, dst)
    | Some (res, None, dst) =>
        let fresh := LastValidOffset res =? 0 in
        if fresh && negb (op_write ops) then Some (Fail OpenIO, res, dst)
        else
          let content := if fresh then write_at_0 EncodeHeader content else content in
          let res :=
            if fresh then mkResult (Records res) HeaderSize (Truncated res) else res in
          if negb (op_truncate ops) then Some (Fail OpenIO, res, dst)
          else
            let content := truncate_to (LastValidOffset res) content in
            if negb (op_seek ops) then Some (Fail OpenIO, res, dst)
            else Some (Ret (mkOpened content (LastValidOffset res)), res, dst)
    end.
End replay.

(** ** The meaning of a log *)

(** What one record does to the entries when it is replayed at [now]. *)
Definition effect (now : Z) (m : gmap bytes entry) (rec : Record_) : gmap bytes entry :=
  match rec_kind rec with
  | KindSet =>
      if rec_has_expiry rec then
        let deadline := of_UnixMilli (rec_expire_at_ms rec) in
        if decide (now < deadline)
        then <[rec_key rec := (rec_value rec, Some deadline)]> m
        else delete (rec_key rec) m
      else <[rec_key rec := (rec_value rec, None)]> m
  | _ => foldl (fun m k => delete k m) m (rec_keys rec)
  end.
Definition effects (now : Z) (m : gmap bytes entry) (recs : list Record_) : gmap bytes entry :=
  foldl (effect now) m recs.

(** A log file: header and records. *)
Definition log_bytes (recs : list Record_) : bytes := concat (enc_record <$> recs).
Definition log_file (recs : list Record_) : bytes := EncodeHeader ++ log_bytes recs.

(** ** Header facts *)

Lemma EncodeHeader_len : length EncodeHeader = 16%nat.
Proof. reflexivity. Qed.

Lemma ReadHeader_ok t e : ReadHeader (mkStream (EncodeHeader ++ t) e) = (Ret false, mkStream t e).
Proof.
  rw /ReadHeader ReadFull_ok; [cbn [rest]; rw len_app (_ : len EncodeHeader = HeaderSize); [done|]; pose proof (len_nonneg t); rw /HeaderSize; lia|].
  cbn [rest fin]. rw (_ : Z.to_nat HeaderSize = length EncodeHeader); [done|].
  rw take_app_length drop_app_length. reflexivity.
Qed.

(** ** Applying records through the interface *)

Section replay_spec.
Context {D : Type} `{!Applier D} `{!ApplierLaws D}.

Lemma ap_entries_deletes ks d :
  ap_entries (foldl (fun d k => (ap_Delete d k).2) d ks) =
    foldl (fun m k => delete k m) (ap_entries d) ks.
Proof. revert d. induction ks as [|k ks IH] => d; [done|]. by rw /= IH ap_entries_Delete. Qed.

Lemma apply_spec rec now dst : canonical rec ->
  exists dst', apply rec now dst = Ret dst' /\ ap_entries dst' = effect now (ap_entries dst) rec.
Proof.
  rw /canonical /apply /effect. destruct (rec_kind rec); [intros _|intros _|done].
  - destruct (rec_has_expiry rec); simpl.
    + rw /Before. case_cmp; eexists; (split; [done|]).
      * rw ap_entries_Set decide_True //.
      * rw ap_entries_Delete decide_False //. lia.
    + eexists. split; [done|]. by rw ap_entries_Set.
  - eexists. split; [done|]. apply ap_entries_deletes.
Qed.

(** The loop over a run of good records: it reaches what follows them with their effects
    applied and the offset at their end. *)
Lemma replay_loop_run recs fuel total now r res dst tail :
  Forall readable recs -> limits r = DefaultLimits ->
  rest (br r) = log_bytes recs ++ tail -> LastValidOffset res = total - len (rest (br r)) ->
  exists r' dst',
    replay_loop (length recs + fuel) total now r res dst =
      replay_loop fuel total now r'
        (mkResult (Records res + len recs) (total - len tail) (Truncated res)) dst' /\
    br r' = mkStream tail (fin (br r)) /\ limits r' = DefaultLimits /\
    ap_entries dst' = effects now (ap_entries dst) recs.
Proof.
  revert r res dst. induction recs as [|rec recs IH] => r res dst Hf Hl Hr Ho.
  { exists r, dst. split_and!; try done.
    - rw Hr in Ho. rw len_nil Z.add_0_r -Ho. by destruct res.
    - destruct (br r) as [rst e]. simpl in *. by rw Hr. }
  apply Forall_cons_1 in Hf as [Hrec Hf]. rw /log_bytes fmap_cons concat_cons -app_assoc in Hr.
  destruct (Decode_ok r rec _ Hrec Hl Hr) as (r1 & Ed & Hb & Hl1).
  destruct (apply_spec rec now dst (proj1 Hrec)) as (d1 & Ea & He).
  cbn [length Nat.add replay_loop]. rw Ed Ea.
  destruct (IH r1 (mkResult (Records res + 1) (total - len (rest (br r1))) (Truncated res)) d1)
    as (r' & dst' & E & Hb' & Hl' & He'); [done|done|by rw Hb|done|].
  exists r', dst'. rw E Hb' He' He Hb /= len_cons. split_and!; try done. do 2 f_equal. lia.
Qed.

Lemma enc_record_nonempty rec : (1 <= length (enc_record rec))%nat.
Proof. rw /enc_record enc_frame_header /=. lia. Qed.

Lemma log_bytes_length recs : (length recs <= length (log_bytes recs))%nat.
Proof.
  induction recs as [|rec recs IH]; [done|]. rw /log_bytes fmap_cons concat_cons length_app /=.
  have := enc_record_nonempty rec. rw /log_bytes in IH. lia.
Qed.

(** [Replay] on a file that starts with good records is the loop on what follows them. *)
Lemma Replay_run recs tail e now dst : Forall readable recs ->
  exists fuel r dst',
    Replay (mkStream (log_file recs ++ tail) e) now dst =
      replay_loop (S fuel) (len (log_file recs ++ tail)) now r
        (mkResult (len recs) (len (log_file recs)) false) dst' /\
    br r = mkStream tail e /\ limits r = DefaultLimits /\
    ap_entries dst' = effects now (ap_entries dst) recs.
Proof.
  intros Hf. rw /Replay. set total := len (log_file recs ++ tail).
  rw /log_file -app_assoc ReadHeader_ok. cbn [rest].
  have Hlen := log_bytes_length recs.
  rw (_ : S (length (log_bytes recs ++ tail)) =
        length recs + S (length (log_bytes recs ++ tail) - length recs))%nat.
  { rw length_app. lia. }
  have Ht : total = HeaderSize + len (log_bytes recs ++ tail).
  { rw /total /log_file -app_assoc (len_app EncodeHeader). done. }
  set fuel := (length (log_bytes recs ++ tail) - length recs)%nat.
  destruct (replay_loop_run recs (S fuel) total now (NewReader (mkStream (log_bytes recs ++ tail) e) DefaultLimits)
    (mkResult 0 HeaderSize false) dst tail) as (r' & dst' & E & Hb & Hl & He); [done..| |].
  { cbn [LastValidOffset NewReader br rest]. rw Ht. lia. }
  exists fuel, r', dst'. rw E Z.add_0_l. split_and!; try done.
  rw (_ : total - len tail = len (log_file recs)); [|done].
  rw /total len_app. lia.
Qed.

Lemma Replay_tail recs q rec now dst : Forall readable recs -> readable rec ->
  q `prefix_of` enc_record rec -> q <> enc_record rec ->
  exists dst',
    Replay (mkStream (log_file recs ++ q) EOF) now dst =
      Some (mkResult (len recs) (len (log_file recs)) (bool_decide (q <> [])), None, dst') /\
    ap_entries dst' = effects now (ap_entries dst) recs.
Proof.
  intros Hf Hr Hq Hne. destruct (Replay_run recs q EOF now dst Hf) as (fuel & r & dst' & E & Hb & Hl & He).
  exists dst'. split; [|done]. rw E. cbn [replay_loop].
  destruct (Decode_torn r rec q) as [r' Ed]; [done|done|by rw Hb|by rw Hb|done|done|]. rw Ed.
  by destruct q.
Qed.

(** The part of a log that survived a crash: whole records, then the first bytes of the
    next one. *)
Definition survives (recs kept : list Record_) (q : bytes) : Prop :=
  exists lost, recs = kept ++ lost /\
    match lost with
    | [] => q = []
    | rec :: _ => q `prefix_of` enc_record rec /\ q <> enc_record rec
    end.

Lemma cut_log recs file : file `prefix_of` log_file recs -> HeaderSize <= len file ->
  exists kept q, survives recs kept q /\ file = log_file kept ++ q.
Proof.
  intros Hp Hl. have Hh : EncodeHeader `prefix_of` file.
  { destruct (prefix_weak_total EncodeHeader file (log_file recs)) as [?|Hf]; [by apply prefix_app_r|done|done|].
    apply prefix_length in Hf as Hle. rw EncodeHeader_len in Hle.
    have E : file = EncodeHeader; [|by rw E].
    destruct Hf as [k Hk]. have Hkl : length k = 0%nat.
    { apply (f_equal length) in Hk. rw length_app EncodeHeader_len in Hk. rw /len /HeaderSize in Hl. lia. }
    destruct k; [by rw Hk app_nil_r|done]. }
  destruct Hh as [b ->]. rw /log_file in Hp. apply prefix_app_inv in Hp.
  destruct (prefix_concat_blocks enc_record recs b Hp) as [->|(l1 & x & l2 & q & -> & -> & Hq & Hne)].
  - exists recs, []. split; [by exists []; rw app_nil_r|]. by rw app_nil_r.
  - exists l1, q. split; [by exists (x :: l2)|]. by rw /log_file -app_assoc.
Qed.

(** Some record within the limits. *)
Definition sample_record : Record_ := DeriveDel [[]].

Lemma sample_readable : readable sample_record.
Proof.
  split; [by apply DeriveDel_canonical|]. split_and!; [by vm_compute..| |by vm_compute].
  by repeat constructor; vm_compute.
Qed.

Lemma Replay_cut recs kept q now dst : Forall readable recs -> survives recs kept q ->
  exists dst',
    Replay (mkStream (log_file kept ++ q) EOF) now dst =
      Some (mkResult (len kept) (len (log_file kept)) (bool_decide (q <> [])), None, dst') /\
    ap_entries dst' = effects now (ap_entries dst) kept.
Proof.
  intros Hf (lost & -> & Hq). apply Forall_app in Hf as [Hk Hlost]. destruct lost as [|rec lost].
  - subst q. apply (Replay_tail kept [] sample_record);
      [done|apply sample_readable|apply prefix_nil|done].
  - destruct Hq as [Hq Hne]. apply Forall_cons_1 in Hlost as [Hr _]. by apply (Replay_tail kept q rec).
Qed.

(** C8. Crash recovery: cut a log of encodable records at any byte behind its header.
    Replay then succeeds, applies exactly the records that lie complete before the cut, in
    order, reports their number, and reports as the offset to append at the byte behind the
    last of them; it reports a torn tail exactly when the cut fell inside a record. *)
Theorem replay_after_crash recs file now dst :
  Forall readable recs -> file `prefix_of` log_file recs -> HeaderSize <= len file ->
  exists kept q dst',
    survives recs kept q /\ file = log_file kept ++ q /\
    Replay (mkStream file EOF) now dst =
      Some (mkResult (len kept) (len (log_file kept)) (bool_decide (q <> [])), None, dst') /\
    ap_entries dst' = effects now (ap_entries dst) kept.
Proof.
  intros Hf Hp Hl. destruct (cut_log recs file Hp Hl) as (kept & q & Hs & ->).
  destruct (Replay_cut recs kept q now dst Hf Hs) as (dst' & E & He). by exists kept, q, dst'.
Qed.

(** C25. A complete frame that is not an effect record stops recovery: after any number of
    good records, a frame the decoder reads but the vocabulary does not know makes [Replay]
    refuse the file, with the byte offset where the bad record starts, whatever follows. *)
Theorem replay_refuses_corruption recs args t err now dst :
  Forall readable recs -> within DefaultLimits args -> record_of args = Fail err ->
  exists dst',
    Replay (mkStream (log_file recs ++ enc_frame args ++ t) EOF) now dst =
      Some (mkResult (len recs) (len (log_file recs)) false,
            Some (CorruptionError (len (log_file recs)) err), dst').
Proof.
  intros Hf Hw Herr. destruct (Replay_run recs (enc_frame args ++ t) EOF now dst Hf)
    as (fuel & r & dst' & E & Hb & Hl & He).
  destruct (ReadCommand_ok r args t) as (r' & Er & _); [by rw Hl|by rw Hb|].
  exists dst'. rw E. cbn [replay_loop]. rw /Decode Er Herr.
  have Hc : exists c, err = ErrCorrupt c.
  { move: Herr. rw /record_of. repeat case_match; intros; simplify_eq; by eexists. }
  by destruct Hc as [c ->].
Qed.

(** ** Files of any content *)

Lemma read_chunks_not_eof fuel n r : (read_chunks fuel n r).1 <> Fail Eof.
Proof.
  revert n r. induction fuel as [|fuel IH] => n r; cbn [read_chunks]; [done|].
  destruct (0 <? n); [|done]. destruct (ReadFull _ _) as [[bs|e] s]; [apply IH|].
  by destruct e.
Qed.

Lemma read_bulks_not_eof n r : (read_bulks n r).1 <> Fail Eof.
Proof.
  revert r. induction n as [|n IH] => r; cbn [read_bulks]; [done|].
  have Hb : (readBulk r).1 <> Fail Eof.
  { rw /readBulk. destruct (readLine (br r)) as [[line|e] s]; [|by destruct e as [| |[]]].
    destruct (negb _); [done|]. destruct (parseInt _) as [ln|]; [|done].
    destruct (ln <? 0); [done|]. destruct (_ <? ln); [done|]. destruct (_ && _); [done|].
    have := read_chunks_not_eof (Z.to_nat ((ln + 2) / maxPreallocation + 1)) (ln + 2) (with_br r s).
    destruct (read_chunks _ _ _) as [[u|e] r1]; [by destruct (_ || _)|done]. }
  destruct (readBulk r) as [[u|e] r1]; [apply IH|done].
Qed.

Lemma readLine_eof s : (readLine s).1 = Fail Eof -> rest s = [].
Proof.
  rw /readLine /ReadSlice. destruct (index_byte LF _) as [i|]; [by destruct (_ || _)|].
  case_cmp; [done|]. destruct (rest s) as [|c l]; [done|].
  rw len_cons. have := len_nonneg l. destruct (Z.ltb_spec 0 (1 + len l)); [|lia].
  by destruct (fin s).
Qed.

(** The clean end is reported only between frames. *)
Lemma Decode_eof r r' : Decode r = (Fail (ReadErr Eof), r') -> rest (br r) = [].
Proof.
  rw /Decode /ReadCommand. have Hl := readLine_eof (br r).
  destruct (readLine (br r)) as [[line|e] s]; cbn [fst] in Hl.
  2:{ intros [= -> _]. by apply Hl. }
  case_bool_decide; cbn [negb]; [|done]. destruct (parseInt _) as [n|]; [|done].
  destruct (n <=? 0); [done|]. destruct (_ <? n); [done|]. cbn [with_br limits buf_cap br].
  set r0 := mkReader _ _ _ _ _. have := read_bulks_not_eof (Z.to_nat n) r0.
  destruct (read_bulks _ _) as [[u|e] r1]; cbn [fst]; [|by intros ? [= ->]].
  intros _ [= Hr]. move: Hr. rw /record_of. repeat case_match; intros; simplify_eq.
Qed.

(** The bytes of a record as a file may hold it. *)
Definition record_wire (c : bytes) (rec : Record_) : Prop :=
  exists args, frame_wire c args /\ record_of args = Ret rec.

Lemma replay_loop_sound fuel total now r res dst :
  (length (rest (br r)) < fuel)%nat -> LastValidOffset res = total - len (rest (br r)) ->
  exists res' err dst' cs recs tail,
    replay_loop fuel total now r res dst = Some (res', err, dst') /\
    rest (br r) = concat cs ++ tail /\ Forall2 record_wire cs recs /\
    Records res' = Records res + len recs /\ LastValidOffset res' = total - len tail /\
    ap_entries dst' = effects now (ap_entries dst) recs /\
    match err with
    | None => Truncated res' = Truncated res -> Truncated res = false -> tail = []
    | Some e => exists d, e = CorruptionError (LastValidOffset res') d
    end.
Proof.
  revert r res dst. induction fuel as [|fuel IH] => r res dst Hf Ho; [lia|]. cbn [replay_loop].
  destruct (Decode r) as [[rec|err] r1] eqn:Ed.
  - have Hp := Decode_progress _ _ _ Ed.
    destruct (Decode_inv _ _ _ Ed) as (_ & _ & Hc & args & c & Hrec & Hw & Hr).
    destruct (apply_spec rec now dst Hc) as (d1 & -> & He).
    destruct (IH r1 (mkResult (Records res + 1) (total - len (rest (br r1))) (Truncated res)) d1)
      as (res' & err & dst' & cs & recs & tail & E & Hr1 & Hws & Hn & Ho' & He' & Herr); [rw /len in Hp; lia|done|].
    exists res', err, dst', (c :: cs), (rec :: recs), tail. cbn [concat effects foldl Records] in *.
    split_and!; try done.
    + by rw Hr Hr1 app_assoc.
    + constructor; [by exists args|done].
    + rw len_cons. lia.
    + rw He' He //.
  - have Hbase res' err' : Records res' = Records res -> LastValidOffset res' = LastValidOffset res ->
        match err' with
        | None => Truncated res' = Truncated res -> Truncated res = false -> rest (br r) = []
        | Some e => exists d, e = CorruptionError (LastValidOffset res') d
        end ->
        exists res'' err dst' cs recs tail, Some (res', err', dst) = Some (res'', err, dst') /\
          rest (br r) = concat cs ++ tail /\ Forall2 record_wire cs recs /\
          Records res'' = Records res + len recs /\ LastValidOffset res'' = total - len tail /\
          ap_entries dst' = effects now (ap_entries dst) recs /\
          match err with
          | None => Truncated res'' = Truncated res -> Truncated res = false -> tail = []
          | Some e => exists d, e = CorruptionError (LastValidOffset res'') d
          end.
    { intros H1 H2 H3. exists res', err', dst, [], [], (rest (br r)). rw len_nil.
      split_and!; try done; [lia|by rw H2]. }
    destruct (is_eof err) eqn:Heof.
    { apply Hbase; [done..|]. intros _ _. by destruct err as [[]|]; try done; eapply Decode_eof. }
    destruct (is_incomplete_frame err); apply Hbase; try done; [simpl; by intros <-|by eexists].
Qed.

(** C22. Recovery always ends, on any file whatever. If the header is refused nothing is
    applied. Otherwise the file splits into a valid header, the wire form of a list of
    records and a tail; exactly these records have been applied, the reported count and
    offset are theirs, an error is a corruption at that offset, and success without a torn
    tail means nothing was left over. *)
Theorem replay_total_and_sound content now dst :
  exists res err dst', Replay (mkStream content EOF) now dst = Some (res, err, dst') /\
    ((exists e, err = Some (ReplayHeader e) /\ dst' = dst) \/
     (content = [] /\ res = mkResult 0 0 false /\ err = None /\ dst' = dst) \/
     exists hd cs recs tail,
       content = hd ++ concat cs ++ tail /\ len hd = HeaderSize /\ take 8 hd = magic /\
       be_uint32 (take 4 (drop 8 hd)) = FormatVersion /\
       Forall2 record_wire cs recs /\ ap_entries dst' = effects now (ap_entries dst) recs /\
       Records res = len recs /\ LastValidOffset res = len (hd ++ concat cs) /\
       match err with
       | None => Truncated res = false -> tail = []
       | Some e => exists d, e = CorruptionError (LastValidOffset res) d
       end).
Proof.
  rw /Replay /ReadHeader /ReadFull. cbn [rest fin].
  destruct (Z.leb_spec HeaderSize (len content)) as [Hl|Hl].
  2:{ destruct content; do 3 eexists; (split; [done|]); [by right; left|]. left. by eexists. }
  set hd := take (Z.to_nat HeaderSize) content. set body := drop (Z.to_nat HeaderSize) content.
  have Hhd : len hd = HeaderSize by rw /len length_take; rw /len /HeaderSize in Hl *; lia.
  case_bool_decide as Hm; cbn [negb]; [|do 3 eexists; split; [done|]; left; by eexists].
  case_cmp; cbn [negb]; [|do 3 eexists; split; [done|]; left; by eexists].
  cbn [rest]. have Ec : content = hd ++ body by rw take_drop.
  have Hlc : len content = HeaderSize + len body by rw {1}Ec len_app Hhd.
  destruct (replay_loop_sound (S (length body)) (len content) now (NewReader (mkStream body EOF) DefaultLimits)
    (mkResult 0 HeaderSize false) dst) as (res' & err & dst' & cs & recs & tail & E & Hr & Hw & Hn & Ho & He & Herr).
  { cbn [NewReader br rest]. lia. } { cbn [NewReader br rest LastValidOffset]. lia. }
  cbn [NewReader br rest Records Truncated] in *. exists res', err, dst'. split; [done|]. right; right.
  exists hd, cs, recs, tail. split_and!; try done; [by rw -Hr| |].
  - rw Ho Hlc len_app Hhd Hr len_app. lia.
  - destruct err; [done|]. intros Ht. by apply Herr.
Qed.

(** ** Opening *)

Definition ops_ok : file_ops := mkOps true true true true.

Lemma truncate_to_app a b : truncate_to (len a) (a ++ b) = a.
Proof.
  rw /truncate_to /len Nat2Z.id take_app_length length_app.
  rw (_ : length a - (length a + length b) = 0)%nat; [lia|]. by rw app_nil_r.
Qed.

Lemma log_file_offset recs : HeaderSize <= len (log_file recs).
Proof. rw /log_file len_app. have := len_nonneg (log_bytes recs). rw (_ : len EncodeHeader = HeaderSize) //. lia. Qed.

Lemma OpenFile_replayed content now dst kept q n t dst' : content = log_file kept ++ q ->
  Replay (mkStream content EOF) now dst = Some (mkResult n (len (log_file kept)) t, None, dst') ->
  OpenFile ops_ok content now dst =
    Some (Ret (mkOpened (log_file kept) (len (log_file kept))), mkResult n (len (log_file kept)) t, dst').
Proof.
  intros -> E. rw /OpenFile E. cbn [ops_ok op_open op_write op_truncate op_seek negb andb LastValidOffset].
  have Ho := log_file_offset kept. rw /HeaderSize in Ho.
  destruct (Z.eqb_spec (len (log_file kept)) 0); [lia|]. cbn [andb LastValidOffset]. by rw truncate_to_app.
Qed.

Lemma OpenFile_repairs recs content now dst : Forall readable recs ->
  content = [] \/ (content `prefix_of` log_file recs /\ HeaderSize <= len content) ->
  exists kept q res dst',
    ((content = [] /\ kept = []) \/ (survives recs kept q /\ content = log_file kept ++ q)) /\
    OpenFile ops_ok content now dst =
      Some (Ret (mkOpened (log_file kept) (len (log_file kept))), res, dst') /\
    Records res = len kept /\ ap_entries dst' = effects now (ap_entries dst) kept /\
    exists dst'',
      Replay (mkStream (log_file kept) EOF) now dst =
        Some (mkResult (len kept) (len (log_file kept)) false, None, dst'') /\
      ap_entries dst'' = ap_entries dst'.
Proof.
  intros Hf Hc.
  have Hagain kept d : Forall readable kept -> ap_entries d = effects now (ap_entries dst) kept ->
      exists dst'', Replay (mkStream (log_file kept) EOF) now dst =
        Some (mkResult (len kept) (len (log_file kept)) false, None, dst'') /\
      ap_entries dst'' = ap_entries d.
  { intros Hk He. destruct (Replay_tail kept [] sample_record now dst) as (d' & E & He');
      [done|apply sample_readable|apply prefix_nil|done|].
    rw app_nil_r in E. exists d'. rw E He' He. rw bool_decide_eq_false_2 //. intros H. by apply H. }
  destruct Hc as [->|[Hp Hl]].
  - exists [], [], (mkResult 0 HeaderSize false), dst.
    split_and!; [by left|by vm_compute|done|done|by apply Hagain].
  - destruct (cut_log recs content Hp Hl) as (kept & q & Hs & ->).
    destruct (Replay_cut recs kept q now dst Hf Hs) as (dst' & E & He).
    have Hk : Forall readable kept by destruct Hs as (lost & -> & _); apply Forall_app in Hf as [].
    do 4 eexists. split_and!; [by right|by eapply OpenFile_replayed|done|done|by apply Hagain].
Qed.

(** C23. Opening a log repairs it: on an empty file, or on a log of encodable records cut
    at any byte behind its header, [OpenFile] leaves in the file exactly the header and the
    complete records, positioned at its end, so that no half record stays behind; a later
    recovery of that file restores the same entries and finds no torn tail. *)
Theorem open_repairs recs content now dst : Forall readable recs ->
  content = [] \/ (content `prefix_of` log_file recs /\ HeaderSize <= len content) ->
  exists kept q res dst',
    ((content = [] /\ kept = []) \/ (survives recs kept q /\ content = log_file kept ++ q)) /\
    OpenFile ops_ok content now dst =
      Some (Ret (mkOpened (log_file kept) (len (log_file kept))), res, dst') /\
    Records res = len kept /\ ap_entries dst' = effects now (ap_entries dst) kept /\
    exists dst'',
      Replay (mkStream (log_file kept) EOF) now dst =
        Some (mkResult (len kept) (len (log_file kept)) false, None, dst'') /\
      ap_entries dst'' = ap_entries dst'.
Proof. apply OpenFile_repairs. Qed.
End replay_spec.

(** ** Examples and witnesses *)

Definition sample_log : list Record_ :=
  [DeriveSet (str "k") (str "old") 0 false;
   DeriveSet (str "k") (str "new") (5 * second) true;
   DeriveDel [str "a"; str "b"]].

Lemma sample_log_readable : Forall readable sample_log.
Proof.
  repeat (apply Forall_cons; split); [..|done];
    (split; [by rw /canonical /=; split_and!|]; split_and!; [by vm_compute..| |by vm_compute];
     by repeat constructor; vm_compute).
Qed.

(** The rule that is natural to get wrong: an expired record removes what it replaced. *)
Example expired_record_deletes :
  effects (9 * second) ∅ (take 2 sample_log) = ∅ /\
  effects (4 * second) ∅ (take 2 sample_log) !! str "k" = Some (str "new", Some (5 * second)).
Proof. split; vm_compute; reflexivity. Qed.

(** A log whose last record lost its last three bytes. *)
Definition cut_file : bytes := take (length (log_file sample_log) - 3) (log_file sample_log).

Lemma replay_after_crash_witness :
  exists kept q dst',
    survives sample_log kept q /\ cut_file = log_file kept ++ q /\
    Replay (mkStream cut_file EOF) 0 New =
      Some (mkResult (len kept) (len (log_file kept)) (bool_decide (q <> [])), None, dst') /\
    phys dst' = effects 0 (phys New) kept.
Proof.
  refine (replay_after_crash (D:=Store) sample_log cut_file 0 New _ _ _);
    [apply sample_log_readable|apply prefix_take|by vm_compute].
Defined.

Lemma replay_corruption_witness :
  exists dst',
    Replay (mkStream (log_file sample_log ++ enc_frame [str "FLUSH"] ++ str "x") EOF) 0 New =
      Some (mkResult 3 (len (log_file sample_log)) false,
            Some (CorruptionError (len (log_file sample_log)) (ErrCorrupt (UnknownVerb (str "FLUSH")))), dst').
Proof.
  refine (replay_refuses_corruption sample_log [str "FLUSH"] (str "x")
    (ErrCorrupt (UnknownVerb (str "FLUSH"))) 0 New sample_log_readable _ _); [|by vm_compute].
  split_and!; [by vm_compute..| |by vm_compute]. by repeat constructor; vm_compute.
Defined.

Lemma open_repairs_witness :
  exists kept q res dst',
    ((cut_file = [] /\ kept = []) \/ (survives sample_log kept q /\ cut_file = log_file kept ++ q)) /\
    OpenFile ops_ok cut_file 0 New =
      Some (Ret (mkOpened (log_file kept) (len (log_file kept))), res, dst') /\
    Records res = len kept /\ phys dst' = effects 0 (phys New) kept /\
    exists dst'',
      Replay (mkStream (log_file kept) EOF) 0 New =
        Some (mkResult (len kept) (len (log_file kept)) false, None, dst'') /\
      phys dst'' = phys dst'.
Proof.
  refine (open_repairs (D:=Store) sample_log cut_file 0 New _ _); [apply sample_log_readable|].
  right. split; [apply prefix_take|by vm_compute].
Defined.

(** Foreign files, other versions and cut headers are told apart. *)
Example headers_told_apart :
  (ReadHeader (mkStream [] EOF)).1 = Ret true /\
  (ReadHeader (mkStream (take 15 EncodeHeader) EOF)).1 = Fail ErrTruncatedHeader /\
  (ReadHeader (mkStream (str "REDIS0011 and more") EOF)).1 = Fail ErrNotAnAOF /\
  (ReadHeader (mkStream (magic ++ be_put32 258 ++ be_put32 0) EOF)).1 = Fail (UnsupportedVersionError 258).
Proof. split_and!; vm_compute; reflexivity. Qed.
