(* ===== verification/AofLog.v ===== *)
(** * The append-only log (src/internal/aof/log.go)

    [Log] holds what the mutex protects. The writer goroutine is a program counter ([pc])
    that moves between the points where it takes the mutex or calls the file; the file is
    the bytes it has taken and the prefix of them known to be on disk. Appends, [Close] and
    the writer interleave freely: [step] is one atomic action of any of them, and what the
    file and the operating system do (short writes, errors, failing syncs) is part of the
    step's label. [hist], the records appended so far, is the only ghost state. *)

From S2P Require Import Prelude.
From S2P Require Import GoLib.
From S2P Require Import Store.
From S2P Require Import RespWriter.
From S2P Require Import RespReader.
From S2P Require Import AofCodec.
From S2P Require Import AofReplay.

(** ** The log *)

Inductive Policy := EverySec | Always.

#[export] Instance Policy_eq_dec : EqDecision Policy.
Proof. solve_decision. Defined.

Definition syncInterval : Z := second.

(** [ErrFailed] joined with its cause. *)
Inductive failure := WriteError | SyncError | NegativeCount | NoProgress.

Inductive log_err :=
| ErrFailed (cause : failure)
| ErrClosed
| AppendEncode (e : encode_err)
| AppendFlush
| AppendEmpty.

Record pending := mkPending { p_seq : Z; p_end : Z }.

(** [w] is the RESP encoder over [buf]: its sink is the [bytes.Buffer]. [notify] is a
    channel of capacity one. [broadcasts] counts [cond.Broadcast], [fatals] the calls of
    [onFatal]. *)
Record Log := mkLog {
  policy : Policy;
  w : Writer bytes;
  records : list pending;
  nextSeq : Z;
  appended : Z;
  written : Z;
  synced : Z;
  failed : option failure;
  closing : bool;
  closed : bool;
  notify : bool;
  closeCh : bool;
  done_ : bool;
  fatals : nat;
  broadcasts : nat
}.

(** [l.buf] *)
Definition lbuf (l : Log) : bytes := bw_sink (w l).

Definition Open (p : Policy) : Log :=
  mkLog p (NewWriter []) [] 0 0 0 0 None false false false false false 0 0.

Definition Append (r : Record_) (l : Log) : result log_err Z * Log :=
  match failed l with
  | Some c => (Fail (ErrFailed c), l)
  | None =>
      if closing l || closed l then (Fail ErrClosed, l)
      else
        let before := len (lbuf l) in
        let set_w w' :=
          mkLog (policy l) w' (records l) (nextSeq l) (appended l) (written l) (synced l)
            (failed l) (closing l) (closed l) (notify l) (closeCh l) (done_ l) (fatals l) (broadcasts l) in
        match Encode r (w l) with
        | (Some e, w1) => (Fail (AppendEncode e), set_w w1)
        | (None, w1) =>
            let '(ok, w2) := Flush w1 in
            if negb ok then (Fail AppendFlush, set_w w2)
            else if len (bw_sink w2) =? before then (Fail AppendEmpty, set_w w2)
            else
              let n := wrapu 64 (nextSeq l + 1) in
              (Ret n,
               mkLog (policy l) w2 (records l ++ [mkPending n (len (bw_sink w2))]) n n
                 (written l) (synced l) (failed l) (closing l) (closed l) true (closeCh l)
                 (done_ l) (fatals l) (broadcasts l))
        end
  end.

Definition reached (seq : Z) (p : Policy) (l : Log) : bool :=
  match p with
  | Always => seq <=? synced l
  | EverySec => seq <=? written l
  end.

(** One turn of the loop of [Await]: the result it returns, or [None] to wait. *)
Definition Await (seq : Z) (p : Policy) (l : Log) : option (result log_err unit) :=
  match failed l with
  | Some c => Some (Fail (ErrFailed c))
  | None =>
      if reached seq p l then Some (Ret tt)
      else if closed l then Some (Fail ErrClosed) else None
  end.

Definition Markers (l : Log) : Z * Z * Z := (appended l, written l, synced l).
Definition Failed (l : Log) : option failure := failed l.

(** The critical section of [Close], and [close(l.closeCh)] behind its [closeOnce]. *)
Definition Close_lock (l : Log) : Log :=
  mkLog (policy l) (w l) (records l) (nextSeq l) (appended l) (written l) (synced l) (failed l)
    true (closed l) (notify l) (closeCh l) (done_ l) (fatals l) (broadcasts l).
Definition Close_signal (l : Log) : Log :=
  mkLog (policy l) (w l) (records l) (nextSeq l) (appended l) (written l) (synced l) (failed l)
    (closing l) (closed l) (notify l) true (done_ l) (fatals l) (broadcasts l).

(** ** The critical sections of the writer *)

(** [flush]: swap the batch out, unless the log has failed. *)
Definition swap (l : Log) : option (bytes * list pending) * Log :=
  match failed l with
  | Some _ => (None, l)
  | None =>
      (Some (lbuf l, records l),
       mkLog (policy l) (mkWriter (bw_buf (w l)) (bw_ok (w l)) []) [] (nextSeq l) (appended l)
         (written l) (synced l) (failed l) (closing l) (closed l) (notify l) (closeCh l)
         (done_ l) (fatals l) (broadcasts l))
  end.

Fixpoint advance_loop (n : Z) (recs : list pending) (wr : Z) : Z :=
  match recs with
  | [] => wr
  | r :: recs => if n <? p_end r then wr else advance_loop n recs (p_seq r)
  end.

Definition advanceWritten (recs : list pending) (n : Z) (l : Log) : Log :=
  mkLog (policy l) (w l) (records l) (nextSeq l) (appended l)
    (advance_loop n recs (written l)) (synced l) (failed l) (closing l) (closed l) (notify l)
    (closeCh l) (done_ l) (fatals l) (S (broadcasts l)).

Definition advanceSynced (l : Log) : Log :=
  mkLog (policy l) (w l) (records l) (nextSeq l) (appended l) (written l) (written l) (failed l)
    (closing l) (closed l) (notify l) (closeCh l) (done_ l) (fatals l) (S (broadcasts l)).

(** The critical section of [fail], and the call behind it: [fatalOnce] lets [onFatal] run
    once. *)
Definition fail (c : failure) (l : Log) : Log :=
  mkLog (policy l) (w l) (records l) (nextSeq l) (appended l) (written l) (synced l)
    (match failed l with None => Some c | f => f end)
    (closing l) (closed l) (notify l) (closeCh l) (done_ l) (fatals l) (S (broadcasts l)).
Definition report (l : Log) : Log :=
  mkLog (policy l) (w l) (records l) (nextSeq l) (appended l) (written l) (synced l) (failed l)
    (closing l) (closed l) (notify l) (closeCh l) (done_ l) (match fatals l with O => 1%nat | n => n end)
    (broadcasts l).

(** The critical section of [finish], and, once it has closed the file, the deferred
    [close(l.done)] of [run]. *)
Definition finish (l : Log) : Log :=
  mkLog (policy l) (w l) (records l) (nextSeq l) (appended l) (written l) (synced l) (failed l)
    (closing l) true (notify l) (closeCh l) (done_ l) (fatals l) (S (broadcasts l)).
Definition close_done (l : Log) : Log :=
  mkLog (policy l) (w l) (records l) (nextSeq l) (appended l) (written l) (synced l) (failed l)
    (closing l) (closed l) (notify l) (closeCh l) true (fatals l) (broadcasts l).

Definition take_notify (l : Log) : Log :=
  mkLog (policy l) (w l) (records l) (nextSeq l) (appended l) (written l) (synced l) (failed l)
    (closing l) (closed l) false (closeCh l) (done_ l) (fatals l) (broadcasts l).

(** ** The writer goroutine *)

(** Where the writer is. [force] is [forceSync]; [exiting] that this [flush] is the one
    [run] performs on [closeCh]. *)
Inductive pc :=
| Select
| FlushStart (force exiting : bool)
| Delivering (force exiting : bool) (batch : bytes) (recs : list pending) (total : Z)
| Advancing (force exiting : bool) (recs : list pending) (n : Z) (err : option failure)
| Failing (exiting : bool) (c : failure)
| Reporting (exiting : bool)
| Syncing (exiting : bool)
| Synced (exiting : bool)
| Finishing
| FileClosing
| Exited.

(** The file: what the operating system has taken, and what is known to be on disk. *)
Record sys := mkSys {
  lg : Log;
  at_ : pc;
  lastSync : Z;
  file : bytes;
  disk : bytes;
  hist : list Record_
}.

Definition sys0 (p : Policy) (now : Z) (content on_disk : bytes) : sys :=
  mkSys (Open p) Select now content on_disk [].

(** What [flush] returns to. *)
Definition after_flush (exiting : bool) : pc := if exiting then Finishing else Select.
(** [if !forceSync && l.policy != Always] *)
Definition after_write (force exiting : bool) (l : Log) : pc :=
  if negb force && negb (bool_decide (policy l = Always)) then after_flush exiting
  else Syncing exiting.

(** One call of [f.Write] inside [writeFull] returned [n] and maybe an error: the new
    total, and the verdict if the loop ends. *)
Definition writeFull_turn (total n : Z) (ok : bool) : Z * option failure * bool :=
  if n <? 0 then (total, Some NegativeCount, true)
  else
    let total := total + n in
    if negb ok then (total, Some WriteError, true)
    else if n =? 0 then (total, Some NoProgress, true)
    else (total, None, false).

Inductive label :=
| LAppend (r : Record_)
| LCloseLock
| LCloseSignal
| LNotify
| LTick (now : Z)
| LSeeClose
| LSwap
| LWrite (n : Z) (ok : bool)
| LDelivered
| LAdvanceWritten
| LFail
| LReport
| LSync (ok : bool) (kept : bytes)
| LAdvanceSynced
| LFinish
| LExit
| LClock (t : Z).

Definition with_lg (s : sys) (l : Log) : sys :=
  mkSys l (at_ s) (lastSync s) (file s) (disk s) (hist s).
Definition goto (s : sys) (l : Log) (p : pc) : sys :=
  mkSys l p (lastSync s) (file s) (disk s) (hist s).

(** Every atomic action, as a function; [None] where it is not enabled. *)
Definition act (a : label) (s : sys) : option sys :=
  let l := lg s in
  match a, at_ s with
  | LAppend r, _ =>
      match Append r l with
      | (Ret _, l') => Some (mkSys l' (at_ s) (lastSync s) (file s) (disk s) (hist s ++ [r]))
      | (Fail _, l') => Some (with_lg s l')
      end
  | LCloseLock, _ => Some (with_lg s (Close_lock l))
  | LCloseSignal, _ => if closing l then Some (with_lg s (Close_signal l)) else None
  | LNotify, Select => if notify l then Some (goto s (take_notify l) (FlushStart false false)) else None
  | LTick now, Select =>
      if syncInterval <=? time_Sub now (lastSync s)
      then Some (mkSys l (FlushStart true false) now (file s) (disk s) (hist s))
      else Some s
  | LSeeClose, Select => if closeCh l then Some (goto s l (FlushStart true true)) else None
  | LClock t, Select =>
      (* [if l.policy == Always { lastSync = time.Now() }] *)
      if bool_decide (policy l = Always)
      then Some (mkSys l Select t (file s) (disk s) (hist s)) else None
  | LSwap, FlushStart force exiting =>
      match swap l with
      | (None, l) => Some (goto s l (after_flush exiting))
      | (Some (batch, recs), l) =>
          Some (goto s l (if 0 <? len batch then Delivering force exiting batch recs 0
                          else after_write force exiting l))
      end
  | LWrite n ok, Delivering force exiting batch recs total =>
      if (total <? len batch) && (n <=? len batch - total) then
        let '(total', err, stop) := writeFull_turn total n ok in
        let file' := file s ++ take (Z.to_nat n) (drop (Z.to_nat total) batch) in
        Some (mkSys l (if stop then Advancing force exiting recs total' err
                       else Delivering force exiting batch recs total')
                (lastSync s) file' (disk s) (hist s))
      else None
  | LDelivered, Delivering force exiting batch recs total =>
      if total <? len batch then None
      else Some (goto s l (Advancing force exiting recs total None))
  | LAdvanceWritten, Advancing force exiting recs n err =>
      let l := advanceWritten recs n l in
      Some (goto s l (match err with
                      | Some c => Failing exiting c
                      | None => after_write force exiting l
                      end))
  | LFail, Failing exiting c => Some (goto s (fail c l) (Reporting exiting))
  | LReport, Reporting exiting => Some (goto s (report l) (after_flush exiting))
  | LSync ok kept, Syncing exiting =>
      (* a failed sync may have reached the disk in part *)
      if ok then Some (mkSys l (Synced exiting) (lastSync s) (file s) (file s) (hist s))
      else if bool_decide (disk s `prefix_of` kept) && bool_decide (kept `prefix_of` file s)
      then Some (mkSys l (Failing exiting SyncError) (lastSync s) (file s) kept (hist s))
      else None
  | LAdvanceSynced, Synced exiting => Some (goto s (advanceSynced l) (after_flush exiting))
  | LFinish, Finishing => Some (goto s (finish l) FileClosing)
  | LExit, FileClosing => Some (goto s (close_done l) Exited)
  | _, _ => None
  end.

Definition step (s s' : sys) : Prop := exists a, act a s = Some s'.
Definition reachable (p : Policy) (now : Z) (content on_disk : bytes) (s : sys) : Prop :=
  rtc step (sys0 p now content on_disk) s.

(** ** The invariant *)

(** The entries of [records] for the records [h], the first of which follows [seq] records
    and starts at byte [off] of the batch. *)
Fixpoint pendings (seq off : Z) (h : list Record_) : list pending :=
  match h with
  | [] => []
  | r :: h =>
      mkPending (seq + 1) (off + len (enc_record r)) :: pendings (seq + 1) (off + len (enc_record r)) h
  end.

Definition at_flush (p : pc) : Prop := match p with FlushStart _ _ => True | _ => False end.

(** [closed] has been set. *)
Definition has_left (p : pc) : Prop := match p with FileClosing | Exited => True | _ => False end.

(** Between a write of the batch and the advance of the marker behind it. *)
Definition delivering (p : pc) : bool :=
  match p with Delivering _ _ _ _ _ | Advancing _ _ _ _ _ => true | _ => false end.

(** How often [onFatal] has been called. *)
Definition reporting (p : pc) : bool := match p with Reporting _ => true | _ => false end.
Definition reports (f : option failure) (p : pc) : nat :=
  match f with None => 0%nat | Some _ => if reporting p then 0%nat else 1%nat end.

(** What holds at each point of the writer, when the appended records are [h1], delivered
    and marked, [h2], in the writer's hands, and [h3], in the buffer, and [q] are the bytes
    of [h2] delivered so far. *)
Definition pc_inv (s : sys) (h1 h2 h3 : list Record_) (q : bytes) : Prop :=
  let l := lg s in
  let leaving (ex : bool) := ex = true -> closing l = true /\ h3 = [] in
  let idle := failed l = None -> h2 = [] /\ (policy l = Always -> synced l = written l) in
  match at_ s with
  | Select => idle
  | FlushStart force ex => idle /\ (ex = true -> force = true /\ closing l = true)
  | Delivering force ex batch recs total =>
      failed l = None /\ batch = log_bytes h2 /\ recs = pendings (len h1) 0 h2 /\
      0 <= total <= len batch /\ q = take (Z.to_nat total) batch /\ leaving ex /\ (ex = true -> force = true)
  | Advancing force ex recs n err =>
      failed l = None /\ recs = pendings (len h1) 0 h2 /\ n = len q /\
      (err = None -> q = log_bytes h2) /\ leaving ex /\ (ex = true -> force = true)
  | Failing ex _ => failed l = None /\ leaving ex
  | Reporting ex => failed l <> None /\ (ex = true -> closing l = true)
  | Syncing ex => failed l = None /\ h2 = [] /\ leaving ex
  | Synced ex => failed l = None /\ h2 = [] /\ disk s = file s /\ leaving ex
  | Finishing | FileClosing | Exited =>
      closing l = true /\
      (failed l = None -> h2 = [] /\ h3 = [] /\ synced l = written l /\ disk s = file s)
  end.

Record ginv (content : bytes) (s : sys) (h1 h2 h3 : list Record_) (q : bytes) : Prop := mkGinv {
  i_hist : hist s = h1 ++ h2 ++ h3;
  i_w : w (lg s) = mkWriter [] true (log_bytes h3);
  i_records : records (lg s) = pendings (len (h1 ++ h2)) 0 h3;
  i_next : nextSeq (lg s) = len (hist s) /\ appended (lg s) = len (hist s);
  i_written : written (lg s) = len h1;
  i_synced : 0 <= synced (lg s) <= len h1;
  i_file : file s = content ++ log_bytes h1 ++ q;
  i_q : q `prefix_of` log_bytes h2;
  i_disk : disk s `prefix_of` file s;
  i_durable : synced (lg s) = 0 \/
    content ++ log_bytes (take (Z.to_nat (synced (lg s))) (hist s)) `prefix_of` disk s;
  i_part : delivering (at_ s) = false -> match h2 with [] => True | r :: _ => len q < len (enc_record r) end;
  i_fatals : fatals (lg s) = reports (failed (lg s)) (at_ s);
  i_notify : failed (lg s) = None -> h3 = [] \/ notify (lg s) = true \/ at_flush (at_ s);
  i_close : closeCh (lg s) = true -> closing (lg s) = true;
  i_closed : closed (lg s) = true <-> has_left (at_ s);
  i_pc : pc_inv s h1 h2 h3 q
}.
Definition inv (content : bytes) (s : sys) : Prop := exists h1 h2 h3 q, ginv content s h1 h2 h3 q.

(** ** Batches *)

Lemma log_bytes_app a b : log_bytes (a ++ b) = log_bytes a ++ log_bytes b.
Proof. apply concat_fmap_app. Qed.

Lemma log_bytes_one r : log_bytes [r] = enc_record r.
Proof. by rw /log_bytes fmap_cons concat_cons fmap_nil concat_nil app_nil_r. Qed.

Lemma log_bytes_nil_inv h : log_bytes h = [] -> h = [].
Proof. intros E. have := log_bytes_length h. rw E /=. destruct h; [done|simpl; lia]. Qed.

Lemma pendings_app seq off a b :
  pendings seq off (a ++ b) = pendings seq off a ++ pendings (seq + len a) (off + len (log_bytes a)) b.
Proof.
  revert seq off. induction a as [|r a IH] => seq off; [by rw /= !Z.add_0_r|].
  cbn [pendings app]. rw IH /log_bytes fmap_cons concat_cons len_app len_cons.
  by rw !Z.add_assoc.
Qed.

(** The records whose end lies within the first [n] bytes of a batch. *)
Lemma advance_loop_spec h seq off q : q `prefix_of` log_bytes h ->
  exists a b q', h = a ++ b /\ q = log_bytes a ++ q' /\ q' `prefix_of` log_bytes b /\
    advance_loop (off + len q) (pendings seq off h) seq = seq + len a /\
    (q = log_bytes h -> b = []) /\ match b with [] => True | r :: _ => len q' < len (enc_record r) end.
Proof.
  revert seq off q. induction h as [|r h IH] => seq off q Hq.
  { apply prefix_nil_inv in Hq as ->. exists [], [], []. rw len_nil /= Z.add_0_r. done. }
  cbn [pendings advance_loop p_end p_seq]. case_cmp.
  - exists [], (r :: h), q. rw len_nil Z.add_0_r. split_and!; try done; [|lia]. intros ->.
    rw /log_bytes fmap_cons concat_cons len_app in H. pose proof (len_nonneg (concat (enc_record <$> h))). lia.
  - rw /log_bytes fmap_cons concat_cons in Hq. have Hr : enc_record r `prefix_of` q.
    { destruct (prefix_weak_total (enc_record r) q (enc_record r ++ concat (enc_record <$> h))) as [?|Hp];
        [by apply prefix_app_r|done|done|].
      destruct Hp as [k Hk]. have : len k = 0. { apply (f_equal len) in Hk. rw len_app in Hk.
        have := len_nonneg k. lia. }
      rw /len. destruct k; [|simpl; lia]. by rw Hk app_nil_r. }
    destruct Hr as [q1 ->]. apply prefix_app_inv in Hq.
    destruct (IH (seq + 1) (off + len (enc_record r)) q1 Hq) as (a & b & q' & -> & -> & Hq' & E & Hall & Hpart).
    exists (r :: a), b, q'. rw /log_bytes fmap_cons concat_cons -/(log_bytes a) -app_assoc. split_and!; try done.
    + rw (len_app (enc_record r)) Z.add_assoc E len_cons. lia.
    + rw fmap_cons concat_cons. intros Heq%app_inv_head. by apply Hall.
Qed.

(** ** Appending *)

(** An append either fails and changes nothing, or appends the record's bytes to the buffer
    and takes the next sequence number. *)
Lemma Append_spec r l b : w l = mkWriter [] true b ->
  (exists e, Append r l = (Fail e, l)) \/
  (failed l = None /\ closing l = false /\ closed l = false /\ encodable r /\
   let n := wrapu 64 (nextSeq l + 1) in
   Append r l =
     (Ret n, mkLog (policy l) (mkWriter [] true (b ++ enc_record r))
        (records l ++ [mkPending n (len b + len (enc_record r))]) n n (written l) (synced l) None
        false false true (closeCh l) (done_ l) (fatals l) (broadcasts l))).
Proof.
  intros Hw. rw /Append /lbuf Hw. destruct (failed l) eqn:Hf; [by left; eexists|].
  destruct (closing l) eqn:Hc; [by left; eexists|].
  destruct (closed l) eqn:Hd; [by left; eexists|]. cbn [orb].
  destruct (decide (encodable r)) as [He|He].
  - right. destruct (Encode_buffer r b He) as (w1 & -> & ->). cbn [negb bw_sink].
    rw len_app. have Hne := enc_record_nonempty r.
    destruct (Z.eqb_spec (len b + len (enc_record r)) (len b)) as [E|_]; [rw /len in E; lia|].
    by split_and!.
  - left. destruct (Encode_refuses r (mkWriter [] true b) He) as [c ->]. eexists.
    destruct l. simpl in *. by subst.
Qed.

(** ** Preservation *)

Ltac ginv_ H :=
  let Hh := fresh "Hhist" in let Hw := fresh "Hw" in let Hr := fresh "Hrecs" in
  let Hn := fresh "Hnext" in let Hwr := fresh "Hwritten" in let Hs := fresh "Hsynced" in
  let Hf := fresh "Hfile" in let Hq := fresh "Hq" in let Hd := fresh "Hdisk" in
  let Hdu := fresh "Hdur" in let Hpa := fresh "Hpart" in let Hfa := fresh "Hfatal" in let Hno := fresh "Hnotify" in
  let Hcl := fresh "Hclose" in let Hcd := fresh "Hclosed" in let Hpc := fresh "Hpc" in
  destruct H as [Hh Hw Hr Hn Hwr Hs Hf Hq Hd Hdu Hpa Hfa Hno Hcl Hcd Hpc].

Lemma inv_append content s r s' : inv content s -> act (LAppend r) s = Some s' ->
  len (hist s') <= maxUint64 -> inv content s'.
Proof.
  intros (h1 & h2 & h3 & q & Hi) Ha Hmax. move: Ha. rw /act.
  destruct (Append_spec r (lg s) (log_bytes h3)) as [[e ->]|(Hfl & Hcl & Hcd & _ & ->)]; [apply Hi| |].
  { intros [= <-]. rw /with_lg. exists h1, h2, h3, q. by destruct s. }
  intros [= <-]. cbn [hist] in Hmax. ginv_ Hi. destruct Hnext as [Hn1 Hn2].
  have Hn : wrapu 64 (nextSeq (lg s) + 1) = len (hist s ++ [r]).
  { rw /wrapu Hn1 Z.mod_small ?len_app //. rw len_app /= in Hmax. have := len_nonneg (hist s).
    rw /maxUint64 in Hmax. rw /len /= in Hmax *. lia. }
  exists h1, h2, (h3 ++ [r]), q. rw Hn. split; cbn [lg at_ file disk hist w records nextSeq appended
    written synced failed closing closed notify closeCh done_ fatals]; try done.
  - by rw Hhist !app_assoc.
  - by rw log_bytes_app log_bytes_one.
  - rw Hrecs pendings_app. cbn [pendings]. rw !len_app Hhist !len_app len_cons len_nil.
    f_equal. f_equal. f_equal; lia.
  - destruct Hdur as [?|Hp]; [by left|right]. rw take_app_le //. rw Hhist !length_app. rw /len in Hsynced. lia.
  - by rw Hfatal Hfl.
  - by right; left.
  - intros Hc. specialize (Hclose Hc). congruence.
  - split; [done|]. intros E. apply Hclosed in E. congruence.
  - move: Hpc. rw /pc_inv. cbn [lg at_ failed closing file disk]. destruct (at_ s) eqn:Hat;
      rw ?Hfl ?Hcl; naive_solver.
Qed.

Ltac sys_cbn :=
  cbn [lg at_ lastSync file disk hist w records nextSeq appended written synced failed closing closed
       notify closeCh done_ fatals broadcasts policy goto with_lg take_notify Close_lock Close_signal
       advanceWritten advanceSynced fail report finish close_done at_flush] in *.

(** A write of [n] bytes at [total] extends what the file holds of the batch. *)
Lemma take_more {A} (l : list A) t n : 0 <= t -> 0 <= n ->
  take (Z.to_nat t) l ++ take (Z.to_nat n) (drop (Z.to_nat t) l) = take (Z.to_nat (t + n)) l.
Proof. intros Ht Hn. rw take_take_drop. f_equal. lia. Qed.

Lemma open_iff (b : bool) p p' : (b = true <-> has_left p) -> ~ has_left p -> ~ has_left p' -> (b = true <-> has_left p').
Proof. naive_solver. Qed.

Lemma after_flush_open ex : ~ has_left (after_flush ex).
Proof. destruct ex; by intros []. Qed.

Lemma after_write_open force ex l : ~ has_left (after_write force ex l).
Proof. rw /after_write. destruct (_ && _), ex; by intros []. Qed.

(** The places a flush returns to are no place to report or to deliver. *)
Lemma after_flush_quiet ex : reporting (after_flush ex) = false /\ delivering (after_flush ex) = false.
Proof. by destruct ex. Qed.

Lemma after_write_quiet force ex l :
  reporting (after_write force ex l) = false /\ delivering (after_write force ex l) = false.
Proof. rw /after_write. by destruct (_ && _), ex. Qed.

Lemma reports_quiet f p p' : reporting p = false -> reporting p' = false -> reports f p = reports f p'.
Proof. rw /reports. by intros -> ->. Qed.

(** Closes the parts of the invariant about reports and partial records when a step leads
    from one quiet place of the writer to another. *)
Ltac quiet Hpart Hfatal :=
  try (intros _; by apply Hpart);
  try (rw Hfatal;
       try match goal with H : failed (lg _) = _ |- _ => rw ?H end;
       first [done | apply reports_quiet; first [done | apply after_flush_quiet | apply after_write_quiet]]).

Lemma inv_swap content s s' : inv content s -> act LSwap s = Some s' -> inv content s'.
Proof.
  intros (h1 & h2 & h3 & q & Hi) Ha. ginv_ Hi. move: Ha. rw /act.
  destruct (at_ s) as [|force ex| | | | | | | | |] eqn:Hat; try done.
  rw /pc_inv Hat in Hpc. destruct Hpc as [Hh2 Hex]. rw /swap. destruct (failed (lg s)) as [c|] eqn:Hfl.
  - intros [= <-]. exists h1, h2, h3, q. split; sys_cbn; try done; quiet Hpart Hfatal.
    + by rw Hfl.
    + apply (open_iff _ _ _ Hclosed); [by intros []|apply after_flush_open].
    + rw /pc_inv. cbn [goto at_ lg]. destruct ex; cbn [after_flush]; [|by rw Hfl].
      split; [by apply Hex|by rw Hfl].
  - destruct Hh2 as [Hh2 Hal]; [done|]. rw Hh2 in Hhist Hq Hrecs *. apply prefix_nil_inv in Hq as ->. rw app_nil_r in Hfile Hrecs.
    rw /lbuf Hw Hrecs. cbn [bw_buf bw_ok bw_sink]. intros [= <-].
    exists h1, h3, [], []. split; sys_cbn; try done.
    + by rw app_nil_r.
    + by rw app_nil_r.
    + apply prefix_nil.
    + intros _. destruct h3 as [|r h3]; [done|]. have := enc_record_nonempty r. rw /len /=. lia.
    + by left.
    + apply (open_iff _ _ _ Hclosed); [by intros []|]. destruct (0 <? _); [by intros []|]. apply after_write_open.
    + have Hl : forall ex', ex' = ex -> ex' = true -> closing (lg s) = true /\ @nil Record_ = [].
      { intros ? -> He. split; [by apply Hex|done]. }
      rw /pc_inv. sys_cbn. destruct (Z.ltb_spec 0 (len (log_bytes h3))) as [Hpos|Hz].
      * split_and!; try done; try lia; [by rw app_nil_r|by apply Hl|intros He; by apply Hex].
      * have E : h3 = [].
        { apply log_bytes_nil_inv. have := len_nonneg (log_bytes h3). rw /len in Hz *.
          destruct (log_bytes h3); [done|simpl in *; lia]. }
        subst h3. rw /after_write. sys_cbn. destruct ex.
        -- destruct Hex as [-> Hc]; [done|]. by split_and!.
        -- destruct (negb force && _) eqn:Hpol; cbn [after_flush]; [|by split_and!].
           intros _. split; [done|]. intros Hp. by rw Hp /= andb_false_r in Hpol.
Qed.

Lemma inv_write content s n ok s' : inv content s -> act (LWrite n ok) s = Some s' -> inv content s'.
Proof.
  intros (h1 & h2 & h3 & q & Hi) Ha. ginv_ Hi. move: Ha. rw /act.
  destruct (at_ s) as [| |force ex batch recs total| | | | | | | |] eqn:Hat; try done.
  rw /pc_inv Hat in Hpc. destruct Hpc as (Hfl & Eb & Er & Ht & Eq & Hl & Hex).
  destruct (Z.ltb_spec total (len batch)) as [Hlt|]; [|done]. cbn [andb].
  destruct (Z.leb_spec n (len batch - total)) as [Hn|]; [|done].
  set (more := take (Z.to_nat n) (drop (Z.to_nat total) batch)).
  have Hm : q ++ more = take (Z.to_nat (total + Z.max 0 n)) batch.
  { rw Eq /more. rw (_ : Z.to_nat n = Z.to_nat (Z.max 0 n)); [lia|]. by apply take_more; lia. }
  have Hlen : len (q ++ more) = total + Z.max 0 n.
  { rw Hm /len length_take. rw /len in Hlt Hn Ht. lia. }
  have Hpre : q ++ more `prefix_of` log_bytes h2 by rw Hm Eb; apply prefix_take.
  have Hgo p : delivering p = true ->
      pc_inv (mkSys (lg s) p (lastSync s) (file s ++ more) (disk s) (hist s)) h1 h2 h3 (q ++ more) ->
      inv content (mkSys (lg s) p (lastSync s) (file s ++ more) (disk s) (hist s)).
  { intros Hp Hpc. exists h1, h2, h3, (q ++ more). split; sys_cbn; try done.
    - by rw Hfile -!app_assoc.
    - by apply prefix_app_r.
    - by rw Hp.
    - rw Hfatal. apply reports_quiet; [done|by destruct p].
    - intros H. by destruct (Hnotify H) as [?|[?|Hf]]; [left|right; left|].
    - apply (open_iff _ _ _ Hclosed); [by intros []|by destruct p; try intros []]. }
  rw /writeFull_turn. destruct (Z.ltb_spec n 0) as [Hneg|Hpos].
  { intros [= <-]. apply Hgo; [done|]. rw /pc_inv. sys_cbn. split_and!; try done; lia. }
  destruct ok; cbn [negb].
  2:{ intros [= <-]. apply Hgo; [done|]. rw /pc_inv. sys_cbn. split_and!; try done; lia. }
  destruct (Z.eqb_spec n 0) as [->|Hnz].
  { intros [= <-]. apply Hgo; [done|]. rw /pc_inv. sys_cbn. split_and!; try done; lia. }
  intros [= <-]. apply Hgo; [done|]. rw /pc_inv. sys_cbn. split_and!; try done; try lia.
  by rw Hm Z.max_r.
Qed.

Lemma inv_advance content s s' : inv content s -> act LAdvanceWritten s = Some s' -> inv content s'.
Proof.
  intros (h1 & h2 & h3 & q & Hi) Ha. ginv_ Hi. move: Ha. rw /act.
  destruct (at_ s) as [| | |force ex recs n err| | | | | | |] eqn:Hat; try done.
  rw /pc_inv Hat in Hpc. destruct Hpc as (Hfl & -> & -> & Hall & Hl & Hex). intros [= <-].
  destruct (advance_loop_spec h2 (len h1) 0 q Hq) as (a & b & q' & -> & -> & Hq' & E & Hb & Hpart').
  rw Z.add_0_l in E. exists (h1 ++ a), b, h3, q'. split; sys_cbn; try done.
  - by rw Hhist !app_assoc.
  - by rw Hrecs !app_assoc.
  - by rw Hwritten E len_app.
  - rw len_app. have := len_nonneg a. lia.
  - by rw Hfile log_bytes_app -!app_assoc.
  - rw Hfatal Hfl. done.
  - intros H. destruct (Hnotify H) as [?|[?|[]]]; [by left|by right; left].
  - apply (open_iff _ _ _ Hclosed); [by intros []|]. destruct err; [by intros []|apply after_write_open].
  - rw /pc_inv. sys_cbn. destruct err as [c|]; [done|]. have -> : b = [] by apply Hb, Hall.
    rw /after_write. sys_cbn. destruct ex; cbn [after_flush].
    + rw Hex //=.
    + destruct (negb force && _) eqn:Hpol; cbn [after_flush]; [|done].
      intros _. split; [done|]. intros Hp. by rw Hp /= andb_false_r in Hpol.
Qed.

Lemma inv_sync content s ok kept s' : inv content s -> act (LSync ok kept) s = Some s' -> inv content s'.
Proof.
  intros (h1 & h2 & h3 & q & Hi) Ha. ginv_ Hi. move: Ha. rw /act.
  destruct (at_ s) as [| | | | | |ex| | | |] eqn:Hat; try done. rw /pc_inv Hat in Hpc.
  destruct Hpc as (Hfl & -> & Hl).
  have Hn : failed (lg s) = None -> h3 = [] \/ notify (lg s) = true \/ False.
  { intros H. by destruct (Hnotify H) as [?|[?|[]]]; [left|right; left]. }
  destruct ok.
  - intros [= <-]. exists h1, [], h3, q. split; sys_cbn; try done.
    destruct Hdur as [?|Hd]; [by left|right; by etrans].
  - case_bool_decide as H1; [|done]. case_bool_decide as H2; [|done]. cbn [andb]. intros [= <-].
    exists h1, [], h3, q. split; sys_cbn; try done.
    destruct Hdur as [?|Hd]; [by left|right; by etrans].
Qed.

Lemma inv_advance_synced content s s' : inv content s -> act LAdvanceSynced s = Some s' -> inv content s'.
Proof.
  intros (h1 & h2 & h3 & q & Hi) Ha. ginv_ Hi. move: Ha. rw /act.
  destruct (at_ s) as [| | | | | | |ex| | |] eqn:Hat; try done. rw /pc_inv Hat in Hpc.
  destruct Hpc as (Hfl & -> & Hdf & Hl). intros [= <-]. apply prefix_nil_inv in Hq as ->.
  have := len_nonneg h1 => Hnn. exists h1, [], h3, []. split; sys_cbn; try done.
  - lia.
  - right. rw Hwritten Hhist Hdf Hfile app_nil_r /len Nat2Z.id take_app_length. done.
  - rw Hfatal. apply reports_quiet; [done|apply after_flush_quiet].
  - intros H. by destruct (Hnotify H) as [?|[?|[]]]; [left|right; left].
  - apply (open_iff _ _ _ Hclosed); [by intros []|apply after_flush_open].
  - rw /pc_inv. sys_cbn. destruct ex; cbn [after_flush]; [|done].
    destruct Hl as [Hc ->]; [done|]. by split_and!.
Qed.

Lemma inv_fail content s s' : inv content s -> act LFail s = Some s' -> inv content s'.
Proof.
  intros (h1 & h2 & h3 & q & Hi) Ha. ginv_ Hi. move: Ha. rw /act.
  destruct (at_ s) as [| | | |ex c| | | | | |] eqn:Hat; try done. rw /pc_inv Hat in Hpc.
  destruct Hpc as (Hfl & Hl). intros [= <-]. exists h1, h2, h3, q. split; sys_cbn; try done.
  - by rw Hfatal Hfl.
  - by rw Hfl.
  - rw /pc_inv. sys_cbn. rw Hfl. split; [done|]. intros He. by apply Hl.
Qed.

Lemma inv_report content s s' : inv content s -> act LReport s = Some s' -> inv content s'.
Proof.
  intros (h1 & h2 & h3 & q & Hi) Ha. ginv_ Hi. move: Ha. rw /act.
  destruct (at_ s) as [| | | | |ex| | | | |] eqn:Hat; try done. rw /pc_inv Hat in Hpc.
  destruct Hpc as (Hfl & Hl). destruct (failed (lg s)) as [c|] eqn:Hf; [|done].
  intros [= <-]. exists h1, h2, h3, q. split; sys_cbn; try done.
  - intros _. by apply Hpart.
  - rw Hfatal Hf. cbn. by destruct ex.
  - by rw Hf.
  - apply (open_iff _ _ _ Hclosed); [by intros []|apply after_flush_open].
  - rw /pc_inv. sys_cbn. rw Hf. destruct ex; cbn [after_flush]; [|done]. split; [by apply Hl|done].
Qed.

(** Closes what a step leaves as it was. *)
Ltac keep Hclosed := try done; try by apply (open_iff _ _ _ Hclosed); intros [].

(** The steps that move neither records nor bytes. *)
Lemma inv_control content s a s' :
  match a with
  | LCloseLock | LCloseSignal | LNotify | LTick _ | LSeeClose | LDelivered | LFinish | LExit | LClock _ => True
  | _ => False
  end -> inv content s -> act a s = Some s' -> inv content s'.
Proof.
  intros Hctl (h1 & h2 & h3 & q & Hi) Ha. ginv_ Hi. rw /pc_inv in Hpc. destruct a; try done; move: Ha; rw /act.
  - intros [= <-]. exists h1, h2, h3, q. split; sys_cbn; keep Hclosed. rw /pc_inv. sys_cbn.
    destruct (at_ s); naive_solver.
  - destruct (closing (lg s)) eqn:Hc; [|done]. intros [= <-]. exists h1, h2, h3, q.
    split; sys_cbn; keep Hclosed. rw /pc_inv. sys_cbn. destruct (at_ s); naive_solver.
  - destruct (at_ s) eqn:Hat; try done. destruct (notify (lg s)); [|done]. intros [= <-].
    exists h1, h2, h3, q. split; sys_cbn; keep Hclosed; by auto.
  - destruct (at_ s) eqn:Hat; try done. case_cmp; intros [= <-]; exists h1, h2, h3, q; split; sys_cbn; rw ?Hat; keep Hclosed; try (by auto); by rw /pc_inv Hat.
  - destruct (at_ s) eqn:Hat; try done. destruct (closeCh (lg s)) eqn:Hcc; [|done]. intros [= <-].
    exists h1, h2, h3, q. split; sys_cbn; keep Hclosed; [by auto|by auto|]. rw /pc_inv. sys_cbn. split; [done|].
    intros _. split; [done|by apply Hclose].
  - destruct (at_ s) eqn:Hat; try done. destruct (Z.ltb_spec total (len batch)); [done|]. intros [= <-].
    exists h1, h2, h3, q. split; sys_cbn; keep Hclosed. destruct Hpc as (Hf & -> & -> & Ht & -> & Hl & Hex).
    rw /pc_inv. sys_cbn. have E : total = len (log_bytes h2) by lia. split_and!; try done.
    + rw E /len Nat2Z.id firstn_all //.
    + intros _. rw E /len Nat2Z.id firstn_all //.
  - destruct (at_ s) eqn:Hat; try done. intros [= <-]. exists h1, h2, h3, q. split; sys_cbn; keep Hclosed.
  - destruct (at_ s) eqn:Hat; try done. intros [= <-]. exists h1, h2, h3, q. split; sys_cbn; keep Hclosed.
  - destruct (at_ s) eqn:Hat; try done. case_bool_decide; [|done]. intros [= <-].
    exists h1, h2, h3, q. split; sys_cbn; keep Hclosed.
Qed.

Lemma inv_step content s s' : inv content s -> step s s' -> len (hist s') <= maxUint64 -> inv content s'.
Proof.
  intros Hi [a Ha] Hm. destruct a; try (by eapply inv_control; [| |exact Ha]).
  - by eapply inv_append.
  - by eapply inv_swap.
  - by eapply inv_write.
  - by eapply inv_advance.
  - by eapply inv_fail.
  - by eapply inv_report.
  - by eapply inv_sync.
  - by eapply inv_advance_synced.
Qed.

Lemma step_hist s s' : step s s' -> hist s `prefix_of` hist s'.
Proof.
  intros [a Ha]. move: Ha. rw /act. destruct a, (at_ s); try done;
    repeat case_match; intros; simplify_eq; cbn [hist with_lg goto]; try done; by apply prefix_app_r.
Qed.

Lemma inv_init content on_disk p now : on_disk `prefix_of` content ->
  inv content (sys0 p now content on_disk).
Proof.
  intros Hd. exists [], [], [], []. split; cbn; try done; [by rw app_nil_r|by left|by left].
Qed.

Lemma inv_reachable content on_disk p now s : on_disk `prefix_of` content ->
  reachable p now content on_disk s -> len (hist s) <= maxUint64 -> inv content s.
Proof.
  intros Hd. rw /reachable. revert s. apply (rtc_ind_r (fun s => len (hist s) <= maxUint64 -> inv content s)).
  { intros _. by apply inv_init. }
  intros s s' Hr Hs IH Hm. eapply inv_step; [apply IH|done|done].
  apply step_hist, prefix_length in Hs. rw /len in Hm *. lia.
Qed.

(** An append touches none of the fields a waiter looks at, and wakes nobody. *)
Lemma Append_frame r l : let l' := (Append r l).2 in
  failed l' = failed l /\ written l' = written l /\ synced l' = synced l /\ closed l' = closed l /\
  broadcasts l' = broadcasts l /\ policy l' = policy l.
Proof. rw /Append. by repeat case_match. Qed.

(** ** What a crash leaves *)

Lemma inv_markers content s : inv content s ->
  let l := lg s in
  0 <= synced l <= written l /\ written l <= appended l /\ appended l = len (hist s) /\
  content ++ log_bytes (take (Z.to_nat (written l)) (hist s)) `prefix_of` file s /\
  file s `prefix_of` content ++ log_bytes (hist s) /\
  (0 < synced l ->
    content ++ log_bytes (take (Z.to_nat (synced l)) (hist s)) `prefix_of` disk s).
Proof.
  intros (h1 & h2 & h3 & q & Hi). ginv_ Hi.
  destruct Hnext as [_ Ha]. cbn zeta. rw Hwritten Ha. split_and!; try lia; try done.
  - rw Hhist !len_app. have := len_nonneg h2. have := len_nonneg h3. lia.
  - rw Hfile Hhist /len Nat2Z.id take_app_length. apply prefix_app. by apply prefix_app_r.
  - rw Hfile Hhist !log_bytes_app. apply prefix_app, prefix_app. by apply prefix_app_r.
  - intros Hs. by destruct Hdur; [lia|].
Qed.

(** The writer has nothing in its hands, nor has it just failed to write. *)
Definition empty_handed (p : pc) : bool :=
  match p with Delivering _ _ _ _ _ | Advancing _ _ _ _ _ | Failing _ _ => false | _ => true end.

(** The marker counts every complete record of the file. *)
Lemma inv_exact content s : inv content s ->
  (delivering (at_ s) = false -> forall n, (n <= length (hist s))%nat ->
     content ++ log_bytes (take n (hist s)) `prefix_of` file s -> Z.of_nat n <= written (lg s)) /\
  (failed (lg s) = None -> empty_handed (at_ s) = true ->
     file s = content ++ log_bytes (take (Z.to_nat (written (lg s))) (hist s))).
Proof.
  intros (h1 & h2 & h3 & q & Hi). ginv_ Hi. rw Hwritten Hfile. split.
  - intros Hd n Hn Hp. specialize (Hpart Hd). apply prefix_app_inv in Hp. rw Hhist in Hn Hp.
    destruct (Nat.le_gt_cases n (length h1)) as [Hle|Hgt]; [rw /len; lia|exfalso].
    rw take_app_ge in Hp; [lia|]. rw log_bytes_app in Hp. apply prefix_app_inv in Hp.
    destruct (n - length h1)%nat as [|k] eqn:Ek; [lia|].
    destruct h2 as [|r h2].
    + apply prefix_nil_inv in Hq as ->. destruct h3 as [|r h3]; [rw !length_app /= in Hn; lia|].
      cbn [app take] in Hp. apply prefix_nil_inv, log_bytes_nil_inv in Hp. done.
    + cbn [app take] in Hp. rw /log_bytes fmap_cons concat_cons in Hp. apply prefix_length in Hp.
      rw length_app in Hp. rw /len in Hpart. lia.
  - intros Hf He. have E : h2 = [].
    { rw /pc_inv in Hpc. destruct (at_ s); try done; naive_solver. }
    subst h2. apply prefix_nil_inv in Hq as ->. by rw Hhist app_nil_r /len Nat2Z.id take_app_length.
Qed.

(** The markers only move forward, a failure of the log included. *)
Lemma markers_step content s s' : inv content s -> step s s' ->
  written (lg s) <= written (lg s') /\ synced (lg s) <= synced (lg s').
Proof.
  intros Hinv [a Ha]. destruct (inv_markers _ _ Hinv) as (Hsw & _). move: Ha. rw /act.
  destruct a.
  1: { destruct (Append_frame r (lg s)) as (_ & E1 & E2 & _). destruct (Append r (lg s)) as [[n|e] l'];
       intros [= <-]; cbn in *; rw E1 E2; lia. }
  all: destruct (at_ s) eqn:Hat; try done;
    try (repeat case_match; intros; simplify_eq; cbn; lia).
  - rw /swap. repeat case_match; intros; simplify_eq; cbn; lia.
  - destruct Hinv as (h1 & h2 & h3 & q & Hi). intros [= <-]. cbn. split; [|lia].
    have Hpc := i_pc _ _ _ _ _ _ Hi. rw /pc_inv Hat in Hpc. destruct Hpc as (_ & -> & -> & _).
    destruct (advance_loop_spec h2 (len h1) 0 q (i_q _ _ _ _ _ _ Hi)) as (a & b & q' & _ & _ & _ & E & _).
    rw (i_written _ _ _ _ _ _ Hi). rw Z.add_0_l in E. rw E. have := len_nonneg a. lia.
Qed.

Lemma log_file_app a b : log_file (a ++ b) = log_file a ++ log_bytes b.
Proof. by rw /log_file log_bytes_app app_assoc. Qed.

(** Records that lie complete in what survived are kept. *)
Lemma kept_covers recs kept q a : survives recs kept q -> a `prefix_of` recs ->
  log_file a `prefix_of` log_file kept ++ q -> a `prefix_of` kept.
Proof.
  intros (lost & -> & Hq) Ha Hp.
  destruct (prefix_weak_total a kept (kept ++ lost)) as [?|[b ->]]; [done|by apply prefix_app_r|done|].
  destruct b as [|r b]; [by rw app_nil_r|]. exfalso.
  rw log_file_app in Hp. apply prefix_app_inv in Hp.
  apply prefix_app_inv in Ha. destruct lost as [|r' lost].
  { by apply prefix_nil_inv in Ha. }
  apply prefix_cons_inv_1 in Ha as Hrr. subst r'. destruct Hq as [[k Hk] Hne].
  rw /log_bytes fmap_cons concat_cons in Hp. apply prefix_length in Hp. rw length_app in Hp.
  have Hl := f_equal length Hk. rw length_app in Hl.
  destruct k as [|x k]; [by rw app_nil_r in Hk|cbn [length] in Hl; lia].
Qed.

(** What recovery finds in the file as written, and in any file between what is on disk and
    what was written: the old records and at least those the marker counts. *)
Lemma log_recovered {D} `{!Applier D} `{!ApplierLaws D} recs on_disk p now0 s n survivor now dst :
  Forall readable recs -> on_disk `prefix_of` log_file recs ->
  reachable p now0 (log_file recs) on_disk s ->
  Forall readable (hist s) -> len (hist s) <= maxUint64 ->
  (n = written (lg s) /\ survivor = file s) \/
    (n = synced (lg s) /\ 0 < n /\ disk s `prefix_of` survivor /\ survivor `prefix_of` file s) ->
  exists m res (dst' : D),
    n <= Z.of_nat m <= len (hist s) /\
    Replay (mkStream survivor EOF) now dst = Some (res, None, dst') /\
    ap_entries dst' = effects now (ap_entries dst) (recs ++ take m (hist s)).
Proof.
  intros Hrecs Hd Hr Hh Hm Hsur. have Hi := inv_reachable _ _ _ _ _ Hd Hr Hm.
  destruct (inv_markers _ _ Hi) as (Hsw & Hwa & Happ & Hlo & Hhi & Hdur).
  have Hrange : log_file (recs ++ take (Z.to_nat n) (hist s)) `prefix_of` survivor /\
      survivor `prefix_of` log_file (recs ++ hist s) /\ n <= len (hist s).
  { rw !log_file_app. destruct Hsur as [[-> ->]|(-> & Hp & H1 & H2)]; [split_and!; [done..|lia]|].
    split_and!; [etrans; [by apply Hdur|done]|by etrans|lia]. }
  destruct Hrange as (Hlo' & Hhi' & Hle).
  have Hall : Forall readable (recs ++ hist s) by apply Forall_app.
  destruct (cut_log (recs ++ hist s) survivor Hhi') as (kept & q & Hs & ->).
  { apply prefix_length in Hlo'. have := log_file_offset (recs ++ take (Z.to_nat n) (hist s)).
    rw /len. lia. }
  have Hcov : recs ++ take (Z.to_nat n) (hist s) `prefix_of` kept.
  { apply (kept_covers _ _ _ _ Hs); [|done]. apply prefix_app, prefix_take. }
  destruct (Replay_cut (recs ++ hist s) kept q now dst Hall Hs) as (dst' & E & He).
  destruct Hs as (lost & Hsplit & _). destruct Hcov as [k ->].
  exists (length (take (Z.to_nat n) (hist s) ++ k)). do 2 eexists.
  rw -!app_assoc in Hsplit. apply app_inv_head in Hsplit. split_and!; [| |exact E|].
  - rw length_app length_take. rw /len in Hle. lia.
  - have Hlen := f_equal length Hsplit. rw /len. rw app_assoc length_app in Hlen. lia.
  - rw He. clear -Hsplit. remember (take (Z.to_nat n) (hist s)) as a eqn:Ha. clear Ha.
    by rw Hsplit (app_assoc a) take_app_length app_assoc.
Qed.

(** What an acknowledgement says of the markers. *)
Lemma Await_marker seq p l : Await seq p l = Some (Ret tt) ->
  seq <= match p with Always => synced l | EverySec => written l end.
Proof.
  rw /Await. destruct (failed l); [done|]. rw /reached. destruct p; case_cmp; try done; by destruct (closed l).
Qed.

Lemma inv_exited content s : inv content s -> at_ s = Exited -> failed (lg s) = None ->
  synced (lg s) = appended (lg s) /\ written (lg s) = appended (lg s) /\
  appended (lg s) = len (hist s) /\
  disk s = content ++ log_bytes (hist s) /\ file s = disk s.
Proof.
  intros (h1 & h2 & h3 & q & Hi) Hat Hf.
  ginv_ Hi. rw /pc_inv Hat in Hpc. destruct Hpc as [_ Hpc]. destruct Hpc as (-> & -> & Hsy & Hdf); [done|].
  apply prefix_nil_inv in Hq as ->. rw !app_nil_r in Hhist Hfile. destruct Hnext as [_ Ha].
  rw Hdf Hfile Hhist Hsy Hwritten Ha Hhist. done.
Qed.

(** ** The log's theorems *)

(** C19. Persisted order is applied order and the markers never lie: in every reachable
    state [synced <= written <= appended], [appended] counts the records appended, and the
    file holds its initial content, then the encodings of the first [written] records in the
    order of their sequence numbers. That is all it holds, unless the writer is in the middle
    of a batch or a write has failed: then a part of the following records comes behind.
    And [written] is never too low: except between a write and the advance of the marker
    behind it, the file holds no complete record that [written] does not count. What
    [synced] counts is on disk. *)
Theorem log_markers_sound content on_disk p now s : on_disk `prefix_of` content ->
  reachable p now content on_disk s -> len (hist s) <= maxUint64 ->
  let l := lg s in
  (0 <= synced l <= written l /\ written l <= appended l /\ appended l = len (hist s)) /\
  content ++ log_bytes (take (Z.to_nat (written l)) (hist s)) `prefix_of` file s /\
  file s `prefix_of` content ++ log_bytes (hist s) /\
  (failed l = None -> empty_handed (at_ s) = true ->
     file s = content ++ log_bytes (take (Z.to_nat (written l)) (hist s))) /\
  (delivering (at_ s) = false -> forall n, (n <= length (hist s))%nat ->
     content ++ log_bytes (take n (hist s)) `prefix_of` file s -> Z.of_nat n <= written l) /\
  (0 < synced l ->
    content ++ log_bytes (take (Z.to_nat (synced l)) (hist s)) `prefix_of` disk s).
Proof.
  intros Hd Hr Hm. have Hi := inv_reachable _ _ _ _ _ Hd Hr Hm. cbn zeta.
  destruct (inv_markers _ _ Hi) as (? & ? & ? & ? & ? & ?). by destruct (inv_exact _ _ Hi).
Qed.

(** C7. What an acknowledgement means. Let the log have been opened on a file of records
    [recs], let any sequence of appends, writes, short writes, syncs, failures and shutdown
    steps have happened, and let [Await(seq)] return nil. Then recovering the file as the
    operating system holds it (the process died), and under [Always] also any file between
    what was synced and what was written (the machine died), succeeds and replays the old
    records and at least the first [seq] appended ones, in order. *)
Theorem acknowledged_survives {D} `{!Applier D} `{!ApplierLaws D} recs on_disk p now0 s seq survivor now dst :
  Forall readable recs -> on_disk `prefix_of` log_file recs ->
  reachable p now0 (log_file recs) on_disk s ->
  Forall readable (hist s) -> len (hist s) <= maxUint64 ->
  0 < seq -> Await seq p (lg s) = Some (Ret tt) ->
  survivor = file s \/
    (p = Always /\ disk s `prefix_of` survivor /\ survivor `prefix_of` file s) ->
  exists m res (dst' : D),
    seq <= Z.of_nat m /\
    Replay (mkStream survivor EOF) now dst = Some (res, None, dst') /\
    ap_entries dst' = effects now (ap_entries dst) (recs ++ take m (hist s)).
Proof.
  intros Hrecs Hd Hr Hh Hm Hpos Hack%Await_marker Hsur.
  destruct (inv_markers _ _ (inv_reachable _ _ _ _ _ Hd Hr Hm)) as (Hsw & _).
  destruct Hsur as [->|(-> & H1 & H2)].
  - destruct (log_recovered (D:=D) recs on_disk p now0 s (written (lg s)) (file s) now dst)
      as (m & res & dst' & Hle & E & He); [done..|by left|]. exists m, res, dst'. split_and!; try done.
    destruct p; lia.
  - destruct (log_recovered (D:=D) recs on_disk Always now0 s (synced (lg s)) survivor now dst)
      as (m & res & dst' & Hle & E & He); [done..|by right; split_and!; try done; lia|].
    exists m, res, dst'. split_and!; try done. lia.
Qed.

(** No waiter is left behind: if a step turns the condition some [Await] is waiting for
    from unmet to met, whether by progress, by failure or by the end of the log, that step
    broadcasts on the condition variable. *)
Theorem await_wakes_up a s s' seq p : act a s = Some s' ->
  Await seq p (lg s) = None -> Await seq p (lg s') <> None ->
  (broadcasts (lg s) < broadcasts (lg s'))%nat.
Proof.
  intros Ha Hn Hs. move: Ha. rw /act. have Hframe r := Append_frame r (lg s).
  have Hsame l : failed l = failed (lg s) -> written l = written (lg s) -> synced l = synced (lg s) ->
      closed l = closed (lg s) -> Await seq p l = None.
  { intros H1 H2 H3 H4. rw -Hn /Await /reached H1 H2 H3 H4. done. }
  destruct a as [r| | | | | | | | | | | | | | | |]; destruct (at_ s) eqn:Hat; try done;
    try (specialize (Hframe r); destruct (Append r (lg s)) as [[?|?] l'];
         intros [= <-]; exfalso; apply Hs, Hsame; sys_cbn; by destruct Hframe as (? & ? & ? & ? & _));
    rw ?/swap; repeat case_match; intros; simplify_eq; sys_cbn; try lia;
    exfalso; apply Hs; done || apply Hsame; done.
Qed.

(** C21. A failed log stays failed and is reported once: from a reachable state in which the
    log has failed, whatever happens next, the failure does not change, no byte is written
    and no record accepted any more, and every waiter gets the failure, also one whose
    record had been written. [onFatal] has been called exactly once, except while the writer
    stands between the critical section of [fail] and that call: then not yet, and the call
    is its next step. *)
Theorem failure_is_terminal content on_disk p now s c : on_disk `prefix_of` content ->
  reachable p now content on_disk s -> len (hist s) <= maxUint64 -> failed (lg s) = Some c ->
  forall s', rtc step s s' ->
    failed (lg s') = Some c /\
    (fatals (lg s') = 1%nat \/
     fatals (lg s') = 0%nat /\ (exists ex, at_ s' = Reporting ex) /\
       exists s'', act LReport s' = Some s'' /\ fatals (lg s'') = 1%nat) /\
    file s' = file s /\ hist s' = hist s /\
    (forall r, (Append r (lg s')).1 = Fail (ErrFailed c)) /\
    (forall seq q, Await seq q (lg s') = Some (Fail (ErrFailed c))).
Proof.
  intros Hd Hr Hm Hf s' Hs'. have Hi := inv_reachable _ _ _ _ _ Hd Hr Hm.
  have Hkeep : inv content s' /\ failed (lg s') = Some c /\ file s' = file s /\ hist s' = hist s.
  { revert s' Hs'. apply rtc_ind_r; [done|]. intros s1 s2 _ Hst (Hi1 & Hf1 & Hfile & Hh).
    have Hsame : failed (lg s2) = Some c /\ file s2 = file s /\ hist s2 = hist s.
    { destruct Hi1 as (h1 & h2 & h3 & q & Hg). have Hpc := i_pc _ _ _ _ _ _ Hg. rw /pc_inv in Hpc.
      destruct Hst as [a Ha]. move: Ha. rw /act /swap /Append Hf1.
      destruct a, (at_ s1) eqn:Hat; try done; try (destruct Hpc as [Hpc _]; congruence);
        repeat case_match; intros; simplify_eq; sys_cbn; try (split_and!; congruence).
    }
    destruct Hsame as (H1 & H2 & H3). split_and!; try done. eapply inv_step; [done..|congruence]. }
  destruct Hkeep as ((h1 & h2 & h3 & q & Hg) & H1 & H2 & H3).
  split_and!; try done.
  - have Hfa := i_fatals _ _ _ _ _ _ Hg. rw H1 /= in Hfa. destruct (at_ s') as [| | | | |ex| | | | |] eqn:Hat; try by left.
    right. split_and!; [done|by exists ex|]. eexists. split; [by rw /act Hat|]. by rw /= Hfa.
  - intros r. by rw /Append H1.
  - intros seq q'. by rw /Await H1.
Qed.

(** A clean shutdown loses nothing: when the writer has exited and the log has not
    failed, everything ever appended is written and synced, under either policy, and the
    file on disk is the initial content followed by all the records. *)
Theorem clean_close_is_durable content on_disk p now s : on_disk `prefix_of` content ->
  reachable p now content on_disk s -> len (hist s) <= maxUint64 ->
  at_ s = Exited -> failed (lg s) = None ->
  synced (lg s) = appended (lg s) /\ written (lg s) = appended (lg s) /\
  appended (lg s) = len (hist s) /\
  disk s = content ++ log_bytes (hist s) /\ file s = disk s.
Proof. intros Hd Hr Hm. by apply inv_exited, (inv_reachable _ _ _ _ _ Hd Hr Hm). Qed.

(** ** Progress *)

(** The writer's own steps when the file takes what it is given. *)
Definition friendly (a : label) : Prop :=
  match a with
  | LNotify | LSwap | LDelivered | LAdvanceWritten | LAdvanceSynced => True
  | LWrite _ ok | LSync ok _ => ok = true
  | _ => False
  end.
Definition wstep (s s' : sys) : Prop := exists a, friendly a /\ act a s = Some s'.

(** The writer is on its way to [fail]. *)
Definition doomed (p : pc) : Prop :=
  match p with Failing _ _ => True | Advancing _ _ _ _ (Some _) => True | _ => False end.
Definition resting (p : pc) : Prop :=
  match p with Select | Finishing | FileClosing | Exited => True | _ => False end.

(** [s'] is a resting state the writer reaches from [s]. *)
Definition comes_to_rest (s s' : sys) : Prop :=
  rtc wstep s s' /\ hist s' = hist s /\ lbuf (lg s') = lbuf (lg s) /\ resting (at_ s') /\
  failed (lg s') = failed (lg s) /\ policy (lg s') = policy (lg s).

Lemma rest_step s s1 s' : wstep s s1 -> comes_to_rest s1 s' -> hist s1 = hist s ->
  lbuf (lg s1) = lbuf (lg s) -> failed (lg s1) = failed (lg s) -> policy (lg s1) = policy (lg s) ->
  comes_to_rest s s'.
Proof.
  intros Hs (H1 & H2 & H3 & H4 & H5 & H6) ????. split_and!; try congruence; try done.
  by eapply rtc_l.
Qed.

Lemma rest_here s : resting (at_ s) -> comes_to_rest s s.
Proof. intros H. by split_and!. Qed.

Lemma rest_from_syncing s ex : at_ s = Syncing ex -> exists s', comes_to_rest s s'.
Proof.
  intros Hat. eexists. eapply rest_step; [exists (LSync true []); split; [done|]; by rw /act Hat| |done..].
  eapply rest_step; [by exists LAdvanceSynced| |done..]. apply rest_here. by destruct ex.
Qed.

Lemma rest_after_write s force ex l : at_ s = after_write force ex l -> exists s', comes_to_rest s s'.
Proof.
  rw /after_write. destruct (_ && _).
  - intros E. exists s. apply rest_here. rw E. by destruct ex.
  - apply rest_from_syncing.
Qed.

Lemma rest_from_advancing s force ex recs n : at_ s = Advancing force ex recs n None ->
  exists s', comes_to_rest s s'.
Proof.
  intros Hat. set l := advanceWritten recs n (lg s).
  destruct (rest_after_write (goto s l (after_write force ex l)) force ex l) as [s' Hs']; [done|].
  exists s'. eapply rest_step; [exists LAdvanceWritten; split; [done|]; by rw /act Hat|done..].
Qed.

Lemma rest_from_delivering s force ex batch recs total :
  at_ s = Delivering force ex batch recs total -> 0 <= total -> exists s', comes_to_rest s s'.
Proof.
  intros Hat Ht. have Hlast s1 t : at_ s1 = Delivering force ex batch recs t -> len batch <= t ->
      exists s', comes_to_rest s1 s'.
  { intros Hat1 Hl. destruct (rest_from_advancing (goto s1 (lg s1) (Advancing force ex recs t None)) force ex recs t)
      as [s' Hs']; [done|]. exists s'. eapply rest_step; [exists LDelivered; split; [done|]|done..].
    rw /act Hat1. by destruct (Z.ltb_spec t (len batch)); [lia|]. }
  destruct (Z.lt_ge_cases total (len batch)) as [Hlt|Hge]; [|by eapply Hlast].
  set n := len batch - total.
  set s1 := mkSys (lg s) (Delivering force ex batch recs (total + n)) (lastSync s)
              (file s ++ take (Z.to_nat n) (drop (Z.to_nat total) batch)) (disk s) (hist s).
  destruct (Hlast s1 (total + n)) as [s' Hs']; [done|rw /n; lia|]. exists s'.
  eapply rest_step; [exists (LWrite n true); split; [done|]|done..]. rw /act Hat.
  destruct (Z.ltb_spec total (len batch)); [|lia]. rw Z.leb_refl /writeFull_turn. cbn [andb negb].
  destruct (Z.ltb_spec n 0); [rw /n in H0; lia|]. destruct (Z.eqb_spec n 0); [rw /n in e; lia|]. done.
Qed.

(** A flush empties the buffer. *)
Lemma rest_from_flush s force ex : at_ s = FlushStart force ex -> failed (lg s) = None ->
  exists s', rtc wstep s s' /\ hist s' = hist s /\ lbuf (lg s') = [] /\ resting (at_ s') /\
    failed (lg s') = None /\ policy (lg s') = policy (lg s).
Proof.
  intros Hat Hf.
  set l1 := (swap (lg s)).2.
  set s1 := goto s l1 (if 0 <? len (lbuf (lg s)) then Delivering force ex (lbuf (lg s)) (records (lg s)) 0
                       else after_write force ex l1).
  have Hstep : wstep s s1 by exists LSwap; split; [done|]; rw /act Hat /s1 /l1 /swap Hf.
  have Hrest : exists s', comes_to_rest s1 s'.
  { destruct (0 <? len (lbuf (lg s))) eqn:Hb.
    - by eapply rest_from_delivering.
    - by eapply rest_after_write. }
  destruct Hrest as (s' & H1 & H2 & H3 & H4 & H5 & H6). exists s'.
  have Hl1 : lbuf l1 = [] /\ failed l1 = None /\ policy l1 = policy (lg s) by rw /l1 /swap Hf.
  destruct Hl1 as (E1 & E2 & E3). have E0 : lg s1 = l1 by done. rw E0 in H3 H5 H6.
  split_and!; try congruence; try done. by eapply rtc_l.
Qed.

Lemma wstep_step s s' : wstep s s' -> step s s'.
Proof. intros (a & _ & Ha). by exists a. Qed.

Section progress.
Context (content on_disk : bytes) (p : Policy) (now : Z) (s : sys).
Hypotheses (Hd : on_disk `prefix_of` content) (Hr : reachable p now content on_disk s)
  (Hm : len (hist s) <= maxUint64).

(** [s1] is [s] after some of the writer's own steps. *)
Definition onward (s1 : sys) : Prop :=
  rtc wstep s s1 /\ hist s1 = hist s /\ failed (lg s1) = None /\ policy (lg s1) = policy (lg s).

(** The writer's own steps lead to a state in which everything appended is acknowledged. *)
Definition all_acked : Prop :=
  exists s', rtc wstep s s' /\ hist s' = hist s /\
    forall seq, seq <= len (hist s) -> Await seq (policy (lg s)) (lg s') = Some (Ret tt).

Lemma onward_inv s1 : onward s1 -> exists h1 h2 h3 q, ginv content s1 h1 h2 h3 q.
Proof.
  intros (H1 & H2 & _). apply (inv_reachable content on_disk p now s1); [done| |by rw H2].
  rw /reachable. etrans; [exact Hr|]. eapply rtc_subrel; [apply wstep_step|done].
Qed.

(** At rest with an empty buffer everything is acknowledged. *)
Lemma acked_at_rest s1 : onward s1 -> lbuf (lg s1) = [] -> resting (at_ s1) -> all_acked.
Proof.
  intros Ho Hb Hrest. destruct (onward_inv s1 Ho) as (h1 & h2 & h3 & q & Hi).
  destruct Ho as (H1 & Hh & Hf1 & Hp). exists s1. split_and!; [done..|]. intros seq Hseq. rw -Hh in Hseq.
  ginv_ Hi. rw /lbuf Hw /= in Hb. apply log_bytes_nil_inv in Hb as ->.
  have Hall : h2 = [] /\ (policy (lg s) = Always -> synced (lg s1) = written (lg s1)).
  { rw /pc_inv in Hpc. rw -Hp. destruct (at_ s1); try done; [by apply Hpc|..];
      destruct Hpc as [_ Hpc]; by destruct Hpc as (? & _ & ? & _). }
  destruct Hall as [-> Hsy]. rw !app_nil_r in Hhist. rw /Await Hf1 /reached Hwritten -Hhist.
  destruct (policy (lg s)); [by apply Z.leb_le in Hseq as ->|].
  rw Hsy // Hwritten -Hhist. by apply Z.leb_le in Hseq as ->.
Qed.

Lemma acked_by_flush s1 force ex : onward s1 -> at_ s1 = FlushStart force ex -> all_acked.
Proof.
  intros (H1 & H2 & H4 & H5) H3.
  destruct (rest_from_flush s1 force ex H3 H4) as (s' & R1 & R2 & R3 & R4 & R5 & R6).
  apply (acked_at_rest s'); [|done..]. split_and!; [by etrans|congruence..].
Qed.

(** From a resting state: what is still buffered has a wake-up pending. *)
Lemma acked_from_rest s1 : onward s1 -> resting (at_ s1) -> all_acked.
Proof.
  intros Ho H3. destruct (onward_inv s1 Ho) as (h1 & h2 & h3 & q & Hi).
  destruct h3 as [|r h3]; [apply (acked_at_rest s1); [done| |done]; by rw /lbuf (i_w _ _ _ _ _ _ Hi)|].
  destruct Ho as (H1 & H2 & H4 & H5).
  destruct (i_notify _ _ _ _ _ _ Hi H4) as [?|[Hn|Ha]]; [done| |by destruct (at_ s1)].
  have Hpc := i_pc _ _ _ _ _ _ Hi. rw /pc_inv in Hpc.
  destruct (at_ s1) eqn:Hat; try done; try (destruct Hpc as [_ Hpc]; by destruct Hpc as (_ & ? & _)).
  apply (acked_by_flush (goto s1 (take_notify (lg s1)) (FlushStart false false)) false false); [|done].
  split_and!; [|done..]. eapply rtc_r; [done|]. exists LNotify. by rw /act Hat Hn.
Qed.

Lemma acked_by_rest : failed (lg s) = None -> (exists s', comes_to_rest s s') -> all_acked.
Proof.
  intros Hf (s1 & H1 & H2 & H3 & H4 & H5 & H6). apply (acked_from_rest s1); [|done].
  split_and!; [done|done|congruence|done].
Qed.
End progress.

(** C20. The writer never stalls: from every reachable state in which the log has not failed
    and is not about to, the writer's own steps, with a file that accepts its writes and
    syncs, lead to a state in which every record appended so far is acknowledged under the
    log's policy. In particular no appended batch is ever left without a wake-up. *)
Theorem writer_makes_progress content on_disk p now s : on_disk `prefix_of` content ->
  reachable p now content on_disk s -> len (hist s) <= maxUint64 ->
  failed (lg s) = None -> ~ doomed (at_ s) ->
  exists s', rtc wstep s s' /\ hist s' = hist s /\
    forall seq, seq <= len (hist s) -> Await seq (policy (lg s)) (lg s') = Some (Ret tt).
Proof.
  intros Hd Hr Hm Hf Hdoom. change (all_acked s). have Ho : onward s s by split_and!.
  destruct (inv_reachable content on_disk p now s Hd Hr Hm) as (h1 & h2 & h3 & q & Hi).
  have Hpc := i_pc _ _ _ _ _ _ Hi. rw /pc_inv in Hpc.
  have Hback := acked_by_rest content on_disk p now s Hd Hr Hm Hf.
  have Hrest := acked_from_rest content on_disk p now s Hd Hr Hm s Ho.
  destruct (at_ s) as [|force ex| | | | | | | | |] eqn:Hat; try done; try by apply Hrest.
  - by eapply acked_by_flush.
  - apply Hback. eapply rest_from_delivering; [done|]. lia.
  - destruct err; [done|]. apply Hback. by eapply rest_from_advancing.
  - by destruct Hpc as [[] _].
  - apply Hback. by eapply rest_from_syncing.
  - apply Hback. eexists. eapply rest_step; [exists LAdvanceSynced; split; [done|]; by rw /act Hat| |done..].
    apply rest_here. by destruct exiting.
Qed.

(** ** Examples and witnesses *)

Fixpoint acts (l : list label) (s : sys) : option sys :=
  match l with
  | [] => Some s
  | a :: l => s' ← act a s; acts l s'
  end.

Lemma acts_steps l s s' : acts l s = Some s' -> rtc step s s'.
Proof.
  revert s. induction l as [|a l IH] => s /=; [by intros [= ->]|].
  destruct (act a s) as [s1|] eqn:E; [|done]. intros H. eapply rtc_l; [by exists a|by apply IH].
Qed.

Definition rec_a : Record_ := DeriveSet (str "a") (str "1") 0 false.
Definition rec_b : Record_ := DeriveDel [str "a"].

(** Opened on a log of one record under [Always]; a record is appended, written in two
    pieces and synced while a second one is appended. *)
Definition start : sys := sys0 Always 0 (log_file [rec_b]) [].
Definition schedule : list label :=
  [LAppend rec_a; LNotify; LSwap; LWrite 5 true; LAppend rec_b; LWrite (len (enc_record rec_a) - 5) true;
   LDelivered; LAdvanceWritten; LSync true []; LAdvanceSynced].
Definition after_schedule : sys :=
  match acts schedule start with Some s => s | None => start end.

Lemma schedule_runs : reachable Always 0 (log_file [rec_b]) [] after_schedule.
Proof. apply (acts_steps schedule). vm_compute. reflexivity. Qed.

Lemma recs_readable : Forall readable [rec_b; rec_a].
Proof.
  repeat (apply Forall_cons; split); [..|done];
    (split; [by rw /canonical /=; split_and!|]; split_and!; [by vm_compute..| |by vm_compute];
     by repeat constructor; vm_compute).
Qed.

Lemma log_markers_witness :
  Markers (lg after_schedule) = (2, 1, 1) /\
  log_file [rec_b] ++ log_bytes [rec_a] `prefix_of` disk after_schedule.
Proof.
  split; [vm_compute; reflexivity|].
  destruct (log_markers_sound (log_file [rec_b]) [] Always 0 after_schedule) as (_ & _ & _ & _ & _ & H);
    [apply prefix_nil|apply schedule_runs|by vm_compute|]. by apply H.
Defined.

Lemma acknowledged_survives_witness :
  exists m res (dst' : Store),
    1 <= Z.of_nat m /\
    Replay (mkStream (disk after_schedule) EOF) 0 New = Some (res, None, dst') /\
    phys dst' = effects 0 (phys New) ([rec_b] ++ take m [rec_a; rec_b]).
Proof.
  refine (acknowledged_survives (D:=Store) [rec_b] [] Always 0 after_schedule 1 (disk after_schedule) 0 New
            _ _ schedule_runs _ _ _ _ _).
  - have H := recs_readable. inversion H; subst. by constructor.
  - apply prefix_nil.
  - have H := recs_readable. inversion H as [|? ? H1 H2]; subst. inversion H2 as [|? ? H3 H4]; subst.
    by repeat constructor.
  - by vm_compute.
  - lia.
  - by vm_compute.
  - right. split_and!; [done..|]. exists []. vm_compute. reflexivity.
Defined.

Lemma await_wakes_up_witness :
  let s := match acts (take 9 schedule) start with Some s => s | None => start end in
  (broadcasts (lg s) < broadcasts (lg after_schedule))%nat.
Proof.
  intros s. apply (await_wakes_up LAdvanceSynced s after_schedule 1 Always); vm_compute; done.
Defined.

(** The same schedule with a short write that comes with an error. *)
Definition broken : sys :=
  match acts [LAppend rec_a; LNotify; LSwap; LWrite 5 false; LAdvanceWritten; LFail; LReport] start with
  | Some s => s | None => start end.

Lemma failure_terminal_witness :
  Failed (lg broken) = Some WriteError /\ fatals (lg broken) = 1%nat /\
  Await 1 EverySec (lg broken) = Some (Fail (ErrFailed WriteError)).
Proof.
  split; [vm_compute; reflexivity|].
  have Hr : reachable Always 0 (log_file [rec_b]) [] broken.
  { apply (acts_steps [LAppend rec_a; LNotify; LSwap; LWrite 5 false; LAdvanceWritten; LFail; LReport]).
    vm_compute. reflexivity. }
  destruct (failure_is_terminal (log_file [rec_b]) [] Always 0 broken WriteError (prefix_nil _) Hr
    ltac:(by vm_compute) ltac:(by vm_compute) broken ltac:(reflexivity)) as (_ & [H|(H & _)] & _ & _ & _ & Hw);
    [by split|by vm_compute in H].
Defined.

Definition closing_schedule : list label :=
  [LAppend rec_a; LCloseLock; LAppend rec_b; LCloseSignal; LSeeClose; LSwap;
   LWrite (len (enc_record rec_a)) true; LDelivered; LAdvanceWritten; LSync true []; LAdvanceSynced; LFinish; LExit].
Definition shut : sys :=
  match acts closing_schedule (sys0 EverySec 0 (log_file [rec_b]) []) with Some s => s | None => start end.

Lemma clean_close_witness : disk shut = log_file [rec_b] ++ log_bytes [rec_a].
Proof.
  destruct (clean_close_is_durable (log_file [rec_b]) [] EverySec 0 shut) as (_ & _ & _ & H & _);
    [apply prefix_nil| |by vm_compute|by vm_compute|by vm_compute|exact H].
  apply (acts_steps closing_schedule). vm_compute. reflexivity.
Defined.

Lemma writer_progress_witness :
  exists s', rtc wstep after_schedule s' /\ hist s' = hist after_schedule /\
    forall seq, seq <= 2 -> Await seq Always (lg s') = Some (Ret tt).
Proof.
  apply (writer_makes_progress (log_file [rec_b]) [] Always 0 after_schedule);
    [apply prefix_nil|apply schedule_runs|by vm_compute|by vm_compute|by vm_compute].
Defined.
