(* ===== verification/ScanSessions.v ===== *)
(** * SCAN sessions (src/internal/engine/scan_sessions.go)

    A session is a sorted snapshot of keys that a client pages through with one-time
    cursors. The manager is the state its mutex protects; the random token source is an
    argument, the list of its answers ([None] for an error), and an operation yields
    nothing at all if that list ends while it is still looking for an unused token.
    Unsigned 64-bit arithmetic is written out. *)

From S2P Require Import Prelude.
From S2P Require Import GoLib.

Definition scanSessionTTL : Z := 30 * second.
Definition maxScanSessions : Z := 16.
Definition maxScanSessionBytes : Z := Z.shiftl 128 20.
Definition scanStringBytes : Z := 16.
Definition scanSessionOverhead : Z := 64.

Inductive scan_err := ErrInvalidCursor | ErrScanSessionLimit | ErrScanMatchChanged | ErrToken.

#[export] Instance scan_err_eq_dec : EqDecision scan_err.
Proof. solve_decision. Defined.

Record scanSessionLimits := mkScanLimits { lim_ttl : Z; lim_maxSessions : Z; lim_maxBytes : Z }.

Definition defaultScanSessionLimits : scanSessionLimits :=
  mkScanLimits scanSessionTTL maxScanSessions maxScanSessionBytes.

Record scanSession := mkSession {
  ss_keys : list bytes;
  ss_pattern : bytes;
  ss_position : Z;
  ss_lastUsed : Z;
  ss_bytes : Z;
  ss_token : Z
}.

Record scanSessionManager := mkManager {
  sessions : gmap Z scanSession;
  sm_bytes : Z;
  sm_limits : scanSessionLimits
}.

Definition newScanSessionManager (l : scanSessionLimits) : scanSessionManager := mkManager ∅ 0 l.

Record ScanResult := mkScanResult { Cursor : Z; Keys : list bytes }.

(** ** Sizes *)

Definition scanSaturatingAdd (a b : Z) : Z :=
  if wrapu 64 (maxUint64 - a) <? b then maxUint64 else wrapu 64 (a + b).

Definition scanSaturatingMultiply (a b : Z) : Z :=
  if negb (a =? 0) && (maxUint64 / a <? b) then maxUint64 else wrapu 64 (a * b).

Definition scanSessionRetainedBytes (keyCapacity keyBytes patternBytes : Z) : Z :=
  let stringHeaders := scanSaturatingMultiply keyCapacity scanStringBytes in
  let total := scanSaturatingAdd stringHeaders keyBytes in
  let total := scanSaturatingAdd total patternBytes in
  scanSaturatingAdd total scanSessionOverhead.

(** [keycap] is [cap(keys)]. *)
Definition scanSessionBytes (keys : list bytes) (keycap : Z) (pattern : bytes) : Z :=
  let keyBytes := foldl (fun n key => scanSaturatingAdd n (len key)) 0 keys in
  scanSessionRetainedBytes keycap keyBytes (len pattern).

Definition scanPageEnd (start length count : Z) : Z :=
  let remaining := length - start in
  if wrapu 64 remaining <=? count then length else start + wraps 64 count.

(** [keys[a:b]] *)
Definition slice {A} (l : list A) (a b : Z) : list A := take (Z.to_nat (b - a)) (drop (Z.to_nat a) l).

(** ** The manager *)

Definition removeLocked (token : Z) (session : scanSession) (m : scanSessionManager) : scanSessionManager :=
  mkManager (delete token (sessions m)) (wrapu 64 (sm_bytes m - ss_bytes session)) (sm_limits m).

Definition session_expired (now ttl : Z) (s : scanSession) : bool := negb (Before now (ss_lastUsed s + ttl)).

(** The [range] loop over the map, deleting on the way. *)
Definition expireLocked (now : Z) (m : scanSessionManager) : scanSessionManager :=
  map_fold (fun token session m' =>
      if session_expired now (lim_ttl (sm_limits m)) session then removeLocked token session m' else m')
    m (sessions m).

(** [Some (Ret t)] is a token, [Some (Fail ErrToken)] an error of the source. *)
Fixpoint nextTokenLocked (tokens : list (option Z)) (m : scanSessionManager) : option (result scan_err Z) :=
  match tokens with
  | [] => None
  | None :: _ => Some (Fail ErrToken)
  | Some token :: tokens =>
      if token =? 0 then nextTokenLocked tokens m
      else if bool_decide (is_Some (sessions m !! token)) then nextTokenLocked tokens m
      else Some (Ret token)
  end.

Definition start (keys : list bytes) (keycap : Z) (pattern : bytes) (count now : Z)
    (tokens : list (option Z)) (m : scanSessionManager) :
    option (result scan_err ScanResult * scanSessionManager) :=
  let m := expireLocked now m in
  let end_ := scanPageEnd 0 (len keys) count in
  let page := slice keys 0 end_ in
  if end_ =? len keys then Some (Ret (mkScanResult 0 page), m)
  else
    let retainedBytes := scanSessionBytes keys keycap pattern in
    if (lim_maxSessions (sm_limits m) <=? Z.of_nat (size (sessions m))) ||
       (lim_maxBytes (sm_limits m) <? retainedBytes) ||
       (wrapu 64 (lim_maxBytes (sm_limits m) - retainedBytes) <? sm_bytes m)
    then Some (Fail ErrScanSessionLimit, m)
    else
      match nextTokenLocked tokens m with
      | None => None
      | Some (Fail e) => Some (Fail e, m)
      | Some (Ret token) =>
          let session := mkSession keys pattern end_ now retainedBytes token in
          Some (Ret (mkScanResult token page),
                mkManager (<[token := session]> (sessions m)) (wrapu 64 (sm_bytes m + retainedBytes))
                  (sm_limits m))
      end.

Definition next (cursor : Z) (pattern : bytes) (patternSet : bool) (count now : Z)
    (tokens : list (option Z)) (m : scanSessionManager) :
    option (result scan_err ScanResult * scanSessionManager) :=
  let m := expireLocked now m in
  match sessions m !! cursor with
  | None => Some (Fail ErrInvalidCursor, m)
  | Some session =>
      if patternSet && negb (bool_decide (pattern = ss_pattern session))
      then Some (Fail ErrScanMatchChanged, m)
      else
        let end_ := scanPageEnd (ss_position session) (len (ss_keys session)) count in
        let page := slice (ss_keys session) (ss_position session) end_ in
        if end_ =? len (ss_keys session)
        then Some (Ret (mkScanResult 0 page), removeLocked cursor session m)
        else
          match nextTokenLocked tokens m with
          | None => None
          | Some (Fail e) => Some (Fail e, m)
          | Some (Ret replacement) =>
              let session' :=
                mkSession (ss_keys session) (ss_pattern session) end_ now (ss_bytes session) replacement in
              Some (Ret (mkScanResult replacement page),
                    mkManager (<[replacement := session']> (delete cursor (sessions m)))
                      (sm_bytes m) (sm_limits m))
          end
  end.

Definition clear (m : scanSessionManager) : scanSessionManager := mkManager ∅ 0 (sm_limits m).

Definition stats (m : scanSessionManager) : Z * Z := (Z.of_nat (size (sessions m)), sm_bytes m).

(** [randomScanSessionToken] over the eight bytes [rand.Read] delivered, or its error. *)
Definition randomScanSessionToken (random : option bytes) : option Z :=
  (fun b => foldl (fun acc c => Z.lor (Z.shiftl acc 8) (bval c)) 0 b) <$> random.

(** ** Saturating arithmetic *)

Lemma scanSaturatingAdd_spec a b : is_uint64 a -> 0 <= b ->
  scanSaturatingAdd a b = Z.min maxUint64 (a + b) /\ is_uint64 (scanSaturatingAdd a b).
Proof.
  rw /scanSaturatingAdd /is_uint64 /wrapu /maxUint64 => Ha Hb.
  rw (Z.mod_small (2 ^ 64 - 1 - a)); [lia|]. case_cmp; [lia|]. rw Z.mod_small; lia.
Qed.

Lemma scanSaturatingMultiply_spec a b : is_uint64 a -> 0 <= b ->
  scanSaturatingMultiply a b = Z.min maxUint64 (a * b) /\ is_uint64 (scanSaturatingMultiply a b).
Proof.
  rw /scanSaturatingMultiply /is_uint64 /wrapu => Ha Hb. have HM : maxUint64 = 2 ^ 64 - 1 by done.
  destruct (Z.eqb_spec a 0) as [->|Hne]; cbn [negb andb].
  { rw Z.mul_0_l Z.mod_small //. }
  destruct (Z.ltb_spec (maxUint64 / a) b) as [Hlt|Hle].
  - have : maxUint64 < a * b; [|lia].
    have := Z.mul_succ_div_gt maxUint64 a. nia.
  - have : a * b <= maxUint64. { have := Z.mul_div_le maxUint64 a. nia. }
    intros Hab. rw Z.mod_small; [nia|]. nia.
Qed.

(** The bytes of the keys of a snapshot. *)
Definition key_bytes (keys : list bytes) : Z := foldr (fun k n => len k + n) 0 keys.

Lemma key_bytes_nonneg keys : 0 <= key_bytes keys.
Proof. induction keys as [|k keys IH]; simpl; [lia|]. have := len_nonneg k. lia. Qed.

Lemma key_bytes_fold keys n : is_uint64 n ->
  foldl (fun n key => scanSaturatingAdd n (len key)) n keys = Z.min maxUint64 (n + key_bytes keys) /\
  is_uint64 (foldl (fun n key => scanSaturatingAdd n (len key)) n keys).
Proof.
  revert n. induction keys as [|k keys IH] => n Hn /=; [split; [rw /is_uint64 in Hn; lia|done]|].
  have Hk := len_nonneg k. have := key_bytes_nonneg keys.
  destruct (scanSaturatingAdd_spec n (len k) Hn Hk) as [E Hu]. destruct (IH _ Hu) as [-> ?].
  split; [|done]. rw E. lia.
Qed.

(** The accounted size is exact until it saturates. *)
Lemma scanSessionBytes_spec keys keycap pattern : is_uint64 keycap ->
  scanSessionBytes keys keycap pattern =
    Z.min maxUint64 (16 * keycap + key_bytes keys + len pattern + 64) /\
  is_uint64 (scanSessionBytes keys keycap pattern).
Proof.
  intros Hc. rw /scanSessionBytes /scanSessionRetainedBytes /scanStringBytes /scanSessionOverhead.
  destruct (key_bytes_fold keys 0) as [Ek Hk]; [by vm_compute|]. have Hkn := key_bytes_nonneg keys.
  destruct (scanSaturatingMultiply_spec keycap 16) as [Em Hm]; [done|done|].
  destruct (scanSaturatingAdd_spec _ _ Hm (proj1 Hk)) as [E1 H1].
  have Hp := len_nonneg pattern. destruct (scanSaturatingAdd_spec _ _ H1 Hp) as [E2 H2].
  destruct (scanSaturatingAdd_spec _ 64 H2) as [E3 H3]; [lia|]. split; [|done].
  rw E3 E2 E1 Em Ek. rw /is_uint64 in Hc. lia.
Qed.

Lemma scanPageEnd_spec start length count : 0 <= start <= length -> length <= maxInt64 -> is_uint64 count ->
  scanPageEnd start length count = Z.min length (start + count).
Proof.
  rw /scanPageEnd /is_uint64 /maxUint64 /maxInt64 => Hs Hl Hc. rw /wrapu Z.mod_small; [lia|].
  case_cmp; [lia|]. rw /wraps Z.mod_small; lia.
Qed.

(** ** The invariant *)

Definition total_bytes (m : gmap Z scanSession) : Z := map_fold (fun _ s n => ss_bytes s + n) 0 m.

(** A session in the map: filed under its own non-zero token, something left to deliver,
    and an accounted size that covers the strings it retains. *)
Definition session_ok (token : Z) (s : scanSession) : Prop :=
  ss_token s = token /\ token <> 0 /\ 0 <= ss_position s < len (ss_keys s) /\
  len (ss_keys s) <= maxInt64 /\
  Z.min maxUint64 (16 * len (ss_keys s) + key_bytes (ss_keys s) + len (ss_pattern s) + 64) <= ss_bytes s.

Definition wf (m : scanSessionManager) : Prop :=
  is_uint64 (lim_maxBytes (sm_limits m)) /\
  sm_bytes m = total_bytes (sessions m) /\
  sm_bytes m <= lim_maxBytes (sm_limits m) /\
  Z.of_nat (size (sessions m)) <= Z.max 0 (lim_maxSessions (sm_limits m)) /\
  map_Forall session_ok (sessions m).

Lemma total_insert m k s : m !! k = None -> total_bytes (<[k := s]> m) = ss_bytes s + total_bytes m.
Proof. intros Hk. rw /total_bytes map_fold_insert_L //. intros. lia. Qed.

Lemma total_delete m k s : m !! k = Some s -> total_bytes (delete k m) = total_bytes m - ss_bytes s.
Proof.
  intros Hk. have E := total_insert (delete k m) k s ltac:(apply lookup_delete_eq).
  rw insert_delete_id // in E. lia.
Qed.

Lemma session_ok_bytes k s : session_ok k s -> 0 <= ss_bytes s.
Proof.
  intros (_ & _ & _ & _ & Hb). have := key_bytes_nonneg (ss_keys s). have := len_nonneg (ss_pattern s).
  have := len_nonneg (ss_keys s). rw /maxUint64 in Hb. lia.
Qed.

Lemma total_nonneg m : map_Forall session_ok m -> 0 <= total_bytes m.
Proof.
  induction m as [|k s m Hk IH] using map_ind => Hm; [done|].
  rw total_insert //. apply map_Forall_insert in Hm as [Hs Hm]; [|done].
  have := session_ok_bytes _ _ Hs. have := IH Hm. lia.
Qed.

Lemma total_lookup m k s : map_Forall session_ok m -> m !! k = Some s ->
  ss_bytes s <= total_bytes m.
Proof.
  intros Hm Hk. have E := total_delete m k s Hk.
  have : 0 <= total_bytes (delete k m); [|lia]. apply total_nonneg. by apply map_Forall_delete.
Qed.

(** ** Operations preserve the invariant *)

Lemma wf_new l : is_uint64 (lim_maxBytes l) -> wf (newScanSessionManager l).
Proof.
  intros Hl. rw /wf /=. split_and!; try done; [rw /is_uint64 in Hl; lia|rw map_size_empty; lia].
Qed.

Lemma remove_spec token s m : wf m -> sessions m !! token = Some s ->
  wf (removeLocked token s m) /\ sessions (removeLocked token s m) = delete token (sessions m) /\
  sm_limits (removeLocked token s m) = sm_limits m.
Proof.
  intros (Hl & Hb & Hmax & Hn & Hs) Hk. split_and!; try done. rw /wf /=.
  have Ht := total_delete _ _ _ Hk. have Hle := total_lookup _ _ _ Hs Hk.
  have Hp := session_ok_bytes _ _ (map_Forall_lookup_1 _ _ _ _ Hs Hk).
  rw /is_uint64 in Hl. rw /wrapu Z.mod_small; [rw /maxUint64 in Hl; lia|].
  split_and!; try done; try lia; [|by apply map_Forall_delete].
  rw map_size_delete Hk. lia.
Qed.

(** Expiry removes exactly the sessions that have not been used for [ttl]. *)
Lemma expire_spec now m : wf m ->
  wf (expireLocked now m) /\ sm_limits (expireLocked now m) = sm_limits m /\
  forall k, sessions (expireLocked now m) !! k =
    (s ← sessions m !! k; if session_expired now (lim_ttl (sm_limits m)) s then None else Some s).
Proof.
  intros Hwf. set ttl := lim_ttl (sm_limits m).
  set f := fun (token : Z) (s : scanSession) m' => if session_expired now ttl s then removeLocked token s m' else m'.
  set P := fun m' (seen : gmap Z scanSession) => seen ⊆ sessions m ->
    wf m' /\ sm_limits m' = sm_limits m /\ forall k, sessions m' !! k =
      match seen !! k with
      | Some s => if session_expired now ttl s then None else Some s
      | None => sessions m !! k
      end.
  have H : P (map_fold f m (sessions m)) (sessions m).
  { apply map_fold_weak_ind; rw /P.
    - intros _. split_and!; try done.
    - intros token s seen m' Hnew IH Hsub. have Hk : sessions m !! token = Some s.
      { eapply lookup_weaken; [|exact Hsub]. by rw lookup_insert_eq. }
      destruct IH as (I1 & I2 & I3). { etrans; [by apply insert_subseteq|done]. }
      have Htok : sessions m' !! token = Some s by rw I3 Hnew.
      rw /f. destruct (session_expired now ttl s) eqn:He.
      + destruct (remove_spec token s m' I1 Htok) as (R1 & R2 & R3). split_and!; [done|by rw R3|].
        intros k. rw R2. destruct (decide (k = token)) as [->|Hne].
        * by rw lookup_delete_eq lookup_insert_eq He.
        * by rw lookup_delete_ne // lookup_insert_ne // I3.
      + split_and!; try done. intros k. destruct (decide (k = token)) as [->|Hne].
        * by rw lookup_insert_eq He.
        * by rw lookup_insert_ne // I3.
  }
  destruct H as (H1 & H2 & H3); [done|]. split_and!; try done. intros k.
  rw /expireLocked -/ttl -/f H3. by destruct (sessions m !! k).
Qed.

Lemma nextToken_fresh tokens m t : nextTokenLocked tokens m = Some (Ret t) ->
  t <> 0 /\ sessions m !! t = None.
Proof.
  induction tokens as [|[u|] tokens IH]; try done. cbn [nextTokenLocked].
  case_cmp; [done|]. case_bool_decide as Hn; [done|]. intros [= <-]. split; [done|].
  by apply eq_None_not_Some.
Qed.

Lemma nextToken_err tokens m e : nextTokenLocked tokens m = Some (Fail e) -> e = ErrToken.
Proof.
  induction tokens as [|[u|] tokens IH]; try done; cbn [nextTokenLocked]; [|by intros [= <-]].
  case_cmp; [done|]. by case_bool_decide.
Qed.

(** The snapshots the engine hands over: their length fits an [int], the capacity covers
    it, and [count] is a [uint64]. *)
Definition args_ok (keys : list bytes) (keycap count : Z) : Prop :=
  len keys <= keycap /\ keycap <= maxInt64 /\ is_uint64 count.

Lemma is_uint64_cap keys keycap count : args_ok keys keycap count -> is_uint64 keycap.
Proof. intros (H1 & H2 & _). have := len_nonneg keys. rw /is_uint64 /maxUint64. rw /maxInt64 in H2. lia. Qed.

Lemma start_wf keys keycap pattern count now tokens m r m' : wf m -> args_ok keys keycap count ->
  start keys keycap pattern count now tokens m = Some (r, m') -> wf m' /\ sm_limits m' = sm_limits m.
Proof.
  intros Hwf Ha. rw /start. destruct (expire_spec now m Hwf) as (Hwf1 & Hl1 & _).
  set m1 := expireLocked now m in Hwf1 Hl1 *. have Hn := len_nonneg keys.
  destruct (scanSessionBytes_spec keys keycap pattern (is_uint64_cap _ _ _ Ha)) as [Eb Hb].
  destruct Ha as (Hcap & Hmax & Hc). rw scanPageEnd_spec //; [lia..|].
  destruct (Z.eqb_spec (Z.min (len keys) (0 + count)) (len keys)); [by intros [= <- <-]|].
  destruct (_ || _ || _) eqn:Hlim; [by intros [= <- <-]|].
  destruct (nextTokenLocked tokens m1) as [[t|e]|] eqn:Ht; [|by intros [= <- <-]|done].
  intros [= <- <-]. apply nextToken_fresh in Ht as [Ht0 Hfresh].
  apply orb_false_elim in Hlim as [[H1%Z.leb_gt H2%Z.ltb_ge]%orb_false_elim H3%Z.ltb_ge].
  destruct Hwf1 as (W1 & W2 & W3 & W4 & W5). have Htn := total_nonneg _ W5.
  set B := scanSessionBytes keys keycap pattern in Hb Eb H2 H3 *. rw /is_uint64 in Hb W1.
  rw /wrapu Z.mod_small in H3; [rw /maxUint64 in W1; lia|].
  split; [|done]. rw /wf /=. rw /wrapu Z.mod_small; [rw /maxUint64 in W1; lia|].
  split_and!; [done| |lia| |].
  - rw total_insert //=. lia.
  - rw map_size_insert Hfresh. lia.
  - apply map_Forall_insert_2; [|done]. rw /session_ok /=. rw /maxUint64 in W1. rw /maxInt64 in Hmax.
    rw /is_uint64 in Hc. have := key_bytes_nonneg keys. have := len_nonneg pattern.
    intros Hp Hk. split_and!; try done; try lia. rw /maxInt64. lia.
Qed.

(** A successful [next]: the page it delivers and the session it leaves. *)
Lemma next_spec cursor pattern pset count now tokens m s : wf m -> is_uint64 count ->
  sessions m !! cursor = Some s -> now < ss_lastUsed s + lim_ttl (sm_limits m) ->
  let stop := Z.min (len (ss_keys s)) (ss_position s + count) in
  let page := slice (ss_keys s) (ss_position s) stop in
  match next cursor pattern pset count now tokens m with
  | Some (Ret r, m') =>
      wf m' /\ sm_limits m' = sm_limits m /\ Keys r = page /\
      if stop =? len (ss_keys s) then Cursor r = 0
      else Cursor r <> 0 /\ Cursor r <> cursor /\ sessions m' !! cursor = None /\
        sessions m' !! Cursor r =
          Some (mkSession (ss_keys s) (ss_pattern s) stop now (ss_bytes s) (Cursor r))
  | Some (Fail e, m') => m' = expireLocked now m /\ (e = ErrScanMatchChanged \/ e = ErrToken)
  | None => True
  end.
Proof.
  intros Hwf Hc Hk Ht. destruct (expire_spec now m Hwf) as (Hwf1 & Hl1 & Hlk).
  have Hk1 : sessions (expireLocked now m) !! cursor = Some s.
  { rw Hlk Hk /= /session_expired /Before. by destruct (Z.ltb_spec now (ss_lastUsed s + lim_ttl (sm_limits m))); [|lia]. }
  rw /next Hk1. set m1 := expireLocked now m in Hwf1 Hl1 Hk1 *.
  have Hok : session_ok cursor s.
  { destruct Hwf1 as (_ & _ & _ & _ & Hs). by eapply map_Forall_lookup_1 in Hs. }
  destruct Hok as (_ & _ & Hpos & Hlen & Hb).
  destruct (_ && _); [by split; [|left]|]. rw scanPageEnd_spec //; [lia|].
  destruct (remove_spec cursor s m1 Hwf1 Hk1) as (R1 & R2 & R3).
  destruct (Z.eqb_spec (Z.min (len (ss_keys s)) (ss_position s + count)) (len (ss_keys s))) as [E|Hne].
  { split_and!; done. }
  destruct (nextTokenLocked tokens m1) as [[t|e]|] eqn:Etok; [|by apply nextToken_err in Etok; auto|done].
  apply nextToken_fresh in Etok as [Ht0 Hfresh].
  have Htc : t <> cursor by congruence.
  have Hfresh' : delete cursor (sessions m1) !! t = None by rw lookup_delete_ne.
  split_and!; try done; cbn [Cursor sessions sm_limits].
  2:{ by rw lookup_insert_ne // lookup_delete_eq. }
  2:{ by rw lookup_insert_eq. }
  destruct Hwf1 as (W1 & W2 & W3 & W4 & W5). rw /wf /=. split_and!; try done.
  - rw total_insert // (total_delete _ _ _ Hk1) /=. lia.
  - rw map_size_insert Hfresh' map_size_delete Hk1. have : (size (sessions m1) <> 0)%nat; [|lia].
    intros H0%map_size_empty_inv. by rw H0 in Hk1.
  - apply map_Forall_insert_2; [|by apply map_Forall_delete]. rw /is_uint64 in Hc.
    rw /session_ok /=. split_and!; try done; lia.
Qed.

Lemma expire_lookup now m k s : wf m -> sessions (expireLocked now m) !! k = Some s ->
  sessions m !! k = Some s /\ now < ss_lastUsed s + lim_ttl (sm_limits m).
Proof.
  intros Hwf. destruct (expire_spec now m Hwf) as (_ & _ & ->).
  destruct (sessions m !! k) as [s'|]; [simpl|done]. rw /session_expired /Before. case_cmp; [|done].
  by intros [= <-].
Qed.

Lemma expire_keeps now m k s : wf m -> sessions m !! k = Some s ->
  now < ss_lastUsed s + lim_ttl (sm_limits m) -> sessions (expireLocked now m) !! k = Some s.
Proof.
  intros Hwf Hk Hn. destruct (expire_spec now m Hwf) as (_ & _ & ->). rw Hk /= /session_expired /Before.
  by case_cmp; [|lia].
Qed.

Lemma next_wf cursor pattern pset count now tokens m r m' : wf m -> is_uint64 count ->
  next cursor pattern pset count now tokens m = Some (r, m') -> wf m' /\ sm_limits m' = sm_limits m.
Proof.
  intros Hwf Hc E. destruct (expire_spec now m Hwf) as (Hwf1 & Hl1 & _).
  destruct (sessions (expireLocked now m) !! cursor) as [s|] eqn:Hk.
  - destruct (expire_lookup _ _ _ _ Hwf Hk) as [Hk0 Ht].
    have H := next_spec cursor pattern pset count now tokens m s Hwf Hc Hk0 Ht. rw E in H.
    destruct r as [r|e]; [by destruct H as (? & ? & _)|by destruct H as [-> _]].
  - rw /next Hk in E. by injection E as <- <-.
Qed.

(** ** What SCAN promises, on open iterations *)

(** What a client may know of an open iteration: its pattern, the keys still to come, when
    it was last used and the bytes it is charged with. *)
Record scan := mkScan { sc_pattern : bytes; sc_rest : list bytes; sc_used : Z; sc_bytes : Z }.

Definition scan_of (s : scanSession) : scan :=
  mkScan (ss_pattern s) (drop (Z.to_nat (ss_position s)) (ss_keys s)) (ss_lastUsed s) (ss_bytes s).
Definition scans (m : scanSessionManager) : gmap Z scan := scan_of <$> sessions m.

(** The iterations that have not timed out at [now]. *)
Definition live_scans (now : Z) (m : scanSessionManager) : gmap Z scan :=
  filter (fun p => now < sc_used p.2 + lim_ttl (sm_limits m)) (scans m).

Definition open_bytes (o : gmap Z scan) : Z := map_fold (fun _ s n => sc_bytes s + n) 0 o.

(** The size a new iteration is charged: headers for the slice's capacity, the strings, the
    overhead, or the largest 64-bit number. *)
Definition charge (keys : list bytes) (keycap : Z) (pattern : bytes) : Z :=
  Z.min maxUint64 (16 * keycap + key_bytes keys + len pattern + 64).

(** [open_over lim o b]: there is no room for one more iteration of [b] bytes. *)
Definition open_over (lim : scanSessionLimits) (o : gmap Z scan) (b : Z) : Prop :=
  lim_maxSessions lim <= Z.of_nat (size o) \/ lim_maxBytes lim < open_bytes o + b.

(** A token the source offered, that is not 0 and not in use. *)
Definition fresh_token (tokens : list (option Z)) (o : gmap Z scan) (t : Z) : Prop :=
  Some t ∈ tokens /\ t <> 0 /\ o !! t = None.

(** The first page of an iteration over [keys], with the iterations [o] open before. *)
Inductive first_page (lim : scanSessionLimits) (keys : list bytes) (keycap : Z) (pattern : bytes) (count now : Z)
    (tokens : list (option Z)) (o : gmap Z scan) : result scan_err ScanResult -> gmap Z scan -> Prop :=
| first_all : len keys <= count -> first_page lim keys keycap pattern count now tokens o (Ret (mkScanResult 0 keys)) o
| first_full : count < len keys -> open_over lim o (charge keys keycap pattern) ->
    first_page lim keys keycap pattern count now tokens o (Fail ErrScanSessionLimit) o
| first_no_token : count < len keys -> ~ open_over lim o (charge keys keycap pattern) -> None ∈ tokens ->
    first_page lim keys keycap pattern count now tokens o (Fail ErrToken) o
| first_some t : count < len keys -> ~ open_over lim o (charge keys keycap pattern) -> fresh_token tokens o t ->
    first_page lim keys keycap pattern count now tokens o (Ret (mkScanResult t (take (Z.to_nat count) keys)))
      (<[t := mkScan pattern (drop (Z.to_nat count) keys) now (charge keys keycap pattern)]> o).

(** The page behind [cursor]. *)
Inductive next_page (cursor : Z) (pattern : bytes) (patternSet : bool) (count now : Z)
    (tokens : list (option Z)) (o : gmap Z scan) : result scan_err ScanResult -> gmap Z scan -> Prop :=
| next_unknown : o !! cursor = None -> next_page cursor pattern patternSet count now tokens o (Fail ErrInvalidCursor) o
| next_changed s : o !! cursor = Some s -> patternSet = true -> pattern <> sc_pattern s ->
    next_page cursor pattern patternSet count now tokens o (Fail ErrScanMatchChanged) o
| next_last s : o !! cursor = Some s -> (patternSet = true -> pattern = sc_pattern s) -> len (sc_rest s) <= count ->
    next_page cursor pattern patternSet count now tokens o (Ret (mkScanResult 0 (sc_rest s))) (delete cursor o)
| next_no_token s : o !! cursor = Some s -> (patternSet = true -> pattern = sc_pattern s) -> count < len (sc_rest s) ->
    None ∈ tokens -> next_page cursor pattern patternSet count now tokens o (Fail ErrToken) o
| next_some s t : o !! cursor = Some s -> (patternSet = true -> pattern = sc_pattern s) -> count < len (sc_rest s) ->
    fresh_token tokens o t ->
    next_page cursor pattern patternSet count now tokens o (Ret (mkScanResult t (take (Z.to_nat count) (sc_rest s))))
      (<[t := mkScan (sc_pattern s) (drop (Z.to_nat count) (sc_rest s)) now (sc_bytes s)]> (delete cursor o)).

Lemma scans_expire now m : wf m -> scans (expireLocked now m) = live_scans now m.
Proof.
  intros Hwf. destruct (expire_spec now m Hwf) as (_ & _ & Hl). apply map_eq => k.
  rw /scans /live_scans lookup_fmap Hl map_lookup_filter lookup_fmap. destruct (sessions m !! k) as [s|]; [|done].
  cbn. rw /session_expired /Before. case_cmp; cbn; [by rw option_guard_True|by rw option_guard_False //; lia].
Qed.

Lemma open_bytes_scans m : open_bytes (scans m) = total_bytes (sessions m).
Proof.
  rw /scans. induction (sessions m) as [|k s o Hk IH] using map_ind; [done|].
  rw fmap_insert total_insert // -IH /open_bytes map_fold_insert_L //; [intros; lia|]. by rw lookup_fmap Hk.
Qed.

Lemma size_scans m : size (scans m) = size (sessions m).
Proof. apply map_size_fmap. Qed.

(** What the token source yields. *)
Lemma nextToken_spec tokens m r : nextTokenLocked tokens m = Some r ->
  match r with Ret t => fresh_token tokens (scans m) t | Fail e => e = ErrToken /\ None ∈ tokens end.
Proof.
  rw /fresh_token /scans. induction tokens as [|[u|] tokens IH]; [done| |intros [= <-]; split; [done|left]]. cbn [nextTokenLocked].
  have Hrest : nextTokenLocked tokens m = Some r -> match r with
    | Ret t => Some t ∈ Some u :: tokens /\ t <> 0 /\ (scan_of <$> sessions m) !! t = None
    | Fail e => e = ErrToken /\ None ∈ Some u :: tokens end.
  { intros H. specialize (IH H). destruct r; [destruct IH as (? & ?)|destruct IH as (? & ?)]; split; try done; by right. }
  case_cmp; [done|]. case_bool_decide as Hn; [done|]. intros [= <-]. split; [by left|]. split; [done|].
  apply eq_None_not_Some in Hn. by rw lookup_fmap Hn.
Qed.

(** The engine's sessions implement these promises. *)
Lemma start_page keys keycap pattern count now tokens m r m' : wf m -> args_ok keys keycap count ->
  start keys keycap pattern count now tokens m = Some (r, m') ->
  first_page (sm_limits m) keys keycap pattern count now tokens (live_scans now m) r (scans m').
Proof.
  intros Hwf Ha. rw -scans_expire // /start. destruct (expire_spec now m Hwf) as (Hwf1 & <- & _).
  set m1 := expireLocked now m in Hwf1 *. have Hn := len_nonneg keys.
  destruct (scanSessionBytes_spec keys keycap pattern (is_uint64_cap _ _ _ Ha)) as [Eb Hb]. fold (charge keys keycap pattern) in Eb.
  rw Eb in Hb |- *. destruct Ha as (Hcap & Hmax & Hc). rw scanPageEnd_spec //; [lia..|]. rw Z.add_0_l /slice drop_0 Z.sub_0_r.
  destruct (Z.eqb_spec (Z.min (len keys) count) (len keys)) as [He|He].
  { intros [= <- <-]. rw He /len Nat2Z.id firstn_all. constructor. rw /is_uint64 in Hc. lia. }
  have Hlt : count < len keys by lia. rw Z.min_r; [lia|].
  have Hover : (lim_maxSessions (sm_limits m1) <=? Z.of_nat (size (sessions m1))) ||
      (lim_maxBytes (sm_limits m1) <? charge keys keycap pattern) ||
      (wrapu 64 (lim_maxBytes (sm_limits m1) - charge keys keycap pattern) <? sm_bytes m1) = true <->
    open_over (sm_limits m1) (scans m1) (charge keys keycap pattern).
  { rw /open_over size_scans open_bytes_scans. destruct Hwf1 as (W1 & W2 & W3 & W4 & W5). have := total_nonneg _ W5.
    rw !orb_true_iff Z.leb_le !Z.ltb_lt -W2 => Ht. rw /is_uint64 in Hb W1.
    destruct (Z.lt_ge_cases (lim_maxBytes (sm_limits m1)) (charge keys keycap pattern)); [lia|].
    rw /wrapu Z.mod_small; [rw /maxUint64 in W1; lia|]. lia. }
  destruct (_ || _ || _).
  { intros [= <- <-]. constructor; [done|]. by apply Hover. }
  have Hroom : ~ open_over (sm_limits m1) (scans m1) (charge keys keycap pattern) by rw -Hover.
  destruct (nextTokenLocked tokens m1) as [rt|] eqn:Et; [|done]. apply nextToken_spec in Et.
  destruct rt as [t|e]; intros [= <- <-].
  - rw /scans fmap_insert. by constructor.
  - destruct Et as [-> Hno]. by constructor.
Qed.

Lemma next_page_spec cursor pattern patternSet count now tokens m r m' : wf m -> is_uint64 count ->
  next cursor pattern patternSet count now tokens m = Some (r, m') ->
  next_page cursor pattern patternSet count now tokens (live_scans now m) r (scans m').
Proof.
  intros Hwf Hc. rw -scans_expire // /next. destruct (expire_spec now m Hwf) as (Hwf1 & _ & _).
  set m1 := expireLocked now m in Hwf1 *.
  have Hcur : scans m1 !! cursor = scan_of <$> sessions m1 !! cursor by rw lookup_fmap.
  destruct (sessions m1 !! cursor) as [s|] eqn:Hk; [|intros [= <- <-]; by constructor].
  destruct (patternSet && _) eqn:Hp.
  { apply andb_prop in Hp as [-> Hp]. apply negb_true_iff, bool_decide_eq_false in Hp. intros [= <- <-].
    by apply (next_changed _ _ _ _ _ _ _ (scan_of s)). }
  have Hpat : patternSet = true -> pattern = sc_pattern (scan_of s).
  { intros ->. by case_bool_decide. }
  have Hok : session_ok cursor s by destruct Hwf1 as (_ & _ & _ & _ & Hs); eapply map_Forall_lookup_1 in Hs.
  destruct Hok as (_ & _ & Hpos & Hlen & _). rw scanPageEnd_spec //; [lia|].
  have Hrest : len (sc_rest (scan_of s)) = len (ss_keys s) - ss_position s.
  { rw /len /= length_drop. rw /len in Hpos. lia. }
  destruct (Z.eqb_spec (Z.min (len (ss_keys s)) (ss_position s + count)) (len (ss_keys s))) as [He|He].
  { intros [= <- <-]. rw /scans /= fmap_delete. have -> : slice (ss_keys s) (ss_position s) (Z.min (len (ss_keys s)) (ss_position s + count)) = sc_rest (scan_of s).
    { rw He /slice take_ge //. rw length_drop /len. lia. }
    apply (next_last _ _ _ _ _ _ _ (scan_of s)); [done..|]. rw /is_uint64 in Hc. lia. }
  have Hlt : count < len (sc_rest (scan_of s)) by lia. rw Z.min_r; [lia|].
  destruct (nextTokenLocked tokens m1) as [rt|] eqn:Et; [|done]. apply nextToken_spec in Et.
  destruct rt as [t|e]; intros [= <- <-].
  - rw /scans /= fmap_insert fmap_delete /slice /scan_of /= Z.add_simpl_l Z2Nat.inj_add; [lia|rw /is_uint64 in Hc; lia|].
    rw -drop_drop. by apply (next_some _ _ _ _ _ _ _ (scan_of s)).
  - destruct Et as [-> Hno]. by apply (next_no_token _ _ _ _ _ _ _ (scan_of s)).
Qed.

(** ** Sequences of operations *)

Inductive scan_op :=
| OpStart (keys : list bytes) (keycap : Z) (pattern : bytes) (count now : Z) (tokens : list (option Z))
| OpNext (cursor : Z) (pattern : bytes) (pset : bool) (count now : Z) (tokens : list (option Z))
| OpClear.

Definition run_scan (o : scan_op) (m : scanSessionManager) : option (result scan_err ScanResult * scanSessionManager) :=
  match o with
  | OpStart ks cap pat c t toks => start ks cap pat c t toks m
  | OpNext cur pat ps c t toks => next cur pat ps c t toks m
  | OpClear => Some (Ret (mkScanResult 0 []), clear m)
  end.

Definition op_ok (o : scan_op) : Prop :=
  match o with
  | OpStart ks cap _ c _ _ => args_ok ks cap c
  | OpNext _ _ _ c _ _ => is_uint64 c
  | OpClear => True
  end.

Inductive reachable (l : scanSessionLimits) : scanSessionManager -> Prop :=
| reach_new : reachable l (newScanSessionManager l)
| reach_op o m r m' : reachable l m -> op_ok o -> run_scan o m = Some (r, m') -> reachable l m'.

Lemma wf_clear m : wf m -> wf (clear m).
Proof.
  intros (W1 & _ & _ & _ & _). rw /wf /=. split_and!; try done; [rw /is_uint64 in W1; lia|rw map_size_empty; lia].
Qed.

Lemma run_scan_wf o m r m' : wf m -> op_ok o -> run_scan o m = Some (r, m') ->
  wf m' /\ sm_limits m' = sm_limits m.
Proof.
  destruct o as [ks cap pat c t toks|cur pat ps c t toks|]; simpl; intros Hwf Ho E.
  - by eapply start_wf.
  - by eapply next_wf.
  - injection E as <- <-. split; [by apply wf_clear|done].
Qed.

Lemma reachable_wf l m : is_uint64 (lim_maxBytes l) -> reachable l m -> wf m /\ sm_limits m = l.
Proof.
  intros Hl. induction 1 as [|o m r m' _ [Hwf Hlim] Ho E]; [by split; [apply wf_new|]|].
  destruct (run_scan_wf _ _ _ _ Hwf Ho E) as [H1 H2]. split; [done|congruence].
Qed.

(** An operation that does not use cursor [c] leaves its session alone. *)
Lemma run_scan_frame o m r m' c s : wf m -> run_scan o m = Some (r, m') -> op_ok o ->
  sessions m !! c = Some s ->
  match o with
  | OpStart _ _ _ _ t _ => t < ss_lastUsed s + lim_ttl (sm_limits m)
  | OpNext cur _ _ _ t _ => cur <> c /\ t < ss_lastUsed s + lim_ttl (sm_limits m)
  | OpClear => False
  end -> sessions m' !! c = Some s.
Proof.
  intros Hwf E Ho Hk. destruct o as [ks cap pat cnt t toks|cur pat ps cnt t toks|]; [..|done]; simpl in E.
  - intros Ht. have Hk1 := expire_keeps t m c s Hwf Hk Ht. move: E. rw /start.
    destruct (_ =? len ks); [by intros [= _ <-]|]. destruct (_ || _); [by intros [= _ <-]|].
    destruct (nextTokenLocked toks _) as [[u|e]|] eqn:Eu; [|by intros [= _ <-]|done].
    intros [= _ <-]. apply nextToken_fresh in Eu as [_ Hf]. cbn [sessions].
    rw lookup_insert_ne //. congruence.
  - intros [Hne Ht]. have Hk1 := expire_keeps t m c s Hwf Hk Ht. move: E. rw /next.
    destruct (sessions (expireLocked t m) !! cur) as [s1|] eqn:Hcur; [|by intros [= _ <-]].
    destruct (_ && _); [by intros [= _ <-]|].
    destruct (_ =? len (ss_keys s1)); [intros [= _ <-]; by rw /= lookup_delete_ne|].
    destruct (nextTokenLocked toks _) as [[u|e]|] eqn:Eu; [|by intros [= _ <-]|done].
    intros [= _ <-]. apply nextToken_fresh in Eu as [_ Hf]. cbn [sessions].
    rw lookup_insert_ne; [congruence|]. by rw lookup_delete_ne.
Qed.

(** ** The number of sessions, and the search for a token *)

(** At most [n] sessions, now and in future. *)
Definition at_most (n : Z) (m : scanSessionManager) : Prop :=
  lim_maxSessions (sm_limits m) <= n /\ Z.of_nat (size (sessions m)) <= n.

Lemma expire_sub now m :
  sessions (expireLocked now m) ⊆ sessions m /\ sm_limits (expireLocked now m) = sm_limits m.
Proof.
  rw /expireLocked. apply (map_fold_weak_ind (fun m' _ => sessions m' ⊆ sessions m /\ sm_limits m' = sm_limits m)); [done|].
  intros k s _ m' _ [H1 H2]. case_match; [|done]. split; [|done]. cbn. etrans; [apply delete_subseteq|done].
Qed.

Lemma expire_at_most n now m : at_most n m -> at_most n (expireLocked now m).
Proof.
  destruct (expire_sub now m) as [Hs Hl]. rw /at_most Hl. intros [H1 H2]. split; [done|].
  apply map_subseteq_size in Hs. lia.
Qed.

Lemma run_scan_at_most n o m r m' : at_most n m -> 0 <= n -> run_scan o m = Some (r, m') -> at_most n m'.
Proof.
  intros Hm Hn. destruct o as [ks cap pat c t toks|cur pat ps c t toks|]; cbn [run_scan].
  - rw /start. have H1 := expire_at_most n t m Hm. set m1 := expireLocked t m in H1 *. destruct H1 as [H1 H2].
    case_match; [by intros [= _ <-]|]. destruct (_ || _ || _) eqn:Hl; [by intros [= _ <-]|].
    apply orb_false_elim in Hl as [[Hl%Z.leb_gt _]%orb_false_elim _].
    destruct (nextTokenLocked toks m1) as [[u|e]|]; [|by intros [= _ <-]|done]. intros [= _ <-]. split; [done|]. cbn.
    rw map_size_insert. case_match; cbn; lia.
  - rw /next. have H1 := expire_at_most n t m Hm. set m1 := expireLocked t m in H1 *. destruct H1 as [H1 H2].
    destruct (sessions m1 !! cur) as [s|] eqn:Hk; [|by intros [= _ <-]]. case_match; [by intros [= _ <-]|].
    have Hd : (size (delete cur (sessions m1)) = pred (size (sessions m1)))%nat by rw map_size_delete Hk.
    have Hp : (size (sessions m1) <> 0)%nat by intros H0%map_size_empty_inv; rw H0 in Hk.
    case_match; [intros [= _ <-]; split; [done|]; cbn; lia|].
    destruct (nextTokenLocked toks m1) as [[u|e]|]; [|by intros [= _ <-]|done]. intros [= _ <-]. split; [done|]. cbn.
    rw map_size_insert. case_match; cbn; lia.
  - intros [= _ <-]. destruct Hm as [H1 _]. split; [done|]. cbn. rw map_size_empty. lia.
Qed.

(** The search goes on only past the reserved 0 and tokens in use. *)
Lemma nextToken_none tokens m : nextTokenLocked tokens m = None ->
  Forall (fun o => exists t, o = Some t /\ (t = 0 \/ is_Some (sessions m !! t))) tokens.
Proof.
  induction tokens as [|[t|] tokens IH]; [by constructor| |done]. cbn [nextTokenLocked]. case_cmp.
  - intros H. constructor; [by exists t; auto|by apply IH].
  - case_bool_decide; [|done]. intros H'. constructor; [by exists t; auto|by apply IH].
Qed.

(** A source that fails, or offers more than [n + 1] different tokens. *)
Definition offers (n : Z) (tokens : list (option Z)) : Prop :=
  None ∈ tokens \/ n + 1 < Z.of_nat (size (list_to_set (omap id tokens) : gset Z)).

(** Among so many one is not 0 and not in use. *)
Lemma offers_enough n now m tokens : at_most n m -> offers n tokens ->
  ~ Forall (fun o => exists t, o = Some t /\ (t = 0 \/ is_Some (sessions (expireLocked now m) !! t))) tokens.
Proof.
  intros [_ Hm]%(expire_at_most n now) Hof Hall. rw Forall_forall in Hall. destruct Hof as [Hno|Hlt].
  { by destruct (Hall None Hno) as (t & ? & _). }
  have Hsub : (list_to_set (omap id tokens) : gset Z) ⊆ {[0]} ∪ dom (sessions (expireLocked now m)).
  { intros t. rw elem_of_list_to_set list_elem_of_omap. intros (o & Ho & E). destruct (Hall o Ho) as (t' & -> & Ht).
    injection E as ->. rw elem_of_union elem_of_singleton elem_of_dom. done. }
  apply subseteq_size in Hsub. set D := dom (sessions (expireLocked now m)) in Hsub.
  have HD : (size D = size (sessions (expireLocked now m)))%nat by apply size_dom.
  have Hu : (size ({[0%Z]} ∪ D) <= 1 + size D)%nat.
  { pose proof (size_union_alt ({[0]} : gset Z) D) as E. pose proof (size_singleton (C:=gset Z) 0).
    pose proof (subseteq_size (D ∖ {[0]}) D ltac:(set_solver)). lia. }
  lia.
Qed.

(** ** Traversals *)

(** Cursor [c] stands for a session last used at [last] that has still to deliver [rest]. *)
Definition outstanding (m : scanSessionManager) (c last : Z) (rest : list bytes) : Prop :=
  exists s, sessions m !! c = Some s /\ ss_lastUsed s = last /\
    rest = drop (Z.to_nat (ss_position s)) (ss_keys s).

(** A client walks from cursor [c], having collected [got], while other clients use the
    manager in between. Every operation in the meantime comes within the session's time to
    live; the sessions are not cleared. *)
Inductive walk : scanSessionManager -> Z -> Z -> list bytes -> scanSessionManager -> Z -> Z -> list bytes -> Prop :=
| walk_done m c last got : walk m c last got m c last got
| walk_mine m c last got pattern pset count now tokens r m1 m' c' last' got' :
    c <> 0 -> is_uint64 count -> now < last + lim_ttl (sm_limits m) ->
    next c pattern pset count now tokens m = Some (Ret r, m1) ->
    walk m1 (Cursor r) now (got ++ Keys r) m' c' last' got' ->
    walk m c last got m' c' last' got'
| walk_failed m c last got pattern pset count now tokens e m1 m' c' last' got' :
    c <> 0 -> is_uint64 count -> now < last + lim_ttl (sm_limits m) ->
    next c pattern pset count now tokens m = Some (Fail e, m1) ->
    walk m1 c last got m' c' last' got' ->
    walk m c last got m' c' last' got'
| walk_other m c last got o r m1 m' c' last' got' :
    op_ok o ->
    match o with
    | OpStart _ _ _ _ t _ => t < last + lim_ttl (sm_limits m)
    | OpNext cur _ _ _ t _ => cur <> c /\ t < last + lim_ttl (sm_limits m)
    | OpClear => False
    end ->
    run_scan o m = Some (r, m1) ->
    walk m1 c last got m' c' last' got' ->
    walk m c last got m' c' last' got'.

Lemma slice_drop {A} (l : list A) a b : 0 <= a <= b ->
  slice l a b ++ drop (Z.to_nat b) l = drop (Z.to_nat a) l.
Proof.
  intros Hab. rw /slice -{2}(take_drop (Z.to_nat (b - a)) (drop (Z.to_nat a) l)) drop_drop. do 2 f_equal. lia.
Qed.

Lemma outstanding_next m c last rest pattern pset count now tokens r m1 :
  wf m -> is_uint64 count -> outstanding m c last rest -> now < last + lim_ttl (sm_limits m) ->
  next c pattern pset count now tokens m = Some (Ret r, m1) ->
  wf m1 /\ exists rest', Keys r ++ rest' = rest /\ (0 < count -> Keys r <> []) /\
    (if Cursor r =? 0 then rest' = [] else outstanding m1 (Cursor r) now rest').
Proof.
  intros Hwf Hc (s & Hk & <- & ->) Ht E.
  have Hok : session_ok c s by destruct Hwf as (_ & _ & _ & _ & Hs); eapply map_Forall_lookup_1 in Hs.
  destruct Hok as (_ & _ & Hpos & Hlen & _).
  have H := next_spec c pattern pset count now tokens m s Hwf Hc Hk Ht. rw E in H.
  set stop := Z.min (len (ss_keys s)) (ss_position s + count) in H.
  have Hstop : ss_position s <= stop by rw /stop; rw /is_uint64 in Hc; lia.
  destruct H as (Hwf1 & _ & -> & Hrest). split; [done|].
  exists (drop (Z.to_nat stop) (ss_keys s)). split_and!.
  - apply slice_drop. lia.
  - intros Hpc Hnil. apply (f_equal length) in Hnil. rw /slice length_take length_drop /= in Hnil.
    rw /len in Hpos Hlen. rw /stop /len in Hnil. lia.
  - destruct (Z.eqb_spec stop (len (ss_keys s))) as [Es|Es].
    + rw Hrest Z.eqb_refl. apply drop_ge. rw Es /len. lia.
    + destruct Hrest as (Hr0 & _ & _ & Hl). case_cmp; [done|]. by eexists.
Qed.

Lemma walk_spec m c last got m' c' last' got' rest :
  walk m c last got m' c' last' got' -> wf m ->
  (if c =? 0 then rest = [] else outstanding m c last rest) ->
  exists rest', got ++ rest = got' ++ rest' /\
    (if c' =? 0 then rest' = [] else outstanding m' c' last' rest').
Proof.
  intros Hw. revert rest.
  induction Hw as [|m c last got pattern pset count now tokens r m1 m' c' last' got' Hc0 Hc Ht E _ IH
    |m c last got pattern pset count now tokens e m1 m' c' last' got' Hc0 Hc Ht E _ IH
    |m c last got o r m1 m' c' last' got' Ho Hf E _ IH] => rest Hwf Hrest.
  - by exists rest.
  - apply Z.eqb_neq in Hc0. rw Hc0 in Hrest.
    destruct (outstanding_next _ _ _ _ _ _ _ _ _ _ _ Hwf Hc Hrest Ht E) as (Hwf1 & rest1 & <- & _ & Hr1).
    destruct (IH rest1 Hwf1 Hr1) as (rest' & E' & Hr'). exists rest'. by rw app_assoc.
  - apply Z.eqb_neq in Hc0. rw Hc0 in Hrest IH. destruct Hrest as (s & Hk & <- & ->).
    have H := next_spec c pattern pset count now tokens m s Hwf Hc Hk Ht. rw E in H. destruct H as [-> _].
    destruct (expire_spec now m Hwf) as (Hwf1 & _ & _). apply IH; [done|].
    exists s. split_and!; try done. by apply expire_keeps.
  - destruct (run_scan_wf _ _ _ _ Hwf Ho E) as [Hwf1 _]. apply IH; [done|].
    destruct (Z.eqb_spec c 0); [done|]. destruct Hrest as (s & Hk & <- & ->). exists s. split_and!; try done.
    by apply (run_scan_frame o m r m1 c s Hwf E Ho Hk).
Qed.

(** ** The theorems *)

(** C32. What the session store may retain: in every reachable manager at most [maxSessions]
    sessions are held, their accounted bytes are exactly the manager's counter and at most
    [maxBytes], and each session's account covers its string headers, its keys, its pattern
    and the overhead (or is the largest 64-bit number); no session is finished and none is
    filed under the reserved cursor 0. No subtraction or addition has wrapped. *)
Theorem scan_sessions_bounded l m : is_uint64 (lim_maxBytes l) -> reachable l m ->
  let '(active, retained) := stats m in
  active <= Z.max 0 (lim_maxSessions l) /\ retained = total_bytes (sessions m) /\
  0 <= retained <= lim_maxBytes l /\ map_Forall session_ok (sessions m).
Proof.
  intros Hl Hr. destruct (reachable_wf l m Hl Hr) as [(_ & H1 & H2 & H3 & H4) <-].
  simpl. split_and!; try done. rw H1. by apply total_nonneg.
Qed.

(** C13. A complete iteration returns every key exactly once: start a scan over a snapshot
    and follow the cursors with any page sizes, while other clients start, continue and
    fail their own scans and own calls fail too, each step coming within the session's time
    to live. At every moment the pages collected so far, in order, are an initial part of
    the snapshot, and when the cursor 0 is reached they are the whole snapshot. *)
Theorem scan_traversal_exact l m keys keycap pattern count now tokens r m1 m' c' last' got' :
  is_uint64 (lim_maxBytes l) -> reachable l m -> args_ok keys keycap count ->
  start keys keycap pattern count now tokens m = Some (Ret r, m1) ->
  walk m1 (Cursor r) now (Keys r) m' c' last' got' ->
  got' `prefix_of` keys /\ (c' = 0 -> got' = keys).
Proof.
  intros Hl Hr Ha E Hw. destruct (reachable_wf l m Hl Hr) as [Hwf _].
  destruct (start_wf _ _ _ _ _ _ _ _ _ Hwf Ha E) as [Hwf1 _].
  have Hstart : exists rest, Keys r ++ rest = keys /\
      (if Cursor r =? 0 then rest = [] else outstanding m1 (Cursor r) now rest).
  { move: E. destruct Ha as (Hcap & Hmax & Hc). have Hn := len_nonneg keys.
    rw /start scanPageEnd_spec; [lia|lia|done|]. set stop := Z.min _ _.
    have Hstop : 0 <= stop <= len keys by rw /stop; rw /is_uint64 in Hc; lia.
    destruct (Z.eqb_spec stop (len keys)) as [Es|_].
    - intros [= <- <-]. exists []. rw app_nil_r Es. split; [|done]. cbn [Keys].
      rw /slice drop_0 Z.sub_0_r /len Nat2Z.id firstn_all //.
    - destruct (_ || _); [done|]. destruct (nextTokenLocked tokens _) as [[t|e]|] eqn:Et; try done.
      intros [= <- <-]. apply nextToken_fresh in Et as [Ht0 _]. cbn [Cursor Keys].
      exists (drop (Z.to_nat stop) keys). split; [by rw slice_drop //; lia|].
      case_cmp; [done|]. eexists. by rw /= lookup_insert_eq. }
  destruct Hstart as (rest & Ek & Hrest).
  destruct (walk_spec _ _ _ _ _ _ _ _ rest Hw Hwf1 Hrest) as (rest' & E' & Hr').
  rw Ek in E'. split; [by exists rest'|]. intros ->. rw Z.eqb_refl in Hr'. subst rest'. by rw app_nil_r in E'.
Qed.

(** Cursors are used once, and only by a page that was delivered: after a successful
    [next] the cursor is invalid for every further call, and the page is not empty when the
    requested count is positive; a [next] refused because MATCH changed, or because no
    token could be drawn, leaves the session under the same cursor as it was. *)
Theorem scan_cursor_single_use l m c s pattern pset count now tokens res m1 :
  is_uint64 (lim_maxBytes l) -> reachable l m -> is_uint64 count ->
  sessions m !! c = Some s -> now < ss_lastUsed s + lim_ttl l ->
  next c pattern pset count now tokens m = Some (res, m1) ->
  match res with
  | Ret r =>
      (0 < count -> Keys r <> []) /\
      forall pattern' pset' count' now' tokens',
        exists m2, next c pattern' pset' count' now' tokens' m1 = Some (Fail ErrInvalidCursor, m2)
  | Fail e => (e = ErrScanMatchChanged \/ e = ErrToken) /\ sessions m1 !! c = Some s
  end.
Proof.
  intros Hl Hr Hc Hk Ht E. destruct (reachable_wf l m Hl Hr) as [Hwf <-].
  have H := next_spec c pattern pset count now tokens m s Hwf Hc Hk Ht. rw E in H.
  destruct res as [r|e]; [|destruct H as [-> He]; split; [done|by apply expire_keeps]].
  destruct (outstanding_next m c (ss_lastUsed s) (drop (Z.to_nat (ss_position s)) (ss_keys s))
    pattern pset count now tokens r m1) as (Hwf1 & _ & _ & Hne & _); [done|done|by exists s|done|done|].
  split; [done|]. intros pattern' pset' count' now' tokens'.
  have Hgone : sessions m1 !! c = None.
  { destruct H as (_ & _ & _ & Hrest). destruct (Z.eqb_spec (Z.min (len (ss_keys s)) (ss_position s + count)) (len (ss_keys s))) as [Es|Es];
      [|by destruct Hrest as (_ & _ & ? & _)].
    have Hk1 := expire_keeps now m c s Hwf Hk Ht. move: E. rw /next Hk1. destruct (_ && _); [done|].
    have Hok : session_ok c s by destruct Hwf as (_ & _ & _ & _ & Hs); eapply map_Forall_lookup_1 in Hs.
    destruct Hok as (_ & _ & Hpos & Hlen & _).
    rw scanPageEnd_spec //; [lia|]. rw Es Z.eqb_refl. intros [= _ <-]. by rw /= lookup_delete_eq. }
  eexists. rw /next. destruct (sessions (expireLocked now' m1) !! c) as [s'|] eqn:Hs'; [|done].
  destruct (expire_lookup _ _ _ _ Hwf1 Hs'). congruence.
Qed.

(** ** Witnesses *)

Definition three_keys : list bytes := [str "a"; str "b"; str "c"].
Definition m0 : scanSessionManager := newScanSessionManager defaultScanSessionLimits.

(** The manager after the first page; the token source first proposes the reserved 0. *)
Definition started : option (result scan_err ScanResult * scanSessionManager) :=
  start three_keys 4 (str "*") 1 0 [Some 0; Some 7] m0.
Definition m_started : scanSessionManager :=
  match started with Some (_, m) => m | None => m0 end.

Lemma m_started_reachable : reachable defaultScanSessionLimits m_started.
Proof.
  eapply (reach_op _ (OpStart three_keys 4 (str "*") 1 0 [Some 0; Some 7]) m0);
    [constructor|split_and!; by vm_compute|]. vm_compute. reflexivity.
Qed.

Lemma scan_sessions_bounded_witness : stats m_started = (1, 132) /\ map_Forall session_ok (sessions m_started).
Proof.
  split; [vm_compute; reflexivity|].
  apply (scan_sessions_bounded defaultScanSessionLimits m_started); [by vm_compute|apply m_started_reachable].
Defined.

Lemma scan_traversal_witness :
  exists m' got', walk m_started 7 0 [str "a"] m' 0 second got' /\ got' = three_keys.
Proof.
  eexists _, _.
  assert (Hw : walk m_started 7 0 [str "a"]
    (match next 7 [] false 5 second [] m_started with Some (_, m) => m | None => m0 end) 0 second
    ([str "a"] ++ [str "b"; str "c"])).
  { refine (walk_mine _ _ _ _ [] false 5 second [] (mkScanResult 0 [str "b"; str "c"]) _ _ _ _ _ _ _ _ _ (walk_done _ _ _ _));
      by vm_compute. }
  split; [exact Hw|].
  refine (proj2 (scan_traversal_exact defaultScanSessionLimits m0 three_keys 4 (str "*") 1 0 [Some 0; Some 7]
    (mkScanResult 7 [str "a"]) m_started _ _ _ _ _ _ _ _ Hw) eq_refl).
  - by vm_compute.
  - constructor.
  - split_and!; by vm_compute.
  - by vm_compute.
Defined.

Lemma scan_single_use_witness :
  exists m2, next 7 [] false 1 second [Some 9] m_started = Some (Ret (mkScanResult 9 [str "b"]), m2) /\
    exists m3, next 7 [] false 1 second [Some 10] m2 = Some (Fail ErrInvalidCursor, m3).
Proof.
  exists (match next 7 [] false 1 second [Some 9] m_started with Some (_, m) => m | None => m0 end).
  split; [vm_compute; reflexivity|].
  refine (proj2 (scan_cursor_single_use defaultScanSessionLimits m_started 7
    (mkSession three_keys (str "*") 1 0 132 7) [] false 1 second [Some 9]
    (Ret (mkScanResult 9 [str "b"])) _ _ m_started_reachable _ _ _ _) _ _ _ _ _); by vm_compute.
Defined.
