(* ===== verification/Engine.v ===== *)
(** * The engine (src/internal/engine/engine.go, incr.go, discovery.go)

    The engine owns the lock. Every method takes it once, so a method is a function of the
    engine's state: the part under the lock, followed by the wait for durability, which
    happens outside and reads only the log. The clock is an argument [now] (the value
    [e.now()] would return under the lock), the wait's outcome an argument [aw], what
    [log.Await] returned for a sequence number, and the loops over Go maps take the visited
    entries, as in the store.

    The log is used through the interface [Logger]; [AofLog.sys] implements it. *)

From S2P Require Import Prelude.
From S2P Require Import GoLib.
From S2P Require Import Store.
From S2P Require Import Glob.
From S2P Require Import RespReader.
From S2P Require Import AofCodec.
From S2P Require Import AofReplay.
From S2P Require Import AofLog.
From S2P Require Import ScanSessions.

(** ** The log, as the engine uses it *)

Class Logger (L : Type) := {
  log_open : Policy -> Z -> opened -> L;
  log_append : Record_ -> L -> result log_err Z * L;
  log_close : L -> L
}.

(** What the engine relies on: the log is an ordered list of accepted records, an accepted
    record is appended to it, a refused one leaves it alone. *)
Class LoggerLaws (L : Type) `{!Logger L} := {
  log_hist : L -> list Record_;
  log_append_ok r l n l' : log_append r l = (Ret n, l') -> log_hist l' = log_hist l ++ [r];
  log_append_fail r l e l' : log_append r l = (Fail e, l') -> log_hist l' = log_hist l
}.

(** [Append] on the log of a running system. *)
Definition sys_append (r : Record_) (s : sys) : result log_err Z * sys :=
  let '(res, l) := Append r (lg s) in
  (res, mkSys l (at_ s) (lastSync s) (file s) (disk s)
          (match res with Ret _ => hist s ++ [r] | Fail _ => hist s end)).

#[export] Instance sys_logger : Logger sys := {|
  log_open p now o := sys0 p now (of_content o) [];
  log_append := sys_append;
  log_close s := with_lg s (Close_signal (Close_lock (lg s)))
|}.

#[export] Instance sys_logger_laws : LoggerLaws sys.
Proof.
  refine {| log_hist := hist |}; intros r l n l'; rw /= /sys_append;
    destruct (Append r (lg l)) as [[]] => [= ? <-]; by subst.
Defined.

(** ** State *)

Inductive engine_err :=
| ErrDraining
| ErrPersistenceUnavailable (cause : log_err)
| ErrLog (cause : log_err)
| ErrNotAnInteger
| ErrIncrOverflow.

(** [TTL]: an optional duration. *)
Record TTL := mkTTL { ttl_d : Z; ttl_set : bool }.
Definition NoExpiry : TTL := mkTTL 0 false.
Definition ExpiresIn (d : Z) : TTL := mkTTL d true.

Record ScanRequest := mkScanRequest {
  rq_Cursor : Z;
  rq_Pattern : bytes;
  rq_PatternSet : bool;
  rq_Count : Z
}.

Section engine.
Context {L : Type} `{!Logger L}.

(** [expRunning] tells whether [expStop] is non-nil. *)
Record Engine := mkEngine {
  store : Store;
  acceptingMutations : bool;
  scanSessions : scanSessionManager;
  elog : option L;
  epolicy : Policy;
  appliedSeq : Z;
  expRunning : bool
}.

Definition NewEngine : Engine :=
  mkEngine Store.New true (newScanSessionManager defaultScanSessionLimits) None EverySec 0 false.

Definition with_store (e : Engine) (s : Store) : Engine :=
  mkEngine s (acceptingMutations e) (scanSessions e) (elog e) (epolicy e) (appliedSeq e) (expRunning e).
Definition with_log (e : Engine) (l : L) : Engine :=
  mkEngine (store e) (acceptingMutations e) (scanSessions e) (Some l) (epolicy e) (appliedSeq e) (expRunning e).
Definition with_scan (e : Engine) (m : scanSessionManager) : Engine :=
  mkEngine (store e) (acceptingMutations e) m (elog e) (epolicy e) (appliedSeq e) (expRunning e).

(** [None] is the panic on a second log. *)
Definition AttachLog (l : L) (p : Policy) (e : Engine) : option Engine :=
  match elog e with
  | Some _ => None
  | None =>
      Some (mkEngine (store e) (acceptingMutations e) (scanSessions e) (Some l) p (appliedSeq e) (expRunning e))
  end.

(** [None] is the panic; recovery itself always ends. On an error the store keeps what
    replay had applied. *)
Definition OpenLog (ops : file_ops) (content : bytes) (p : Policy) (now : Z) (e : Engine) :
    option (result open_err Result * Engine) :=
  match elog e with
  | Some _ => None
  | None =>
      match OpenFile ops content now (store e) with
      | None => None
      | Some (Fail err, res, s) => Some (Fail err, with_store e s)
      | Some (Ret o, res, s) =>
          Some (Ret res,
                mkEngine s (acceptingMutations e) (scanSessions e) (Some (log_open p now o)) p
                  (appliedSeq e) (expRunning e))
      end
  end.

(** [Finalize] up to the wait for the writer. *)
Definition Finalize (e : Engine) : Engine :=
  match elog e with None => e | Some l => with_log e (log_close l) end.

(** ** Committing *)

(** [e.log] is not nil here: [l] is it. *)
Definition commit (l : L) (rec : Record_) (apply : Store -> Store) (e : Engine) : result engine_err Z * Engine :=
  match log_append rec l with
  | (Fail err, l) =>
      (Fail (match err with ErrFailed _ => ErrPersistenceUnavailable err | _ => ErrLog err end), with_log e l)
  | (Ret seq, l) =>
      (Ret seq,
       mkEngine (apply (store e)) (acceptingMutations e) (scanSessions e) (Some l) (epolicy e) seq (expRunning e))
  end.

Definition commitSet (key value : bytes) (deadline : Z) (hasTTL : bool) (apply : Store -> Store) (e : Engine) :
    result engine_err Z * Engine :=
  match elog e with
  | None => (Ret 0, with_store e (apply (store e)))
  | Some l => commit l (DeriveSet key value deadline hasTTL) apply e
  end.

Definition commitDel (keys : list bytes) (apply : Store -> Store) (e : Engine) : result engine_err Z * Engine :=
  match elog e with
  | None => (Ret 0, with_store e (apply (store e)))
  | Some l => commit l (DeriveDel keys) apply e
  end.

(** [aw seq] is the error of [log.Await(seq, policy)]. *)
Definition await (aw : Z -> option log_err) (seq : Z) (e : Engine) : option engine_err :=
  match elog e with
  | None => None
  | Some _ => if seq =? 0 then None else ErrPersistenceUnavailable <$> aw seq
  end.

Definition readNow (now : Z) (e : Engine) : Z := if negb (HasExpirations (store e)) then time_zero else now.

(** ** Reads *)

Definition Get (key : bytes) (now : Z) (e : Engine) : option bytes := Store.Get (store e) key (readNow now e).

Definition MGet (keys : list bytes) (now : Z) (e : Engine) : list (option bytes) :=
  let now := readNow now e in (fun k => Store.Get (store e) k now) <$> keys.

Definition Exists (keys : list bytes) (now : Z) (e : Engine) : Z :=
  let now := readNow now e in
  foldl (fun n k => match Store.Get (store e) k now with Some _ => n + 1 | None => n end) 0 keys.

Definition ETTL (key : bytes) (now : Z) (e : Engine) : Z * TTLStatus :=
  match Store.TTL (store e) key (readNow now e) with
  | (d, HasTTL) => (d, HasTTL)
  | (_, NoTTL) => (0, NoTTL)
  | (_, NoKey) => (0, NoKey)
  end.

Definition DBSize (iter : list (bytes * bytes)) (now : Z) (e : Engine) : Z := Len (store e) iter (readNow now e).

(** ** Mutations *)

(** The sequence number a closure under the lock returned, then the wait. *)
Definition finish_op (aw : Z -> option log_err) (r : result engine_err Z * Engine) : option engine_err * Engine :=
  match r with
  | (Fail err, e) => (Some err, e)
  | (Ret seq, e) => (await aw seq e, e)
  end.

Definition Set_locked (key value : bytes) (ttl : TTL) (now : Z) (e : Engine) : result engine_err Z * Engine :=
  if negb (acceptingMutations e) then (Fail ErrDraining, e)
  else
    let deadline := if ttl_set ttl then now + ttl_d ttl else time_zero in
    commitSet key value deadline (ttl_set ttl) (fun s => Set_ s key value deadline (ttl_set ttl)) e.

Definition ESet (key value : bytes) (ttl : TTL) (now : Z) (aw : Z -> option log_err) (e : Engine) :
    option engine_err * Engine :=
  finish_op aw (Set_locked key value ttl now e).

(** The closure of [Expire]: [Ret None] when nothing applied. *)
Definition Expire_locked (key : bytes) (d now : Z) (e : Engine) : result engine_err (option Z) * Engine :=
  if negb (acceptingMutations e) then (Fail ErrDraining, e)
  else
    match Store.Get (store e) key now with
    | None => (Ret None, e)
    | Some value =>
        let deadline := now + d in
        let '(r, e) := commitSet key value deadline true (fun s => (Store.Expire s key deadline now).2) e in
        (match r with Ret seq => Ret (Some seq) | Fail err => Fail err end, e)
    end.

(** The flag and error both methods below return. *)
Definition finish_flag (aw : Z -> option log_err) (r : result engine_err (option Z) * Engine) :
    bool * option engine_err * Engine :=
  match r with
  | (Fail err, e) => (false, Some err, e)
  | (Ret None, e) => (false, None, e)
  | (Ret (Some seq), e) => (true, await aw seq e, e)
  end.

Definition Expire (key : bytes) (d now : Z) (aw : Z -> option log_err) (e : Engine) :
    bool * option engine_err * Engine :=
  finish_flag aw (Expire_locked key d now e).

Definition Persist_locked (key : bytes) (now : Z) (e : Engine) : result engine_err (option Z) * Engine :=
  if negb (acceptingMutations e) then (Fail ErrDraining, e)
  else
    match Store.Get (store e) key now with
    | None => (Ret None, e)
    | Some value =>
        if negb (bool_decide ((Store.TTL (store e) key now).2 = HasTTL)) then (Ret None, e)
        else
          let '(r, e) := commitSet key value time_zero false (fun s => (Store.Persist s key now).2) e in
          (match r with Ret seq => Ret (Some seq) | Fail err => Fail err end, e)
    end.

Definition Persist (key : bytes) (now : Z) (aw : Z -> option log_err) (e : Engine) :
    bool * option engine_err * Engine :=
  finish_flag aw (Persist_locked key now e).

(** The loop that decides which keys the record names. *)
Fixpoint live_keys (s : Store) (now : Z) (seen : gset bytes) (keys : list bytes) : list bytes :=
  match keys with
  | [] => []
  | k :: keys =>
      if bool_decide (k ∈ seen) then live_keys s now seen keys
      else
        match Store.Get s k now with
        | Some _ => k :: live_keys s now ({[k]} ∪ seen) keys
        | None => live_keys s now ({[k]} ∪ seen) keys
        end
  end.

Definition Delete_locked (keys : list bytes) (now : Z) (e : Engine) : result engine_err (Z * Z) * Engine :=
  if negb (acceptingMutations e) then (Fail ErrDraining, e)
  else
    let now := readNow now e in
    let live := live_keys (store e) now ∅ keys in
    let removed := len live in
    let apply := fun s => foldl (fun s k => (Delete s k).2) s keys in
    if removed =? 0 then (Ret (0, 0), with_store e (apply (store e)))
    else
      let '(r, e) := commitDel live apply e in
      (match r with Ret seq => Ret (removed, seq) | Fail err => Fail err end, e).

Definition EDelete (keys : list bytes) (now : Z) (aw : Z -> option log_err) (e : Engine) :
    Z * option engine_err * Engine :=
  match Delete_locked keys now e with
  | (Fail err, e) => (0, Some err, e)
  | (Ret (removed, seq), e) => (removed, await aw seq e, e)
  end.

Definition BeginDrain (e : Engine) : Engine :=
  mkEngine (store e) false (scanSessions e) (elog e) (epolicy e) (appliedSeq e) (expRunning e).

Definition expirationSample : Z := 20.

Definition reclaimOnce (iter : list (bytes * Z)) (now : Z) (e : Engine) : Z * Z * Engine :=
  let '(s, removed, examined) := ReclaimExpired (store e) iter now expirationSample in
  (removed, examined, with_store e s).

Definition set_running (b : bool) (e : Engine) : Engine :=
  mkEngine (store e) (acceptingMutations e) (scanSessions e) (elog e) (epolicy e) (appliedSeq e) b.
(** Starting a running worker, or stopping a stopped one, changes nothing. *)
Definition startExpiration (e : Engine) : Engine := if expRunning e then e else set_running true e.
Definition StopExpiration (e : Engine) : Engine := set_running false e.

(** ** INCR *)

Definition is_digit19 (c : byte) : bool := (49 <=? bval c) && (bval c <=? 57).

Definition parseStoredInt (s : bytes) : option Z :=
  match s with
  | [] => None
  | c :: s' =>
      if bool_decide (s = str "0") then Some 0
      else
        let digits := if bool_decide (c = "-"%byte) then s' else s in
        match digits with
        | [] => None
        | d :: _ =>
            if negb (is_digit19 d) then None
            else if negb (forallb is_digit digits) then None
            else ParseInt s
        end
  end.

Definition IncrBy_locked (key : bytes) (delta now : Z) (e : Engine) : result engine_err (Z * Z) * Engine :=
  if negb (acceptingMutations e) then (Fail ErrDraining, e)
  else
    let now := readNow now e in
    let value := Store.Get (store e) key now in
    let current := match value with Some v => parseStoredInt v | None => Some 0 end in
    match current with
    | None => (Fail ErrNotAnInteger, e)
    | Some current =>
        if ((0 <? delta) && (wraps 64 (maxInt64 - delta) <? current)) ||
           ((delta <? 0) && (current <? wraps 64 (minInt64 - delta)))
        then (Fail ErrIncrOverflow, e)
        else
          let result := wraps 64 (current + delta) in
          let text := FormatInt result in
          let expiry := match value with Some _ => ExpiresAt (store e) key | None => None end in
          let deadline := default time_zero expiry in
          let hasTTL := bool_decide (is_Some expiry) in
          let '(r, e) := commitSet key text deadline hasTTL (fun s => Set_ s key text deadline hasTTL) e in
          (match r with Ret seq => Ret (result, seq) | Fail err => Fail err end, e)
    end.

Definition IncrBy (key : bytes) (delta now : Z) (aw : Z -> option log_err) (e : Engine) :
    Z * option engine_err * Engine :=
  match IncrBy_locked key delta now e with
  | (Fail err, e) => (0, Some err, e)
  | (Ret (result, seq), e) => (result, await aw seq e, e)
  end.

(** ** Discovery *)

(** The loop of [filterSnapshot]: [out] is a prefix of the array it reads from; [i] is the
    next element to read and [n = len(out)]. *)
Fixpoint filter_loop (todo i n : nat) (pattern : bytes) (arr : list bytes) : nat * list bytes :=
  match todo with
  | O => (n, arr)
  | S todo =>
      match arr !! i with
      | None => (n, arr)
      | Some key =>
          if Match pattern key then filter_loop todo (S i) (S n) pattern (<[n := key]> arr)
          else filter_loop todo (S i) n pattern arr
      end
  end.

Definition filterSnapshot (keys : list bytes) (pattern : bytes) : list bytes :=
  let '(n, arr) := filter_loop (length keys) 0 0 pattern keys in take n arr.

Definition snapshotLiveKeys (iter : list (bytes * bytes)) (now : Z) (e : Engine) : list bytes :=
  LiveKeys (store e) iter (readNow now e).

Definition EKeys (pattern : bytes) (iter : list (bytes * bytes)) (now : Z) (e : Engine) : list bytes :=
  filterSnapshot (sort_Strings (snapshotLiveKeys iter now e)) pattern.

(** [keycap] is the capacity of the slice [LiveKeys] built. *)
Definition Scan (req : ScanRequest) (iter : list (bytes * bytes)) (keycap now : Z) (tokens : list (option Z))
    (e : Engine) : option (result scan_err ScanResult * Engine) :=
  let out :=
    if negb (rq_Cursor req =? 0)
    then next (rq_Cursor req) (rq_Pattern req) (rq_PatternSet req) (rq_Count req) now tokens (scanSessions e)
    else
      let keys := LiveKeys (store e) iter now in
      let pattern := if rq_PatternSet req then rq_Pattern req else str "*" in
      let keys := sort_Strings (filterSnapshot keys pattern) in
      start keys keycap pattern (rq_Count req) now tokens (scanSessions e) in
  (fun '(r, m) => (r, with_scan e m)) <$> out.

Definition ClearScanSessions (e : Engine) : Engine := with_scan e (clear (scanSessions e)).
End engine.
Arguments Engine L : clear implicits.

(** ** The specification: an abstract machine on the visible entries *)

Inductive eop :=
| MSet (key value : bytes) (ttl : TTL)
| MExpire (key : bytes) (d : Z)
| MPersist (key : bytes)
| MDelete (keys : list bytes)
| MIncr (key : bytes) (delta : Z).

(** What a mutation answers. *)
Inductive outcome := OUnit | OFlag (b : bool) | OCount (n : Z) | OInt (n : Z).

Definition spec_mut (o : eop) (now : Z) (m : gmap bytes entry) : result engine_err outcome * gmap bytes entry :=
  match o with
  | MSet k v ttl => (Ret OUnit, <[k := (v, if ttl_set ttl then Some (now + ttl_d ttl) else None)]> m)
  | MExpire k d =>
      match m !! k with
      | Some (v, _) => (Ret (OFlag true), <[k := (v, Some (now + d))]> m)
      | None => (Ret (OFlag false), m)
      end
  | MPersist k =>
      match m !! k with
      | Some (v, Some _) => (Ret (OFlag true), <[k := (v, None)]> m)
      | _ => (Ret (OFlag false), m)
      end
  | MDelete ks =>
      (Ret (OCount (Z.of_nat (size (dom m ∩ list_to_set ks : gset bytes)))),
       foldl (fun m k => delete k m) m ks)
  | MIncr k delta =>
      let '(current, od) :=
        match m !! k with Some (v, od) => (parseStoredInt v, od) | None => (Some 0, None) end in
      match current with
      | None => (Fail ErrNotAnInteger, m)
      | Some n =>
          if decide (is_int64 (n + delta))
          then (Ret (OInt (n + delta)), <[k := (FormatInt (n + delta), od)]> m)
          else (Fail ErrIncrOverflow, m)
      end
  end.

Section engine_run.
Context {L : Type} `{!Logger L}.

(** The engine's methods up to the wait, with their answers. *)
Definition mutate (o : eop) (now : Z) (e : Engine L) : result engine_err (outcome * Z) * Engine L :=
  match o with
  | MSet k v ttl =>
      let '(r, e) := Set_locked k v ttl now e in
      (match r with Ret seq => Ret (OUnit, seq) | Fail err => Fail err end, e)
  | MExpire k d =>
      let '(r, e) := Expire_locked k d now e in
      (match r with
       | Ret None => Ret (OFlag false, 0)
       | Ret (Some seq) => Ret (OFlag true, seq)
       | Fail err => Fail err
       end, e)
  | MPersist k =>
      let '(r, e) := Persist_locked k now e in
      (match r with
       | Ret None => Ret (OFlag false, 0)
       | Ret (Some seq) => Ret (OFlag true, seq)
       | Fail err => Fail err
       end, e)
  | MDelete ks =>
      let '(r, e) := Delete_locked ks now e in
      (match r with Ret (n, seq) => Ret (OCount n, seq) | Fail err => Fail err end, e)
  | MIncr k delta =>
      let '(r, e) := IncrBy_locked k delta now e in
      (match r with Ret (n, seq) => Ret (OInt n, seq) | Fail err => Fail err end, e)
  end.

Definition eop_ok (o : eop) : Prop := match o with MIncr _ delta => is_int64 delta | _ => True end.

(** The log refused the record. *)
Definition log_refused (e : Engine L) (err : engine_err) : Prop :=
  elog e <> None /\ match err with ErrPersistenceUnavailable _ | ErrLog _ => True | _ => False end.

(** ** Reading the clock *)

Lemma view_readNow now (e : Engine L) : view (store e) (readNow now e) = view (store e) now.
Proof.
  apply map_eq => k. rw !view_lookup /readNow. destruct (HasExpirations (store e)) eqn:H; [done|].
  by rw /= !no_expirations.
Qed.

Lemma Get_readNow k now (e : Engine L) : Store.Get (store e) k (readNow now e) = Store.Get (store e) k now.
Proof. by rw !Get_view view_readNow. Qed.

Lemma readNow_cases now (e : Engine L) : readNow now e = now \/ HasExpirations (store e) = false.
Proof. rw /readNow. destruct (HasExpirations (store e)); auto. Qed.

(** ** Committing *)

Lemma commit_set_spec k v d h apply (e : Engine L) r e' : commitSet k v d h apply e = (r, e') ->
  match r with
  | Ret _ => store e' = apply (store e)
  | Fail err => store e' = store e /\ log_refused e err
  end.
Proof.
  rw /commitSet /commit. destruct (elog e) as [l|] eqn:Hl; [|by intros [= <- <-]].
  destruct (log_append _ l) as [[n|err] l']; intros [= <- <-]; [done|].
  split; [done|]. split; [congruence|by destruct err].
Qed.

Lemma commit_del_spec ks apply (e : Engine L) r e' : commitDel ks apply e = (r, e') ->
  match r with
  | Ret _ => store e' = apply (store e)
  | Fail err => store e' = store e /\ log_refused e err
  end.
Proof.
  rw /commitDel /commit. destruct (elog e) as [l|] eqn:Hl; [|by intros [= <- <-]].
  destruct (log_append _ l) as [[n|err] l']; intros [= <- <-]; [done|].
  split; [done|]. split; [congruence|by destruct err].
Qed.

(** ** Counting the keys to delete *)

Lemma live_keys_spec s now seen ks :
  NoDup (live_keys s now seen ks) /\
  forall k, k ∈ live_keys s now seen ks <-> (k ∈ ks) /\ (k ∉ seen) /\ is_Some (Store.Get s k now).
Proof.
  revert seen. induction ks as [|a ks IH] => seen; cbn [live_keys].
  { split; [constructor|]. intros k. rw !elem_of_nil. naive_solver. }
  case_bool_decide as Ha.
  { destruct (IH seen) as [Hn He]. split; [done|]. intros k. rw He elem_of_cons. naive_solver. }
  destruct (IH ({[a]} ∪ seen)) as [Hn He]. destruct (Store.Get s a now) as [v|] eqn:Hg.
  - split.
    + constructor; [|done]. rw He. set_solver.
    + intros k. rw !elem_of_cons He. destruct (decide (k = a)) as [->|Hne]; [|set_solver].
      rw Hg. naive_solver.
  - split; [done|]. intros k. rw elem_of_cons He. destruct (decide (k = a)) as [->|Hne]; [|set_solver].
    rw Hg. split; [set_solver|]. by intros (_ & _ & []).
Qed.

Lemma live_keys_count s now ks :
  len (live_keys s now ∅ ks) = Z.of_nat (size (dom (view s now) ∩ list_to_set ks : gset bytes)).
Proof.
  destruct (live_keys_spec s now ∅ ks) as [Hn He]. rw /len. f_equal.
  rw -(size_list_to_set (C:=gset bytes) (live_keys s now ∅ ks)) //. f_equal. apply set_eq => k.
  rw elem_of_list_to_set He elem_of_intersection elem_of_list_to_set elem_of_dom Get_view.
  rw fmap_is_Some. set_solver.
Qed.

Lemma foldl_delete_drop s ks : foldl (fun s k => (Delete s k).2) s ks = drop_keys s ks.
Proof. done. Qed.

Lemma view_delete_keys s now t ks : now <= t ->
  view (foldl (fun s k => (Delete s k).2) s ks) t = tick t (foldl (fun m k => delete k m) (view s now) ks).
Proof.
  intros Hle. revert s. induction ks as [|k ks IH] => s /=; [by rw /view tick_tick|].
  rw IH. f_equal. f_equal. by rw /view phys_delete tick_delete.
Qed.

(** ** Refinement *)

(** The engine's answer [res] and state [e'] implement the specification's step. *)
Definition refines (o : eop) (now t : Z) (e : Engine L) (res : result engine_err (outcome * Z)) (e' : Engine L) : Prop :=
  match spec_mut o now (view (store e) now), res with
  | (Ret out', m'), Ret (out, _) => out = out' /\ view (store e') t = tick t m'
  | (Ret _, _), Fail err => store e' = store e /\ log_refused e err
  | (Fail err', _), Fail err => err = err' /\ e' = e
  | (Fail _, _), Ret _ => False
  end.

Lemma alter_insert_lookup {A} (f : A -> A) (m : gmap bytes A) k x : m !! k = Some x -> alter f k m = <[k := f x]> m.
Proof.
  intros Hk. apply map_eq => j. destruct (decide (j = k)) as [->|Hne].
  - by rw lookup_alter_eq Hk lookup_insert_eq.
  - by rw lookup_alter_ne // lookup_insert_ne.
Qed.

Lemma refines_set k v ttl now t e res e' : now <= t -> acceptingMutations e = true ->
  mutate (MSet k v ttl) now e = (res, e') -> refines (MSet k v ttl) now t e res e'.
Proof.
  intros Hle Hacc. rw /mutate /Set_locked Hacc /=.
  destruct (commitSet _ _ _ _ _ e) as [r e1] eqn:Ec. apply commit_set_spec in Ec.
  destruct r as [seq|err]; intros [= <- <-]; rw /refines /=; [|done].
  split; [done|]. rw Ec. set d := if ttl_set ttl then _ else _.
  rw (run_op_view (OSet k v d (ttl_set ttl)) now t (store e)) //= /d. by destruct (ttl_set ttl).
Qed.

Lemma refines_expire k d now t e res e' : now <= t -> acceptingMutations e = true ->
  mutate (MExpire k d) now e = (res, e') -> refines (MExpire k d) now t e res e'.
Proof.
  intros Hle Hacc. rw /mutate /Expire_locked Hacc /= /refines /= Get_view.
  destruct (view (store e) now !! k) as [[v od]|] eqn:Hv; simpl.
  2:{ intros [= <- <-]. split; [done|]. by rw /view tick_tick. }
  destruct (commitSet _ _ _ _ _ e) as [r e1] eqn:Ec. apply commit_set_spec in Ec.
  destruct r as [seq|err]; intros [= <- <-]; [|done]. split; [done|]. rw Ec.
  rw (run_op_view (OExpire k (now + d)) now t (store e)) //=. by rw (alter_insert_lookup _ _ _ (v, od)).
Qed.

Lemma refines_persist k now t e res e' : now <= t -> acceptingMutations e = true ->
  mutate (MPersist k) now e = (res, e') -> refines (MPersist k) now t e res e'.
Proof.
  intros Hle Hacc. rw /mutate /Persist_locked Hacc /= /refines /= Get_view TTL_view.
  have Hsame : view (store e) t = tick t (view (store e) now) by rw /view tick_tick.
  destruct (view (store e) now !! k) as [[v [d|]]|] eqn:Hv; simpl; try by intros [= <- <-].
  destruct (commitSet _ _ _ _ _ e) as [r e1] eqn:Ec. apply commit_set_spec in Ec.
  destruct r as [seq|err]; intros [= <- <-]; [|done]. split; [done|]. rw Ec.
  rw (run_op_view (OPersist k) now t (store e)) //=. by rw (alter_insert_lookup _ _ _ (v, Some d)).
Qed.

Lemma refines_delete ks now t e res e' : now <= t -> acceptingMutations e = true ->
  mutate (MDelete ks) now e = (res, e') -> refines (MDelete ks) now t e res e'.
Proof.
  intros Hle Hacc. rw /mutate /Delete_locked Hacc /= /refines /=.
  rw live_keys_count view_readNow. set n := Z.of_nat _.
  have Hv (e1 : Engine L) : store e1 = foldl (fun s k => (Delete s k).2) (store e) ks ->
      view (store e1) t = tick t (foldl (fun m k => delete k m) (view (store e) now) ks).
  { intros ->. by apply view_delete_keys. }
  destruct (Z.eqb_spec n 0) as [->|Hn].
  { intros [= <- <-]. split; [done|]. by apply Hv. }
  destruct (commitDel _ _ e) as [r e1] eqn:Ec. apply commit_del_spec in Ec.
  destruct r as [seq|err]; intros [= <- <-]; [|done]. split; [done|]. by apply Hv.
Qed.

Lemma parseStoredInt_range v n : parseStoredInt v = Some n -> is_int64 n.
Proof.
  rw /parseStoredInt. destruct v as [|c v]; [done|]. case_bool_decide; [by intros [= <-]|].
  case_match; [done|].
  destruct (negb _); [done|]. destruct (negb _); [done|]. apply ParseInt_range.
Qed.

(** The two guards of [IncrBy], computed in 64-bit arithmetic, are the exact condition. *)
Lemma overflow_guard n delta : is_int64 n -> is_int64 delta ->
  ((0 <? delta) && (wraps 64 (maxInt64 - delta) <? n)) ||
  ((delta <? 0) && (n <? wraps 64 (minInt64 - delta))) = negb (bool_decide (is_int64 (n + delta))).
Proof.
  rw /is_int64 /minInt64 /maxInt64 => Hn Hd.
  destruct (Z.ltb_spec 0 delta); destruct (Z.ltb_spec delta 0); try lia; cbn [andb orb]; rw /wraps ?orb_false_r.
  - rw Z.mod_small; [lia|]. case_bool_decide; case_cmp; try done; lia.
  - rw Z.mod_small; [lia|]. case_bool_decide; case_cmp; try done; lia.
  - by rw bool_decide_eq_true_2; [lia|].
Qed.

Lemma refines_incr k delta now t e res e' : now <= t -> is_int64 delta -> acceptingMutations e = true ->
  mutate (MIncr k delta) now e = (res, e') -> refines (MIncr k delta) now t e res e'.
Proof.
  intros Hle Hd Hacc. rw /mutate /IncrBy_locked Hacc /= /refines /= Get_readNow Get_view.
  set cur := view (store e) now !! k.
  have Hcur : (match fst <$> cur with Some v => parseStoredInt v | None => Some 0 end,
               match fst <$> cur with Some _ => ExpiresAt (store e) k | None => None end) =
              match cur with Some (v, od) => (parseStoredInt v, od) | None => (Some 0, None) end.
  { destruct cur as [[v od]|] eqn:Hv; simpl; [|done]. f_equal.
    rw /cur in Hv. by destruct (view_some _ _ _ _ _ Hv) as (_ & _ & <-). }
  rw -Hcur. destruct (match fst <$> cur with Some v => parseStoredInt v | None => Some 0 end) as [n|] eqn:Hn; simpl.
  2:{ by intros [= <- <-]. }
  have Hrange : is_int64 n.
  { destruct (fst <$> cur); [by eapply parseStoredInt_range|by simplify_eq]. }
  rw overflow_guard //. case_bool_decide as Hi; simpl; [|rw decide_False //; by intros [= <- <-]].
  rw decide_True //. have Hw : wraps 64 (n + delta) = n + delta.
  { rw /wraps Z.mod_small; rw /is_int64 /minInt64 /maxInt64 in Hi; lia. }
  rw Hw. set od := match fst <$> cur with Some _ => ExpiresAt (store e) k | None => None end.
  destruct (commitSet _ _ _ _ _ e) as [r e1] eqn:Ec. apply commit_set_spec in Ec.
  destruct r as [seq|err]; intros [= <- <-]; [|done]. split; [done|]. rw Ec.
  rw (run_op_view (OSet k (FormatInt (n + delta)) (default time_zero od) (bool_decide (is_Some od))) now t (store e)) //=.
  by destruct od.
Qed.

Lemma mutate_refines o now t e res e' : eop_ok o -> now <= t -> acceptingMutations e = true ->
  mutate o now e = (res, e') -> refines o now t e res e'.
Proof.
  destruct o; intros Ho Hle Hacc E.
  - by apply refines_set.
  - by apply refines_expire.
  - by apply refines_persist.
  - by apply refines_delete.
  - by apply refines_incr.
Qed.

(** While the server drains, no mutation does anything. *)
Lemma mutate_drained o now e res e' : acceptingMutations e = false -> mutate o now e = (res, e') ->
  res = Fail ErrDraining /\ e' = e.
Proof.
  intros Ha. rw /mutate /Set_locked /Expire_locked /Persist_locked /Delete_locked /IncrBy_locked Ha.
  destruct o; by intros [= <- <-].
Qed.

Lemma Scan_frame req iter keycap now tokens (e e' : Engine L) res :
  Scan req iter keycap now tokens e = Some (res, e') -> exists m, e' = with_scan e m.
Proof. rw /Scan. intros ([r m] & _ & [= -> ->])%fmap_Some. by exists m. Qed.

(** ** What a mutation touches *)

(** [e'] is [e] with another store, or with one record more offered to the log: [seq] is the
    record's number if the log took it, and 0 or nothing otherwise. *)
Definition touched (e e' : Engine L) (seq : option Z) : Prop :=
  (exists st, e' = with_store e st /\ default 0 seq = 0) \/
  exists l rec r l', elog e = Some l /\ log_append rec l = (r, l') /\
    match r with
    | Ret n => seq = Some n /\ exists st,
        e' = mkEngine st (acceptingMutations e) (scanSessions e) (Some l') (epolicy e) n (expRunning e)
    | Fail _ => seq = None /\ e' = with_log e l'
    end.

(** The number a locked part returns. *)
Definition seq_of (r : result engine_err Z) : option Z := match r with Ret n => Some n | Fail _ => None end.

Lemma touched_same e seq : default 0 seq = 0 -> touched e e seq.
Proof. left. exists (store e). split; [by destruct e|done]. Qed.

Lemma touched_commit l rec apply (e : Engine L) r e' : elog e = Some l -> commit l rec apply e = (r, e') ->
  touched e e' (seq_of r).
Proof.
  intros Hl. rw /commit. destruct (log_append rec l) as [[n|err] l'] eqn:E; intros [= <- <-]; right;
    eexists l, rec, _, l'; (split_and!; [done|done|]); [|done]. split; [done|]. by eexists.
Qed.

Lemma touched_commitSet k v d h apply (e : Engine L) r e' : commitSet k v d h apply e = (r, e') ->
  touched e e' (seq_of r).
Proof.
  rw /commitSet. destruct (elog e) as [l|] eqn:Hl; [by apply touched_commit|]. intros [= <- <-]. left. by eexists.
Qed.

Lemma touched_commitDel ks apply (e : Engine L) r e' : commitDel ks apply e = (r, e') -> touched e e' (seq_of r).
Proof.
  rw /commitDel. destruct (elog e) as [l|] eqn:Hl; [by apply touched_commit|]. intros [= <- <-]. left. by eexists.
Qed.

Lemma mutate_touched o now e res e' : mutate o now e = (res, e') ->
  touched e e' (match res with Ret (_, seq) => Some seq | Fail _ => None end).
Proof.
  rw /mutate /Set_locked /Expire_locked /Persist_locked /Delete_locked /IncrBy_locked.
  destruct o; (destruct (acceptingMutations e); cbn [negb]; [|intros [= <- <-]; by apply touched_same]).
  - destruct (commitSet _ _ _ _ _ e) as [[] e1] eqn:E; intros [= <- <-]; exact (touched_commitSet _ _ _ _ _ _ _ _ E).
  - destruct (Store.Get _ _ _); [|intros [= <- <-]; by apply touched_same].
    destruct (commitSet _ _ _ _ _ e) as [[] e1] eqn:E; intros [= <- <-]; exact (touched_commitSet _ _ _ _ _ _ _ _ E).
  - destruct (Store.Get _ _ _); [|intros [= <- <-]; by apply touched_same].
    destruct (negb _); [intros [= <- <-]; by apply touched_same|].
    destruct (commitSet _ _ _ _ _ e) as [[] e1] eqn:E; intros [= <- <-]; exact (touched_commitSet _ _ _ _ _ _ _ _ E).
  - destruct (_ =? 0); [intros [= <- <-]; left; by eexists|].
    destruct (commitDel _ _ e) as [[] e1] eqn:E; intros [= <- <-]; exact (touched_commitDel _ _ _ _ _ E).
  - destruct (match Store.Get _ _ _ with Some v => parseStoredInt v | None => Some 0 end);
      [|intros [= <- <-]; by apply touched_same].
    destruct (_ || _); [intros [= <- <-]; by apply touched_same|].
    destruct (commitSet _ _ _ _ _ e) as [[] e1] eqn:E; intros [= <- <-]; exact (touched_commitSet _ _ _ _ _ _ _ _ E).
Qed.
End engine_run.

(** ** Stored integers *)

(** Digits without a leading zero. *)
Definition plain (s : bytes) : bool :=
  match s with [] => false | d :: _ => is_digit19 d && forallb is_digit s end.

Lemma is_digit19_val d : is_digit19 d = true -> is_digit d = true /\ 1 <= digit_val d <= 9.
Proof.
  rw /is_digit19 /is_digit /digit_val => /andb_prop [/Z.leb_le H1 /Z.leb_le H2].
  split; [apply andb_true_intro; split; apply Z.leb_le; lia|lia].
Qed.

Lemma digit_val_inj c d : digit_val c = digit_val d -> c = d.
Proof. rw /digit_val => H. apply bval_inj. lia. Qed.

Lemma plain_positive s : plain s = true -> 1 <= dec_value 0 s.
Proof.
  destruct s as [|d s]; [done|]. cbn [plain]. intros [Hd Hs]%andb_prop. apply is_digit19_val in Hd as [_ Hd].
  cbn [dec_value forallb] in *. apply andb_prop in Hs as [_ Hs].
  have := dec_value_mono (0 * 10 + digit_val d) (0 * 10 + digit_val d) s ltac:(lia) Hs. lia.
Qed.

Lemma plain_snoc s c : plain (s ++ [c]) = true ->
  is_digit c = true /\ (s = [] \/ plain s = true).
Proof.
  destruct s as [|d s]; simpl.
  - rw andb_true_r. intros [H1 H2]%andb_prop. auto.
  - rw forallb_app /= andb_true_r. intros [Hd [H1 [H2 H3]%andb_prop]%andb_prop]%andb_prop.
    split; [done|right]. by rw Hd H1 H2.
Qed.

Lemma plain_inj s t : plain s = true -> plain t = true -> dec_value 0 s = dec_value 0 t -> s = t.
Proof.
  revert t. induction s as [|c s IH] using rev_ind => t Hs Ht E; [done|].
  destruct t as [|d t _] using rev_ind; [done|].
  destruct (plain_snoc s c Hs) as [Hc Hs']. destruct (plain_snoc t d Ht) as [Hd Ht'].
  rw !dec_value_app /= in E. apply is_digit_range in Hc, Hd.
  have Hcd : digit_val c = digit_val d by lia. have Hv : dec_value 0 s = dec_value 0 t by lia.
  apply digit_val_inj in Hcd. subst d. f_equal.
  destruct Hs' as [->|Hs']; destruct Ht' as [->|Ht']; [done|..|by apply IH].
  - apply plain_positive in Ht'. simpl in Hv. lia.
  - apply plain_positive in Hs'. simpl in Hv. lia.
Qed.

Lemma FormatUint_plain n : 0 < n < 10 ^ 20 -> plain (FormatUint n) = true.
Proof.
  intros Hn. destruct (FormatUint_spec n) as (Hd & Hv & Hl & Hz); [lia|].
  destruct (FormatUint n) as [|c s]; [simpl in Hl; lia|]. cbn [plain]. apply andb_true_intro. split; [|done].
  have Hc : is_digit c = true by move: Hd => /= /andb_prop [].
  rw /is_digit19. rw /is_digit in Hc. apply andb_prop in Hc as [H1%Z.leb_le H2%Z.leb_le].
  apply andb_true_intro. split; apply Z.leb_le; [|done].
  destruct (Z.eq_dec (bval c) 48) as [E|]; [|lia]. exfalso.
  have Ec : c = digit 0 by apply bval_inj; rw E. subst c.
  rw Hz // in Hv. vm_compute in Hv. lia.
Qed.

Lemma FormatUint_0 : FormatUint 0 = str "0".
Proof. reflexivity. Qed.

Lemma ParseInt_plain s n : plain s = true -> ParseInt s = Some n -> n = dec_value 0 s /\ 0 < n <= maxInt64.
Proof.
  intros Hp E. have Hpos := plain_positive s Hp. have Hr := ParseInt_range _ _ E. move: E. rw /ParseInt.
  destruct s as [|c s]; [done|]. have Hd : all_digits (c :: s) = true by move: Hp => /andb_prop [].
  destruct (all_digits_head_not c s Hd) as [H1 H2].
  rw bool_decide_eq_false_2 // bool_decide_eq_false_2 //. cbn [orb andb negb]. rw ParseUint_spec // Hd. cbn [andb]. destruct (_ <=? _); [|done]. destruct (2 ^ 63 <=? _); [done|]. intros [= <-].
  rw /is_int64 in Hr. split; [done|]. simpl in Hpos, Hr. lia.
Qed.

Lemma ParseInt_minus s n : plain s = true -> ParseInt ("-"%byte :: s) = Some n ->
  n = - dec_value 0 s /\ 0 < dec_value 0 s <= 2 ^ 63.
Proof.
  intros Hp E. have Hpos := plain_positive s Hp. have Hr := ParseInt_range _ _ E. move: E. rw /ParseInt.
  rw bool_decide_eq_true_2 //. cbn [orb andb negb]. destruct s as [|c s]; [done|].
  have Hd : all_digits (c :: s) = true by move: Hp => /andb_prop [].
  rw ParseUint_spec // Hd. cbn [andb]. destruct (_ <=? _); [|done].
  destruct (Z.ltb_spec (2 ^ 63) (dec_value 0 (c :: s))); [done|]. intros [= <-]. split; [done|]. lia.
Qed.

Lemma FormatUint_of_plain s : plain s = true -> dec_value 0 s < 10 ^ 20 -> FormatUint (dec_value 0 s) = s.
Proof.
  intros Hp Hlt. have Hpos := plain_positive s Hp. apply plain_inj; [apply FormatUint_plain; lia|done|].
  by destruct (FormatUint_spec (dec_value 0 s)) as (_ & -> & _); [lia|].
Qed.

(** The string without its sign. *)
Definition strip_minus (s : bytes) : bytes :=
  match s with [] => [] | c :: ds => if bool_decide (c = "-"%byte) then ds else s end.

Lemma strip_minus_ne s : head s <> Some "-"%byte -> strip_minus s = s.
Proof. destruct s as [|c s]; [done|]. rw /strip_minus /=. intros H. case_bool_decide; [congruence|done]. Qed.

(** [parseStoredInt] by the shape of the string. *)
Lemma parseStoredInt_shape s : parseStoredInt s =
  if bool_decide (s = str "0") then Some 0
  else if plain (strip_minus s) then ParseInt s else None.
Proof.
  destruct s as [|c s]; [done|]. rw /parseStoredInt. case_bool_decide as E0; [done|].
  cbn [strip_minus]. destruct (if bool_decide (c = "-"%byte) then s else c :: s) as [|d ds]; [done|].
  cbn [plain]. destruct (is_digit19 d); [|done]. by destruct (forallb is_digit (d :: ds)).
Qed.

Lemma plain_head_not s : plain s = true -> head s <> Some "-"%byte /\ s <> str "0".
Proof.
  destruct s as [|d s]; [done|]. cbn [plain]. intros [Hd _]%andb_prop. split.
  - intros [= ->]. by vm_compute in Hd.
  - intros [= -> _]. by vm_compute in Hd.
Qed.

Lemma parseStoredInt_plain s : plain s = true -> parseStoredInt s = ParseInt s.
Proof.
  intros Hp. destruct (plain_head_not s Hp) as [Hh H0]. rw parseStoredInt_shape bool_decide_eq_false_2 //.
  by rw strip_minus_ne // Hp.
Qed.

Lemma parseStoredInt_minus s : plain s = true -> parseStoredInt ("-"%byte :: s) = ParseInt ("-"%byte :: s).
Proof. intros Hp. rw parseStoredInt_shape bool_decide_eq_false_2 //. cbn [strip_minus]. by rw bool_decide_eq_true_2 // Hp. Qed.

(** C31. INCR reads exactly the canonical decimal notation of 64-bit integers: the accepted
    strings are those [FormatInt] produces, so "+5", "07", "-0" and "" are refused, and
    what INCR stores it can always read back. *)
Theorem parseStoredInt_canonical s n :
  parseStoredInt s = Some n <-> is_int64 n /\ s = FormatInt n.
Proof.
  have H20 : 2 ^ 63 < 10 ^ 20 by done. split.
  - intros E. have Hr := parseStoredInt_range _ _ E. split; [done|]. rw /is_int64 /maxInt64 in Hr.
    move: E. rw parseStoredInt_shape. case_bool_decide as E0; [by intros [= <-]; subst|].
    destruct (decide (head s = Some "-"%byte)) as [Hm|Hm].
    + destruct s as [|c s]; [done|]. injection Hm as ->. cbn [strip_minus]. rw bool_decide_eq_true_2; [reflexivity|]. destruct (plain s) eqn:Hp; [|done].
      intros E. destruct (ParseInt_minus s n Hp E) as [-> Hb]. rw /FormatInt. case_cmp; [|lia].
      rw Z.opp_involutive FormatUint_of_plain; [exact Hp|lia|reflexivity].
    + rw strip_minus_ne; [exact Hm|].
      destruct (plain s) eqn:Hp; [|done]. intros E. destruct (ParseInt_plain s n Hp E) as [-> Hb].
      rw /maxInt64 in Hb. rw /FormatInt. case_cmp; [lia|].
      rw FormatUint_of_plain; [exact Hp|lia|reflexivity].
  - intros [Hr ->]. transitivity (ParseInt (FormatInt n)); [|exact (ParseInt_FormatInt n Hr)].
    rw /is_int64 /minInt64 /maxInt64 in Hr. rw /FormatInt. case_cmp.
    + apply parseStoredInt_minus, FormatUint_plain. lia.
    + destruct (decide (n = 0)) as [->|]; [reflexivity|]. apply parseStoredInt_plain, FormatUint_plain. lia.
Qed.

(** ** Filtering in place *)

Definition matching (pattern : bytes) (k : bytes) : Prop := Match pattern k = true.

#[export] Instance matching_dec pattern k : Decision (matching pattern k).
Proof. rw /matching. apply _. Defined.

(** The loop writes only below what it still has to read. *)
Lemma filter_loop_spec todo i n pattern arr : (n <= i)%nat -> (i + todo = length arr)%nat ->
  let '(n', arr') := filter_loop todo i n pattern arr in
  take n' arr' = take n arr ++ filter (matching pattern) (drop i arr).
Proof.
  revert i n arr. induction todo as [|todo IH] => i n arr Hn Hi; cbn [filter_loop].
  { rw drop_ge; [lia|]. by rw app_nil_r. }
  destruct (lookup_lt_is_Some_2 arr i) as [key Hk]; [lia|]. rw Hk (drop_S _ _ _ Hk) filter_cons.
  destruct (Match pattern key) eqn:Hm.
  - rw decide_True; [exact Hm|]. have := IH (S i) (S n) (<[n := key]> arr) ltac:(lia) ltac:(rw length_insert; lia).
    destruct (filter_loop todo (S i) (S n) pattern _) as [n' arr']. move=> ->.
    rw drop_insert_lt; [lia|]. rw (take_S_r _ _ key); [apply list_lookup_insert_eq; lia|].
    rw take_insert_ge; [lia|]. by rw -app_assoc.
  - rw decide_False; [rw /matching Hm //|].
    have := IH (S i) n arr ltac:(lia) ltac:(lia). by destruct (filter_loop todo (S i) n pattern arr).
Qed.

Lemma filterSnapshot_filter keys pattern : filterSnapshot keys pattern = filter (matching pattern) keys.
Proof.
  rw /filterSnapshot. have := filter_loop_spec (length keys) 0 0 pattern keys ltac:(lia) ltac:(lia).
  destruct (filter_loop _ _ _ _ _) as [n arr]. by move=> ->.
Qed.

Lemma StronglySorted_filter {A} (R : A -> A -> Prop) (P : A -> Prop) `{!forall x, Decision (P x)} l :
  StronglySorted R l -> StronglySorted R (filter P l).
Proof.
  induction 1 as [|x l Hs IH Hx]; [constructor|]. rw filter_cons. case_decide; [|done].
  constructor; [done|]. apply list.Forall_forall. intros y [_ Hy]%list_elem_of_filter.
  by apply (proj1 (list.Forall_forall _ _) Hx).
Qed.

(** ** The theorems *)

Section engine_theorems.
Context {L : Type} `{!Logger L}.

Lemma EKeys_spec pattern iter now (e : Engine L) : ranges (data (store e)) iter ->
  let ks := EKeys pattern iter now e in
  StronglySorted bytes_le ks /\ NoDup ks /\
  (forall k, k ∈ ks <-> Match pattern k = true /\ is_Some (view (store e) now !! k)) /\
  sort_Strings (filterSnapshot (LiveKeys (store e) iter now) pattern) = ks.
Proof.
  intros Hr ks. rw /ks /EKeys !filterSnapshot_filter /snapshotLiveKeys.
  set live := LiveKeys (store e) iter (readNow now e).
  have Hel k : k ∈ live <-> is_Some (view (store e) now !! k).
  { by rw /live LiveKeys_elem // view_readNow. }
  have Hnd : NoDup (sort_Strings live) by rw sort_Strings_perm; apply LiveKeys_NoDup.
  have Hss : StronglySorted bytes_le (filter (matching pattern) (sort_Strings live)).
  { apply StronglySorted_filter, sort_Strings_sorted. }
  split_and!; [done|by apply NoDup_filter| |].
  - intros k. rw list_elem_of_filter sort_Strings_perm Hel. done.
  - apply (StronglySorted_unique bytes_le); [apply sort_Strings_sorted|done|].
    rw sort_Strings_perm. have Hp : LiveKeys (store e) iter now ≡ₚ live.
    { rw /live !LiveKeys_dom // view_readNow //. }
    rw Hp. by rw sort_Strings_perm.
Qed.

(** KEYS, and the snapshot of a SCAN, in closed form. *)
Lemma EKeys_sorted pattern iter now (e : Engine L) : ranges (data (store e)) iter ->
  EKeys pattern iter now e = sort_Strings (filter (matching pattern) (elements (dom (view (store e) now)))).
Proof.
  intros Hr. destruct (EKeys_spec pattern iter now e Hr) as (H1 & H2 & H3 & _).
  apply (StronglySorted_unique bytes_le); [done|apply sort_Strings_sorted|].
  rw sort_Strings_perm. apply NoDup_Permutation; [done|apply NoDup_filter, NoDup_elements|].
  intros k. rw H3 list_elem_of_filter elem_of_elements elem_of_dom. done.
Qed.

Lemma EKeys_len pattern iter now (e : Engine L) : len (EKeys pattern iter now e) <= len iter.
Proof.
  rw /EKeys filterSnapshot_filter /snapshotLiveKeys LiveKeys_filter /len.
  set P := fun en : bytes * bytes => expired (store e) en.1 (readNow now e) = false.
  pose proof (length_filter P iter). pose proof (length_filter (matching pattern) (sort_Strings (filter P iter).*1)) as H1.
  rw {2}sort_Strings_perm length_fmap in H1. lia.
Qed.

Lemma engine_reads keys key iter now (e : Engine L) : ranges (data (store e)) iter ->
  let v := view (store e) now in
  Get key now e = fst <$> v !! key /\
  MGet keys now e = (fun k => fst <$> v !! k) <$> keys /\
  Exists keys now e = len (filter (fun k => is_Some (v !! k)) keys) /\
  ETTL key now e =
    match v !! key with
    | None => (0, NoKey)
    | Some (_, None) => (0, NoTTL)
    | Some (_, Some d) => (time_Sub d now, HasTTL)
    end /\
  DBSize iter now e = Z.of_nat (size v).
Proof.
  intros Hr v. split_and!.
  - by rw /Get Get_readNow Get_view.
  - rw /MGet. apply list_fmap_ext => i k _. by rw Get_readNow Get_view.
  - rw /Exists. rw -(Z.add_0_l (len _)). generalize 0 as n.
    induction keys as [|k keys IH] => n /=; [by rw len_nil Z.add_0_r|].
    rw IH filter_cons Get_readNow Get_view -/v. destruct (v !! k) as [en|] eqn:Hk; simpl.
    + rw len_cons. lia.
    + done.
  - rw /ETTL TTL_view view_readNow -/v. destruct (v !! key) as [[x [d|]]|] eqn:Hk; [|done|done].
    destruct (readNow_cases now e) as [->|Hx]; [done|].
    apply view_some in Hk as (_ & _ & Hd). exfalso. rw /HasExpirations in Hx.
    case_cmp_in Hx; [done|]. have : size (expires (store e)) = 0%nat by lia.
    move=> /map_size_empty_iff Hs. by rw Hs in Hd.
  - by rw /DBSize Len_view // view_readNow.
Qed.

(** C3. The engine implements a map with expiry. Every mutation (SET, EXPIRE, PERSIST, DEL,
    INCRBY with a 64-bit increment) applied to the two-map store, whether or not the clock
    was read and whatever expired entries are still held, answers what the abstract machine
    on the visible entries answers, and leaves at every later instant exactly the entries
    that machine leaves; a value error changes nothing at all; if the log refuses the
    record the store is untouched; and once admission has ended, every mutation is refused
    with [ErrDraining] and nothing changes, the log included. *)
Theorem engine_refines_map o now t (e : Engine L) res e' :
  eop_ok o -> now <= t -> mutate o now e = (res, e') ->
  if acceptingMutations e then
    match spec_mut o now (view (store e) now), res with
    | (Ret out', m'), Ret (out, _) => out = out' /\ view (store e') t = tick t m'
    | (Ret _, _), Fail err => store e' = store e /\ log_refused e err
    | (Fail err', _), Fail err => err = err' /\ e' = e
    | (Fail _, _), Ret _ => False
    end
  else res = Fail ErrDraining /\ e' = e.
Proof.
  intros Ho Hle E. destruct (acceptingMutations e) eqn:Ha; [by apply (mutate_refines o now t e res e')|].
  by eapply mutate_drained.
Qed.

(** Every read is a function of the entries visible at the instant it runs: GET, MGET
    (one answer per requested key, in order), EXISTS (counting repetitions), TTL and
    DBSIZE; skipping the clock while no key carries a deadline cannot be observed. *)
Theorem engine_reads_are_views keys key iter now (e : Engine L) : ranges (data (store e)) iter ->
  let v := view (store e) now in
  Get key now e = fst <$> v !! key /\
  MGet keys now e = (fun k => fst <$> v !! k) <$> keys /\
  Exists keys now e = len (filter (fun k => is_Some (v !! k)) keys) /\
  ETTL key now e =
    match v !! key with
    | None => (0, NoKey)
    | Some (_, None) => (0, NoTTL)
    | Some (_, Some d) => (time_Sub d now, HasTTL)
    end /\
  DBSize iter now e = Z.of_nat (size v).
Proof. apply engine_reads. Qed.

(** Draining is final: once [BeginDrain] has run, and whatever sweeps and reads follow,
    every mutation is refused with [ErrDraining] and changes neither the store nor the log. *)
Theorem drain_is_final o now (e : Engine L) :
  mutate o now (BeginDrain e) = (Fail ErrDraining, BeginDrain e) /\
  (forall iter now', acceptingMutations (reclaimOnce iter now' (BeginDrain e)).2 = false) /\
  (forall now' aw k v ttl,
     (ESet k v ttl now' aw (BeginDrain e)) = (Some ErrDraining, BeginDrain e)).
Proof.
  split_and!; [by destruct o| |done]. intros iter now'. rw /reclaimOnce.
  by destruct (ReclaimExpired _ _ _ _) as [[]].
Qed.

(** KEYS and the snapshot behind SCAN: the matching visible keys, each exactly once, in
    bytewise order, whatever order the maps are visited in; filtering before or after
    sorting makes no difference. *)
Theorem keys_exact pattern iter now (e : Engine L) : ranges (data (store e)) iter ->
  let ks := EKeys pattern iter now e in
  StronglySorted bytes_le ks /\ NoDup ks /\
  (forall k, k ∈ ks <-> Match pattern k = true /\ is_Some (view (store e) now !! k)) /\
  sort_Strings (filterSnapshot (LiveKeys (store e) iter now) pattern) = ks.
Proof. apply EKeys_spec. Qed.
End engine_theorems.

(** ** Witnesses *)

(** An engine without a log, holding a counter with a deadline. *)
Definition counter_engine : Engine sys :=
  with_store NewEngine (Set_ Store.New (str "n") (str "41") (9 * second) true).

Lemma engine_refines_witness :
  let e' := (mutate (MIncr (str "n") 1) second counter_engine).2 in
  view (store e') (2 * second) =
    tick (2 * second) (spec_mut (MIncr (str "n") 1) second (view (store counter_engine) second)).2.
Proof.
  refine (proj2 (engine_refines_map (MIncr (str "n") 1) second (2 * second) counter_engine
    (Ret (OInt 42, 0)) _ _ _ _)); vm_compute; done.
Defined.

Example incr_keeps_deadline :
  let '(res, e') := mutate (MIncr (str "n") 1) second counter_engine in
  res = Ret (OInt 42, 0) /\ view (store e') (2 * second) !! str "n" = Some (str "42", Some (9 * second)).
Proof. split; vm_compute; reflexivity. Qed.

Definition counter_iter : list (bytes * bytes) := [(str "n", str "41")].

Lemma counter_ranges : ranges (data (store counter_engine)) counter_iter.
Proof. rw /ranges /=. vm_compute. reflexivity. Qed.

Lemma engine_reads_witness :
  Get (str "n") (10 * second) counter_engine = None /\ DBSize counter_iter (10 * second) counter_engine = 0.
Proof.
  destruct (engine_reads_are_views [] (str "n") counter_iter (10 * second) counter_engine counter_ranges)
    as (H1 & _ & _ & _ & H2).
  rw H1 H2. split; vm_compute; reflexivity.
Defined.

Lemma keys_exact_witness : NoDup (EKeys (str "n*") counter_iter second counter_engine).
Proof. apply (keys_exact (str "n*") counter_iter second counter_engine counter_ranges). Defined.
