(* ===== verification/Expiration.v ===== *)
(** * The expiration worker's goroutines (src/internal/engine/engine.go)

    [StartExpiration] makes a ticker and a goroutine with two channels, one that tells it to
    stop and one it closes when it has; [StopExpiration] takes the pair under [expMu], closes
    the first and waits for the second. Any number of callers may do either at any time, and
    a caller whose context expires leaves its worker behind. A worker is named by the pair of
    channels made for it. [act] is one atomic action of a caller or of a worker; closing a
    closed channel, which panics in Go, is recorded in [panicked]. In [Engine] and [Server]
    the worker is one flag and its sweeps are steps of their own; this file is what happens
    between the two. *)

From S2P Require Import Prelude.
From S2P Require Import GoLib.
From S2P Require Import Store.
From S2P Require Import AofCodec.
From S2P Require Import AofReplay.
From S2P Require Import AofLog.
From S2P Require Import ScanSessions.
From S2P Require Import Engine.

(** Where a worker is: at the [select], in [reclaimOnce], before its deferred [cleanup],
    before its deferred [close(done)], gone. *)
Inductive worker_pc := WSelect | WSweep | WCleanup | WCloseDone | WExited.

Record worker := mkWorker {
  stop_closed : bool;
  done_closed : bool;
  w_pc : worker_pc;
  cleanups : nat
}.

Definition at_pc (w : worker) (p : worker_pc) : worker := mkWorker (stop_closed w) (done_closed w) p (cleanups w).

(** Where a call of [StopExpiration] is behind its critical section: about to close [stop],
    waiting for [done] or its context, or returned (the worker it stopped if any, and whether
    it returned nil). *)
Inductive stop_pc :=
| SClose (stop : nat) (done : option nat)
| SWait (stop : nat) (done : option nat)
| SReturned (stop : option nat) (ok : bool).

Section expiration.
Context {L : Type} `{!Logger L}.

Record exp := mkExp {
  x_eng : Engine L;
  expStop : option nat;
  expDone : option nat;
  workers : gmap nat worker;
  calls : gmap nat stop_pc;
  tickers : Z;
  panicked : bool
}.

Definition new_exp (e : Engine L) : exp := mkExp e None None ∅ ∅ 0 false.

Definition set_worker (n : nat) (w : worker) (s : exp) : exp :=
  mkExp (x_eng s) (expStop s) (expDone s) (<[n := w]> (workers s)) (calls s) (tickers s) (panicked s).
Definition set_call (c : nat) (p : stop_pc) (s : exp) : exp :=
  mkExp (x_eng s) (expStop s) (expDone s) (workers s) (<[c := p]> (calls s)) (tickers s) (panicked s).
Definition panic (s : exp) : exp :=
  mkExp (x_eng s) (expStop s) (expDone s) (workers s) (calls s) (tickers s) true.

(** [StartExpiration] and the critical section of [startExpiration]; [n] names the channels
    [make] returns. The ticker is made before the check. *)
Definition start_worker (n : nat) (s : exp) : option exp :=
  match expStop s, workers s !! n with
  | Some _, _ =>
      Some (mkExp (x_eng s) (expStop s) (expDone s) (workers s) (calls s) (tickers s + 1) (panicked s))
  | None, None =>
      Some (mkExp (x_eng s) (Some n) (Some n) (<[n := mkWorker false false WSelect 0]> (workers s)) (calls s)
              (tickers s + 1) (panicked s))
  | None, Some _ => None
  end.

(** The critical section of [StopExpiration] and its test, in the call named [c]. *)
Definition stop_lock (c : nat) (s : exp) : option exp :=
  match calls s !! c with
  | Some _ => None
  | None =>
      let p := match expStop s with None => SReturned None true | Some n => SClose n (expDone s) end in
      Some (set_call c p (mkExp (x_eng s) None None (workers s) (calls s) (tickers s) (panicked s)))
  end.

(** [close(stop)] *)
Definition stop_close (c : nat) (s : exp) : option exp :=
  match calls s !! c with
  | Some (SClose n d) =>
      match workers s !! n with
      | Some w =>
          if stop_closed w then Some (panic s)
          else Some (set_call c (SWait n d) (set_worker n (mkWorker true (done_closed w) (w_pc w) (cleanups w)) s))
      | None => None
      end
  | _ => None
  end.

(** The two cases of the [select] at its end; a nil channel is never ready. *)
Definition stop_done (c : nat) (s : exp) : option exp :=
  match calls s !! c with
  | Some (SWait n (Some d)) =>
      match workers s !! d with
      | Some w => if done_closed w then Some (set_call c (SReturned (Some n) true) s) else None
      | None => None
      end
  | _ => None
  end.
Definition stop_timeout (c : nat) (s : exp) : option exp :=
  match calls s !! c with
  | Some (SWait n _) => Some (set_call c (SReturned (Some n) false) s)
  | _ => None
  end.

Inductive label :=
| XStart (n : nat)
| XStop (c : nat)
| XClose (c : nat)
| XDone (c : nat)
| XTimeout (c : nat)
| XSelectStop (n : nat)
| XSelectTick (n : nat)
| XSweep (n : nat) (iter : list (bytes * Z)) (now : Z)
| XCleanup (n : nat)
| XCloseDone (n : nat)
| XOther (e : Engine L).

(** One turn of the worker's goroutine. A [select] with both channels ready takes either. *)
Definition worker_turn (a : label) (w : worker) (s : exp) : option exp :=
  match a, w_pc w with
  | XSelectStop n, WSelect => if stop_closed w then Some (set_worker n (at_pc w WCleanup) s) else None
  | XSelectTick n, WSelect => Some (set_worker n (at_pc w WSweep) s)
  | XSweep n iter now, WSweep =>
      Some (mkExp (reclaimOnce iter now (x_eng s)).2 (expStop s) (expDone s)
              (<[n := at_pc w WSelect]> (workers s)) (calls s) (tickers s) (panicked s))
  | XCleanup n, WCleanup =>
      Some (mkExp (x_eng s) (expStop s) (expDone s)
              (<[n := mkWorker (stop_closed w) (done_closed w) WCloseDone (S (cleanups w))]> (workers s))
              (calls s) (tickers s - 1) (panicked s))
  | XCloseDone n, WCloseDone =>
      if done_closed w then Some (panic s)
      else Some (set_worker n (mkWorker (stop_closed w) true WExited (cleanups w)) s)
  | _, _ => None
  end.

Definition worker_of (a : label) : option nat :=
  match a with
  | XSelectStop n | XSelectTick n | XSweep n _ _ | XCleanup n | XCloseDone n => Some n
  | _ => None
  end.

(** [XOther] is whatever the rest of the program does to the engine meanwhile. *)
Definition act (a : label) (s : exp) : option exp :=
  match a with
  | XStart n => start_worker n s
  | XStop c => stop_lock c s
  | XClose c => stop_close c s
  | XDone c => stop_done c s
  | XTimeout c => stop_timeout c s
  | XOther e => Some (mkExp e (expStop s) (expDone s) (workers s) (calls s) (tickers s) (panicked s))
  | _ => n ← worker_of a; w ← workers s !! n; worker_turn a w s
  end.

(** A sweep visits the entries of the deadline map, in any order. *)
Definition label_ok (a : label) (s : exp) : Prop :=
  match a with XSweep _ iter _ => ranges (expires (store (x_eng s))) iter | _ => True end.

Definition step (s s' : exp) : Prop := exists a, label_ok a s /\ act a s = Some s'.

(** ** The invariant *)

(** The worker a call has taken. *)
Definition claimed (p : stop_pc) : option nat :=
  match p with SClose n _ | SWait n _ => Some n | SReturned o _ => o end.

Definition worker_ok (w : worker) : Prop :=
  match w_pc w with
  | WSelect | WSweep => done_closed w = false /\ cleanups w = 0%nat
  | WCleanup => stop_closed w = true /\ done_closed w = false /\ cleanups w = 0%nat
  | WCloseDone => stop_closed w = true /\ done_closed w = false /\ cleanups w = 1%nat
  | WExited => stop_closed w = true /\ done_closed w = true /\ cleanups w = 1%nat
  end.

Definition call_ok (ws : gmap nat worker) (p : stop_pc) : Prop :=
  match p with
  | SClose n d => d = Some n /\ exists w, ws !! n = Some w /\ stop_closed w = false
  | SWait n d => d = Some n /\ exists w, ws !! n = Some w /\ stop_closed w = true
  | SReturned (Some n) true => exists w, ws !! n = Some w /\ w_pc w = WExited
  | SReturned _ _ => True
  end.

Record xinv (s : exp) : Prop := mkXinv {
  x_pair : expDone s = expStop s;
  x_current n : expStop s = Some n -> exists w, workers s !! n = Some w /\ stop_closed w = false;
  x_unclaimed n c p : expStop s = Some n -> calls s !! c = Some p -> claimed p <> Some n;
  x_once c c' p p' n : calls s !! c = Some p -> calls s !! c' = Some p' ->
    claimed p = Some n -> claimed p' = Some n -> c = c';
  x_known c p n : calls s !! c = Some p -> claimed p = Some n -> is_Some (workers s !! n);
  x_calls c p : calls s !! c = Some p -> call_ok (workers s) p;
  x_owned n w : workers s !! n = Some w ->
    expStop s = Some n \/ exists c p, calls s !! c = Some p /\ claimed p = Some n;
  x_workers n w : workers s !! n = Some w -> worker_ok w;
  x_no_panic : panicked s = false
}.
End expiration.
Arguments exp L : clear implicits.
Arguments label L : clear implicits.

(** Splits a lookup in an updated map into the updated key and the others. *)
Ltac lookup_cases :=
  repeat match goal with
  | H : <[?i := _]> _ !! ?j = Some _ |- _ =>
      destruct (decide (i = j)) as [->|?];
        [rw lookup_insert_eq in H; injection H as <-|rw lookup_insert_ne in H; [done|]]
  end.

Section expiration_spec.
Context {L : Type} `{!Logger L}.
Implicit Types s : exp L.

Lemma xinv_new (e : Engine L) : xinv (new_exp e).
Proof. by split. Qed.

(** What the calls know of a worker survives its own steps. *)
Lemma call_ok_worker ws n w w' p : ws !! n = Some w -> stop_closed w' = stop_closed w ->
  (w_pc w = WExited -> w_pc w' = WExited) -> call_ok ws p -> call_ok (<[n := w']> ws) p.
Proof.
  intros Hw Hs Hp. have Hup m (P Q : worker -> Prop) : (forall v, P v -> Q v) -> (P w -> Q w') ->
      (exists v, ws !! m = Some v /\ P v) -> exists v, <[n := w']> ws !! m = Some v /\ Q v.
  { intros H1 H2 (v & Hv & HP). destruct (decide (n = m)) as [->|Hne].
    - exists w'. rw lookup_insert_eq. split; [done|]. apply H2. rw Hw in Hv. by injection Hv as ->.
    - exists v. rw lookup_insert_ne //. split; [done|]. by apply H1. }
  destruct p as [m d|m d|[m|] []]; cbn [call_ok]; try done.
  - intros [-> H]. split; [done|]. move: H. apply Hup; [done|by rw Hs].
  - intros [-> H]. split; [done|]. move: H. apply Hup; [done|by rw Hs].
  - by apply Hup.
Qed.

Lemma xinv_worker s s' n w w' : xinv s -> workers s !! n = Some w -> worker_ok w' ->
  stop_closed w' = stop_closed w -> w_pc w <> WExited -> workers s' = <[n := w']> (workers s) ->
  expStop s' = expStop s -> expDone s' = expDone s -> calls s' = calls s -> panicked s' = panicked s -> xinv s'.
Proof.
  intros [I1 I2 I3 I4 I5 I6 I7 I8 I9] Hw Hok Hs Hp E1 E2 E3 E4 E5. split; rw ?E1 ?E2 ?E3 ?E4 ?E5; try done.
  - intros m Hm. destruct (I2 m Hm) as (v & Hv & Hc). destruct (decide (n = m)) as [->|?].
    + exists w'. rw lookup_insert_eq. split; [done|]. congruence.
    + exists v. by rw lookup_insert_ne.
  - intros c p m H1 H2. destruct (decide (n = m)) as [->|?]; [by rw lookup_insert_eq|].
    rw lookup_insert_ne //. by eapply I5.
  - intros c p H. eapply call_ok_worker; [done..| |by eapply I6]. done.
  - intros m v H. lookup_cases; by eapply I7.
  - intros m v H. lookup_cases; [done|by eapply I8].
Qed.

Lemma xinv_start s n s' : xinv s -> start_worker n s = Some s' -> xinv s'.
Proof.
  intros [I1 I2 I3 I4 I5 I6 I7 I8 I9]. rw /start_worker. destruct (expStop s) as [m|] eqn:Hs.
  { intros [= <-]. split; cbn; rw ?Hs; done. }
  destruct (workers s !! n) eqn:Hn; [done|]. intros [= <-].
  have Hne c p m : calls s !! c = Some p -> claimed p = Some m -> n <> m.
  { intros H1 H2 ->. destruct (I5 _ _ _ H1 H2). congruence. }
  split; cbn; try done.
  - intros m [= <-]. eexists. by rw lookup_insert_eq.
  - intros m c p [= <-] H1 H2. by eapply Hne.
  - intros c p m H1 H2. rw lookup_insert_ne; [by eapply Hne|]. by eapply I5.
  - intros c p H. pose proof (I6 _ _ H) as Hok. have {}Hne := Hne c p. move: Hok.
    destruct p as [m d|m d|[m|] []]; cbn [call_ok]; try done; rw lookup_insert_ne //; by eapply Hne.
  - intros m v H. lookup_cases; [by left|]. destruct (I7 _ _ H) as [?|?]; [done|by right].
  - intros m v H. lookup_cases; [done|by eapply I8].
Qed.

Lemma xinv_stop_lock s c s' : xinv s -> stop_lock c s = Some s' -> xinv s'.
Proof.
  intros [I1 I2 I3 I4 I5 I6 I7 I8 I9]. rw /stop_lock. destruct (calls s !! c) eqn:Hc; [done|]. intros [= <-].
  destruct (expStop s) as [n|] eqn:Hs.
  - split; cbn; try done.
    + intros c1 c2 p p' m H1 H2 H3 H4. lookup_cases; [done|..].
      * injection H4 as <-. by destruct (I3 n c1 p eq_refl H1).
      * injection H3 as <-. by destruct (I3 n c2 p' eq_refl H2).
      * by eapply I4.
    + intros c1 p m H1 H2. lookup_cases; [|by eapply I5]. injection H2 as <-. by destruct (I2 n eq_refl) as (w & -> & _).
    + intros c1 p H. lookup_cases; [|by eapply I6]. split; [done|]. by apply I2.
    + intros m v H. right. destruct (I7 _ _ H) as [[= <-]|(c1 & p & H1 & H2)].
      * exists c, (SClose n (expDone s)). by rw lookup_insert_eq.
      * exists c1, p. rw lookup_insert_ne //. congruence.
  - split; cbn; try done.
    + intros c1 c2 p p' m H1 H2 H3 H4. lookup_cases; try done; by eapply I4.
    + intros c1 p m H1 H2. lookup_cases; [done|by eapply I5].
    + intros c1 p H. lookup_cases; [done|by eapply I6].
    + intros m v H. right. destruct (I7 _ _ H) as [?|(c1 & p & H1 & H2)]; [done|].
      exists c1, p. rw lookup_insert_ne //. congruence.
Qed.

(** A call moves on and keeps its worker. *)
Lemma owned_call (m : gmap nat stop_pc) c p p' n k : m !! c = Some p -> claimed p = Some n -> claimed p' = Some n ->
  (exists c1 p1, m !! c1 = Some p1 /\ claimed p1 = Some k) ->
  exists c1 p1, <[c := p']> m !! c1 = Some p1 /\ claimed p1 = Some k.
Proof.
  intros Hc Hn Hn' (c1 & p1 & H1 & H2). destruct (decide (c = c1)) as [->|?].
  - exists c1, p'. rw lookup_insert_eq. split; [done|]. congruence.
  - exists c1, p1. by rw lookup_insert_ne.
Qed.

Lemma xinv_call s c p p' n : xinv s -> calls s !! c = Some p -> claimed p = Some n -> claimed p' = Some n ->
  call_ok (workers s) p' -> xinv (set_call c p' s).
Proof.
  intros [I1 I2 I3 I4 I5 I6 I7 I8 I9] Hc Hn Hn' Hok. split; cbn; try done.
  - intros m c1 p1 Hm H. lookup_cases; [rw Hn' -Hn|]; by eapply I3.
  - intros c1 c2 p1 p2 m H1 H2 H3 H4. lookup_cases; [done|..].
    + eapply (I4 c1 c2 p1 p m); try done. congruence.
    + eapply (I4 c1 c2 p p2 m); try done. congruence.
    + by eapply I4.
  - intros c1 p1 m H1 H2. lookup_cases; [|by eapply I5]. by eapply (I5 c1 p); [|congruence].
  - intros c1 p1 H. lookup_cases; [done|by eapply I6].
  - intros m v H. destruct (I7 _ _ H) as [?|?]; [by left|right]. by eapply owned_call.
Qed.

Lemma xinv_stop_close s c s' : xinv s -> stop_close c s = Some s' -> xinv s'.
Proof.
  intros Hi. rw /stop_close. destruct (calls s !! c) as [[n d| |]|] eqn:Hc; try done.
  destruct (x_calls _ Hi _ _ Hc) as (-> & w & Hw & Hop). rw Hw Hop. intros [= <-].
  destruct Hi as [I1 I2 I3 I4 I5 I6 I7 I8 I9]. set w' := mkWorker true (done_closed w) (w_pc w) (cleanups w).
  have Hother c1 p m : calls s !! c1 = Some p -> claimed p = Some m -> c <> c1 -> n <> m.
  { intros H1 H2 Hne ->. by apply Hne, (I4 c c1 (SClose m (Some m)) p m). }
  split; cbn; try done.
  - intros m Hm. destruct (I2 m Hm) as (v & Hv & Hvo). exists v. rw lookup_insert_ne //.
    intros ->. by apply (I3 m c (SClose m (Some m)) Hm Hc).
  - intros m c1 p Hm H. lookup_cases; [|by eapply I3]. by apply (I3 m c1 (SClose n (Some n)) Hm Hc).
  - intros c1 c2 p p' m H1 H2 H3 H4. lookup_cases; [done|..].
    + by eapply (I4 c1 c2 p (SClose n (Some n)) m).
    + by eapply (I4 c1 c2 (SClose n (Some n)) p' m).
    + by eapply I4.
  - intros c1 p m H1 H2. destruct (decide (n = m)) as [->|?]; [by rw lookup_insert_eq|].
    rw lookup_insert_ne //. lookup_cases; [by injection H2 as <-|by eapply I5].
  - intros c1 p H. lookup_cases; [split; [done|]; exists w'; by rw lookup_insert_eq|].
    pose proof (I6 _ _ H) as Hok. have {}Hother := Hother c1 p. move: Hok.
    destruct p as [m d|m d|[m|] []]; cbn [call_ok]; try done; rw lookup_insert_ne //; by eapply Hother.
  - intros m v H. have Ho : is_Some (workers s !! m) by lookup_cases. destruct Ho as [v0 Hv0].
    destruct (I7 _ _ Hv0) as [?|?]; [by left|right]. by eapply (owned_call _ _ (SClose n (Some n))).
  - intros m v H. lookup_cases; [|by eapply I8]. pose proof (I8 _ _ Hw) as Hok. rw /worker_ok Hop in Hok.
    rw /worker_ok /w' /=. destruct (w_pc w); naive_solver.
Qed.

Lemma xinv_stop_done s c s' : xinv s -> stop_done c s = Some s' -> xinv s'.
Proof.
  intros Hi. rw /stop_done. destruct (calls s !! c) as [[|n [d|]|]|] eqn:Hc; try done.
  destruct (x_calls _ Hi _ _ Hc) as ([= ->] & w & Hw & Hst). rw Hw. destruct (done_closed w) eqn:Hd; [|done].
  intros [= <-]. apply (xinv_call s c (SWait n (Some n)) _ n); try done. exists w. split; [done|].
  pose proof (x_workers _ Hi _ _ Hw) as Hok. rw /worker_ok Hd in Hok. destruct (w_pc w); naive_solver.
Qed.

Lemma xinv_stop_timeout s c s' : xinv s -> stop_timeout c s = Some s' -> xinv s'.
Proof.
  intros Hi. rw /stop_timeout. destruct (calls s !! c) as [[|n d|]|] eqn:Hc; try done.
  intros [= <-]. by apply (xinv_call s c (SWait n d) _ n).
Qed.

Lemma xinv_turn a n w s s' : xinv s -> worker_of a = Some n -> workers s !! n = Some w ->
  worker_turn a w s = Some s' -> xinv s'.
Proof.
  intros Hi Ha Hw. pose proof (x_workers _ Hi _ _ Hw) as Hok. rw /worker_ok in Hok.
  rw /worker_turn. destruct a as [| | | | |m|m|m it now|m|m|]; try done; injection Ha as ->;
    destruct (w_pc w) eqn:Hp; try done.
  - destruct (stop_closed w) eqn:Hs; [|done]. intros [= <-].
    apply (xinv_worker s _ n w (at_pc w WCleanup)); try done. rw Hp. done.
  - intros [= <-]. apply (xinv_worker s _ n w (at_pc w WSweep)); try done. by rw Hp.
  - intros [= <-]. apply (xinv_worker s _ n w (at_pc w WSelect)); try done. by rw Hp.
  - destruct Hok as (H1 & H2 & H3). intros [= <-].
    apply (xinv_worker s _ n w (mkWorker (stop_closed w) (done_closed w) WCloseDone (S (cleanups w))));
      rw ?Hp /worker_ok /= ?H3 //.
  - destruct Hok as (H1 & H2 & H3). rw H2. intros [= <-].
    by apply (xinv_worker s _ n w (mkWorker (stop_closed w) true WExited (cleanups w))); rw ?Hp.
Qed.

(** A step is one of a caller, of the rest of the program, or of a worker. *)
Lemma act_turn a n s s' : worker_of a = Some n -> act a s = Some s' ->
  exists w, workers s !! n = Some w /\ worker_turn a w s = Some s'.
Proof.
  destruct a; try done; intros [= ->]; cbn [act worker_of mbind option_bind];
    (destruct (workers s !! n) as [w|]; [by exists w|done]).
Qed.

Lemma xinv_step s s' : xinv s -> step s s' -> xinv s'.
Proof.
  intros Hi (a & _ & Ha). destruct (worker_of a) as [n|] eqn:Hn.
  { destruct (act_turn a n s s' Hn Ha) as (w & Hw & Ht). by eapply xinv_turn. }
  destruct a; try done; cbn [act] in Ha;
    [by eapply xinv_start|by eapply xinv_stop_lock|by eapply xinv_stop_close|by eapply xinv_stop_done|
     by eapply xinv_stop_timeout|].
  injection Ha as <-. by destruct Hi.
Qed.

Lemma xinv_run s s' : xinv s -> rtc step s s' -> xinv s'.
Proof. intros Hi H. induction H as [|s1 s2 s3 H _ IH]; [done|]. by apply IH, (xinv_step s1). Qed.

(** A call that has returned stays as it is. *)
Lemma returned_stays s s' c o ok : rtc step s s' -> calls s !! c = Some (SReturned o ok) ->
  calls s' !! c = Some (SReturned o ok).
Proof.
  intros H Hc. induction H as [|s1 s2 s3 (a & _ & Ha) _ IH]; [done|]. apply IH. clear IH.
  destruct (worker_of a) as [n|] eqn:Hn.
  { destruct (act_turn a n s1 s2 Hn Ha) as (w & _ & Ht). rw /worker_turn in Ht.
    repeat case_match; by simplify_eq/=. }
  rw /act /start_worker /stop_lock /stop_close /stop_done /stop_timeout in Ha.
  repeat case_match; simplify_eq/=; try done; by rw lookup_insert_ne; [congruence|].
Qed.

(** C33. The expiration worker's life cycle. However many goroutines start and stop the worker,
    in whatever order and with whatever time-outs: no channel is ever closed twice; at most
    one worker is running that no stop has taken; and once a call of [StopExpiration] that
    found a worker has returned nil, that worker has left its loop, has stopped its ticker
    exactly once, and never sweeps again. *)
Theorem stopped_worker_is_gone (e : Engine L) s : rtc step (new_exp e) s ->
  panicked s = false /\
  (forall n m w v, workers s !! n = Some w -> workers s !! m = Some v ->
     (forall c p, calls s !! c = Some p -> claimed p <> Some n /\ claimed p <> Some m) -> n = m) /\
  (forall c n s', calls s !! c = Some (SReturned (Some n) true) -> rtc step s s' ->
     (exists w, workers s' !! n = Some w /\ w_pc w = WExited /\ cleanups w = 1%nat) /\
     forall iter now, act (XSweep n iter now) s' = None).
Proof.
  intros Hr. pose proof (xinv_run _ _ (xinv_new e) Hr) as Hi. split; [apply Hi|split].
  - intros n m w v Hn Hm Hcl. destruct (x_owned _ Hi _ _ Hn) as [H1|(c & p & Hc & Hp)]; [|by destruct (Hcl c p Hc)].
    destruct (x_owned _ Hi _ _ Hm) as [H2|(c & p & Hc & Hp)]; [congruence|by destruct (Hcl c p Hc)].
  - intros c n s' Hc Hs. pose proof (xinv_run _ _ Hi Hs) as Hi'. pose proof (returned_stays _ _ _ _ _ Hs Hc) as Hc'.
    destruct (x_calls _ Hi' _ _ Hc') as (w & Hw & Hp). pose proof (x_workers _ Hi' _ _ Hw) as Hok. rw /worker_ok Hp in Hok.
    split; [exists w; naive_solver|]. intros iter now. cbn [act worker_of mbind option_bind]. by rw Hw /= Hp.
Qed.

(** ** Stopping ends *)

Definition own_step (n : nat) s s' : Prop := exists a, worker_of a = Some n /\ label_ok a s /\ act a s = Some s'.

(** The worker [n] comes to its end by steps of its own; nobody else's call moves. *)
Definition comes_to_end (n : nat) s : Prop :=
  exists s' w, rtc (own_step n) s s' /\ calls s' = calls s /\ workers s' !! n = Some w /\ done_closed w = true.

Lemma end_step n s s1 w a : workers s !! n = Some w -> worker_of a = Some n -> label_ok a s -> worker_turn a w s = Some s1 ->
  calls s1 = calls s -> comes_to_end n s1 -> comes_to_end n s.
Proof.
  intros Hw Ha Hl Ht Hc (s' & w' & H1 & H2 & H3). exists s', w'. split; [|split; [congruence|done]].
  eapply rtc_l; [|done]. exists a. split; [done|split; [done|]]. destruct a; try done; injection Ha as ->;
    cbn [act worker_of mbind option_bind]; by rw Hw.
Qed.

Lemma end_of_worker n s w : workers s !! n = Some w -> worker_ok w -> stop_closed w = true -> comes_to_end n s.
Proof.
  have H4 s1 w1 : workers s1 !! n = Some w1 -> w_pc w1 = WCloseDone -> done_closed w1 = false -> comes_to_end n s1.
  { intros Hw Hp Hd. eapply (end_step n s1 _ w1 (XCloseDone n)); [done|done|done|by rw /worker_turn Hp Hd|done|].
    do 2 eexists. split; [apply rtc_refl|]. cbn. by rw lookup_insert_eq. }
  have H3 s1 w1 : workers s1 !! n = Some w1 -> w_pc w1 = WCleanup -> done_closed w1 = false -> comes_to_end n s1.
  { intros Hw Hp Hd. eapply (end_step n s1 _ w1 (XCleanup n)); [done|done|done|by rw /worker_turn Hp|done|].
    eapply H4; cbn; by rw ?lookup_insert_eq. }
  have H1 s1 w1 : workers s1 !! n = Some w1 -> w_pc w1 = WSelect -> done_closed w1 = false -> stop_closed w1 = true ->
      comes_to_end n s1.
  { intros Hw Hp Hd Hs. eapply (end_step n s1 _ w1 (XSelectStop n)); [done|done|done|by rw /worker_turn Hp Hs|done|].
    eapply H3; cbn; by rw ?lookup_insert_eq. }
  intros Hw Hok Hs. rw /worker_ok in Hok. destruct (w_pc w) eqn:Hp.
  - by eapply H1; [..|apply Hok|].
  - eapply (end_step n s _ w (XSweep n (map_to_list (expires (store (x_eng s)))) 0)); [done|done|by rw /label_ok /ranges|by rw /worker_turn Hp|done|].
    eapply H1; cbn; rw ?lookup_insert_eq //. apply Hok.
  - by eapply H3; [..|apply Hok].
  - by eapply H4; [..|apply Hok].
  - exists s, w. split; [apply rtc_refl|]. naive_solver.
Qed.

(** A stop cannot hang on its worker: wherever the worker is when [StopExpiration] waits for
    it, a sweep in flight included, steps of that worker alone lead to a state in which the
    call returns nil. *)
Theorem stop_can_return (e : Engine L) s c n d : rtc step (new_exp e) s -> calls s !! c = Some (SWait n d) ->
  exists s' s'', rtc (own_step n) s s' /\ act (XDone c) s' = Some s'' /\
    calls s'' !! c = Some (SReturned (Some n) true).
Proof.
  intros Hr Hc. pose proof (xinv_run _ _ (xinv_new e) Hr) as Hi.
  destruct (x_calls _ Hi _ _ Hc) as (-> & w & Hw & Hs).
  destruct (end_of_worker n s w Hw (x_workers _ Hi _ _ Hw) Hs) as (s' & w' & H1 & H2 & H3 & H4).
  exists s', (set_call c (SReturned (Some n) true) s'). split; [done|]. cbn [act]. rw /stop_done H2 Hc H3 H4.
  split; [done|]. cbn. by rw lookup_insert_eq.
Qed.
End expiration_spec.

(** ** Witnesses *)

Fixpoint acts {L} `{!Logger L} (l : list (label L)) (s : exp L) : option (exp L) :=
  match l with [] => Some s | a :: l => s ← act a s; acts l s end.

Lemma acts_run {L} `{!Logger L} (l : list (label L)) s s' :
  Forall (fun a => match a with XSweep _ _ _ => False | _ => True end) l -> acts l s = Some s' -> rtc step s s'.
Proof.
  intros Hl. revert s. induction Hl as [|a l Ha0 Hl IH] => s; cbn [acts]; [intros [= ->]; apply rtc_refl|].
  destruct (act a s) as [s1|] eqn:Ha; [|done]. intros H. eapply rtc_l; [exists a; split; [by destruct a|done]|by apply IH].
Qed.

Definition idle : exp sys := new_exp counter_engine.

(** A worker is started; a tick and call 1 of [StopExpiration] come together; the worker
    sweeps and then stops. *)
Definition before_sweep : exp sys := default idle (acts [XStart 0%nat; XSelectTick 0%nat; XStop 1%nat] idle).
Definition sweep : label sys := XSweep 0%nat (map_to_list (expires (store (x_eng before_sweep)))) second.
Definition after_sweep : exp sys := default idle (act sweep before_sweep).
Definition closing_acts : list (label sys) :=
  [XClose 1%nat; XSelectStop 0%nat; XCleanup 0%nat; XCloseDone 0%nat; XDone 1%nat].
Definition stopped : exp sys := default idle (acts closing_acts after_sweep).

Lemma stopped_worker_witness :
  (exists w, workers stopped !! 0%nat = Some w /\ w_pc w = WExited /\ cleanups w = 1%nat) /\ tickers stopped = 0.
Proof.
  split; [|vm_compute; reflexivity].
  refine (proj1 (proj2 (proj2 (stopped_worker_is_gone counter_engine stopped _)) 1%nat 0%nat stopped _ (rtc_refl _ _)));
    [|vm_compute; reflexivity].
  etrans; [apply (acts_run [XStart 0%nat; XSelectTick 0%nat; XStop 1%nat] _ before_sweep); [by repeat constructor|by vm_compute]|].
  apply (rtc_l _ _ after_sweep); [exists sweep; split; [exact (Permutation_refl _)|by vm_compute]|].
  apply (acts_run closing_acts); [by repeat constructor|by vm_compute].
Defined.

(** Starting a running worker makes a ticker that nothing ever stops: after start, start and a
    complete stop one ticker is left. *)
Example second_start_leaks_ticker :
  tickers <$> acts [XStart 0%nat; XStart 1%nat; XStop 1%nat; XClose 1%nat; XSelectStop 0%nat; XCleanup 0%nat; XCloseDone 0%nat; XDone 1%nat] idle =
  Some 1.
Proof. vm_compute. reflexivity. Qed.

(** A second stop does not wait: it returns nil while the worker the first one is stopping is
    still in its sweep. *)
Example second_stop_returns_early :
  (fun s => (calls s !! 2%nat, w_pc <$> workers s !! 0%nat)) <$>
    acts [XStart 0%nat; XSelectTick 0%nat; XStop 1%nat; XStop 2%nat] idle =
  Some (Some (SReturned None true), Some WSweep).
Proof. vm_compute. reflexivity. Qed.
