(* ===== verification/EngineRecovery.v ===== *)
(** * From the engine to the disk and back

    The engine commits a mutation by appending its effect record and changing the store
    under one lock; the log's writer works in the background; after a crash the file is
    replayed. This file joins the three: [esys] is the engine on top of a running log,
    [estep] any interleaving of client mutations, expiration sweeps, background writing and
    shutdown, and the theorems relate what a restart recovers to the states the engine has
    been in. [snaps], the stores right after each commit, is ghost state. *)

From S2P Require Import Prelude.
From S2P Require Import GoLib.
From S2P Require Import Store.
From S2P Require Import RespReader.
From S2P Require Import AofCodec.
From S2P Require Import AofReplay.
From S2P Require Import AofLog.
From S2P Require Import ScanSessions.
From S2P Require Import Engine.

(** ** What a restart should show *)

(** A deadline as the log keeps it, in whole milliseconds. *)
Definition trunc_ms (d : Z) : Z := of_UnixMilli (UnixMilli d).
Definition trunc (e : entry) : entry := (e.1, trunc_ms <$> e.2).

(** The entries a restart at [t] must recover from the store [s]. *)
Definition recovered (t : Z) (s : Store) : gmap bytes entry := tick t (trunc <$> phys s).

Lemma trunc_ms_le d : d - millisecond < trunc_ms d <= d.
Proof.
  rw /trunc_ms /of_UnixMilli /UnixMilli /millisecond. have := Z.div_mod d 1000000.
  have := Z.mod_pos_bound d 1000000. lia.
Qed.

Lemma trunc_ms_idem d : trunc_ms (trunc_ms d) = trunc_ms d.
Proof.
  rw /trunc_ms /of_UnixMilli /UnixMilli /millisecond. by rw Z.div_mul.
Qed.

(** An entry that is dead is dead in the log's reading too. *)
Lemma dead_trunc now t e : now <= t -> ~ alive now e -> ~ alive t (trunc e).
Proof.
  rw /alive /trunc. destruct e as [v [d|]]; simpl; [|done]. have := trunc_ms_le d. lia.
Qed.

Lemma recovered_lookup t s k :
  recovered t s !! k = (e ← phys s !! k; if decide (alive t (trunc e)) then Some (trunc e) else None).
Proof. rw /recovered tick_lookup lookup_fmap. by destruct (phys s !! k). Qed.

Lemma recovered_dead t s k now : now <= t -> Store.Get s k now = None -> recovered t s !! k = None.
Proof.
  intros Hle. rw Get_view /view tick_lookup recovered_lookup. destruct (phys s !! k) as [e|]; [|done].
  simpl. case_decide; [done|]. intros _. rw decide_False //. by eapply dead_trunc.
Qed.

Lemma tick_insert t k (e : entry) m :
  tick t (<[k := e]> m) = if decide (alive t e) then <[k := e]> (tick t m) else delete k (tick t m).
Proof.
  apply map_eq => j. rw tick_lookup. destruct (decide (j = k)) as [->|Hne].
  - rw lookup_insert_eq /=. by case_decide; [rw lookup_insert_eq|rw lookup_delete_eq].
  - rw lookup_insert_ne // -tick_lookup. case_decide; [by rw lookup_insert_ne|by rw lookup_delete_ne].
Qed.

(** Storing an entry and replaying its record agree. *)
Lemma recovered_insert t s s' k v (od : option Z) d (h : bool) :
  phys s' = <[k := (v, od)]> (phys s) -> od = (if h then Some d else None) ->
  recovered t s' = effect t (recovered t s) (DeriveSet k v d h).
Proof.
  intros Hp ->. rw /recovered Hp fmap_insert tick_insert /effect /DeriveSet /=.
  destruct h; rw /trunc /= /alive /=; [|done].
  by rw -/(trunc_ms d); repeat case_decide.
Qed.

Lemma lookup_foldl_delete (m : gmap bytes entry) ks j :
  foldl (fun m k => delete k m) m ks !! j = if decide (j ∈ ks) then None else m !! j.
Proof.
  revert m. induction ks as [|k ks IH] => m; [done|]. cbn [foldl]. rw IH. destruct (decide (j = k)) as [->|Hne].
  - rw lookup_delete_eq. by do 2 case_decide; try done; exfalso; set_solver.
  - rw lookup_delete_ne //. repeat case_decide; try done; exfalso; set_solver.
Qed.

Lemma recovered_delete t s k : recovered t (Delete s k).2 = delete k (recovered t s).
Proof. by rw /recovered phys_delete fmap_delete tick_delete. Qed.

Lemma recovered_deletes t s ks :
  recovered t (foldl (fun s k => (Delete s k).2) s ks) = foldl (fun m k => delete k m) (recovered t s) ks.
Proof. revert s. induction ks as [|k ks IH] => s //=. by rw IH recovered_delete. Qed.

(** A sweep at or before [t] changes nothing a restart at [t] would see. *)
Lemma recovered_reclaim t s iter now limit : ranges (expires s) iter -> now <= t ->
  recovered t (ReclaimExpired s iter now limit).1.1 = recovered t s.
Proof.
  intros Hr Hle. rw /ReclaimExpired. destruct (limit <=? 0) eqn:Hz; [done|]. apply Z.leb_gt in Hz.
  rw reclaim_loop_spec /=; [lia|]. rw /drop_keys recovered_deletes. apply map_eq => j.
  rw lookup_foldl_delete. case_decide as Hin; [|done]. symmetry. apply (recovered_dead t s j now Hle).
  have Hv : view s now !! j = None.
  { pose proof (swept_invisible s iter (Z.to_nat (limit - 0)) now now Hr ltac:(lia)) as Hs.
    by apply (proj1 (list.Forall_forall _ _) Hs). }
  by rw Get_view Hv.
Qed.

(** ** Each mutation and the record it logs *)

Section mutations.
Context {L : Type} `{!Logger L} `{!LoggerLaws L}.

(** The log of [e'] is that of [e] and [recs], and replaying [recs] on what a restart would
    have recovered before gives what a restart recovers after. *)
Definition logged (t : Z) (e e' : Engine L) : Prop := forall l, elog e = Some l ->
  exists l' recs, elog e' = Some l' /\ log_hist l' = log_hist l ++ recs /\
    effects t (recovered t (store e)) recs = recovered t (store e') /\ (length recs <= 1)%nat.

Lemma logged_same t e e' : recovered t (store e') = recovered t (store e) -> elog e' = elog e -> logged t e e'.
Proof. intros Hs Hl l E. exists l, []. rw app_nil_r Hl Hs. by split_and!; [..|simpl; lia]. Qed.

Lemma commit_logged t e l rec apply r e' : elog e = Some l -> commit l rec apply e = (r, e') ->
  effect t (recovered t (store e)) rec = recovered t (apply (store e)) -> logged t e e'.
Proof.
  intros Hl. rw /commit. destruct (log_append rec l) as [[n|err] l'] eqn:Ea; intros [= <- <-] He l0 Hl0;
    rw Hl in Hl0; injection Hl0 as ->.
  - exists l', [rec]. apply log_append_ok in Ea. by split_and!; [..|simpl; lia].
  - exists l', []. apply log_append_fail in Ea. rw Ea app_nil_r. by split_and!; [..|simpl; lia].
Qed.

Lemma commitSet_logged t e k v od d h apply r e' : commitSet k v d h apply e = (r, e') ->
  phys (apply (store e)) = <[k := (v, od)]> (phys (store e)) -> od = (if h then Some d else None) ->
  logged t e e'.
Proof.
  rw /commitSet. destruct (elog e) as [l|] eqn:Hl.
  - intros Ec Hp Ho. eapply commit_logged; [done|done|]. symmetry. by eapply recovered_insert.
  - intros [= <- <-] _ _ l. by rw Hl.
Qed.

Lemma Get_phys s k now v : Store.Get s k now = Some v ->
  data s !! k = Some v /\ negb (bool_decide (is_Some (data s !! k))) || expired s k now = false.
Proof.
  rw /Store.Get. destruct (expired s k now); [done|]. intros E. rw E.
  split; [done|]. by rw bool_decide_eq_true_2.
Qed.

Lemma set_logged t k v ttl now e r e' : Set_locked k v ttl now e = (r, e') -> logged t e e'.
Proof.
  rw /Set_locked. destruct (acceptingMutations e); simpl; [|intros [= <- <-]; by apply logged_same].
  intros E. eapply commitSet_logged; [done|apply phys_set|done].
Qed.

Lemma expire_logged t k d now e r e' : Expire_locked k d now e = (r, e') -> logged t e e'.
Proof.
  rw /Expire_locked. destruct (acceptingMutations e); simpl; [|intros [= <- <-]; by apply logged_same].
  destruct (Store.Get (store e) k now) as [v|] eqn:Hg; [|intros [= <- <-]; by apply logged_same].
  destruct (commitSet _ _ _ _ _ e) as [r1 e1] eqn:Ec. intros [= <- <-].
  apply Get_phys in Hg as [Hd Hx]. eapply commitSet_logged; [done| |done].
  rw /Store.Expire Hx /=. by rw -(phys_deadline (store e) k v (Some (now + d)) Hd).
Qed.

Lemma persist_logged t k now e r e' : Persist_locked k now e = (r, e') -> logged t e e'.
Proof.
  rw /Persist_locked. destruct (acceptingMutations e); simpl; [|intros [= <- <-]; by apply logged_same].
  destruct (Store.Get (store e) k now) as [v|] eqn:Hg; [|intros [= <- <-]; by apply logged_same].
  case_bool_decide as Ht; simpl; [|intros [= <- <-]; by apply logged_same].
  destruct (commitSet _ _ _ _ _ e) as [r1 e1] eqn:Ec. intros [= <- <-].
  apply Get_phys in Hg as [Hd Hx]. eapply commitSet_logged; [done| |done].
  rw /Store.Persist Hx. rw /Store.TTL Hx in Ht. destruct (expires (store e) !! k) as [dl|] eqn:He; [|done].
  cbn [snd]. by rw -(phys_deadline (store e) k v None Hd).
Qed.

Lemma delete_logged t ks now e r e' : now <= t -> Delete_locked ks now e = (r, e') -> logged t e e'.
Proof.
  intros Hle. rw /Delete_locked.
  destruct (acceptingMutations e); cbn [negb]; [|intros [= <- <-]; by apply logged_same].
  set live := live_keys _ _ _ _. set apply := fun s : Store => foldl (fun s k => (Delete s k).2) s ks.
  destruct (live_keys_spec (store e) (readNow now e) ∅ ks) as [_ Hlive]. fold live in Hlive.
  (* the keys that are not recorded are absent from what a restart shows *)
  have Hrec : foldl (fun m k => delete k m) (recovered t (store e)) live = recovered t (apply (store e)).
  { rw /apply recovered_deletes. apply map_eq => j. rw !lookup_foldl_delete.
    destruct (decide (j ∈ live)) as [Hj|Hj].
    - rw decide_True //. by apply Hlive in Hj as [? _].
    - case_decide as Hk; [|done]. destruct (Store.Get (store e) j now) as [v|] eqn:Hg.
      + exfalso. apply Hj, Hlive. rw Get_readNow Hg. split_and!; [done|set_solver|by eexists].
      + by eapply recovered_dead. }
  destruct (Z.eqb_spec (len live) 0) as [Hz|Hz].
  { intros [= <- <-]. apply logged_same; [|done]. rw -Hrec.
    have -> : live = [] by destruct live; [done|rw len_cons in Hz; have := len_nonneg live; lia]. done. }
  rw /commitDel. destruct (elog e) as [l|] eqn:Hl.
  - destruct (commit l _ _ e) as [r1 e1] eqn:Ec. intros [= <- <-]. by eapply commit_logged.
  - intros [= <- <-] l. by rw Hl.
Qed.

Lemma incr_logged t k delta now e r e' : IncrBy_locked k delta now e = (r, e') -> logged t e e'.
Proof.
  rw /IncrBy_locked. destruct (acceptingMutations e); cbn [negb]; [|intros [= <- <-]; by apply logged_same].
  destruct (match Store.Get (store e) k (readNow now e) with Some v => parseStoredInt v | None => Some 0 end)
    as [n|]; [|intros [= <- <-]; by apply logged_same].
  destruct (_ || _); [intros [= <- <-]; by apply logged_same|].
  set od := match Store.Get _ _ _ with Some _ => ExpiresAt (store e) k | None => None end.
  destruct (commitSet _ _ _ _ _ e) as [r1 e1] eqn:Ec. intros [= <- <-].
  eapply commitSet_logged; [exact Ec|apply phys_set|]. by destruct od.
Qed.

Lemma mutate_logged t o now e r e' : now <= t -> mutate o now e = (r, e') -> logged t e e'.
Proof.
  intros Hle. rw /mutate. destruct o.
  - destruct (Set_locked _ _ _ _ e) as [r1 e1] eqn:E. intros [= <- <-]. by eapply set_logged.
  - destruct (Expire_locked _ _ _ e) as [r1 e1] eqn:E. intros [= <- <-]. by eapply expire_logged.
  - destruct (Persist_locked _ _ e) as [r1 e1] eqn:E. intros [= <- <-]. by eapply persist_logged.
  - destruct (Delete_locked _ _ e) as [r1 e1] eqn:E. intros [= <- <-]. by eapply delete_logged.
  - destruct (IncrBy_locked _ _ _ e) as [r1 e1] eqn:E. intros [= <- <-]. by eapply incr_logged.
Qed.
End mutations.

(** ** Replaying later *)

(** Deadlines in whole milliseconds, as everything read from a log. *)
Definition in_ms (m : gmap bytes entry) : Prop := map_Forall (fun _ e => trunc e = e) m.

Lemma effect_in_ms now m rec : in_ms m -> in_ms (effect now m rec).
Proof.
  rw /in_ms /effect => Hm. destruct (rec_kind rec).
  - destruct (rec_has_expiry rec); [|by apply map_Forall_insert_2].
    case_decide; [|by apply map_Forall_delete]. apply map_Forall_insert_2; [|done].
    rw /trunc /=. do 2 f_equal. rw /trunc_ms /UnixMilli /of_UnixMilli Z.div_mul //.
  - revert m Hm. induction (rec_keys rec) as [|k ks IH] => m Hm //=. by apply IH, map_Forall_delete.
  - revert m Hm. induction (rec_keys rec) as [|k ks IH] => m Hm //=. by apply IH, map_Forall_delete.
Qed.

Lemma effects_in_ms now m recs : in_ms m -> in_ms (effects now m recs).
Proof. revert m. induction recs as [|r recs IH] => m Hm //=. by apply IH, effect_in_ms. Qed.

Lemma tick_foldl_delete t m ks :
  tick t (foldl (fun m k => delete k m) m ks) = foldl (fun m k => delete k m) (tick t m) ks.
Proof. revert m. induction ks as [|k ks IH] => m //=. by rw IH tick_delete. Qed.

Lemma effect_later now t m rec : now <= t -> tick t (effect now m rec) = effect t (tick t m) rec.
Proof.
  intros Hle. rw /effect. destruct (rec_kind rec); [|apply tick_foldl_delete..].
  destruct (rec_has_expiry rec); [|by rw tick_insert].
  case_decide as H1; [by rw tick_insert|].
  rw tick_delete decide_False //. lia.
Qed.

(** What was recovered at one time is what a replay at a later time would give, less what
    has expired since. *)
Lemma effects_later now t m recs : now <= t -> tick t (effects now m recs) = effects t (tick t m) recs.
Proof. intros Hle. revert m. induction recs as [|r recs IH] => m //=. by rw IH effect_later. Qed.

Lemma recovered_in_ms t s : in_ms (phys s) -> recovered t s = tick t (phys s).
Proof.
  intros Hm. rw /recovered. f_equal. apply map_eq => k. rw lookup_fmap.
  destruct (phys s !! k) as [e|] eqn:E; [|done]. simpl. by rw (map_Forall_lookup_1 _ _ _ _ Hm E).
Qed.

(** ** The running system *)

Record esys := mkEsys { eng : Engine sys; snaps : list Store }.

(** A step of the log that is not an append. *)
Definition background (l l' : sys) : Prop :=
  exists a, act a l = Some l' /\ match a with LAppend _ => False | _ => True end.

(** Everything that happens at instants up to [t]: a mutation whose locked part runs at
    [now] (a snapshot is taken when it logged a record), a sweep, the end of admission, the
    start or stop of the worker, a SCAN call, the clearing of its sessions, a step of the
    writer or of [Close]. *)
Inductive estep (t : Z) (es : esys) : esys -> Prop :=
| estep_mutate o now r e' l l' :
    now <= t -> elog (eng es) = Some l -> mutate o now (eng es) = (r, e') -> elog e' = Some l' ->
    estep t es (mkEsys e' (snaps es ++ if decide (length (hist l') = length (hist l)) then [] else [store e']))
| estep_reclaim iter now :
    now <= t -> ranges (expires (store (eng es))) iter ->
    estep t es (mkEsys (reclaimOnce iter now (eng es)).2 (snaps es))
| estep_drain : estep t es (mkEsys (BeginDrain (eng es)) (snaps es))
| estep_worker b : estep t es (mkEsys (set_running b (eng es)) (snaps es))
| estep_clear : estep t es (mkEsys (ClearScanSessions (eng es)) (snaps es))
| estep_scan req iter keycap now tokens r e' :
    Scan req iter keycap now tokens (eng es) = Some (r, e') -> estep t es (mkEsys e' (snaps es))
| estep_log l l' :
    elog (eng es) = Some l -> background l l' ->
    estep t es (mkEsys (with_log (eng es) l') (snaps es)).

(** The states the engine has been in are the replays of the prefixes of its log. *)
Definition esys_inv (t : Z) (content : bytes) (p : Policy) (now0 : Z) (base : gmap bytes entry) (es : esys) : Prop :=
  exists l, elog (eng es) = Some l /\ AofLog.reachable p now0 content [] l /\
    length (snaps es) = S (length (hist l)) /\
    effects t base (hist l) = recovered t (store (eng es)) /\
    forall m s, snaps es !! m = Some s -> effects t base (take m (hist l)) = recovered t s.

Lemma sys_append_step r l : AofLog.step l (sys_append r l).2.
Proof.
  exists (LAppend r). rw /act /sys_append. by destruct (Append r (lg l)) as [[n|err] l'].
Qed.

(** A mutation's only access to the log is one append. *)
Definition one_append (e e' : Engine sys) : Prop := forall l, elog e = Some l ->
  elog e' = Some l \/ exists rec, elog e' = Some (sys_append rec l).2.

Lemma mutate_one_append o now e r e' : mutate o now e = (r, e') -> one_append e e'.
Proof.
  intros Hm l Hl. destruct (mutate_touched _ _ _ _ _ Hm) as [(st & -> & _)|(l0 & rec & ra & l' & Hl0 & Ha & H)];
    [by left|]. rw Hl in Hl0. injection Hl0 as <-. right. exists rec. cbn [log_append sys_logger] in Ha. rw Ha.
  destruct ra; [by destruct H as (_ & st & ->)|by destruct H as (_ & ->)].
Qed.

(** ** Preservation *)

Lemma esys_inv_mutate t content p now0 base es o now r e' l l' :
  esys_inv t content p now0 base es -> now <= t -> elog (eng es) = Some l ->
  mutate o now (eng es) = (r, e') -> elog e' = Some l' ->
  esys_inv t content p now0 base
    (mkEsys e' (snaps es ++ if decide (length (hist l') = length (hist l)) then [] else [store e'])).
Proof.
  intros (l0 & Hl0 & Hr & Hn & Heff & Hall) Hle Hl Hm Hl'. rw Hl in Hl0. injection Hl0 as <-.
  destruct (mutate_logged t o now (eng es) r e' Hle Hm l Hl) as (l1 & recs & E1 & Hh & Hrec & Hone).
  rw Hl' in E1. injection E1 as <-. cbn [log_hist sys_logger_laws] in Hh.
  have Hreach : AofLog.reachable p now0 content [] l'.
  { rw /AofLog.reachable in Hr *. destruct (mutate_one_append o now (eng es) r e' Hm l Hl) as [E|[rec E]];
      rw Hl' in E; injection E as ->; [done|]. eapply rtc_r; [done|]. apply sys_append_step. }
  exists l'. split_and!; [done|done| | |].
  - cbn [snaps]. rw length_app Hn Hh length_app. case_decide; [simpl; lia|].
    destruct recs as [|? [|]]; simpl in *; lia.
  - cbn [eng]. rw Hh /effects foldl_app -/(effects t base (hist l)) Heff. exact Hrec.
  - cbn [snaps]. intros m s Hs. rw Hh.
    destruct (decide (m < S (length (hist l)))%nat) as [Hlt|Hge].
    + rw lookup_app_l in Hs; [lia|]. rw take_app_le; [lia|]. by apply Hall.
    + rw lookup_app_r in Hs; [lia|]. case_decide as Hd; [by rw lookup_nil in Hs|].
      rw Hh length_app in Hd. destruct recs as [|rec [|]]; simpl in *; [lia| |lia].
      destruct (m - length (snaps es))%nat as [|j] eqn:Ej; [|by destruct j].
      injection Hs as <-. rw take_ge; [rw length_app /=; lia|].
      rw /effects foldl_app -/(effects t base (hist l)) Heff. exact Hrec.
Qed.

Lemma esys_inv_step t content p now0 base es es' :
  esys_inv t content p now0 base es -> estep t es es' -> esys_inv t content p now0 base es'.
Proof.
  intros Hi Hs. destruct Hs as [o now r e' l l' Hle Hl Hm Hl'|iter now Hle Hr| |b| |req iter keycap now tokens r e' Hs|l l' Hl [a [Ha Hna]]].
  - by eapply esys_inv_mutate.
  - destruct Hi as (l & Hl & Hre & Hn & Heff & Hall). exists l. rw /reclaimOnce.
    have Hrec := recovered_reclaim t (store (eng es)) iter now expirationSample Hr Hle.
    destruct (ReclaimExpired _ _ _ _) as [[s rm] ex]. cbn [fst snd eng snaps with_store elog store] in *.
    split_and!; try done. by rw Heff.
  - destruct Hi as (l & Hl & Hre & Hn & Heff & Hall). by exists l.
  - destruct Hi as (l & Hl & Hre & Hn & Heff & Hall). by exists l.
  - destruct Hi as (l & Hl & Hre & Hn & Heff & Hall). by exists l.
  - destruct Hi as (l & Hl & Hre & Hn & Heff & Hall). exists l. move: Hs. rw /Scan.
    destruct (if negb _ then _ else _) as [[r1 m1]|]; [|done]. by intros [= <- <-].
  - destruct Hi as (l0 & Hl0 & Hre & Hn & Heff & Hall). rw Hl in Hl0. injection Hl0 as <-.
    have Hh : hist l' = hist l.
    { move: Ha. rw /act. destruct a, (at_ l); try done; repeat case_match; intros; by simplify_eq. }
    exists l'. split_and!; [done| | | |].
    + eapply rtc_r; [done|]. by exists a.
    + by rw Hh.
    + cbn [eng with_log store]. by rw Hh.
    + cbn [snaps]. by rw Hh.
Qed.

Lemma esys_inv_steps t content p now0 base es es' :
  esys_inv t content p now0 base es -> rtc (estep t) es es' -> esys_inv t content p now0 base es'.
Proof. intros Hi Hs. revert Hi. induction Hs as [|e1 e2 e3 H1 _ IH]; [done|]. intros Hi. apply IH. by eapply esys_inv_step. Qed.

(** ** The log only moves forward *)

(** The marker an acknowledgement under policy [p] stands on. *)
Definition marker (p : Policy) (l : sys) : Z := match p with Always => synced (lg l) | EverySec => written (lg l) end.

(** The log below an engine's step runs on. *)
Lemma mutate_log o now (e e' : Engine sys) r l : mutate o now e = (r, e') -> elog e = Some l ->
  exists l', elog e' = Some l' /\ rtc AofLog.step l l'.
Proof.
  intros Hm Hl. destruct (mutate_one_append o now e r e' Hm l Hl) as [E|[rec E]].
  - exists l. split; [done|apply rtc_refl].
  - eexists. split; [done|]. apply rtc_once, sys_append_step.
Qed.

Lemma estep_logrun t es es' l : estep t es es' -> elog (eng es) = Some l ->
  exists l', elog (eng es') = Some l' /\ rtc AofLog.step l l'.
Proof.
  intros Hs Hl. destruct Hs as [o now r e' l0 l1 _ _ Hm _|iter now _ _| | | |req iter keycap now tokens r e' Hs|l0 l1 Hl0 (a & Ha & _)];
    cbn [eng]; try (exists l; split; [done|apply rtc_refl]).
  - by eapply mutate_log.
  - exists l. split; [|apply rtc_refl]. rw /reclaimOnce. by destruct (ReclaimExpired _ _ _ _) as [[s rm] ex].
  - apply Scan_frame in Hs as [m ->]. exists l. split; [done|apply rtc_refl].
  - rw Hl in Hl0. injection Hl0 as <-. exists l1. split; [done|]. apply rtc_once. by exists a.
Qed.

Lemma marker_run content p now0 l l' : [] `prefix_of` content -> AofLog.reachable p now0 content [] l -> rtc AofLog.step l l' ->
  len (hist l') <= maxUint64 -> marker p l <= marker p l' /\ hist l `prefix_of` hist l'.
Proof.
  intros Hp Hr Hs. revert Hr. induction Hs as [l|l l1 l2 H1 Hs IH] => Hr Hm; [by split|].
  have Hr1 : AofLog.reachable p now0 content [] l1 by eapply rtc_r.
  destruct (IH Hr1 Hm) as [IH1 IH2]. have Hh := step_hist _ _ H1. split; [|by etrans].
  have Hi : inv content l.
  { eapply inv_reachable; [done..|]. have H2 : hist l `prefix_of` hist l2 by etrans.
    apply prefix_length in H2. rw /len in Hm *. lia. }
  destruct (markers_step _ _ _ Hi H1). rw /marker in IH1 *. destruct p; lia.
Qed.

Lemma esteps_logrun t es es' l : rtc (estep t) es es' -> elog (eng es) = Some l ->
  exists l', elog (eng es') = Some l' /\ rtc AofLog.step l l'.
Proof.
  intros Hs. revert l. induction Hs as [es|es es1 es2 H1 _ IH] => l Hl; [by exists l; split; [|apply rtc_refl]|].
  destruct (estep_logrun _ _ _ _ H1 Hl) as (l1 & Hl1 & R1). destruct (IH l1 Hl1) as (l2 & Hl2 & R2).
  exists l2. split; [done|]. by etrans.
Qed.

(** A wait that succeeded stays covered by its marker for the rest of the run. *)
Lemma acknowledged_marker t content p now0 base es es' l l' seq :
  esys_inv t content p now0 base es -> rtc (estep t) es es' -> elog (eng es) = Some l -> elog (eng es') = Some l' ->
  len (hist l') <= maxUint64 -> Await seq p (lg l) = Some (Ret tt) -> 0 < seq -> seq <= marker p l'.
Proof.
  intros (l0 & Hl0 & Hr & _) Hs Hl Hl' Hm Hack%Await_marker Hpos. rw Hl in Hl0. injection Hl0 as <-.
  destruct (esteps_logrun _ _ _ _ Hs Hl) as (l1 & Hl1 & Hrun). rw Hl' in Hl1. injection Hl1 as <-.
  destruct (marker_run content p now0 l l' (prefix_nil _) Hr Hrun Hm) as [Hle _]. rw /marker in Hle *. destruct p; lia.
Qed.

(** ** From one start to the next *)

(** What replaying [kept] at [now] put into a store, seen by a later restart. *)
Lemma recovered_effects now t st kept : phys st = effects now ∅ kept -> now <= t ->
  recovered t st = effects t ∅ kept.
Proof.
  intros He Hle. rw recovered_in_ms; [rw He; by apply effects_in_ms|]. rw He effects_later //.
Qed.

Lemma OpenLog_inv recs content p now0 res e0 t : Forall readable recs ->
  content = [] \/ (content `prefix_of` log_file recs /\ HeaderSize <= len content) ->
  OpenLog ops_ok content p now0 NewEngine = Some (Ret res, e0) -> now0 <= t ->
  exists kept, Forall readable kept /\ kept `prefix_of` recs /\
    recovered t (store e0) = effects t ∅ kept /\
    esys_inv t (log_file kept) p now0 (effects t ∅ kept) (mkEsys e0 [store e0]).
Proof.
  intros Hf Hc. destruct (OpenFile_repairs (D:=Store) recs content now0 Store.New Hf Hc)
    as (kept & q & res' & st & Hkept & E & _ & He & _).
  cbn [ap_entries store_applier_laws] in He. rw /OpenLog E. intros [= <- <-] Hle.
  have Hpre : kept `prefix_of` recs.
  { destruct Hkept as [[_ ->]|[(lost & -> & _) _]]; [apply prefix_nil|by apply prefix_app_r]. }
  have Hrec : recovered t st = effects t ∅ kept.
  { by apply (recovered_effects now0). }
  exists kept. split_and!; [by destruct Hpre as [k ->]; apply Forall_app in Hf as []|done|done|].
  eexists. split_and!; [done|apply rtc_refl|done|done|].
  intros m s Hs. destruct m as [|m]; [|done]. injection Hs as <-. by rw take_0.
Qed.

(** C2. Durable prefix consistency. Open a log (empty, or one cut by a crash), then let any
    interleaving happen of client mutations, expiration sweeps, SCANs, the writer's writes
    (short and failing ones too), syncs and shutdown steps; kill the process, or, under
    [Always], the machine. The next recovery succeeds, and what it shows is exactly, with
    deadlines in whole milliseconds, what the engine held right after its [m]-th logged
    mutation, for an [m] that covers every mutation whose wait has succeeded at any earlier
    moment [es1] of the run, also when the log has failed since and would refuse the same
    wait now. *)
Theorem recovery_prefix_consistent recs content p now0 res e0 t es l survivor :
  Forall readable recs ->
  content = [] \/ (content `prefix_of` log_file recs /\ HeaderSize <= len content) ->
  OpenLog ops_ok content p now0 NewEngine = Some (Ret res, e0) -> now0 <= t ->
  rtc (estep t) (mkEsys e0 [store e0]) es -> elog (eng es) = Some l ->
  Forall readable (hist l) -> len (hist l) <= maxUint64 ->
  survivor = file l \/
    (p = Always /\ 0 < synced (lg l) /\ disk l `prefix_of` survivor /\ survivor `prefix_of` file l) ->
  exists m s_m res' (st : Store),
    Replay (mkStream survivor EOF) t Store.New = Some (res', None, st) /\
    snaps es !! m = Some s_m /\ phys st = recovered t s_m /\
    forall es1 l1 seq, rtc (estep t) (mkEsys e0 [store e0]) es1 -> rtc (estep t) es1 es ->
      elog (eng es1) = Some l1 -> 0 < seq -> Await seq p (lg l1) = Some (Ret tt) -> seq <= Z.of_nat m.
Proof.
  intros Hf Hc Ho Hle Hsteps Hl Hh Hmax Hsur.
  destruct (OpenLog_inv recs content p now0 res e0 t Hf Hc Ho Hle) as (kept & Hk & _ & _ & Hi0).
  destruct (esys_inv_steps _ _ _ _ _ _ _ Hi0 Hsteps) as (l0 & Hl0 & Hr & Hn & _ & Hall). rw Hl in Hl0. injection Hl0 as <-.
  have Hnil : [] `prefix_of` log_file kept by apply prefix_nil.
  destruct (inv_markers _ _ (inv_reachable _ _ _ _ _ Hnil Hr Hmax)) as (Hsw & _).
  set n := if bool_decide (survivor = file l) then written (lg l) else synced (lg l).
  destruct (log_recovered (D:=Store) kept [] p now0 l n survivor t Store.New) as (m & res' & st & Hm & E & He);
    try done.
  { rw /n. case_bool_decide as Hs; [by left|]. right. destruct Hsur as [?|(_ & ? & ? & ?)]; [done|by split_and!]. }
  cbn [ap_entries store_applier_laws] in He. rw /effects foldl_app -!/(effects _ _ _) in He.
  destruct (lookup_lt_is_Some_2 (snaps es) m) as [s_m Hs]; [rw /len in Hm; lia|].
  exists m, s_m, res', st. split_and!; [done|done|by rw He; apply Hall|].
  intros es1 l1 seq Hs1 Hs2 Hl1 Hpos Hack.
  have Hmk := acknowledged_marker t (log_file kept) p now0 _ es1 es l1 l seq
    (esys_inv_steps _ _ _ _ _ _ _ Hi0 Hs1) Hs2 Hl1 Hl Hmax Hack Hpos.
  rw /marker in Hmk. rw /n in Hm. case_bool_decide; [destruct p; lia|].
  destruct Hsur as [?|(-> & _)]; [done|]. lia.
Qed.

(** What a writer that has exited without a failure leaves behind. *)
Lemma clean_disk recs content p now0 res e0 t es l :
  Forall readable recs ->
  content = [] \/ (content `prefix_of` log_file recs /\ HeaderSize <= len content) ->
  OpenLog ops_ok content p now0 NewEngine = Some (Ret res, e0) -> now0 <= t ->
  rtc (estep t) (mkEsys e0 [store e0]) es -> elog (eng es) = Some l ->
  Forall readable (hist l) -> len (hist l) <= maxUint64 ->
  at_ l = Exited -> failed (lg l) = None ->
  exists all, Forall readable all /\ disk l = log_file all /\ effects t ∅ all = recovered t (store (eng es)).
Proof.
  intros Hf Hc Ho Hle Hsteps Hl Hh Hmax Hat Hfl.
  destruct (OpenLog_inv recs content p now0 res e0 t Hf Hc Ho Hle) as (kept & Hk & _ & _ & Hi0).
  destruct (esys_inv_steps _ _ _ _ _ _ _ Hi0 Hsteps) as (l0 & Hl0 & Hr & Hn & Heff & Hall). rw Hl in Hl0. injection Hl0 as <-.
  have Hnil : [] `prefix_of` log_file kept by apply prefix_nil.
  destruct (inv_exited _ _ (inv_reachable _ _ _ _ _ Hnil Hr Hmax) Hat Hfl) as (_ & _ & _ & -> & _).
  exists (kept ++ hist l). split_and!; [by apply Forall_app|by rw log_file_app|].
  rw /effects foldl_app -!/(effects _ _ _). exact Heff.
Qed.

Lemma clean_restart recs content p now0 res e0 t es l :
  Forall readable recs ->
  content = [] \/ (content `prefix_of` log_file recs /\ HeaderSize <= len content) ->
  OpenLog ops_ok content p now0 NewEngine = Some (Ret res, e0) -> now0 <= t ->
  rtc (estep t) (mkEsys e0 [store e0]) es -> elog (eng es) = Some l ->
  Forall readable (hist l) -> len (hist l) <= maxUint64 ->
  at_ l = Exited -> failed (lg l) = None ->
  exists n off (st : Store),
    Replay (mkStream (disk l) EOF) t Store.New = Some (mkResult n off false, None, st) /\
    phys st = recovered t (store (eng es)).
Proof.
  intros Hf Hc Ho Hle Hsteps Hl Hh Hmax Hat Hfl.
  destruct (clean_disk recs content p now0 res e0 t es l) as (all & Ha & -> & Heff); [done..|].
  destruct (Replay_tail (D:=Store) all [] sample_record t Store.New) as (st & E & He);
    [done|apply sample_readable|apply prefix_nil|done|].
  rw app_nil_r in E. do 3 eexists. split; [exact E|].
  cbn [ap_entries store_applier_laws] in He. by rw He.
Qed.

(** A clean restart loses nothing: when the writer has exited without a failure, the
    next recovery shows exactly what the engine last held, with deadlines in whole
    milliseconds, under either policy and also if the machine went down afterwards. *)
Theorem clean_restart_exact recs content p now0 res e0 t es l :
  Forall readable recs ->
  content = [] \/ (content `prefix_of` log_file recs /\ HeaderSize <= len content) ->
  OpenLog ops_ok content p now0 NewEngine = Some (Ret res, e0) -> now0 <= t ->
  rtc (estep t) (mkEsys e0 [store e0]) es -> elog (eng es) = Some l ->
  Forall readable (hist l) -> len (hist l) <= maxUint64 ->
  at_ l = Exited -> failed (lg l) = None ->
  exists n off (st : Store),
    Replay (mkStream (disk l) EOF) t Store.New = Some (mkResult n off false, None, st) /\
    phys st = recovered t (store (eng es)).
Proof. apply clean_restart. Qed.

(** ** Witnesses *)

Lemma acts_esteps t as_ es l l' : elog (eng es) = Some l -> acts as_ l = Some l' ->
  Forall (fun a => match a with LAppend _ => False | _ => True end) as_ ->
  rtc (estep t) es (mkEsys (with_log (eng es) l') (snaps es)).
Proof.
  revert es l. induction as_ as [|a as_ IH] => es l Hl /=.
  - intros [= <-] _. destruct es as [e sn]. cbn [eng] in *. rw /with_log -Hl. by destruct e.
  - destruct (act a l) as [l1|] eqn:Ea; [|done]. intros Hrest [Ha Has]%Forall_cons_1.
    eapply rtc_l; [apply (estep_log _ _ l l1); [done|by exists a]|].
    by apply (IH (mkEsys (with_log (eng es) l1) (snaps es)) l1).
Qed.

(** A server started on an empty file that runs one SET with a deadline, and stops. *)
Definition w_e0 : Engine sys :=
  match OpenLog ops_ok [] Always 0 NewEngine with Some (_, e) => e | None => NewEngine end.
Definition w_op : eop := MSet (str "k") (str "v") (ExpiresIn (10 * second + 1)).
Definition w_e1 : Engine sys := (mutate w_op 1 w_e0).2.
Definition w_l1 : sys := match elog w_e1 with Some l => l | None => sys0 Always 0 [] [] end.
Definition w_acts : list label :=
  [LNotify; LSwap; LWrite (len (lbuf (lg w_l1))) true; LDelivered; LAdvanceWritten; LSync true [];
   LAdvanceSynced; LCloseLock; LCloseSignal; LSeeClose; LSwap; LSync true []; LAdvanceSynced; LFinish; LExit].
Definition w_l2 : sys := match acts w_acts w_l1 with Some l => l | None => w_l1 end.
Definition w_es : esys := mkEsys (with_log w_e1 w_l2) [store w_e0; store w_e1].

Definition w_l0 : sys := match elog w_e0 with Some l => l | None => w_l1 end.

Lemma w_mutation : estep (5 * second) (mkEsys w_e0 [store w_e0]) (mkEsys w_e1 [store w_e0; store w_e1]).
Proof.
  have E : [store w_e0; store w_e1] =
      [store w_e0] ++ if decide (length (hist w_l1) = length (hist w_l0)) then [] else [store w_e1].
  { vm_compute. reflexivity. }
  rw E. refine (estep_mutate _ (mkEsys w_e0 [store w_e0]) w_op 1 (mutate w_op 1 w_e0).1 w_e1 w_l0 w_l1 _ _ _ _).
  - by vm_compute.
  - vm_compute. reflexivity.
  - apply surjective_pairing.
  - vm_compute. reflexivity.
Qed.

Lemma w_run : rtc (estep (5 * second)) (mkEsys w_e0 [store w_e0]) w_es.
Proof.
  eapply rtc_l; [apply w_mutation|].
  refine (acts_esteps (5 * second) w_acts (mkEsys w_e1 [store w_e0; store w_e1]) w_l1 w_l2 _ _ _).
  - vm_compute. reflexivity.
  - vm_compute. reflexivity.
  - by repeat constructor.
Qed.

Lemma w_readable : Forall readable (hist w_l2).
Proof.
  apply Forall_singleton. split; [by vm_compute|]. split_and!; [by vm_compute..| |by vm_compute].
  by repeat constructor; vm_compute.
Qed.

(** The same SET, whose wait succeeds; then a later sync fails, and the log with it. *)
Definition w_acked : list label :=
  [LNotify; LSwap; LWrite (len (lbuf (lg w_l1))) true; LDelivered; LAdvanceWritten; LSync true []; LAdvanceSynced].
Definition w_l3 : sys := default w_l1 (acts w_acked w_l1).
Definition w_failing : list label := [LTick (3 * second); LSwap; LSync false (disk w_l3); LFail; LReport].
Definition w_l4 : sys := default w_l1 (acts w_failing w_l3).
Definition w_es3 : esys := mkEsys (with_log w_e1 w_l3) [store w_e0; store w_e1].
Definition w_es4 : esys := mkEsys (with_log w_e1 w_l4) [store w_e0; store w_e1].

Lemma w_run3 : rtc (estep (5 * second)) (mkEsys w_e0 [store w_e0]) w_es3.
Proof.
  eapply rtc_l; [apply w_mutation|].
  refine (acts_esteps (5 * second) w_acked (mkEsys w_e1 [store w_e0; store w_e1]) w_l1 w_l3 _ _ _).
  - vm_compute. reflexivity.
  - vm_compute. reflexivity.
  - by repeat constructor.
Qed.

Lemma w_run4 : rtc (estep (5 * second)) w_es3 w_es4.
Proof.
  refine (acts_esteps (5 * second) w_failing w_es3 w_l3 w_l4 _ _ _).
  - vm_compute. reflexivity.
  - vm_compute. reflexivity.
  - by repeat constructor.
Qed.

Lemma recovery_prefix_witness :
  Await 1 Always (lg w_l3) = Some (Ret tt) /\ Await 1 Always (lg w_l4) = Some (Fail (ErrFailed SyncError)) /\
  exists m s_m res' (st : Store),
    Replay (mkStream (disk w_l4) EOF) (5 * second) Store.New = Some (res', None, st) /\
    snaps w_es4 !! m = Some s_m /\ phys st = recovered (5 * second) s_m /\ 1 <= Z.of_nat m.
Proof.
  split; [vm_compute; reflexivity|]. split; [vm_compute; reflexivity|].
  edestruct (recovery_prefix_consistent [] [] Always 0 (mkResult 0 HeaderSize false) w_e0 (5 * second) w_es4 w_l4
    (disk w_l4)) as (m & s_m & res' & st & E & Hs & Hp & Hack).
  - constructor.
  - by left.
  - vm_compute. reflexivity.
  - by vm_compute.
  - etrans; [apply w_run3|apply w_run4].
  - reflexivity.
  - apply w_readable.
  - by vm_compute.
  - right. split_and!; [done|by vm_compute|done|]. exists []. vm_compute. reflexivity.
  - exists m, s_m, res', st. split_and!; [done..|].
    apply (Hack w_es3 w_l3 1 w_run3 w_run4); [reflexivity|done|vm_compute; reflexivity].
Defined.

Lemma clean_restart_witness :
  exists n off (st : Store),
    Replay (mkStream (disk w_l2) EOF) (5 * second) Store.New = Some (mkResult n off false, None, st) /\
    phys st = recovered (5 * second) (store (eng w_es)).
Proof.
  refine (clean_restart_exact [] [] Always 0 (mkResult 0 HeaderSize false) w_e0 (5 * second) w_es w_l2
    _ (or_introl eq_refl) _ _ w_run _ w_readable _ _ _).
  - constructor.
  - vm_compute. reflexivity.
  - by vm_compute.
  - reflexivity.
  - by vm_compute.
  - vm_compute. reflexivity.
  - vm_compute. reflexivity.
Defined.

(** The deadline comes back in whole milliseconds: two nanoseconds earlier here. *)
Example deadline_is_truncated :
  view (store w_e1) (5 * second) !! str "k" = Some (str "v", Some (10 * second + 2)) /\
  recovered (5 * second) (store w_e1) !! str "k" = Some (str "v", Some (10 * second)).
Proof. split; vm_compute; reflexivity. Qed.
