(* ===== verification/Command.v ===== *)
(** * Commands (src/internal/command/command.go, discovery.go, reply.go)

    [Dispatch] finds a command, checks its arity and runs its handler on the engine. What
    one execution takes from outside is the record [env]: the clock, the outcome of waiting
    for durability, the order in which the store's map is visited, the capacity of the
    snapshot slice and the random tokens. Handlers index their arguments as the code does,
    so an index out of range is a [Panics] of the model; a SCAN whose token source never
    yields a fresh token is [Spins]. *)

From S2P Require Import Prelude.
From S2P Require Import GoLib.
From S2P Require Import Store.
From S2P Require Import Glob.
From S2P Require Import AofCodec.
From S2P Require Import AofReplay.
From S2P Require Import AofLog.
From S2P Require Import ScanSessions.
From S2P Require Import Engine.

(** ** Replies *)

Inductive Reply :=
| Simple (s : bytes)
| Err (s : bytes)
| Int (n : Z)
| Bulk (s : bytes)
| NullBulk
| Array (items : list Reply).

Inductive run (A : Type) := Done (a : A) | Panics | Spins.
Arguments Done {A} a.
Arguments Panics {A}.
Arguments Spins {A}.

(** ** Argument parsing *)

Definition maxExpireSeconds : Z := Z.quot maxInt64 second.
Definition maxExpireMillis : Z := Z.quot maxInt64 millisecond.

Definition errNotAnInteger : bytes := str "ERR value is not an integer or out of range".
Definition errSyntax : bytes := str "ERR syntax error".
Definition errIncrOverflow : bytes := str "ERR increment or decrement would overflow".

Definition invalidExpire (command : string) : Reply :=
  Err (str "ERR invalid expire time in '" ++ str command ++ str "' command").

Definition maxEchoedName : Z := 128.

Definition echoName (b : bytes) : bytes :=
  if maxEchoedName <? len b then take (Z.to_nat maxEchoedName) b ++ str "..." else b.

Inductive unit_ := NoUnit | EX | PX.

#[export] Instance unit_eq_dec : EqDecision unit_.
Proof. solve_decision. Defined.

Definition unit_of (name : option bytes) : unit_ :=
  if bool_decide (name = Some (str "EX")) then EX
  else if bool_decide (name = Some (str "PX")) then PX else NoUnit.

(** The loop of [parseSetOptions] with the unit and TTL so far. *)
Fixpoint parse_set_loop (opts : list bytes) (unit : unit_) (ttl : TTL) : result Reply TTL :=
  match opts with
  | [] => Ret ttl
  | opt :: rest =>
      let name := unit_of (ToUpper opt) in
      match name with
      | NoUnit => Fail (Err errSyntax)
      | _ =>
          if negb (bool_decide (unit = NoUnit)) && negb (bool_decide (unit = name)) then Fail (Err errSyntax)
          else
            match rest with
            | [] => Fail (Err errSyntax)
            | text :: rest =>
                match ParseInt text with
                | None => Fail (Err errNotAnInteger)
                | Some n =>
                    if n <=? 0 then Fail (invalidExpire "set")
                    else
                      let step := if bool_decide (name = PX) then millisecond else second in
                      if (bool_decide (name = EX) && (maxExpireSeconds <? n)) ||
                         (bool_decide (name = PX) && (maxExpireMillis <? n))
                      then Fail (invalidExpire "set")
                      else parse_set_loop rest name (ExpiresIn (wraps 64 (n * step)))
                end
            end
      end
  end.

Definition parseSetOptions (opts : list bytes) : result Reply TTL := parse_set_loop opts NoUnit NoExpiry.

Definition defaultScanCount : Z := 10.
Definition errInvalidCursor : bytes := str "ERR invalid cursor".
Definition errScanSessionLimit : bytes := str "ERR scan session limit reached".
Definition errScanMatchChanged : bytes := str "ERR scan MATCH cannot change during iteration".

(** The option loop of [parseScan]. *)
Fixpoint parse_scan_loop (opts : list bytes) (req : ScanRequest) : result Reply ScanRequest :=
  match opts with
  | [] => Ret req
  | opt :: rest =>
      let name := ToUpper opt in
      if bool_decide (name = Some (str "MATCH")) then
        match rest with
        | [] => Fail (Err errSyntax)
        | pattern :: rest => parse_scan_loop rest (mkScanRequest (rq_Cursor req) pattern true (rq_Count req))
        end
      else if bool_decide (name = Some (str "COUNT")) then
        match rest with
        | [] => Fail (Err errSyntax)
        | text :: rest =>
            match ParseInt text with
            | None => Fail (Err errNotAnInteger)
            | Some n =>
                if n <=? 0 then Fail (Err errSyntax)
                else parse_scan_loop rest (mkScanRequest (rq_Cursor req) (rq_Pattern req) (rq_PatternSet req) (wrapu 64 n))
            end
        end
      else Fail (Err errSyntax)
  end.

Definition parseScan (cursorText : bytes) (opts : list bytes) : result Reply ScanRequest :=
  let plus := HasPrefix cursorText (str "+") in
  let text := if plus then drop 1 cursorText else cursorText in
  if plus && bool_decide (text = []) then Fail (Err errInvalidCursor)
  else
    match ParseUint text with
    | None => Fail (Err errInvalidCursor)
    | Some cursor => parse_scan_loop opts (mkScanRequest cursor [] false defaultScanCount)
    end.

(** ** Handlers *)

Record env := mkEnv {
  env_now : Z;
  env_aw : Z -> option log_err;
  env_iter : list (bytes * bytes);
  env_cap : Z;
  env_tokens : list (option Z)
}.

Definition boolInt (b : bool) : Reply := if b then Int 1 else Int 0.

Definition mutationError (err : engine_err) : Reply :=
  match err with
  | ErrDraining => Err (str "ERR server is shutting down")
  | ErrPersistenceUnavailable _ => Err (str "ERR persistence unavailable")
  | _ => Err (str "ERR internal error")
  end.

Definition scanError (err : scan_err) : Reply :=
  match err with
  | ErrInvalidCursor => Err errInvalidCursor
  | ErrScanSessionLimit => Err errScanSessionLimit
  | ErrScanMatchChanged => Err errScanMatchChanged
  | ErrToken => Err (str "ERR internal error")
  end.

(** [args[i]] *)
Notation "'arg' x ':=' l '@' i 'in' k" :=
  (match l !! i%nat with Some x => k | None => Panics end)
  (at level 10, x name, l at level 9, i at level 9, k at level 200) : go_scope.

Section commands.
Context {L : Type} `{!Logger L}.

Definition handler : Type := env -> list bytes -> Engine L -> run (Reply * Engine L).

Definition cmdPing : handler := fun v args e =>
  if len args =? 2 then arg a := args @ 1 in Done (Bulk a, e) else Done (Simple (str "PONG"), e).

Definition cmdSet : handler := fun v args e =>
  if len args <? 3 then Panics (* args[3:] *)
  else
    match parseSetOptions (drop 3 args) with
    | Fail bad => Done (bad, e)
    | Ret ttl =>
        arg key := args @ 1 in
        arg value := args @ 2 in
        let '(err, e) := ESet key value ttl (env_now v) (env_aw v) e in
        Done (match err with Some err => mutationError err | None => Simple (str "OK") end, e)
    end.

Definition incrBy (delta : Z) : handler := fun v args e =>
  arg key := args @ 1 in
  let '(n, err, e) := IncrBy key delta (env_now v) (env_aw v) e in
  Done (match err with
        | None => Int n
        | Some ErrNotAnInteger => Err errNotAnInteger
        | Some ErrIncrOverflow => Err errIncrOverflow
        | Some err => mutationError err
        end, e).
Definition cmdIncr : handler := incrBy 1.
Definition cmdDecr : handler := incrBy (-1).

Definition cmdExpire : handler := fun v args e =>
  arg text := args @ 2 in
  match ParseInt text with
  | None => Done (Err errNotAnInteger, e)
  | Some n =>
      arg key := args @ 1 in
      if n <=? 0 then
        let '(removed, err, e) := EDelete [key] (env_now v) (env_aw v) e in
        Done (match err with Some err => mutationError err | None => Int removed end, e)
      else if maxExpireSeconds <? n then Done (invalidExpire "expire", e)
      else
        let '(applied, err, e) := Expire key (wraps 64 (n * second)) (env_now v) (env_aw v) e in
        Done (match err with Some err => mutationError err | None => boolInt applied end, e)
  end.

Definition cmdTTL : handler := fun v args e =>
  arg key := args @ 1 in
  let '(d, st) := ETTL key (env_now v) e in
  match st with
  | NoKey => Done (Int (-2), e)
  | NoTTL => Done (Int (-1), e)
  | HasTTL =>
      let ms := Milliseconds d in
      let ms := if ms <? 0 then 0 else ms in
      Done (Int (Z.quot (ms + 500) 1000), e)
  end.

Definition cmdPersist : handler := fun v args e =>
  arg key := args @ 1 in
  let '(removed, err, e) := Persist key (env_now v) (env_aw v) e in
  Done (match err with Some err => mutationError err | None => boolInt removed end, e).

Definition cmdGet : handler := fun v args e =>
  arg key := args @ 1 in
  Done (match Get key (env_now v) e with None => NullBulk | Some x => Bulk x end, e).

(** [args[1:]], copied. *)
Definition ownedKeys (args : list bytes) : list bytes := drop 1 args.

Definition cmdMGet : handler := fun v args e =>
  Done (Array ((fun r => match r with None => NullBulk | Some x => Bulk x end) <$>
                 MGet (ownedKeys args) (env_now v) e), e).

Definition cmdDel : handler := fun v args e =>
  let '(n, err, e) := EDelete (ownedKeys args) (env_now v) (env_aw v) e in
  Done (match err with Some err => mutationError err | None => Int n end, e).

Definition cmdExists : handler := fun v args e => Done (Int (Exists (ownedKeys args) (env_now v) e), e).

Definition cmdKeys : handler := fun v args e =>
  arg pattern := args @ 1 in Done (Array (Bulk <$> EKeys pattern (env_iter v) (env_now v) e), e).

Definition cmdDBSize : handler := fun v args e => Done (Int (DBSize (env_iter v) (env_now v) e), e).

Definition cmdScan : handler := fun v args e =>
  arg cursorText := args @ 1 in
  match parseScan cursorText (drop 2 args) with
  | Fail bad => Done (bad, e)
  | Ret req =>
      match Scan req (env_iter v) (env_cap v) (env_now v) (env_tokens v) e with
      | None => Spins
      | Some (Fail err, e) => Done (scanError err, e)
      | Some (Ret page, e) =>
          Done (Array [Bulk (FormatUint (Cursor page)); Array (Bulk <$> Keys page)], e)
      end
  end.

(** ** The registry *)

Record spec := mkSpec { minArgs : Z; maxArgs : Z; run_ : handler }.

(** [New]: [maxArgs = -1] is unbounded. *)
Definition cmds : list (bytes * spec) :=
  [(str "PING", mkSpec 1 2 cmdPing);
   (str "SET", mkSpec 3 (-1) cmdSet);
   (str "GET", mkSpec 2 2 cmdGet);
   (str "MGET", mkSpec 2 (-1) cmdMGet);
   (str "DEL", mkSpec 2 (-1) cmdDel);
   (str "EXISTS", mkSpec 2 (-1) cmdExists);
   (str "INCR", mkSpec 2 2 cmdIncr);
   (str "DECR", mkSpec 2 2 cmdDecr);
   (str "EXPIRE", mkSpec 3 3 cmdExpire);
   (str "TTL", mkSpec 2 2 cmdTTL);
   (str "PERSIST", mkSpec 2 2 cmdPersist);
   (str "KEYS", mkSpec 2 2 cmdKeys);
   (str "SCAN", mkSpec 2 (-1) cmdScan);
   (str "DBSIZE", mkSpec 1 1 cmdDBSize)].

Fixpoint find_cmd (name : bytes) (l : list (bytes * spec)) : option spec :=
  match l with
  | [] => None
  | (n, sp) :: l => if bool_decide (n = name) then Some sp else find_cmd name l
  end.

Definition Dispatch (v : env) (args : list bytes) (e : Engine L) : run (Reply * Engine L) :=
  match args with
  | [] => Done (Err (str "ERR empty command"), e)
  | name :: _ =>
      let found :=
        match ToUpper name with
        | Some upper => (fun sp => (upper, sp)) <$> find_cmd upper cmds
        | None => None
        end in
      match found with
      | None => Done (Err (str "ERR unknown command '" ++ echoName name ++ str "'"), e)
      | Some (upper, sp) =>
          if (len args <? minArgs sp) || ((0 <=? maxArgs sp) && (maxArgs sp <? len args))
          then Done (Err (str "ERR wrong number of arguments for '" ++ ToLower upper ++ str "' command"), e)
          else run_ sp v args e
      end
  end.
End commands.

(** ** The specification *)

(** A command, read by its shape alone. *)
Inductive cmd :=
| CReply (r : Reply)
| CMut (o : eop)
| CGet (k : bytes)
| CMGet (ks : list bytes)
| CExists (ks : list bytes)
| CTTL (k : bytes)
| CKeys (pattern : bytes)
| CDBSize
| CScan (req : ScanRequest).

Definition wrong_arity (name : bytes) : cmd :=
  CReply (Err (str "ERR wrong number of arguments for '" ++ ToLower name ++ str "' command")).
Definition unknown (name : bytes) : cmd := CReply (Err (str "ERR unknown command '" ++ echoName name ++ str "'")).

Definition parse_named (u : bytes) (name : bytes) (rest : list bytes) : cmd :=
  if bool_decide (str "PING" = u) then
    match rest with [] => CReply (Simple (str "PONG")) | [x] => CReply (Bulk x) | _ => wrong_arity u end
  else if bool_decide (str "SET" = u) then
    match rest with
    | k :: x :: opts =>
        match parseSetOptions opts with Fail bad => CReply bad | Ret ttl => CMut (MSet k x ttl) end
    | _ => wrong_arity u
    end
  else if bool_decide (str "GET" = u) then match rest with [k] => CGet k | _ => wrong_arity u end
  else if bool_decide (str "MGET" = u) then match rest with [] => wrong_arity u | _ => CMGet rest end
  else if bool_decide (str "DEL" = u) then match rest with [] => wrong_arity u | _ => CMut (MDelete rest) end
  else if bool_decide (str "EXISTS" = u) then match rest with [] => wrong_arity u | _ => CExists rest end
  else if bool_decide (str "INCR" = u) then match rest with [k] => CMut (MIncr k 1) | _ => wrong_arity u end
  else if bool_decide (str "DECR" = u) then match rest with [k] => CMut (MIncr k (-1)) | _ => wrong_arity u end
  else if bool_decide (str "EXPIRE" = u) then
    match rest with
    | [k; text] =>
        match ParseInt text with
        | None => CReply (Err errNotAnInteger)
        | Some n =>
            if n <=? 0 then CMut (MDelete [k])
            else if maxExpireSeconds <? n then CReply (invalidExpire "expire")
            else CMut (MExpire k (n * second))
        end
    | _ => wrong_arity u
    end
  else if bool_decide (str "TTL" = u) then match rest with [k] => CTTL k | _ => wrong_arity u end
  else if bool_decide (str "PERSIST" = u) then match rest with [k] => CMut (MPersist k) | _ => wrong_arity u end
  else if bool_decide (str "KEYS" = u) then match rest with [p] => CKeys p | _ => wrong_arity u end
  else if bool_decide (str "SCAN" = u) then
    match rest with
    | c :: opts => match parseScan c opts with Fail bad => CReply bad | Ret req => CScan req end
    | _ => wrong_arity u
    end
  else if bool_decide (str "DBSIZE" = u) then match rest with [] => CDBSize | _ => wrong_arity u end
  else unknown name.

Definition parse_cmd (args : list bytes) : cmd :=
  match args with
  | [] => CReply (Err (str "ERR empty command"))
  | name :: rest => match ToUpper name with Some u => parse_named u name rest | None => unknown name end
  end.

Definition answer (out : outcome) : Reply :=
  match out with OUnit => Simple (str "OK") | OFlag b => boolInt b | OCount n => Int n | OInt n => Int n end.
Definition value_error (err : engine_err) : Reply :=
  match err with
  | ErrNotAnInteger => Err errNotAnInteger
  | ErrIncrOverflow => Err errIncrOverflow
  | err => mutationError err
  end.

Definition bulk_or_null (x : option bytes) : Reply := match x with None => NullBulk | Some x => Bulk x end.

(** Seconds left, rounded to nearest. *)
Definition ttl_reply (now : Z) (en : option entry) : Reply :=
  match en with
  | None => Int (-2)
  | Some (_, None) => Int (-1)
  | Some (_, Some d) => Int (((time_Sub d now) / millisecond + 500) / 1000)
  end.

(** What each command answers and does, on a map from keys to values and deadlines. A SCAN
    answers from its session ([ScanSessions]), which this map does not have. *)
Definition sem_cmd (c : cmd) (now : Z) (m : gmap bytes entry) : option (Reply * gmap bytes entry) :=
  match c with
  | CReply r => Some (r, m)
  | CMut o =>
      let '(r, m') := spec_mut o now m in
      Some (match r with Ret out => answer out | Fail err => value_error err end, m')
  | CGet k => Some (bulk_or_null (fst <$> m !! k), m)
  | CMGet ks => Some (Array ((fun k => bulk_or_null (fst <$> m !! k)) <$> ks), m)
  | CExists ks => Some (Int (len (filter (fun k => is_Some (m !! k)) ks)), m)
  | CTTL k => Some (ttl_reply now (m !! k), m)
  | CKeys p => Some (Array (Bulk <$> sort_Strings (filter (matching p) (elements (dom m)))), m)
  | CDBSize => Some (Int (Z.of_nat (size m)), m)
  | CScan _ => None
  end.

Section commands_spec.
Context {L : Type} `{!Logger L}.

(** The handlers that are one mutation, and their answers. *)
Definition do_mut (o : eop) (v : env) (e : Engine L) : Reply * Engine L :=
  let '(r, e') := mutate o (env_now v) e in
  (match r with
   | Fail err => value_error err
   | Ret (out, seq) => match await (env_aw v) seq e' with Some err => mutationError err | None => answer out end
   end, e').

(** [Dispatch] is the parser above followed by the engine's method. *)
Definition exec (c : cmd) (v : env) (e : Engine L) : run (Reply * Engine L) :=
  match c with
  | CReply r => Done (r, e)
  | CMut o => Done (do_mut o v e)
  | CGet k => Done (bulk_or_null (Get k (env_now v) e), e)
  | CMGet ks => Done (Array (bulk_or_null <$> MGet ks (env_now v) e), e)
  | CExists ks => Done (Int (Exists ks (env_now v) e), e)
  | CTTL k =>
      let '(d, st) := ETTL k (env_now v) e in
      match st with
      | NoKey => Done (Int (-2), e)
      | NoTTL => Done (Int (-1), e)
      | HasTTL =>
          let ms := Milliseconds d in
          Done (Int (Z.quot ((if ms <? 0 then 0 else ms) + 500) 1000), e)
      end
  | CKeys p => Done (Array (Bulk <$> EKeys p (env_iter v) (env_now v) e), e)
  | CDBSize => Done (Int (DBSize (env_iter v) (env_now v) e), e)
  | CScan req =>
      match Scan req (env_iter v) (env_cap v) (env_now v) (env_tokens v) e with
      | None => Spins
      | Some (Fail err, e) => Done (scanError err, e)
      | Some (Ret page, e) => Done (Array [Bulk (FormatUint (Cursor page)); Array (Bulk <$> Keys page)], e)
      end
  end.

Lemma wraps_expire n step : 0 < n <= Z.quot maxInt64 step -> 0 < step -> wraps 64 (n * step) = n * step.
Proof.
  intros Hn Hs. have : n * step <= maxInt64.
  { rw Z.quot_div_nonneg in Hn; [done|done|]. have := Z.mul_div_le maxInt64 step. nia. }
  rw /maxInt64 => H. rw /wraps Z.mod_small; nia.
Qed.

(** The errors of the locked parts other than INCR's are no value errors. *)
Lemma commitSet_not_value k x d h apply (e : Engine L) err e' :
  commitSet k x d h apply e = (Fail err, e') -> value_error err = mutationError err.
Proof. rw /commitSet /commit. repeat case_match; intros; by simplify_eq. Qed.

Lemma commitDel_not_value ks apply (e : Engine L) err e' :
  commitDel ks apply e = (Fail err, e') -> value_error err = mutationError err.
Proof. rw /commitDel /commit. repeat case_match; intros; by simplify_eq. Qed.

Lemma do_set k x ttl v e :
  (let '(err, e) := ESet k x ttl (env_now v) (env_aw v) e in
   Done (match err with Some err => mutationError err | None => Simple (str "OK") end, e)) =
  Done (do_mut (MSet k x ttl) v e).
Proof.
  rw /ESet /do_mut /mutate /Set_locked. destruct (acceptingMutations e); [|done]. cbn [negb].
  destruct (commitSet _ _ _ _ _ e) as [[seq|err] e'] eqn:E; simpl; [by destruct (await _ _ _)|].
  by rw (commitSet_not_value _ _ _ _ _ _ _ _ E).
Qed.

Lemma do_expire k d v e :
  (let '(applied, err, e) := Expire k d (env_now v) (env_aw v) e in
   Done (match err with Some err => mutationError err | None => boolInt applied end, e)) =
  Done (do_mut (MExpire k d) v e).
Proof.
  rw /Expire /do_mut /mutate /Expire_locked. destruct (acceptingMutations e); [|done]. cbn [negb].
  destruct (Store.Get _ _ _) as [x|]; [|simpl; by rw /await; destruct (elog e)].
  destruct (commitSet _ _ _ _ _ e) as [[seq|err] e'] eqn:E; simpl; [by destruct (await _ _ _)|].
  by rw (commitSet_not_value _ _ _ _ _ _ _ _ E).
Qed.

Lemma do_persist k v e :
  (let '(removed, err, e) := Persist k (env_now v) (env_aw v) e in
   Done (match err with Some err => mutationError err | None => boolInt removed end, e)) =
  Done (do_mut (MPersist k) v e).
Proof.
  rw /Persist /do_mut /mutate /Persist_locked. destruct (acceptingMutations e); [|done]. cbn [negb].
  destruct (Store.Get _ _ _) as [x|]; [|simpl; by rw /await; destruct (elog e)].
  destruct (negb _); [simpl; by rw /await; destruct (elog e)|].
  destruct (commitSet _ _ _ _ _ e) as [[seq|err] e'] eqn:E; simpl; [by destruct (await _ _ _)|].
  by rw (commitSet_not_value _ _ _ _ _ _ _ _ E).
Qed.

Lemma do_delete ks v e :
  (let '(n, err, e) := EDelete ks (env_now v) (env_aw v) e in
   Done (match err with Some err => mutationError err | None => Int n end, e)) =
  Done (do_mut (MDelete ks) v e).
Proof.
  rw /EDelete /do_mut /mutate /Delete_locked. destruct (acceptingMutations e); [|done]. cbn [negb].
  destruct (_ =? 0); [simpl; by rw /await; destruct (elog _)|].
  destruct (commitDel _ _ e) as [[seq|err] e'] eqn:E; simpl; [by destruct (await _ _ _)|].
  by rw (commitDel_not_value _ _ _ _ _ E).
Qed.

Lemma do_incr k delta v e :
  (let '(n, err, e) := IncrBy k delta (env_now v) (env_aw v) e in
   Done (match err with
         | None => Int n
         | Some ErrNotAnInteger => Err errNotAnInteger
         | Some ErrIncrOverflow => Err errIncrOverflow
         | Some err => mutationError err
         end, e)) =
  Done (do_mut (MIncr k delta) v e).
Proof.
  rw /IncrBy /do_mut /mutate. destruct (IncrBy_locked k delta (env_now v) e) as [[[n seq]|err] e'].
  - rw /await. destruct (elog e'); [|done]. destruct (seq =? 0); [done|]. by destruct (env_aw v seq).
  - by destruct err.
Qed.

(** Decides the arity checks of a handler on an argument list of known shape. *)
Ltac arity rest :=
  have := len_nonneg rest; rw ?len_cons ?len_nil; intros ?;
  repeat match goal with
  | |- context [Z.leb 0 ?b] => let r := eval vm_compute in (Z.leb 0 b) in change (Z.leb 0 b) with r
  end;
  repeat match goal with
  | |- context [Z.ltb ?a ?b] => destruct (Z.ltb_spec a b); [try (exfalso; lia)|try (exfalso; lia)]
  end; cbn [orb andb]; try (exfalso; lia); try reflexivity.

(** The next entry of the registry: either the request names it or it is passed over. *)
Ltac by_name :=
  match goal with |- context [bool_decide (str ?s = ?u)] => destruct (bool_decide (str s = u)) end;
  cbn [fmap option_fmap option_map minArgs maxArgs run_].

Lemma Dispatch_exec v args (e : Engine L) : Dispatch v args e = exec (parse_cmd args) v e.
Proof.
  destruct args as [|name rest]; [done|]. rw /Dispatch /parse_cmd.
  destruct (ToUpper name) as [u|]; [|done]. rw /parse_named. cbn [find_cmd cmds].
  by_name.
  { destruct rest as [|a [|b rest]]; [reflexivity..|]. arity rest. }
  by_name.
  { destruct rest as [|a [|b rest]]; [reflexivity..|]. rw /cmdSet. arity rest. cbn [drop lookup list_lookup].
    rw drop_0. destruct (parseSetOptions rest); [|done]. apply do_set. }
  by_name.
  { destruct rest as [|a [|b rest]]; [reflexivity..|]. arity rest. }
  by_name.
  { destruct rest as [|a rest]; [reflexivity..|]. arity rest. }
  by_name.
  { destruct rest as [|a rest]; [reflexivity..|]. arity rest. apply do_delete. }
  by_name.
  { destruct rest as [|a rest]; [reflexivity..|]. arity rest. }
  by_name.
  { destruct rest as [|a [|b rest]]; [reflexivity|apply do_incr|]. arity rest. }
  by_name.
  { destruct rest as [|a [|b rest]]; [reflexivity|apply do_incr|]. arity rest. }
  by_name.
  { destruct rest as [|a [|b [|c rest]]]; [reflexivity..| |arity rest].
    arity (@nil bytes). rw /cmdExpire. cbn [lookup list_lookup]. destruct (ParseInt b) as [n|]; [|done].
    destruct (Z.leb_spec n 0); [apply do_delete|]. destruct (Z.ltb_spec maxExpireSeconds n); [done|].
    rw wraps_expire; [rw -/maxExpireSeconds; lia|done|]. apply do_expire. }
  by_name.
  { destruct rest as [|a [|b rest]]; [reflexivity..|]. arity rest. }
  by_name.
  { destruct rest as [|a [|b rest]]; [reflexivity|apply do_persist|]. arity rest. }
  by_name.
  { destruct rest as [|a [|b rest]]; [reflexivity..|]. arity rest. }
  by_name.
  { destruct rest as [|a rest]; [reflexivity|]. rw /cmdScan. arity rest. cbn [drop lookup list_lookup].
    rw drop_0. destruct (parseScan a rest); [|done]. rw /exec. by destruct (Scan _ _ _ _ _ e) as [[[]]|]. }
  by_name.
  { destruct rest as [|a rest]; [reflexivity|]. arity rest. }
  done.
Qed.

(** ** The commands implement their specification *)

Definition persistence_error : Reply := Err (str "ERR persistence unavailable").
Definition internal_error : Reply := Err (str "ERR internal error").

(** [r] and [e'] implement the answer [r'] and the entries [m'] at [t]; with a log attached,
    durability may have failed after the fact, or the log may have refused the record, in
    which case nothing was done. *)
Definition implements (t : Z) (e : Engine L) (r : Reply) (e' : Engine L) (r' : Reply) (m' : gmap bytes entry) : Prop :=
  (view (store e') t = tick t m' /\ (r = r' \/ (elog e' <> None /\ r = persistence_error))) \/
  (elog e <> None /\ store e' = store e /\ (r = persistence_error \/ r = internal_error)).

Lemma implements_mut t o v e : eop_ok o -> env_now v <= t -> acceptingMutations e = true ->
  let '(r, m') := spec_mut o (env_now v) (view (store e) (env_now v)) in
  implements t e (do_mut o v e).1 (do_mut o v e).2 (match r with Ret out => answer out | Fail err => value_error err end) m'.
Proof.
  intros Ho Hle Hacc. rw /do_mut. destruct (mutate o (env_now v) e) as [res e'] eqn:Em.
  have H := mutate_refines o (env_now v) t e res e' Ho Hle Hacc Em. rw /refines in H. cbn [fst snd].
  destruct (spec_mut o (env_now v) (view (store e) (env_now v))) as [sres m'] eqn:Es.
  destruct sres as [out'|err'], res as [[out seq]|err]; try done.
  - destruct H as [-> Hv]. left. split; [done|]. rw /await. destruct (elog e'); [|by left].
    destruct (seq =? 0); [by left|]. destruct (env_aw v seq); [|by left]. by right.
  - destruct H as [Hs [Hl Hr]]. right. split_and!; [done..|]. by destruct err; auto.
  - destruct H as [-> ->]. left. split; [|by left].
    have Hm : m' = view (store e) (env_now v).
    { move: Es. rw /spec_mut. repeat case_match; intros; by simplify_eq. }
    rw Hm /view tick_tick //.
Qed.

Lemma Scan_store req iter keycap now tokens (e e' : Engine L) res :
  Scan req iter keycap now tokens e = Some (res, e') -> store e' = store e.
Proof. rw /Scan. intros ([r m] & _ & [= -> ->])%fmap_Some. done. Qed.

Lemma parse_named_ok u name rest o : parse_named u name rest = CMut o -> eop_ok o.
Proof.
  rw /parse_named /wrong_arity /unknown. repeat case_match; intros; simplify_eq; done.
Qed.

Lemma parse_cmd_ok args o : parse_cmd args = CMut o -> eop_ok o.
Proof. rw /parse_cmd. destruct args as [|name rest]; [done|]. destruct (ToUpper name); [apply parse_named_ok|done]. Qed.

Lemma ttl_rounding d : Z.quot ((if Milliseconds d <? 0 then 0 else Milliseconds d) + 500) 1000 =
  (d / millisecond + 500) / 1000 \/ d < 0.
Proof.
  destruct (Z.lt_ge_cases d 0) as [?|Hd]; [by right|left].
  have E : Milliseconds d = d / millisecond by rw /Milliseconds Z.quot_div_nonneg.
  have H0 : 0 <= d / millisecond by apply Z.div_pos. rw E. case_cmp; [lia|]. by rw Z.quot_div_nonneg; [lia|..].
Qed.

Lemma exec_draining c v (e e' : Engine L) r : acceptingMutations e = false ->
  exec c v e = Done (r, e') -> store e' = store e.
Proof.
  intros Hacc. destruct c as [|o| | | |k| | |req]; cbn [exec]; try by intros [= <- <-].
  - rw /do_mut /mutate /Set_locked /Expire_locked /Persist_locked /Delete_locked /IncrBy_locked Hacc.
    by destruct o; intros [= <- <-].
  - destruct (ETTL _ _ _) as [d []]; by intros [= <- <-].
  - intros H. destruct (Scan _ _ _ _ _ e) as [[res e1]|] eqn:Hs; [|done].
    rw -(Scan_store _ _ _ _ _ _ _ _ Hs). by destruct res; simplify_eq.
Qed.

(** Only mutations touch the log. *)
Lemma exec_log c v (e e' : Engine L) r l : elog e = Some l -> exec c v e = Done (r, e') ->
  match c with CMut _ => True | _ => elog e' = Some l end.
Proof.
  intros Hl. destruct c as [|o| | | |k| | |req]; cbn [exec]; try by intros [= <- <-].
  - by intros _.
  - destruct (ETTL k _ e) as [d []]; by intros [= <- <-].
  - rw /Scan. intros H. destruct (if negb _ then _ else _) as [[res m]|]; [|done].
    by destruct res; simplify_eq/=.
Qed.

Lemma sem_error c now m msg m' : sem_cmd c now m = Some (Err msg, m') -> m' = m.
Proof.
  rw /sem_cmd. destruct c; try by intros [= ? ->].
  - rw /spec_mut. repeat case_match; intros; simplify_eq/=; done.
Qed.

(** A command that is neither a mutation nor a SCAN only reads. *)
Lemma exec_reads c v (e e' : Engine L) r : ranges (data (store e)) (env_iter v) -> exec c v e = Done (r, e') ->
  match c with
  | CMut _ | CScan _ => True
  | _ => let m := view (store e) (env_now v) in sem_cmd c (env_now v) m = Some (r, m) /\ e' = e
  end.
Proof.
  intros Hr. set m := view (store e) (env_now v).
  destruct c as [r0|o|k|ks|ks|k|p| |req]; cbn [exec sem_cmd]; try done; cbv zeta.
  - by intros [= <- <-].
  - intros [= <- <-]. by destruct (engine_reads [] k (env_iter v) (env_now v) e Hr) as (-> & _).
  - intros [= <- <-]. destruct (engine_reads ks [] (env_iter v) (env_now v) e Hr) as (_ & -> & _).
    by rw -list_fmap_compose.
  - intros [= <- <-]. by destruct (engine_reads ks [] (env_iter v) (env_now v) e Hr) as (_ & _ & -> & _).
  - destruct (engine_reads [] k (env_iter v) (env_now v) e Hr) as (_ & _ & _ & -> & _). rw -/m.
    destruct (m !! k) as [[x [d|]]|] eqn:Hk; intros [= <- <-]; (split; [|done]); [|done|done].
    cbn [ttl_reply]. do 3 f_equal. destruct (ttl_rounding (time_Sub d (env_now v))) as [->|Hneg]; [done|].
    exfalso. rw /m /view tick_lookup in Hk. destruct (phys (store e) !! k) as [en|]; [|done]. simpl in Hk.
    case_decide as Ha; [|done]. injection Hk as ->. rw /alive /= in Ha. rw /time_Sub /minInt64 /maxInt64 in Hneg. lia.
  - intros [= <- <-]. split; [|done]. do 4 f_equal. by rw (EKeys_sorted p (env_iter v) (env_now v) e Hr).
  - intros [= <- <-]. by destruct (engine_reads [] [] (env_iter v) (env_now v) e Hr) as (_ & _ & _ & _ & ->).
Qed.

Lemma Dispatch_refines v args (e : Engine L) r e' t :
  acceptingMutations e = true -> env_now v <= t -> ranges (data (store e)) (env_iter v) ->
  Dispatch v args e = Done (r, e') ->
  match sem_cmd (parse_cmd args) (env_now v) (view (store e) (env_now v)) with
  | Some (r', m') => implements t e r e' r' m'
  | None => store e' = store e
  end.
Proof.
  intros Hacc Hle Hr. rw Dispatch_exec. intros Hd. pose proof (exec_reads _ _ _ _ _ Hr Hd) as Hread.
  set m := view (store e) (env_now v) in Hread *. have Hsame : view (store e) t = tick t m by rw /m /view tick_tick.
  destruct (parse_cmd args) as [r0|o|k|ks|ks|k|p| |req] eqn:Hp;
    lazymatch type of Hread with True => idtac | _ => destruct Hread as [-> ->]; left; split; [done|by left] end; cbn [exec sem_cmd] in Hd |- *.
  - pose proof (implements_mut t o v e (parse_cmd_ok _ _ Hp) Hle Hacc) as H.
    injection Hd as E. destruct (do_mut o v e) as [r1 e1]. rw -/m in H.
    injection E as -> ->. by destruct (spec_mut o (env_now v) m).
  - destruct (Scan _ _ _ _ _ e) as [[res e1]|] eqn:Hs; [|done].
    rw -(Scan_store _ _ _ _ _ _ _ _ Hs). by destruct res; simplify_eq.
Qed.

(** ** SCAN *)

(** The reply that carries the result of a page. *)
Definition page_reply (res : result scan_err ScanResult) : Reply :=
  match res with
  | Fail err => scanError err
  | Ret page => Array [Bulk (FormatUint (Cursor page)); Array (Bulk <$> Keys page)]
  end.

(** What a SCAN answers and which iterations are open afterwards: a cursor other than 0 asks
    for the next page, cursor 0 starts over the keys visible now that match. *)
Definition scan_means (v : env) (req : ScanRequest) (e e' : Engine L) (r : Reply) : Prop :=
  let m := scanSessions e in
  exists res, r = page_reply res /\
  if rq_Cursor req =? 0 then
    let pattern := if rq_PatternSet req then rq_Pattern req else str "*" in
    let keys := sort_Strings (filter (matching pattern) (elements (dom (view (store e) (env_now v))))) in
    first_page (sm_limits m) keys (env_cap v) pattern (rq_Count req) (env_now v) (env_tokens v)
      (live_scans (env_now v) m) res (scans (scanSessions e'))
  else
    next_page (rq_Cursor req) (rq_Pattern req) (rq_PatternSet req) (rq_Count req) (env_now v) (env_tokens v)
      (live_scans (env_now v) m) res (scans (scanSessions e')).

(** The parser admits counts from 1 to the largest [int64]. *)
Lemma parse_scan_count opts : forall req req', parse_scan_loop opts req = Ret req' ->
  0 < rq_Count req <= maxInt64 -> 0 < rq_Count req' <= maxInt64.
Proof.
  induction opts as [[|opt [|text rest]] IH] using (induction_ltof1 _ (@length bytes)) => req req'.
  - by intros [= <-].
  - cbn [parse_scan_loop]. repeat case_match; done.
  - have {}IH := IH rest ltac:(rw /ltof /=; lia). cbn [parse_scan_loop]. case_bool_decide; [by intros Ho Hc; apply (IH _ _ Ho)|].
    case_bool_decide; [|done]. destruct (ParseInt text) as [n|] eqn:En; [|done]. case_cmp; [done|].
    intros Ho _. apply IH in Ho; [done|]. cbn [rq_Count]. apply ParseInt_range in En.
    rw /wrapu Z.mod_small; rw /is_int64 /maxInt64 in En *; lia.
Qed.

Lemma parse_cmd_count args req : parse_cmd args = CScan req -> is_uint64 (rq_Count req).
Proof.
  rw /parse_cmd. destruct args as [|name rest]; [done|]. destruct (ToUpper name) as [u|]; [|done].
  rw /parse_named /wrong_arity /unknown. repeat case_match; intros; simplify_eq.
  match goal with H : parseScan _ _ = Ret _ |- _ => move: H end. rw /parseScan. repeat case_match; try done;
    (intros Ho%parse_scan_count; [|done]; rw /is_uint64 /maxUint64; rw /maxInt64 in Ho; lia).
Qed.

Lemma Scan_means v req (e e' : Engine L) res : ranges (data (store e)) (env_iter v) -> is_uint64 (rq_Count req) ->
  len (env_iter v) <= env_cap v <= maxInt64 -> ScanSessions.wf (scanSessions e) ->
  Scan req (env_iter v) (env_cap v) (env_now v) (env_tokens v) e = Some (res, e') ->
  scan_means v req e e' (page_reply res) /\ ScanSessions.wf (scanSessions e').
Proof.
  intros Hr Hc Hcap Hwf. rw /Scan /scan_means. intros ([r m] & Hm & [= -> ->])%fmap_Some. cbn [with_scan scanSessions].
  destruct (rq_Cursor req =? 0); cbn [negb] in Hm.
  - set pattern := if rq_PatternSet req then _ else _ in Hm *. rw -(EKeys_sorted pattern (env_iter v) (env_now v) e Hr).
    destruct (EKeys_spec pattern (env_iter v) (env_now v) e Hr) as (_ & _ & _ & Hks). rw Hks in Hm.
    have Ha : args_ok (EKeys pattern (env_iter v) (env_now v) e) (env_cap v) (rq_Count req).
    { split_and!; [|lia|done]. etrans; [apply EKeys_len|lia]. }
    split; [|by destruct (start_wf _ _ _ _ _ _ _ _ _ Hwf Ha Hm)]. exists r. split; [done|].
    by apply start_page.
  - split; [|by destruct (next_wf _ _ _ _ _ _ _ _ _ Hwf Hc Hm)]. exists r. split; [done|]. by apply next_page_spec.
Qed.

(** Only SCAN touches the sessions. *)
Lemma mutate_sessions o now (e e' : Engine L) r : mutate o now e = (r, e') -> scanSessions e' = scanSessions e.
Proof.
  intros [(st & -> & ?)|(l & rec & ra & l' & Hl & _ & H)]%mutate_touched; [done|].
  destruct ra; [by destruct H as (_ & st & ->)|by destruct H as (_ & ->)].
Qed.

(** What a command can do to the engine. *)
Lemma Dispatch_cases v args (e e' : Engine L) r : Dispatch v args e = Done (r, e') ->
  e' = e \/ (exists o res, mutate o (env_now v) e = (res, e')) \/
  exists req res, Scan req (env_iter v) (env_cap v) (env_now v) (env_tokens v) e = Some (res, e').
Proof.
  rw Dispatch_exec. destruct (parse_cmd args) as [|o| | | |k| | |req]; cbn [exec]; try by intros [= _ <-]; left.
  - rw /do_mut. destruct (mutate o (env_now v) e) as [res e1] eqn:E. intros [= _ <-]. right. left. by exists o, res.
  - destruct (ETTL k _ e) as [d []]; by intros [= _ <-]; left.
  - destruct (Scan _ _ _ _ _ e) as [[res e1]|] eqn:E; [|done]. intros H. right. right. exists req, res.
    destruct res; by injection H as _ <-.
Qed.

(** No command opens or closes the gate, or attaches a log. *)
Lemma mutate_accepting o now (e e' : Engine L) r : mutate o now e = (r, e') ->
  acceptingMutations e' = acceptingMutations e /\ (elog e = None -> elog e' = None).
Proof.
  intros [(st & -> & ?)|(l & rec & ra & l' & Hl & _ & H)]%mutate_touched; [done|].
  split; [|by rw Hl]. destruct ra; [by destruct H as (_ & st & ->)|by destruct H as (_ & ->)].
Qed.

Lemma Dispatch_gate v args (e e' : Engine L) r : Dispatch v args e = Done (r, e') ->
  acceptingMutations e' = acceptingMutations e /\ (elog e = None -> elog e' = None).
Proof.
  intros [->|[(o & res & H)|(req & res & H)]]%Dispatch_cases; [done|by eapply mutate_accepting|].
  by apply Scan_frame in H as [m ->].
Qed.

Lemma Dispatch_accepting v args (e e' : Engine L) r : Dispatch v args e = Done (r, e') ->
  acceptingMutations e' = acceptingMutations e.
Proof. by intros [? _]%Dispatch_gate. Qed.

(** No request makes a handler index out of range. *)
Lemma Dispatch_no_panic v args (e : Engine L) : Dispatch v args e <> Panics.
Proof.
  rw Dispatch_exec. destruct (parse_cmd args) as [r0|o|k|ks|ks|k|p| |req]; cbn [exec]; try done.
  - by destruct (ETTL k (env_now v) e) as [d []].
  - by destruct (Scan _ _ _ _ _ _) as [[[]]|].
Qed.

(** Only a SCAN whose source has offered no usable token keeps running. *)
Lemma Dispatch_spins v args (e : Engine L) : Dispatch v args e = Spins ->
  Forall (fun o => exists t, o = Some t /\
    (t = 0 \/ is_Some (sessions (expireLocked (env_now v) (scanSessions e)) !! t))) (env_tokens v).
Proof.
  rw Dispatch_exec. destruct (parse_cmd args) as [r0|o|k|ks|ks|k|p| |req]; cbn [exec]; try done.
  { by destruct (ETTL k (env_now v) e) as [d []]. }
  rw /Scan /start /next. set m := expireLocked (env_now v) (scanSessions e).
  pose proof (nextToken_none (env_tokens v) m) as Htok. repeat case_match; simplify_eq/=; try done; intros _; by apply Htok.
Qed.

(** No command opens more iterations than the limit allows. *)
Lemma Dispatch_at_most n v args (e e' : Engine L) r : 0 <= n -> at_most n (scanSessions e) ->
  Dispatch v args e = Done (r, e') -> at_most n (scanSessions e').
Proof.
  intros Hn Hm [->|[(o & res & H)|(req & res & H)]]%Dispatch_cases; [done|by rw (mutate_sessions _ _ _ _ _ H)|].
  move: H. rw /Scan. intros ([r1 m1] & E & [= -> ->])%fmap_Some. cbn [with_scan scanSessions].
  destruct (negb _); [by apply (run_scan_at_most n (OpNext _ _ _ _ _ _) _ _ _ Hm Hn E)|].
  by apply (run_scan_at_most n (OpStart _ _ _ _ _ _) _ _ _ Hm Hn E).
Qed.

(** The same execution, had the wait for durability come out differently. *)
Definition with_aw (v : env) (aw : Z -> option log_err) : env :=
  mkEnv (env_now v) aw (env_iter v) (env_cap v) (env_tokens v).

(** What a command does to the engine does not depend on the wait. *)
Lemma Dispatch_after v aw args (e e1 e2 : Engine L) r1 r2 :
  Dispatch v args e = Done (r1, e1) -> Dispatch (with_aw v aw) args e = Done (r2, e2) -> e2 = e1.
Proof.
  rw !Dispatch_exec. destruct (parse_cmd args) as [|o| | | |k| | |req]; cbn [exec with_aw env_now env_iter env_cap env_tokens];
    try by intros [= _ <-] [= _ <-].
  - rw /do_mut. cbn [with_aw env_now]. destruct (mutate o (env_now v) e) as [res e3]. by intros [= _ <-] [= _ <-].
  - destruct (ETTL k _ e) as [d []]; by intros [= _ <-] [= _ <-].
  - destruct (Scan _ _ _ _ _ e) as [[[] e3]|]; [..|done]; by intros [= _ <-] [= _ <-].
Qed.

(** When a command added a record and did not answer the loss of durability, the wait for
    the record succeeded. *)
Lemma Dispatch_waits `{!LoggerLaws L} v args (e : Engine L) l r e' l' :
  elog e = Some l -> Dispatch v args e = Done (r, e') -> elog e' = Some l' ->
  log_hist l' <> log_hist l -> r <> persistence_error ->
  exists rec seq, log_append rec l = (Ret seq, l') /\ log_hist l' = log_hist l ++ [rec] /\
    appliedSeq e' = seq /\ (seq <> 0 -> env_aw v seq = None).
Proof.
  intros Hl Hd Hl' Hh Hr. rw Dispatch_exec in Hd. pose proof (exec_log (parse_cmd args) v e e' r l Hl Hd) as Hmut.
  destruct (parse_cmd args) as [|o| | | | | | |]; try (rw Hmut in Hl'; by simplify_eq).
  rw /exec /do_mut in Hd. destruct (mutate o (env_now v) e) as [res e1] eqn:Em.
  injection Hd as Hd ->. destruct (mutate_touched _ _ _ _ _ Em) as [(st & -> & _)|(l0 & rec & ra & l1 & Hl0 & Ha & H2)].
  { cbn [with_store elog] in Hl'. by simplify_eq. }
  rw Hl in Hl0. injection Hl0 as <-. destruct ra as [seq|err].
  2:{ destruct H2 as (_ & ->). cbn [with_log elog] in Hl'. injection Hl' as <-. by apply log_append_fail in Ha. }
  destruct H2 as [H2 [st He]]. have H1 : elog e' = Some l1 by rw He. have H3 : appliedSeq e' = seq by rw He.
  rw H1 in Hl'. injection Hl' as <-. exists rec, seq. pose proof (log_append_ok _ _ _ _ Ha).
  split_and!; [done..|]. intros Hz. destruct res as [[out seq1]|]; [|done]. simplify_eq.
  rw /await in Hr. cbn [elog] in Hr. destruct (Z.eqb_spec seq 0); [done|]. by destruct (env_aw v seq).
Qed.

End commands_spec.

Section commands_theorems.
Context {L : Type} `{!Logger L}.

(** C4. Every command means what the documentation says, on a map with expiry and a set of open
    iterations. For every request, at any instant, with or without persistence and whatever
    expired entries are still held. A command that only reads (PING, GET, MGET, EXISTS, TTL,
    KEYS, DBSIZE, and every refused request: unknown names, wrong arities, bad options)
    answers exactly what the abstract semantics says and leaves the engine as it was. A
    mutation (SET with options, DEL, INCR, DECR, EXPIRE with non-positive times too, PERSIST)
    is refused with nothing done once the server drains; before that its reply and the
    entries visible at every later instant are those of the abstract semantics, and the only
    other replies are the two durability errors, one after the effect has been applied, the
    other with nothing done. A SCAN changes nothing but the open iterations; its page, its
    cursor, its errors and the iterations left open are those of [first_page] and
    [next_page], for snapshots whose capacity is that of a slice. The sessions' invariant is
    kept, so this holds for every command of a run. *)
Theorem dispatch_refines v args (e : Engine L) r e' t :
  env_now v <= t -> ranges (data (store e)) (env_iter v) ->
  len (env_iter v) <= env_cap v <= maxInt64 -> ScanSessions.wf (scanSessions e) ->
  Dispatch v args e = Done (r, e') ->
  let m := view (store e) (env_now v) in
  match parse_cmd args with
  | CMut o =>
      if acceptingMutations e
      then exists r' m', sem_cmd (CMut o) (env_now v) m = Some (r', m') /\ implements t e r e' r' m'
      else r = Err (str "ERR server is shutting down") /\ e' = e
  | CScan req => e' = with_scan e (scanSessions e') /\ scan_means v req e e' r
  | c => sem_cmd c (env_now v) m = Some (r, m) /\ e' = e
  end /\ ScanSessions.wf (scanSessions e').
Proof.
  intros Hle Hr Hcap Hwf Hd m. pose proof Hd as Hx. rw Dispatch_exec in Hx.
  pose proof (exec_reads _ _ _ _ _ Hr Hx) as Hread. pose proof (Dispatch_refines v args e r e' t) as Href.
  destruct (parse_cmd args) as [r0|o|k|ks|ks|k|p| |req] eqn:Hp;
    lazymatch type of Hread with True => idtac | _ => by destruct Hread as [? ->] end; cbn [exec] in Hx.
  - rw /do_mut in Hx. destruct (mutate o (env_now v) e) as [res e1] eqn:Em. injection Hx as Hrep ->.
    split; [|by rw (mutate_sessions _ _ _ _ _ Em)]. destruct (acceptingMutations e) eqn:Hacc.
    + specialize (Href eq_refl Hle Hr Hd). fold m in Href. rw /sem_cmd in Href |- *.
      destruct (spec_mut o (env_now v) m) as [r' m']. by eexists _, _.
    + destruct (mutate_drained _ _ _ _ _ Hacc Em) as [-> ->]. by rw -Hrep.
  - destruct (Scan _ _ _ _ _ e) as [[res e1]|] eqn:Hs; [|done].
    have [-> ->] : r = page_reply res /\ e' = e1 by destruct res; simplify_eq.
    destruct (Scan_means v req e e1 res Hr (parse_cmd_count _ _ Hp) Hcap Hwf Hs) as [H1 H2].
    split; [|done]. split; [|done]. by apply Scan_frame in Hs as [m' ->].
Qed.

(** A command that answers an error has done nothing: unless the error is the loss of
    durability, no entry has changed, now or at any later instant; this holds while the
    server drains as well. *)
Theorem error_changes_nothing v args (e : Engine L) msg e' t :
  env_now v <= t -> ranges (data (store e)) (env_iter v) ->
  Dispatch v args e = Done (Err msg, e') -> Err msg <> persistence_error ->
  view (store e') t = view (store e) t.
Proof.
  intros Hle Hr Hd Hne. destruct (acceptingMutations e) eqn:Hacc.
  2:{ rw Dispatch_exec in Hd. by rw (exec_draining _ _ _ _ _ Hacc Hd). }
  pose proof (Dispatch_refines v args e _ e' t Hacc Hle Hr Hd) as H.
  destruct (sem_cmd (parse_cmd args) _ _) as [[r' m']|] eqn:Hs; [|by rw H].
  destruct H as [[Hv [<-|[_ ?]]]|(_ & -> & _)]; [|done..]. rw Hv.
  apply sem_error in Hs as ->. by rw /view tick_tick.
Qed.

(** With a log attached, a reply waits for its record: when a command added a record to
    the log and did not answer the loss of durability, the wait for that record's sequence
    number succeeded before the reply was produced. (Sequence numbers start at 1; 0 is
    the engine's mark of a command without a record.) *)
Theorem reply_waits_for_durability `{!LoggerLaws L} v args (e : Engine L) l r e' l' :
  elog e = Some l -> Dispatch v args e = Done (r, e') -> elog e' = Some l' ->
  log_hist l' <> log_hist l -> r <> persistence_error ->
  exists rec seq, log_append rec l = (Ret seq, l') /\ log_hist l' = log_hist l ++ [rec] /\
    appliedSeq e' = seq /\ (seq <> 0 -> env_aw v seq = None).
Proof. apply Dispatch_waits. Qed.

(** C27. No request can crash a handler or make it index out of range, whatever its arity and
    options; and the only command that can keep running is a SCAN whose random source has
    so far offered only the reserved 0 and tokens in use. *)
Theorem dispatch_never_panics v args (e : Engine L) :
  Dispatch v args e <> Panics /\
  (Dispatch v args e = Spins ->
     Forall (fun o => exists t, o = Some t /\
       (t = 0 \/ is_Some (sessions (expireLocked (env_now v) (scanSessions e)) !! t))) (env_tokens v)).
Proof. split; [apply Dispatch_no_panic|apply Dispatch_spins]. Qed.
End commands_theorems.

(** ** The options of SET *)

Definition unit_step (u : unit_) : Z := match u with PX => millisecond | _ => second end.
Definition unit_max (u : unit_) : Z := match u with PX => maxExpireMillis | _ => maxExpireSeconds end.

(** Options that all name the unit [u] with a time in its range; the last time given. *)
Inductive set_opts (u : unit_) : list bytes -> option Z -> Prop :=
| so_nil : set_opts u [] None
| so_cons opt text n rest last :
    unit_of (ToUpper opt) = u -> u <> NoUnit -> ParseInt text = Some n -> 0 < n <= unit_max u ->
    set_opts u rest last -> set_opts u (opt :: text :: rest) (Some (default n last)).

Definition ttl_of (u : unit_) (none : TTL) (last : option Z) : TTL :=
  match last with None => none | Some n => ExpiresIn (n * unit_step u) end.

Lemma unit_wraps u n : 0 < n <= unit_max u -> wraps 64 (n * unit_step u) = n * unit_step u.
Proof. destruct u; intros; by apply wraps_expire. Qed.

(** The range test of the code, for the option's unit. *)
Lemma unit_range u n : u <> NoUnit ->
  (bool_decide (u = EX) && (maxExpireSeconds <? n)) || (bool_decide (u = PX) && (maxExpireMillis <? n)) =
  (unit_max u <? n).
Proof. by destruct u; intros; simpl; rw ?orb_false_r. Qed.

Lemma unit_step_bool u : (if bool_decide (u = PX) then millisecond else second) = unit_step u.
Proof. by destruct u. Qed.

(** One round of the loop. *)
Lemma parse_set_round opt text rest unit ttl0 :
  parse_set_loop (opt :: text :: rest) unit ttl0 =
  let u := unit_of (ToUpper opt) in
  if bool_decide (u = NoUnit) || (negb (bool_decide (unit = NoUnit)) && negb (bool_decide (unit = u)))
  then Fail (Err errSyntax)
  else match ParseInt text with
       | None => Fail (Err errNotAnInteger)
       | Some n =>
           if (n <=? 0) || (unit_max u <? n) then Fail (invalidExpire "set")
           else parse_set_loop rest u (ExpiresIn (n * unit_step u))
       end.
Proof.
  cbn [parse_set_loop]. set u := unit_of (ToUpper opt). destruct (decide (u = NoUnit)) as [->|Hu]; [done|].
  rw (bool_decide_eq_false_2 (u = NoUnit)) // unit_step_bool. cbn [orb].
  transitivity (if negb (bool_decide (unit = NoUnit)) && negb (bool_decide (unit = u)) then Fail (Err errSyntax)
    else match ParseInt text with
       | None => Fail (Err errNotAnInteger)
       | Some n => if n <=? 0 then Fail (invalidExpire "set")
           else if (unit_max u <? n) then Fail (invalidExpire "set")
           else parse_set_loop rest u (ExpiresIn (wraps 64 (n * unit_step u)))
       end).
  { destruct u; [done|..]; (destruct (negb _ && negb _); [done|]; destruct (ParseInt text) as [n|]; [|done];
      by rw unit_range). }
  destruct (negb _ && negb _); [done|]. destruct (ParseInt text) as [n|]; [|done].
  destruct (Z.leb_spec n 0); [done|]. cbn [orb]. destruct (Z.ltb_spec (unit_max u) n); [done|].
  by rw unit_wraps.
Qed.

Lemma parse_set_loop_spec opts : forall unit ttl0 ttl,
  parse_set_loop opts unit ttl0 = Ret ttl <->
  exists u last, (unit = NoUnit \/ unit = u) /\ set_opts u opts last /\ ttl = ttl_of u ttl0 last.
Proof.
  induction opts as [[|opt [|text rest]] IH] using (induction_ltof1 _ (@length bytes)); intros unit ttl0 ttl.
  - split; [intros [= <-]; exists unit, None; split_and!; [by right|constructor|done]|].
    intros (u & last & _ & Ho & ->). by inv Ho.
  - split; [cbn [parse_set_loop]; repeat case_match; done|]. intros (u & last & _ & Ho & _). inv Ho.
  - have {}IH := IH rest ltac:(rw /ltof /=; lia). rw parse_set_round. set u := unit_of (ToUpper opt). cbv zeta. split.
    + destruct (bool_decide_reflect (u = NoUnit)) as [|Hu]; [done|]. cbn [orb].
      destruct (negb _ && negb _) eqn:Hb; [done|].
      destruct (ParseInt text) as [n|] eqn:Hn; [|done].
      destruct (Z.leb_spec n 0); [done|]. destruct (Z.ltb_spec (unit_max u) n); [done|].
      intros (u' & last & Hu' & Ho & ->)%IH. have ? : u' = u by destruct Hu'. subst u'.
      exists u, (Some (default n last)). split_and!; [|by econstructor|by destruct last].
      move: Hb. repeat case_bool_decide; simpl; auto. done.
    + intros (u' & last & Hu' & Ho & ->). inversion Ho as [|? ? n ? last0 Hx Hu Hn Hb Ho']; subst. fold u in Hu, Hb, Hu', Ho' |- *.
      rw (bool_decide_eq_false_2 (u = NoUnit)) // Hn. cbn [orb].
      have -> : negb (bool_decide (unit = NoUnit)) && negb (bool_decide (unit = u)) = false.
      { repeat case_bool_decide; try done; naive_solver. }
      destruct (Z.leb_spec n 0); [lia|]. destruct (Z.ltb_spec (unit_max u) n); [lia|]. apply IH.
      exists u, last0. split_and!; [by right|done|]. by destruct last0.
Qed.

(** C30. SET accepts exactly its documented options: EX or PX pairs that all use one unit, in
    any letter case, each with a positive time whose nanoseconds fit a duration; the last
    time given counts, and no arithmetic overflows. *)
Theorem set_options_grammar opts ttl :
  parseSetOptions opts = Ret ttl <-> exists u last, set_opts u opts last /\ ttl = ttl_of u NoExpiry last.
Proof.
  rw /parseSetOptions parse_set_loop_spec. split; intros (u & last & H); exists u, last; naive_solver.
Qed.

(** ** The types of the replies *)

Definition is_int (lo hi : Z) (r : Reply) : bool := match r with Int n => (lo <=? n) && (n <=? hi) | _ => false end.
Definition is_bulk (r : Reply) : bool := match r with Bulk _ => true | _ => false end.
Definition is_bulk_or_null (r : Reply) : bool := match r with Bulk _ | NullBulk => true | _ => false end.
Definition is_array (item : Reply -> bool) (r : Reply) : bool :=
  match r with Array items => forallb item items | _ => false end.
Definition is_error (r : Reply) : bool := match r with Err _ => true | _ => false end.

(** What a client may expect of each command given [n] arguments behind its name. *)
Definition reply_types : list (bytes * (Z -> Reply -> bool)) :=
  [(str "PING", fun n r => match r with Simple s => (n =? 0) && bool_decide (s = str "PONG") | Bulk _ => n =? 1 | _ => false end);
   (str "SET", fun _ r => match r with Simple s => bool_decide (s = str "OK") | _ => false end);
   (str "GET", fun _ => is_bulk_or_null);
   (str "MGET", fun n r => is_array is_bulk_or_null r && match r with Array items => len items =? n | _ => false end);
   (str "DEL", fun n => is_int 0 n);
   (str "EXISTS", fun n => is_int 0 n);
   (str "INCR", fun _ => is_int minInt64 maxInt64);
   (str "DECR", fun _ => is_int minInt64 maxInt64);
   (str "EXPIRE", fun _ => is_int 0 1);
   (str "TTL", fun _ => is_int (-2) 9223372037);
   (str "PERSIST", fun _ => is_int 0 1);
   (str "KEYS", fun _ => is_array is_bulk);
   (str "SCAN", fun _ r => match r with Array [Bulk _; keys] => is_array is_bulk keys | _ => false end);
   (str "DBSIZE", fun _ => is_int 0 maxInt64)].

Fixpoint type_of (name : bytes) (l : list (bytes * (Z -> Reply -> bool))) : Z -> Reply -> bool :=
  match l with
  | [] => fun _ _ => false
  | (n, ty) :: l => if bool_decide (n = name) then ty else type_of name l
  end.

Definition well_typed (args : list bytes) (r : Reply) : bool :=
  is_error r ||
  match args with
  | [] => false
  | name :: rest => match ToUpper name with Some u => type_of u reply_types (len rest) r | None => false end
  end.

Section reply_types.
Context {L : Type} `{!Logger L}.

(** The answers of the engine's mutations. *)
Definition outcome_ok (o : eop) (out : outcome) : Prop :=
  match o, out with
  | MSet _ _ _, OUnit => True
  | (MExpire _ _ | MPersist _), OFlag _ => True
  | MDelete ks, OCount n => 0 <= n <= len ks
  | MIncr _ _, OInt n => is_int64 n
  | _, _ => False
  end.

Lemma live_keys_le s now seen ks : len (live_keys s now seen ks) <= len ks.
Proof.
  revert seen. induction ks as [|k ks IH] => seen; cbn [live_keys]; [done|]. rw len_cons.
  case_bool_decide; [pose proof (IH seen); lia|]. pose proof (IH ({[k]} ∪ seen)).
  destruct (Store.Get s k now); rw ?len_cons; lia.
Qed.

Lemma mutate_outcome o now (e : Engine L) out seq e' : mutate o now e = (Ret (out, seq), e') -> outcome_ok o out.
Proof.
  destruct o as [k x ttl|k d|k|ks|k d]; rw /mutate.
  - destruct (Set_locked _ _ _ _ _) as [[]]; intros; by simplify_eq.
  - destruct (Expire_locked _ _ _ _) as [[[]|]]; intros; by simplify_eq.
  - destruct (Persist_locked _ _ _) as [[[]|]]; intros; by simplify_eq.
  - rw /Delete_locked. pose proof (live_keys_le (store e) (readNow now e) ∅ ks) as Hle.
    pose proof (len_nonneg (live_keys (store e) (readNow now e) ∅ ks)) as Hnn.
    repeat case_match; intros; simplify_eq/=; rw ?len_nil; pose proof (len_nonneg ks); lia.
  - rw /IncrBy_locked. repeat case_match; intros; simplify_eq/=; apply wraps_range.
Qed.

(** A reply of the type its parsed command has. *)
Definition cmd_typed (c : cmd) (r : Reply) : Prop :=
  is_error r \/
  match c with
  | CReply r' => r = r'
  | CMut o => exists out, r = answer out /\ outcome_ok o out
  | CGet _ => is_bulk_or_null r
  | CMGet ks => exists items, r = Array items /\ forallb is_bulk_or_null items /\ len items = len ks
  | CExists ks => is_int 0 (len ks) r
  | CTTL _ => is_int (-2) 9223372037 r
  | CKeys _ => is_array is_bulk r
  | CDBSize => is_int 0 maxInt64 r
  | CScan _ => exists cursor keys, r = Array [Bulk cursor; keys] /\ is_array is_bulk keys
  end.

Lemma is_int_intro lo hi n : lo <= n <= hi -> is_int lo hi (Int n).
Proof. intros H. rw /is_int. by apply andb_prop_intro; split; apply Is_true_true, Z.leb_le; lia. Qed.

Lemma forallb_bulks ks : forallb is_bulk (Bulk <$> ks).
Proof. by induction ks. Qed.

Lemma Exists_bounded ks now (e : Engine L) : 0 <= Exists ks now e <= len ks.
Proof.
  rw /Exists. cut (forall n, n <= foldl (fun n k => match Store.Get (store e) k (readNow now e) with Some _ => n + 1 | None => n end)
    n ks <= n + len ks); [intros H; apply (H 0)|].
  induction ks as [|k ks IH] => n; simpl; [rw len_nil; lia|]. rw len_cons.
  destruct (Store.Get _ _ _); [pose proof (IH (n + 1))|pose proof (IH n)]; lia.
Qed.

Lemma DBSize_bounded iter now (e : Engine L) : 0 <= DBSize iter now e <= len iter.
Proof.
  rw /DBSize Len_LiveKeys LiveKeys_filter /len length_fmap.
  pose proof (length_filter (fun x : bytes * bytes => expired (store e) x.1 (readNow now e) = false) iter). lia.
Qed.

Lemma ttl_bounded k now (e : Engine L) ms : ms = Milliseconds (ETTL k now e).1 ->
  is_int (-2) 9223372037 (Int (Z.quot ((if ms <? 0 then 0 else ms) + 500) 1000)).
Proof.
  have Hd : (ETTL k now e).1 <= maxInt64.
  { rw /ETTL /Store.TTL. repeat case_match; simplify_eq/=; rw /time_Sub /minInt64 /maxInt64; lia. }
  intros Hm. have Hms : ms <= 9223372036854.
  { rw Hm /Milliseconds. change 9223372036854 with (Z.quot maxInt64 millisecond). by apply Z.quot_le_mono. }
  set q := (if ms <? 0 then 0 else ms). have Hq : 0 <= q <= 9223372036854 by rw /q; case_cmp; lia.
  rw Z.quot_div_nonneg; [lia|done|]. have H1 := Z.div_mod (q + 500) 1000 ltac:(done).
  have H2 := Z.mod_pos_bound (q + 500) 1000 ltac:(done).
  apply is_int_intro. lia.
Qed.

Lemma exec_typed c v (e e' : Engine L) r : len (env_iter v) <= maxInt64 -> exec c v e = Done (r, e') -> cmd_typed c r.
Proof.
  intros Hi. destruct c as [r0|o|k|ks|ks|k|p| |req]; cbn [exec].
  - intros [= <- <-]. by right.
  - rw /do_mut. destruct (mutate o (env_now v) e) as [[[out seq]|err] e1] eqn:E; intros [= <- <-].
    + destruct (await _ _ _) as [err|]; [by left; destruct err|]. right. eexists. split; [done|].
      by eapply mutate_outcome.
    + left. by destruct err.
  - intros [= <- <-]. right. by destruct (Get _ _ _).
  - intros [= <- <-]. right. eexists. split; [done|]. rw /MGet -list_fmap_compose. split; [|by rw /len length_fmap].
    induction ks as [|k ks IH]; [done|]. rw fmap_cons /=. by destruct (Store.Get _ _ _).
  - intros [= <- <-]. right. apply is_int_intro, Exists_bounded.
  - pose proof (ttl_bounded k (env_now v) e _ eq_refl) as H. destruct (ETTL k (env_now v) e) as [d []]; intros [= <- <-]; by right.
  - intros [= <- <-]. right. apply forallb_bulks.
  - intros [= <- <-]. right. pose proof (DBSize_bounded (env_iter v) (env_now v) e). apply is_int_intro. lia.
  - destruct (Scan _ _ _ _ _ e) as [[[page|err] e1]|]; intros; simplify_eq; [|left; by destruct err].
    right. do 2 eexists. split; [done|]. apply forallb_bulks.
Qed.

(** What the option parsers refuse, they refuse with an error. *)
Lemma parse_set_bad opts unit ttl r : parse_set_loop opts unit ttl = Fail r -> is_error r.
Proof.
  revert unit ttl. induction opts as [[|opt [|text rest]] IH] using (induction_ltof1 _ (@length bytes)) => unit ttl; [done|..].
  - cbn [parse_set_loop]. repeat case_match; intros; by simplify_eq.
  - have {}IH := IH rest ltac:(rw /ltof /=; lia). rw parse_set_round. cbv zeta.
    repeat case_match; intros; simplify_eq; try done; by eapply IH.
Qed.

Lemma parse_scan_bad opts : forall req r, parse_scan_loop opts req = Fail r -> is_error r.
Proof.
  induction opts as [[|opt [|text rest]] IH] using (induction_ltof1 _ (@length bytes)) => req r; [done|..].
  - cbn [parse_scan_loop]. repeat case_match; intros; by simplify_eq.
  - have {}IH := IH rest ltac:(rw /ltof /=; lia). cbn [parse_scan_loop].
    repeat case_match; intros; simplify_eq; try done; by eapply IH.
Qed.

Lemma parseScan_bad c opts r : parseScan c opts = Fail r -> is_error r.
Proof. rw /parseScan. repeat case_match; intros; simplify_eq; try done; by eapply parse_scan_bad. Qed.

(** One name of the table. A reply fixed by the parser is an error or [PING]'s; a mutation
    answers what its outcome says. *)
Ltac by_type :=
  match goal with |- context [bool_decide (str ?s = ?u)] => destruct (bool_decide (str s = u)) end.
Ltac fixed := try (intros ->; done).
Ltac outcome_ := intros ([] & -> & Ho); try done; apply is_int_intro; try exact Ho.

(** The table of types covers the parser, name by name. *)
Lemma parse_typed args r : cmd_typed (parse_cmd args) r -> well_typed args r.
Proof.
  rw /well_typed. destruct (is_error r) eqn:He; [done|]. rw /cmd_typed He. cbn [orb Is_true].
  intros [[]|H]. destruct args as [|name rest]; [cbn in H; by subst r|]. rw /parse_cmd in H.
  destruct (ToUpper name) as [u|]; [|cbn in H; by subst r]. move: H. rw /parse_named /wrong_arity /unknown. cbn [type_of reply_types].
  by_type; [destruct rest as [|a [|b rest]]; fixed|].
  by_type; [destruct rest as [|k [|x opts]]; fixed|].
  { destruct (parseSetOptions opts) as [ttl|bad] eqn:E; [outcome_|].
    intros ->. apply parse_set_bad in E. by rw He in E. }
  by_type; [destruct rest as [|k [|b rest]]; fixed; done|].
  by_type; [destruct rest as [|k rest]; fixed|].
  { intros (items & -> & H1 & H2). apply andb_prop_intro. split; [done|]. by apply Is_true_true, Z.eqb_eq. }
  by_type; [destruct rest as [|k rest]; fixed; outcome_|].
  by_type; [destruct rest as [|k rest]; fixed; done|].
  by_type; [destruct rest as [|k [|b rest]]; fixed; outcome_|].
  by_type; [destruct rest as [|k [|b rest]]; fixed; outcome_|].
  by_type; [destruct rest as [|k [|text [|b rest]]]; fixed|].
  { destruct (ParseInt text) as [n|]; fixed. destruct (n <=? 0); [outcome_|].
    destruct (maxExpireSeconds <? n); fixed. intros ([|[]| |] & -> & Ho); done. }
  by_type; [destruct rest as [|k [|b rest]]; fixed; done|].
  by_type; [destruct rest as [|k [|b rest]]; fixed; intros ([|[]| |] & -> & Ho); done|].
  by_type; [destruct rest as [|k [|b rest]]; fixed; done|].
  by_type; [destruct rest as [|c opts]; fixed|].
  { destruct (parseScan c opts) as [req|bad] eqn:E; [by intros (cursor & keys & -> & H)|].
    intros ->. apply parseScan_bad in E. by rw He in E. }
  by_type; [destruct rest as [|k rest]; fixed; done|]. fixed.
Qed.
End reply_types.

Section reply_types_theorem.
Context {L : Type} `{!Logger L}.

(** C28. Every command answers with its own type. A reply is an error, or else: OK for SET, one
    bulk string or null for GET, exactly as many of them as keys for MGET, a count between 0
    and the number of keys for DEL and EXISTS, a signed 64-bit integer for INCR and DECR, 0 or
    1 for EXPIRE and PERSIST, a number of seconds that a duration can hold, -1 or -2 for TTL,
    bulk strings for KEYS, a cursor with bulk strings for SCAN and a non-negative 64-bit
    integer for DBSIZE. No integer on the wire is outside the signed 64-bit range. *)
Theorem replies_well_typed v args (e : Engine L) r e' : len (env_iter v) <= maxInt64 ->
  Dispatch v args e = Done (r, e') -> well_typed args r = true.
Proof. intros Hi. rw Dispatch_exec => H. by eapply Is_true_true, parse_typed, exec_typed. Qed.
End reply_types_theorem.

(** ** Reading back *)

Section read_back.
Context {L : Type} `{!Logger L}.

(** Half a second is as far as the rounding of TTL goes. *)
Lemma ttl_close left : 0 <= left -> Z.abs (second * ((left / millisecond + 500) / 1000) - left) <= second / 2.
Proof.
  rw /second /millisecond => Hl. have H1 := Z.div_mod left 1000000 ltac:(lia).
  have H2 := Z.mod_pos_bound left 1000000 ltac:(lia). set ms := left / 1000000 in H1 |- *.
  have H3 := Z.div_mod (ms + 500) 1000 ltac:(lia). have H4 := Z.mod_pos_bound (ms + 500) 1000 ltac:(lia).
  change (1000000000 / 2) with 500000000. lia.
Qed.

Lemma parse_set_ex k x n : 0 < n <= maxExpireSeconds ->
  parse_cmd [str "SET"; k; x; str "EX"; FormatInt n] = CMut (MSet k x (ExpiresIn (n * second))).
Proof.
  intros Hn. change (parse_cmd _) with
    (match parseSetOptions [str "EX"; FormatInt n] with Fail bad => CReply bad | Ret ttl => CMut (MSet k x ttl) end).
  have Hp : ParseInt (FormatInt n) = Some n.
  { apply ParseInt_FormatInt. move: Hn. rw /is_int64 /minInt64 /maxExpireSeconds /maxInt64 /second.
    change (Z.quot _ _) with 9223372036. lia. }
  have -> : parseSetOptions [str "EX"; FormatInt n] = Ret (ExpiresIn (n * second)); [|done].
  apply parse_set_loop_spec. exists EX, (Some (default n None)). split_and!; [by left| |done].
  by apply (so_cons EX (str "EX") (FormatInt n) n [] None); [vm_compute|..|constructor].
Qed.

(** C18. A client reads back what it wrote, for as long as it asked: after SET key value EX n
    has been answered OK, GET gives the value and TTL the remaining seconds to the nearest
    until n seconds have passed, and from that instant on both report the key gone, whether
    or not the worker has reclaimed it. *)
Theorem set_ex_reads_back v1 v2 (e e1 : Engine L) k x n :
  acceptingMutations e = true -> 0 < n <= maxExpireSeconds -> env_now v1 <= env_now v2 ->
  Dispatch v1 [str "SET"; k; x; str "EX"; FormatInt n] e = Done (Simple (str "OK"), e1) ->
  let left := env_now v1 + n * second - env_now v2 in
  if 0 <? left
  then Dispatch v2 [str "GET"; k] e1 = Done (Bulk x, e1) /\
       exists s, Dispatch v2 [str "TTL"; k] e1 = Done (Int s, e1) /\ Z.abs (second * s - left) <= second / 2
  else Dispatch v2 [str "GET"; k] e1 = Done (NullBulk, e1) /\
       Dispatch v2 [str "TTL"; k] e1 = Done (Int (-2), e1).
Proof.
  intros Hacc Hn Hle. rw !Dispatch_exec parse_set_ex //. cbn [exec]. intros [= Hd].
  pose proof (implements_mut (env_now v2) (MSet k x (ExpiresIn (n * second))) v1 e I Hle Hacc) as Hi.
  cbn [spec_mut ExpiresIn ttl_set ttl_d] in Hi. rw Hd in Hi. cbn [fst snd] in Hi.
  destruct Hi as [[Hv _]|(_ & _ & [?|?])]; [|done..].
  change (parse_cmd [str "GET"; k]) with (CGet k). change (parse_cmd [str "TTL"; k]) with (CTTL k).
  cbn [exec]. destruct (engine_reads [] k _ (env_now v2) e1 (reflexivity _)) as (-> & _ & _ & -> & _).
  rw Hv tick_lookup lookup_insert_eq. cbn [mbind option_bind]. rw /alive. cbn [snd].
  destruct (Z.ltb_spec 0 (env_now v1 + n * second - env_now v2)).
  - rw decide_True; [lia|]. cbn [fmap option_fmap option_map fst]. split; [done|].
    set left := env_now v1 + n * second - env_now v2 in H |- *.
    have Hs : time_Sub (env_now v1 + n * second) (env_now v2) = left.
    { rw /time_Sub. move: Hn H. rw /left /minInt64 /maxExpireSeconds /maxInt64 /second.
      change (Z.quot _ _) with 9223372036. lia. }
    rw Hs. destruct (ttl_rounding left) as [->|?]; [|lia]. eexists. split; [done|]. apply ttl_close. lia.
  - by rw decide_False; [lia|].
Qed.

(** A cursor survives the trip through the client: the text of every cursor a SCAN page
    carries, sent back in the next SCAN (with or without the optional plus sign), is parsed
    as that cursor, with the default count. *)
Theorem scan_cursor_roundtrip cursor : is_uint64 cursor ->
  parse_cmd [str "SCAN"; FormatUint cursor] = CScan (mkScanRequest cursor [] false defaultScanCount) /\
  parse_cmd [str "scan"; "+"%byte :: FormatUint cursor] = CScan (mkScanRequest cursor [] false defaultScanCount).
Proof.
  intros Hc. have Hp := ParseUint_FormatUint cursor Hc.
  have Hne : FormatUint cursor <> [] by intros E; rw E in Hp.
  change (parse_cmd [str "SCAN"; FormatUint cursor]) with
    (match parseScan (FormatUint cursor) [] with Fail bad => CReply bad | Ret req => CScan req end).
  change (parse_cmd [str "scan"; "+"%byte :: FormatUint cursor]) with
    (match parseScan ("+"%byte :: FormatUint cursor) [] with Fail bad => CReply bad | Ret req => CScan req end).
  rw /parseScan. cbn [drop]. rw drop_0.
  destruct (FormatUint_spec cursor) as (Hd & _); [rw /is_uint64 /maxUint64 in Hc; lia|].
  have Hplus : HasPrefix (FormatUint cursor) (str "+") = false.
  { destruct (FormatUint cursor) as [|c s]; [done|]. destruct (all_digits_head_not _ _ Hd) as [_ ?].
    apply bool_decide_eq_false_2. intros [s' [= ? _]]. done. }
  rw Hplus. cbn [andb]. rw Hp. split; [done|].
  rw (bool_decide_eq_false_2 (FormatUint cursor = [])) //.
Qed.
End read_back.

(** ** Witnesses *)

(** A clock, a log that confirms every record, and the visiting order of [counter_engine]. *)
Definition at_second (n : Z) : env := mkEnv (n * second) (fun _ => None) counter_iter 1 [Some 7].

(** The counter's engine with an empty log. *)
Definition logged_engine : Engine sys :=
  with_log counter_engine (log_open Always 0 (mkOpened EncodeHeader HeaderSize)).

Definition done_with {L} (x : run (Reply * Engine L)) (e : Engine L) : Reply * Engine L :=
  match x with Done y => y | _ => (NullBulk, e) end.

Lemma counter_sessions : ScanSessions.wf (scanSessions counter_engine).
Proof. apply (wf_new defaultScanSessionLimits). by vm_compute. Qed.

(** An INCR, the same while the server drains, and a SCAN. *)
Lemma dispatch_refines_witness :
  let run args e := (done_with (Dispatch (at_second 1) args e) e).2 in
  let incr := [str "incr"; str "n"] in
  let scan := [str "SCAN"; str "0"] in
  (exists r' m', sem_cmd (CMut (MIncr (str "n") 1)) second (view (store counter_engine) second) = Some (r', m') /\
    implements (2 * second) counter_engine (Int 42) (run incr counter_engine) r' m') /\
  run incr (BeginDrain counter_engine) = BeginDrain counter_engine /\
  scan_means (at_second 1) (mkScanRequest 0 [] false 10) counter_engine (run scan counter_engine)
    (Array [Bulk (str "0"); Array [Bulk (str "n")]]).
Proof.
  split_and!.
  - refine (proj1 (dispatch_refines (at_second 1) [str "incr"; str "n"] counter_engine (Int 42) _ (2 * second)
      _ counter_ranges _ counter_sessions _)); vm_compute; done.
  - refine (proj2 (proj1 (dispatch_refines (at_second 1) [str "incr"; str "n"] (BeginDrain counter_engine)
      (Err (str "ERR server is shutting down")) _ (2 * second) _ counter_ranges _ counter_sessions _))); vm_compute; done.
  - refine (proj2 (proj1 (dispatch_refines (at_second 1) [str "SCAN"; str "0"] counter_engine
      (Array [Bulk (str "0"); Array [Bulk (str "n")]]) _ (2 * second) _ counter_ranges _ counter_sessions _)));
      vm_compute; done.
Defined.

Lemma error_changes_nothing_witness :
  view (store (done_with (Dispatch (at_second 1) [str "EXPIRE"; str "n"; str "soon"] counter_engine) counter_engine).2)
    (2 * second) = view (store counter_engine) (2 * second).
Proof.
  refine (error_changes_nothing (at_second 1) [str "EXPIRE"; str "n"; str "soon"] counter_engine errNotAnInteger _
    (2 * second) _ counter_ranges _ _); vm_compute; done.
Defined.

Definition logged_set : Reply * Engine sys :=
  done_with (Dispatch (at_second 1) [str "SET"; str "a"; str "b"] logged_engine) logged_engine.

Definition logged_log : sys := default (sys0 Always 0 [] []) (elog logged_set.2).

Lemma reply_waits_witness : exists rec seq,
  log_append rec (log_open Always 0 (mkOpened EncodeHeader HeaderSize)) = (Ret seq, logged_log) /\
  appliedSeq logged_set.2 = seq.
Proof.
  destruct (reply_waits_for_durability (at_second 1) [str "SET"; str "a"; str "b"] logged_engine _
    (Simple (str "OK")) logged_set.2 logged_log eq_refl) as (rec & seq & H1 & _ & H2 & _);
    [vm_compute; reflexivity|vm_compute; reflexivity|vm_compute; done|done|].
  exact (ex_intro _ rec (ex_intro _ seq (conj H1 H2))).
Defined.

Lemma replies_well_typed_witness :
  well_typed [str "mget"; str "n"; str "x"] (Array [Bulk (str "41"); NullBulk]) = true.
Proof.
  refine (replies_well_typed (at_second 1) [str "mget"; str "n"; str "x"] counter_engine _ counter_engine _ _);
    vm_compute; done.
Defined.

Definition set_ex (n : string) : list bytes := [str "SET"; str "a"; str "b"; str "EX"; str n].
Definition after_set_ex : Engine sys := (done_with (Dispatch (at_second 1) (set_ex "7") counter_engine) counter_engine).2.

Lemma set_ex_reads_back_witness :
  Dispatch (at_second 9) [str "GET"; str "a"] after_set_ex = Done (NullBulk, after_set_ex).
Proof.
  refine (proj1 (set_ex_reads_back (at_second 1) (at_second 9) counter_engine after_set_ex (str "a") (str "b") 7
    _ _ _ _)); vm_compute; done.
Defined.

Lemma scan_cursor_witness : parse_cmd [str "SCAN"; str "7"] = CScan (mkScanRequest 7 [] false 10).
Proof. exact (proj1 (scan_cursor_roundtrip 7 ltac:(vm_compute; done))). Defined.

(** [strings.ToUpper] maps Unicode letters, so a name with a long s (C5 BF) or a dotless i
    (C4 B1) that no client would call SET or PING runs as one. *)
Example unicode_alias :
  Dispatch (at_second 1) [[xc5; xbf; "e"%byte; "t"%byte]; str "a"; str "b"] counter_engine =
    Dispatch (at_second 1) [str "SET"; str "a"; str "b"] counter_engine /\
  Dispatch (at_second 1) [[ "p"%byte; xc4; xb1; "n"%byte; "g"%byte]] counter_engine = Done (Simple (str "PONG"), counter_engine).
Proof. split; vm_compute; reflexivity. Qed.

Example set_option_errors :
  parseSetOptions [str "EX"; str "1"; str "PX"; str "1"] = Fail (Err errSyntax) /\
  parseSetOptions [str "ex"; str "1"; str "EX"; str "2"] = Ret (ExpiresIn (2 * second)) /\
  parseSetOptions [str "EX"; str "9223372037"] = Fail (invalidExpire "set") /\
  parseSetOptions [str "PX"; str "9223372036854"] = Ret (ExpiresIn 9223372036854000000).
Proof. split_and!; vm_compute; reflexivity. Qed.
