(* ===== verification/Conn.v ===== *)
(** * One client connection (src/internal/server/conn.go, flush_on_block.go)

    [serve] reads a request, dispatches it and encodes the reply into the connection's
    buffered writer; [flushBeforeRead] sends what is pending just before the reader asks the
    socket for more bytes. The socket's two directions are separate here: what the client
    sends is a list of chunks, one per [Read], then the error that ends the stream (the
    client's close, a reset, a deadline); what it receives goes to an arbitrary [Sink].
    Other goroutines act between two commands of a connection, and are an argument.

    Whether [ReadCommand] calls [Read] is decided by running it on the bytes at hand with a
    [Read] that fails: it reports that failure exactly when it has called [Read]. This is
    also, word for word, what happens when the flush before a [Read] fails. *)

From S2P Require Import Prelude.
From S2P Require Import GoLib.
From S2P Require Import ScanSessions.
From S2P Require Import AofLog.
From S2P Require Import RespWriter.
From S2P Require Import RespReader.
From S2P Require Import Engine.
From S2P Require Import Command.

(** ** Encoding replies *)

Section write_reply.
Context {S : Type} `{!Sink S}.

(** The loop over the items stops at the first error. *)
Fixpoint writeReply (r : Reply) : wop S :=
  match r with
  | Simple s => WriteSimpleString s
  | Err s => WriteError s
  | Int n => WriteInt n
  | Bulk s => WriteBulk s
  | NullBulk => WriteNullBulk
  | Array items =>
      and_then (WriteArrayHeader (len items))
        ((fix go (items : list Reply) : wop S :=
            match items with
            | [] => fun w => (true, w)
            | item :: items => and_then (writeReply item) (go items)
            end) items)
  end.

(** ** The flusher *)

Record connFlusher := mkFlusher { fl_w : Writer S; fl_failed : bool }.

Definition flush (f : connFlusher) : bool * connFlusher :=
  if fl_failed f then (false, f)
  else if Buffered (fl_w f) =? 0 then (true, f)
  else
    let '(ok, w) := Flush (fl_w f) in
    if ok then (true, mkFlusher w false) else (false, mkFlusher w true).

Definition fail_ (f : connFlusher) : connFlusher := mkFlusher (fl_w f) true.

(** A write through the writer the flusher shares. *)
Definition on_writer (m : wop S) (f : connFlusher) : bool * connFlusher :=
  let '(ok, w) := m (fl_w f) in (ok, mkFlusher w (fl_failed f)).
End write_reply.
Arguments connFlusher S : clear implicits.

(** ** The connection *)

(** What happens around the [i]-th command: whether the server is draining when the loop
    looks, what other goroutines did to the engine before, and the command's [env]. *)
Record turn (L : Type) := mkTurn {
  tn_drain : bool;
  tn_others : Engine L -> Engine L;
  tn_env : env
}.
Arguments mkTurn {L}.
Arguments tn_drain {L}.
Arguments tn_others {L}.
Arguments tn_env {L}.

Section conn.
Context {L : Type} `{!Logger L} {S : Type} `{!Sink S}.
Variable flushEveryReply : bool.

(** [got] is what [bufio.Reader] holds; [chunks] and [last] what the socket still delivers.
    [answered] and [waits] are a record of the run: the replies encoded so far, and, for
    each [Read] of the socket, what the client had received and what had been answered. *)
Record conn := mkConn {
  got : bytes;
  chunks : list bytes;
  last : stream_err;
  rd : Reader;
  fl : connFlusher S;
  eng : Engine L;
  answered : list Reply;
  waits : list (bytes * list Reply)
}.

Definition with_fl (c : conn) (f : connFlusher S) : conn :=
  mkConn (got c) (chunks c) (last c) (rd c) f (eng c) (answered c) (waits c).

(** [r.ReadCommand()] on a socket that delivers [cs]. *)
Fixpoint next_request (cs : list bytes) (c : conn) : result read_err (list bytes) * conn :=
  let take_ res r := (res, mkConn (rest (br r)) cs (last c) r (fl c) (eng c) (answered c) (waits c)) in
  match ReadCommand (with_br (rd c) (mkStream (got c) Transport)) with
  | (Fail (TransportError Transport), r) =>
      let '(ok, f) := if flushEveryReply then (true, fl c) else flush (fl c) in
      if negb ok then (Fail (TransportError Transport), with_fl c f) (* errFlushFailed *)
      else
        let waits := waits c ++ [(sink_out (bw_sink (fl_w f)), answered c)] in
        match cs with
        | [] =>
            let '(res, r) := ReadCommand (with_br (rd c) (mkStream (got c) (last c))) in
            (res, mkConn (rest (br r)) [] (last c) r f (eng c) (answered c) waits)
        | d :: cs => next_request cs (mkConn (got c ++ d) cs (last c) (rd c) f (eng c) (answered c) waits)
        end
  | (res, r) => take_ res r
  end.

Definition reportReadError (err : read_err) (c : conn) : conn :=
  match err with
  | Eof => c
  | ProtocolError msg _ =>
      let '(_, f) := on_writer (WriteError (str "ERR Protocol error: " ++ msg)) (fl c) in
      with_fl c (flush f).2
  | TransportError _ => c
  end.

(** The loop; [i] counts the commands. Every command takes at least one byte off the
    stream, so the number of bytes to come and one more is enough fuel. *)
Fixpoint serve (turns : nat -> turn L) (fuel : nat) (i : nat) (c : conn) : option (run conn) :=
  match fuel with
  | O => None
  | Datatypes.S fuel =>
      if tn_drain (turns i) then Some (Done c)
      else
        let '(res, c) := next_request (chunks c) c in
        match res with
        | Fail err => Some (Done (reportReadError err c))
        | Ret args =>
            match Dispatch (tn_env (turns i)) args (tn_others (turns i) (eng c)) with
            | Panics => Some Panics
            | Spins => Some Spins
            | Done (reply, e) =>
                let '(ok, f) := on_writer (writeReply reply) (fl c) in
                let c f := mkConn (got c) (chunks c) (last c) (rd c) f e (answered c ++ [reply]) (waits c) in
                if negb ok then Some (Done (c (fail_ f)))
                else if flushEveryReply then
                  let '(ok, f) := flush f in
                  if negb ok then Some (Done (c f)) else serve turns fuel (Datatypes.S i) (c f)
                else serve turns fuel (Datatypes.S i) (c f)
            end
        end
  end.

Definition serveConn (turns : nat -> turn L) (fuel : nat) (c : conn) : option (run conn) :=
  match serve turns fuel 0 c with
  | Some (Done c) => Some (Done (with_fl c (flush (fl c)).2))
  | other => other
  end.

(** [handleConn] up to its deferred calls: a fresh writer, flusher and reader. *)
Definition handleConn (turns : nat -> turn L) (fuel : nat) (limits : Limits) (sent : list bytes)
    (end_ : stream_err) (s : S) (e : Engine L) : option (run conn) :=
  serveConn turns fuel
    (mkConn [] sent end_ (NewReader (mkStream [] Transport) limits) (mkFlusher (NewWriter s) false) e [] []).
End conn.
Arguments conn L S : clear implicits.

(** ** Replies on the wire *)

Section reply_ind.
Variable P : Reply -> Prop.
Hypothesis (Hs : forall s, P (Simple s)) (He : forall s, P (Err s)) (Hi : forall n, P (Int n))
  (Hb : forall s, P (Bulk s)) (Hn : P NullBulk) (Ha : forall items, Forall P items -> P (Array items)).

(** Induction with the items of an array. *)
Lemma Reply_nested_ind : forall r, P r.
Proof.
  fix IH 1. intros [s|s|n|s| |items]; [apply Hs|apply He|apply Hi|apply Hb|exact Hn|].
  apply Ha. induction items; constructor; [apply IH|assumption].
Qed.
End reply_ind.

Fixpoint enc_reply (r : Reply) : bytes :=
  match r with
  | Simple s => enc_line "+" s
  | Err s => enc_line "-" s
  | Int n => enc_int n
  | Bulk s => enc_bulk s
  | NullBulk => enc_null
  | Array items =>
      enc_array (len items) ++
        (fix go (items : list Reply) : bytes :=
           match items with [] => [] | item :: items => enc_reply item ++ go items end) items
  end.

Definition enc_replies (rs : list Reply) : bytes := concat (enc_reply <$> rs).

Lemma enc_reply_array items : enc_reply (Array items) = enc_array (len items) ++ enc_replies items.
Proof.
  cbn [enc_reply]. f_equal. rw /enc_replies. induction items as [|r items IH]; [done|].
  cbn [fmap list_fmap concat]. by rw IH.
Qed.

Lemma enc_replies_app rs rs' : enc_replies (rs ++ rs') = enc_replies rs ++ enc_replies rs'.
Proof. apply concat_fmap_app. Qed.

Lemma enc_replies_one r : enc_replies [r] = enc_reply r.
Proof. by rw /enc_replies /= app_nil_r. Qed.

Section write_reply_spec.
Context {S : Type} `{!Sink S} `{!SinkLaws S}.

(** Writing items after something that succeeded. *)
Lemma emits_items (a : wop S) x items : emits a x ->
  Forall (fun r => emits (writeReply r) (enc_reply r)) items ->
  emits (and_then a ((fix go (items : list Reply) : wop S :=
            match items with
            | [] => fun w => (true, w)
            | item :: items => and_then (writeReply item) (go items)
            end) items)) (x ++ enc_replies items).
Proof.
  intros Ha Hf. revert a x Ha. induction Hf as [|r items Hr Hf IH] => a x Ha.
  - rw app_nil_r. apply (emits_ext a); [|done]. intros w. rw /and_then. by destruct (a w) as [[] w'].
  - rw (_ : enc_replies (r :: items) = enc_reply r ++ enc_replies items) // app_assoc.
    eapply emits_ext; [|apply IH, emits_and_then; [exact Ha|exact Hr]].
    intros w. rw /and_then. by destruct (a w) as [[] w'].
Qed.

Lemma emits_writeReply r : emits (S:=S) (writeReply r) (enc_reply r).
Proof.
  induction r as [s|s|n|s| |items IH] using Reply_nested_ind;
    [apply emits_prefixed|apply emits_prefixed|apply emits_WriteInt|apply emits_WriteBulk|apply emits_WriteNullBulk|].
  rw enc_reply_array. apply emits_items; [apply emits_WriteArrayHeader|done].
Qed.
End write_reply_spec.

(** ** Reading replies back *)

(** A number that has an encoding of its own, and what a reply can carry of a line. *)
Fixpoint int_ok (r : Reply) : Prop :=
  match r with
  | Int n => is_int64 n
  | Array items =>
      len items <= maxInt64 /\
      (fix go (items : list Reply) : Prop :=
         match items with [] => True | item :: items => int_ok item /\ go items end) items
  | Bulk s => len s <= maxInt64
  | _ => True
  end.

(** The reply as its client sees it: line breaks in status and error lines are spaces. *)
Fixpoint seen (r : Reply) : Reply :=
  match r with
  | Simple s => Simple (line_safe s)
  | Err s => Err (line_safe s)
  | Array items => Array (seen <$> items)
  | r => r
  end.

Lemma split_at_CR s1 s2 t1 t2 : CR ∉ s1 -> CR ∉ s2 -> s1 ++ CR :: t1 = s2 ++ CR :: t2 -> s1 = s2 /\ t1 = t2.
Proof.
  revert s2. induction s1 as [|c s1 IH] => s2 H1 H2 E.
  - destruct s2 as [|d s2]; [by injection E|]. injection E as <- _. exfalso. apply H2. by left.
  - destruct s2 as [|d s2]; injection E as E1 E2.
    + subst c. exfalso. apply H1. by left.
    + apply not_elem_of_cons in H1 as [_ H1]. apply not_elem_of_cons in H2 as [_ H2].
      destruct (IH s2 H1 H2 E2) as [-> ->]. by subst.
Qed.

Lemma line_safe_no_CR s : CR ∉ line_safe s.
Proof.
  rw /line_safe list_elem_of_fmap. intros (c & E & _). destruct (is_crlf c) eqn:Hc; [done|].
  subst c. by vm_compute in Hc.
Qed.

Lemma FormatInt_no_CR n : is_int64 n -> CR ∉ FormatInt n.
Proof.
  rw /is_int64 /minInt64 /maxInt64 => Hn. have Hu u : 0 <= u < 10 ^ 20 -> CR ∉ FormatUint u.
  { intros Hu Hin. destruct (FormatUint_spec u Hu) as (Hd & _).
    apply list_elem_of_In in Hin. by pose proof (proj1 (List.forallb_forall _ _) Hd _ Hin). }
  rw /FormatInt. case_cmp; [apply not_elem_of_cons; split; [done|]|]; apply Hu; lia.
Qed.

Lemma number_split n1 n2 t1 t2 : is_int64 n1 -> is_int64 n2 ->
  FormatInt n1 ++ CRLF ++ t1 = FormatInt n2 ++ CRLF ++ t2 -> n1 = n2 /\ t1 = t2.
Proof.
  intros H1 H2. intros [E [= ->]]%split_at_CR; [|by apply FormatInt_no_CR..].
  split; [|done]. apply (f_equal ParseInt) in E. rw !ParseInt_FormatInt // in E. by injection E.
Qed.

Lemma len_int64 {A} (l : list A) : len l <= maxInt64 -> is_int64 (len l).
Proof. intros H. have := len_nonneg l. rw /is_int64 /minInt64. lia. Qed.

Lemma line_split s1 s2 t1 t2 : line_safe s1 ++ CRLF ++ t1 = line_safe s2 ++ CRLF ++ t2 ->
  line_safe s1 = line_safe s2 /\ t1 = t2.
Proof. intros [E [= ->]]%split_at_CR; [done|apply line_safe_no_CR..]. Qed.

Lemma bulk_split s1 s2 t1 t2 : len s1 <= maxInt64 -> len s2 <= maxInt64 ->
  FormatInt (len s1) ++ CRLF ++ s1 ++ CRLF ++ t1 = FormatInt (len s2) ++ CRLF ++ s2 ++ CRLF ++ t2 ->
  s1 = s2 /\ t1 = t2.
Proof.
  intros H1 H2 [El E]%number_split; [|by apply len_int64..].
  apply app_inj_1 in E as [-> E]; [|rw /len in El; lia]. by apply app_inv_head in E as ->.
Qed.

(** The wire form of a reply, by its first byte. *)
Lemma enc_reply_tag r t : enc_reply r ++ t =
  match r with
  | Simple s => "+"%byte :: line_safe s ++ CRLF ++ t
  | Err s => "-"%byte :: line_safe s ++ CRLF ++ t
  | Int n => ":"%byte :: FormatInt n ++ CRLF ++ t
  | Bulk s => "$"%byte :: FormatInt (len s) ++ CRLF ++ s ++ CRLF ++ t
  | NullBulk => "$"%byte :: FormatInt (-1) ++ CRLF ++ t
  | Array items => "*"%byte :: FormatInt (len items) ++ CRLF ++ enc_replies items ++ t
  end.
Proof.
  destruct r; rw ?enc_reply_array; cbn [enc_reply];
    rw /enc_line /enc_int /enc_bulk /enc_array /enc_number -?app_assoc; cbn [app]; by rw -?app_assoc.
Qed.

Lemma behind_tag (c : byte) a b : c :: a = c :: b -> a = b.
Proof. by intros [= ->]. Qed.

Lemma int_ok_array items : int_ok (Array items) <-> len items <= maxInt64 /\ Forall int_ok items.
Proof.
  cbn [int_ok]. apply and_iff_compat_l. induction items as [|r items IH]; [by split; [constructor|]|].
  rw Forall_cons. tauto.
Qed.

Lemma items_split items1 items2 t1 t2 :
  Forall (fun r1 => forall r2 t1 t2, int_ok r1 -> int_ok r2 -> enc_reply r1 ++ t1 = enc_reply r2 ++ t2 ->
            seen r1 = seen r2 /\ t1 = t2) items1 ->
  length items1 = length items2 -> Forall int_ok items1 -> Forall int_ok items2 ->
  enc_replies items1 ++ t1 = enc_replies items2 ++ t2 -> seen <$> items1 = seen <$> items2 /\ t1 = t2.
Proof.
  intros Hf. revert items2. induction Hf as [|r1 items1 Hr Hf IH] => items2 Hl H1 H2 E;
    destruct items2 as [|r2 items2]; try done.
  inversion H1; inversion H2; subst. rw /enc_replies /= -!app_assoc in E.
  apply Hr in E as [E1 E]; [|done..]. apply IH in E as [E2 ->]; [|by injection Hl|done..].
  by rw !fmap_cons E1 E2.
Qed.

Lemma reply_split r1 : forall r2 t1 t2, int_ok r1 -> int_ok r2 ->
  enc_reply r1 ++ t1 = enc_reply r2 ++ t2 -> seen r1 = seen r2 /\ t1 = t2.
Proof.
  induction r1 as [s|s|n|s| |items IH] using Reply_nested_ind; intros r2 t1 t2 H1 H2; rw !enc_reply_tag;
    destruct r2 as [s'|s'|n'|s'| |items']; try done; intros E%behind_tag; cbn [seen].
  - by apply line_split in E as [-> ->].
  - by apply line_split in E as [-> ->].
  - by apply number_split in E as [-> ->].
  - by apply bulk_split in E as [-> ->].
  - apply number_split in E as [El _]; [|by apply len_int64|done]. have := len_nonneg s. lia.
  - apply number_split in E as [El _]; [|done|by apply len_int64]. have := len_nonneg s'. lia.
  - by apply app_inv_head in E as [= ->].
  - apply int_ok_array in H1 as [H1 H1'], H2 as [H2 H2'].
    apply number_split in E as [El E]; [|by apply len_int64..].
    apply items_split in E as [-> ->]; [done|done|rw /len in El; lia|done..].
Qed.

(** A client that decodes a prefix of the reply stream decodes a prefix of the replies. *)
Lemma seen_prefix rs1 rs2 : Forall int_ok rs1 -> Forall int_ok rs2 -> enc_replies rs1 `prefix_of` enc_replies rs2 ->
  seen <$> rs1 `prefix_of` seen <$> rs2.
Proof.
  intros H1. revert rs2. induction H1 as [|r1 rs1 Hr H1 IH] => rs2 H2 [k E]; [apply prefix_nil|].
  destruct H2 as [|r2 rs2 Hr2 H2]; [exfalso; rw /enc_replies /= enc_reply_tag in E; by destruct r1|].
  rw /enc_replies /= -app_assoc in E. symmetry in E. apply reply_split in E as [E1 E]; [|done..].
  rw !fmap_cons E1. apply prefix_cons, IH; [done|]. by exists k.
Qed.

(** The loop's writes of replies, one after the other, and a flush. *)
Fixpoint write_replies {S : Type} `{!Sink S} (rs : list Reply) : wop S :=
  match rs with [] => Flush | r :: rs => and_then (writeReply r) (write_replies rs) end.

Lemma emits_write_replies {S : Type} `{!Sink S} `{!SinkLaws S} rs : emits (S:=S) (write_replies rs) (enc_replies rs).
Proof.
  induction rs as [|r rs IH]; [apply emits_flush|]. rw /enc_replies /=. apply emits_and_then; [apply emits_writeReply|done].
Qed.

Lemma write_replies_flushed {S : Type} `{!Sink S} rs : forall w w' : Writer S, write_replies rs w = (true, w') -> bw_buf w' = [].
Proof.
  induction rs as [|r rs IH] => w w'; [apply flush_empty|]. cbn [write_replies]. rw /and_then.
  destruct (writeReply r w) as [[] w1]; [apply IH|done].
Qed.

(** What a fresh writer delivers of the replies written to it. *)
Lemma write_replies_delivers {S : Type} `{!Sink S} `{!SinkLaws S} rs (s : S) ok w :
  write_replies rs (NewWriter s) = (ok, w) ->
  delivered w `prefix_of` sink_out s ++ enc_replies rs /\ (ok = true -> delivered w = sink_out s ++ enc_replies rs).
Proof.
  intros E. pose proof (emits_write_replies rs (NewWriter s)) as H. rw E in H.
  destruct H as (_ & _ & _ & _ & H & _); [done|]. rw {2}/total /= app_nil_r in H. destruct ok.
  - apply write_replies_flushed in E. rw /total E app_nil_r -/(delivered w) in H. by rw H.
  - by rw /total /= app_nil_r in H.
Qed.

(** C29. Replies cannot be confused. The server writes the replies [rs1] to one client, all
    of them, and [rs2] to another over a socket that may fail on the way. If what the first
    has received is what the second received first, then the replies of the first are those
    the second's begin with, up to line breaks in status and error texts, which the encoder
    turns into spaces; and if the second got everything and the same bytes, they are the
    same replies. No value, key or echoed command name, whatever bytes it holds, can be
    taken for a reply of its own. *)
Theorem reply_stream_unambiguous {S1 S2 : Type} `{!Sink S1} `{!SinkLaws S1} `{!Sink S2} `{!SinkLaws S2}
    rs1 rs2 (s1 : S1) (s2 : S2) w1 ok w2 :
  Forall int_ok rs1 -> Forall int_ok rs2 -> sink_out s1 = sink_out s2 ->
  write_replies rs1 (NewWriter s1) = (true, w1) -> write_replies rs2 (NewWriter s2) = (ok, w2) ->
  (delivered w1 `prefix_of` delivered w2 -> seen <$> rs1 `prefix_of` seen <$> rs2) /\
  (ok = true -> delivered w1 = delivered w2 -> seen <$> rs1 = seen <$> rs2).
Proof.
  intros H1 H2 Hs [_ E1]%write_replies_delivers [E2 E3]%write_replies_delivers. rw E1 // Hs. rw Hs in E1. split.
  - intros Hp. apply seen_prefix; [done..|]. eapply prefix_app_inv. by etrans.
  - intros Hok. rw E3 //. intros E%app_inv_head. apply (anti_symm prefix); apply seen_prefix; try done; by rw E.
Qed.

(** ** More input does not change a decoded request *)

(** The reader with [t] behind what it had and another end. *)
Definition more (t : bytes) (e : stream_err) (r : Reader) : Reader :=
  with_br r (mkStream (rest (br r) ++ t) e).

Definition starved {A} (res : result read_err A) : Prop := res = Fail (TransportError Transport).

Lemma starved_or {A} (res : result read_err A) : starved res \/ ~ starved res.
Proof. rw /starved. destruct res as [|[| |[]]]; auto. Qed.

(** Unless it ran out of input, what [f] does is settled by the bytes it had. *)
Definition settled {A} (f : Reader -> result read_err A * Reader) : Prop := forall r t e res r',
  fin (br r) = Transport -> f r = (res, r') -> ~ starved res ->
  f (more t e r) = (res, more t e r') /\ fin (br r') = Transport.

Lemma index_byte_bound c s i : index_byte c s = Some i -> (i < length s)%nat.
Proof.
  revert i. induction s as [|d s IH] => i; [done|]. cbn [index_byte]. case_bool_decide.
  - intros [= <-]. simpl. lia.
  - destruct (index_byte c s) as [j|] eqn:E; [|done]. intros [= <-]. have := IH j eq_refl. simpl. lia.
Qed.

Lemma index_byte_app_l c s t i : index_byte c s = Some i -> index_byte c (s ++ t) = Some i.
Proof.
  revert i. induction s as [|d s IH] => i; [done|]. cbn [index_byte app]. case_bool_decide; [done|].
  destruct (index_byte c s) as [j|] eqn:E; [|done]. intros [= <-]. by rw (IH j).
Qed.

Lemma ReadSlice_settled s t e line err s' : ReadSlice (mkStream s Transport) = (line, err, s') ->
  err <> Some (Underlying Transport) ->
  ReadSlice (mkStream (s ++ t) e) = (line, err, mkStream (rest s' ++ t) e) /\ fin s' = Transport.
Proof.
  rw /ReadSlice. cbn [rest fin]. set n := Z.to_nat reader_buf_size.
  have Hlen : len s < reader_buf_size \/ (n <= length s)%nat by rw /n /len /reader_buf_size; lia.
  destruct (index_byte LF (take n s)) as [i|] eqn:Hi.
  - intros [= <- <- <-] _. have Hb := index_byte_bound _ _ _ Hi. rw length_take in Hb.
    rw take_app. rw (index_byte_app_l _ _ _ i) //. cbn [rest fin].
    rw take_app_le; [lia|]. rw drop_app_le; [lia|]. done.
  - destruct (Z.leb_spec reader_buf_size (len s)).
    + intros [= <- <- <-] _. destruct Hlen; [lia|]. rw take_app_le // Hi. cbn [rest fin].
      destruct (Z.leb_spec reader_buf_size (len (s ++ t))); [|rw len_app in H1; have := len_nonneg t; lia].
      by rw drop_app_le.
    + by intros [= <- <- <-].
Qed.

Lemma readLine_settled r t e res s' : fin (br r) = Transport -> readLine (br r) = (res, s') -> ~ starved res ->
  readLine (br (more t e r)) = (res, mkStream (rest s' ++ t) e) /\ fin s' = Transport.
Proof.
  destruct r as [[s f0] l b c o]. cbn [br fin]. intros ->. rw /readLine. cbn [br more with_br rest].
  destruct (ReadSlice (mkStream s Transport)) as [[line err] s1] eqn:E.
  have [->|Hne] : err = Some (Underlying Transport) \/ err <> Some (Underlying Transport)
    by destruct err as [[|[]]|]; auto.
  { destruct (0 <? len line); cbn [andb raw_err]; intros [= <- <-] Hn; by exfalso; apply Hn. }
  destruct (ReadSlice_settled _ t e _ _ _ E Hne) as [-> Hf].
  destruct err as [[|x]|].
  - by intros [= <- <-] _.
  - destruct (_ && _); by intros [= <- <-] _.
  - destruct (_ || _); by intros [= <- <-] _.
Qed.

Lemma ReadFull_settled n s t e res s' : ReadFull n (mkStream s Transport) = (res, s') -> res <> Fail Transport ->
  ReadFull n (mkStream (s ++ t) e) = (res, mkStream (rest s' ++ t) e) /\ fin s' = Transport.
Proof.
  rw /ReadFull. cbn [rest fin]. destruct (Z.leb_spec n (len s)).
  - intros [= <- <-] _. destruct (Z.leb_spec n (len (s ++ t))); [|rw len_app in H0; have := len_nonneg t; lia].
    rw /len in H. rw take_app_le; [lia|]. by rw drop_app_le; [lia|].
  - destruct s; by intros [= <- <-].
Qed.

Lemma growBuf_more n r t e : growBuf n (more t e r) = more t e (growBuf n r).
Proof. rw /growBuf. cbn [more with_br buf_cap limits buf offsets]. by destruct (_ <=? _). Qed.

Lemma growBuf_br n r : br (growBuf n r) = br r.
Proof. rw /growBuf. by destruct (_ <=? _). Qed.

Lemma read_chunks_settled fuel remaining : settled (read_chunks fuel remaining).
Proof.
  revert remaining. induction fuel as [|fuel IH] => remaining r t e res r' Hf; cbn [read_chunks].
  { by intros [= <- <-] _. }
  destruct (0 <? remaining); [|by intros [= <- <-] _].
  set chunk := if _ <? remaining then _ else _. rw growBuf_more.
  rw (_ : len (buf (more t e r)) = len (buf r)) //. set r1 := growBuf _ r.
  have H1 : fin (br r1) = Transport by rw /r1 growBuf_br.
  rw (_ : br (more t e r1) = mkStream (rest (br r1) ++ t) e) //.
  destruct (ReadFull chunk (br r1)) as [rf s1] eqn:Er.
  have [->|Hne] : rf = Fail Transport \/ rf <> Fail Transport by destruct rf as [|[]]; auto.
  { intros [= <- <-] Hn. by exfalso; apply Hn. }
  destruct r1 as [[s f0] l b c o]. cbn [br rest fin] in *. subst f0.
  destruct (ReadFull_settled _ _ t e _ _ Er Hne) as [-> Hf1].
  destruct rf as [bs|x]; [|by intros [= <- <-] _].
  intros E Hn. apply (IH _ _ t e) in E; [|done..]. exact E.
Qed.

Lemma readBulk_settled : settled readBulk.
Proof.
  intros r t e res r' Hf. rw /readBulk. destruct (readLine (br r)) as [rl s1] eqn:El.
  destruct (starved_or rl) as [->|Hne].
  { intros [= <- <-] Hn. by exfalso; apply Hn. }
  destruct (readLine_settled r t e _ _ Hf El Hne) as [-> Hf1].
  rw (_ : with_br (more t e r) (mkStream (rest s1 ++ t) e) = more t e (with_br r s1)) //.
  set r1 := with_br r s1. have H1 : fin (br r1) = Transport by done.
  destruct rl as [line|err]; [|by intros [= <- <-] _].
  destruct (negb _); [by intros [= <- <-] _|]. destruct (parseInt (tail line)) as [ln|]; [|by intros [= <- <-] _].
  destruct (ln <? 0); [by intros [= <- <-] _|].
  change (limits (more t e r1)) with (limits r1). change (buf (more t e r1)) with (buf r1).
  destruct (_ <? ln); [by intros [= <- <-] _|]. destruct (_ && _); [by intros [= <- <-] _|].
  destruct (read_chunks _ (ln + 2) r1) as [rc r2] eqn:Ec.
  destruct (starved_or rc) as [->|Hne2].
  { intros [= <- <-] Hn. by exfalso; apply Hn. }
  destruct (read_chunks_settled _ _ _ t e _ _ H1 Ec Hne2) as [-> Hf2].
  destruct rc; [|by intros [= <- <-] _]. change (buf (more t e r2)) with (buf r2).
  destruct (_ || _); by intros [= <- <-] _.
Qed.

Lemma read_bulks_settled n : settled (read_bulks n).
Proof.
  induction n as [|n IH] => r t e res r' Hf; cbn [read_bulks]; [by intros [= <- <-] _|].
  destruct (readBulk r) as [rb r1] eqn:Eb.
  destruct (starved_or rb) as [->|Hne].
  { intros [= <- <-] Hn. by exfalso; apply Hn. }
  destruct (readBulk_settled _ t e _ _ Hf Eb Hne) as [-> Hf1].
  destruct rb; [|by intros [= <- <-] _]. by apply IH.
Qed.

Lemma ReadCommand_settled : settled ReadCommand.
Proof.
  intros r t e res r' Hf. rw /ReadCommand. destruct (readLine (br r)) as [rl s1] eqn:El.
  destruct (starved_or rl) as [->|Hne].
  { intros [= <- <-] Hn. by exfalso; apply Hn. }
  destruct (readLine_settled r t e _ _ Hf El Hne) as [-> Hf1].
  rw (_ : with_br (more t e r) (mkStream (rest s1 ++ t) e) = more t e (with_br r s1)) //.
  set r1 := with_br r s1. have H1 : fin (br r1) = Transport by done.
  destruct rl as [line|err]; [|by intros [= <- <-] _].
  destruct (negb _); [by intros [= <- <-] _|]. destruct (parseInt (tail line)) as [n|]; [|by intros [= <- <-] _].
  destruct (n <=? 0); [by intros [= <- <-] _|].
  change (limits (more t e r1)) with (limits r1). change (buf_cap (more t e r1)) with (buf_cap r1).
  destruct (_ <? n); [by intros [= <- <-] _|].
  set r2 := mkReader (br r1) _ _ _ _. set r2' := mkReader (br (more t e r1)) _ _ _ _.
  rw (_ : r2' = more t e r2) //. destruct (read_bulks _ r2) as [rc r3] eqn:Ec.
  destruct (starved_or rc) as [->|Hne2].
  { intros [= <- <-] Hn. by exfalso; apply Hn. }
  destruct (read_bulks_settled _ r2 t e _ _ H1 Ec Hne2) as [-> Hf2].
  destruct rc; by intros [= <- <-] _.
Qed.

(** ** The flusher keeps the stream *)

Section flusher.
Context {S : Type} `{!Sink S} `{!SinkLaws S}.

(** The flusher knows of every failed write, and what it has sent and holds is [sent]. *)
Definition carries (f : connFlusher S) (sent : bytes) : Prop :=
  fits (fl_w f) /\ bw_ok (fl_w f) = negb (fl_failed f) /\
  (fl_failed f = false -> total (fl_w f) = sent) /\ delivered (fl_w f) `prefix_of` sent.

Lemma carries_flush f sent ok f' : carries f sent -> flush f = (ok, f') ->
  carries f' sent /\ ok = negb (fl_failed f') /\
  (ok = true -> bw_buf (fl_w f') = [] /\ delivered (fl_w f') = sent) /\
  (Infallible S -> fl_failed f = false -> ok = true).
Proof.
  intros Hc. destruct (Hc) as (Hf & Hok & Ht & Hd). rw /flush. destruct (fl_failed f) eqn:Hfail.
  { intros [= <- <-]. by rw Hfail. }
  specialize (Ht eq_refl). case_cmp.
  - intros [= <- <-]. rw Hfail. have Hb : bw_buf (fl_w f) = [].
    { rw /Buffered /len in e. by destruct (bw_buf (fl_w f)); simpl in *; [|lia]. }
    split_and!; try done. by rw -Ht /total Hb app_nil_r.
  - pose proof (emits_flush (fl_w f) Hf) as HF. move: HF. destruct (Flush (fl_w f)) as [b w'] eqn:Ef.
    intros (F1 & F2 & _ & F3 & F4 & F5). rw !app_nil_r in F4. subst sent.
    destruct b; intros [= <- <-]; cbn [fl_w fl_failed].
    + have E : delivered w' = total (fl_w f) by rw -F4 /total (flush_empty _ _ Ef) app_nil_r.
      split; [by split_and!; try done; cbn [fl_w]; rw E|]. split_and!; try done. intros _. split; [|done].
      by eapply flush_empty.
    + split; [by split_and!|]. split_and!; try done. intros Hin _. by apply F5.
Qed.

Lemma carries_write m bs f sent ok f' : emits m bs -> carries f sent -> on_writer m f = (ok, f') ->
  carries (if ok then f' else fail_ f') (sent ++ bs) /\ (ok = true -> fl_failed f' = false) /\
  (Infallible S -> fl_failed f = false -> ok = true).
Proof.
  intros Hm (Hf & Hok & Ht & Hd). rw /on_writer. pose proof (Hm (fl_w f) Hf) as HF. move: HF. destruct (m (fl_w f)) as [b w'].
  intros (F1 & F2 & F3 & F4 & F5 & F6) [= <- <-]. destruct (fl_failed f) eqn:Hfail; cbn [negb] in Hok.
  - have E := F3 Hok. subst w'. rw Hok in F2. subst b. cbn [fail_ fl_w fl_failed]. split_and!; try done.
    split_and!; try done. by apply prefix_app_r.
  - specialize (Ht eq_refl). subst sent. destruct b; cbn [fail_ fl_w fl_failed]; split_and!; try done.
    + split_and!; try done. rw -F5 /total. by apply prefix_app_r.
    + intros Hin _. by apply F6.
Qed.

(** The same at the end of a connection, when the flusher may not know of a last failed
    write. *)
Definition closes (f : connFlusher S) (sent : bytes) : Prop :=
  fits (fl_w f) /\ (bw_ok (fl_w f) = true -> fl_failed f = false /\ total (fl_w f) = sent) /\
  delivered (fl_w f) `prefix_of` sent.

Lemma carries_closes f sent : carries f sent -> closes f sent.
Proof. intros (Hf & Hok & Ht & Hd). split_and!; try done. intros E. rw Hok in E. destruct (fl_failed f); auto. Qed.

Lemma closes_write m bs f sent : emits m bs -> carries f sent -> closes (on_writer m f).2 (sent ++ bs).
Proof.
  intros Hm Hc. destruct (on_writer m f) as [ok f'] eqn:E.
  destruct (carries_write _ _ _ _ _ _ Hm Hc E) as ((H1 & H2 & H3 & H4) & H5 & _).
  destruct ok; [by apply carries_closes|]. cbn [fail_ fl_w fl_failed negb] in *. split_and!; try done.
  intros Hok. cbn [snd] in Hok. congruence.
Qed.

Lemma closes_flush f sent : closes f sent -> closes (flush f).2 sent /\
  (Infallible S -> bw_ok (fl_w f) = true -> delivered (fl_w (flush f).2) = sent).
Proof.
  intros Hc. destruct (Hc) as (Hf & Ht & Hd). rw /flush. destruct (fl_failed f) eqn:Hfail.
  { split; [done|]. intros _ Hok. by destruct (Ht Hok). }
  case_cmp; cbn [snd].
  - split; [done|]. intros _ Hok. destruct (Ht Hok) as [_ <-]. rw /Buffered /len in e.
    rw /total /delivered. destruct (bw_buf (fl_w f)); [by rw app_nil_r|simpl in e; lia].
  - pose proof (emits_flush (fl_w f) Hf) as HF. move: HF. destruct (Flush (fl_w f)) as [b w'] eqn:Ef.
    intros (F1 & F2 & F3 & F4 & F5 & F6). rw !app_nil_r in F5. destruct (bw_ok (fl_w f)) eqn:Hok.
    + destruct (Ht eq_refl) as [_ <-]. destruct b; cbn [snd fl_w fl_failed].
      * have E : delivered w' = total (fl_w f) by rw -F5 /total (flush_empty _ _ Ef) app_nil_r.
        split; [|done]. split_and!; try done. cbn [fl_w]. by rw E.
      * split; [split_and!; try done; cbn [fl_w]; congruence|]. intros Hin _. by pose proof (F6 Hin eq_refl).
    + have E := F3 eq_refl. subst w'. rw Hok in F2. subst b. cbn [snd fl_w]. split; [|done].
      split_and!; try done. cbn [fl_w]. congruence.
Qed.

Lemma carries_new s : carries (mkFlusher (NewWriter s) false) (sink_out s).
Proof. split_and!; try done; rw /total /delivered /= ?app_nil_r //. Qed.
End flusher.

(** ** The loop *)

Section serve_spec.
Context {L : Type} `{!Logger L} {S : Type} `{!Sink S} `{!SinkLaws S}.
Variable flushEveryReply : bool.

(** Everything the client sends from here on, as one stream. *)
Definition whole (c : conn L S) : Reader :=
  with_br (rd c) (mkStream (got c ++ concat (chunks c)) (last c)).

(** At every [Read] so far the client had received all replies. *)
Definition waits_ok (d0 : bytes) (c : conn L S) : Prop :=
  Forall (fun '(d, rs) => d = d0 ++ enc_replies rs) (waits c).

(** The state at the top of the loop. *)
Definition sound (d0 : bytes) (c : conn L S) : Prop :=
  carries (fl c) (d0 ++ enc_replies (answered c)) /\ waits_ok d0 c /\
  (flushEveryReply = true -> fl_failed (fl c) = false -> bw_buf (fl_w (fl c)) = []).

(** The flush in front of a [Read]. *)
Lemma flush_before_read d0 c ok f : sound d0 c -> fl_failed (fl c) = false ->
  (if flushEveryReply then (true, fl c) else flush (fl c)) = (ok, f) ->
  carries f (d0 ++ enc_replies (answered c)) /\ ok = negb (fl_failed f) /\
  (ok = true -> bw_buf (fl_w f) = [] /\ delivered (fl_w f) = d0 ++ enc_replies (answered c)) /\
  (Infallible S -> ok = true).
Proof.
  intros (Hc & _ & Hb) Hnf. destruct flushEveryReply.
  - intros [= <- <-]. rw Hnf. split_and!; try done. intros _. specialize (Hb eq_refl Hnf). split; [done|].
    destruct Hc as (_ & _ & Ht & _). rw -(Ht Hnf) /total Hb app_nil_r //.
  - intros E. destruct (carries_flush _ _ _ _ Hc E) as (H1 & H2 & H3 & H4). by auto.
Qed.

Lemma sound_flushed d0 c : carries (fl c) (d0 ++ enc_replies (answered c)) ->
  fl_failed (fl c) = true \/ bw_buf (fl_w (fl c)) = [] -> waits_ok d0 c -> sound d0 c.
Proof. intros Hc Hf Hw. split_and!; [done|done|]. intros _ Hn. rw Hn in Hf. by destruct Hf. Qed.

Lemma waits_ok_snoc d0 c c' d : waits_ok d0 c -> waits c' = waits c ++ [(d, answered c)] ->
  d = d0 ++ enc_replies (answered c) -> waits_ok d0 c'.
Proof. rw /waits_ok => Hw -> ->. apply Forall_app. split; [done|]. by constructor. Qed.

(** A request that was complete in what the reader held. *)
Lemma request_at_hand c r0 rd0 (k : conn L S) :
  ReadCommand (with_br (rd c) (mkStream (got c) Transport)) = (r0, rd0) -> ~ starved r0 ->
  k = mkConn (rest (br rd0)) (chunks c) (last c) rd0 (fl c) (eng c) (answered c) (waits c) ->
  ReadCommand (whole c) = (r0, whole k).
Proof.
  intros E Hns ->. destruct (ReadCommand_settled (with_br (rd c) (mkStream (got c) Transport)) (concat (chunks c)) (last c)
    r0 rd0 eq_refl E Hns) as [E' _].
  exact E'.
Qed.

(** [next_request] reads what [ReadCommand] would read from the whole stream, however it
    arrives in chunks, or fails because a flush failed. *)
Lemma next_request_spec d0 cs : forall c res c', chunks c = cs -> sound d0 c -> fl_failed (fl c) = false ->
  next_request flushEveryReply cs c = (res, c') ->
  sound d0 c' /\ last c' = last c /\ eng c' = eng c /\ answered c' = answered c /\
  ((starved res /\ fl_failed (fl c') = true) \/
   (fl_failed (fl c') = false /\ res = (ReadCommand (whole c)).1 /\
    forall args, res = Ret args -> whole c' = (ReadCommand (whole c)).2)) /\
  (Infallible S -> fl_failed (fl c') = false).
Proof.
  induction cs as [|d cs IH] => c res c' Hcs Hs Hnf; cbn [next_request];
    set r := with_br (rd c) (mkStream (got c) Transport);
    destruct (ReadCommand r) as [r0 rd0] eqn:Er; destruct (starved_or r0) as [->|Hns].
  1, 3: destruct (if flushEveryReply then _ else _) as [ok f] eqn:Ef;
    destruct (flush_before_read _ _ _ _ Hs Hnf Ef) as (H1 & H2 & H3 & H4); destruct (Hs) as (_ & Hwt & _);
    (destruct ok; cbn [negb];
     [destruct (H3 eq_refl) as [Hnil Hdel]; have Hff : fl_failed f = false by destruct (fl_failed f)
     |intros [= <- <-]; have Hff : fl_failed f = true by destruct (fl_failed f)]).
  2, 4: split_and!; try done; [by apply sound_flushed; auto|by left|intros Hin; by pose proof (H4 Hin)].
  - (* the stream ends *)
    have Hw : whole c = with_br (rd c) (mkStream (got c) (last c)) by rw /whole Hcs app_nil_r.
    rw -Hw. destruct (ReadCommand (whole c)) as [res1 r1] eqn:E1. intros [= <- <-]. split_and!; try done.
    + apply sound_flushed; [done|by right|by eapply waits_ok_snoc].
    + right. split_and!; try done. intros args ->. apply ReadCommand_inv in E1 as (_ & _ & Hfin & _).
      rw /whole. cbn [rd got chunks last snd concat]. rw app_nil_r. rw Hw in Hfin. cbn [br with_br fin] in Hfin.
      rw -Hfin. by destruct r1 as [[? ?] ? ? ? ?].
  - (* another chunk arrives *)
    set c1 := mkConn _ cs _ _ _ _ _ _. intros E. have Hw : whole c1 = whole c.
    { rw /whole /c1 Hcs. cbn [rd got chunks last concat]. by rw -app_assoc. }
    rw -Hw. apply (IH c1) in E; [done|done| |done].
    apply sound_flushed; [done|by right|by eapply waits_ok_snoc].
  - set k := mkConn (rest (br rd0)) [] _ _ _ _ _ _. intros E.
    have {}E : (r0, k) = (res, c') by rw -E; destruct r0 as [|[| |[]]]. injection E as <- <-.
    pose proof (request_at_hand c r0 rd0 k Er Hns ltac:(by rw Hcs)) as Ek. rw Ek. split_and!; try done. by right.
  - set k := mkConn (rest (br rd0)) (d :: cs) _ _ _ _ _ _. intros E.
    have {}E : (r0, k) = (res, c') by rw -E; destruct r0 as [|[| |[]]]. injection E as <- <-.
    pose proof (request_at_hand c r0 rd0 k Er Hns ltac:(by rw Hcs)) as Ek. rw Ek. split_and!; try done. by right.
Qed.

(** ** The reference: requests one after the other, no sockets *)

Definition prepend (reply : Reply) (x : option (run (list Reply * Engine L * option read_err))) :
    option (run (list Reply * Engine L * option read_err)) :=
  match x with
  | Some (Done (rs, e, stop)) => Some (Done (reply :: rs, e, stop))
  | other => other
  end.

Fixpoint reference (turns : nat -> turn L) (fuel : nat) (i : nat) (r : Reader) (e : Engine L) :
    option (run (list Reply * Engine L * option read_err)) :=
  match fuel with
  | O => None
  | Datatypes.S fuel =>
      if tn_drain (turns i) then Some (Done ([], e, None))
      else
        match ReadCommand r with
        | (Fail err, _) => Some (Done ([], e, Some err))
        | (Ret args, r) =>
            match Dispatch (tn_env (turns i)) args (tn_others (turns i) e) with
            | Panics => Some Panics
            | Spins => Some Spins
            | Done (reply, e) =>
                prepend reply (reference turns fuel (Datatypes.S i) r e)
            end
        end
  end.

(** What the server tells the client about the error that ends the connection. *)
Definition error_line (stop : option read_err) : bytes :=
  match stop with
  | Some (ProtocolError msg _) => enc_line "-" (str "ERR Protocol error: " ++ msg)
  | _ => []
  end.

Definition reply_stream (d0 : bytes) (c : conn L S) (stop : option read_err) : bytes :=
  (d0 ++ enc_replies (answered c)) ++ error_line stop.

Lemma report_spec d0 c err : sound d0 c ->
  closes (fl (reportReadError err c)) (reply_stream d0 c (Some err)) /\ waits_ok d0 (reportReadError err c) /\
  answered (reportReadError err c) = answered c /\ eng (reportReadError err c) = eng c /\
  (Infallible S -> fl_failed (fl c) = false -> bw_ok (fl_w (fl (reportReadError err c))) = true).
Proof.
  intros (Hc & Hw & _). rw /reply_stream. destruct (Hc) as (_ & Hok & _).
  destruct err as [|msg b|e]; cbn [reportReadError error_line]; rw ?app_nil_r.
  1, 3: split_and!; try done; [by apply carries_closes|by rw Hok => _ ->].
  set m := WriteError _. have Hm : emits m (enc_line "-" (str "ERR Protocol error: " ++ msg)) by apply emits_prefixed.
  pose proof (closes_write m _ _ _ Hm Hc) as H1. destruct (on_writer m (fl c)) as [ok f] eqn:E.
  cbn [snd] in H1. destruct (closes_flush _ _ H1) as [H2 _]. split_and!; try done. intros Hin Hnf.
  destruct (carries_write _ _ _ _ _ _ Hm Hc E) as (H3 & _ & H4). rw (H4 Hin Hnf) in H3.
  destruct (flush f) as [ok' f'] eqn:Ef. destruct (carries_flush _ _ _ _ H3 Ef) as ((_ & H5 & _) & H6 & _ & H7).
  cbn [with_fl fl snd]. rw H5 -H6. apply (H7 Hin). destruct H3 as (_ & H3 & _).
  cbn [on_writer] in E. rw /on_writer in E. destruct (m (fl_w (fl c))). by injection E as _ <-.
Qed.

(** One command: the reply goes behind the others. *)
Lemma answer_spec d0 c reply ok f e : sound d0 c -> on_writer (writeReply reply) (fl c) = (ok, f) ->
  let k f := mkConn (got c) (chunks c) (last c) (rd c) f e (answered c ++ [reply]) (waits c) in
  carries (if ok then f else fail_ f) (d0 ++ enc_replies (answered c ++ [reply])) /\
  (forall g, waits_ok d0 (k g)) /\ (ok = true -> fl_failed f = false) /\
  (Infallible S -> fl_failed (fl c) = false -> ok = true).
Proof.
  intros (Hc & Hw & _) E k. rw enc_replies_app enc_replies_one app_assoc.
  destruct (carries_write _ _ _ _ _ _ (emits_writeReply reply) Hc E) as (H1 & H2 & H3). done.
Qed.

(** Whatever the sink does, what the loop leaves is a prefix of the replies. *)
Lemma serve_sound d0 turns fuel : forall i c c', sound d0 c -> fl_failed (fl c) = false ->
  serve flushEveryReply turns fuel i c = Some (Done c') ->
  exists stop, closes (fl c') (reply_stream d0 c' stop) /\ waits_ok d0 c'.
Proof.
  induction fuel as [|fuel IH] => i c c' Hs Hnf; cbn [serve]; [done|].
  destruct (tn_drain (turns i)).
  { intros [= <-]. destruct Hs as (Hc & Hw & _). exists None. split; [|done].
    rw /reply_stream /= app_nil_r. by apply carries_closes. }
  destruct (next_request flushEveryReply (chunks c) c) as [res c1] eqn:En.
  destruct (next_request_spec d0 (chunks c) c res c1 eq_refl Hs Hnf En) as (Hs1 & _ & _ & _ & Hres & _).
  destruct res as [args|err].
  2:{ intros [= <-]. destruct (report_spec d0 c1 err Hs1) as (H1 & H2 & H3 & _).
      exists (Some err). rw /reply_stream H3. done. }
  destruct (Dispatch _ args _) as [[reply e]| |]; [|done..].
  destruct (on_writer (writeReply reply) (fl c1)) as [ok f] eqn:Ew.
  destruct (answer_spec d0 c1 reply ok f e Hs1 Ew) as (H1 & H2 & H3 & _). destruct ok; cbn [negb].
  2:{ intros [= <-]. exists None. split; [|apply H2]. rw /reply_stream /= app_nil_r. by apply carries_closes. }
  destruct flushEveryReply eqn:Hfe.
  - destruct (flush f) as [ok f'] eqn:Ef. destruct (carries_flush _ _ _ _ H1 Ef) as (F1 & F2 & F3 & _).
    destruct ok; cbn [negb].
    + apply IH; [|cbn [fl]; by destruct (fl_failed f')]. destruct (F3 eq_refl) as [Hnil _].
      apply sound_flushed; [done|by right|apply H2].
    + intros [= <-]. exists None. split; [|apply H2]. rw /reply_stream /= app_nil_r. by apply carries_closes.
  - apply IH; [|by apply H3]. split_and!; [done|apply H2|congruence].
Qed.

(** The loop's outcome is the reference's, and its writer holds or has sent the replies. *)
Definition agrees (d0 : bytes) (before : list Reply) (x : option (run (conn L S)))
    (y : option (run (list Reply * Engine L * option read_err))) : Prop :=
  match x, y with
  | Some (Done c'), Some (Done (rs, e, stop)) =>
      answered c' = before ++ rs /\ eng c' = e /\
      closes (fl c') (reply_stream d0 c' stop) /\ bw_ok (fl_w (fl c')) = true
  | Some Panics, Some Panics | Some Spins, Some Spins | None, None => True
  | _, _ => False
  end.

Lemma agrees_cons d0 before reply x y : agrees d0 (before ++ [reply]) x y ->
  agrees d0 before x (prepend reply y).
Proof.
  rw /agrees /prepend. destruct x as [[c'| |]|], y as [[[[rs e'] stop]| |]|]; try done. by rw -app_assoc.
Qed.

(** Over a sink that takes everything, the loop does what the reference does. *)
Lemma serve_reference (Hin : Infallible S) d0 turns fuel : forall i c, sound d0 c -> fl_failed (fl c) = false ->
  agrees d0 (answered c) (serve flushEveryReply turns fuel i c) (reference turns fuel i (whole c) (eng c)).
Proof.
  induction fuel as [|fuel IH] => i c Hs Hnf; cbn [serve reference]; [done|].
  destruct (tn_drain (turns i)).
  { destruct Hs as (Hc & _). split_and!; [by rw app_nil_r|done| |by destruct Hc as (_ & -> & _); rw Hnf].
    rw /reply_stream /= app_nil_r. by apply carries_closes. }
  destruct (next_request flushEveryReply (chunks c) c) as [res c1] eqn:En.
  destruct (next_request_spec d0 (chunks c) c res c1 eq_refl Hs Hnf En) as (Hs1 & _ & He & Ha & Hres & Hf1).
  specialize (Hf1 Hin). destruct Hres as [[_ ?]|(_ & Hres & Hw)]; [congruence|].
  destruct (ReadCommand (whole c)) as [res0 r0] eqn:Er. cbn [fst snd] in *. subst res0.
  destruct res as [args|err].
  2:{ destruct (report_spec d0 c1 err Hs1) as (H1 & H2 & H3 & H4 & H5).
      rw /agrees app_nil_r H3 H4 /reply_stream H3 -/(reply_stream d0 c1 (Some err)). by auto. }
  rw -(Hw args) // He. destruct (Dispatch _ args _) as [[reply e]| |]; [|done..].
  destruct (on_writer (writeReply reply) (fl c1)) as [ok f] eqn:Ew.
  destruct (answer_spec d0 c1 reply ok f e Hs1 Ew) as (H1 & H2 & H3 & H4). rw (H4 Hin Hf1) in H1 H3 |- *.
  cbn [negb]. specialize (H3 eq_refl).
  have Hstep g : carries g (d0 ++ enc_replies (answered c1 ++ [reply])) -> fl_failed g = false ->
    (flushEveryReply = true -> bw_buf (fl_w g) = []) ->
    let k := mkConn (got c1) (chunks c1) (last c1) (rd c1) g e (answered c1 ++ [reply]) (waits c1) in
    agrees d0 (answered c ++ [reply]) (serve flushEveryReply turns fuel (Datatypes.S i) k)
      (reference turns fuel (Datatypes.S i) (whole c1) e).
  { intros Hg Hgf Hb k. have Hk : sound d0 k by split_and!; [done|apply H2|by auto].
    pose proof (IH (Datatypes.S i) k Hk Hgf) as H. rw -Ha. exact H. }
  apply agrees_cons. destruct flushEveryReply eqn:Hfe; [|by apply Hstep; [..|congruence]].
  destruct (flush f) as [ok' f'] eqn:Ef. destruct (carries_flush _ _ _ _ H1 Ef) as (F1 & F2 & F3 & F4).
  rw (F4 Hin H3) in F2 F3 |- *. cbn [negb]. destruct (F3 eq_refl) as [Hnil _].
  apply Hstep; [done|by destruct (fl_failed f')|done].
Qed.

(** ** Termination *)

Lemma ReadCommand_shrinks r args r' : ReadCommand r = (Ret args, r') -> len (rest (br r')) < len (rest (br r)).
Proof.
  intros (_ & _ & _ & w & (h & cs & _ & _ & ->) & ->)%ReadCommand_inv. cbn [app]. rw len_cons len_app.
  have := len_nonneg (h ++ CRLF ++ concat cs). lia.
Qed.

Lemma next_request_eng cs : forall (c : conn L S) res c', next_request flushEveryReply cs c = (res, c') -> eng c' = eng c.
Proof.
  induction cs as [|d cs IH] => c res c'; cbn [next_request];
    destruct (ReadCommand (with_br (rd c) (mkStream (got c) Transport))) as [[args|[|msg g|[]]] r]; try (by intros [= _ <-]).
  - destruct (if flushEveryReply then _ else _) as [ok f]. destruct (negb ok); [by intros [= _ <-]|].
    destruct (ReadCommand (with_br (rd c) (mkStream (got c) (last c)))) as [res1 r1]. by intros [= _ <-].
  - destruct (if flushEveryReply then _ else _) as [ok f]. destruct (negb ok); [by intros [= _ <-]|]. by intros ->%IH.
Qed.

Lemma serve_no_panic turns fuel : forall i c, serve flushEveryReply turns fuel i c <> Some Panics.
Proof.
  induction fuel as [|fuel IH] => i c; cbn [serve]; [done|]. destruct (tn_drain _); [done|].
  destruct (next_request _ _ _) as [[args|err] c1]; [|done].
  destruct (Dispatch _ _ _) as [[r e]| |] eqn:E; [|by apply Dispatch_no_panic in E|done].
  destruct (on_writer _ _) as [ok f]. destruct (negb ok); [done|]. destruct flushEveryReply; [|apply IH].
  destruct (flush f) as [ok' f']. destruct (negb ok'); [done|apply IH].
Qed.

(** With sources that offer a usable token no command keeps running. *)
Lemma serve_no_spin n turns fuel : 0 <= n -> (forall i, offers n (env_tokens (tn_env (turns i)))) ->
  (forall i e, at_most n (scanSessions e) -> at_most n (scanSessions (tn_others (turns i) e))) ->
  forall i (c : conn L S), at_most n (scanSessions (eng c)) -> serve flushEveryReply turns fuel i c <> Some Spins.
Proof.
  intros Hn Hof Hoth. induction fuel as [|fuel IH] => i c Hm; cbn [serve]; [done|]. destruct (tn_drain _); [done|].
  destruct (next_request flushEveryReply (chunks c) c) as [[args|err] c1] eqn:En; [|done].
  have Hc1 : eng c1 = eng c by eapply next_request_eng.
  have Hm1 := Hoth i _ Hm. rw -Hc1 in Hm1.
  destruct (Dispatch _ _ _) as [[r e]| |] eqn:E; [|done|].
  2:{ exfalso. apply Dispatch_spins in E. by eapply offers_enough. }
  have Hm2 := Dispatch_at_most n _ _ _ _ _ Hn Hm1 E.
  destruct (on_writer _ _) as [ok f]. destruct (negb ok); [done|]. destruct flushEveryReply; [|by apply IH].
  destruct (flush f) as [ok' f']. destruct (negb ok'); [done|by apply IH].
Qed.

Lemma serve_ends d0 turns fuel : forall i c, sound d0 c -> fl_failed (fl c) = false ->
  len (rest (br (whole c))) < Z.of_nat fuel -> serve flushEveryReply turns fuel i c <> None.
Proof.
  induction fuel as [|fuel IH] => i c Hs Hnf Hl; cbn [serve].
  { have := len_nonneg (rest (br (whole c))). lia. }
  destruct (tn_drain (turns i)); [done|].
  destruct (next_request flushEveryReply (chunks c) c) as [res c1] eqn:En.
  destruct (next_request_spec d0 (chunks c) c res c1 eq_refl Hs Hnf En) as (Hs1 & _ & _ & _ & Hres & _).
  destruct res as [args|err]; [|done]. destruct Hres as [[? _]|(Hf1 & Hres & Hw)]; [done|].
  destruct (Dispatch _ args _) as [[reply e]| |]; [|done..].
  destruct (on_writer (writeReply reply) (fl c1)) as [ok f] eqn:Ew.
  destruct (answer_spec d0 c1 reply ok f e Hs1 Ew) as (H1 & H2 & H3 & _). destruct ok; cbn [negb]; [|done].
  destruct (ReadCommand (whole c)) as [res0 r0] eqn:Er. cbn [fst snd] in *. subst res0.
  apply ReadCommand_shrinks in Er. rw -(Hw args) // in Er.
  destruct flushEveryReply eqn:Hfe.
  - destruct (flush f) as [ok f'] eqn:Ef. destruct (carries_flush _ _ _ _ H1 Ef) as (F1 & F2 & F3 & _).
    destruct ok; cbn [negb]; [|done]. destruct (F3 eq_refl) as [Hnil _].
    apply IH; [|by cbn [fl]; destruct (fl_failed f')|change (len (rest (br (whole c1))) < Z.of_nat fuel); lia].
    apply sound_flushed; [done|by right|apply H2].
  - apply IH; [|by apply H3|change (len (rest (br (whole c1))) < Z.of_nat fuel); lia].
    split_and!; [done|apply H2|congruence].
Qed.
End serve_spec.

(** ** Theorems *)

Section conn_theorems.
Context {L : Type} `{!Logger L} {S : Type} `{!Sink S} `{!SinkLaws S}.

Lemma sound_start flushEveryReply sent end_ limits s (e : Engine L) :
  sound flushEveryReply (sink_out s)
    (mkConn [] sent end_ (NewReader (mkStream [] Transport) limits) (mkFlusher (NewWriter s) false) e [] []).
Proof. split_and!; [|by constructor|done]. rw app_nil_r. apply carries_new. Qed.

(** The requests one after the other on the engine. *)
Fixpoint run_all (turns : nat -> turn L) (i : nat) (reqs : list (list bytes)) (e : Engine L) :
    run (list Reply * Engine L) :=
  match reqs with
  | [] => Done ([], e)
  | args :: reqs =>
      match Dispatch (tn_env (turns i)) args (tn_others (turns i) e) with
      | Panics => Panics
      | Spins => Spins
      | Done (reply, e) =>
          match run_all turns (Datatypes.S i) reqs e with
          | Done (rs, e) => Done (reply :: rs, e)
          | other => other
          end
      end
  end.

Lemma reference_run_all turns reqs : forall fuel i r e, (length reqs < fuel)%nat ->
  (forall j, tn_drain (turns j) = false) -> Forall (within (limits r)) reqs ->
  br r = mkStream (concat (enc_frame <$> reqs)) EOF ->
  reference turns fuel i r e =
    match run_all turns i reqs e with
    | Done (rs, e) => Some (Done (rs, e, Some Eof))
    | Panics => Some Panics
    | Spins => Some Spins
    end.
Proof.
  induction reqs as [|args reqs IH] => fuel i r e Hf Hd Hw Hr;
    (destruct fuel as [|fuel]; [simpl in Hf; lia|]); cbn [reference run_all]; rw Hd.
  - rw /ReadCommand Hr (readLine_torn [] EOF) //. apply not_elem_of_nil.
  - inversion Hw as [|? ? Hargs Hrest]; subst.
    destruct (ReadCommand_ok r args (concat (enc_frame <$> reqs)) Hargs) as (r' & -> & Hr' & Hlim).
    { by rw Hr. }
    destruct (Dispatch _ args _) as [[reply e']| |]; [|done..].
    rw (IH fuel (Datatypes.S i) r' e'); [simpl in Hf; lia|done|by rw Hlim|by rw Hr' Hr|].
    by destruct (run_all turns (Datatypes.S i) reqs e') as [[rs e'']| |].
Qed.

Lemma run_all_length turns reqs : forall i e rs e', run_all turns i reqs e = Done (rs, e') -> length rs = length reqs.
Proof.
  induction reqs as [|args reqs IH] => i e rs e'; cbn [run_all]; [by intros [= <- _]|].
  destruct (Dispatch _ args _) as [[reply e1]| |]; [|done..].
  destruct (run_all turns (Datatypes.S i) reqs e1) as [[rs1 e2]| |] eqn:E; [|done..].
  intros [= <- _]. simpl. by rw (IH _ _ _ _ E).
Qed.

(** The connection's outcome against the reference's. *)
Definition same_outcome (s : S) (x : option (run (conn L S)))
    (y : option (run (list Reply * Engine L * option read_err))) : Prop :=
  match x, y with
  | Some (Done c), Some (Done (rs, e, stop)) =>
      delivered (fl_w (fl c)) = sink_out s ++ enc_replies rs ++ error_line stop /\ eng c = e
  | Some Panics, Some Panics | Some Spins, Some Spins | None, None => True
  | _, _ => False
  end.

Lemma handleConn_reference (Hin : Infallible S) flushEveryReply turns fuel limits sent end_ s (e : Engine L) :
  same_outcome s (handleConn flushEveryReply turns fuel limits sent end_ s e)
    (reference turns fuel 0 (NewReader (mkStream (concat sent) end_) limits) e).
Proof.
  rw /handleConn /serveConn. set c0 := mkConn _ _ _ _ _ _ _ _.
  pose proof (serve_reference flushEveryReply Hin (sink_out s) turns fuel 0 c0
    (sound_start _ _ _ _ _ _) eq_refl) as H.
  change (whole c0) with (NewReader (mkStream (concat sent) end_) limits) in H. change (eng c0) with e in H.
  rw /same_outcome. destruct (serve _ _ _ _ _) as [[c'| |]|], (reference _ _ _ _ _) as [[[[rs e'] stop]| |]|]; try done.
  destruct H as (Ha & He & Hc & Hok). split; [|done].
  destruct (closes_flush _ _ Hc) as [_ H]. rw (H Hin Hok) /reply_stream Ha /= app_assoc //.
Qed.

(** C5. A connection answers its requests, in order, and nothing else. However the client's
    bytes arrive (one request at a time, many in a packet, a request cut anywhere), with
    replies flushed one by one or held until the reader would wait: what the client
    receives is exactly the encoding of the replies that dispatching the decoded requests
    one after the other gives, ended by the protocol error if there was one, and the engine
    is left as that leaves it. *)
Theorem connection_refines_reference (Hin : Infallible S) flushEveryReply turns fuel limits sent end_ s (e : Engine L) :
  same_outcome s (handleConn flushEveryReply turns fuel limits sent end_ s e)
    (reference turns fuel 0 (NewReader (mkStream (concat sent) end_) limits) e).
Proof. by apply handleConn_reference. Qed.

(** Pipelining: a client that sends well-formed requests within the limits, packed into
    chunks in any way, and then closes, receives one reply per request, in the order of
    the requests. *)
Theorem pipelined_requests_answered (Hin : Infallible S) flushEveryReply turns fuel limits reqs sent s (e : Engine L) :
  Forall (within limits) reqs -> concat sent = concat (enc_frame <$> reqs) ->
  (forall j, tn_drain (turns j) = false) -> (length reqs < fuel)%nat ->
  match handleConn flushEveryReply turns fuel limits sent EOF s e, run_all turns 0 reqs e with
  | Some (Done c), Done (rs, e') =>
      delivered (fl_w (fl c)) = sink_out s ++ enc_replies rs /\ eng c = e' /\ length rs = length reqs
  | Some Panics, Panics | Some Spins, Spins => True
  | _, _ => False
  end.
Proof.
  intros Hw Hs Hd Hf. pose proof (handleConn_reference Hin flushEveryReply turns fuel limits sent EOF s e) as H.
  rw (reference_run_all turns reqs fuel 0) // in H; [by rw /NewReader Hs|].
  rw /same_outcome in H. destruct (handleConn _ _ _ _ _ _ _ _) as [[c| |]|]; try (by destruct (run_all _ _ _ _) as [[]| |]).
  destruct (run_all turns 0 reqs e) as [[rs e']| |] eqn:Er; [|done..]. destruct H as [-> ->].
  rw /= app_nil_r. split_and!; [done..|]. by eapply run_all_length.
Qed.

(** C14. No client waits for a reply the server is sitting on: over any socket, failing or
    not, whenever the server asks the socket for more bytes, the replies to all the
    requests it has read so far have been delivered in full; and at all times what has been
    delivered is a prefix of the intended replies, so a client never sees the remains of
    a reply whose writing failed followed by something else. *)
Theorem replies_delivered_before_waiting flushEveryReply turns fuel limits sent end_ s (e : Engine L) c :
  handleConn flushEveryReply turns fuel limits sent end_ s e = Some (Done c) ->
  Forall (fun '(received, replies) => received = sink_out s ++ enc_replies replies) (waits c) /\
  exists stop, delivered (fl_w (fl c)) `prefix_of` sink_out s ++ enc_replies (answered c) ++ error_line stop.
Proof.
  rw /handleConn /serveConn. set c0 := mkConn _ _ _ _ _ _ _ _.
  destruct (serve _ _ _ _ c0) as [[c'| |]|] eqn:Es; try done. intros [= <-].
  destruct (serve_sound flushEveryReply (sink_out s) turns fuel 0 c0 c' (sound_start _ _ _ _ _ _) eq_refl Es)
    as (stop & Hc & Hw).
  split; [exact Hw|]. exists stop. destruct (closes_flush _ _ Hc) as [(_ & _ & H) _].
  by rw /reply_stream -app_assoc in H.
Qed.

(** C39. A connection comes to an end when its client does: once the stream ends, by a close,
    a reset or a deadline, the handler returns after at most one command per byte. No request
    makes it panic, so that there is nothing for [recoverConn] to recover, and none keeps it
    running: the manager never holds more than [n] sessions, its limit, and the random source
    of each command fails or offers more than [n + 1] different tokens, so that a SCAN finds
    one that is not 0 and not in use. What the other goroutines do keeps the limit, as every
    command does. *)
Theorem connection_ends n flushEveryReply turns fuel limits sent end_ s (e : Engine L) :
  len (concat sent) < Z.of_nat fuel ->
  0 <= n -> at_most n (scanSessions e) -> (forall i, offers n (env_tokens (tn_env (turns i)))) ->
  (forall i e, at_most n (scanSessions e) -> at_most n (scanSessions (tn_others (turns i) e))) ->
  exists c, handleConn flushEveryReply turns fuel limits sent end_ s e = Some (Done c).
Proof.
  intros Hf Hn Hm Hof Hoth. rw /handleConn /serveConn. set c0 := mkConn _ _ _ _ _ _ _ _.
  pose proof (serve_ends flushEveryReply (sink_out s) turns fuel 0 c0 (sound_start _ _ _ _ _ _) eq_refl Hf) as H.
  pose proof (serve_no_panic flushEveryReply turns fuel 0 c0) as Hp.
  pose proof (serve_no_spin flushEveryReply n turns fuel Hn Hof Hoth 0 c0 Hm) as Hs.
  destruct (serve _ _ _ _ c0) as [[c'| |]|]; [|done..]. by eexists.
Qed.
End conn_theorems.

(** ** Witnesses *)

(** Two pipelined requests, cut in the middle of the second. *)
Definition two_requests : list (list bytes) := [[str "SET"; str "a"; str "b"]; [str "GET"; str "a"]].
Definition two_chunks : list bytes :=
  [take 30 (concat (enc_frame <$> two_requests)); drop 30 (concat (enc_frame <$> two_requests))].
Definition quiet (n : nat) : turn sys := mkTurn false (fun e => e) (at_second 1).

Lemma two_within : Forall (within DefaultLimits) two_requests.
Proof. repeat constructor; by vm_compute. Qed.

Definition two_run : option (run (conn sys bytes)) :=
  handleConn false quiet 60 DefaultLimits two_chunks EOF [] counter_engine.
Definition two_conn : conn sys bytes :=
  match two_run with
  | Some (Done c) => c
  | _ => mkConn [] [] EOF (NewReader (mkStream [] EOF) DefaultLimits) (mkFlusher (NewWriter []) true) counter_engine [] []
  end.

(** The reply to the first request was sent when the server asked for the rest of the second. *)
Example pipelining_waits :
  delivered (fl_w (fl two_conn)) = str "+OK" ++ CRLF ++ str "$1" ++ CRLF ++ str "b" ++ CRLF /\
  (fst <$> waits two_conn) = [[]; str "+OK" ++ CRLF; delivered (fl_w (fl two_conn))].
Proof. split; vm_compute; reflexivity. Qed.

(** Two error texts that differ in a line break only. *)
Definition broken_line : list Reply := [Err [ "a"%byte; CR; "b"%byte]; Int 1].
Definition joined_line : list Reply := [Err (str "a b"); Int 1].

Lemma reply_stream_witness : broken_line <> joined_line /\ seen <$> broken_line = seen <$> joined_line.
Proof.
  split; [done|]. refine (proj2 (reply_stream_unambiguous broken_line joined_line ([] : bytes) ([] : bytes)
    (write_replies broken_line (NewWriter [])).2 true (write_replies joined_line (NewWriter [])).2 _ _ eq_refl _ _) eq_refl _);
    [repeat constructor; by vm_compute..|vm_compute; reflexivity|vm_compute; reflexivity|vm_compute; reflexivity].
Defined.

Lemma connection_refines_witness :
  same_outcome [] two_run (reference quiet 60 0 (NewReader (mkStream (concat two_chunks) EOF) DefaultLimits) counter_engine).
Proof. exact (connection_refines_reference buffer_infallible false quiet 60 DefaultLimits two_chunks EOF [] counter_engine). Defined.

Lemma pipelined_witness :
  match handleConn false quiet 60 DefaultLimits two_chunks EOF [] counter_engine, run_all quiet 0 two_requests counter_engine with
  | Some (Done c), Done (rs, e') =>
      delivered (fl_w (fl c)) = sink_out [] ++ enc_replies rs /\ eng c = e' /\ length rs = length two_requests
  | Some Panics, Panics | Some Spins, Spins => True
  | _, _ => False
  end.
Proof.
  exact (pipelined_requests_answered buffer_infallible false quiet 60 DefaultLimits two_requests two_chunks []
    counter_engine two_within eq_refl (fun _ => eq_refl) ltac:(simpl; lia)).
Defined.

Lemma replies_delivered_witness :
  Forall (fun '(received, replies) => received = sink_out (S:=bytes) [] ++ enc_replies replies) (waits two_conn).
Proof.
  refine (proj1 (replies_delivered_before_waiting false quiet 60 DefaultLimits two_chunks EOF [] counter_engine two_conn _)).
  vm_compute. reflexivity.
Defined.

(** The same connection with a SCAN, on a source that offers eighteen tokens. *)
Definition scan_chunks : list bytes := [enc_frame [str "SCAN"; str "0"]].
Definition offered (n : nat) : turn sys :=
  mkTurn false (fun e => e) (mkEnv second (fun _ => None) counter_iter 1 (Some <$> seqZ 1 18)).

Lemma connection_ends_witness : exists c, handleConn false offered 100 DefaultLimits (scan_chunks ++ two_chunks) EOF
  ([] : bytes) counter_engine = Some (Done c).
Proof.
  apply (connection_ends maxScanSessions); [by vm_compute|done|split; by vm_compute| |done].
  intros i. right. vm_compute. reflexivity.
Defined.
