(* ===== verification/System.v ===== *)
(** * From the wire to the disk

    The parts put together: clients on their connections (src/internal/server/conn.go), the
    commands they send, the engine and the log below it, a crash, and the next start. A
    command runs in two halves, as in the code: the part under the engine's lock, and the
    wait for durability outside, during which every other goroutine goes on; the reply is
    produced when the wait is over. [world] is the engine on its running log, the commands
    between their two halves, and, per connection, the commands answered so far. *)

From S2P Require Import Prelude.
From S2P Require Import GoLib.
From S2P Require Import Store.
From S2P Require Import AofCodec.
From S2P Require Import AofReplay.
From S2P Require Import AofLog.
From S2P Require Import RespWriter.
From S2P Require Import RespReader.
From S2P Require Import ScanSessions.
From S2P Require Import Engine.
From S2P Require Import Command.
From S2P Require Import Conn.
From S2P Require Import EngineRecovery.

(** A command between its two halves: its [env] (the outcome of the wait is not known yet),
    its arguments and the engine before and after the locked part. *)
Record pending_cmd := mkPendingCmd {
  pd_env : env;
  pd_args : list bytes;
  pd_before : Engine sys;
  pd_after : Engine sys
}.

(** A command that has been answered. *)
Record cmdrec := mkCmdrec {
  cr_env : env;
  cr_args : list bytes;
  cr_before : Engine sys;
  cr_after : Engine sys;
  cr_reply : Reply
}.

Record world := mkWorld {
  w_sys : esys;
  w_pend : gmap nat pending_cmd;
  w_done : gmap nat (list cmdrec)
}.

(** The records in the log of an engine. *)
Definition recs_of (e : Engine sys) : list Record_ := from_option hist [] (elog e).

(** The command put a record into the log. *)
Definition logged_cmd (before after : Engine sys) : Prop := length (recs_of after) <> length (recs_of before).

(** What [Await] returned on [l]; it does not return while it has to wait. *)
Definition awaited (l : sys) (p : Policy) (aw : Z -> option log_err) (seq : Z) : Prop :=
  match Await seq p (lg l) with
  | Some (Ret _) => aw seq = None
  | Some (Fail err) => aw seq = Some err
  | None => False
  end.

Definition trace_of (w : world) (c : nat) : list cmdrec := default [] (w_done w !! c).

(** Everything that happens up to [t]: the locked half of a command on a connection, the end
    of its wait and its answer, and whatever else goes on ([estep]). *)
Inductive wstep (t : Z) (w : world) : world -> Prop :=
| w_start c v args r e' :
    w_pend w !! c = None -> env_now v <= t -> ranges (data (store (eng (w_sys w)))) (env_iter v) ->
    Dispatch v args (eng (w_sys w)) = Done (r, e') ->
    wstep t w (mkWorld
      (mkEsys e' (snaps (w_sys w) ++ if decide (length (recs_of e') = length (recs_of (eng (w_sys w)))) then [] else [store e']))
      (<[c := mkPendingCmd v args (eng (w_sys w)) e']> (w_pend w)) (w_done w))
| w_finish c P l aw r after :
    w_pend w !! c = Some P -> elog (eng (w_sys w)) = Some l ->
    (logged_cmd (pd_before P) (pd_after P) -> awaited l (epolicy (eng (w_sys w))) aw (appliedSeq (pd_after P))) ->
    Dispatch (with_aw (pd_env P) aw) (pd_args P) (pd_before P) = Done (r, after) ->
    wstep t w (mkWorld (w_sys w) (delete c (w_pend w))
      (<[c := trace_of w c ++ [mkCmdrec (with_aw (pd_env P) aw) (pd_args P) (pd_before P) after r]]> (w_done w)))
| w_other es' : estep t (w_sys w) es' -> wstep t w (mkWorld es' (w_pend w) (w_done w)).

Definition world0 (e : Engine sys) : world := mkWorld (mkEsys e [store e]) ∅ ∅.

(** ** The invariant *)

(** The snapshot taken right after the command is number [k], as is its sequence number. *)
Definition snapped (sn : list Store) (after : Engine sys) (k : nat) : Prop :=
  sn !! k = Some (store after) /\ appliedSeq after = Z.of_nat k /\ k <> 0%nat.

Section world.
Variables (t : Z) (content : bytes) (p : Policy) (now0 : Z) (base : gmap bytes entry).

Record winv (w : world) : Prop := mkWinv {
  wi_es : esys_inv t content p now0 base (w_sys w);
  wi_policy : epolicy (eng (w_sys w)) = p;
  wi_pend c P : w_pend w !! c = Some P ->
    (exists r, Dispatch (pd_env P) (pd_args P) (pd_before P) = Done (r, pd_after P)) /\
    is_Some (elog (pd_before P)) /\
    (logged_cmd (pd_before P) (pd_after P) -> exists k, snapped (snaps (w_sys w)) (pd_after P) k);
  wi_done c cr : cr ∈ trace_of w c ->
    Dispatch (cr_env cr) (cr_args cr) (cr_before cr) = Done (cr_reply cr, cr_after cr) /\
    (logged_cmd (cr_before cr) (cr_after cr) -> cr_reply cr <> persistence_error ->
     exists k l, snapped (snaps (w_sys w)) (cr_after cr) k /\ elog (eng (w_sys w)) = Some l /\ Z.of_nat k <= marker p l)
}.

(** ** What a step of the engine leaves alone *)

Lemma mutate_policy o now (e e' : Engine sys) r : mutate o now e = (r, e') -> epolicy e' = epolicy e.
Proof.
  intros Hm. destruct (mutate_touched _ _ _ _ _ Hm) as [(st & -> & _)|(l & rec & ra & l' & _ & _ & H)]; [done|].
  destruct ra; [by destruct H as (_ & st & ->)|by destruct H as (_ & ->)].
Qed.

Lemma Dispatch_policy v args (e e' : Engine sys) r : Dispatch v args e = Done (r, e') -> epolicy e' = epolicy e.
Proof.
  intros [->|[(o & res & H)|(req & res & H)]]%Dispatch_cases; [done|by eapply mutate_policy|].
  by apply Scan_frame in H as [m ->].
Qed.

Lemma estep_frame es es' : estep t es es' -> epolicy (eng es') = epolicy (eng es) /\ snaps es `prefix_of` snaps es'.
Proof.
  intros [o now r e' l l' _ _ Hm _|iter now _ _| | | |req iter keycap now tokens r e' Hs|l l' _ _];
    try (by split); cbn [eng snaps].
  - split; [by eapply mutate_policy|by apply prefix_app_r].
  - rw /reclaimOnce. by destruct (ReclaimExpired _ _ _ _) as [[s rm] ex].
  - by apply Scan_frame in Hs as [m ->].
Qed.

Lemma Dispatch_log v args (e e' : Engine sys) r l : Dispatch v args e = Done (r, e') -> elog e = Some l ->
  exists l', elog e' = Some l' /\ rtc AofLog.step l l'.
Proof.
  intros [->|[(o & res & H)|(req & res & H)]]%Dispatch_cases Hl; [|by eapply mutate_log|].
  - exists l. split; [done|apply rtc_refl].
  - apply Scan_frame in H as [m ->]. exists l. split; [done|apply rtc_refl].
Qed.

(** The locked half of a command is a step of the engine. *)
Lemma start_es es v args r e' : env_now v <= t -> Dispatch v args (eng es) = Done (r, e') ->
  esys_inv t content p now0 base es ->
  esys_inv t content p now0 base
    (mkEsys e' (snaps es ++ if decide (length (recs_of e') = length (recs_of (eng es))) then [] else [store e'])).
Proof.
  intros Hv Hd Hi. destruct (Hi) as (l & Hl & _). apply Dispatch_cases in Hd as [->|[(o & res & H)|(req & res & H)]].
  - rw decide_True // app_nil_r. by destruct es.
  - destruct (mutate_log _ _ _ _ _ _ H Hl) as (l' & Hl' & _).
    pose proof (esys_inv_step t content p now0 base es _ Hi (estep_mutate t es o (env_now v) res e' l l' Hv Hl H Hl')) as H1.
    rw /recs_of Hl Hl'. exact H1.
  - pose proof (esys_inv_step t content p now0 base es _ Hi (estep_scan t es req _ _ _ _ res e' H)) as H1.
    apply Scan_frame in H as [m ->]. rw decide_True // app_nil_r. exact H1.
Qed.

Lemma append_seq rec l n l' : sys_append rec l = (Ret n, l') -> appended (lg l') = n.
Proof.
  rw /sys_append. destruct (Append rec (lg l)) as [res l1] eqn:E. intros [= -> <-]. cbn. move: E. rw /Append.
  repeat case_match; intros; by simplify_eq/=.
Qed.

(** A command that logs has appended one record, whose number is the engine's [appliedSeq]. *)
Lemma logged_append v args (e e' : Engine sys) r l : Dispatch v args e = Done (r, e') -> elog e = Some l ->
  logged_cmd e e' -> exists l', elog e' = Some l' /\ appended (lg l') = appliedSeq e' /\ length (hist l') = S (length (hist l)).
Proof.
  intros [->|[(o & res & H)|(req & res & H)]]%Dispatch_cases Hl Hlog; [done| |by apply Scan_frame in H as [m ->]].
  destruct (mutate_touched _ _ _ _ _ H) as [(st & -> & _)|(l0 & rec & ra & l' & Hl0 & Ha & Ht)]; [done|].
  rw Hl in Hl0. injection Hl0 as <-. rw /logged_cmd /recs_of Hl in Hlog. destruct ra as [n|err].
  - destruct Ht as (_ & st & ->). exists l'. cbn in *. split; [done|]. split; [by eapply append_seq|].
    pose proof (log_append_ok rec l n l' Ha) as E. cbn in E. by rw E length_app Nat.add_comm.
  - destruct Ht as (_ & ->). pose proof (log_append_fail rec l err l' Ha) as E. cbn in *. by rw E in Hlog.
Qed.

(** Its snapshot has that number, too. *)
Lemma start_snapped es v args r e' : [] `prefix_of` content -> env_now v <= t ->
  Dispatch v args (eng es) = Done (r, e') -> esys_inv t content p now0 base es ->
  len (recs_of e') <= maxUint64 -> logged_cmd (eng es) e' ->
  exists k, snapped (snaps es ++ if decide (length (recs_of e') = length (recs_of (eng es))) then [] else [store e']) e' k.
Proof.
  intros Hp Hv Hd Hi Hm Hlog. pose proof (start_es es v args r e' Hv Hd Hi) as (l' & Hl' & Hr' & _).
  destruct Hi as (l & Hl & Hr & Hn & _). cbn [eng] in Hl'. rw decide_False //.
  destruct (logged_append _ _ _ _ _ _ Hd Hl Hlog) as (l1 & Hl1 & Hs & Hlen). rw Hl' in Hl1. injection Hl1 as <-.
  rw /recs_of Hl' /= in Hm. destruct (inv_markers _ _ (inv_reachable _ _ _ _ _ Hp Hr' Hm)) as (_ & _ & Ha & _).
  exists (length (snaps es)). split; [by rw lookup_app_r // Nat.sub_diag|]. rw -Hs Ha /len Hlen Hn. done.
Qed.

(** ** The invariant holds throughout *)

Lemma snapped_mono sn sn' after k : sn `prefix_of` sn' -> snapped sn after k -> snapped sn' after k.
Proof. intros Hp (H1 & H2). split; [|done]. by eapply prefix_lookup_Some. Qed.

(** A step that only lets the engine and its log run on. *)
Lemma winv_mono w w' l l' : winv w -> [] `prefix_of` content -> esys_inv t content p now0 base (w_sys w') ->
  epolicy (eng (w_sys w')) = p -> snaps (w_sys w) `prefix_of` snaps (w_sys w') ->
  elog (eng (w_sys w)) = Some l -> elog (eng (w_sys w')) = Some l' -> rtc AofLog.step l l' -> len (hist l') <= maxUint64 ->
  (forall c cr, cr ∈ trace_of w c ->
     Dispatch (cr_env cr) (cr_args cr) (cr_before cr) = Done (cr_reply cr, cr_after cr) /\
     (logged_cmd (cr_before cr) (cr_after cr) -> cr_reply cr <> persistence_error ->
      exists k l, snapped (snaps (w_sys w')) (cr_after cr) k /\ elog (eng (w_sys w')) = Some l /\ Z.of_nat k <= marker p l)) /\
  (forall c P, w_pend w !! c = Some P -> logged_cmd (pd_before P) (pd_after P) ->
     exists k, snapped (snaps (w_sys w')) (pd_after P) k).
Proof.
  intros [I1 I2 I3 I4] Hp Hi Hpol Hsn Hl Hl' Hrun Hm. destruct I1 as (l0 & Hl0 & Hr & _). rw Hl in Hl0. injection Hl0 as <-.
  destruct (marker_run content p now0 l l' Hp Hr Hrun Hm) as [Hmk _]. split.
  - intros c cr Hc. destruct (I4 c cr Hc) as [H1 H2]. split; [done|]. intros Hlog Hre.
    destruct (H2 Hlog Hre) as (k & l1 & Hk & Hl1 & Hle). rw Hl in Hl1. injection Hl1 as <-.
    exists k, l'. split_and!; [by eapply snapped_mono|done|lia].
  - intros c P Hc Hlog. destruct (I3 c P Hc) as (_ & _ & H). destruct (H Hlog) as [k Hk]. exists k. by eapply snapped_mono.
Qed.

(** The wait that a command's reply stands for has reached the marker. *)
Lemma finished_marker P l pol aw r after : (exists r0, Dispatch (pd_env P) (pd_args P) (pd_before P) = Done (r0, pd_after P)) ->
  is_Some (elog (pd_before P)) ->
  Dispatch (with_aw (pd_env P) aw) (pd_args P) (pd_before P) = Done (r, after) ->
  (logged_cmd (pd_before P) (pd_after P) -> awaited l pol aw (appliedSeq (pd_after P))) ->
  after = pd_after P /\
  (logged_cmd (pd_before P) after -> r <> persistence_error -> appliedSeq after <> 0 -> appliedSeq after <= marker pol l).
Proof.
  intros [r0 H0] [l0 Hl0] Hd Haw. pose proof (Dispatch_after _ _ _ _ _ _ _ _ H0 Hd) as ->. split; [done|].
  intros Hlog Hr Hz. specialize (Haw Hlog). destruct (logged_append _ _ _ _ _ _ Hd Hl0 Hlog) as (l1 & Hl1 & _ & Hlen).
  destruct (Dispatch_waits _ _ _ l0 _ _ l1 Hl0 Hd Hl1) as (rec & seq & _ & _ & Hs & Hok); [|done|].
  { cbn. intros E. rw E in Hlen. lia. }
  rw Hs in Hz Haw |- *. specialize (Hok Hz). cbn [with_aw env_aw] in Hok. rw /awaited in Haw.
  destruct (Await seq pol (lg l)) as [[[]|err]|] eqn:E; [|congruence|done]. by apply Await_marker in E.
Qed.

Lemma winv_step w w' : [] `prefix_of` content -> winv w -> wstep t w w' -> len (recs_of (eng (w_sys w'))) <= maxUint64 -> winv w'.
Proof.
  intros Hp Hi Hs Hm. destruct (wi_es _ Hi) as (l & Hl & Hr & _).
  destruct Hs as [c v args r e' Hc Hv Hra Hd|c P l1 aw r after Hc Hl1 Haw Hd|es' Hes].
  - destruct (Dispatch_log _ _ _ _ _ _ Hd Hl) as (l' & Hl' & Hrun). cbn [w_sys eng] in Hm. rw /recs_of Hl' /= in Hm.
    pose proof (start_es _ _ _ _ _ Hv Hd (wi_es _ Hi)) as He.
    have Hpol : epolicy e' = p by rw (Dispatch_policy _ _ _ _ _ Hd); apply Hi.
    set w' := mkWorld _ _ _. destruct (winv_mono w w' l l' Hi Hp He Hpol) as [H1 H2]; try done; [by apply prefix_app_r|].
    split; [done|done| |exact H1]. cbn [w' w_pend]. intros d P HP. destruct (decide (c = d)) as [->|Hne].
    + rw lookup_insert_eq in HP. injection HP as <-. cbn [pd_env pd_args pd_before pd_after].
      split_and!; [by exists r|by rw Hl|]. intros Hlog.
      apply (start_snapped _ v args r e' Hp Hv Hd (wi_es _ Hi)); [by rw /recs_of Hl'|done].
    + rw lookup_insert_ne // in HP. destruct (wi_pend _ Hi _ _ HP) as (Ha & Hb & _). split_and!; [done..|by eapply H2].
  - destruct (wi_pend _ Hi _ _ Hc) as (H1 & H2 & H3). rw (wi_policy _ Hi) in Haw.
    destruct (finished_marker P l1 p aw r after H1 H2 Hd Haw) as [-> Hmk].
    split; [apply Hi|apply Hi| |].
    + intros d Q HQ. cbn [w_pend] in HQ. apply lookup_delete_Some in HQ as [_ HQ]. by apply (wi_pend _ Hi _ _ HQ).
    + intros d cr Hcr. rw /trace_of /= in Hcr. destruct (decide (c = d)) as [->|Hne].
      2:{ rw lookup_insert_ne // in Hcr. by apply (wi_done _ Hi d). }
      rw lookup_insert_eq /= in Hcr. apply elem_of_app in Hcr as [Hcr|Hcr]; [by apply (wi_done _ Hi d)|].
      apply list_elem_of_singleton in Hcr as ->. cbn [cr_env cr_args cr_before cr_after cr_reply w_sys]. split; [done|].
      intros Hlog Hre. destruct (H3 Hlog) as (k & Hk). exists k, l1. split_and!; [done..|].
      destruct Hk as (_ & Hk & Hk0). rw -Hk. apply Hmk; [done..|]. lia.
  - destruct (estep_frame _ _ Hes) as [Hpol Hsn]. destruct (estep_logrun _ _ _ _ Hes Hl) as (l' & Hl' & Hrun).
    cbn [w_sys] in Hm. rw /recs_of Hl' /= in Hm. pose proof (esys_inv_step _ _ _ _ _ _ _ (wi_es _ Hi) Hes) as He.
    have Hpol' : epolicy (eng es') = p by rw Hpol; apply Hi.
    set w' := mkWorld _ _ _. destruct (winv_mono w w' l l' Hi Hp He Hpol') as [H1 H2]; try done.
    split; [done|done| |exact H1]. intros d P HP. destruct (wi_pend _ Hi _ _ HP) as (Ha & Hb & _).
    split_and!; [done..|by eapply H2].
Qed.

(** The log stays, and never shrinks. *)
Lemma wstep_recs w w' l : elog (eng (w_sys w)) = Some l -> wstep t w w' ->
  exists l', elog (eng (w_sys w')) = Some l' /\ hist l `prefix_of` hist l'.
Proof.
  intros Hl Hs. have Hpre l' : rtc AofLog.step l l' -> hist l `prefix_of` hist l'.
  { clear. induction 1; [done|]. etrans; [by eapply step_hist|done]. }
  destruct Hs as [c v args r e' Hc Hv Hra Hd|c P l1 aw r after Hc Hl1 Haw Hd|es' Hes]; cbn [w_sys eng].
  - destruct (Dispatch_log _ _ _ _ _ _ Hd Hl) as (l' & Hl' & Hrun). exists l'. auto.
  - by exists l.
  - destruct (estep_logrun _ _ _ _ Hes Hl) as (l' & Hl' & Hrun). exists l'. auto.
Qed.

Lemma wsteps_recs w w' l : elog (eng (w_sys w)) = Some l -> rtc (wstep t) w w' ->
  exists l', elog (eng (w_sys w')) = Some l' /\ hist l `prefix_of` hist l'.
Proof.
  intros Hl Hs. revert l Hl. induction Hs as [w|w1 w2 w3 H1 _ IH] => l Hl; [by exists l|].
  destruct (wstep_recs _ _ _ Hl H1) as (l2 & Hl2 & Hp2). destruct (IH _ Hl2) as (l3 & Hl3 & Hp3).
  exists l3. split; [done|by etrans].
Qed.

Lemma winv_run w w' : [] `prefix_of` content -> winv w -> rtc (wstep t) w w' ->
  len (recs_of (eng (w_sys w'))) <= maxUint64 -> winv w'.
Proof.
  intros Hp Hi Hs Hm. revert Hi. induction Hs as [w|w1 w2 w3 H1 Hs IH]; [done|]. intros Hi. apply IH; [done|].
  apply (winv_step w1); [done..|]. destruct (wi_es _ Hi) as (l1 & Hl1 & _).
  destruct (wstep_recs _ _ _ Hl1 H1) as (l2 & Hl2 & _). destruct (wsteps_recs _ _ _ Hl2 Hs) as (l3 & Hl3 & H3).
  rw /recs_of Hl3 in Hm. rw /recs_of Hl2. apply prefix_length in H3. cbn in *. rw /len in Hm *. lia.
Qed.
End world.

(** What a crash leaves of the file: what the operating system had taken, when the process
    dies; under [Always], any file between what was synced and what was written, when the
    machine does. *)
Definition crash (p : Policy) (l : sys) (survivor : bytes) : Prop :=
  survivor = file l \/ (p = Always /\ disk l `prefix_of` survivor /\ survivor `prefix_of` file l).

(** The snapshot [sn !! k] is the store right after the [k]-th logged mutation. The command
    that left the engine as [after] is number [appliedSeq after], and the state found by
    recovering [survivor] at [t] is the one right after a mutation with that number or a
    later one. *)
Definition survives_crash (t : Z) (sn : list Store) (survivor : bytes) (after : Engine sys) : Prop :=
  exists m s_m res (st : Store),
    Replay (mkStream survivor EOF) t Store.New = Some (res, None, st) /\
    0 < appliedSeq after <= Z.of_nat m /\ sn !! Z.to_nat (appliedSeq after) = Some (store after) /\
    sn !! m = Some s_m /\ phys st = recovered t s_m.

Section start.
Variables (recs : list Record_) (content : bytes) (p : Policy) (now0 t : Z) (res : Result) (e0 : Engine sys).
Hypotheses (Hrecs : Forall readable recs)
  (Hcontent : content = [] \/ (content `prefix_of` log_file recs /\ HeaderSize <= len content))
  (Hopen : OpenLog ops_ok content p now0 NewEngine = Some (Ret res, e0)) (Hnow : now0 <= t).

Lemma world0_inv : exists kept, Forall readable kept /\ winv t (log_file kept) p now0 (effects t ∅ kept) (world0 e0).
Proof.
  destruct (OpenLog_inv recs content p now0 res e0 t Hrecs Hcontent Hopen Hnow) as (kept & Hk & _ & _ & Hi).
  exists kept. split; [done|]. split; [exact Hi| |done|].
  - move: Hopen. rw /OpenLog. cbn [NewEngine elog]. destruct (OpenFile _ _ _ _) as [[[[] ?] ?]|]; [|done..].
    by intros [= _ <-].
  - intros c cr Hcr. rw /trace_of /= lookup_empty /= in Hcr. by apply elem_of_nil in Hcr.
Qed.

(** The crash of a world in which a command has been answered. *)
Lemma answered_survives w l survivor c cr : rtc (wstep t) (world0 e0) w -> elog (eng (w_sys w)) = Some l ->
  Forall readable (hist l) -> len (hist l) <= maxUint64 -> crash p l survivor ->
  cr ∈ trace_of w c -> logged_cmd (cr_before cr) (cr_after cr) -> cr_reply cr <> persistence_error ->
  survives_crash t (snaps (w_sys w)) survivor (cr_after cr).
Proof.
  intros Hrun Hl Hh Hm Hcrash Hcr Hlog Hre. destruct world0_inv as (kept & Hk & Hi0).
  have Hnil : [] `prefix_of` log_file kept by apply prefix_nil.
  have Hi := winv_run _ _ _ _ _ _ w Hnil Hi0 Hrun. rw /recs_of Hl /= in Hi. specialize (Hi Hm).
  destruct (wi_done _ _ _ _ _ _ Hi c cr Hcr) as [_ H]. destruct (H Hlog Hre) as (k & l1 & (Hs & Hseq & Hk0) & Hl1 & Hle).
  rw Hl in Hl1. injection Hl1 as <-. destruct (wi_es _ _ _ _ _ _ Hi) as (l2 & Hl2 & Hr & Hn & _ & Hall).
  rw Hl in Hl2. injection Hl2 as <-.
  destruct (inv_markers _ _ (inv_reachable _ _ _ _ _ Hnil Hr Hm)) as (Hsw & _).
  set n := if bool_decide (survivor = file l) then written (lg l) else synced (lg l).
  have Hkn : Z.of_nat k <= n /\ (survivor <> file l -> p = Always).
  { rw /n. rw /marker in Hle. case_bool_decide as Hsv; [split; [|done]; destruct p; lia|].
    destruct Hcrash as [?|(Hpa & _)]; [done|]. rw Hpa in Hle. done. }
  destruct (log_recovered (D:=Store) kept [] p now0 l n survivor t Store.New) as (m & res' & st & Hmr & E & He); try done.
  { rw /n in Hkn |- *. case_bool_decide as Hsv; [by left|]. right. destruct Hcrash as [?|(_ & ? & ?)]; [done|].
    split_and!; try done. lia. }
  cbn [ap_entries store_applier_laws] in He. rw /effects foldl_app -!/(effects _ _ _) in He.
  destruct (lookup_lt_is_Some_2 (snaps (w_sys w)) m) as [s_m Hsm]; [rw /len in Hmr; lia|].
  exists m, s_m, res', st. rw Hseq Nat2Z.id. split_and!; [done|lia|lia|done|done|]. rw He. by apply Hall.
Qed.
End start.

(** ** The connection *)

(** The rounds of a connection whose commands are [tr]: before each of them the other
    goroutines have brought the engine to the state the command found. *)
Definition turns_of (tr : list cmdrec) (i : nat) : turn sys :=
  match tr !! i with
  | Some cr => mkTurn false (fun _ => cr_before cr) (cr_env cr)
  | None => mkTurn true (fun e => e) (mkEnv 0 (fun _ => None) [] 0 [])
  end.

(** The requests of [tr], as the client sends them. *)
Definition requests (tr : list cmdrec) : bytes := concat (enc_frame <$> (cr_args <$> tr)).

Section wire.
Context {S : Type} `{!Sink S} `{!SinkLaws S}.
Variables (flushEveryReply : bool) (tr : list cmdrec) (tail : bytes).
Hypothesis (Htr : Forall (fun cr => Dispatch (cr_env cr) (cr_args cr) (cr_before cr) = Done (cr_reply cr, cr_after cr)) tr).

Lemma serve_trace d0 lim fuel : forall i (c c' : conn sys S), Forall (within lim) (cr_args <$> tr) ->
  sound flushEveryReply d0 c -> fl_failed (fl c) = false -> limits (rd c) = lim ->
  rest (br (whole c)) = requests (drop i tr) ++ tail ->
  serve flushEveryReply (turns_of tr) fuel i c = Some (Done c') ->
  exists n, answered c' = answered c ++ take n (cr_reply <$> drop i tr) /\
    closes (fl c') (d0 ++ enc_replies (answered c')).
Proof.
  induction fuel as [|fuel IH] => i c c' Hw Hs Hnf Hlim Hrest; cbn [serve]; [done|].
  rw {1}/turns_of. destruct (tr !! i) as [cr|] eqn:Hi; cbn [tn_drain].
  2:{ intros [= <-]. exists 0%nat. rw take_0 app_nil_r. destruct Hs as (Hc & _). split; [done|]. by apply carries_closes. }
  destruct (next_request flushEveryReply (chunks c) c) as [res c1] eqn:En.
  destruct (next_request_spec flushEveryReply d0 (chunks c) c res c1 eq_refl Hs Hnf En) as (Hs1 & _ & _ & Ha & Hres & _).
  rw (drop_S tr cr i Hi) in Hrest |- *. rw fmap_cons. set rest_ := requests (drop (Datatypes.S i) tr) ++ tail.
  have Hcr := list_elem_of_lookup_2 _ _ _ Hi.
  destruct (ReadCommand_ok (whole c) (cr_args cr) rest_) as (r1 & Er & Hbr & Hlr).
  { change (limits (whole c)) with (limits (rd c)). rw Hlim. rw Forall_fmap Forall_forall in Hw. by apply Hw. }
  { by rw Hrest /requests !fmap_cons concat_cons -app_assoc. }
  rw Er in Hres. cbn [fst snd] in Hres. destruct Hres as [[-> _]|(Hf1 & -> & Hwh)].
  { intros [= <-]. exists 0%nat. rw take_0 app_nil_r. destruct Hs1 as (Hc & _). split; [done|]. by apply carries_closes. }
  specialize (Hwh _ eq_refl). rw /turns_of Hi. cbn [tn_env tn_others].
  rw (proj1 (Forall_forall _ _) Htr cr Hcr).
  destruct (on_writer (writeReply (cr_reply cr)) (fl c1)) as [ok f] eqn:Ew.
  destruct (answer_spec flushEveryReply d0 c1 (cr_reply cr) ok f (cr_after cr) Hs1 Ew) as (H1 & H2 & H3 & _).
  have Hnext g c2 : carries g (d0 ++ enc_replies (answered c1 ++ [cr_reply cr])) -> fl_failed g = false ->
    (flushEveryReply = true -> bw_buf (fl_w g) = []) ->
    serve flushEveryReply (turns_of tr) fuel (Datatypes.S i) (mkConn (got c1) (chunks c1) (last c1) (rd c1) g (cr_after cr)
      (answered c1 ++ [cr_reply cr]) (waits c1)) = Some (Done c2) ->
    exists n, answered c2 = answered c ++ take n (cr_reply cr :: (cr_reply <$> drop (Datatypes.S i) tr)) /\
      closes (fl c2) (d0 ++ enc_replies (answered c2)).
  { intros Hg Hgf Hb Hserve. set k := mkConn _ _ _ _ _ _ _ _ in Hserve. change (whole k = r1) in Hwh.
    destruct (IH (Datatypes.S i) k c2) as (n & Hn & Hcl); [done|split_and!; [done|apply H2|by auto]|done| | |done|].
    - change (limits (whole k) = lim). by rw Hwh Hlr.
    - by rw Hwh Hbr.
    - exists (Datatypes.S n). split; [|done]. by rw Hn /= Ha -app_assoc. }
  have Hlast g : carries g (d0 ++ enc_replies (answered c1 ++ [cr_reply cr])) -> exists n,
    answered c1 ++ [cr_reply cr] = answered c ++ take n (cr_reply cr :: (cr_reply <$> drop (Datatypes.S i) tr)) /\
      closes g (d0 ++ enc_replies (answered c1 ++ [cr_reply cr])).
  { intros Hg. exists 1%nat. rw Ha. split; [done|]. rw -Ha. by apply carries_closes. }
  destruct ok; cbn [negb]; [|intros [= <-]; by apply Hlast].
  destruct flushEveryReply eqn:Hfe; [|by apply Hnext; [..|congruence]; auto].
  destruct (flush f) as [ok f'] eqn:Ef. destruct (carries_flush _ _ _ _ H1 Ef) as (F1 & F2 & F3 & _).
  destruct ok; cbn [negb]; [|intros [= <-]; by apply Hlast].
  apply Hnext; [done|by destruct (fl_failed f')|]. intros _. by apply F3.
Qed.
End wire.

(** C1. A client may trust the replies it has received, down to the disk. A server starts on a
    log; any number of connections send commands, each of which runs under the engine's lock
    and then waits for its record while the others go on; the expiration worker, the log's
    writer with its short and failed writes, syncs and shutdown steps interleave freely. One
    client has sent its requests in whatever packets, over a socket that may fail at any
    point, and has received bytes in which it reads the replies [rs]. Then the process dies,
    or under [Always] the machine. If the [i]-th reply it read is not the loss of durability,
    it answers the client's [i]-th request; and if that request changed anything, the next
    start succeeds and shows the state right after a logged mutation whose number is at
    least that of this command's own: the one right after it, or after a later one. *)
Theorem client_can_trust_reply {S : Type} `{!Sink S} `{!SinkLaws S} recs content p now0 t res e0
    w l survivor c tr flushEveryReply fuel lim sent tail end_ (s : S) e1 cn rs i r :
  Forall readable recs ->
  content = [] \/ (content `prefix_of` log_file recs /\ HeaderSize <= len content) ->
  OpenLog ops_ok content p now0 NewEngine = Some (Ret res, e0) -> now0 <= t ->
  rtc (wstep t) (world0 e0) w -> elog (eng (w_sys w)) = Some l ->
  Forall readable (hist l) -> len (hist l) <= maxUint64 ->
  trace_of w c = tr ->
  Forall (within lim) (cr_args <$> tr) -> Forall int_ok (cr_reply <$> tr) ->
  concat sent = requests tr ++ tail ->
  handleConn flushEveryReply (turns_of tr) fuel lim sent end_ s e1 = Some (Done cn) ->
  sink_out s ++ enc_replies rs `prefix_of` delivered (fl_w (fl cn)) -> Forall int_ok rs ->
  rs !! i = Some r -> seen r <> persistence_error -> crash p l survivor ->
  exists cr, tr !! i = Some cr /\ seen r = seen (cr_reply cr) /\
    (logged_cmd (cr_before cr) (cr_after cr) -> survives_crash t (snaps (w_sys w)) survivor (cr_after cr)).
Proof.
  intros Hrecs Hcont Hopen Hnow Hrun Hl Hh Hm Htrace Hlim Hint Hsent Hconn Hrecv Hrs Hi Hr Hcrash.
  have Htr : Forall (fun cr => Dispatch (cr_env cr) (cr_args cr) (cr_before cr) = Done (cr_reply cr, cr_after cr)) tr.
  { destruct (world0_inv recs content p now0 t res e0 Hrecs Hcont Hopen Hnow) as (kept & _ & Hi0).
    have Hinv := winv_run _ _ _ _ _ _ w (prefix_nil _) Hi0 Hrun. rw /recs_of Hl /= in Hinv. specialize (Hinv Hm).
    apply Forall_forall => cr Hcr. rw -Htrace in Hcr. by apply (wi_done _ _ _ _ _ _ Hinv c). }
  move: Hconn. rw /handleConn /serveConn. set c0 := mkConn _ _ _ _ _ _ _ _.
  destruct (serve _ _ _ _ c0) as [[c'| |]|] eqn:Es; try done. intros [= <-].
  destruct (serve_trace flushEveryReply tr tail Htr (sink_out s) lim fuel 0 c0 c' Hlim) as (n & Ha & Hc);
    [apply sound_start|done|done|by rw drop_0|done|].
  rw drop_0 /= in Ha. destruct (closes_flush _ _ Hc) as [(_ & _ & Hd) _].
  have Hpre : enc_replies rs `prefix_of` enc_replies (answered c').
  { eapply prefix_app_inv. etrans; [exact Hrecv|exact Hd]. }
  apply seen_prefix in Hpre; [|done|by rw Ha; apply Forall_take]. rw Ha in Hpre.
  have Hir : (seen <$> rs) !! i = Some (seen r) by rw list_lookup_fmap Hi.
  pose proof (prefix_lookup_Some _ _ _ _ Hir Hpre) as Hit. rw fmap_take in Hit. apply lookup_take_Some in Hit as [Hit _].
  rw !list_lookup_fmap in Hit. destruct (tr !! i) as [cr|] eqn:Hcr; [|done]. injection Hit as Hit.
  exists cr. split_and!; [done..|]. intros Hlog.
  apply (answered_survives recs content p now0 t res e0 Hrecs Hcont Hopen Hnow w l survivor c cr); try done.
  - rw Htrace. by eapply list_elem_of_lookup_2.
  - intros E. apply Hr. rw -Hit E. by vm_compute.
Qed.

(** ** Witness *)

(** One client sets a key on a server with [Always]; the log writes and syncs the record; the
    wait ends and the reply goes out; the machine dies. *)
Definition x_env : env := mkEnv second (fun _ => None) [] 0 [].
Definition x_args : list bytes := [str "SET"; str "k"; str "v"].
Definition x_e1 : Engine sys := (done_with (Dispatch x_env x_args w_e0) w_e0).2.
Definition x_l1 : sys := default w_l0 (elog x_e1).
Definition x_acts : list label :=
  [LNotify; LSwap; LWrite (len (lbuf (lg x_l1))) true; LDelivered; LAdvanceWritten; LSync true []; LAdvanceSynced].
Definition x_l2 : sys := default x_l1 (acts x_acts x_l1).
Definition x_e2 : Engine sys := with_log x_e1 x_l2.
Definition x_cmd : cmdrec := mkCmdrec (with_aw x_env (fun _ => None)) x_args w_e0 x_e1 (Simple (str "OK")).
Definition x_pend : pending_cmd := mkPendingCmd x_env x_args w_e0 x_e1.
Definition x_w1 : world := mkWorld (mkEsys x_e1 [store w_e0; store x_e1]) {[0%nat := x_pend]} ∅.
Definition x_w2 : world := mkWorld (mkEsys x_e2 [store w_e0; store x_e1]) {[0%nat := x_pend]} ∅.
Definition x_w3 : world := mkWorld (mkEsys x_e2 [store w_e0; store x_e1]) ∅ {[0%nat := [x_cmd]]}.

Lemma esteps_wsteps t es es' pend done_ : rtc (estep t) es es' ->
  rtc (wstep t) (mkWorld es pend done_) (mkWorld es' pend done_).
Proof.
  induction 1 as [es|es1 es2 es3 H1 _ IH]; [apply rtc_refl|]. eapply rtc_l; [|exact IH].
  by apply (w_other t (mkWorld es1 pend done_)).
Qed.

Lemma x_started : wstep (5 * second) (world0 w_e0) x_w1.
Proof.
  have E : x_w1 = mkWorld (mkEsys x_e1 (snaps (w_sys (world0 w_e0)) ++
      if decide (length (recs_of x_e1) = length (recs_of (eng (w_sys (world0 w_e0))))) then [] else [store x_e1]))
    (<[0%nat := mkPendingCmd x_env x_args (eng (w_sys (world0 w_e0))) x_e1]> (w_pend (world0 w_e0))) (w_done (world0 w_e0)).
  { vm_compute. reflexivity. }
  rw E. apply (w_start (5 * second) (world0 w_e0) 0%nat x_env x_args (Simple (str "OK")) x_e1);
    [done|by vm_compute|by vm_compute|vm_compute; reflexivity].
Qed.

Lemma x_finished : wstep (5 * second) x_w2 x_w3.
Proof.
  have E : x_w3 = mkWorld (w_sys x_w2) (delete 0%nat (w_pend x_w2))
    (<[0%nat := trace_of x_w2 0 ++ [mkCmdrec (with_aw (pd_env x_pend) (fun _ => None)) (pd_args x_pend) (pd_before x_pend) x_e1
       (Simple (str "OK"))]]> (w_done x_w2)).
  { vm_compute. reflexivity. }
  rw E. apply (w_finish (5 * second) x_w2 0%nat x_pend x_l2); [done|done| |vm_compute; reflexivity].
  intros _. by vm_compute.
Qed.

Lemma x_run : rtc (wstep (5 * second)) (world0 w_e0) x_w3.
Proof.
  eapply rtc_l; [apply x_started|]. eapply rtc_r; [|apply x_finished]. apply esteps_wsteps.
  apply (acts_esteps (5 * second) x_acts (mkEsys x_e1 [store w_e0; store x_e1]) x_l1 x_l2);
    [vm_compute; reflexivity|vm_compute; reflexivity|by repeat constructor].
Qed.

Definition x_conn : option (run (conn sys bytes)) :=
  handleConn false (turns_of [x_cmd]) 60 DefaultLimits [requests [x_cmd]] EOF [] w_e0.
Definition x_final : conn sys bytes :=
  match x_conn with
  | Some (Done c) => c
  | _ => mkConn [] [] EOF (NewReader (mkStream [] EOF) DefaultLimits) (mkFlusher (NewWriter []) true) w_e0 [] []
  end.

Lemma client_can_trust_witness : survives_crash (5 * second) [store w_e0; store x_e1] (disk x_l2) x_e1.
Proof.
  destruct (client_can_trust_reply [] [] Always 0 (5 * second) (mkResult 0 HeaderSize false) w_e0 x_w3 x_l2 (disk x_l2)
    0%nat [x_cmd] false 60 DefaultLimits [requests [x_cmd]] [] EOF [] w_e0 x_final [Simple (str "OK")] 0%nat (Simple (str "OK")))
    as (cr & Hcr & _ & H).
  - constructor.
  - by left.
  - vm_compute. reflexivity.
  - by vm_compute.
  - apply x_run.
  - done.
  - apply Forall_singleton. split; [by vm_compute|]. split_and!; [by vm_compute..| |by vm_compute].
    by repeat constructor; vm_compute.
  - by vm_compute.
  - vm_compute. reflexivity.
  - repeat constructor; by vm_compute.
  - by repeat constructor.
  - vm_compute. reflexivity.
  - vm_compute. reflexivity.
  - exists []. vm_compute. reflexivity.
  - by repeat constructor.
  - done.
  - by vm_compute.
  - right. split_and!; [done|done|]. exists []. vm_compute. reflexivity.
  - injection Hcr as <-. apply H. by vm_compute.
Defined.

