(* ===== verification/Server.v ===== *)
(** * The server's life cycle (src/internal/server/server.go, supervisor.go)

    The listener and its accept loop, the set of connections with its limit, the
    supervisor that carries fatal conditions, and the two ways to shut down, as one
    transition system: the accept loop, every connection's handler, the lifecycle
    goroutine ([Run] and the shutdown it calls), the expiration worker, the log's writer and
    anything that reports a fatal condition take turns. What a handler does with its
    client is in [Conn]; here it is a sequence of dispatched commands.

    A step is what one goroutine does between two points where others can be noticed: a
    critical section, a channel operation, a call into the engine. Setting the read
    deadline of all connections is one step: a connection notices only its own. *)

From S2P Require Import Prelude.
From S2P Require Import GoLib.
From S2P Require Import Store.
From S2P Require Import AofCodec.
From S2P Require Import AofReplay.
From S2P Require Import AofLog.
From S2P Require Import RespWriter.
From S2P Require Import RespReader.
From S2P Require Import ScanSessions.
From S2P Require Import Engine.
From S2P Require Import EngineRecovery.
From S2P Require Import Command.

(** ** The supervisor *)

(** What a fatal condition is does not matter: the log's failure, an engine panic. *)
Inductive fatal := FinalizeFailed | Reported (what : Z).

(** [sup_done] tells whether the channel is closed. *)
Record Supervisor := mkSupervisor { sup_done : bool; sup_cause : option fatal }.

Definition NewSupervisor : Supervisor := mkSupervisor false None.

(** The body of [once.Do] as one step: its two halves are told apart by nobody, since [Cause]
    is read only behind [Done] or [Fired], which see the closed channel, and a second caller
    of [Fatal] waits for the first. *)
Definition Fatal (err : fatal) (s : Supervisor) : Supervisor :=
  if sup_done s then s else mkSupervisor true (Some err).

Definition Done_ (s : Supervisor) : bool := sup_done s.
Definition Cause (s : Supervisor) : option fatal := sup_cause s.
Definition Fired (s : Supervisor) : bool := if sup_done s then true else false.

(** ** Configuration *)

Record Config := mkConfig {
  Addr : bytes;
  MaxClients : Z;
  ReadTimeout : Z;
  WriteTimeout : Z;
  ShutdownTimeout : Z;
  cfg_Limits : Limits;
  cfg_flushEveryReply : bool
}.

Definition DefaultConfig : Config :=
  mkConfig (str "127.0.0.1:6380") 1024 0 (30 * second) (10 * second) DefaultLimits false.

(** ** State *)

(** What [Run] returns: nothing, the cause of a fatal condition, or the timeout. *)
Inductive run_err := FatalCause (c : option fatal) | ErrShutdownTimeout.

(** A handler: at the top of [serve]'s loop; past the test of [draining]; reading, with a
    deadline that has passed or not; out of [serve]; out of [releaseConn]'s critical section
    with the sessions still to be cleared; about to close the socket and be done. *)
Inductive handler_pc :=
| HCheck
| HArm
| HRead (expired : bool)
| HExit
| HClear
| HClose.

(** The accept loop: in [Accept]; with a connection; having admitted it; returned. *)
Inductive accept_pc := AAccept | AGot (c : nat) | AAdmitted (c : nat) | ADone.

(** [Run], then [gracefulShutdown] or [fatalShutdown], each by the call it makes next. *)
Inductive life_pc :=
| LServe
| LStopWorker
| LBeginDrain
| LCloseDraining
| LSetDeadlines
| LWaitConns
| LFinalize (drained : bool)
| LAwaitLog (drained : bool)
| LDecide (drained : bool)
| LCloseAll (out : option run_err)
| LClearScans (out : option run_err)
| LReturned (out : option run_err)
| FStopWorker (cause : option fatal)
| FCloseListener (cause : option fatal)
| FBeginDrain (cause : option fatal)
| FCloseDraining (cause : option fatal).

Record Server := mkServer {
  cfg : Config;
  eng : Engine sys;
  sup : Supervisor;
  ln : bool;
  conns : gset nat;
  nClient : Z;
  draining : bool;
  wg : Z;
  acceptor : accept_pc;
  handlers : gmap nat handler_pc;
  life : life_pc
}.

(** [New], with the goroutines [RunWithReady] starts once the listener is bound. *)
Definition New (c : Config) (e : Engine sys) (sp : Supervisor) : Server :=
  mkServer c e sp true ∅ 0 false 0 AAccept ∅ LServe.
Definition RunWithReady (s : Server) : Server :=
  mkServer (cfg s) (startExpiration (eng s)) (sup s) true (conns s) (nClient s) (draining s) (wg s)
    AAccept (handlers s) LServe.

Definition isDraining (s : Server) : bool := draining s.

Definition set_eng (s : Server) (e : Engine sys) : Server :=
  mkServer (cfg s) e (sup s) (ln s) (conns s) (nClient s) (draining s) (wg s) (acceptor s) (handlers s) (life s).
Definition set_life (s : Server) (l : life_pc) : Server :=
  mkServer (cfg s) (eng s) (sup s) (ln s) (conns s) (nClient s) (draining s) (wg s) (acceptor s) (handlers s) l.
Definition set_sup (s : Server) (sp : Supervisor) : Server :=
  mkServer (cfg s) (eng s) sp (ln s) (conns s) (nClient s) (draining s) (wg s) (acceptor s) (handlers s) (life s).
Definition set_acceptor (s : Server) (a : accept_pc) : Server :=
  mkServer (cfg s) (eng s) (sup s) (ln s) (conns s) (nClient s) (draining s) (wg s) a (handlers s) (life s).
Definition set_handlers (s : Server) (h : gmap nat handler_pc) : Server :=
  mkServer (cfg s) (eng s) (sup s) (ln s) (conns s) (nClient s) (draining s) (wg s) (acceptor s) h (life s).

(** ** The operations *)

(** The critical section of [admitConn]. *)
Definition admitConn (c : nat) (s : Server) : bool * Server :=
  if MaxClients (cfg s) <=? nClient s then (false, s)
  else
    (true, mkServer (cfg s) (eng s) (sup s) (ln s) ({[c]} ∪ conns s) (wraps 64 (nClient s + 1)) (draining s)
             (wg s) (acceptor s) (handlers s) (life s)).

(** What a refused client is sent; neither error is looked at. *)
Definition reject {S : Type} `{!Sink S} (s : S) : Writer S :=
  (Flush (WriteError (str "ERR max number of clients reached") (NewWriter s)).2).2.

(** The critical section of [releaseConn]: whether the scan sessions must be cleared. *)
Definition releaseConn (c : nat) (s : Server) : bool * Server :=
  if bool_decide (c ∈ conns s) then
    let n := wraps 64 (nClient s - 1) in
    ((n =? 0) && isDraining s,
     mkServer (cfg s) (eng s) (sup s) (ln s) (conns s ∖ {[c]}) n (draining s) (wg s) (acceptor s)
       (handlers s) (life s))
  else (false, s).

(** [close(s.draining)] *)
Definition close_draining (s : Server) : Server :=
  mkServer (cfg s) (eng s) (sup s) (ln s) (conns s) (nClient s) true (wg s) (acceptor s) (handlers s) (life s).

(** [s.ln.Close()] *)
Definition close_ln (s : Server) : Server :=
  mkServer (cfg s) (eng s) (sup s) false (conns s) (nClient s) (draining s) (wg s) (acceptor s) (handlers s) (life s).

(** [s.wg.Add(d)] *)
Definition wg_add (d : Z) (s : Server) : Server :=
  mkServer (cfg s) (eng s) (sup s) (ln s) (conns s) (nClient s) (draining s) (wg s + d) (acceptor s) (handlers s) (life s).

(** [c.SetReadDeadline(time.Now())] for every connection of the set: a [Read] in progress
    fails, one that has not begun will find whatever deadline is set last. *)
Definition wake (conns : gset nat) (h : gmap nat handler_pc) : gmap nat handler_pc :=
  map_imap (fun c p => Some (match p with
                             | HRead b => HRead (b || bool_decide (c ∈ conns))
                             | p => p
                             end)) h.

(** The end of [gracefulShutdown]: what it returns, and whether connections are closed
    by force before. *)
Definition decide_exit (drained : bool) (s : Server) : life_pc :=
  if Fired (sup s) then LCloseAll (Some (FatalCause (Cause (sup s))))
  else if drained then LClearScans None
  else LCloseAll (Some ErrShutdownTimeout).

(** [Finalize]'s second half: [None] while it waits, then whether it returned nil. The
    context's deadline may pass at any time, which is a rule of its own below. *)
Definition finalize_result (e : Engine sys) : option bool :=
  match elog e with
  | None => Some true
  | Some l => if done_ (lg l) then Some (bool_decide (failed (lg l) = None)) else None
  end.

(** ** Steps *)

(** The log's writer goroutine, as opposed to [Append] and [Close]. *)
Definition writer_label (a : label) : Prop :=
  match a with LAppend _ | LCloseLock | LCloseSignal => False | _ => True end.

(** Every interleaving, and more: a wait with a time-out may end at any moment (the two
    seconds [waitConns] gives the handlers after [closeAllConns] are the steps others take
    before [s_return]); [s_dispatch] is a command with its wait for durability, whose locked
    part and wait [System] separates. *)
Inductive step (t : Z) (s : Server) : Server -> Prop :=
(* acceptLoop *)
| s_accept c :
    acceptor s = AAccept -> ln s = true -> handlers s !! c = None -> (c ∉ conns s) ->
    step t s (set_acceptor s (AGot c))
| s_accept_error : acceptor s = AAccept -> step t s (set_acceptor s ADone)
| s_admit c ok s' :
    acceptor s = AGot c -> admitConn c s = (ok, s') ->
    step t s (set_acceptor s' (if ok then AAdmitted c else AAccept))
| s_spawn c :
    acceptor s = AAdmitted c ->
    step t s (set_handlers (set_acceptor (wg_add 1 s) AAccept) (<[c := HCheck]> (handlers s)))
(* serve, seen from outside, and the deferred calls of its goroutine *)
| s_check c :
    handlers s !! c = Some HCheck ->
    step t s (set_handlers s (<[c := if isDraining s then HExit else HArm]> (handlers s)))
| s_arm c : handlers s !! c = Some HArm -> step t s (set_handlers s (<[c := HRead false]> (handlers s)))
| s_dispatch c expired v args r e' written :
    handlers s !! c = Some (HRead expired) -> env_now v <= t -> Dispatch v args (eng s) = Done (r, e') ->
    step t s (set_handlers (set_eng s e') (<[c := if (written : bool) then HCheck else HExit]> (handlers s)))
| s_read_error c expired :
    handlers s !! c = Some (HRead expired) -> step t s (set_handlers s (<[c := HExit]> (handlers s)))
| s_release c clear s' :
    handlers s !! c = Some HExit -> releaseConn c s = (clear, s') ->
    step t s (set_handlers s' (<[c := if clear then HClear else HClose]> (handlers s)))
| s_clear c :
    handlers s !! c = Some HClear ->
    step t s (set_handlers (set_eng s (ClearScanSessions (eng s))) (<[c := HClose]> (handlers s)))
| s_done c :
    handlers s !! c = Some HClose -> step t s (set_handlers (wg_add (-1) s) (delete c (handlers s)))
(* the expiration worker, the log's writer, fatal reports *)
| s_reclaim iter now :
    now <= t -> ranges (expires (store (eng s))) iter ->
    step t s (set_eng s (reclaimOnce iter now (eng s)).2)
| s_writer l l' a :
    elog (eng s) = Some l -> act a l = Some l' -> writer_label a ->
    step t s (set_eng s (with_log (eng s) l'))
| s_fatal err : step t s (set_sup s (Fatal err (sup s)))
(* RunWithReady, gracefulShutdown *)
| s_ctx_done : life s = LServe -> step t s (set_life (close_ln s) LStopWorker)
| s_stop_worker :
    life s = LStopWorker -> step t s (set_life (set_eng s (StopExpiration (eng s))) LBeginDrain)
| s_begin_drain :
    life s = LBeginDrain -> step t s (set_life (set_eng s (BeginDrain (eng s))) LCloseDraining)
| s_close_draining : life s = LCloseDraining -> step t s (set_life (close_draining s) LSetDeadlines)
| s_deadlines :
    life s = LSetDeadlines ->
    step t s (set_life (set_handlers s (wake (conns s) (handlers s))) LWaitConns)
| s_drained : life s = LWaitConns -> wg s = 0 -> step t s (set_life s (LFinalize true))
| s_not_drained : life s = LWaitConns -> step t s (set_life s (LFinalize false))
| s_finalize drained :
    life s = LFinalize drained -> step t s (set_life (set_eng s (Finalize (eng s))) (LAwaitLog drained))
| s_finalized drained ok :
    life s = LAwaitLog drained -> finalize_result (eng s) = Some ok ->
    step t s (set_life (if ok then s else set_sup s (Fatal FinalizeFailed (sup s))) (LDecide drained))
| s_finalize_timeout drained :
    life s = LAwaitLog drained -> elog (eng s) <> None ->
    step t s (set_life (set_sup s (Fatal FinalizeFailed (sup s))) (LDecide drained))
| s_decide drained : life s = LDecide drained -> step t s (set_life s (decide_exit drained s))
| s_close_all out :
    life s = LCloseAll out ->
    step t s (set_life (set_handlers s (wake (conns s) (handlers s))) (LClearScans out))
| s_return out :
    life s = LClearScans out -> step t s (set_life (set_eng s (ClearScanSessions (eng s))) (LReturned out))
(* fatalShutdown *)
| s_sup_done :
    life s = LServe -> Done_ (sup s) = true -> step t s (set_life s (FStopWorker (Cause (sup s))))
| s_fatal_worker cause :
    life s = FStopWorker cause -> step t s (set_life (set_eng s (StopExpiration (eng s))) (FCloseListener cause))
| s_fatal_ln cause : life s = FCloseListener cause -> step t s (set_life (close_ln s) (FBeginDrain cause))
| s_fatal_drain cause :
    life s = FBeginDrain cause -> step t s (set_life (set_eng s (BeginDrain (eng s))) (FCloseDraining cause))
| s_fatal_draining cause :
    life s = FCloseDraining cause ->
    step t s (set_life (close_draining s) (LCloseAll (Some (FatalCause cause)))).

(** Runs of a server that starts with the engine [e]. *)
Definition reachable (t : Z) (c : Config) (e : Engine sys) (s : Server) : Prop :=
  rtc (step t) (RunWithReady (New c e NewSupervisor)) s.

(** ** The connections are accounted for *)

(** A handler whose connection is still in the set. *)
Definition unreleased (p : handler_pc) : Prop := match p with HClear | HClose => False | _ => True end.

Record acct (c0 : Config) (s : Server) : Prop := {
  a_cfg : cfg s = c0;
  a_count : nClient s = Z.of_nat (size (conns s));
  a_max : nClient s <= Z.max 0 (MaxClients c0);
  a_conns c : c ∈ conns s <-> (exists p, handlers s !! c = Some p /\ unreleased p) \/ acceptor s = AAdmitted c;
  a_new c : acceptor s = AGot c \/ acceptor s = AAdmitted c -> handlers s !! c = None;
  a_wg : wg s = Z.of_nat (size (handlers s))
}.

(** A handler moves on without leaving the set, or after having left it. *)
Lemma acct_move c0 s s' c p p' : acct c0 s -> handlers s !! c = Some p -> (unreleased p <-> unreleased p') ->
  cfg s' = cfg s -> conns s' = conns s -> nClient s' = nClient s -> wg s' = wg s -> acceptor s' = acceptor s ->
  handlers s' = <[c := p']> (handlers s) -> acct c0 s'.
Proof.
  intros [A1 A2 A3 A4 A5 A6] Hc Hp E1 E2 E3 E4 E5 E6.
  split; rw ?E1 ?E2 ?E3 ?E4 ?E5 ?E6 //.
  - intros d. rw A4. destruct (decide (d = c)) as [->|Hne]; [|by rw lookup_insert_ne].
    rw Hc lookup_insert_eq. naive_solver.
  - intros d Hd. destruct (decide (d = c)) as [->|Hne]; [by rw (A5 _ Hd) in Hc|]. by rw lookup_insert_ne // A5.
  - rw A6. f_equal. symmetry. by apply map_size_insert_Some.
Qed.

Lemma wake_lookup cs h c : wake cs h !! c =
  (fun p => match p with HRead b => HRead (b || bool_decide (c ∈ cs)) | p => p end) <$> h !! c.
Proof. rw /wake map_lookup_imap. by destruct (h !! c). Qed.

Lemma acct_wake c0 s s' cs : acct c0 s ->
  cfg s' = cfg s -> conns s' = conns s -> nClient s' = nClient s -> wg s' = wg s -> acceptor s' = acceptor s ->
  handlers s' = wake cs (handlers s) -> acct c0 s'.
Proof.
  intros [A1 A2 A3 A4 A5 A6] E1 E2 E3 E4 E5 E6. split; rw ?E1 ?E2 ?E3 ?E4 ?E5 ?E6 //.
  - intros d. rw A4 wake_lookup. apply or_iff_compat_r. destruct (handlers s !! d) as [p|]; simpl; [|done].
    split; intros (q & [= <-] & Hq); eexists; (split; [done|]); by destruct p.
  - intros d Hd. by rw wake_lookup A5.
  - rw A6. f_equal. rw -!size_dom. f_equal. apply set_eq => d. rw !elem_of_dom wake_lookup fmap_is_Some //.
Qed.

(** Steps that do not touch the accounts. *)
Lemma acct_same c0 s s' : acct c0 s ->
  cfg s' = cfg s -> conns s' = conns s -> nClient s' = nClient s -> wg s' = wg s -> acceptor s' = acceptor s ->
  handlers s' = handlers s -> acct c0 s'.
Proof. intros [A1 A2 A3 A4 A5 A6] E1 E2 E3 E4 E5 E6. split; rw ?E1 ?E2 ?E3 ?E4 ?E5 ?E6 //. Qed.

Lemma acct_admit c0 s c ok s' : MaxClients c0 <= maxInt64 -> acct c0 s -> acceptor s = AGot c ->
  admitConn c s = (ok, s') -> acct c0 (set_acceptor s' (if ok then AAdmitted c else AAccept)).
Proof.
  intros Hm [A1 A2 A3 A4 A5 A6] Hc. have Hnew : handlers s !! c = None by apply A5; left.
  have Hnot : c ∉ conns s by rw A4 Hnew Hc; naive_solver.
  rw /admitConn. case_cmp; intros [= <- <-].
  - split; cbn [set_acceptor cfg conns nClient handlers acceptor wg]; try done; [|by intros d []].
    intros d. rw A4 Hc. naive_solver.
  - have Hw : wraps 64 (nClient s + 1) = nClient s + 1 by apply wraps_small; rw A1 in H; lia.
    split; cbn [set_acceptor cfg conns nClient handlers acceptor wg]; try done.
    + rw Hw A2 size_union; [set_solver|]. rw size_singleton. lia.
    + rw Hw -A1. rw A1 in H *. lia.
    + intros d. rw elem_of_union elem_of_singleton A4 Hc. naive_solver.
    + intros d [?|[= <-]]; [done|]. by apply A5; left.
Qed.

Lemma acct_spawn c0 s c : acct c0 s -> acceptor s = AAdmitted c ->
  acct c0 (set_handlers (set_acceptor (wg_add 1 s) AAccept) (<[c := HCheck]> (handlers s))).
Proof.
  intros [A1 A2 A3 A4 A5 A6] Hc. have Hnew : handlers s !! c = None by apply A5; right.
  split; cbn [set_handlers set_acceptor wg_add cfg conns nClient handlers acceptor wg]; try done.
  - intros d. rw A4 Hc. destruct (decide (d = c)) as [->|Hne]; [rw lookup_insert_eq; naive_solver|].
    rw lookup_insert_ne //. naive_solver.
  - by intros d [].
  - rw A6 map_size_insert_None //. lia.
Qed.

Lemma acct_release c0 s c clear s' : MaxClients c0 <= maxInt64 -> acct c0 s -> handlers s !! c = Some HExit ->
  releaseConn c s = (clear, s') ->
  acct c0 (set_handlers s' (<[c := if clear then HClear else HClose]> (handlers s))) /\
  conns s' = conns s ∖ {[c]} /\ (clear = bool_decide (conns s' = ∅) && draining s).
Proof.
  intros Hm [A1 A2 A3 A4 A5 A6] Hc. have Hin : c ∈ conns s by rw A4 Hc; left; eexists.
  rw /releaseConn bool_decide_eq_true_2 // /isDraining. intros [= <- <-].
  have Hsize : Z.of_nat (size (conns s ∖ {[c]})) = nClient s - 1.
  { rw size_difference; [set_solver|]. rw size_singleton A2.
    have : (size (conns s) <> 0)%nat by apply size_non_empty_iff; set_solver. lia. }
  have Hw : wraps 64 (nClient s - 1) = nClient s - 1 by apply wraps_small; lia.
  have Hacc : acceptor s <> AAdmitted c by intros E; rw A5 in Hc; [by right|].
  split_and!; [|done|].
  - set clear := _ && _. split; cbn [set_handlers cfg conns nClient handlers acceptor wg]; try done.
    + by rw Hw Hsize.
    + rw Hw. lia.
    + intros d. rw elem_of_difference elem_of_singleton A4. destruct (decide (d = c)) as [->|Hne].
      * rw lookup_insert_eq. split; [naive_solver|]. intros [(p & [= <-] & Hp)|?]; [by destruct clear|done].
      * rw lookup_insert_ne //. naive_solver.
    + intros d Hd. destruct (decide (d = c)) as [->|Hne]; [by rw A5 in Hc|]. by rw lookup_insert_ne // A5.
    + rw A6. f_equal. symmetry. by apply map_size_insert_Some.
  - f_equal. cbn [conns]. rw Hw -Hsize. destruct (Z.eqb_spec (Z.of_nat (size (conns s ∖ {[c]}))) 0) as [E|E].
    + rw bool_decide_eq_true_2 //. apply leibniz_equiv, size_empty_inv. lia.
    + rw bool_decide_eq_false_2 //. intros E'. by rw E' size_empty in E.
Qed.

Lemma acct_done c0 s c : acct c0 s -> handlers s !! c = Some HClose ->
  acct c0 (set_handlers (wg_add (-1) s) (delete c (handlers s))).
Proof.
  intros [A1 A2 A3 A4 A5 A6] Hc.
  split; cbn [set_handlers wg_add cfg conns nClient handlers acceptor wg]; try done.
  - intros d. rw A4. apply or_iff_compat_r. destruct (decide (d = c)) as [->|Hne]; [|by rw lookup_delete_ne].
    rw Hc lookup_delete_eq. naive_solver.
  - intros d Hd. destruct (decide (d = c)) as [->|Hne]; [by rw lookup_delete_eq|]. by rw lookup_delete_ne // A5.
  - rw A6 map_size_delete_Some; [by rw Hc|]. have : (size (handlers s) <> 0)%nat; [|lia].
    intros E%map_size_empty_inv. by rw E lookup_empty in Hc.
Qed.

Lemma acct_step t c0 s s' : MaxClients c0 <= maxInt64 -> acct c0 s -> step t s s' -> acct c0 s'.
Proof.
  intros Hm Ha Hs. destruct Hs as [c Hacc Hln Hh Hc|Hacc|c ok s' Hacc Had|c Hacc|c Hp|c Hp|c b v args r e' [] Hp _ _|
    c b Hp|c clear s' Hp Hr|c Hp|c Hp|iter now _ _|l l' a _ _ _|err|H|H|H|H|H|H _|H|d H|d ok H _|d H _|d H|out H|out H|
    H _|cause H|cause H|cause H|cause H]; try by apply (acct_same c0 s).
  - destruct Ha as [A1 A2 A3 A4 A5 A6]. split; try done.
    + intros d. cbn [set_acceptor acceptor]. rw A4 Hacc. naive_solver.
    + intros d. cbn [set_acceptor acceptor]. by intros [[= <-]|?].
  - destruct Ha as [A1 A2 A3 A4 A5 A6]. split; try done.
    + intros d. cbn [set_acceptor acceptor]. rw A4 Hacc. naive_solver.
    + intros d. cbn [set_acceptor acceptor]. by intros [].
  - by eapply acct_admit.
  - by apply acct_spawn.
  - eapply (acct_move c0 s _ c _ (if isDraining s then HExit else HArm)); try done. by destruct (isDraining s).
  - by eapply (acct_move c0 s _ c _ (HRead false)).
  - by eapply (acct_move c0 s _ c _ HCheck).
  - by eapply (acct_move c0 s _ c _ HExit).
  - by eapply (acct_move c0 s _ c _ HExit).
  - by eapply acct_release.
  - by eapply (acct_move c0 s _ c _ HClose).
  - by apply acct_done.
  - by apply (acct_wake c0 s _ (conns s)).
  - destruct ok; by apply (acct_same c0 s).
  - by apply (acct_wake c0 s _ (conns s)).
Qed.

Lemma acct_reachable t c0 e s : MaxClients c0 <= maxInt64 -> reachable t c0 e s -> acct c0 s.
Proof.
  intros Hm Hr. have H0 : acct c0 (RunWithReady (New c0 e NewSupervisor)).
  { split; cbn; try done; [lia|]. intros d. rw elem_of_empty. split; [done|].
    intros [(p & Hp & _)|?]; [by rw lookup_empty in Hp|done]. }
  revert H0. rw /reachable in Hr. induction Hr as [|s1 s2 s3 Hs _ IH]; [done|]. intros Ha.
  apply IH. by eapply acct_step.
Qed.

(** C16. Admission is exact: in every reachable state the client counter is the number of
    connections in the set and never above [MaxClients], every running handler's
    connection is in the set until it is released, and the wait group counts exactly the
    handlers; so no slot is leaked or freed twice, whatever clients, panics and shutdowns
    do. *)
Theorem admission_exact t c0 e s : 0 <= MaxClients c0 <= maxInt64 -> reachable t c0 e s ->
  nClient s = Z.of_nat (size (conns s)) /\ 0 <= nClient s <= MaxClients c0 /\
  wg s = Z.of_nat (size (handlers s)) /\
  (forall c, (exists p, handlers s !! c = Some p /\ unreleased p) -> c ∈ conns s) /\
  (handlers s = ∅ -> acceptor s = AAccept \/ acceptor s = ADone -> nClient s = 0).
Proof.
  intros Hm Hr. destruct (acct_reachable t c0 e s ltac:(lia) Hr) as [A1 A2 A3 A4 A5 A6].
  split_and!; [done|lia|lia|done| |].
  - intros c Hc. apply A4. by left.
  - intros Hh Hacc. rw A2. have -> : conns s = ∅; [|done]. apply set_eq => c. rw elem_of_empty. split; [|done].
    rw A4 Hh. intros [(p & Hp & _)|E]; [by rw lookup_empty in Hp|]. by destruct Hacc; congruence.
Qed.

(** ** The gate *)

(** From the end of admission on, and from the closing of [draining] on. *)
Definition gated (l : life_pc) : Prop :=
  match l with
  | LServe | LStopWorker | LBeginDrain | FStopWorker _ | FCloseListener _ | FBeginDrain _ => False
  | _ => True
  end.
Definition signalled (l : life_pc) : Prop :=
  match l with LCloseDraining | FCloseDraining _ => False | l => gated l end.

Definition gate (s : Server) : Prop :=
  (gated (life s) -> acceptingMutations (eng s) = false) /\ (signalled (life s) <-> draining s = true).

(** What [admitConn] and [releaseConn] leave alone. *)
Lemma admit_frame c s ok s' : admitConn c s = (ok, s') ->
  eng s' = eng s /\ sup s' = sup s /\ draining s' = draining s /\ handlers s' = handlers s /\ life s' = life s.
Proof. rw /admitConn. case_cmp; by intros [= <- <-]. Qed.

Lemma release_frame c s clear s' : releaseConn c s = (clear, s') ->
  eng s' = eng s /\ sup s' = sup s /\ draining s' = draining s /\ life s' = life s.
Proof. rw /releaseConn. case_bool_decide; by intros [= <- <-]. Qed.

Lemma reclaim_frame iter now (e : Engine sys) : exists st, (reclaimOnce iter now e).2 = with_store e st.
Proof. rw /reclaimOnce. destruct (ReclaimExpired _ _ _ _) as [[st ?] ?]. by exists st. Qed.

Lemma gate_step t s s' : gate s -> step t s s' -> gate s'.
Proof.
  intros [G1 G2] Hs. destruct Hs as [c Hacc Hln Hh Hc|Hacc|c ok s' Hacc Had|c Hacc|c Hp|c Hp|c b v args r e' wr Hp _ Hd|
    c b Hp|c clear s' Hp Hr|c Hp|c Hp|iter now _ _|l l' a _ _ _|err|H|H|H|H|H|H _|H|d H|d ok H _|d H _|d H|out H|out H|
    H _|cause H|cause H|cause H|cause H]; try done; try (rw /gate H in G1, G2; split; cbn in *; tauto).
  - destruct (admit_frame _ _ _ _ Had) as (E1 & _ & E2 & _ & E3). rw /gate /= E1 E2 E3 //.
  - rw /gate /= (Dispatch_accepting _ _ _ _ _ Hd) //.
  - destruct (release_frame _ _ _ _ Hr) as (E1 & _ & E2 & E3). rw /gate /= E1 E2 E3 //.
  - rw /gate /=. by destruct (reclaim_frame iter now (eng s)) as [st ->].
  - rw H in G1, G2. split; cbn in *; [|tauto]. intros _. rw /Finalize. destruct (elog (eng s)); by apply G1.
  - rw H in G1, G2. destruct ok; split; cbn in *; tauto.
  - rw H in G1, G2. rw /decide_exit. destruct (Fired (sup s)), d; split; cbn in *; tauto.
Qed.

Lemma gate_reachable t c0 e s : reachable t c0 e s -> gate s.
Proof.
  rw /reachable => Hr. have H0 : gate (RunWithReady (New c0 e NewSupervisor)) by split.
  revert H0. induction Hr as [|s1 s2 s3 Hs _ IH]; [done|]. intros Hg. apply IH. by eapply gate_step.
Qed.

(** ** After the gate *)

(** Nothing visible and nothing logged changes between two engines. *)
Definition frozen (t : Z) (e e' : Engine sys) : Prop :=
  view (store e') t = view (store e) t /\
  match elog e, elog e' with
  | Some l, Some l' => hist l' = hist l
  | None, None => True
  | _, _ => False
  end.

Lemma frozen_refl t (e : Engine sys) : frozen t e e.
Proof. split; [done|]. by destruct (elog e). Qed.

Lemma frozen_trans t e1 e2 e3 : frozen t e1 e2 -> frozen t e2 e3 -> frozen t e1 e3.
Proof. intros [V1 L1] [V2 L2]. split; [congruence|]. destruct (elog e1), (elog e2), (elog e3); try done. congruence. Qed.

Lemma writer_hist a l l' : act a l = Some l' -> writer_label a -> hist l' = hist l.
Proof. rw /act. destruct a, (at_ l); try done; repeat case_match; intros; by simplify_eq. Qed.

(** A step changes the engine by one of these. *)
Inductive engine_step (t : Z) (e : Engine sys) : Engine sys -> Prop :=
| es_same : engine_step t e e
| es_dispatch v args r e' : env_now v <= t -> Dispatch v args e = Done (r, e') -> engine_step t e e'
| es_clear : engine_step t e (ClearScanSessions e)
| es_reclaim iter now :
    now <= t -> ranges (expires (store e)) iter -> engine_step t e (reclaimOnce iter now e).2
| es_writer l l' a : elog e = Some l -> act a l = Some l' -> writer_label a -> engine_step t e (with_log e l')
| es_worker b : engine_step t e (set_running b e)
| es_drain : engine_step t e (BeginDrain e)
| es_finalize : engine_step t e (Finalize e).

Lemma step_engine t s s' : step t s s' -> engine_step t (eng s) (eng s').
Proof.
  intros Hs. destruct Hs as [c Hacc Hln Hh Hc|Hacc|c ok s' Hacc Had|c Hacc|c Hp|c Hp|c b v args r e' wr Hp Hv Hd|
    c b Hp|c clear s' Hp Hr|c Hp|c Hp|iter now Hn Hr|l l' a Hl Ha Hw|err|H|H|H|H|H|H _|H|d H|d ok H _|d H _|d H|out H|out H|
    H _|cause H|cause H|cause H|cause H]; cbn; try by constructor.
  - destruct (admit_frame _ _ _ _ Had) as (-> & _). constructor.
  - by eapply es_dispatch.
  - destruct (release_frame _ _ _ _ Hr) as (-> & _). constructor.
  - by eapply es_writer.
  - destruct ok; constructor.
Qed.

Lemma frozen_step t e e' : acceptingMutations e = false -> engine_step t e e' -> frozen t e e'.
Proof.
  intros Ha Hs. destruct Hs as [|v args r e' _ Hd| |iter now Hn Hr|l l' a Hl Hac Hw|b| |];
    try (split; [done|]; cbn; by destruct (elog e)).
  - apply Dispatch_cases in Hd as [->|[(o & res & H)|(req & res & H)]]; [apply frozen_refl| |].
    + apply mutate_drained in H as [_ ->]; [apply frozen_refl|done].
    + apply Scan_frame in H as [m ->]. split; [done|]. by cbn; destruct (elog e).
  - pose proof (run_op_view (OReclaim iter expirationSample) now t (store e) Hr Hn) as H. cbn [run_op spec_op] in H.
    rw /reclaimOnce. destruct (ReclaimExpired (store e) iter now expirationSample) as [[st rm] ex].
    cbn [fst snd] in *. split; [|by cbn; destruct (elog e)]. cbn [with_store store]. rw H /view tick_tick //.
  - split; [done|]. cbn. rw Hl. by eapply writer_hist.
  - rw /Finalize. destruct (elog e) as [l|] eqn:Hl; (split; [done|]); cbn; by rw Hl.
Qed.

Lemma gated_step t s s' : gated (life s) -> step t s s' -> gated (life s').
Proof.
  intros G Hs. destruct Hs as [c Hacc Hln Hh Hc|Hacc|c ok s' Hacc Had|c Hacc|c Hp|c Hp|c b v args r e' wr Hp Hv Hd|
    c b Hp|c clear s' Hp Hr|c Hp|c Hp|iter now Hn Hr|l l' a Hl Ha Hw|err|H|H|H|H|H|H _|H|d H|d ok H _|d H _|d H|out H|out H|
    H _|cause H|cause H|cause H|cause H]; try done; try by rw H in G.
  - cbn. by destruct (admit_frame _ _ _ _ Had) as (_ & _ & _ & _ & ->).
  - cbn. by destruct (release_frame _ _ _ _ Hr) as (_ & _ & _ & ->).
  - cbn. rw /decide_exit. by destruct (Fired (sup s)), d.
Qed.

Lemma freeze t s s' : gate s -> gated (life s) -> rtc (step t) s s' -> frozen t (eng s) (eng s').
Proof.
  intros Hg HG Hr. induction Hr as [s|s1 s2 s3 Hs _ IH]; [apply frozen_refl|].
  eapply frozen_trans; [|apply IH; [by eapply gate_step|by eapply gated_step]].
  eapply frozen_step; [by apply Hg|by eapply step_engine].
Qed.

(** ** Scan sessions at the end *)

(** Once [Run] has returned, sessions are left only while a handler runs that will clear them. *)
Definition scans_ok (s : Server) : Prop :=
  match life s with
  | LReturned _ =>
      sessions (scanSessions (eng s)) = ∅ \/ conns s <> ∅ \/ exists c, handlers s !! c = Some HClear
  | _ => True
  end.

(** Every step but the return keeps it when it leaves sessions, connections and pending
    clears alone. *)
Lemma scans_same s s' : scans_ok s -> life s' = life s -> scanSessions (eng s') = scanSessions (eng s) ->
  conns s' = conns s -> (forall c, handlers s !! c = Some HClear -> handlers s' !! c = Some HClear) -> scans_ok s'.
Proof.
  rw /scans_ok => Hs -> -> -> Hh. destruct (life s); try done.
  destruct Hs as [?|[?|[c Hc]]]; [by left|by right; left|]. right. right. exists c. by apply Hh.
Qed.

Lemma insert_keeps_clear (h : gmap nat handler_pc) c p p' : h !! c = Some p -> p <> HClear ->
  forall d, h !! d = Some HClear -> <[c := p']> h !! d = Some HClear.
Proof. intros Hc Hp d Hd. rw lookup_insert_ne //. intros <-. congruence. Qed.

Lemma scans_step t c0 s s' : MaxClients c0 <= maxInt64 -> acct c0 s -> gate s -> scans_ok s -> step t s s' -> scans_ok s'.
Proof.
  intros Hm Ha Hg Hk Hs. destruct Hs as [c Hacc Hln Hh Hc|Hacc|c ok s' Hacc Had|c Hacc|c Hp|c Hp|c b v args r e' wr Hp Hv Hd|
    c b Hp|c clear s' Hp Hr|c Hp|c Hp|iter now Hn Hr|l l' a Hl Hac Hw|err|H|H|H|H|H|H _|H|d H|d ok H _|d H _|d H|out H|out H|
    H _|cause H|cause H|cause H|cause H]; try done; try by (apply (scans_same s); try done; eapply insert_keeps_clear).
  - move: Had. rw /admitConn. case_cmp; intros [= <- <-]; [by apply (scans_same s)|].
    rw /scans_ok. cbn [set_acceptor life]. destruct (life s); try done. right. left. cbn. set_solver.
  - apply (scans_same s); try done. intros d Hd. cbn. rw lookup_insert_ne //. intros <-.
    rw (a_new _ _ Ha) in Hd; [by right|done].
  - rw /scans_ok. cbn. destruct (life s); try done. right. left.
    have : c ∈ conns s; [|set_solver]. rw (a_conns _ _ Ha). left. by exists (HRead b).
  - destruct (acct_release c0 s c clear s' Hm Ha Hp Hr) as (_ & _ & Hc).
    destruct (release_frame _ _ _ _ Hr) as (_ & _ & _ & El). rw /scans_ok. cbn. rw El.
    destruct (life s) eqn:Hlife; try done. right. destruct (decide (conns s' = ∅)) as [E|E]; [right|by left].
    exists c. rw Hc bool_decide_eq_true_2 // (proj1 (proj2 Hg)); [by rw Hlife|]. by rw lookup_insert_eq.
  - rw /scans_ok. cbn. destruct (life s); try done. by left.
  - apply (scans_same s); try done. intros d Hd. cbn. rw lookup_delete_ne //. intros <-. congruence.
  - destruct (reclaim_frame iter now (eng s)) as [st E]. rw E. by apply (scans_same s).
  - rw /scans_ok. cbn. rw /decide_exit. by destruct (Fired (sup s)), d.
  - by left.
Qed.

(** ** What [Run] returns *)

(** The log, if there is one, has been written and synced and its writer has exited. *)
Definition log_clean (e : Engine sys) : Prop :=
  match elog e with None => True | Some l => at_ l = Exited /\ failed (lg l) = None end.

(** The writer says it is done only when it has exited. *)
Definition done_honest (e : Engine sys) : Prop :=
  match elog e with None => True | Some l => done_ (lg l) = true -> at_ l = Exited end.

Lemma Append_done r l : done_ (Append r l).2 = done_ l /\ failed (Append r l).2 = failed l.
Proof. rw /Append. by repeat case_match. Qed.

Lemma swap_done l b l' : swap l = (b, l') -> done_ l' = done_ l.
Proof. rw /swap. repeat case_match; by intros [= <- <-]. Qed.

Lemma act_done a l l' : act a l = Some l' -> (done_ (lg l) = true -> at_ l = Exited) ->
  done_ (lg l') = true -> at_ l' = Exited.
Proof.
  intros Ha H Hd. rw /act in Ha. destruct a.
  1: { destruct (Append_done r (lg l)) as [E _]. destruct (Append r (lg l)) as [[n|e] l1]; injection Ha as <-;
       cbn in *; rw E in Hd; by apply H. }
  all: destruct (at_ l) eqn:Hat; try done;
    try (destruct (swap (lg l)) as [[[] |] l1] eqn:Es; apply swap_done in Es; injection Ha as <-;
         cbn in Hd; rw Es in Hd; by specialize (H Hd));
    repeat case_match; simplify_eq; cbn in *; rw ?Hat; try done; by specialize (H Hd).
Qed.

Lemma append_frame rec (l : sys) : at_ (sys_append rec l).2 = at_ l /\ done_ (lg (sys_append rec l).2) = done_ (lg l).
Proof.
  rw /sys_append. destruct (Append_done rec (lg l)) as [E _]. by destruct (Append rec (lg l)) as [r l1].
Qed.

Lemma done_honest_step t e e' : done_honest e -> engine_step t e e' -> done_honest e'.
Proof.
  intros Hd Hs. destruct Hs as [|v args r e' _ Hdis| |iter now Hn Hr|l l' a Hl Hac Hw|b| |]; try done.
  - apply Dispatch_cases in Hdis as [->|[(o & res & H)|(req & res & H)]]; [done| |by apply Scan_frame in H as [m ->]].
    destruct (mutate_touched _ _ _ _ _ H) as [(st & -> & _)|(l & rec & ra & l' & Hl & Ha & H')]; [done|].
    destruct (append_frame rec l) as [E1 E2]. cbn [log_append sys_logger] in Ha. rw Ha in E1, E2. cbn in E1, E2.
    rw /done_honest Hl in Hd. destruct ra; [destruct H' as (_ & st & ->)|destruct H' as (_ & ->)];
      rw /done_honest; cbn; by rw E1 E2.
  - by destruct (reclaim_frame iter now e) as [st ->].
  - rw /done_honest Hl in Hd. rw /done_honest. cbn. by eapply act_done.
  - rw /Finalize. destruct (elog e) as [l|] eqn:Hl; [|done]. rw /done_honest Hl in Hd. exact Hd.
Qed.

Lemma log_clean_step t e e' : acceptingMutations e = false -> log_clean e -> engine_step t e e' -> log_clean e'.
Proof.
  intros Ha Hd Hs. destruct Hs as [|v args r e' _ Hdis| |iter now Hn Hr|l l' a Hl Hac Hw|b| |]; try done.
  - apply Dispatch_cases in Hdis as [->|[(o & res & H)|(req & res & H)]]; [done| |by apply Scan_frame in H as [m ->]].
    by apply mutate_drained in H as [_ ->].
  - by destruct (reclaim_frame iter now e) as [st ->].
  - rw /log_clean Hl in Hd. destruct Hd as [Hat _]. exfalso. move: Hac Hw. rw /act Hat. by destruct a.
  - rw /Finalize. destruct (elog e) as [l|] eqn:Hl; [|done]. rw /log_clean Hl in Hd. exact Hd.
Qed.

(** What the process says when it ends is true. *)
Definition verdict (s : Server) : Prop :=
  done_honest (eng s) /\
  (sup_done (sup s) = true <-> is_Some (sup_cause (sup s))) /\
  match life s with
  | LDecide _ => log_clean (eng s) \/ sup_done (sup s) = true
  | LCloseAll (Some (FatalCause k)) | LClearScans (Some (FatalCause k)) | LReturned (Some (FatalCause k))
  | FStopWorker k | FCloseListener k | FBeginDrain k | FCloseDraining k =>
      k = sup_cause (sup s) /\ sup_done (sup s) = true
  | LClearScans None | LReturned None => log_clean (eng s)
  | LCloseAll None => False
  | _ => True
  end.

Lemma Fatal_first err sp : sup_done sp = true -> Fatal err sp = sp.
Proof. by rw /Fatal => ->. Qed.

Lemma Fatal_fires err sp : sup_done (Fatal err sp) = true.
Proof. rw /Fatal. by destruct (sup_done sp) eqn:E. Qed.

Lemma Fatal_honest err sp : (sup_done sp = true <-> is_Some (sup_cause sp)) ->
  sup_done (Fatal err sp) = true <-> is_Some (sup_cause (Fatal err sp)).
Proof. rw /Fatal. destruct (sup_done sp) eqn:E; [by rw E|]. intros _. split; [by eexists|done]. Qed.

(** Steps that move neither the lifecycle nor, once it has fired, the supervisor. *)
Lemma verdict_same t s s' : gate s -> verdict s -> engine_step t (eng s) (eng s') -> life s' = life s ->
  (sup_done (sup s') = true <-> is_Some (sup_cause (sup s'))) ->
  (sup_done (sup s) = true -> sup s' = sup s) -> verdict s'.
Proof.
  intros [Hg _] (Hd & Hsup & Hv) Hs Hlife Hsup' Hf.
  split_and!; [by eapply done_honest_step|done|]. rw Hlife.
  have Hclean : gated (life s) -> log_clean (eng s) -> log_clean (eng s').
  { intros G Hc. apply (log_clean_step t (eng s)); [by apply Hg|done|done]. }
  have Hk k : k = sup_cause (sup s) /\ sup_done (sup s) = true -> k = sup_cause (sup s') /\ sup_done (sup s') = true.
  { intros [-> E]. by rw (Hf E). }
  destruct (life s) as [| | | | | |d|d|d|[[k|]|]|[[k|]|]|[[k|]|]|k|k|k|k]; try done; try (by apply Hk); try (by apply Hclean).
  destruct Hv as [Hv|Hv]; [by left; apply Hclean|]. right. by rw (Hf Hv).
Qed.

Lemma verdict_step t s s' : gate s -> verdict s -> step t s s' -> verdict s'.
Proof.
  intros Hg Hv Hs. have He := step_engine t s s' Hs. destruct (Hv) as (Hd & Hsup & Hm).
  have Hd' : done_honest (eng s') by eapply done_honest_step.
  destruct Hs as [c Hacc Hln Hh Hc|Hacc|c ok s' Hacc Had|c Hacc|c Hp|c Hp|c b v args r e' wr Hp Hvn Hdis|
    c b Hp|c clear s' Hp Hr|c Hp|c Hp|iter now Hn Hr|l l' a Hl Hac Hw|err|H|H|H|H|H|H _|H|d H|d ok H Hok|d H _|d H|out H|out H|
    H Hdone|cause H|cause H|cause H|cause H]; try (by apply (verdict_same t s));
    try (rw H in Hm; split_and!; [exact Hd'|exact Hsup|by cbn]).
  - destruct (admit_frame _ _ _ _ Had) as (E1 & E2 & _ & _ & E3).
    apply (verdict_same t s); try done; cbn; by rw E2.
  - destruct (release_frame _ _ _ _ Hr) as (E1 & E2 & _ & E3).
    apply (verdict_same t s); try done; cbn; by rw E2.
  - apply (verdict_same t s); try done; cbn.
    + by apply Fatal_honest.
    + apply Fatal_first.
  - destruct ok; (split_and!; [exact Hd'| |]); cbn; [exact Hsup|left| |right; apply Fatal_fires].
    + move: Hok. rw /finalize_result /log_clean. rw /done_honest in Hd. destruct (elog (eng s)); [|done].
      destruct (done_ _); [|done]. intros [= ?%bool_decide_eq_true_1]. by auto.
    + by apply Fatal_honest.
  - split_and!; [exact Hd'| |right; apply Fatal_fires].
    by apply Fatal_honest.
  - rw H in Hm. split_and!; [exact Hd'|exact Hsup|]. cbn. rw /decide_exit /Fired /Cause.
    destruct (sup_done (sup s)) eqn:E; [done|]. destruct d; [|done]. by destruct Hm.
  - rw H in Hm. split_and!; [exact Hd'|exact Hsup|]. by destruct out as [[k|]|].
Qed.

(** Everything at once. *)
Definition server_inv (c0 : Config) (s : Server) : Prop := acct c0 s /\ gate s /\ scans_ok s /\ verdict s.

Lemma server_inv_step t c0 s s' : MaxClients c0 <= maxInt64 -> server_inv c0 s -> step t s s' -> server_inv c0 s'.
Proof.
  intros Hm (H1 & H2 & H3 & H4) Hs. split_and!; [by eapply acct_step|by eapply gate_step|
    by eapply scans_step|by eapply verdict_step].
Qed.

Lemma server_inv_run t c0 s s' : MaxClients c0 <= maxInt64 -> server_inv c0 s -> rtc (step t) s s' -> server_inv c0 s'.
Proof. intros Hm Hi Hr. induction Hr; [done|]. eauto using server_inv_step. Qed.

Lemma server_inv_reachable t c0 e s : MaxClients c0 <= maxInt64 -> done_honest e -> reachable t c0 e s -> server_inv c0 s.
Proof.
  intros Hm He Hr. eapply server_inv_run; [done| |exact Hr].
  split; [by apply (acct_reachable t c0 e), rtc_refl|]. split; [by split|]. split; [done|].
  split; [|split; [|done]]; cbn; [rw /startExpiration; by destruct (expRunning e)|]. split; [done|by intros []].
Qed.

(** ** The engine below the server *)

Lemma engine_steps t e e' l snaps : elog e = Some l -> engine_step t e e' ->
  exists snaps' l', elog e' = Some l' /\ rtc (estep t) (mkEsys e snaps) (mkEsys e' snaps').
Proof.
  intros Hl Hs. destruct Hs as [|v args r e' Hv Hd| |iter now Hn Hr|l0 l' a Hl0 Ha Hw|b| |].
  - exists snaps, l. split; [done|apply rtc_refl].
  - apply Dispatch_cases in Hd as [->|[(o & res & H)|(req & res & H)]].
    + exists snaps, l. split; [done|apply rtc_refl].
    + have [l' Hl'] : exists l', elog e' = Some l'.
      { destruct (mutate_one_append _ _ _ _ _ H l Hl) as [E|[rec E]]; by eexists. }
      eexists _, l'. split; [done|]. apply rtc_once. exact (estep_mutate t (mkEsys e snaps) o (env_now v) res e' l l' Hv Hl H Hl').
    + exists snaps, l. destruct (Scan_frame _ _ _ _ _ _ _ _ H) as [m E]. split; [by rw E|].
      apply rtc_once. by eapply (estep_scan t (mkEsys e snaps)).
  - exists snaps, l. split; [done|]. apply rtc_once, (estep_clear t (mkEsys e snaps)).
  - exists snaps, l. split; [by destruct (reclaim_frame iter now e) as [st ->]|].
    apply rtc_once. by apply (estep_reclaim t (mkEsys e snaps)).
  - exists snaps, l'. split; [done|]. apply rtc_once. apply (estep_log t (mkEsys e snaps) l0 l'); [done|].
    exists a. split; [done|]. by destruct a.
  - exists snaps, l. split; [done|]. apply rtc_once, (estep_worker t (mkEsys e snaps)).
  - exists snaps, l. split; [done|]. apply rtc_once, (estep_drain t (mkEsys e snaps)).
  - rw /Finalize Hl. exists snaps, (log_close l). split; [done|].
    set l1 := with_lg l (Close_lock (lg l)).
    eapply rtc_l; [apply (estep_log t (mkEsys e snaps) l l1); [done|by exists LCloseLock]|].
    eapply rtc_l; [apply (estep_log t (mkEsys (with_log e l1) snaps) l1 (log_close l)); [done|by exists LCloseSignal]|].
    apply rtc_refl.
Qed.

Lemma server_esteps t s s' l snaps : elog (eng s) = Some l -> rtc (step t) s s' ->
  exists snaps' l', elog (eng s') = Some l' /\ rtc (estep t) (mkEsys (eng s) snaps) (mkEsys (eng s') snaps').
Proof.
  intros Hl Hr. revert l snaps Hl. induction Hr as [s|s1 s2 s3 Hs _ IH] => l snaps Hl.
  { exists snaps, l. split; [done|apply rtc_refl]. }
  destruct (engine_steps t _ _ l snaps Hl (step_engine _ _ _ Hs)) as (sn & l2 & Hl2 & H1).
  destruct (IH l2 sn Hl2) as (sn' & l3 & Hl3 & H2). exists sn', l3. split; [done|]. by etrans.
Qed.

(** ** Theorems *)

(** C17. Draining is final for the whole server: from the moment [draining] is closed, no
    matter what handlers, the worker, the log's writer and the shutdown itself still do, the
    entries a client can see and the history of the log never change again. *)
Theorem draining_freezes_data t c0 e s s' : reachable t c0 e s -> draining s = true ->
  rtc (step t) s s' -> frozen t (eng s) (eng s').
Proof.
  intros Hr Hd. have Hg := gate_reachable t c0 e s Hr. apply freeze; [done|].
  destruct Hg as [_ Hs]. apply Hs in Hd. by destruct (life s).
Qed.

(** A server whose [Run] has returned nil, as a run of the engine whose writer has exited. *)
Lemma clean_exit_run content p now0 res e0 t c0 s l :
  OpenLog ops_ok content p now0 NewEngine = Some (Ret res, e0) -> MaxClients c0 <= maxInt64 ->
  reachable t c0 e0 s -> life s = LReturned None -> elog (eng s) = Some l ->
  at_ l = Exited /\ failed (lg l) = None /\
  exists snaps, rtc (estep t) (mkEsys e0 [store e0]) (mkEsys (eng s) snaps).
Proof.
  intros Ho Hm Hr Hlife Hl.
  have [l0 [Hl0 Hd0]] : exists l0, elog e0 = Some l0 /\ done_ (lg l0) = false.
  { move: Ho. rw /OpenLog. destruct (OpenFile _ _ _ _) as [[[[o|err] rs] st]|]; [|done..].
    intros [= _ <-]. by eexists. }
  have Hdone : done_honest e0 by rw /done_honest Hl0 Hd0.
  destruct (server_inv_reachable t c0 e0 s Hm Hdone Hr) as (_ & _ & _ & _ & _ & Hv).
  rw Hlife /log_clean Hl in Hv. destruct Hv as [Hat Hfl].
  destruct (engine_steps t e0 (eng (RunWithReady (New c0 e0 NewSupervisor))) l0 [store e0] Hl0) as (sn & l1 & Hl1 & H1).
  { cbn. rw /startExpiration. destruct (expRunning e0); constructor. }
  destruct (server_esteps t _ s l1 sn Hl1 Hr) as (sn' & l2 & _ & H2).
  split_and!; [done..|]. exists sn'. by etrans.
Qed.

(** Exit status 0 tells the truth: a server started on a recovered log whose [Run] has
    returned nil, after any interleaving of clients, worker, writer and shutdown, has
    everything it ever acknowledged on disk: the next recovery shows exactly the entries
    the engine held last, with deadlines in whole milliseconds. *)
Theorem clean_exit_loses_nothing recs content p now0 res e0 t c0 s l :
  Forall readable recs ->
  content = [] \/ (content `prefix_of` log_file recs /\ HeaderSize <= len content) ->
  OpenLog ops_ok content p now0 NewEngine = Some (Ret res, e0) -> now0 <= t -> MaxClients c0 <= maxInt64 ->
  reachable t c0 e0 s -> life s = LReturned None ->
  elog (eng s) = Some l -> Forall readable (hist l) -> len (hist l) <= maxUint64 ->
  exists n off (st : Store),
    Replay (mkStream (disk l) EOF) t Store.New = Some (mkResult n off false, None, st) /\
    phys st = recovered t (store (eng s)).
Proof.
  intros Hf Hc Ho Hle Hm Hr Hlife Hl Hh Hmax.
  destruct (clean_exit_run content p now0 res e0 t c0 s l) as (? & ? & sn & H); [done..|].
  by apply (clean_restart recs content p now0 res e0 t (mkEsys (eng s) sn) l).
Qed.

(** Before [Run] has decided what to return. *)
Definition undecided (l : life_pc) : Prop :=
  match l with LCloseAll _ | LClearScans _ | LReturned _ => False | _ => True end.

(** The supervisor has fired with [c], and every decision since says so. *)
Definition blamed (c : fatal) (s : Server) : Prop :=
  sup s = mkSupervisor true (Some c) /\
  match life s with
  | LCloseAll out | LClearScans out | LReturned out => out = Some (FatalCause (Some c))
  | _ => True
  end.

Lemma blamed_step t c s s' : verdict s -> blamed c s -> step t s s' -> blamed c s'.
Proof.
  intros (_ & _ & Hv) [Hsup Hb] Hs. have Hf err : Fatal err (sup s) = sup s by apply Fatal_first; rw Hsup.
  destruct Hs as [d Hacc Hln Hh Hc|Hacc|d ok s' Hacc Had|d Hacc|d Hp|d Hp|d b v args r e' wr Hp Hvn Hdis|
    d b Hp|d clear s' Hp Hr|d Hp|d Hp|iter now Hn Hr|l l' a Hl Hac Hw|err|H|H|H|H|H|H _|H|d H|d ok H Hok|d H _|d H|out H|out H|
    H Hdone|cause H|cause H|cause H|cause H]; rw ?Hf; try (split; cbn; rw ?Hf; done);
    try (rw H in Hb, Hv; split; cbn; rw ?Hf; done).
  - destruct (admit_frame _ _ _ _ Had) as (_ & E1 & _ & _ & E2). rw /blamed /= E1 E2 //.
  - destruct (release_frame _ _ _ _ Hr) as (_ & E1 & _ & E2). rw /blamed /= E1 E2 //.
  - destruct ok; split; cbn; rw ?Hf //.
  - split; [done|]. cbn. rw /decide_exit /Fired /Cause Hsup //.
  - rw H in Hv. destruct Hv as [-> _]. split; [done|]. cbn. by rw Hsup.
Qed.

(** C15. No fatal condition is swallowed: once one has been reported while [Run] has not
    decided its result, however far a shutdown has got, [Run] can only return that
    condition, and the first one reported. *)
Theorem fatal_is_never_swallowed t c0 e s s' c out : MaxClients c0 <= maxInt64 -> done_honest e ->
  reachable t c0 e s -> sup_cause (sup s) = Some c -> undecided (life s) ->
  rtc (step t) s s' -> life s' = LReturned out -> out = Some (FatalCause (Some c)).
Proof.
  intros Hm He Hr Hc Hu Hs Hlife. have Hi := server_inv_reachable t c0 e s Hm He Hr.
  have Hb : blamed c s.
  { destruct Hi as (_ & _ & _ & _ & Hsup & _). split; [|by destruct (life s)].
    have : sup_done (sup s) = true by apply Hsup; rw Hc. destruct (sup s) as [d k]. cbn in *. by intros ->; subst. }
  clear Hr Hc Hu. revert Hb. induction Hs as [s|s1 s2 s3 H1 _ IH]; intros Hb.
  - destruct Hb as [_ Hb]. by rw Hlife in Hb.
  - apply IH; [done|by eapply server_inv_step|]. destruct Hi as (_ & _ & _ & Hv). by eapply blamed_step.
Qed.

(** No scan session outlives the server: when [Run] has returned, whatever it returned,
    and the last handler is gone, even one that outlived the shutdown and opened sessions
    after they had been cleared, no session is retained. *)
Theorem scan_sessions_end_with_server t c0 e s out : MaxClients c0 <= maxInt64 -> done_honest e ->
  reachable t c0 e s -> life s = LReturned out -> handlers s = ∅ ->
  acceptor s = AAccept \/ acceptor s = ADone -> sessions (scanSessions (eng s)) = ∅.
Proof.
  intros Hm He Hr Hlife Hh Hacc. destruct (server_inv_reachable t c0 e s Hm He Hr) as (Ha & _ & Hs & _).
  rw /scans_ok Hlife in Hs. destruct Hs as [?|[Hc|[c Hc]]]; [done| |by rw Hh lookup_empty in Hc].
  exfalso. apply Hc, set_eq => d. rw elem_of_empty. split; [|done]. rw (a_conns _ _ Ha) Hh.
  intros [(p & Hp & _)|E]; [by rw lookup_empty in Hp|]. by destruct Hacc; congruence.
Qed.

(** ** Shutting down ends *)

(** The calls [gracefulShutdown] and [fatalShutdown] still have to make at most. *)
Definition calls_left (p : life_pc) : nat :=
  match p with
  | LServe => 11
  | LStopWorker => 10
  | LBeginDrain => 9
  | LCloseDraining => 8
  | LSetDeadlines => 7
  | LWaitConns => 6
  | LFinalize _ => 5
  | LAwaitLog _ => 4
  | LDecide _ => 3
  | LCloseAll _ => 2
  | LClearScans _ => 1
  | LReturned _ => 0
  | FStopWorker _ => 6
  | FCloseListener _ => 5
  | FBeginDrain _ => 4
  | FCloseDraining _ => 3
  end.

(** A step of the lifecycle goroutine: nothing else moves it. *)
Definition life_step (t : Z) (s s' : Server) : Prop :=
  step t s s' /\ (calls_left (life s') < calls_left (life s))%nat.

Lemma life_moves t s s' : step t s s' -> life s' = life s \/ (calls_left (life s') < calls_left (life s))%nat.
Proof.
  intros H. destruct H as
    [ | |c ok s' Ha Had| | | | | |c cl s' Hh Hrel| | | | | |Hl|Hl|Hl|Hl|Hl|Hl|Hl|drained Hl|drained ok Hl Hf|drained Hl Hf
    |drained Hl|out Hl|out Hl|Hl Hd|cause Hl|cause Hl|cause Hl|cause Hl]; try (by left); try (right; rw Hl; cbn; lia).
  - left. by destruct (admit_frame c s ok s' Had) as (_ & _ & _ & _ & Hlf).
  - left. by destruct (release_frame c s cl s' Hrel) as (_ & _ & _ & Hlf).
  - right. rw Hl /decide_exit. destruct (Fired (sup s)), drained; cbn; lia.
Qed.

(** Every wait of the shutdown has a time-out, so its goroutine is never blocked. *)
Lemma life_enabled t s : life s <> LServe -> (exists out, life s = LReturned out) \/ exists s', life_step t s s'.
Proof.
  intros Hs. have Hgo s' : step t s s' -> life s' <> life s -> exists s', life_step t s s'.
  { intros H Hne. exists s'. split; [done|]. by destruct (life_moves t s s' H). }
  destruct (life s) as [| | | | | |d|d|d|out|out|out|cause|cause|cause|cause] eqn:Hl; [done|..];
    try (by left; exists out); right.
  - by eapply Hgo; [apply s_stop_worker|].
  - by eapply Hgo; [apply s_begin_drain|].
  - by eapply Hgo; [apply s_close_draining|].
  - by eapply Hgo; [apply s_deadlines|].
  - by eapply Hgo; [apply s_not_drained|].
  - by eapply Hgo; [apply (s_finalize t s d)|].
  - destruct (elog (eng s)) eqn:He.
    + eapply Hgo; [apply (s_finalize_timeout t s d); [done|by rw He]|done].
    + eapply Hgo; [apply (s_finalized t s d true); [done|by rw /finalize_result He]|done].
  - eapply Hgo; [by apply (s_decide t s d)|]. cbn. rw /decide_exit. by destruct (Fired (sup s)), d.
  - by eapply Hgo; [apply (s_close_all t s out)|].
  - by eapply Hgo; [apply (s_return t s out)|].
  - by eapply Hgo; [apply (s_fatal_worker t s cause)|].
  - by eapply Hgo; [apply (s_fatal_ln t s cause)|].
  - by eapply Hgo; [apply (s_fatal_drain t s cause)|].
  - by eapply Hgo; [apply (s_fatal_draining t s cause)|].
Qed.

(** C34. A shutdown that has begun ends. Whatever clients, handlers, the worker and the log do in
    between cannot undo a call the shutdown has made; from every state it has reached, with
    clients that never hang up and a log that never finishes included, the lifecycle
    goroutine alone makes [Run] return within ten steps of its own. *)
Theorem shutdown_returns t s : life s <> LServe ->
  (forall s', step t s s' -> life s' = life s \/ (calls_left (life s') < calls_left (life s) <= 10)%nat) /\
  exists n s' out, (n <= 10)%nat /\ nsteps (life_step t) n s s' /\ life s' = LReturned out.
Proof.
  intros Hs. have H10 : (calls_left (life s) <= 10)%nat by destruct (life s); cbn; first [done|lia]. split.
  { intros s' H. destruct (life_moves t s s' H); [by left|by right]. }
  cut (exists n s' out, (n <= calls_left (life s))%nat /\ nsteps (life_step t) n s s' /\ life s' = LReturned out).
  { intros (n & s' & out & Hn & H). exists n, s', out. split; [lia|done]. }
  clear H10. remember (calls_left (life s)) as k eqn:Hk. revert s Hs Hk.
  induction k as [k IH] using lt_wf_ind => s Hs Hk.
  destruct (life_enabled t s Hs) as [[out Hout]|[s1 Hs1]].
  { exists 0%nat, s, out. split; [lia|]. split; [constructor|done]. }
  have Hlt := proj2 Hs1. destruct (IH (calls_left (life s1))) with (s := s1) as (n & s' & out & Hn & H1 & H2);
    [lia| |done|].
  { intros E. rw E in Hlt. destruct (life s); cbn in Hlt; lia. }
  exists (Datatypes.S n), s', out. split; [lia|]. split; [by econstructor|done].
Qed.

(** ** Witnesses *)

Lemma writer_run t as_ s l l' : elog (eng s) = Some l -> acts as_ l = Some l' -> Forall writer_label as_ ->
  rtc (step t) s (set_eng s (with_log (eng s) l')).
Proof.
  revert s l. induction as_ as [|a as_ IH] => s l Hl /=.
  - intros [= <-] _. have -> : set_eng s (with_log (eng s) l) = s; [|apply rtc_refl].
    rw /with_log -Hl. destruct s as [? [] ? ? ? ? ? ? ? ? ?]. done.
  - destruct (act a l) as [l1|] eqn:Ea; [|done]. intros Hrest [Ha Has]%Forall_cons_1.
    eapply rtc_l; [by apply (s_writer t s l l1 a)|].
    by apply (IH (set_eng s (with_log (eng s) l1)) l1).
Qed.

(** A server with a log: one client connects and sets a key, the reply does not get through,
    the client is released, and the server is told to stop. *)
Definition v_env : env := mkEnv 1 (fun _ => None) [] 0 [].
Definition v_set : list bytes := [str "SET"; str "k"; str "v"].
Definition v0 : Server := RunWithReady (New DefaultConfig w_e0 NewSupervisor).
Definition v1 : Server := set_acceptor v0 (AGot 0).
Definition v2 : Server := set_acceptor (admitConn 0 v1).2 (AAdmitted 0).
Definition v3 : Server := set_handlers (set_acceptor (wg_add 1 v2) AAccept) (<[0%nat := HCheck]> (handlers v2)).
Definition v4 : Server := set_handlers v3 (<[0%nat := HArm]> (handlers v3)).
Definition v5 : Server := set_handlers v4 (<[0%nat := HRead false]> (handlers v4)).
Definition v_e : Engine sys := (done_with (Dispatch v_env v_set (eng v5)) (eng v5)).2.
Definition v6 : Server := set_handlers (set_eng v5 v_e) (<[0%nat := HExit]> (handlers v5)).
Definition v7 : Server := set_handlers (releaseConn 0 v6).2 (<[0%nat := HClose]> (handlers v6)).
Definition v8 : Server := set_handlers (wg_add (-1) v7) (delete 0%nat (handlers v7)).
Definition v9 : Server := set_life (close_ln v8) LStopWorker.
Definition v10 : Server := set_life (set_eng v9 (StopExpiration (eng v9))) LBeginDrain.
Definition v11 : Server := set_life (set_eng v10 (BeginDrain (eng v10))) LCloseDraining.
Definition v12 : Server := set_life (close_draining v11) LSetDeadlines.
Definition v13 : Server := set_life (set_handlers v12 (wake (conns v12) (handlers v12))) LWaitConns.
Definition v14 : Server := set_life v13 (LFinalize true).
Definition v15 : Server := set_life (set_eng v14 (Finalize (eng v14))) (LAwaitLog true).
Definition v_l : sys := default w_l0 (elog (eng v15)).
Definition v_acts : list label :=
  [LNotify; LSwap; LWrite (len (lbuf (lg v_l))) true; LDelivered; LAdvanceWritten; LSync true []; LAdvanceSynced;
   LSeeClose; LSwap; LSync true []; LAdvanceSynced; LFinish; LExit].
Definition v_l' : sys := default w_l0 (acts v_acts v_l).
Definition v16 : Server := set_eng v15 (with_log (eng v15) v_l').
Definition v17 : Server := set_life v16 (LDecide true).
Definition v18 : Server := set_life v17 (decide_exit true v17).
Definition v19 : Server := set_life (set_eng v18 (ClearScanSessions (eng v18))) (LReturned None).

(** Up to the end of the client's connection. *)
Lemma v_client : rtc (step second) v0 v8.
Proof.
  eapply rtc_l; [by apply (s_accept second v0 0%nat)|].
  eapply rtc_l; [by apply (s_admit second v1 0%nat true (admitConn 0 v1).2); vm_compute|].
  eapply rtc_l; [by apply (s_spawn second v2 0%nat)|].
  eapply rtc_l; [by apply (s_check second v3 0%nat)|].
  eapply rtc_l; [by apply (s_arm second v4 0%nat)|].
  eapply rtc_l; [apply (s_dispatch second v5 0%nat false v_env v_set (Simple (str "OK")) v_e false);
    [done|by vm_compute|vm_compute; reflexivity]|].
  eapply rtc_l; [apply (s_release second v6 0%nat false (releaseConn 0 v6).2); [done|vm_compute; reflexivity]|].
  eapply rtc_l; [by apply (s_done second v7 0%nat)|]. apply rtc_refl.
Qed.

Lemma v_drain : rtc (step second) v8 v13.
Proof.
  eapply rtc_l; [by apply (s_ctx_done second v8)|]. eapply rtc_l; [by apply (s_stop_worker second v9)|].
  eapply rtc_l; [by apply (s_begin_drain second v10)|]. eapply rtc_l; [by apply (s_close_draining second v11)|].
  eapply rtc_l; [by apply (s_deadlines second v12)|]. apply rtc_refl.
Qed.

Lemma v_stop : rtc (step second) v13 v19.
Proof.
  eapply rtc_l; [by apply (s_drained second v13)|]. eapply rtc_l; [by apply (s_finalize second v14 true)|].
  etrans; [apply (writer_run second v_acts v15 v_l v_l');
    [vm_compute; reflexivity|vm_compute; reflexivity|by repeat constructor]|].
  eapply rtc_l; [apply (s_finalized second v16 true true); [done|vm_compute; reflexivity]|].
  eapply rtc_l; [by apply (s_decide second v17 true)|].
  eapply rtc_l; [apply (s_return second v18 None); vm_compute; reflexivity|]. apply rtc_refl.
Qed.

Lemma v_reachable : reachable second DefaultConfig w_e0 v19.
Proof. rw /reachable. etrans; [apply v_client|]. etrans; [apply v_drain|apply v_stop]. Qed.

Lemma max_ok : MaxClients DefaultConfig <= maxInt64.
Proof. by vm_compute. Qed.

Lemma w_e0_honest : done_honest w_e0.
Proof. by vm_compute. Qed.

Lemma admission_exact_witness : nClient v19 = 0 /\ wg v19 = 0.
Proof.
  destruct (admission_exact second DefaultConfig w_e0 v19 ltac:(by vm_compute) v_reachable) as (_ & _ & Hw & _ & Hn).
  split; [apply Hn; [vm_compute; reflexivity|by left]|]. rw Hw. vm_compute. reflexivity.
Defined.

Lemma draining_freezes_witness : frozen second (eng v13) (eng v19).
Proof.
  refine (draining_freezes_data second DefaultConfig w_e0 v13 v19 _ eq_refl v_stop).
  rw /reachable. etrans; [apply v_client|apply v_drain].
Defined.

Lemma v_readable : Forall readable (hist v_l').
Proof.
  apply Forall_singleton. split; [by vm_compute|]. split_and!; [by vm_compute..| |by vm_compute].
  by repeat constructor; vm_compute.
Qed.

Lemma clean_exit_witness : exists n off (st : Store),
  Replay (mkStream (disk v_l') EOF) second Store.New = Some (mkResult n off false, None, st) /\
  phys st = recovered second (store (eng v19)).
Proof.
  refine (clean_exit_loses_nothing [] [] Always 0 (mkResult 0 HeaderSize false) w_e0 second DefaultConfig v19 v_l'
    _ (or_introl eq_refl) _ _ max_ok v_reachable eq_refl _ v_readable _);
    [constructor|vm_compute; reflexivity|by vm_compute|vm_compute; reflexivity|by vm_compute].
Defined.

(** A fatal report while the log is being finalised. *)
Definition u17 : Server := set_sup v17 (Fatal (Reported 7) (sup v17)).
Definition u18 : Server := set_life u17 (decide_exit true u17).
Definition u19 : Server := set_life (set_handlers u18 (wake (conns u18) (handlers u18))) (LClearScans (Some (FatalCause (Some (Reported 7))))).
Definition u20 : Server := set_life (set_eng u19 (ClearScanSessions (eng u19))) (LReturned (Some (FatalCause (Some (Reported 7))))).

Lemma u_reachable : reachable second DefaultConfig w_e0 u17.
Proof.
  rw /reachable. etrans; [apply v_client|]. etrans; [apply v_drain|].
  eapply rtc_l; [by apply (s_drained second v13)|]. eapply rtc_l; [by apply (s_finalize second v14 true)|].
  etrans; [apply (writer_run second v_acts v15 v_l v_l');
    [vm_compute; reflexivity|vm_compute; reflexivity|by repeat constructor]|].
  eapply rtc_l; [apply (s_finalized second v16 true true); [done|vm_compute; reflexivity]|].
  apply rtc_once, (s_fatal second v17 (Reported 7)).
Qed.

Lemma fatal_witness :
  match life u20 with LReturned out => out | _ => None end = Some (FatalCause (Some (Reported 7))).
Proof.
  refine (fatal_is_never_swallowed second DefaultConfig w_e0 u17 u20 (Reported 7) _ max_ok w_e0_honest u_reachable
    eq_refl I _ eq_refl).
  eapply rtc_l; [by apply (s_decide second u17 true)|].
  eapply rtc_l; [by apply (s_close_all second u18 (Some (FatalCause (Some (Reported 7)))))|].
  eapply rtc_l; [by apply (s_return second u19)|]. apply rtc_refl.
Defined.

Lemma scan_sessions_end_witness : sessions (scanSessions (eng v19)) = ∅.
Proof.
  refine (scan_sessions_end_with_server second DefaultConfig w_e0 v19 None max_ok w_e0_honest v_reachable eq_refl _ _);
    [vm_compute; reflexivity|by left].
Defined.

Lemma shutdown_returns_witness : exists n s' out, (n <= 10)%nat /\ nsteps (life_step second) n v10 s' /\ life s' = LReturned out.
Proof. refine (proj2 (shutdown_returns second v10 _)). done. Defined.

(** A handler that has passed the test of [draining] but not yet set its read deadline
    overwrites the one the shutdown sets, and waits for its idle client: with the default
    [ReadTimeout] of 0, until the shutdown times out. *)
Definition x9 : Server := set_life (close_ln v4) LStopWorker.
Definition x10 : Server := set_life (set_eng x9 (StopExpiration (eng x9))) LBeginDrain.
Definition x11 : Server := set_life (set_eng x10 (BeginDrain (eng x10))) LCloseDraining.
Definition x12 : Server := set_life (close_draining x11) LSetDeadlines.
Definition x13 : Server := set_life (set_handlers x12 (wake (conns x12) (handlers x12))) LWaitConns.
Definition x14 : Server := set_handlers x13 (<[0%nat := HRead false]> (handlers x13)).

Example lost_wakeup : reachable second DefaultConfig w_e0 x14 /\
  life x14 = LWaitConns /\ draining x14 = true /\ handlers x14 !! 0%nat = Some (HRead false).
Proof.
  split; [|done].
  eapply rtc_l; [by apply (s_accept second v0 0%nat)|].
  eapply rtc_l; [by apply (s_admit second v1 0%nat true (admitConn 0 v1).2); vm_compute|].
  eapply rtc_l; [by apply (s_spawn second v2 0%nat)|]. eapply rtc_l; [by apply (s_check second v3 0%nat)|].
  eapply rtc_l; [by apply (s_ctx_done second v4)|]. eapply rtc_l; [by apply (s_stop_worker second x9)|].
  eapply rtc_l; [by apply (s_begin_drain second x10)|]. eapply rtc_l; [by apply (s_close_draining second x11)|].
  eapply rtc_l; [by apply (s_deadlines second x12)|]. eapply rtc_l; [by apply (s_arm second x13 0%nat)|]. apply rtc_refl.
Qed.

(** A refused client receives the whole explanation. *)
Example reject_sends : delivered (reject (S:=bytes) []) = str "-ERR max number of clients reached" ++ CRLF.
Proof. vm_compute. reflexivity. Qed.
