(* ===== verification/Main.v ===== *)
(** * The server binary (src/cmd/kv-server/main.go)

    The process from its command line to its exit status: the flags and their defaults,
    [flag.Parse] (in [Flags]), the two enumerations, the configuration, recovery before the
    listener opens, [Run] (in [Server]), and what [main] exits with. The file system, the
    outcome of [net.Listen] and the clock are arguments; a signal is [Server]'s step
    [s_ctx_done]. Log lines and what is printed on stderr are left out. *)

From S2P Require Import Prelude.
From S2P Require Import GoLib.
From S2P Require Import Flags.
From S2P Require Import Store.
From S2P Require Import AofCodec.
From S2P Require Import AofReplay.
From S2P Require Import AofLog.
From S2P Require Import RespReader.
From S2P Require Import ScanSessions.
From S2P Require Import Engine.
From S2P Require Import EngineRecovery.
From S2P Require Import Server.

(** [slog]'s levels. *)
Inductive Level := LevelDebug | LevelInfo | LevelWarn | LevelError.

(** What ends the process before it serves. *)
Inductive start_err :=
| FlagError (err : flag_err)
| InvalidLevel (s : bytes)
| InvalidFsync (s : bytes)
| Recovering (path : bytes) (err : open_err)
| ListenFailed (addr : bytes).

Record options := mkOptions {
  host : bytes;
  port : Z;
  maxClients : Z;
  timeout : Z;
  shutdownTimeout : Z;
  maxBulk : Z;
  maxArgs : Z;
  maxCommand : Z;
  logLevel : bytes;
  appendOnly : bool;
  appendFilename : bytes;
  appendFsync : bytes
}.

(** The stores through the pointers. *)
Definition set_host v o : options :=
  mkOptions v (port o) (maxClients o) (timeout o) (shutdownTimeout o) (maxBulk o) (maxArgs o) (maxCommand o) (logLevel o) (appendOnly o) (appendFilename o) (appendFsync o).
Definition set_port v o : options :=
  mkOptions (host o) v (maxClients o) (timeout o) (shutdownTimeout o) (maxBulk o) (maxArgs o) (maxCommand o) (logLevel o) (appendOnly o) (appendFilename o) (appendFsync o).
Definition set_maxClients v o : options :=
  mkOptions (host o) (port o) v (timeout o) (shutdownTimeout o) (maxBulk o) (maxArgs o) (maxCommand o) (logLevel o) (appendOnly o) (appendFilename o) (appendFsync o).
Definition set_timeout v o : options :=
  mkOptions (host o) (port o) (maxClients o) v (shutdownTimeout o) (maxBulk o) (maxArgs o) (maxCommand o) (logLevel o) (appendOnly o) (appendFilename o) (appendFsync o).
Definition set_shutdownTimeout v o : options :=
  mkOptions (host o) (port o) (maxClients o) (timeout o) v (maxBulk o) (maxArgs o) (maxCommand o) (logLevel o) (appendOnly o) (appendFilename o) (appendFsync o).
Definition set_maxBulk v o : options :=
  mkOptions (host o) (port o) (maxClients o) (timeout o) (shutdownTimeout o) v (maxArgs o) (maxCommand o) (logLevel o) (appendOnly o) (appendFilename o) (appendFsync o).
Definition set_maxArgs v o : options :=
  mkOptions (host o) (port o) (maxClients o) (timeout o) (shutdownTimeout o) (maxBulk o) v (maxCommand o) (logLevel o) (appendOnly o) (appendFilename o) (appendFsync o).
Definition set_maxCommand v o : options :=
  mkOptions (host o) (port o) (maxClients o) (timeout o) (shutdownTimeout o) (maxBulk o) (maxArgs o) v (logLevel o) (appendOnly o) (appendFilename o) (appendFsync o).
Definition set_logLevel v o : options :=
  mkOptions (host o) (port o) (maxClients o) (timeout o) (shutdownTimeout o) (maxBulk o) (maxArgs o) (maxCommand o) v (appendOnly o) (appendFilename o) (appendFsync o).
Definition set_appendOnly v o : options :=
  mkOptions (host o) (port o) (maxClients o) (timeout o) (shutdownTimeout o) (maxBulk o) (maxArgs o) (maxCommand o) (logLevel o) v (appendFilename o) (appendFsync o).
Definition set_appendFilename v o : options :=
  mkOptions (host o) (port o) (maxClients o) (timeout o) (shutdownTimeout o) (maxBulk o) (maxArgs o) (maxCommand o) (logLevel o) (appendOnly o) v (appendFsync o).
Definition set_appendFsync v o : options :=
  mkOptions (host o) (port o) (maxClients o) (timeout o) (shutdownTimeout o) (maxBulk o) (maxArgs o) (maxCommand o) (logLevel o) (appendOnly o) (appendFilename o) v.

(** The flags, and the options as they are before the command line is read: each flag's
    default. *)
Definition registerFlags : list (flag options) * options :=
  ([String_ (str "host") set_host;
   Int (str "port") set_port;
   Int (str "max-clients") set_maxClients;
   Duration (str "timeout") set_timeout;
   Duration (str "shutdown-timeout") set_shutdownTimeout;
   Int (str "max-bulk-length") set_maxBulk;
   Int (str "max-array-elements") set_maxArgs;
   Int (str "max-command-bytes") set_maxCommand;
   String_ (str "loglevel") set_logLevel;
   Bool (str "appendonly") set_appendOnly;
   String_ (str "appendfilename") set_appendFilename;
   String_ (str "appendfsync") set_appendFsync],
   mkOptions (str "127.0.0.1") 6380 1024 0 (10 * second) (Z.shiftl 64 20) 1024 (Z.shiftl 128 20) (str "info")
     false (str "appendonly.aof") (str "everysec")).

(** [flag.Parse]: what follows the flags is not looked at. *)
Definition parse_args (args : list bytes) : result flag_err options :=
  match Parse registerFlags.1 args registerFlags.2 with
  | Fail err => Fail err
  | Ret (opt, _) => Ret opt
  end.

Definition parsePolicy (s : bytes) : result start_err Policy :=
  if bool_decide (s = str "everysec") then Ret EverySec
  else if bool_decide (s = str "always") then Ret Always
  else Fail (InvalidFsync s).

Definition parseLevel (s : bytes) : result start_err Level :=
  if bool_decide (s = str "debug") then Ret LevelDebug
  else if bool_decide (s = str "info") then Ret LevelInfo
  else if bool_decide (s = str "warn") then Ret LevelWarn
  else if bool_decide (s = str "error") then Ret LevelError
  else Fail (InvalidLevel s).

(** The configuration [run] builds from [server.DefaultConfig]. *)
Definition config_of (opt : options) : Config :=
  mkConfig (host opt ++ str ":" ++ FormatInt (port opt)) (maxClients opt) (timeout opt)
    (WriteTimeout DefaultConfig) (shutdownTimeout opt)
    (mkLimits (maxArgs opt) (maxBulk opt) (maxCommand opt)) (cfg_flushEveryReply DefaultConfig).

(** [run] until [srv.Run] serves: [ops] and [content] are the file system and the append-only
    file, [listen] whether an address can be bound, [now] the clock at recovery. [None] is a
    panic. *)
Definition run (args : list bytes) (ops : file_ops) (content : bytes) (listen : bytes -> bool) (now : Z) :
    option (result start_err Server) :=
  match parse_args args with
  | Fail err => Some (Fail (FlagError err))
  | Ret opt =>
      match parseLevel (logLevel opt) with
      | Fail err => Some (Fail err)
      | Ret _ =>
          let cfg := config_of opt in
          match parsePolicy (appendFsync opt) with
          | Fail err => Some (Fail err)
          | Ret policy =>
              let serve e :=
                if listen (Addr cfg) then Some (Ret (RunWithReady (New cfg e NewSupervisor)))
                else Some (Fail (ListenFailed (Addr cfg))) in
              if appendOnly opt then
                match OpenLog ops content policy now NewEngine with
                | None => None
                | Some (Fail err, _) => Some (Fail (Recovering (appendFilename opt) err))
                | Some (Ret _, e) => serve e
                end
              else serve NewEngine
          end
      end
  end.

(** The exit status: [flag.ExitOnError] exits with 0 for [-help] and with 2 otherwise, [main]
    with 1 for an error of [run], which is [srv.Run]'s once the server has served. *)
Definition start_status (err : start_err) : Z :=
  match err with FlagError ErrHelp => 0 | FlagError _ => 2 | _ => 1 end.
Definition main (out : option run_err) : Z := match out with None => 0 | Some _ => 1 end.

(** ** The command line *)

(** What a flag writes fits the machine's [int]. *)
Definition ints_ok (o : options) : Prop :=
  Forall is_int64 [port o; maxClients o; timeout o; shutdownTimeout o; maxBulk o; maxArgs o; maxCommand o].

(** One argument per flag. *)
Definition render (o : options) : list (bytes * bytes) :=
  [(str "host", host o);
   (str "port", FormatInt (port o));
   (str "max-clients", FormatInt (maxClients o));
   (str "timeout", FormatNanos (timeout o));
   (str "shutdown-timeout", FormatNanos (shutdownTimeout o));
   (str "max-bulk-length", FormatInt (maxBulk o));
   (str "max-array-elements", FormatInt (maxArgs o));
   (str "max-command-bytes", FormatInt (maxCommand o));
   (str "loglevel", logLevel o);
   (str "appendonly", if appendOnly o then str "true" else str "false");
   (str "appendfilename", appendFilename o);
   (str "appendfsync", appendFsync o)].

Lemma flags_independent : independent registerFlags.1.
Proof.
  apply independent_of. intros f g v w o Hf Hg Hne.
  repeat (apply elem_of_cons in Hf as [->|Hf]); [..|by apply elem_of_nil in Hf];
    (repeat (apply elem_of_cons in Hg as [->|Hg]); [..|by apply elem_of_nil in Hg]);
    try (exfalso; apply Hne; reflexivity); clear Hne;
    cbn [f_set Int Duration Bool String_ Var];
    try destruct (ParseInt0 v); try destruct (ParseDuration v); try destruct (ParseBool v);
    try destruct (ParseInt0 w); try destruct (ParseDuration w); try destruct (ParseBool w); reflexivity.
Qed.

Lemma parsed_ints_ok args opt : parse_args args = Ret opt -> ints_ok opt.
Proof.
  rw /parse_args. destruct (Parse _ _ _) as [[o rest]|] eqn:E; [|done]. intros [= <-].
  eapply (Parse_inv ints_ok); [|done| |exact E]; last by rw /ints_ok; repeat constructor; vm_compute.
  intros f v o1 o2 Hf Hs Ho. rw /ints_ok !Forall_cons in Ho |- *. destruct Ho as (? & ? & ? & ? & ? & ? & ? & ?).
  repeat (apply elem_of_cons in Hf as [->|Hf]); [..|by apply elem_of_nil in Hf];
    cbn [f_set Int Duration Bool String_ Var] in Hs; apply fmap_Some in Hs as (x & Hx & ->);
    first [apply ParseInt0_range in Hx | apply ParseDuration_range in Hx | idtac]; by split_and!.
Qed.

Lemma set_rendered o o0 : ints_ok o -> set_flags registerFlags.1 (render o) (Some o0) = Some o.
Proof.
  rw /ints_ok !Forall_cons. intros (? & ? & ? & ? & ? & ? & ? & _).
  rw /render.
  repeat (erewrite set_flags_cons;
    [|first [apply set_duration; [reflexivity|done] | apply set_int; [reflexivity|done] | apply set_bool; reflexivity |
             apply set_string; reflexivity]]).
  by destruct o.
Qed.

(** ** Theorems *)

(** The flags' defaults and the defaults of the packages they configure are the same. *)
Example flag_defaults :
  config_of registerFlags.2 = DefaultConfig /\ cfg_Limits DefaultConfig = DefaultLimits /\
  parsePolicy (appendFsync registerFlags.2) = Ret EverySec /\ parseLevel (logLevel registerFlags.2) = Ret LevelInfo /\
  parse_args [] = Ret registerFlags.2.
Proof. split_and!; vm_compute; reflexivity. Qed.

(** C36. The command line says what it says: giving every flag its value, in any order,
    yields exactly those options, whatever bytes the strings are made of and up to the ends
    of the 64-bit range; so no flag is registered under another's name, writes another's
    variable or loses part of its value. *)
Theorem flags_roundtrip opt args : ints_ok opt ->
  args ≡ₚ ((fun p => flag_arg p.1 p.2) <$> render opt) -> parse_args args = Ret opt.
Proof.
  intros Hi Hp. destruct (Permutation_map_inv (fun p => flag_arg p.1 p.2) (render opt) Hp) as (ps & -> & Hps).
  rw /parse_args (Parse_set_flags _ _ _ opt) //.
  - rw -Hps. by repeat constructor.
  - rw -(set_flags_perm _ (render opt) ps flags_independent) //; [|by apply set_rendered].
    apply (bool_decide_unpack _). vm_compute. exact I.
Qed.

(** C35. The server serves only what it has recovered: with [-appendonly], a start on a new
    file, or on a log that a crash cut anywhere behind its header, serves from exactly the
    complete records of that log, with the rest cut off the file; without it, the server
    starts empty and has no log. *)
Theorem start_serves_recovered_state args opt listen recs content now p :
  Forall readable recs ->
  content = [] \/ (content `prefix_of` log_file recs /\ HeaderSize <= len content) ->
  parse_args args = Ret opt ->
  (exists lv, parseLevel (logLevel opt) = Ret lv) -> parsePolicy (appendFsync opt) = Ret p ->
  listen (Addr (config_of opt)) = true ->
  exists s, run args ops_ok content listen now = Some (Ret s) /\ cfg s = config_of opt /\ life s = LServe /\
    if appendOnly opt
    then exists kept q l,
      ((content = [] /\ kept = []) \/ (survives recs kept q /\ content = log_file kept ++ q)) /\
      elog (eng s) = Some l /\ epolicy (eng s) = p /\ file l = log_file kept /\
      forall t, now <= t -> recovered t (store (eng s)) = effects t ∅ kept
    else phys (store (eng s)) = ∅ /\ elog (eng s) = None.
Proof.
  intros Hr Hc Ha [lv Hl] Hp Hb. rw /run Ha Hl Hp Hb. destruct (appendOnly opt).
  2:{ eexists. split; [done|]. by split_and!. }
  destruct (OpenFile_repairs (D:=Store) recs content now Store.New Hr Hc) as (kept & q & res & st & Hk & E & _ & He & _).
  rw /OpenLog E. cbn [NewEngine elog]. eexists. split; [done|]. split_and!; [done|done|]. exists kept, q.
  eexists. split_and!; [done|done|done|done|]. intros t Ht. by apply (recovered_effects now).
Qed.

(** A start that serves: what the command line said and what was recovered. *)
Lemma run_serves args ops content listen now s : run args ops content listen now = Some (Ret s) ->
  exists opt p e, parse_args args = Ret opt /\ parsePolicy (appendFsync opt) = Ret p /\
    (exists lv, parseLevel (logLevel opt) = Ret lv) /\ listen (Addr (config_of opt)) = true /\
    s = RunWithReady (New (config_of opt) e NewSupervisor) /\
    if appendOnly opt then exists res, OpenLog ops content p now NewEngine = Some (Ret res, e) else e = NewEngine.
Proof.
  rw /run. destruct (parse_args args) as [opt|]; [|done]. destruct (parseLevel _) as [lv|] eqn:El; [|done].
  destruct (parsePolicy _) as [p|] eqn:Ep; [|done].
  destruct (appendOnly opt) eqn:Ea; [destruct (OpenLog _ _ _ _ _) as [[[res|] e]|] eqn:Eo; try done|];
    (destruct (listen _) eqn:Eb; [|done]); intros [= <-]; exists opt, p; eexists; rw Ea; eauto 10.
Qed.

(** C6. Exit status 0 tells the truth. A process started with [-appendonly], on a new file or
    on a log that a crash has cut, which has served and then exits with status 0, after any
    interleaving of clients, worker, writer, signals and fatal reports, can be started again
    on the file it left: the same command line then serves exactly the entries held last,
    with deadlines in whole milliseconds. *)
Theorem exit_zero_restarts args opt recs content listen now0 s0 t s out l :
  parse_args args = Ret opt -> appendOnly opt = true -> Forall readable recs ->
  content = [] \/ (content `prefix_of` log_file recs /\ HeaderSize <= len content) ->
  run args ops_ok content listen now0 = Some (Ret s0) -> now0 <= t ->
  rtc (step t) s0 s -> life s = LReturned out -> main out = 0 ->
  elog (eng s) = Some l -> Forall readable (hist l) -> len (hist l) <= maxUint64 ->
  exists s', run args ops_ok (disk l) listen t = Some (Ret s') /\
    recovered t (store (eng s')) = recovered t (store (eng s)).
Proof.
  intros Ha Hon Hr Hc Hrun Hle Hs Hlife Hmain Hl Hh Hmax. destruct out; [done|].
  apply run_serves in Hrun as (opt' & p & e & Ha' & Hp & [lv Hlv] & Hb & -> & Ho).
  rw Ha in Ha'. injection Ha' as <-. rw Hon in Ho. destruct Ho as [res Ho].
  have Hm : MaxClients (config_of opt) <= maxInt64.
  { apply parsed_ints_ok in Ha. rw /ints_ok !Forall_cons /is_int64 in Ha. cbn. lia. }
  destruct (clean_exit_run content p now0 res e t (config_of opt) s l) as (Hat & Hf & sn & Hes); [done..|].
  destruct (clean_disk recs content p now0 res e t (mkEsys (eng s) sn) l) as (all & Hall & -> & Heff); [done..|].
  cbn [EngineRecovery.eng] in Heff. rw /run Ha Hlv Hp Hb Hon.
  destruct (Replay_tail (D:=Store) all [] sample_record t Store.New) as (st & E & He);
    [done|apply sample_readable|apply prefix_nil|done|]. rw app_nil_r in E.
  rw /OpenLog (OpenFile_replayed _ _ _ all [] _ _ st _ E); [by rw app_nil_r|].
  cbn [NewEngine elog]. eexists. split; [done|]. cbn in He |- *. rw -Heff. by apply (recovered_effects t).
Qed.

(** ** Witnesses *)

Definition with_aof : list bytes := [str "-appendonly"; str "--appendfsync"; str "always"].
Definition with_aof_opt : options := set_appendOnly true (set_appendFsync (str "always") registerFlags.2).
Definition any_addr : bytes -> bool := fun _ => true.

Lemma start_serves_witness : exists s, run with_aof ops_ok [] any_addr 0 = Some (Ret s) /\ life s = LServe.
Proof.
  destruct (start_serves_recovered_state with_aof with_aof_opt any_addr [] [] 0 Always ltac:(constructor) (or_introl eq_refl)
    ltac:(vm_compute; reflexivity) (ex_intro _ LevelInfo eq_refl) eq_refl eq_refl) as (s & E & _ & Hl & _).
  by exists s.
Defined.

Lemma flags_roundtrip_witness :
  parse_args ((fun p => flag_arg p.1 p.2) <$> render (set_host (str "a=b") (set_timeout (-1) with_aof_opt))) =
    Ret (set_host (str "a=b") (set_timeout (-1) with_aof_opt)).
Proof. apply flags_roundtrip; [repeat constructor; vm_compute; congruence|reflexivity]. Defined.

(** [Server]'s example run, from the command line. *)
Lemma exit_zero_witness : exists s', run with_aof ops_ok (disk v_l') any_addr second = Some (Ret s') /\
  recovered second (store (eng s')) = recovered second (store (eng v19)).
Proof.
  refine (exit_zero_restarts with_aof with_aof_opt [] [] any_addr 0 v0 second v19 None v_l' _ _ _
    (or_introl eq_refl) _ _ v_reachable _ eq_refl _ v_readable _);
    [vm_compute; reflexivity|reflexivity|constructor|vm_compute; reflexivity|by vm_compute|reflexivity|vm_compute; reflexivity|by vm_compute].
Defined.

(** The ways not to start, and the exit status of each. *)
Definition status_of (args : list bytes) (content : bytes) (listen : bytes -> bool) : option Z :=
  match run args ops_ok content listen 0 with Some (Fail err) => Some (start_status err) | _ => None end.
Example bad_flags_refused :
  run [str "-loglevel=loud"] ops_ok [] any_addr 0 = Some (Fail (InvalidLevel (str "loud"))) /\
  run [str "-appendfsync"; str "never"] ops_ok [] any_addr 0 = Some (Fail (InvalidFsync (str "never"))) /\
  run [str "-port=70000000000000000000"] ops_ok [] any_addr 0 = Some (Fail (FlagError (BadValue (str "port")))) /\
  run [str "-timeout"; str "10"] ops_ok [] any_addr 0 = Some (Fail (FlagError (BadValue (str "timeout")))) /\
  run [str "-verbose"] ops_ok [] any_addr 0 = Some (Fail (FlagError (NotDefined (str "verbose")))) /\
  status_of [str "-h"] [] any_addr = Some 0 /\ status_of [str "-port"] [] any_addr = Some 2 /\
  status_of with_aof (str "not a log") any_addr = Some 1 /\ status_of [] [] (fun _ => false) = Some 1.
Proof. split_and!; vm_compute; reflexivity. Qed.
