(* ===== verification/Client.v ===== *)
(** * The example client (src/examples/go-client/main.go)

    A program over redigo, a third-party client library: its operations are a type class
    [Redigo], and what the client relies on of its documentation the laws of
    [RedigoLaws]: what the conversions do with each kind of reply, and that [Do] sends a
    command and returns the server's reply. The server on the other side is [Command]'s
    [Dispatch]. [main] is a program in a small monad with the connection, the standard
    output, and the two ways to stop: [log.Fatalf] and a panic. *)

From S2P Require Import Prelude.
From S2P Require Import GoLib.
From S2P Require Import Flags.
From S2P Require Import Store.
From S2P Require Import AofLog.
From S2P Require Import RespWriter.
From S2P Require Import ScanSessions.
From S2P Require Import Engine.
From S2P Require Import Command.

(** ** [%q]: [strconv.Quote] *)

(** [utf8.DecodeRuneInString] on a first byte of at least 0x80: the rune and its width, or
    [None] for an invalid sequence. *)
Definition in_range (lo hi : Z) (b : byte) : bool := (lo <=? bval b) && (bval b <=? hi).
Definition cont (b : byte) : Z := Z.land (bval b) 63.
Definition decode_rune (s : bytes) : option (Z * nat) :=
  match s with
  | a :: b :: s' =>
      if in_range 0xC2 0xDF a && in_range 0x80 0xBF b then Some (Z.lor (Z.shiftl (Z.land (bval a) 31) 6) (cont b), 2%nat)
      else
        match s' with
        | c :: s'' =>
            let lo := if bval a =? 0xE0 then 0xA0 else 0x80 in
            let hi := if bval a =? 0xED then 0x9F else 0xBF in
            if in_range 0xE0 0xEF a && in_range lo hi b && in_range 0x80 0xBF c
            then Some (Z.lor (Z.shiftl (Z.land (bval a) 15) 12) (Z.lor (Z.shiftl (cont b) 6) (cont c)), 3%nat)
            else
              match s'' with
              | d :: _ =>
                  let lo := if bval a =? 0xF0 then 0x90 else 0x80 in
                  let hi := if bval a =? 0xF4 then 0x8F else 0xBF in
                  if in_range 0xF0 0xF4 a && in_range lo hi b && in_range 0x80 0xBF c && in_range 0x80 0xBF d
                  then Some (Z.lor (Z.shiftl (Z.land (bval a) 7) 18)
                               (Z.lor (Z.shiftl (cont b) 12) (Z.lor (Z.shiftl (cont c) 6) (cont d))), 4%nat)
                  else None
              | [] => None
              end
        | [] => None
        end
  | _ => None
  end.

(** The low [n] hexadecimal digits. *)
Definition hex_digit (d : Z) : byte := byte_of (if d <? 10 then 48 + d else 87 + d).
Fixpoint hex (n : nat) (z : Z) : bytes :=
  match n with O => [] | S n => hex n (Z.shiftr z 4) ++ [hex_digit (Z.land z 15)] end.

Section quote.
(** Unicode's tables of printable runes beyond Latin-1. *)
Context (printable : Z -> bool).

Definition IsPrint (r : Z) : bool :=
  if r <=? 0xFF then ((0x20 <=? r) && (r <? 0x7F)) || ((0xA1 <=? r) && negb (r =? 0xAD)) else printable r.

(** [appendEscapedRune]; [raw] is the rune's encoding. *)
Definition escaped_rune (r : Z) (raw : bytes) : bytes :=
  if (r =? 34) || (r =? 92) then "\"%byte :: raw
  else if IsPrint r then raw
  else if r =? 7 then str "\a"
  else if r =? 8 then str "\b"
  else if r =? 12 then str "\f"
  else if r =? 10 then str "\n"
  else if r =? 13 then str "\r"
  else if r =? 9 then str "\t"
  else if r =? 11 then str "\v"
  else if (r <? 32) || (r =? 127) then str "\x" ++ hex 2 r
  else if r <? 0x10000 then str "\u" ++ hex 4 r
  else str "\U" ++ hex 8 r.

(** [skip] counts the bytes of a rune already written. *)
Fixpoint quote_loop (skip : nat) (s : bytes) : bytes :=
  match s with
  | [] => []
  | c :: s' =>
      match skip with
      | S skip => quote_loop skip s'
      | O =>
          if bval c <? 128 then escaped_rune (bval c) [c] ++ quote_loop 0 s'
          else
            match decode_rune s with
            | None => str "\x" ++ hex 2 (bval c) ++ quote_loop 0 s'
            | Some (r, width) => escaped_rune r (take width s) ++ quote_loop (width - 1) s'
            end
      end
  end.
Definition Quote (s : bytes) : bytes := x22 :: quote_loop 0 s ++ [x22].
End quote.

(** ** redigo *)

(** The Go values its documentation lists for the replies of a server. *)
Inductive iface :=
| INil
| IString (s : bytes)
| IInt64 (n : Z)
| IBytes (b : bytes)
| IArray (items : list iface)
| IError (s : bytes).

(** The package's functions and the methods of a connection [C]; [error] is Go's, with its
    text. A conversion takes the pair that [Do] returned. *)
Class Redigo (C : Type) := {
  error : Type;
  error_eq_dec :: EqDecision error;
  Error_ : error -> bytes;
  ErrNil : error;
  redis_Error : bytes -> error;
  Dial : bytes -> result error C;
  Do : list bytes -> C -> (iface * option error) * C;
  Close : C -> C;
  redis_String : iface * option error -> bytes * option error;
  redis_Int : iface * option error -> Z * option error;
  redis_Int64 : iface * option error -> Z * option error;
  redis_Values : iface * option error -> list iface * option error
}.

(** ** The program *)

Declare Scope client_scope.
Open Scope client_scope.

Section program.
Context {C : Type} `{!Redigo C} (printable : Z -> bool).

(** How a program can stop early, and its state: the connection and the standard output. *)
Inductive stop := Fatalf (msg : bytes) | TypeAssertion.
Definition M (A : Type) : Type := C * bytes -> result stop A * (C * bytes).

Definition ret {A} (a : A) : M A := fun s => (Ret a, s).
Definition bind {A B} (m : M A) (k : A -> M B) : M B :=
  fun s => match m s with (Ret a, s) => k a s | (Fail e, s) => (Fail e, s) end.
Notation "'let*' x := m 'in' k" := (bind m (fun x => k)) (at level 10, x name, m at level 100, k at level 200) : client_scope.
Definition fatalf {A} (msg : bytes) : M A := fun s => (Fail (Fatalf msg), s).
Definition print (text : bytes) : M unit := fun '(c, out) => (Ret tt, (c, out ++ text)).
Definition conn_Do (args : list bytes) : M (iface * option error) :=
  fun '(c, out) => let '(r, c) := Do args c in (Ret r, (c, out)).

(** [%v] of an error. *)
Definition errv (err : option error) : bytes := match err with None => str "<nil>" | Some e => Error_ e end.

Definition check (err : option error) (what : bytes) : M unit :=
  match err with None => ret tt | Some e => fatalf (what ++ str ": " ++ Error_ e) end.

(** One part of [describe]; [None] is the panic of [v.([]byte)]. *)
Definition describe_part (v : iface) : option bytes :=
  match v with INil => Some (str "nil") | IBytes b => Some (Quote printable b) | _ => None end.
Fixpoint join (sep : bytes) (parts : list bytes) : bytes :=
  match parts with [] => [] | [p] => p | p :: parts => p ++ sep ++ join sep parts end.
Definition describe (values : list iface) : option bytes :=
  (fun parts => str "[" ++ join (str " ") parts ++ str "]") <$> mapM describe_part values.

(** [x, err := conv(conn.Do(args...)); check(err, what)] *)
Definition checked {A} (conv : iface * option error -> A * option error) (args : list bytes) (what : bytes) : M A :=
  bind (conn_Do args) (fun r => bind (check (conv r).2 what) (fun _ => ret (conv r).1)).

(** [fmt.Printf] of a line that ends in a newline. *)
Definition println (text : bytes) : M unit := print (text ++ [x0a]).

(** [describe] where it is called. *)
Definition described (values : list iface) : M bytes :=
  fun s => (match describe values with Some text => Ret text | None => Fail TypeAssertion end, s).

Definition binary : bytes := [ "a"; x00; "b"; x0d; x0a; "c" ]%byte.

Definition session : M unit :=
  let* pong := checked redis_String [str "PING"] (str "PING") in
  let* _ := println (str "PING            -> " ++ pong) in
  let* echo := checked redis_String [str "PING"; str "hello"] (str "PING hello") in
  let* _ := println (str "PING hello      -> " ++ Quote printable echo) in
  let* _ := checked redis_String [str "SET"; str "language"; str "go"] (str "SET") in
  let* _ := println (str "SET language go -> OK") in
  let* value := checked redis_String [str "GET"; str "language"] (str "GET") in
  let* _ := println (str "GET language    -> " ++ Quote printable value) in
  let* _ := checked redis_String [str "SET"; str "binary"; binary] (str "SET binary") in
  let* back := checked redis_String [str "GET"; str "binary"] (str "GET binary") in
  let* _ := println (str "binary value    -> round-tripped intact: " ++
              (if bool_decide (back = binary) then str "true" else str "false")) in
  let* r := conn_Do [str "GET"; str "absent"] in
  let* _ := (let err := (redis_String r).2 in
             if bool_decide (err = Some ErrNil) then ret tt
             else fatalf (str "GET on a missing key returned " ++ errv err ++ str ", want redis.ErrNil")) in
  let* _ := println (str "GET absent      -> nil") in
  let* n := checked redis_Int [str "EXISTS"; str "language"; str "binary"; str "absent"] (str "EXISTS") in
  let* _ := println (str "EXISTS x3       -> " ++ FormatInt n ++ str " present") in
  let* values := checked redis_Values [str "MGET"; str "language"; str "absent"; str "binary"] (str "MGET") in
  let* text := described values in
  let* _ := println (str "MGET x3         -> " ++ text) in
  let* c := checked redis_Int64 [str "INCR"; str "counter"] (str "INCR") in
  let* d := checked redis_Int64 [str "DECR"; str "counter"] (str "DECR") in
  let* _ := println (str "INCR then DECR  -> " ++ FormatInt c ++ str " then " ++ FormatInt d) in
  let* _ := checked redis_String [str "SET"; str "sessions"; str "1"; str "EX"; str "100"] (str "SET EX") in
  let* r := conn_Do [str "INCR"; str "sessions"] in
  let* _ := match (redis_Int64 r).2 with
            | None => ret tt
            | Some err => fatalf (str "INCR on a key with a TTL: " ++ Error_ err)
            end in
  let* ttl := checked redis_Int64 [str "TTL"; str "sessions"] (str "TTL") in
  let* _ := println (str "TTL after INCR  -> " ++ FormatInt ttl ++ str " seconds, the deadline it already had") in
  let* removed := checked redis_Int64 [str "PERSIST"; str "sessions"] (str "PERSIST") in
  let* after := checked redis_Int64 [str "TTL"; str "sessions"] (str "TTL") in
  let* _ := println (str "PERSIST         -> " ++ FormatInt removed ++ str ", and TTL is now " ++ FormatInt after) in
  let* gone := checked redis_Int64 [str "EXPIRE"; str "sessions"; str "0"] (str "EXPIRE 0") in
  let* _ := println (str "EXPIRE k 0      -> " ++ FormatInt gone ++ str ", the key is deleted") in
  let* n := checked redis_Int [str "DEL"; str "language"; str "binary"; str "counter"] (str "DEL") in
  let* _ := println (str "DEL x3          -> " ++ FormatInt n ++ str " removed") in
  let* r := conn_Do [str "TOTALLYBOGUS"] in
  let* _ := match r.2 with
            | Some err => println (str "unknown command -> " ++ Error_ err)
            | None => ret tt
            end in
  let* r := conn_Do [str "PING"] in
  let* _ := match (redis_String r).2 with
            | None => ret tt
            | Some err => fatalf (str "connection unusable after a command error: " ++ Error_ err)
            end in
  println (str "PING            -> connection still healthy").

(** How the process ends: [flag.Parse] exits, [log.Fatalf] does, a panic, or [main] returns. *)
Inductive ending := Usage (err : flag_err) | Stopped (e : stop) | Returned.

(** The standard output, and the connection if there was one. [os.Exit] runs no deferred
    call; a panic and a return run [conn.Close()]. *)
Definition main (args : list bytes) : bytes * option C * ending :=
  match Parse [Flags.String_ (str "addr") (fun v _ => v)] args (str "127.0.0.1:6380") with
  | Fail err => ([], None, Usage err)
  | Ret (addr, _) =>
      match Dial addr with
      | Fail err =>
          ([], None, Stopped (Fatalf (str "dial " ++ addr ++ str ": " ++ Error_ err ++ str " (is kv-server running?)")))
      | Ret c =>
          match session (c, []) with
          | (Ret _, (c, out)) => (out, Some (Close c), Returned)
          | (Fail TypeAssertion, (c, out)) => (out, Some (Close c), Stopped TypeAssertion)
          | (Fail (Fatalf msg), (c, out)) => (out, Some c, Stopped (Fatalf msg))
          end
      end
  end.
End program.

(** ** The library, as documented, against the server *)

(** How a reply arrives: the status texts are what the encoder makes of them. *)
Fixpoint value_of (r : Reply) : iface :=
  match r with
  | Simple s => IString (line_safe s)
  | Err s => IError (line_safe s)
  | Int n => IInt64 n
  | Bulk s => IBytes s
  | NullBulk => INil
  | Array items => IArray (value_of <$> items)
  end.

Class RedigoLaws (C : Type) `{!Redigo C} := {
  Error_text s : Error_ (redis_Error s) = s;
  String_simple s : redis_String (IString s, None) = (s, None);
  String_bulk b : redis_String (IBytes b, None) = (b, None);
  String_nil : redis_String (INil, None) = ([], Some ErrNil);
  Int_integer n : is_int64 n -> redis_Int (IInt64 n, None) = (n, None);
  Int64_integer n : is_int64 n -> redis_Int64 (IInt64 n, None) = (n, None);
  Values_array items : redis_Values (IArray items, None) = (items, None)
}.

(** What [Do] returns for a reply. *)
Definition answer_of {C} `{!Redigo C} (r : Reply) : iface * option error :=
  (value_of r, match r with Err s => Some (redis_Error (line_safe s)) | _ => None end).

(** A connection to a server that no one else uses until [T]: [connected c e t] says that the
    server holds [e] and that its clock has reached [t]. *)
Class Serves (C L : Type) `{!Redigo C, !Logger L} (T : Z) (connected : C -> Engine L -> Z -> Prop) : Prop :=
  Do_serves c e t args : args <> [] -> connected c e t ->
    exists v, t <= env_now v <= T /\ ranges (data (store e)) (env_iter v) /\
      forall r e', Dispatch v args e = Done (r, e') ->
        (Do args c).1 = answer_of r /\ connected (Do args c).2 e' (env_now v).

Section against_server.
Context {C L : Type} `{!Redigo C, !RedigoLaws C, !Logger L} (T : Z) (connected : C -> Engine L -> Z -> Prop).
Context `{!Serves C L T connected} (printable : Z -> bool).

(** The server shows exactly [m] from [t] on. *)
Definition shows (c : C) (t : Z) (m : gmap bytes entry) : Prop :=
  exists e, connected c e t /\ t <= T /\ acceptingMutations e = true /\ elog e = None /\
    forall t', t <= t' <= T -> view (store e) t' = m.

Lemma exec_done c v (e : Engine L) x : sem_cmd c (env_now v) (view (store e) (env_now v)) = Some x ->
  exists y, exec c v e = Done y.
Proof. destruct c; cbn [exec sem_cmd]; try done; intros _; try by eexists. by destruct (ETTL k (env_now v) e) as [d []]; eexists. Qed.

Lemma tick_alive t m : map_Forall (fun _ en => alive T en) m -> t <= T -> tick t m = m.
Proof.
  intros Hm Ht. apply map_eq => k. rw tick_lookup. destruct (m !! k) as [en|] eqn:E; [|done]. cbn.
  rw decide_True //. have := Hm _ _ E. rw /alive. destruct en.2; [lia|done].
Qed.

(** One command: what the abstract semantics says, whenever it is executed. *)
Lemma Do_step c t m args r m' : shows c t m -> args <> [] ->
  (forall now, t <= now <= T -> sem_cmd (parse_cmd args) now m = Some (r now, m' now)) ->
  (forall now, t <= now <= T -> map_Forall (fun _ en => alive T en) (m' now)) ->
  exists now, t <= now <= T /\ (Do args c).1 = answer_of (r now) /\ shows (Do args c).2 now (m' now).
Proof.
  intros (e & Hc & _ & Ha & Hl & Hv) Hne Hs Hm. destruct (Do_serves c e t args Hne Hc) as (v & Ht & Hr & Hd).
  have Hsem : sem_cmd (parse_cmd args) (env_now v) (view (store e) (env_now v)) = Some (r (env_now v), m' (env_now v)).
  { rw (Hv _ Ht). by apply Hs. }
  destruct (exec_done _ _ _ _ Hsem) as [[r' e'] E]. rw -Dispatch_exec in E. destruct (Hd _ _ E) as [Hdo Hc'].
  destruct (Dispatch_gate _ _ _ _ _ E) as [Ha' Hl'].
  have Himp t' : env_now v <= t' -> implements t' e r' e' (r (env_now v)) (m' (env_now v)).
  { intros Hle. have := Dispatch_refines v args e r' e' t' Ha Hle Hr E. by rw Hsem. }
  exists (env_now v). split; [done|]. have Er : r' = r (env_now v).
  { destruct (Himp (env_now v) ltac:(lia)) as [[_ [?|[[] _]]]|[[] _]]; [done|by apply Hl'|done]. }
  subst r'. split; [done|]. exists e'. split_and!; [done|lia|by rw Ha'|by apply Hl'|].
  intros t' Ht'. destruct (Himp t' ltac:(lia)) as [[-> _]|[[] _]]; [|done]. apply tick_alive; [apply Hm|]; lia.
Qed.

(** The program's two ways to call [Do], and its output, as rules for a postcondition [Q]. *)
Section rules.
Context {A B : Type} (Q : result stop B * (C * bytes) -> Prop) (c : C) (t : Z) (m : gmap bytes entry) (out : bytes).
Context (r : Z -> Reply) (m' : Z -> gmap bytes entry).

Lemma conn_Do_rule args (k : iface * option error -> M B) : shows c t m -> args <> [] ->
  (forall now, t <= now <= T -> sem_cmd (parse_cmd args) now m = Some (r now, m' now)) ->
  (forall now, t <= now <= T -> map_Forall (fun _ en => alive T en) (m' now)) ->
  (forall now c', t <= now <= T -> shows c' now (m' now) -> Q (k (answer_of (r now)) (c', out))) ->
  Q (bind (conn_Do args) k (c, out)).
Proof.
  intros Hc Hne Hs Hm HQ. destruct (Do_step c t m args r m' Hc Hne Hs Hm) as (now & Ht & Hd & Hc').
  rw /bind /conn_Do. destruct (Do args c) as [x c']. cbn in *. rw Hd. by apply HQ.
Qed.

Lemma checked_rule (conv : iface * option error -> A * option error) args what (k : A -> M B) (x : Z -> A) :
  shows c t m -> args <> [] ->
  (forall now, t <= now <= T -> sem_cmd (parse_cmd args) now m = Some (r now, m' now)) ->
  (forall now, t <= now <= T -> map_Forall (fun _ en => alive T en) (m' now)) ->
  (forall now, t <= now <= T -> conv (answer_of (r now)) = (x now, None)) ->
  (forall now c', t <= now <= T -> shows c' now (m' now) -> Q (k (x now) (c', out))) ->
  Q (bind (checked conv args what) k (c, out)).
Proof.
  intros Hc Hne Hs Hm Hx HQ. destruct (Do_step c t m args r m' Hc Hne Hs Hm) as (now & Ht & Hd & Hc').
  rw /checked /bind /conn_Do. destruct (Do args c) as [r' c']. cbn in *. rw Hd (Hx now Ht). by apply HQ.
Qed.

Lemma ret_rule (a : A) (k : A -> M B) : Q (k a (c, out)) -> Q (bind (ret a) k (c, out)).
Proof. done. Qed.

Lemma println_rule text (k : unit -> M B) : Q (k tt (c, out ++ text ++ [x0a])) -> Q (bind (println text) k (c, out)).
Proof. done. Qed.

Lemma described_rule values text (k : bytes -> M B) : describe printable values = Some text ->
  Q (k text (c, out)) -> Q (bind (described printable values) k (c, out)).
Proof. intros H. by rw /bind /described H. Qed.
End rules.

(** What the program prints, given the seconds the server reports as left. *)
Definition quoted (s : string) : bytes := x22 :: str s ++ [x22].
Definition m_text : bytes := str "[" ++ quoted "go" ++ str " nil " ++ quoted "a\x00b\r\nc" ++ str "]".
Definition transcript (ttl : Z) : bytes :=
  concat ((fun line => line ++ [x0a]) <$>
    [str "PING            -> PONG";
     str "PING hello      -> " ++ quoted "hello";
     str "SET language go -> OK";
     str "GET language    -> " ++ quoted "go";
     str "binary value    -> round-tripped intact: true";
     str "GET absent      -> nil";
     str "EXISTS x3       -> 2 present";
     str "MGET x3         -> " ++ m_text;
     str "INCR then DECR  -> 1 then 0";
     str "TTL after INCR  -> " ++ FormatInt ttl ++ str " seconds, the deadline it already had";
     str "PERSIST         -> 1, and TTL is now -1";
     str "EXPIRE k 0      -> 1, the key is deleted";
     str "DEL x3          -> 3 removed";
     str "unknown command -> ERR unknown command 'TOTALLYBOGUS'";
     str "PING            -> connection still healthy"]).

Definition finished (res : result stop unit * (C * bytes)) : Prop :=
  exists c' t ttl, res = (Ret tt, (c', transcript ttl)) /\ 0 <= ttl <= 100 /\ shows c' t ∅.

(** The seconds left of the session's time. *)
Definition left (since now : Z) : Z := (time_Sub (since + 100 * second) now / millisecond + 500) / 1000.

Lemma left_range since now : since <= now < since + 100 * second -> 0 <= left since now <= 100.
Proof.
  intros H. rw /left /time_Sub /minInt64 /maxInt64 Z.min_r; [rw /second in H |- *; lia|]. rw Z.max_r; [rw /second in H |- *; lia|].
  rw /second /millisecond in H |- *. have Hd : 0 <= (since + 100 * 1000000000 - now) / 1000000 <= 100000.
  { split; [apply Z.div_pos; lia|]. apply Z.div_le_upper_bound; lia. }
  split; [apply Z.div_pos; lia|]. have : (since + 100 * 1000000000 - now) / 1000000 + 500 < 101 * 1000 by lia.
  intros H'. apply (Z.div_lt_upper_bound _ 1000 101) in H'; lia.
Qed.

Lemma left_int since now : since <= now < since + 100 * second -> is_int64 (left since now).
Proof. intros H%left_range. rw /is_int64 /minInt64 /maxInt64. lia. Qed.

(** A call whose reply is [r], after which the server shows [m']: its side conditions, and
    what redigo makes of the reply. *)
Ltac live := repeat (apply map_Forall_insert_2; [first [exact I | rw /alive /=; lia]|]); apply map_Forall_empty.
Ltac converts :=
  first [apply String_simple | apply String_bulk | apply Values_array | apply Int64_integer, left_int; lia
        | apply Int_integer; vm_compute; intuition congruence | apply Int64_integer; vm_compute; intuition congruence].
Ltac computes := lazymatch goal with |- _ = ?y => vm_cast_no_check (@eq_refl _ y) end.
Ltac printed :=
  repeat lazymatch goal with |- finished (bind (println _) _ _) => apply println_rule; lazy beta end.
Ltac goes_on := cbn [snd]; lazy beta iota; apply ret_rule; lazy beta; printed.
Ltac advance Hc :=
  let now := fresh "now" in let c' := fresh "c" in let Hn := fresh "Hn" in let Hc' := fresh "Hc" in
  intros now c' Hn Hc'; lazy beta in Hc' |- *; clear Hc; printed.
Ltac call r m' x :=
  match goal with Hc : shows ?c ?t ?m |- _ =>
    eapply (checked_rule _ c t m _ r m' _ _ _ _ x);
    [exact Hc|discriminate|intros; computes|intros; live|intros; converts|]; advance Hc
  end.
Ltac ask r m' :=
  match goal with Hc : shows ?c ?t ?m |- _ =>
    eapply (conn_Do_rule _ c t m _ (fun _ : Z => r) (fun _ : Z => m'));
    [exact Hc|discriminate|intros; computes|intros; live|]; advance Hc
  end.
Ltac pure r m' x := call (fun _ : Z => r) (fun _ : Z => m') (fun _ : Z => x).

(** The entries the program leaves behind on its way. *)
Definition m_lang : gmap bytes entry := <[str "language" := (str "go", None)]> ∅.
Definition m_bin : gmap bytes entry := <[str "binary" := (binary, None)]> m_lang.
Definition m_counter (n : string) : gmap bytes entry := <[str "counter" := (str n, None)]> m_bin.
Definition m_sess (n : string) (d : option Z) : gmap bytes entry := <[str "sessions" := (str n, d)]> (m_counter "0").

Lemma session_runs c t0 : T < t0 + 100 * second -> shows c t0 ∅ -> finished (session printable (c, [])).
Proof.
  intros HT Hc. rw /session.
  pure (Simple (str "PONG")) (∅ : gmap bytes entry) (str "PONG").
  pure (Bulk (str "hello")) (∅ : gmap bytes entry) (str "hello").
  pure (Simple (str "OK")) m_lang (str "OK").
  pure (Bulk (str "go")) m_lang (str "go").
  pure (Simple (str "OK")) m_bin (str "OK").
  pure (Bulk binary) m_bin binary.
  ask NullBulk m_bin. rw (String_nil : redis_String (answer_of NullBulk) = _) bool_decide_eq_true_2 //.
  goes_on.
  pure (Int 2) m_bin 2.
  pure (Array [Bulk (str "go"); NullBulk; Bulk binary]) m_bin [IBytes (str "go"); INil; IBytes binary].
  apply (described_rule _ _ _ _ m_text); [vm_cast_no_check (@eq_refl _ (Some m_text))|lazy beta; printed].
  pure (Int 1) (m_counter "1") 1.
  pure (Int 0) (m_counter "0") 0.
  call (fun _ : Z => Simple (str "OK")) (fun now => m_sess "1" (Some (now + 100 * second))) (fun _ : Z => str "OK").
  match goal with H : shows _ ?n (m_sess _ _) |- _ => set (since := n) in * end.
  ask (Int 2) (m_sess "2" (Some (since + 100 * second))).
  rw (Int64_integer 2 ltac:(vm_compute; intuition congruence) : redis_Int64 (answer_of (Int 2)) = _).
  goes_on.
  call (fun now => Int (left since now)) (fun _ : Z => m_sess "2" (Some (since + 100 * second))) (left since).
  match goal with H : shows _ ?n (m_sess _ _) |- _ => have Hleft : 0 <= left since n <= 100 by apply left_range; lia end.
  pure (Int 1) (m_sess "2" None) 1.
  pure (Int (-1)) (m_sess "2" None) (-1).
  pure (Int 1) (m_counter "0") 1.
  pure (Int 3) (∅ : gmap bytes entry) 3.
  ask (Err (str "ERR unknown command 'TOTALLYBOGUS'")) (∅ : gmap bytes entry). cbn [answer_of snd]. rw Error_text. printed.
  ask (Simple (str "PONG")) (∅ : gmap bytes entry).
  rw (String_simple (str "PONG") : redis_String (answer_of (Simple (str "PONG"))) = _). goes_on.
  match goal with H : shows _ ?n ∅ |- _ => do 3 eexists; split; [|split; [exact Hleft|exact H]] end.
  rw /println /print /transcript. do 2 f_equal. match goal with |- context [left since ?n] => generalize (FormatInt (left since n)) => z end.
  cbn [concat fmap list_fmap]. rw -!app_assoc. vm_compute. reflexivity.
Qed.
End against_server.

(** C37. The server answers an ordinary client. Whatever the clock does, as long as the
    session takes less than the 100 seconds of its one expiring key: against a server that
    holds no entries, has no log and serves no one else meanwhile, the example program
    reaches the end of [main] without [log.Fatalf] or a panic, prints exactly the documented
    transcript (binary values intact, a missing key told from an empty one, the deadline kept
    by INCR, the connection usable after an unknown command), and leaves the server empty. *)
Theorem client_session {C L : Type} `{!Redigo C, !RedigoLaws C, !Logger L} T (connected : C -> Engine L -> Z -> Prop)
    `{!Serves C L T connected} printable addr c e t0 :
  Dial addr = Ret c -> connected c e t0 -> t0 <= T < t0 + 100 * second ->
  acceptingMutations e = true -> elog e = None -> view (store e) t0 = ∅ ->
  exists ttl c' e' t,
    main printable [flag_arg (str "addr") addr] = (transcript ttl, Some (Close c'), Returned) /\ 0 <= ttl <= 100 /\
    connected c' e' t /\ view (store e') t = ∅.
Proof.
  intros Hd Hc HT Ha Hl Hv. have Hs : shows T connected c t0 ∅.
  { exists e. split_and!; [done|lia|done|done|]. intros t' Ht'. rw /view in Hv |- *.
    rw -(tick_tick t0 t' (phys (store e))); [lia|]. by rw Hv. }
  destruct (session_runs T connected printable c t0 ltac:(lia) Hs) as (c' & t & ttl & E & Ht & (e' & Hc' & Hle & _ & _ & Hv')).
  exists ttl, c', e', t. split_and!; [|lia|lia|done|by apply Hv'; lia].
  rw /main (Parse_flag_arg _ (str "addr") addr [] _ (Flags.String_ (str "addr") (fun v _ => v)) addr) //. cbn [Parse].
  by rw Hd E.
Qed.

(** ** Witness: the library over a server in the same process *)

(** The connection is the server's engine, whose clock stands still, and the commands sent so
    far; the conversions are as documented, errors are their texts. *)
Definition local : Type := Engine sys * list (list bytes).
Definition local_env (e : Engine sys) : env := mkEnv second (fun _ => None) (map_to_list (data (store e))) 0 [].
Definition err_nil : bytes := str "redigo: nil returned".
Definition bad_type : bytes := str "redigo: unexpected type".
Definition convert {A} (zero : A) (f : iface -> option A) (p : iface * option bytes) : A * option bytes :=
  match p with
  | (_, Some err) => (zero, Some err)
  | (INil, None) => (zero, Some err_nil)
  | (v, None) => match f v with Some a => (a, None) | None => (zero, Some bad_type) end
  end.
Definition as_string (v : iface) : option bytes := match v with IString s => Some s | IBytes s => Some s | _ => None end.
Definition as_int (v : iface) : option Z := match v with IInt64 n => Some n | IBytes s => ParseInt s | _ => None end.
Definition as_values (v : iface) : option (list iface) := match v with IArray l => Some l | _ => None end.

#[export] Instance local_redigo : Redigo local := {|
  error := bytes;
  Error_ := fun e => e;
  ErrNil := err_nil;
  redis_Error := fun s => s;
  Dial := fun _ => Ret (NewEngine, []);
  Do := fun args c =>
    match Dispatch (local_env c.1) args c.1 with
    | Done (r, e) => ((value_of r, match r with Err s => Some (line_safe s) | _ => None end), (e, c.2 ++ [args]))
    | _ => ((INil, Some bad_type), c)
    end;
  Close := fun c => c;
  redis_String := convert [] as_string;
  redis_Int := convert 0 as_int;
  redis_Int64 := convert 0 as_int;
  redis_Values := convert [] as_values
|}.

#[export] Instance local_laws : RedigoLaws local.
Proof. by split. Qed.

Definition local_connected (c : local) (e : Engine sys) (t : Z) : Prop := c.1 = e /\ t = second.

#[export] Instance local_serves : Serves local sys second local_connected.
Proof.
  intros [e' h] e t args _ [[= ->] ->]. exists (local_env e). split; [cbn; lia|]. split; [by rw /ranges|].
  intros r e1 E. cbn -[Dispatch]. by rw E.
Qed.

Lemma client_session_witness : exists ttl c' e' t,
  main (fun _ => false) [flag_arg (str "addr") (str "localhost:6380")] = (transcript ttl, Some (Close c'), Returned) /\
  0 <= ttl <= 100 /\ local_connected c' e' t /\ view (store e') t = ∅.
Proof.
  refine (client_session second local_connected (fun _ => false) (str "localhost:6380") (NewEngine, []) NewEngine second
    eq_refl _ _ eq_refl eq_refl _); [done|rw /second; lia|done].
Defined.

(** The commands of a session, in order: not every one the server has. *)
Definition sent (res : bytes * option local * ending) : list bytes :=
  match res with (_, Some c, _) => omap head c.2 | _ => [] end.
Example commands_exercised :
  sent (main (fun _ => false) []) =
    (str <$> ["PING"; "PING"; "SET"; "GET"; "SET"; "GET"; "GET"; "EXISTS"; "MGET"; "INCR"; "DECR"; "SET"; "INCR"; "TTL";
              "PERSIST"; "TTL"; "EXPIRE"; "DEL"; "TOTALLYBOGUS"; "PING"]%string) /\
  filter (.∉ sent (main (fun _ => false) [])) (fst <$> cmds (L := sys)) = [str "KEYS"; str "SCAN"; str "DBSIZE"].
Proof. split; vm_compute; reflexivity. Qed.
