(* ===== verification/Cmdgen.v ===== *)
(** * The command generator (src/internal/cmdgen/cmdgen.go)

    [Sequence] draws commands from a seeded generator; the generator ([math/rand]) is the
    type class [Rng], of which only the documented range of [Intn] is used. [Step.String]
    and [quote] print a step on one line. An index out of range, a panic in Go, is [None]. *)

From S2P Require Import Prelude.
From S2P Require Import GoLib.
From S2P Require Import Engine.
From S2P Require Import Command.

(** ** The random source *)

(** [rand.New(rand.NewSource(seed))] and [Intn], which panics unless [0 < n]. *)
Class Rng (R : Type) := {
  new_source : Z -> R;
  Intn : Z -> R -> Z * R
}.

(** The documented contract: a number in [[0, n)]. *)
Class RngLaws (R : Type) `{!Rng R} := Intn_range n r : 0 < n -> 0 <= (Intn n r).1 < n.

(** A source that counts. *)
#[export] Instance counting : Rng Z := {| new_source seed := seed; Intn n r := (r mod n, r + 1) |}.
#[export] Instance counting_laws : RngLaws Z.
Proof. intros n r Hn. apply Z.mod_pos_bound. lia. Qed.

(** ** Steps *)

Abbreviation Step := (list bytes).

Record Config := mkConfig { Keys : list bytes; Steps : Z }.

Definition DefaultConfig : Config := mkConfig [str "k0"; str "k1"; str "k2"; str "k3"] 120.

Definition values : list bytes :=
  [str "0"; str "5"; str "-3"; str "+5"; str "07"; str "9223372036854775807"; str "-9223372036854775808";
   str "abc"; []; ["x"%byte; x00; "y"%byte; CR; LF; "z"%byte]].

Definition expiries : list (bytes * bytes) :=
  [(str "EX", str "100"); (str "EX", str "1000"); (str "PX", str "100000")].

Definition verbs : list bytes :=
  [str "SET"; str "SETEX"; str "GET"; str "MGET"; str "DEL"; str "EXISTS"; str "INCR"; str "DECR"; str "EXPIRE";
   str "TTL"; str "PERSIST"].

(** [Verbs]: a copy. *)
Definition Verbs : list bytes := verbs.

Section sequence.
Context {R : Type} `{!Rng R}.

(** Drawing: [None] is a panic. *)
Definition gen (A : Type) : Type := R -> option (A * R).
Definition ret {A} (x : A) : gen A := fun r => Some (x, r).
Definition bind {A B} (m : gen A) (k : A -> gen B) : gen B := fun r =>
  match m r with Some (x, r) => k x r | None => None end.

(** [xs[rng.Intn(len(xs))]] *)
Definition pick {A} (xs : list A) : gen A := fun r =>
  if len xs <=? 0 then None
  else let '(k, r) := Intn (len xs) r in (fun x => (x, r)) <$> xs !! Z.to_nat k.

Definition intn (n : Z) : gen Z := fun r => if n <=? 0 then None else Some (Intn n r).

Definition key (cfg : Config) : gen bytes := pick (Keys cfg).

Fixpoint keys_loop (cfg : Config) (n : nat) : gen (list bytes) :=
  match n with
  | O => ret []
  | S n => bind (key cfg) (fun k => bind (keys_loop cfg n) (fun ks => ret (k :: ks)))
  end.
Definition keys (cfg : Config) : gen (list bytes) := bind (intn 3) (fun n => keys_loop cfg (Z.to_nat (1 + n))).

(** The body of the loop: the command appended, if any. Operands are evaluated from left to
    right. *)
Definition one_step (cfg : Config) (verb : bytes) : gen (option Step) :=
  if bool_decide (verb = str "SET") then
    bind (key cfg) (fun k => bind (pick values) (fun v => ret (Some [str "SET"; k; v])))
  else if bool_decide (verb = str "SETEX") then
    bind (pick expiries) (fun ex => bind (key cfg) (fun k => bind (pick values) (fun v =>
      ret (Some [str "SET"; k; v; ex.1; ex.2]))))
  else if bool_decide (verb = str "GET") then bind (key cfg) (fun k => ret (Some [str "GET"; k]))
  else if bool_decide (verb = str "MGET") then bind (keys cfg) (fun ks => ret (Some (str "MGET" :: ks)))
  else if bool_decide (verb = str "DEL") then bind (keys cfg) (fun ks => ret (Some (str "DEL" :: ks)))
  else if bool_decide (verb = str "EXISTS") then bind (keys cfg) (fun ks => ret (Some (str "EXISTS" :: ks)))
  else if bool_decide (verb = str "INCR") then bind (key cfg) (fun k => ret (Some [str "INCR"; k]))
  else if bool_decide (verb = str "DECR") then bind (key cfg) (fun k => ret (Some [str "DECR"; k]))
  else if bool_decide (verb = str "EXPIRE") then
    bind (key cfg) (fun k => bind (pick [str "100"; str "1000"]) (fun n => ret (Some [str "EXPIRE"; k; n])))
  else if bool_decide (verb = str "TTL") then bind (key cfg) (fun k => ret (Some [str "TTL"; k]))
  else if bool_decide (verb = str "PERSIST") then bind (key cfg) (fun k => ret (Some [str "PERSIST"; k]))
  else ret None.

(** [for len(out) < cfg.Steps]. Every verb of the list appends a step, so [Steps] rounds are
    enough; running out of them is [None] too. *)
Fixpoint sequence_loop (cfg : Config) (fuel : nat) (out : list Step) : gen (list Step) :=
  if Steps cfg <=? len out then ret out
  else
    match fuel with
    | O => fun _ => None
    | S fuel =>
        bind (pick verbs) (fun verb => bind (one_step cfg verb) (fun step =>
          sequence_loop cfg fuel (out ++ match step with Some s => [s] | None => [] end)))
    end.

Definition Sequence (seed : Z) (cfg : Config) : option (list Step) :=
  if (len (Keys cfg) =? 0) || (Steps cfg <=? 0) then Some []
  else fst <$> sequence_loop cfg (Z.to_nat (Steps cfg)) [] (new_source seed).
End sequence.

(** ** Printing *)

Definition hex : bytes := str "0123456789abcdef".
Definition hex_digit (n : Z) : byte := default "0"%byte (hex !! Z.to_nat n).

Definition quote_byte (c : byte) : bytes :=
  if bool_decide (c = x22) || bool_decide (c = x5c) then [x5c; c]
  else if bool_decide (c = CR) then [x5c; "r"%byte]
  else if bool_decide (c = LF) then [x5c; "n"%byte]
  else if (bval c <? 32) || (126 <? bval c)
  then [x5c; "x"%byte; hex_digit (Z.shiftr (bval c) 4); hex_digit (Z.land (bval c) 15)]
  else [c].

Definition quote (s : bytes) : bytes := x22 :: concat (quote_byte <$> s) ++ [x22].

(** The loop of [Step.String] behind the first part. *)
Fixpoint string_rest (s : Step) : bytes :=
  match s with [] => [] | part :: s => " "%byte :: quote part ++ string_rest s end.
Definition String_ (s : Step) : bytes :=
  match s with [] => [] | part :: s => quote part ++ string_rest s end.

(** ** What is drawn *)

(** A command the server executes, on the given keys, with no deadline nearer than 100 s. *)
Definition long : Z := 100 * second.
Definition good (ks : list bytes) (c : cmd) : Prop :=
  match c with
  | CGet k | CTTL k | CMut (MPersist k) | CMut (MIncr k _) => k ∈ ks
  | CMGet l | CExists l | CMut (MDelete l) => l <> [] /\ Forall (.∈ ks) l
  | CMut (MSet k _ ttl) => (k ∈ ks) /\ (ttl_set ttl = true -> long <= ttl_d ttl)
  | CMut (MExpire k d) => (k ∈ ks) /\ long <= d
  | _ => False
  end.

Section sequence_spec.
Context {R : Type} `{!Rng R} `{!RngLaws R}.

(** [m] never panics and draws something that satisfies [P]. *)
Definition yields {A} (m : gen (R:=R) A) (P : A -> Prop) : Prop := forall r, exists x r', m r = Some (x, r') /\ P x.

Lemma yields_ret {A} (x : A) (P : A -> Prop) : P x -> yields (ret x) P.
Proof. intros H r. by exists x, r. Qed.

Lemma yields_bind {A B} (m : gen A) (k : A -> gen B) (P : A -> Prop) (Q : B -> Prop) :
  yields m P -> (forall x, P x -> yields (k x) Q) -> yields (bind m k) Q.
Proof. intros Hm Hk r. rw /bind. destruct (Hm r) as (x & r' & -> & Hx). by apply Hk. Qed.

Lemma yields_pick {A} (xs : list A) : xs <> [] -> yields (pick xs) (fun x => x ∈ xs).
Proof.
  intros Hne r. have Hl : 0 < len xs by destruct xs; [done|rw len_cons; have := len_nonneg xs; lia].
  rw /pick. destruct (Z.leb_spec (len xs) 0); [lia|]. pose proof (Intn_range (len xs) r Hl) as Hi.
  destruct (Intn (len xs) r) as [k r']. cbn [fst] in Hi.
  destruct (lookup_lt_is_Some_2 xs (Z.to_nat k)) as [x Hx]; [rw /len in Hi; lia|].
  exists x, r'. rw Hx. split; [done|]. by eapply list_elem_of_lookup_2.
Qed.

Lemma yields_keys cfg : Keys cfg <> [] -> yields (keys cfg) (fun ks => ks <> [] /\ Forall (.∈ Keys cfg) ks).
Proof.
  intros Hne. have Hloop n : yields (keys_loop cfg n) (fun ks => length ks = n /\ Forall (.∈ Keys cfg) ks).
  { induction n as [|n IH]; cbn [keys_loop]; [by apply yields_ret|].
    eapply yields_bind; [by apply yields_pick|]. intros k Hk. eapply yields_bind; [exact IH|].
    intros ks [Hl Hf]. apply yields_ret. split; [simpl; by rw Hl|by constructor]. }
  rw /keys. eapply (yields_bind _ _ (fun n => 0 <= n)).
  { intros r. rw /intn /=. destruct (Intn 3 r) as [k r'] eqn:E. exists k, r'. split; [done|].
    have := Intn_range 3 r ltac:(done). rw E /=. lia. }
  intros n Hn r. destruct (Hloop (Z.to_nat (1 + n)) r) as (ks & r' & E & Hl & Hf). exists ks, r'.
  split; [done|]. split; [|done]. intros ->. simpl in Hl. lia.
Qed.

(** A drawn key and what follows it. *)
Lemma yields_key cfg (k : bytes -> gen (option Step)) Q : Keys cfg <> [] ->
  (forall x, x ∈ Keys cfg -> yields (k x) Q) -> yields (bind (key cfg) k) Q.
Proof. intros Hne Hk. eapply yields_bind; [by apply yields_pick|done]. Qed.

Definition good_step (cfg : Config) (o : option Step) : Prop := exists s, o = Some s /\ good (Keys cfg) (parse_cmd s).

Lemma parse_setex k v ex : ex ∈ expiries -> exists d, long <= d /\
  parse_cmd [str "SET"; k; v; ex.1; ex.2] = CMut (MSet k v (ExpiresIn d)).
Proof.
  rw /expiries !elem_of_cons elem_of_nil. intros [->|[->|[->|[]]]]; eexists; (split; [|vm_compute; reflexivity]); by vm_compute.
Qed.

Lemma parse_expire k n : n ∈ [str "100"; str "1000"] -> exists d, long <= d /\
  parse_cmd [str "EXPIRE"; k; n] = CMut (MExpire k d).
Proof.
  rw !elem_of_cons elem_of_nil. intros [->|[->|[]]]; eexists; (split; [|vm_compute; reflexivity]); by vm_compute.
Qed.

Lemma yields_one_step cfg verb : Keys cfg <> [] -> verb ∈ verbs -> yields (one_step cfg verb) (good_step cfg).
Proof.
  intros Hne Hv. have Hgood s c : parse_cmd s = c -> good (Keys cfg) c -> yields (ret (Some s)) (good_step cfg).
  { intros <- H. apply yields_ret. by exists s. }
  have Hks (name : bytes) c : (forall ks, ks <> [] -> parse_cmd (name :: ks) = c ks) ->
      (forall ks, ks <> [] -> Forall (.∈ Keys cfg) ks -> good (Keys cfg) (c ks)) ->
      yields (bind (keys cfg) (fun ks => ret (Some (name :: ks)))) (good_step cfg).
  { intros Hp Hc. eapply yields_bind; [by apply yields_keys|]. intros ks [H1 H2]. by apply (Hgood _ _ (Hp _ H1)), Hc. }
  move: Hv. rw /verbs !elem_of_cons elem_of_nil.
  intros [->|[->|[->|[->|[->|[->|[->|[->|[->|[->|[->|[]]]]]]]]]]]].
  - apply (yields_key cfg (fun k => bind (pick values) (fun v => ret (Some [str "SET"; k; v])))); [done|].
    intros k Hk. eapply yields_bind; [by apply yields_pick|]. intros v _. eapply Hgood; [vm_compute; reflexivity|done].
  - eapply (yields_bind (pick expiries)); [by apply yields_pick|]. intros ex Hex. apply yields_key; [done|].
    intros k Hk. eapply yields_bind; [by apply yields_pick|]. intros v _.
    destruct (parse_setex k v ex Hex) as (d & Hd & E). by apply (Hgood _ _ E).
  - apply (yields_key cfg (fun k => ret (Some [str "GET"; k]))); [done|]. intros k Hk. by eapply Hgood.
  - by apply (Hks (str "MGET") CMGet); [intros [|]|].
  - by apply (Hks (str "DEL") (fun ks => CMut (MDelete ks))); [intros [|]|].
  - by apply (Hks (str "EXISTS") CExists); [intros [|]|].
  - apply (yields_key cfg (fun k => ret (Some [str "INCR"; k]))); [done|]. intros k Hk. by eapply Hgood.
  - apply (yields_key cfg (fun k => ret (Some [str "DECR"; k]))); [done|]. intros k Hk. by eapply Hgood.
  - apply (yields_key cfg (fun k => bind (pick [str "100"; str "1000"]) (fun n => ret (Some [str "EXPIRE"; k; n]))));
      [done|]. intros k Hk. eapply yields_bind; [by apply yields_pick|]. intros n Hn.
    destruct (parse_expire k n Hn) as (d & Hd & E). by apply (Hgood _ _ E).
  - apply (yields_key cfg (fun k => ret (Some [str "TTL"; k]))); [done|]. intros k Hk. by eapply Hgood.
  - apply (yields_key cfg (fun k => ret (Some [str "PERSIST"; k]))); [done|]. intros k Hk. by eapply Hgood.
Qed.

Lemma yields_loop cfg fuel : Keys cfg <> [] -> forall out, Steps cfg - len out <= Z.of_nat fuel -> len out <= Steps cfg ->
  Forall (fun s => good (Keys cfg) (parse_cmd s)) out ->
  yields (sequence_loop cfg fuel out)
    (fun out => len out = Steps cfg /\ Forall (fun s => good (Keys cfg) (parse_cmd s)) out).
Proof.
  intros Hne. induction fuel as [|fuel IH] => out Hf Hl Hg; cbn [sequence_loop];
    (destruct (Z.leb_spec (Steps cfg) (len out)); [apply yields_ret; split; [lia|done]|]); [lia|].
  eapply yields_bind; [by apply yields_pick|]. intros verb Hv.
  eapply yields_bind; [by apply yields_one_step|]. intros ? (s & -> & Hs).
  apply IH; [rw len_app len_cons len_nil; lia|rw len_app len_cons len_nil; lia|].
  apply Forall_app. split; [done|]. by constructor.
Qed.

(** C38. Every generated sequence is usable: for any configuration, any seed and any random
    source that keeps its contract, [Sequence] returns without a panic; with no keys or no
    positive number of steps it returns no command, otherwise exactly [Steps] of them, each
    a command the server parses and executes (no unknown name, wrong arity or malformed
    option), on the configured keys only and with no expiry nearer than 100 seconds; so two
    runs of a sequence never differ by the time they take. *)
Theorem generated_sequences_valid seed cfg :
  exists out, Sequence seed cfg = Some out /\
    len out = (if bool_decide (Keys cfg = []) then 0 else Z.max 0 (Steps cfg)) /\
    Forall (fun s => good (Keys cfg) (parse_cmd s)) out.
Proof.
  rw /Sequence. case_bool_decide as Hne; [by exists []; rw Hne|].
  have : len (Keys cfg) <> 0.
  { destruct (Keys cfg) as [|k ks]; [done|]. rw len_cons. have := len_nonneg ks. lia. }
  destruct (Z.eqb_spec (len (Keys cfg)) 0); [done|]. cbn [orb]. intros _.
  destruct (Z.leb_spec (Steps cfg) 0); [by exists []; rw Z.max_l|]. rw Z.max_r; [lia|].
  destruct (yields_loop cfg (Z.to_nat (Steps cfg)) Hne [] ltac:(rw len_nil; lia) ltac:(rw len_nil; lia)
    ltac:(constructor) (new_source seed)) as (out & r' & E & Hl & Hg). exists out. by rw E.
Qed.
End sequence_spec.

(** ** Reading a printed step back *)

Definition hex_val (c : byte) : Z := default 0 (Z.of_nat <$> (fst <$> list_find (fun d => d = c) hex)).

(** One character of a quoted string, or its closing quote. *)
Inductive quoted_token := QByte (c : byte) | QEnd.
Definition unquote_token (b : bytes) : option (quoted_token * bytes) :=
  match b with
  | [] => None
  | c :: b =>
      if bool_decide (c = x22) then Some (QEnd, b)
      else if bool_decide (c = x5c) then
        match b with
        | [] => None
        | d :: b =>
            if bool_decide (d = "r"%byte) then Some (QByte CR, b)
            else if bool_decide (d = "n"%byte) then Some (QByte LF, b)
            else if bool_decide (d = "x"%byte) then
              match b with
              | h :: l :: b => Some (QByte (byte_of (16 * hex_val h + hex_val l)), b)
              | _ => None
              end
            else Some (QByte d, b)
        end
      else Some (QByte c, b)
  end.

Fixpoint unquote_loop (fuel : nat) (b : bytes) : option (bytes * bytes) :=
  match fuel with
  | O => None
  | S fuel =>
      match unquote_token b with
      | None => None
      | Some (QEnd, b) => Some ([], b)
      | Some (QByte c, b) => (fun '(s, b) => (c :: s, b)) <$> unquote_loop fuel b
      end
  end.

Definition unquote (b : bytes) : option (bytes * bytes) :=
  match b with c :: b => if bool_decide (c = x22) then unquote_loop (length b) b else None | [] => None end.

Lemma unquote_quote_byte c t : unquote_token (quote_byte c ++ t) = Some (QByte c, t).
Proof. by destruct c. Qed.

Lemma quote_byte_printable c : Forall (fun d => 32 <= bval d <= 126) (quote_byte c) /\ quote_byte c <> [].
Proof. destruct c; (split; [repeat constructor; by vm_compute|done]). Qed.

Lemma unquote_loop_quote s : forall fuel t, (length s < fuel)%nat ->
  unquote_loop fuel (concat (quote_byte <$> s) ++ x22 :: t) = Some (s, t).
Proof.
  induction s as [|c s IH] => fuel t Hf; (destruct fuel as [|fuel]; [simpl in Hf; lia|]); cbn [unquote_loop]; [done|].
  cbn [fmap list_fmap concat]. rw -app_assoc unquote_quote_byte IH; [simpl in Hf; lia|done].
Qed.

Lemma quoted_length s : (length s <= length (concat (quote_byte <$> s)))%nat.
Proof.
  induction s as [|c s IH]; [done|]. cbn [fmap list_fmap concat length]. rw length_app.
  destruct (quote_byte_printable c) as [_ Hne]. destruct (quote_byte c); [done|]. simpl. lia.
Qed.

Lemma unquote_quote s t : unquote (quote s ++ t) = Some (s, t).
Proof.
  rw /unquote /quote. cbn [app]. rw bool_decide_eq_true_2 // -app_assoc. cbn [app]. apply unquote_loop_quote.
  rw length_app /=. have := quoted_length s. lia.
Qed.

(** The parts of a printed step. *)
Fixpoint read_rest (fuel : nat) (b : bytes) : option Step :=
  match fuel, b with
  | _, [] => Some []
  | O, _ => None
  | S fuel, c :: b =>
      if bool_decide (c = " "%byte) then
        match unquote b with Some (s, b) => cons s <$> read_rest fuel b | None => None end
      else None
  end.
Definition read_step (b : bytes) : option Step :=
  match b with
  | [] => Some []
  | _ => match unquote b with Some (s, b) => cons s <$> read_rest (length b) b | None => None end
  end.

Lemma read_rest_string s : forall fuel, (length s <= fuel)%nat -> read_rest fuel (string_rest s) = Some s.
Proof.
  induction s as [|part s IH] => fuel Hf; [by destruct fuel|]. destruct fuel as [|fuel]; [simpl in Hf; lia|].
  cbn [string_rest read_rest]. rw bool_decide_eq_true_2 // unquote_quote IH //. simpl in Hf. lia.
Qed.

Lemma string_rest_length s : (length s <= length (string_rest s))%nat.
Proof. induction s as [|p s IH]; [done|]. cbn [string_rest length]. rw length_app. lia. Qed.

Lemma quote_printable s : Forall (fun c => 32 <= bval c <= 126) (quote s).
Proof.
  rw /quote. constructor; [by vm_compute|]. apply Forall_app. split; [|constructor; [by vm_compute|constructor]].
  apply Forall_concat, Forall_fmap, Forall_true. intros c. apply quote_byte_printable.
Qed.

(** A failure message is one printable line and loses nothing: whatever bytes a step
    holds, its printed form is printable ASCII without line breaks, and the step can be
    read back from it exactly. *)
Theorem step_string_roundtrip (s : Step) :
  read_step (String_ s) = Some s /\ Forall (fun c => 32 <= bval c <= 126) (String_ s).
Proof.
  split.
  - destruct s as [|part s]; [done|]. rw /read_step. cbn [String_]. destruct (quote part ++ string_rest s) eqn:E; [done|].
    rw -E unquote_quote read_rest_string //. apply string_rest_length.
  - destruct s as [|part s]; [constructor|]. cbn [String_]. apply Forall_app. split; [apply quote_printable|].
    induction s as [|p s IH]; [constructor|]. cbn [string_rest]. constructor; [by vm_compute|].
    apply Forall_app. split; [apply quote_printable|done].
Qed.

(** ** Witness *)

Lemma generated_witness :
  (exists out, Sequence (R:=Z) 5 DefaultConfig = Some out /\ len out = 120) /\
  exists out, Sequence (R:=Z) 5 (mkConfig [] 120) = Some out /\ len out = 0.
Proof.
  split.
  - destruct (generated_sequences_valid (R:=Z) 5 DefaultConfig) as (out & H1 & H2 & _). by exists out.
  - destruct (generated_sequences_valid (R:=Z) 5 (mkConfig [] 120)) as (out & H1 & H2 & _). by exists out.
Defined.
